(* ===== verification/_CoqProject ===== *)
-Q . S2P
Prelude.v
Types.v
Message.v
PipeIDs.v
Core.v
Req.v
ReqInv.v
Conn.v
Chan.v
Backtrace.v
XRep.v
XReq.v
Rep.v
Sub.v
SubInv.v
Surveyor.v
SurveyorInv.v
XPub.v
XPair.v
XPair1.v
XPush.v
XPushInv.v
XPull.v
XSub.v
XBus.v
XStar.v
XSurveyor.v
XRespondent.v
Respondent.v
Protocol.v
Socket.v
SocketInv.v
SocketClose.v
Wrapper.v
Cooked.v
Transports.v
Inproc.v
InprocInv.v
