(* ===== verification/Prelude.v ===== *)
(** * Prelude: the mangos development, and its shared vocabulary

    Mangos is an implementation in Go of the scalability protocols.  An
    application opens a socket of some protocol (REQ, SUB, PAIR, ...); the
    socket dials and listens at addresses through transports, each connection
    becomes a pipe, and the protocol moves messages between the application and
    the pipes.  This library models the code and proves what it guarantees.

    ** How the parts work together

    An application calls the core socket ([src/internal/core/socket.go]), which
    forwards messages to the protocol ([src/protocol/*]) and keeps dialers
    ([dialer.go]) and listeners ([listener.go]).  These get connections from a
    transport and hand them to [socket.addPipe], which wraps each in a pipe with
    an ID of its own ([pipe.go]) and attaches it to the protocol ([AddPipe]).
    The protocol starts a goroutine for each direction of the pipe; these call
    [SendMsg] and [RecvMsg] of the pipe, which the transport implements
    ([src/transport/conn.go] for streams).  Messages ([src/message.go]) are
    reference counted and come from pools.  A device ([src/device.go]) joins two
    raw sockets; protocols that route keep the way back in the message header.

    ** The files

    Foundations:
    - [Prelude]: notations, record update, counting, lists, and transition
      systems ([reachable], [steps], [play]).
    - [Types]: errors, options and protocol numbers of [src/errors/errors.go],
      [src/options.go], [src/protocol.go].
    - [Message]: [src/message.go] as a store of shared objects; [newMsg],
      [NewMessage], [Clone], [Dup], [Free], [MakeUnique] and the pools.
    - [Chan]: goroutines, channels and [select], once for all protocols: the
      machine runs any [Program], and a critical section of a mutex is one step
      of the program.  [wf] (channels are bounded FIFO queues) and [owned]
      (every message reference has one owner) are proved for all programs.
    The core:
    - [PipeIDs]: [pipeIDAllocator] of [src/internal/core/pipe.go].
    - [Core]: pipes of [pipe.go] and [socket.go], from arrival to detachment.
    - [Protocol]: [mangos.ProtocolBase] as a class, its laws, and PAIR as an
      instance.
    - [Socket], [SocketInv], [SocketClose]: [socket.go], [dialer.go] and
      [listener.go], over [Core] and any [ProtocolBase].
    Transports:
    - [Conn]: [src/transport/conn.go] and [connipc_posix.go], framing and
      handshake on byte streams.
    - [Transports]: the registry and the addresses of [src/transport/transport.go].
    - [Inproc] and [InprocInv]: [src/transport/inproc/inproc.go], listeners,
      dialers and pipes of a process as one program of [Chan].
    Protocols, each [src/protocol/<name>/<name>.go]:
    - [Req] and [ReqInv], whose state machine is a step relation of its own
      (the code uses a mutex and condition variables);
    - [Rep], [Sub], [SubInv], [Surveyor], [SurveyorInv], [Respondent]: the
      protocols with contexts;
    - [XRep], [XReq], [XPub], [XSub], [XPair], [XPair1], [XPush], [XPushInv],
      [XPull], [XBus], [XStar], [XSurveyor], [XRespondent]: the raw ones;
    - [Wrapper] and [Cooked]: PAIR, PAIR1, PUB, PUSH, PULL, BUS and STAR, which
      wrap raw ones; [Wrapper] is what the three that hide headers share, proved
      against a class of raw protocols, and [Cooked] has its instances;
    - [Backtrace]: the loops that move pipe IDs between header and body, used by
      the files above, and devices.

    ** How state and operations correspond to the code

    A struct is a record with the source's field names; shared structs live in
    stores (finite maps) and are named by identity, as pointers are.  An
    assignment [x.f = v] is [x <| f := v |>].  A method is a function of the
    state under the method's name; a method that blocks is cut at its blocking
    points, and the pieces are named after it ([SendMsg], [SendMsg_next], ...).
    Goroutines are program points (the type [thread]); for a program of [Chan],
    [select] gives the cases a goroutine offers ([sel] in each file), [resume]
    what it does after one ([res]).  A mutex that is released before anything
    blocks makes its section one step; where the code holds a mutex across
    channel operations, the mutex is a variable of the model ([locked]).  An
    event is a call of the application, of the core or of the transport, with
    what the environment chooses (the order in which [range] visits a map, what
    a transport returns, when a timer fires) as its arguments; all choices are
    allowed, so a theorem about every reachable state holds for every schedule.
    Ghost fields ([submitted], [arrived], [published], [ever], [quit], ...)
    record history and are never read by the code's definitions.  A panic of the
    Go program (a nil dereference, closing a closed channel, sending on one)
    sets [crashed], or makes the step say so.  Integers are [Z], with wrap-around
    written out where the code relies on their width (pipe and request IDs,
    lengths, hop counts).

    ** What the theorems show

    - Messages: no message is recycled while referenced; contents are stable.
    - Pipes: IDs are fresh and never freed twice; the protocol sees a legal
      sequence of calls for each pipe; what happens to rejected pipes.
    - Sockets: a dialer makes one attempt at a time and never gives up; the
      delay between attempts; closing reaches every dialer, listener and pipe.
    - Framing: round trip over arbitrary chunks, all errors of [Recv], agreement
      of the handshakes of two connected ends, no connection lost by the
      handshaker.  In [InprocInv]: pipes come in crossed pairs, what is taken is
      what was sent, no sleeping dialer is forgotten, closing wakes both ends.
    - Routing: which headers receivers accept; a request through any chain of
      devices comes back on the same way; replies go to the pipe the request
      came from (XREP, REP, RESPONDENT, XRESPONDENT), and responses to the
      context that asked (REQ, SURVEYOR).
    - Delivery: queues are FIFO and bounded, nothing is delivered that was not
      sent, to at most one pipe (XREQ, XPUSH), to all in order (XPUB), to all but
      the source (XBUS, XSTAR), within the TTL (XSTAR, XPAIR1), with a matching
      topic (SUB), from one peer (XPAIR).
    - Progress: REQ queues no message while a pipe is free; [sender] of XPUSH has
      no lost wakeup; SUB does not block with its mutex held.
    - No panic: SURVEYOR; no nil dereference in REQ, REP and RESPONDENT.
    - Refinement: wrapped sockets run as the raw ones, and give the application
      messages without headers; bodies travel unchanged.
    Some theorems show where the code does not do what it means to: a rejected
    pipe keeps its ID for good, a queue of length 0 stops XPUSH and deadlocks
    SUB, a raw RESPONDENT with TTL 1 is deaf, a cancelled REQ forgets its
    request, and a peer can make a stream transport without a receive limit
    allocate what no machine has.

    ** Bounds and fuel

    - [PipeIDs.Get_loop] gets fuel two above the number of IDs in use; [Get_fresh]
      proves that this suffices while fewer than 2^31 - 2 are in use.
    - The walks of [Backtrace] over a body recurse on fuel above its length;
      each turn takes four bytes off.
    - [Conn.ReadFull] takes as many passes as bytes are asked for; each pass
      returns at least one byte or an error.
    - [Conn.maxAlloc] is the address space of the Go runtime on 64-bit machines,
      2^48 bytes; [make] panics above it.
    - The loop of [Req.send] runs at most once per entry of the queue.
    - [Socket.jitter_ok] takes the delay to be below 2^51 ns (26 days), below
      which the conversions to float64 and back are exact enough; [redial]
      multiplies by a factor between 1.1 and 1.5, given as a rational.

    ** Not modelled

    - The transports that wrap system calls or other packages (TCP, TLS, IPC,
      Unix sockets, Windows pipes, UDP, WebSocket, DTLS): what is theirs beyond
      [Conn] is calls to [net], [crypto/tls], [coder/websocket] and [pion/dtls].
    - The command line tool [src/macat], examples and performance tests, and
      the helpers of the tests ([src/internal/test]).
    - Time: a timer may fire at any moment after it was armed.  Memory: the
      capacity of slices, but for the size of pooled buffers.  The Go memory
      model: accesses are taken to be sequentially consistent, and reads outside
      a mutex are steps of their own where the code has them. *)
From stdpp Require Import gmap list strings fin_maps.
From Stdlib Require Import ZArith Lia.

Declare Scope mangos_scope.
Delimit Scope mangos_scope with mangos.
Open Scope mangos_scope.

(** ** Functional record update

    Go structs are records here, and an assignment [x.f = v] is
    [x <| f := v |>].  A record type opts in with an [Eta] instance, which
    writes a value of the type as its constructor applied to its fields;
    [Setter] instances are then found by abstracting one field. *)
Class Eta (R : Type) := eta_expand : R → R.

Class Setter {R T : Type} (proj : R → T) := set_field : (T → T) → R → R.
Arguments set_field {R T} proj {_} f r /.

Ltac build_setter :=
  lazymatch goal with
  | |- @Setter ?R ?T ?proj =>
      let E := constr:(ltac:(typeclasses eauto) : Eta R) in
      let E := eval hnf in E in
      let r := fresh "r" in
      let f := fresh "f" in
      refine (fun (f : T → T) (r : R) => _);
      let e := eval cbv beta in (E r) in
      lazymatch (eval pattern (proj r) in e) with
      | ?g _ => let b := eval cbv beta in (g (f (proj r))) in exact b
      end
  end.
#[global] Hint Extern 0 (Setter _) => build_setter : typeclass_instances.

Notation "r <| proj := v |>" := (set_field proj (λ _, v) r)
  (at level 12, left associativity) : mangos_scope.
Notation "r <| proj ::= f |>" := (set_field proj f r)
  (at level 12, left associativity) : mangos_scope.

(** ** Counting in a finite map *)
Definition cnt {A} (f : A → bool) (m : gmap nat A) : nat :=
  size (filter (λ kv, f kv.2 = true) m).

Lemma cnt_empty {A} (f : A → bool) : cnt f ∅ = 0.
Proof. done. Qed.
Lemma cnt_insert_new {A} (f : A → bool) m i x :
  m !! i = None → cnt f (<[i := x]> m) = cnt f m + Nat.b2n (f x).
Proof.
  intros Hi. unfold cnt. destruct (f x) eqn:Hf; simpl.
  - rewrite map_filter_insert_True by done. rewrite map_size_insert_None; [lia|].
    apply map_lookup_filter_None. by left.
  - rewrite map_filter_insert_not'; [lia|simpl; congruence|congruence].
Qed.
Lemma cnt_delete {A} (f : A → bool) m i x :
  m !! i = Some x → cnt f m = cnt f (delete i m) + Nat.b2n (f x).
Proof.
  intros Hi. rewrite <-(insert_delete_id m i x) at 1 by done.
  by rewrite cnt_insert_new by apply lookup_delete_eq.
Qed.
Lemma cnt_replace {A} (f : A → bool) m i x y :
  m !! i = Some x → cnt f (<[i := y]> m) + Nat.b2n (f x) = cnt f m + Nat.b2n (f y).
Proof.
  intros Hi. rewrite <-insert_delete_eq, cnt_insert_new by apply lookup_delete_eq.
  rewrite (cnt_delete f m i x) by done. lia.
Qed.
Lemma cnt_pos {A} (f : A → bool) m i x : m !! i = Some x → f x = true → 0 < cnt f m.
Proof. intros Hi Hf. rewrite (cnt_delete f m i x), Hf by done. simpl. lia. Qed.
Lemma cnt_none {A} (f : A → bool) m : (∀ i x, m !! i = Some x → f x = false) → cnt f m = 0.
Proof.
  intros H. unfold cnt. apply map_size_empty_iff, map_empty. intros i.
  apply map_lookup_filter_None. right. intros x Hx. specialize (H _ _ Hx). simpl. congruence.
Qed.

(** ** Machine integers *)
Definition u32 (z : Z) : Z := z mod 2 ^ 32.
Definition i32 (z : Z) : Z := (z + 2 ^ 31) mod 2 ^ 32 - 2 ^ 31.
Definition u64 (z : Z) : Z := z mod 2 ^ 64.
Definition i64 (z : Z) : Z := (z + 2 ^ 63) mod 2 ^ 64 - 2 ^ 63.

Lemma u32_range z : (0 ≤ u32 z < 2 ^ 32)%Z.
Proof. unfold u32. apply Z.mod_pos_bound. lia. Qed.

Lemma u32_small z : (0 ≤ z < 2 ^ 32)%Z → u32 z = z.
Proof. apply Z.mod_small. Qed.

Lemma i32_small z : (- 2 ^ 31 ≤ z < 2 ^ 31)%Z → i32 z = z.
Proof. intros H. unfold i32. rewrite Z.mod_small; lia. Qed.

Lemma i64_small z : (- 2 ^ 63 ≤ z < 2 ^ 63)%Z → i64 z = z.
Proof. intros H. unfold i64. rewrite Z.mod_small; lia. Qed.

(** ** Bytes and big-endian words

    [encoding/binary.BigEndian] reads and writes fixed-width words with the
    most significant byte first. *)
#[global] Instance byte_eq_dec : EqDecision Byte.byte := Byte.byte_eq_dec.

Definition Z_of_byte (b : Byte.byte) : Z := Z.of_N (Byte.to_N b).
Definition byte_of_Z (z : Z) : Byte.byte :=
  default Byte.x00 (Byte.of_N (Z.to_N (z mod 256))).

(** The Go test [b&0x80 != 0]. *)
Definition high_bit (b : Byte.byte) : bool :=
  negb (Z.land (Z_of_byte b) 128 =? 0)%Z.

Fixpoint be_encode (n : nat) (z : Z) : list Byte.byte :=
  match n with
  | O => []
  | S n' => byte_of_Z (Z.shiftr z (8 * Z.of_nat n')) :: be_encode n' z
  end.

Definition be_decode (l : list Byte.byte) : Z :=
  foldl (λ acc b, acc * 256 + Z_of_byte b)%Z 0%Z l.

Lemma Z_of_byte_range b : (0 ≤ Z_of_byte b < 256)%Z.
Proof.
  unfold Z_of_byte. pose proof (Byte.to_N_bounded b). lia.
Qed.

Lemma Z_of_byte_of_Z z : Z_of_byte (byte_of_Z z) = (z mod 256)%Z.
Proof.
  unfold byte_of_Z, Z_of_byte.
  pose proof (Z.mod_pos_bound z 256 ltac:(lia)) as Hb.
  destruct (Byte.of_N (Z.to_N (z mod 256))) as [b|] eqn:E; simpl.
  - apply Byte.to_of_N in E. rewrite E. lia.
  - apply Byte.of_N_None_iff in E. lia.
Qed.

Lemma byte_of_Z_of_byte b : byte_of_Z (Z_of_byte b) = b.
Proof.
  unfold byte_of_Z. rewrite Z.mod_small by apply Z_of_byte_range.
  unfold Z_of_byte. rewrite N2Z.id, Byte.of_to_N. done.
Qed.

Lemma Z_of_byte_inj b1 b2 : Z_of_byte b1 = Z_of_byte b2 → b1 = b2.
Proof.
  intros H. by rewrite <-(byte_of_Z_of_byte b1), H, byte_of_Z_of_byte.
Qed.

Lemma length_be_encode n z : length (be_encode n z) = n.
Proof. induction n; simpl; congruence. Qed.

Lemma be_decode_foldl acc l :
  foldl (λ acc b, acc * 256 + Z_of_byte b)%Z acc l =
  (acc * 256 ^ Z.of_nat (length l) + be_decode l)%Z.
Proof.
  unfold be_decode. revert acc. induction l as [|b l IH]; intros acc.
  - simpl. lia.
  - cbn [foldl length]. rewrite IH, (IH (0 * 256 + Z_of_byte b)%Z).
    replace (Z.of_nat (S (length l))) with (Z.of_nat (length l) + 1)%Z by lia.
    rewrite Z.pow_add_r by lia. lia.
Qed.

Lemma be_decode_cons b l :
  be_decode (b :: l) = (Z_of_byte b * 256 ^ Z.of_nat (length l) + be_decode l)%Z.
Proof.
  unfold be_decode at 1. cbn [foldl]. rewrite be_decode_foldl. lia.
Qed.

Lemma be_decode_range l : (0 ≤ be_decode l < 256 ^ Z.of_nat (length l))%Z.
Proof.
  induction l as [|b l IH]; [done|].
  rewrite be_decode_cons. simpl length.
  replace (Z.of_nat (S (length l))) with (Z.of_nat (length l) + 1)%Z by lia.
  rewrite Z.pow_add_r by lia. pose proof (Z_of_byte_range b). nia.
Qed.

Lemma pow256 n : (256 ^ Z.of_nat n = 2 ^ (8 * Z.of_nat n))%Z.
Proof. rewrite Z.pow_mul_r by lia. done. Qed.

(** Reading back a word of [n] bytes gives it modulo [2^(8n)]. *)
Lemma be_decode_encode n z :
  be_decode (be_encode n z) = (z mod 2 ^ (8 * Z.of_nat n))%Z.
Proof.
  induction n as [|n IH].
  - simpl. by rewrite Z.mod_1_r.
  - cbn [be_encode]. rewrite be_decode_cons, IH, length_be_encode, Z_of_byte_of_Z.
    rewrite pow256, Z.shiftr_div_pow2 by lia.
    replace (8 * Z.of_nat (S n))%Z with (8 * Z.of_nat n + 8)%Z by lia.
    rewrite Z.pow_add_r by lia. change (2 ^ 8)%Z with 256%Z.
    rewrite Z.rem_mul_r by lia. lia.
Qed.

Lemma be_encode_mod n k z :
  n ≤ k → be_encode n (z mod 2 ^ (8 * Z.of_nat k)) = be_encode n z.
Proof.
  intros Hk. induction n as [|n IH]; [done|].
  cbn [be_encode]. rewrite IH by lia. f_equal.
  apply Z_of_byte_inj. rewrite !Z_of_byte_of_Z.
  change 256%Z with (2 ^ 8)%Z.
  apply Z.bits_inj'; intros i Hi.
  destruct (decide (i < 8)%Z).
  - rewrite !Z.mod_pow2_bits_low, !Z.shiftr_spec by lia.
    by rewrite Z.mod_pow2_bits_low by lia.
  - by rewrite !Z.mod_pow2_bits_high by lia.
Qed.

Lemma be_encode_decode l n : length l = n → be_encode n (be_decode l) = l.
Proof.
  intros <-. induction l as [|b l IH]; [done|].
  cbn [length be_encode]. rewrite be_decode_cons. f_equal.
  - rewrite Z.shiftr_div_pow2, pow256 by lia.
    rewrite Z.div_add_l by lia. rewrite Z.div_small.
    + by rewrite Z.add_0_r, byte_of_Z_of_byte.
    + rewrite <-pow256. apply be_decode_range.
  - rewrite <-(be_encode_mod (length l) (length l)) by lia.
    rewrite Z.add_comm, pow256, Z.mod_add by lia.
    rewrite be_encode_mod by lia. apply IH.
Qed.

Lemma be_encode_inj n z1 z2 :
  be_encode n z1 = be_encode n z2 →
  (z1 mod 2 ^ (8 * Z.of_nat n) = z2 mod 2 ^ (8 * Z.of_nat n))%Z.
Proof. intros H. rewrite <-!be_decode_encode. by rewrite H. Qed.

Lemma high_bit_spec b : high_bit b = (128 <=? Z_of_byte b)%Z.
Proof. by destruct b. Qed.

(** The top bit of the first byte of a big-endian [uint32] is the value's
    top bit: the first byte is below 128 exactly when the value is below
    [0x80000000]. *)
Lemma be32_high_bit z :
  (0 ≤ z < 2 ^ 32)%Z →
  ∃ b l, be_encode 4 z = b :: l ∧ high_bit b = (2 ^ 31 <=? z)%Z.
Proof.
  intros Hz. eexists _, _. split; [reflexivity|].
  rewrite high_bit_spec, Z_of_byte_of_Z, Z.shiftr_div_pow2 by lia.
  change (2 ^ (8 * Z.of_nat 3))%Z with (2 ^ 24)%Z.
  rewrite Z.mod_small by (split; [apply Z.div_pos|apply Z.div_lt_upper_bound]; lia).
  destruct (Z.leb_spec (2 ^ 31) z) as [H|H].
  - apply Z.leb_le. apply Z.div_le_lower_bound; lia.
  - apply Z.leb_gt. apply Z.div_lt_upper_bound; lia.
Qed.

(** Big-endian 32-bit words as the Go code writes and reads them. *)
Abbreviation put_uint32 := (be_encode 4).
Abbreviation uint32_of := be_decode.

(** ** Queues kept in slices *)
Section Queues.
Context {A : Type} `{EqDecision A}.
Implicit Types (x y : A) (l : list A).

(** [for i, y := range l { if y == x { l = append(l[:i], l[i+1:]...); return } }] *)
Fixpoint remove_first x l : list A :=
  match l with
  | [] => []
  | y :: l' => if decide (y = x) then l' else y :: remove_first x l'
  end.

(** [for i, y := range l { if y == x { l[0], l[i] = l[i], l[0]; break } }] *)
Definition swap_front x l : list A :=
  match list_find (λ y, y = x) l, l with
  | Some (i, y), h :: _ => <[0:=y]> (<[i:=h]> l)
  | _, _ => l
  end.

Lemma remove_first_notin x l : x ∉ l → remove_first x l = l.
Proof.
  induction l as [|y l IH]; [done|]. rewrite not_elem_of_cons.
  intros [? ?]. simpl. rewrite decide_False by done. by rewrite IH.
Qed.

Lemma elem_of_remove_first_1 x y l : y ∈ remove_first x l → y ∈ l.
Proof.
  induction l as [|z l IH]; [done|]. simpl. case_decide; set_solver.
Qed.

Lemma elem_of_remove_first_ne x y l : y ≠ x → y ∈ l → y ∈ remove_first x l.
Proof.
  intros ?. induction l as [|z l IH]; [done|]. simpl. case_decide; set_solver.
Qed.

Lemma NoDup_remove_first x l : NoDup l → NoDup (remove_first x l).
Proof.
  induction 1 as [|z l Hz Hl IH]; simpl; [constructor|].
  case_decide; [done|]. constructor; [|done].
  intros Hin%elem_of_remove_first_1. done.
Qed.

Lemma remove_first_NoDup_notin x l : NoDup l → x ∉ remove_first x l.
Proof.
  induction 1 as [|z l Hz Hl IH]; simpl; [set_solver|].
  case_decide; set_solver.
Qed.

Lemma elem_of_remove_first x y l :
  NoDup l → y ∈ remove_first x l ↔ y ∈ l ∧ y ≠ x.
Proof.
  intros Hnd. split.
  - intros Hin. split; [by eapply elem_of_remove_first_1|].
    intros ->. by eapply remove_first_NoDup_notin.
  - intros [? ?]. by apply elem_of_remove_first_ne.
Qed.

Lemma swap_front_Permutation x l : swap_front x l ≡ₚ l.
Proof.
  unfold swap_front. destruct (list_find _ l) as [[i y]|] eqn:Hf; [|done].
  apply list_find_Some in Hf as (Hi & -> & _).
  destruct l as [|h l]; [done|]. destruct i as [|i]; simpl in *.
  - by simplify_eq.
  - rewrite <-(take_drop_middle l i x) at 2 by done.
    rewrite insert_take_drop by (by eapply lookup_lt_Some).
    rewrite <-!Permutation_middle. constructor.
Qed.
End Queues.

(** ** Updates of one object in a store *)
Lemma alter_id_at {A} (f : A → A) (c : nat) (m : gmap nat A) :
  (∀ x, m !! c = Some x → f x = x) → alter f c m = m.
Proof.
  intros H. apply map_eq. intros k. rewrite lookup_alter. case_decide as E; [|done].
  subst. destruct (m !! k) as [x|] eqn:Hx; simpl; [|done]. by rewrite (H x).
Qed.

Lemma alter_alter {A} (f g : A → A) (c : nat) (m : gmap nat A) :
  alter f c (alter g c m) = alter (λ x, f (g x)) c m.
Proof.
  apply map_eq. intros k. destruct (decide (c = k)) as [<-|].
  - rewrite !lookup_alter_eq. by destruct (m !! c).
  - by rewrite !lookup_alter_ne.
Qed.

(** ** Guards *)
Lemma guard_bind_Some {A} P `{Decision P} (x : option A) y :
  (guard P;; x) = Some y ↔ P ∧ x = Some y.
Proof. case_guard; simpl; naive_solver. Qed.

(** ** Labelled step systems

    A component with goroutines is a partial function [step]: a label names
    the goroutine that moves and resolves the choices the Go runtime makes,
    and [None] says the move is not enabled.  [ok] is what the environment
    of the component promises about a label in a state. *)
Section StepSystem.
Context {St Lb : Type} (step : Lb → St → option St).

Fixpoint run (ls : list Lb) (s : St) : option St :=
  match ls with
  | [] => Some s
  | l :: ls' => s' ← step l s; run ls' s'
  end.

Inductive reachable (init : St → Prop) (ok : St → Lb → Prop) : St → Prop :=
  | reachable_init s : init s → reachable init ok s
  | reachable_step l s s' :
      reachable init ok s → ok s l → step l s = Some s' → reachable init ok s'.

Lemma reachable_invariant (init : St → Prop) (ok : St → Lb → Prop) (I : St → Prop) :
  (∀ s, init s → I s) →
  (∀ l s s', I s → ok s l → step l s = Some s' → I s') →
  ∀ s, reachable init ok s → I s.
Proof. intros Hi Hs s. induction 1; eauto. Qed.

Lemma run_app ls1 ls2 s : run (ls1 ++ ls2) s = (s' ← run ls1 s; run ls2 s').
Proof.
  revert s. induction ls1 as [|l ls1 IH]; intros s; simpl; [done|].
  destruct (step l s); simpl; auto.
Qed.

(** Running a concrete schedule whose every label the environment may
    produce stays within the reachable states. *)
Fixpoint run_ok (okb : St → Lb → bool) (ls : list Lb) (s : St) : option St :=
  match ls with
  | [] => Some s
  | l :: ls' => if okb s l then s' ← step l s; run_ok okb ls' s' else None
  end.

Lemma run_ok_reachable (init : St → Prop) (ok : St → Lb → Prop) okb ls s s' :
  (∀ s l, okb s l = true → ok s l) →
  reachable init ok s → run_ok okb ls s = Some s' → reachable init ok s'.
Proof.
  intros Hok. revert s. induction ls as [|l ls IH]; simpl; intros s Hr Hrun.
  { by simplify_eq. }
  destruct (okb s l) eqn:Hb; [|done].
  apply bind_Some in Hrun as (s1 & Hstep & Hrun).
  eapply IH; [|done]. eapply reachable_step; eauto.
Qed.

(** The state after a schedule (the start, when some move is refused). *)
Definition play (okb : St → Lb → bool) (ls : list Lb) (s : St) : St :=
  default s (run_ok okb ls s).

Lemma play_reachable (init : St → Prop) (ok : St → Lb → Prop) okb ls s :
  (∀ s l, okb s l = true → ok s l) → init s →
  reachable init ok (play okb ls s).
Proof.
  intros Hok Hi. unfold play. destruct (run_ok okb ls s) as [s'|] eqn:E; simpl.
  - eapply run_ok_reachable; [done|by apply reachable_init|done].
  - by apply reachable_init.
Qed.
End StepSystem.

(** ** Filters *)
Lemma list_filter_ext_in {A} (P Q : A → Prop) `{!∀ x, Decision (P x), !∀ x, Decision (Q x)} (l : list A) :
  (∀ x, x ∈ l → P x ↔ Q x) → filter P l = filter Q l.
Proof.
  intros Hi. induction l as [|x l IH]; [done|]. rewrite !filter_cons.
  rewrite IH by (intros y Hy; apply Hi; by right). pose proof (Hi x ltac:(by left)).
  repeat case_decide; tauto.
Qed.

(** ** Sums over finite maps

    Counting what the objects of a store hold. *)
Section MapSum.
Context {K V : Type} `{Countable K}.
Implicit Types (f : V → nat) (m : gmap K V).

Definition map_sum f m : nat := map_fold (λ _ v n, f v + n) 0 m.

Lemma map_sum_empty f : map_sum f ∅ = 0.
Proof. apply map_fold_empty. Qed.

Lemma map_sum_insert_new f m k v : m !! k = None → map_sum f (<[k := v]> m) = f v + map_sum f m.
Proof. intros Hk. unfold map_sum. rewrite map_fold_insert_L; [done| |done]. intros; lia. Qed.

Lemma map_sum_delete f m k v : m !! k = Some v → map_sum f m = f v + map_sum f (delete k m).
Proof.
  intros Hk. rewrite <-(insert_delete_id m k v Hk) at 1.
  apply map_sum_insert_new, lookup_delete_eq.
Qed.

(** Replacing an entry. *)
Lemma map_sum_insert f m k v v' :
  m !! k = Some v → map_sum f (<[k := v']> m) + f v = map_sum f m + f v'.
Proof.
  intros Hk. rewrite (map_sum_delete f m k v Hk), <-insert_delete_eq.
  rewrite map_sum_insert_new by apply lookup_delete_eq. lia.
Qed.

Lemma map_sum_ge f m k v : m !! k = Some v → f v ≤ map_sum f m.
Proof. intros Hk. rewrite (map_sum_delete f m k v Hk). lia. Qed.

Lemma map_sum_fmap f (g : V → V) m : (∀ v, f (g v) = f v) → map_sum f (g <$> m) = map_sum f m.
Proof.
  intros Hg. induction m as [|k v m Hk IH] using map_ind; [by rewrite fmap_empty|].
  rewrite fmap_insert, !map_sum_insert_new; [by rewrite Hg, IH|done|].
  by rewrite lookup_fmap, Hk.
Qed.

Lemma map_sum_le f g m : (∀ v, f v ≤ g v) → map_sum f m ≤ map_sum g m.
Proof.
  intros Hfg. induction m as [|k v m Hk IH] using map_ind; [by rewrite !map_sum_empty|].
  rewrite !map_sum_insert_new by done. specialize (Hfg v). lia.
Qed.
End MapSum.

(** How often a value occurs in a list. *)
Definition occ {A} `{EqDecision A} (a : A) (l : list A) : nat := length (filter (λ x, x = a) l).

Lemma occ_nil {A} `{EqDecision A} (a : A) : occ a [] = 0.
Proof. done. Qed.
Lemma occ_cons {A} `{EqDecision A} (a x : A) l :
  occ a (x :: l) = (if decide (x = a) then 1 else 0) + occ a l.
Proof. unfold occ. rewrite filter_cons. by case_decide. Qed.
Lemma occ_app {A} `{EqDecision A} (a : A) l1 l2 : occ a (l1 ++ l2) = occ a l1 + occ a l2.
Proof. unfold occ. by rewrite filter_app, length_app. Qed.
Lemma occ_elem_of {A} `{EqDecision A} (a : A) l : a ∈ l ↔ 0 < occ a l.
Proof.
  induction l as [|x l IH]; [rewrite occ_nil, elem_of_nil; lia|].
  rewrite occ_cons, elem_of_cons, IH. case_decide as E.
  - split; [lia|by left].
  - split; [intros [->|?]; [done|lia]|right; lia].
Qed.
Lemma occ_NoDup {A} `{EqDecision A} (a : A) l : NoDup l → occ a l ≤ 1.
Proof.
  induction 1 as [|x l Hx Hl IH]; [rewrite occ_nil; lia|]. rewrite occ_cons.
  case_decide; [|lia]. subst. rewrite occ_elem_of in Hx. lia.
Qed.
