(* ===== verification/Types.v ===== *)
(** * Types: errors, options and protocol numbers

    The constants of [src/errors/errors.go], [src/options.go] and
    [src/protocol.go], and the dynamic values ([interface{}]) that options
    carry.  Every component uses these. *)
From stdpp Require Import gmap list strings fin_maps.
From Stdlib Require Import ZArith Lia.
From S2P Require Import Prelude.

(** [src/errors/errors.go]: the predefined error values.  [ErrOther] stands
    for an error of a lower layer (a [net.Conn], the operating system) that
    the code only passes on. *)
Inductive err :=
  | ErrBadAddr | ErrBadHeader | ErrBadVersion | ErrTooShort | ErrTooLong
  | ErrClosed | ErrConnRefused | ErrSendTimeout | ErrRecvTimeout
  | ErrProtoState | ErrProtoOp | ErrBadTran | ErrBadProto | ErrBadOption
  | ErrBadValue | ErrGarbled | ErrAddrInUse | ErrBadProperty
  | ErrTLSNoConfig | ErrTLSNoCert | ErrNotRaw | ErrCanceled | ErrNoContext
  | ErrNoPeers | ErrOther (code : nat).

#[global] Instance err_eq_dec : EqDecision err.
Proof. solve_decision. Defined.

(** A Go [error] result: [None] is [nil]. *)
Abbreviation error := (option err).

(** A Go pair [(T, error)]. *)
Inductive result (A : Type) := Ok (a : A) | Err (e : err).
Arguments Ok {A} a.
Arguments Err {A} e.

#[global] Instance result_eq_dec {A} `{EqDecision A} : EqDecision (result A).
Proof. solve_decision. Defined.

(** [interface{}] values that options are set to; a type assertion
    [v.(T)] is a match on the constructor.  Durations are nanoseconds. *)
Inductive value :=
  | VBool (b : bool)
  | VInt (z : Z)
  | VDuration (d : Z)
  | VBytes (l : list Byte.byte)
  | VString (s : string)
  | VOther (tag : nat).

#[global] Instance value_eq_dec : EqDecision value.
Proof. solve_decision. Defined.

(** [src/options.go]: option names. *)
Definition OptionRaw : string := "RAW".
Definition OptionRecvDeadline : string := "RECV-DEADLINE".
Definition OptionSendDeadline : string := "SEND-DEADLINE".
Definition OptionRetryTime : string := "RETRY-TIME".
Definition OptionSubscribe : string := "SUBSCRIBE".
Definition OptionUnsubscribe : string := "UNSUBSCRIBE".
Definition OptionSurveyTime : string := "SURVEY-TIME".
Definition OptionWriteQLen : string := "WRITEQ-LEN".
Definition OptionReadQLen : string := "READQ-LEN".
Definition OptionTTL : string := "TTL".
Definition OptionMaxRecvSize : string := "MAX-RCV-SIZE".
Definition OptionReconnectTime : string := "RECONNECT-TIME".
Definition OptionMaxReconnectTime : string := "MAX-RECONNECT-TIME".
Definition OptionReconnectBackoffOnClose : string := "RECONNECT-BACKOFF-ON-CLOSE".
Definition OptionBestEffort : string := "BEST-EFFORT".
Definition OptionLocalAddr : string := "LOCAL-ADDR".
Definition OptionRemoteAddr : string := "REMOTE-ADDR".
Definition OptionDialAsynch : string := "DIAL-ASYNCH".
Definition OptionFailNoPeers : string := "FAIL-NO-PEERS".

(** [src/protocol.go]: protocol numbers, and what a protocol says of itself. *)
Definition ProtoPair : Z := 0x10.
Definition ProtoPair1 : Z := 0x11.
Definition ProtoPub : Z := 0x20.
Definition ProtoSub : Z := 0x21.
Definition ProtoReq : Z := 0x30.
Definition ProtoRep : Z := 0x31.
Definition ProtoPush : Z := 0x50.
Definition ProtoPull : Z := 0x51.
Definition ProtoSurveyor : Z := 0x62.
Definition ProtoRespondent : Z := 0x63.
Definition ProtoBus : Z := 0x70.
Definition ProtoStar : Z := 0x640.

Record ProtocolInfo := mkInfo {
  Self : Z;
  Peer : Z;
  SelfName : string;
  PeerName : string
}.

#[global] Instance ProtocolInfo_eq_dec : EqDecision ProtocolInfo.
Proof. solve_decision. Defined.
