(* ===== verification/Message.v ===== *)
(** * Message: reference-counted messages and their pools

    [src/message.go].  Messages are shared objects: the store [mheap] maps a
    message's identity (the Go pointer) to its fields, and holds the
    [sync.Pool]s of recycled messages.  [Header] and [Body] are the bytes of
    the slices; the capacity of the body buffer [bbuf] is [bsize]. *)
From stdpp Require Import gmap list strings fin_maps.
From Stdlib Require Import ZArith Lia.
From S2P Require Import Prelude Types.

(** A message pointer. *)
Abbreviation mid := nat.

Record message := mkMessage {
  Header : list Byte.byte;
  Body : list Byte.byte;
  Pipe : option Z;
  bsize : Z;
  refcnt : Z
}.
#[export] Instance eta_message : Eta message := λ m,
  mkMessage (Header m) (Body m) (Pipe m) (bsize m) (refcnt m).
#[export] Instance message_inhabited : Inhabited message :=
  populate (mkMessage [] [] None 0 0).

(** The size classes of [messageCache]. *)
Definition messageCache : list Z := [64; 128; 256; 512; 1024; 4096; 8192; 65536]%Z.

(** The store: the message objects, the contents of each class's pool, and
    the next identity [newMsg] hands out. *)
Record mheap := mkHeap {
  objs : gmap mid message;
  pools : list (list mid);
  next_mid : mid
}.
#[export] Instance eta_mheap : Eta mheap := λ h,
  mkHeap (objs h) (pools h) (next_mid h).

Definition heap0 : mheap := mkHeap ∅ (replicate (length messageCache) []) 0.

(** [newMsg]: fields not named in the source have their zero value. *)
Definition newMsg (sz : Z) (h : mheap) : mid * mheap :=
  let m := next_mid h in
  (m, h <| objs ::= <[m := mkMessage [] [] None sz 0]> |> <| next_mid := S m |>).

(** [messageCache[i].pool.Get()]: a [sync.Pool] returns an arbitrary item it
    holds, or calls [New].  [ch] is the runtime's choice. *)
Definition pool_get (i : nat) (ch : option nat) (h : mheap) : mid * mheap :=
  let p := default [] (pools h !! i) in
  match ch ≫= λ j, p !! j with
  | Some m => (m, h <| pools ::= <[i := remove_first m p]> |>)
  | None => newMsg (default 0%Z (messageCache !! i)) h
  end.

(** The first size class that satisfies a test ([for i := range
    messageCache { if ... { ...; break } }]). *)
Definition find_class (P : Z → bool) : option nat :=
  fst <$> list_find (λ maxbody, P maxbody = true) messageCache.

Definition NewMessage (sz : Z) (ch : option nat) (h : mheap) : mid * mheap :=
  let '(m, h) :=
    match find_class (λ maxbody, sz <? maxbody)%Z with
    | Some i => pool_get i ch h
    | None => newMsg sz h
    end in
  (m, h <| objs ::= alter (λ o, o <| Body := [] |> <| Header := [] |> <| refcnt := 1%Z |>) m |>).

(** [Free]: the last reference puts the message back into the pool of its
    size class, if it has one. *)
Definition Free (m : mid) (h : mheap) : mheap :=
  match objs h !! m with
  | None => h
  | Some o =>
      let o := o <| refcnt := i32 (refcnt o - 1) |> in
      let h := h <| objs ::= <[m := o]> |> in
      if decide (refcnt o = 0)%Z then
        match find_class (λ maxbody, bsize o =? maxbody)%Z with
        | Some i => h <| pools ::= alter (cons m) i |>
        | None => h
        end
      else h
  end.

(** [m.Free()] on a possibly nil pointer. *)
Definition Free_opt (m : option mid) (h : mheap) : mheap :=
  match m with Some m => Free m h | None => h end.

Definition Clone (m : mid) (h : mheap) : mheap :=
  h <| objs ::= alter (λ o, o <| refcnt := i32 (refcnt o + 1) |>) m |>.

Definition Dup (m : mid) (ch : option nat) (h : mheap) : mid * mheap :=
  let o := objs h !!! m in
  let '(d, h) := NewMessage (Z.of_nat (length (Body o))) ch h in
  (d, h <| objs ::= alter (λ od, od <| Body := Body od ++ Body o |>
                                    <| Header := Header od ++ Header o |>
                                    <| Pipe := Pipe o |>) d |>).

Definition MakeUnique (m : mid) (ch : option nat) (h : mheap) : mid * mheap :=
  if decide (refcnt (objs h !!! m) = 1)%Z then (m, h)
  else
    let '(d, h) := Dup m ch h in
    (d, Free m h).

(** Assignments to the exported fields. *)
Definition set_Header (m : mid) (v : list Byte.byte) (h : mheap) : mheap :=
  h <| objs ::= alter (λ o, o <| Header := v |>) m |>.
Definition set_Body (m : mid) (v : list Byte.byte) (h : mheap) : mheap :=
  h <| objs ::= alter (λ o, o <| Body := v |>) m |>.
Definition set_Pipe (m : mid) (v : option Z) (h : mheap) : mheap :=
  h <| objs ::= alter (λ o, o <| Pipe := v |>) m |>.

(** ** Well-formed stores *)
Record heap_wf (h : mheap) : Prop := {
  wf_pool i p m : pools h !! i = Some p → m ∈ p →
    ∃ o, objs h !! m = Some o ∧ refcnt o = 0%Z ∧ messageCache !! i = Some (bsize o);
  wf_nodup i p : pools h !! i = Some p → NoDup p;
  wf_next m : is_Some (objs h !! m) → m < next_mid h;
  wf_len : length (pools h) = length messageCache
}.

Lemma heap0_wf : heap_wf heap0.
Proof.
  split; cbn [heap0 pools objs next_mid].
  - intros i p m [-> _]%lookup_replicate Hm. set_solver.
  - intros i p [-> _]%lookup_replicate. constructor.
  - intros m [? H]. by rewrite lookup_empty in H.
  - apply length_replicate.
Qed.

Lemma messageCache_inj i j z :
  messageCache !! i = Some z → messageCache !! j = Some z → i = j.
Proof.
  assert (NoDup messageCache) by (apply (bool_decide_unpack _); vm_compute; done).
  eauto using NoDup_lookup.
Qed.

Lemma find_class_Some P i :
  find_class P = Some i → ∃ z, messageCache !! i = Some z ∧ P z = true.
Proof.
  unfold find_class. intros [[j z] [Hf ->]]%fmap_Some.
  apply list_find_Some in Hf as (Hi & HP & _). eauto.
Qed.

(** What an allocation may touch: it hands out an object that was unknown or
    had no reference left. *)
Definition unreferenced (h : mheap) (m : mid) : Prop :=
  ∀ o, objs h !! m = Some o → refcnt o = 0%Z.

Lemma newMsg_spec sz h m h' :
  heap_wf h → newMsg sz h = (m, h') →
  objs h !! m = None ∧ objs h' = <[m := mkMessage [] [] None sz 0]> (objs h) ∧
  heap_wf h' ∧ (∀ p, p ∈ pools h' → m ∉ p).
Proof.
  intros [Hp Hnd Hn Hl]. unfold newMsg. intros [= <- <-]; simpl.
  assert (objs h !! next_mid h = None) as Hfresh.
  { apply eq_None_not_Some. intros Hs%Hn. lia. }
  assert (∀ i p, pools h !! i = Some p → next_mid h ∉ p) as Hnotin.
  { intros i p Hi Hin. destruct (Hp _ _ _ Hi Hin) as (o & Ho & _). congruence. }
  split_and!; [done..| |].
  - split; simpl; [|done| |done].
    + intros i p m Hi Hm. destruct (Hp _ _ _ Hi Hm) as (o & Ho & ?).
      exists o. rewrite lookup_insert_ne by congruence. done.
    + intros m. rewrite lookup_insert_is_Some.
      intros [->|[_ Hs]]; [lia|]. apply Hn in Hs. lia.
  - intros p [i Hi]%list_elem_of_lookup. eauto.
Qed.

Lemma pool_take_wf i p m h :
  heap_wf h → pools h !! i = Some p → m ∈ p →
  let h' := h <| pools ::= <[i := remove_first m p]> |> in
  heap_wf h' ∧ (∀ q, q ∈ pools h' → m ∉ q).
Proof.
  intros [Hpool Hnd Hn Hl] Hp Hin h'. subst h'. simpl.
  assert (i < length (pools h)) as Hlt by (by eapply lookup_lt_Some).
  assert (∀ j q, <[i := remove_first m p]> (pools h) !! j = Some q →
    (j = i ∧ q = remove_first m p) ∨ (j ≠ i ∧ pools h !! j = Some q)) as Hcase.
  { intros j q. rewrite list_lookup_insert_Some. clear. naive_solver. }
  split.
  - split; simpl; [| |done|by rewrite length_insert].
    + intros j q m' [[-> ->]|[_ Hq]]%Hcase Hm; [|by eauto].
      apply elem_of_remove_first_1 in Hm. eauto.
    + intros j q [[-> ->]|[_ Hq]]%Hcase; [|by eauto].
      apply NoDup_remove_first. eauto.
  - intros q [j [[-> ->]|[Hne Hq]]%Hcase]%list_elem_of_lookup.
    + apply remove_first_NoDup_notin. eauto.
    + intros Hm. destruct (Hpool _ _ _ Hq Hm) as (o & Ho & _ & Hc).
      destruct (Hpool _ _ _ Hp Hin) as (o' & Ho' & _ & Hc'). simplify_eq.
      eauto using messageCache_inj.
Qed.

Lemma pool_get_spec i ch h m h' z :
  heap_wf h → messageCache !! i = Some z → pool_get i ch h = (m, h') →
  unreferenced h m ∧ heap_wf h' ∧ (∀ p, p ∈ pools h' → m ∉ p) ∧
  ∃ o, objs h' = <[m := o]> (objs h) ∧ bsize o = z.
Proof.
  intros Hwf Hz. unfold pool_get. rewrite Hz. simpl.
  destruct (ch ≫= _) as [m'|] eqn:E.
  - intros [= <- <-]. apply bind_Some in E as (j & -> & Hj).
    destruct (pools h !! i) as [p|] eqn:Hp; simpl in *; [|done].
    apply list_elem_of_lookup_2 in Hj as Hin.
    destruct (pool_take_wf i p m' h) as [Hwf' Hnot]; [done..|].
    destruct (wf_pool h Hwf _ _ _ Hp Hin) as (o & Ho & Hr & Hc).
    split_and!; [by intros o' ?; simplify_eq|done..|].
    exists o. simpl. split; [by rewrite insert_id|congruence].
  - intros Hnew. apply newMsg_spec in Hnew as (Hn' & Ho & Hwf' & Hnot); [|done].
    split_and!; [by intros o ?; simplify_eq|done..|]. eauto.
Qed.

Lemma wf_alter m f h :
  heap_wf h → (∀ p, p ∈ pools h → m ∉ p) → heap_wf (h <| objs ::= alter f m |>).
Proof.
  intros [Hpool Hnd Hn Hl] Hnot. split; simpl; [|done| |done].
  - intros i p m' Hi Hm. destruct (Hpool _ _ _ Hi Hm) as (o & Ho & ?).
    exists o. rewrite lookup_alter_ne; [done|].
    intros ->. eapply Hnot; [|done]. by eapply list_elem_of_lookup_2.
  - intros m'. rewrite lookup_alter. case_decide; subst; rewrite ?fmap_is_Some; apply Hn.
Qed.

(** [NewMessage]: an unreferenced object is handed out, emptied, with one
    reference and room for [sz] bytes; nothing else changes. *)
Lemma NewMessage_spec sz ch h m h' :
  heap_wf h → NewMessage sz ch h = (m, h') →
  unreferenced h m ∧ heap_wf h' ∧
  ∃ o, objs h' = <[m := o]> (objs h) ∧ Header o = [] ∧ Body o = [] ∧
       refcnt o = 1%Z ∧ (sz ≤ bsize o)%Z.
Proof.
  intros Hwf. unfold NewMessage.
  destruct (match find_class _ with Some i => _ | None => _ end) as [m1 h1] eqn:E.
  intros [= <- <-].
  assert (unreferenced h m1 ∧ heap_wf h1 ∧ (∀ p, p ∈ pools h1 → m1 ∉ p) ∧
    ∃ o, objs h1 = <[m1 := o]> (objs h) ∧ (sz ≤ bsize o)%Z)
    as (Hun & Hwf1 & Hnot & o & Ho & Hsz).
  { destruct (find_class _) as [i|] eqn:Hf.
    - apply find_class_Some in Hf as (z & Hz & Hlt%Z.ltb_lt).
      eapply pool_get_spec in E as (? & ? & ? & o & ? & ?); [|done..].
      split_and!; [done..|]. exists o. split; [done|lia].
    - apply newMsg_spec in E as (? & ? & ? & ?); [|done].
      split_and!; [intros o ?; simplify_eq|done..|]. eexists. split; [done|]. done. }
  split_and!; [done|by apply wf_alter|].
  eexists. simpl. rewrite Ho, alter_insert_eq. by split_and!.
Qed.

Lemma wf_insert_same_pool m o o' h :
  heap_wf h → objs h !! m = Some o → (∀ p, p ∈ pools h → m ∉ p) →
  heap_wf (h <| objs ::= <[m := o']> |>).
Proof.
  intros Hwf Ho Hnot.
  replace (h <| objs ::= <[m := o']> |>) with (h <| objs ::= alter (λ _, o') m |>).
  { by apply wf_alter. }
  simpl. f_equal. apply map_eq. intros k.
  rewrite lookup_alter, lookup_insert. case_decide; subst; by rewrite ?Ho.
Qed.

Lemma referenced_not_pooled h m o p :
  heap_wf h → objs h !! m = Some o → refcnt o ≠ 0%Z → p ∈ pools h → m ∉ p.
Proof.
  intros Hwf Ho Hr [i Hi]%list_elem_of_lookup Hm.
  destruct (wf_pool h Hwf _ _ _ Hi Hm) as (o' & ? & ? & _). by simplify_eq.
Qed.

Lemma pool_put_wf m o i h :
  heap_wf h → objs h !! m = Some o → refcnt o = 0%Z → (∀ p, p ∈ pools h → m ∉ p) →
  messageCache !! i = Some (bsize o) →
  heap_wf (h <| pools ::= alter (cons m) i |>).
Proof.
  intros [Hpool Hnd Hn Hl] Ho Hr Hnot Hc.
  assert (∀ j q, alter (cons m) i (pools h) !! j = Some q →
    (j = i ∧ ∃ p, pools h !! i = Some p ∧ q = m :: p) ∨ pools h !! j = Some q) as Hcase.
  { intros j q. destruct (decide (i = j)) as [<-|Hne].
    - rewrite list_lookup_alter_eq. intros (p & ? & ->)%fmap_Some. eauto 6.
    - rewrite list_lookup_alter_ne by done. eauto. }
  split; simpl; [| |done|by rewrite length_alter].
  - intros j q m' [[-> (p & Hp & ->)]|Hq]%Hcase Hm; [|by eauto].
    apply elem_of_cons in Hm as [->|Hm]; [by eauto|]. eauto.
  - intros j q [[-> (p & Hp & ->)]|Hq]%Hcase; [|by eauto].
    constructor; [|by eauto]. eapply Hnot, list_elem_of_lookup_2; eauto.
Qed.

Lemma Free_spec m o h :
  heap_wf h → objs h !! m = Some o → (1 ≤ refcnt o < 2 ^ 31)%Z →
  heap_wf (Free m h) ∧
  objs (Free m h) = <[m := o <| refcnt := (refcnt o - 1)%Z |>]> (objs h).
Proof.
  intros Hwf Ho Hr. unfold Free. rewrite Ho. rewrite i32_small by (simpl; lia).
  set (o' := o <| refcnt := (refcnt o - 1)%Z |>).
  set (h1 := h <| objs ::= <[m := o']> |>).
  assert (∀ p, p ∈ pools h → m ∉ p) as Hnot.
  { intros p. eapply referenced_not_pooled; [done..|lia]. }
  assert (heap_wf h1) as Hwf1 by (by eapply wf_insert_same_pool).
  case_decide as Hz; [|done].
  destruct (find_class _) as [i|] eqn:Hf; [|done].
  apply find_class_Some in Hf as (z & Hz' & Heq%Z.eqb_eq).
  split; [|done]. apply (pool_put_wf m o'); [done|apply lookup_insert_eq|done..|].
  by rewrite Heq.
Qed.

Lemma Clone_spec m o h :
  heap_wf h → objs h !! m = Some o → (1 ≤ refcnt o < 2 ^ 31 - 1)%Z →
  heap_wf (Clone m h) ∧
  objs (Clone m h) = <[m := o <| refcnt := (refcnt o + 1)%Z |>]> (objs h).
Proof.
  intros Hwf Ho Hr. unfold Clone. split.
  - apply wf_alter; [done|]. intros p. eapply referenced_not_pooled; [done..|lia].
  - simpl. rewrite <-(insert_id (objs h) m o) at 1 by done.
    rewrite alter_insert_eq. rewrite i32_small by lia. done.
Qed.

Lemma Dup_spec m ch o h d h' :
  heap_wf h → objs h !! m = Some o → refcnt o ≠ 0%Z → Dup m ch h = (d, h') →
  d ≠ m ∧ unreferenced h d ∧ heap_wf h' ∧
  ∃ od, objs h' = <[d := od]> (objs h) ∧ Header od = Header o ∧
        Body od = Body o ∧ Pipe od = Pipe o ∧ refcnt od = 1%Z.
Proof.
  intros Hwf Ho Hr. unfold Dup. rewrite (lookup_total_correct _ _ _ Ho).
  destruct (NewMessage _ ch h) as [d1 h1] eqn:Hnew. intros [= <- <-].
  apply NewMessage_spec in Hnew as (Hun & Hwf1 & od & Hod & Hh & Hb & Hrc & _); [|done].
  split_and!; [|done| |].
  - intros ->. by apply Hun in Ho.
  - apply wf_alter; [done|]. intros p. eapply referenced_not_pooled; [done| |].
    + rewrite Hod. apply lookup_insert_eq.
    + by rewrite Hrc.
  - eexists. simpl. rewrite Hod, alter_insert_eq. split; [done|]. simpl.
    by rewrite Hh, Hb, Hrc.
Qed.

(** [MakeUnique] gives the caller an object with the same contents and no
    other reference; when the original was shared it loses exactly the
    caller's reference, and is otherwise untouched. *)
Lemma MakeUnique_spec m ch o h d h' :
  heap_wf h → objs h !! m = Some o → (1 ≤ refcnt o < 2 ^ 31)%Z →
  MakeUnique m ch h = (d, h') →
  heap_wf h' ∧
  (∃ od, objs h' !! d = Some od ∧ Header od = Header o ∧ Body od = Body o ∧
         Pipe od = Pipe o ∧ refcnt od = 1%Z) ∧
  (d = m ∧ h' = h ∧ refcnt o = 1%Z ∨
   d ≠ m ∧ (1 < refcnt o)%Z ∧ unreferenced h d ∧
   objs h' !! m = Some (o <| refcnt := (refcnt o - 1)%Z |>) ∧
   ∀ k, k ≠ d → k ≠ m → objs h' !! k = objs h !! k).
Proof.
  intros Hwf Ho Hr. unfold MakeUnique. rewrite (lookup_total_correct _ _ _ Ho).
  case_decide as H1.
  { intros [= <- <-]. split_and!; [done|by eauto 10|by left]. }
  destruct (Dup m ch h) as [d1 h1] eqn:Hd. intros [= <- <-].
  eapply Dup_spec in Hd as (Hne & Hun & Hwf1 & od & Hod & ?); [|done..|lia].
  assert (objs h1 !! m = Some o) as Ho1 by (by rewrite Hod, lookup_insert_ne).
  destruct (Free_spec m o h1) as [Hwf2 Hfree]; [done..|].
  rewrite Hfree. split_and!; [done| |right].
  - exists od. rewrite lookup_insert_ne by done. by rewrite Hod, lookup_insert_eq.
  - split_and!; [done|lia|done|apply lookup_insert_eq|].
    intros k ??. rewrite lookup_insert_ne by done. by rewrite Hod, lookup_insert_ne.
Qed.

(** ** Clients of the message API

    The references that the program's goroutines hold, and the calls they
    make with them.  A call on a message needs a reference to it; [Clone]'s
    comment asks that a shared message is never modified, so a write needs
    the only reference. *)
Record mstate := mkMState { ms_heap : mheap; ms_held : gmap mid nat }.

Definition refs (s : mstate) (m : mid) : nat := default 0 (ms_held s !! m).
Definition acquire (m : mid) (held : gmap mid nat) : gmap mid nat :=
  <[m := S (default 0 (held !! m))]> held.
Definition release (m : mid) (held : gmap mid nat) : gmap mid nat :=
  <[m := pred (default 0 (held !! m))]> held.

Inductive mlabel :=
  | LNew (sz : Z) (ch : option nat)
  | LClone (m : mid)
  | LFree (m : mid)
  | LDup (m : mid) (ch : option nat)
  | LUnique (m : mid) (ch : option nat)
  | LWrite (m : mid) (hdr body : list Byte.byte).

Definition mstep (l : mlabel) (s : mstate) : option mstate :=
  let '(mkMState h held) := s in
  match l with
  | LNew sz ch => let '(m, h') := NewMessage sz ch h in Some (mkMState h' (acquire m held))
  | LClone m => guard (0 < refs s m);; Some (mkMState (Clone m h) (acquire m held))
  | LFree m => guard (0 < refs s m);; Some (mkMState (Free m h) (release m held))
  | LDup m ch =>
      guard (0 < refs s m);;
      let '(d, h') := Dup m ch h in Some (mkMState h' (acquire d held))
  | LUnique m ch =>
      guard (0 < refs s m);;
      let '(d, h') := MakeUnique m ch h in
      Some (mkMState h' (acquire d (release m held)))
  | LWrite m hdr body =>
      guard (refs s m = 1);;
      Some (mkMState (set_Header m hdr (set_Body m body h)) held)
  end.

Definition minit (s : mstate) : Prop := s = mkMState heap0 ∅.
(** The reference count is an [int32]: fewer than [2^31 - 1] references. *)
Definition mok (s : mstate) (l : mlabel) : Prop :=
  match l with LClone m => (Z.of_nat (refs s m) < 2 ^ 31 - 1)%Z | _ => True end.

#[export] Instance mok_dec s l : Decision (mok s l).
Proof. destruct l; unfold mok; apply _. Defined.
Definition mokb (s : mstate) (l : mlabel) : bool := bool_decide (mok s l).

Record minv (s : mstate) : Prop := {
  minv_wf : heap_wf (ms_heap s);
  minv_cnt m o : objs (ms_heap s) !! m = Some o → refcnt o = Z.of_nat (refs s m);
  minv_dom m : 0 < refs s m → is_Some (objs (ms_heap s) !! m);
  minv_max m : (Z.of_nat (refs s m) < 2 ^ 31)%Z
}.

Lemma refs_acquire h held m k :
  refs (mkMState h (acquire m held)) k =
  if decide (m = k) then S (refs (mkMState h held) k) else refs (mkMState h held) k.
Proof.
  unfold refs, acquire. simpl. rewrite lookup_insert. by case_decide; subst.
Qed.

Lemma refs_release h held m k :
  refs (mkMState h (release m held)) k =
  if decide (m = k) then pred (refs (mkMState h held) k) else refs (mkMState h held) k.
Proof.
  unfold refs, release. simpl. rewrite lookup_insert. by case_decide; subst.
Qed.

Lemma refs_heap h h' held m : refs (mkMState h held) m = refs (mkMState h' held) m.
Proof. done. Qed.

Lemma minv_held s m :
  minv s → 0 < refs s m →
  ∃ o, objs (ms_heap s) !! m = Some o ∧ refcnt o = Z.of_nat (refs s m) ∧
       (1 ≤ refcnt o < 2 ^ 31)%Z.
Proof.
  intros [Hwf Hc Hd Hm] Hr. destruct (Hd _ Hr) as [o Ho].
  pose proof (Hc _ _ Ho). pose proof (Hm m). exists o. split_and!; [done..|lia|lia].
Qed.

Lemma minv_unreferenced s m : minv s → unreferenced (ms_heap s) m → refs s m = 0.
Proof.
  intros Hinv Hun. destruct (decide (0 < refs s m)) as [Hr|]; [|lia].
  destruct (minv_held s m) as (o & Ho & Hc & _); [done..|].
  apply Hun in Ho. lia.
Qed.

(** Replacing the object of one message and its count together. *)
Lemma minv_update s m o h' held' :
  minv s → heap_wf h' → objs h' = <[m := o]> (objs (ms_heap s)) →
  (∀ k, k ≠ m → refs (mkMState h' held') k = refs s k) →
  refcnt o = Z.of_nat (refs (mkMState h' held') m) → (refcnt o < 2 ^ 31)%Z →
  minv (mkMState h' held').
Proof.
  intros [Hwf Hc Hd Hm] Hwf' Ho Hne Heq Hlt.
  split; simpl; [done| | |]; intros k; destruct (decide (k = m)) as [->|Hk].
  - rewrite Ho, lookup_insert_eq. by intros o' [= <-].
  - rewrite Ho, lookup_insert_ne, Hne by done. apply Hc.
  - rewrite Ho, lookup_insert_eq. eauto.
  - rewrite Ho, lookup_insert_ne, Hne by done. apply Hd.
  - lia.
  - by rewrite Hne.
Qed.

Lemma minv_new s m h' o :
  minv s → unreferenced (ms_heap s) m → heap_wf h' →
  objs h' = <[m := o]> (objs (ms_heap s)) → refcnt o = 1%Z →
  minv (mkMState h' (acquire m (ms_held s))).
Proof.
  intros Hinv Hun Hwf' Ho Hr. destruct s as [h held]; simpl in *.
  pose proof (minv_unreferenced _ _ Hinv Hun) as H0.
  eapply minv_update; [done..| | |].
  - intros k Hk. by rewrite refs_acquire, decide_False by done.
  - rewrite refs_acquire, decide_True, (refs_heap h' h), H0 by done. done.
  - lia.
Qed.

Lemma minv_free s m :
  minv s → 0 < refs s m → minv (mkMState (Free m (ms_heap s)) (release m (ms_held s))).
Proof.
  intros Hinv Hr. destruct (minv_held s m) as (o & Ho & Hc & Hb); [done..|].
  destruct (Free_spec m o (ms_heap s)) as [Hwf' Heq]; [apply Hinv|done..|].
  destruct s as [h held]; simpl in *. eapply minv_update; [done..| | |].
  - intros k Hk. by rewrite refs_release, decide_False by done.
  - simpl. rewrite refs_release, decide_True, (refs_heap _ h) by done. lia.
  - simpl. lia.
Qed.

Lemma acquire_release_comm d m held :
  d ≠ m → acquire d (release m held) = release m (acquire d held).
Proof.
  intros Hne. unfold acquire, release.
  rewrite !lookup_insert_ne by done. by rewrite insert_insert_ne.
Qed.

Lemma minv_step l s s' : minv s → mok s l → mstep l s = Some s' → minv s'.
Proof.
  intros Hinv Hok Hstep. pose proof (minv_wf s Hinv) as Hwf.
  destruct s as [h held]. destruct l as [sz ch|m|m|m ch|m ch|m hdr body]; simpl in Hstep.
  - destruct (NewMessage sz ch h) as [m h'] eqn:E. simplify_eq.
    apply NewMessage_spec in E as (Hun & Hwf' & o & Ho & _ & _ & Hr & _); [|done].
    by eapply (minv_new (mkMState h held)).
  - case_guard as Hr; simplify_eq/=.
    destruct (minv_held _ m Hinv Hr) as (o & Ho & Hc & Hb); simpl in *.
    destruct (Clone_spec m o h) as [Hwf' Heq]; [done..|lia|].
    eapply (minv_update (mkMState h held)); [done..| | |].
    + intros k Hk. by rewrite refs_acquire, decide_False by done.
    + simpl. rewrite refs_acquire, decide_True, (refs_heap _ h) by done. lia.
    + simpl. lia.
  - case_guard as Hr; simplify_eq/=. by apply (minv_free (mkMState h held)).
  - case_guard as Hr; simplify_eq/=. destruct (Dup m ch h) as [d h'] eqn:E. simplify_eq.
    destruct (minv_held _ m Hinv Hr) as (o & Ho & Hc & Hb); simpl in *.
    eapply Dup_spec in E as (_ & Hun & Hwf' & od & Hod & _ & _ & _ & Hr1); [|done..|lia].
    by eapply (minv_new (mkMState h held)).
  - case_guard as Hr; simplify_eq/=. destruct (MakeUnique m ch h) as [d h'] eqn:E.
    simplify_eq. destruct (minv_held _ m Hinv Hr) as (o & Ho & Hc & Hb); simpl in *.
    unfold MakeUnique in E. rewrite (lookup_total_correct _ _ _ Ho) in E.
    case_decide as H1.
    + simplify_eq. eapply (minv_update (mkMState h' held) d o); [done..| | | |lia].
      * by rewrite insert_id.
      * intros k Hk. by rewrite refs_acquire, refs_release, !decide_False by done.
      * rewrite refs_acquire, refs_release, !decide_True by done. lia.
    + destruct (Dup m ch h) as [d1 h1] eqn:Ed. simplify_eq.
      eapply Dup_spec in Ed as (Hne & Hun & Hwf' & od & Hod & _ & _ & _ & Hr1); [|done..|lia].
      rewrite acquire_release_comm by done.
      apply (minv_free (mkMState h1 (acquire d held))).
      * by eapply (minv_new (mkMState h held)).
      * by rewrite refs_acquire, decide_False by done.
  - case_guard as Hr; simplify_eq/=.
    destruct (minv_held _ m Hinv) as (o & Ho & Hc & Hb); [lia|]. simpl in *.
    assert (objs (set_Header m hdr (set_Body m body h))
      = <[m := o <| Body := body |> <| Header := hdr |>]> (objs h)) as Heq.
    { apply map_eq. intros k. simpl. destruct (decide (m = k)) as [<-|].
      - by rewrite !lookup_alter_eq, lookup_insert_eq, Ho.
      - by rewrite !lookup_alter_ne, lookup_insert_ne by done. }
    eapply (minv_update (mkMState h held) m); [done| |exact Heq|done| |].
    + assert (∀ p, p ∈ pools h → m ∉ p)
        by (intros p; eapply referenced_not_pooled; [done..|lia]).
      by apply wf_alter; [apply wf_alter|].
    + done.
    + simpl. lia.
Qed.

Lemma minv_reachable s : reachable mstep minit mok s → minv s.
Proof.
  apply reachable_invariant; [|by eauto using minv_step].
  intros ? ->. split; simpl; [apply heap0_wf|done| |done].
  intros m Hr. unfold refs in Hr. simpl in Hr. rewrite lookup_empty in Hr. simpl in Hr. lia.
Qed.

(** C1.  However the goroutines of a program interleave allocation, [Clone],
    [Free], [Dup] and [MakeUnique], a message that anybody still references
    is in no pool, its [refcnt] is exactly the number of references, and
    [NewMessage] never hands out a message that is still referenced. *)
Theorem message_pool_safety s :
  reachable mstep minit mok s →
  (∀ m, 0 < refs s m →
    ∃ o, objs (ms_heap s) !! m = Some o ∧ refcnt o = Z.of_nat (refs s m) ∧
         ∀ p, p ∈ pools (ms_heap s) → m ∉ p) ∧
  (∀ sz ch m h', NewMessage sz ch (ms_heap s) = (m, h') → refs s m = 0).
Proof.
  intros Hinv%minv_reachable. split.
  - intros m Hr. destruct (minv_held s m) as (o & Ho & Hc & Hb); [done..|].
    exists o. split_and!; [done..|]. intros p.
    eapply referenced_not_pooled; [apply Hinv|done|lia].
  - intros sz ch m h' (Hun & _)%NewMessage_spec; [|apply Hinv].
    by apply minv_unreferenced.
Qed.

Lemma message_pool_safety_witness :
  let s := play mstep mokb
    [LNew 10 None; LClone 0; LNew 100 None; LFree 0; LUnique 1 None; LFree 0;
     LNew 20 (Some 0)] (mkMState heap0 ∅) in
  refs s 0 = 1 ∧
  ∃ o, objs (ms_heap s) !! 0 = Some o ∧ refcnt o = Z.of_nat (refs s 0) ∧
       ∀ p, p ∈ pools (ms_heap s) → 0 ∉ p.
Proof.
  split; [vm_compute; reflexivity|].
  apply message_pool_safety; [|apply Nat.ltb_lt; vm_compute; reflexivity].
  apply play_reachable; [intros s l; apply bool_decide_eq_true_1|done].
Defined.

(** What a holder can see of a message. *)
Definition contents (o : message) : list Byte.byte * list Byte.byte * option Z :=
  (Header o, Body o, Pipe o).

Lemma message_contents_insert h h' k o o' m :
  objs h !! m = Some o → objs h' = <[k := o']> (objs h) →
  (k = m → contents o' = contents o) →
  contents <$> objs h' !! m = Some (contents o).
Proof.
  intros Ho -> Hk. rewrite lookup_insert. case_decide; simpl; [by rewrite Hk|].
  by rewrite Ho.
Qed.

(** C2.  No step of any goroutine changes the header, body or pipe of a
    message that somebody references, except a write by the only holder:
    recycled messages never alias live ones, and [MakeUnique] and [Dup]
    never disturb the original. *)
Theorem message_view_stable s l s' m :
  reachable mstep minit mok s → mok s l → mstep l s = Some s' →
  0 < refs s m → (∀ hdr body, l ≠ LWrite m hdr body) →
  contents <$> objs (ms_heap s') !! m = contents <$> objs (ms_heap s) !! m.
Proof.
  intros Hinv%minv_reachable Hok Hstep Hr Hl. pose proof (minv_wf s Hinv) as Hwf.
  destruct (minv_held _ m Hinv Hr) as (o & Ho & Hc & Hb). rewrite Ho. simpl.
  destruct s as [h held]. simpl in *.
  destruct l as [sz ch|k|k|k ch|k ch|k hdr body]; simpl in Hstep.
  - destruct (NewMessage sz ch h) as [k h'] eqn:E. simplify_eq/=.
    apply NewMessage_spec in E as (Hun & _ & o' & Ho' & _); [|done].
    eapply message_contents_insert; [done..|]. intros ->. apply Hun in Ho. lia.
  - apply guard_bind_Some in Hstep as [Hk Hstep]; simplify_eq; cbn [ms_heap]. destruct (minv_held _ k Hinv Hk) as (ok & Hok' & Hck & Hbk).
    destruct (Clone_spec k ok h) as [_ Heq]; [done..|simpl in *; lia|].
    eapply message_contents_insert; [exact Ho|exact Heq|]. intros ->. by simplify_eq/=.
  - apply guard_bind_Some in Hstep as [Hk Hstep]; simplify_eq; cbn [ms_heap]. destruct (minv_held _ k Hinv Hk) as (ok & Hok' & Hck & Hbk).
    destruct (Free_spec k ok h) as [_ Heq]; [done..|].
    eapply message_contents_insert; [exact Ho|exact Heq|]. intros ->. by simplify_eq/=.
  - apply guard_bind_Some in Hstep as [Hk Hstep]; simplify_eq; cbn [ms_heap]. destruct (minv_held _ k Hinv Hk) as (ok & Hok' & Hck & Hbk).
    destruct (Dup k ch h) as [d h'] eqn:E. simplify_eq/=.
    eapply Dup_spec in E as (_ & Hun & _ & od & Hod & _); [|done..|lia].
    eapply message_contents_insert; [done..|]. intros ->. apply Hun in Ho. lia.
  - case_guard as Hk; simplify_eq/=. destruct (minv_held _ k Hinv Hk) as (ok & Hok' & Hck & Hbk).
    destruct (MakeUnique k ch h) as [d h'] eqn:E. simplify_eq/=.
    eapply MakeUnique_spec in E as (_ & _ & Hcase); [|done..].
    destruct Hcase as [(-> & -> & _)|(Hne & _ & Hun & Hm & Hrest)]; [by rewrite Ho|].
    assert (m ≠ d) by (intros ->; apply Hun in Ho; lia).
    destruct (decide (m = k)) as [->|]; [|by rewrite Hrest, Ho].
    rewrite Hm. by simplify_eq.
  - case_guard as Hk; simplify_eq/=.
    assert (k ≠ m) by naive_solver. simpl. by rewrite !lookup_alter_ne, Ho by done.
Qed.

Lemma message_view_stable_witness :
  let s := play mstep mokb
    [LNew 10 None; LWrite 0 [Byte.x01] [Byte.x02]; LClone 0] (mkMState heap0 ∅) in
  let s' := default s (mstep (LUnique 0 None) s) in
  s' ≠ s ∧ contents <$> objs (ms_heap s') !! 0 = Some ([Byte.x01], [Byte.x02], None).
Proof.
  intros s s'. split.
  { intros H. apply (f_equal (λ s, refs s 1)) in H. vm_compute in H. done. }
  transitivity (contents <$> objs (ms_heap s) !! 0); [|vm_compute; reflexivity].
  apply (message_view_stable s (LUnique 0 None)).
  - apply play_reachable; [intros ??; apply bool_decide_eq_true_1|done].
  - done.
  - vm_compute. reflexivity.
  - apply Nat.ltb_lt. vm_compute. reflexivity.
  - done.
Defined.
