(* ===== verification/PipeIDs.v ===== *)
(** * PipeIDs: the pipe ID allocator

    [pipeIDAllocator] of [src/internal/core/pipe.go].  IDs are 31-bit and
    never zero, so that an ID in a message header is told from a request ID
    by its high-order bit. *)
From stdpp Require Import gmap list strings fin_maps.
From Stdlib Require Import ZArith Lia.
From S2P Require Import Prelude.

(** [used] is nil until the first [Get]. *)
Record pipeIDAllocator := mkAlloc { used : option (gset Z); next : Z }.
#[export] Instance eta_alloc : Eta pipeIDAllocator := λ a, mkAlloc (used a) (next a).

Definition alloc0 : pipeIDAllocator := mkAlloc None 0.
Definition used_set (a : pipeIDAllocator) : gset Z := default ∅ (used a).

(** One pass of the [for] loop of [Get], [fuel] times at most. *)
Fixpoint Get_loop (fuel : nat) (u : gset Z) (nxt : Z) : option (Z * pipeIDAllocator) :=
  match fuel with
  | O => None
  | S fuel =>
      let id := Z.land nxt 0x7fffffff in
      let nxt := u32 (nxt + 1) in
      if decide (id = 0)%Z then Get_loop fuel u nxt
      else if decide (id ∈ u) then Get_loop fuel u nxt
      else Some (id, mkAlloc (Some ({[id]} ∪ u)) nxt)
  end.

(** The loop visits distinct IDs, so [size u + 2] passes reach one that is
    neither zero nor in use ([Get_loop_total]). *)
Definition Get (rnd : list Byte.byte) (a : pipeIDAllocator) : option (Z * pipeIDAllocator) :=
  let '(u, nxt) :=
    match used a with
    | Some u => (u, next a)
    | None => (∅, uint32_of rnd)
    end in
  Get_loop (S (S (size u))) u nxt.

(** [Free] panics on an ID that is not in use ([None]). *)
Definition Free (id : Z) (a : pipeIDAllocator) : option pipeIDAllocator :=
  if decide (id ∈ used_set a)
  then Some (a <| used := Some (used_set a ∖ {[id]}) |>)
  else None.

(** ** Correctness *)
Definition valid_id (id : Z) : Prop := (1 ≤ id < 2 ^ 31)%Z.

Lemma land_mask z : Z.land z 0x7fffffff = (z mod 2 ^ 31)%Z.
Proof. change 0x7fffffff%Z with (Z.ones 31). apply Z.land_ones. lia. Qed.

Lemma u32_mod31 z : (u32 z mod 2 ^ 31 = z mod 2 ^ 31)%Z.
Proof.
  unfold u32. change (2 ^ 32)%Z with (2 ^ 31 * 2)%Z.
  rewrite Z.rem_mul_r by lia. rewrite Z.mul_comm, Z.mod_add by lia.
  apply Z.mod_mod. lia.
Qed.

Lemma Get_loop_Some fuel u nxt id a :
  Get_loop fuel u nxt = Some (id, a) →
  valid_id id ∧ id ∉ u ∧ used a = Some ({[id]} ∪ u) ∧ (0 ≤ next a < 2 ^ 32)%Z.
Proof.
  revert nxt. induction fuel as [|fuel IH]; intros nxt; [done|].
  cbn [Get_loop]. rewrite land_mask.
  pose proof (Z.mod_pos_bound nxt (2 ^ 31) ltac:(lia)) as Hr.
  case_decide as H0; [apply IH|]. case_decide as Hu; [apply IH|].
  intros [= <- <-]. simpl. split_and!; [unfold valid_id; lia|done..|apply u32_range|apply u32_range].
Qed.

Lemma Get_loop_None fuel u nxt :
  Get_loop fuel u nxt = None →
  ∀ j, j < fuel → ((nxt + Z.of_nat j) mod 2 ^ 31)%Z ∈ ({[0%Z]} ∪ u : gset Z).
Proof.
  revert nxt. induction fuel as [|fuel IH]; intros nxt Hn j Hj; [lia|].
  cbn [Get_loop] in Hn. rewrite land_mask in Hn.
  assert ((nxt mod 2 ^ 31)%Z ∈ ({[0%Z]} ∪ u : gset Z) ∧ Get_loop fuel u (u32 (nxt + 1)) = None)
    as [Hin Hrest].
  { case_decide as H0; [rewrite H0; set_solver|]. case_decide; [set_solver|done]. }
  destruct j as [|j]; [by rewrite Z.add_0_r|].
  specialize (IH _ Hrest j ltac:(lia)).
  rewrite <-Z.add_mod_idemp_l, u32_mod31, Z.add_mod_idemp_l in IH by lia.
  by replace (nxt + Z.of_nat (S j))%Z with (nxt + 1 + Z.of_nat j)%Z by lia.
Qed.

(** Consecutive values below the modulus are distinct residues. *)
Lemma NoDup_residues nxt k :
  (Z.of_nat k ≤ 2 ^ 31)%Z →
  NoDup ((λ j, (nxt + Z.of_nat j) mod 2 ^ 31)%Z <$> seq 0 k).
Proof.
  intros Hk. apply NoDup_fmap_2_strong; [|apply NoDup_seq].
  intros i j Hi%elem_of_seq Hj%elem_of_seq Heq.
  pose proof (Z.div_mod (nxt + Z.of_nat i) (2 ^ 31)).
  pose proof (Z.div_mod (nxt + Z.of_nat j) (2 ^ 31)). nia.
Qed.

Lemma Get_loop_total u nxt :
  (Z.of_nat (size u) + 2 ≤ 2 ^ 31)%Z → is_Some (Get_loop (S (S (size u))) u nxt).
Proof.
  intros Hsz. apply not_eq_None_Some. intros Hn.
  set (k := S (S (size u))) in *.
  set (l := (λ j, (nxt + Z.of_nat j) mod 2 ^ 31)%Z <$> seq 0 k).
  assert (NoDup l) as Hnd by (apply NoDup_residues; subst k; lia).
  assert ((list_to_set l : gset Z) ⊆ {[0%Z]} ∪ u) as Hsub.
  { intros x Hx%elem_of_list_to_set. apply list_elem_of_fmap in Hx as (j & -> & Hj%elem_of_seq).
    eapply Get_loop_None; [done|lia]. }
  apply subseteq_size in Hsub. rewrite size_list_to_set in Hsub by done.
  unfold l in Hsub. rewrite length_fmap, length_seq in Hsub.
  pose proof (size_union_alt ({[0%Z]} : gset Z) u).
  pose proof (subseteq_size (u ∖ {[0%Z]}) u ltac:(set_solver)).
  rewrite size_singleton in *. subst k. lia.
Qed.

Lemma Get_Some rnd a id a' :
  Get rnd a = Some (id, a') →
  valid_id id ∧ id ∉ used_set a ∧ used_set a' = {[id]} ∪ used_set a.
Proof.
  unfold Get, used_set. destruct (used a) as [u|]; cbn [default from_option];
    intros Hg; apply Get_loop_Some in Hg as (? & ? & -> & _); done.
Qed.

(** C3.  [Get] always returns while fewer than [2^31 - 2] IDs are in use (it
    needs at most two passes more than there are IDs in use), and what it
    returns is a 31-bit, nonzero ID that was not in use and now is. *)
Theorem Get_fresh rnd a :
  (Z.of_nat (size (used_set a)) + 2 ≤ 2 ^ 31)%Z →
  ∃ id a', Get rnd a = Some (id, a') ∧ valid_id id ∧ id ∉ used_set a ∧
           used_set a' = {[id]} ∪ used_set a.
Proof.
  intros Hsz. assert (is_Some (Get rnd a)) as [[id a'] Hg].
  { unfold Get, used_set in *. destruct (used a); by apply Get_loop_total. }
  exists id, a'. split; [done|]. by eapply Get_Some.
Qed.

Lemma Get_fresh_witness :
  let a := mkAlloc (Some {[2 ^ 31 - 1; 1]}%Z) (2 ^ 32 - 1) in
  fst <$> Get [] a = Some 2%Z ∧
  ∃ id a', Get [] a = Some (id, a') ∧ valid_id id ∧ id ∉ used_set a ∧
           used_set a' = {[id]} ∪ used_set a.
Proof.
  intros a. split; [vm_compute; reflexivity|].
  apply Get_fresh. vm_compute. discriminate.
Defined.
