(* ===== verification/Core.v ===== *)
(** * Core: pipes, from arrival to detachment

    [src/internal/core/pipe.go] and the pipe half of
    [src/internal/core/socket.go]: [addPipe], [remPipe] and [Close], run by
    the goroutines of dialers, listeners, protocols and applications at the
    same time.  A label is one critical section, or one step between two of
    them.  The protocol above the socket appears through the calls it
    receives ([proto_calls]); the application through the events its hook is
    given ([events]). *)
From stdpp Require Import gmap list strings fin_maps.
From Stdlib Require Import ZArith Lia.
From S2P Require Import Prelude Types PipeIDs.

(** Where the goroutine running [addPipe] is, for one pipe. *)
Inductive add_phase :=
  | Attaching   (* registered in s.pipes, not yet offered to the protocol *)
  | AddedHook   (* the protocol has it; the Attached event is still to come *)
  | AddDone     (* addPipe has returned, the pipe is attached *)
  | Rejected.   (* addPipe has returned, the pipe was not attached *)

(** Where the goroutine started by [remPipe] is. *)
Inductive rem_phase :=
  | NotRemoved
  | RemHook     (* about to run the Detached event *)
  | RemFree     (* about to free the ID *)
  | IDFreed.

#[global] Instance add_phase_eq_dec : EqDecision add_phase.
Proof. solve_decision. Defined.
#[global] Instance rem_phase_eq_dec : EqDecision rem_phase.
Proof. solve_decision. Defined.

(** The pipe object; [ph] is the hook [addPipe] read, [rph] the one
    [remPipe] read, [once] that some caller has entered [closeOnce]. *)
Record pipe := mkPipe {
  id : Z;
  dialer : option nat;
  listener : option nat;
  added : bool;
  closing : bool;
  once : bool;
  tran_closed : bool;
  ph : bool;
  rph : bool;
  adding : add_phase;
  removing : rem_phase
}.
#[export] Instance eta_pipe : Eta pipe := λ p,
  mkPipe (id p) (dialer p) (listener p) (added p) (closing p) (once p)
    (tran_closed p) (ph p) (rph p) (adding p) (removing p).

Inductive proto_call := CallAddPipe (k : nat) (res : error) | CallRemovePipe (k : nat).
Inductive PipeEvent := PipeEventAttaching | PipeEventAttached | PipeEventDetached.
#[global] Instance PipeEvent_eq_dec : EqDecision PipeEvent.
Proof. solve_decision. Defined.

(** A socket, the global allocator, and all pipe objects ever made (by
    identity).  [panicked] says a call has panicked; [notified] lists the
    [go d.pipeConnected()] (true) and [go d.pipeClosed()] (false) calls. *)
Record core := mkCore {
  pipeIDs : pipeIDAllocator;
  cpipes : gmap nat pipe;
  pipeList : gmap Z nat;
  pipehook : bool;
  proto_calls : list proto_call;
  events : list (PipeEvent * nat);
  notified : list (nat * bool);
  panicked : bool
}.
#[export] Instance eta_core : Eta core := λ s,
  mkCore (pipeIDs s) (cpipes s) (pipeList s) (pipehook s) (proto_calls s)
    (events s) (notified s) (panicked s).

Definition core0 (a : pipeIDAllocator) : core := mkCore a ∅ ∅ false [] [] [] false.

Definition upd_pipe (k : nat) (p : pipe) (s : core) : core := s <| cpipes ::= <[k := p]> |>.

(** [pipeList.Add] and [Remove]. *)
Definition pipeList_Add (k : nat) (p : pipe) (s : core) : core :=
  s <| pipeList ::= <[id p := k]> |>.
Definition pipeList_Remove (p : pipe) (s : core) : core :=
  s <| pipeList ::= delete (id p) |>.

Definition fire (ph : bool) (e : PipeEvent) (k : nat) (s : core) : core :=
  if ph then s <| events ::= (λ l, l ++ [(e, k)]) |> else s.

(** [newPipe]. *)
Definition newPipe (d l : option nat) (rnd : list Byte.byte) (s : core) : option (pipe * core) :=
  '(i, a) ← Get rnd (pipeIDs s);
  Some (mkPipe i d l false false false false (pipehook s) false Attaching NotRemoved,
        s <| pipeIDs := a |>).

(** [addPipe] up to the lock on the pipe, for the new object [k]. *)
Definition addPipe_start (k : nat) (d l : option nat) (rnd : list Byte.byte) (s : core)
    : option core :=
  '(p, s) ← newPipe d l rnd s;
  Some (fire (ph p) PipeEventAttaching k (upd_pipe k p (pipeList_Add k p s))).

(** [addPipe], the section under [p.lock]; [res] is what [proto.AddPipe]
    answers when it is called.  After a refusal the code starts [p.close()],
    a step ([LClose]) that any goroutine may take at any time. *)
Definition addPipe_attach (k : nat) (p : pipe) (res : error) (s : core) : core :=
  if closing p then
    upd_pipe k (p <| adding := Rejected |>) (pipeList_Remove p s)
  else
    let s := s <| proto_calls ::= (λ l, l ++ [CallAddPipe k res]) |> in
    match res with
    | Some _ => upd_pipe k (p <| adding := Rejected |>) (pipeList_Remove p s)
    | None => upd_pipe k (p <| added := true |> <| adding := AddedHook |>) s
    end.

Definition notify (d : option nat) (connected : bool) (s : core) : core :=
  match d with
  | Some d => s <| notified ::= (λ l, l ++ [(d, connected)]) |>
  | None => s
  end.

(** [addPipe], after the lock is released. *)
Definition addPipe_finish (k : nat) (p : pipe) (s : core) : core :=
  fire (ph p) PipeEventAttached k
    (notify (dialer p) true (upd_pipe k (p <| adding := AddDone |>) s)).

(** [remPipe], up to the goroutine it starts. *)
Definition remPipe (k : nat) (p : pipe) (s : core) : core :=
  let s := s <| proto_calls ::= (λ l, l ++ [CallRemovePipe k]) |> in
  upd_pipe k (p <| removing := RemHook |> <| rph := pipehook s |>) (pipeList_Remove p s).

(** The goroutine of [remPipe]: the event, then the ID. *)
Definition remPipe_hook (k : nat) (p : pipe) (s : core) : core :=
  fire (rph p) PipeEventDetached k (upd_pipe k (p <| removing := RemFree |>) s).
Definition remPipe_free (k : nat) (p : pipe) (s : core) : core :=
  match Free (id p) (pipeIDs s) with
  | Some a => upd_pipe k (p <| removing := IDFreed |>) (s <| pipeIDs := a |>)
  | None => s <| panicked := true |>
  end.

(** [pipe.Close]: the first caller closes the transport's pipe, then takes
    the lock.  Later callers of [closeOnce.Do] do nothing. *)
Definition Close_start (k : nat) (p : pipe) (s : core) : core :=
  upd_pipe k (p <| once := true |> <| tran_closed := true |>) s.
Definition Close_locked (k : nat) (p : pipe) (s : core) : core :=
  let p := p <| closing := true |> in
  notify (dialer p) false (if added p then remPipe k p s else upd_pipe k p s).

(** [SetPipeEventHook] (whether the new hook is non-nil). *)
Definition SetPipeEventHook (h : bool) (s : core) : core := s <| pipehook := h |>.

Inductive clabel :=
  | LAdd (k : nat) (d l : option nat) (rnd : list Byte.byte)
  | LAttach (k : nat) (res : error)
  | LAttached (k : nat)
  | LClose (k : nat)
  | LCloseLocked (k : nat)
  | LDetached (k : nat)
  | LFreeID (k : nat)
  | LSetHook (h : bool).

Definition cstep (l : clabel) (s : core) : option core :=
  match l with
  | LAdd k d l rnd => guard (cpipes s !! k = None);; addPipe_start k d l rnd s
  | LAttach k res =>
      p ← cpipes s !! k; guard (adding p = Attaching);; Some (addPipe_attach k p res s)
  | LAttached k =>
      p ← cpipes s !! k; guard (adding p = AddedHook);; Some (addPipe_finish k p s)
  | LClose k =>
      p ← cpipes s !! k; guard (once p = false);; Some (Close_start k p s)
  | LCloseLocked k =>
      p ← cpipes s !! k; guard (once p = true ∧ closing p = false);; Some (Close_locked k p s)
  | LDetached k =>
      p ← cpipes s !! k; guard (removing p = RemHook);; Some (remPipe_hook k p s)
  | LFreeID k =>
      p ← cpipes s !! k; guard (removing p = RemFree);; Some (remPipe_free k p s)
  | LSetHook h => Some (SetPipeEventHook h s)
  end.

(** ** The invariant *)
Definition call_pipe (c : proto_call) : nat :=
  match c with CallAddPipe k _ | CallRemovePipe k => k end.
Definition calls_of (k : nat) (l : list proto_call) : list proto_call :=
  filter (λ c, call_pipe c = k) l.

(** In the socket's list of pipes: offered or attached, and not removed. *)
Definition listed (p : pipe) : Prop := removing p = NotRemoved ∧ adding p ≠ Rejected.
#[global] Instance listed_dec p : Decision (listed p).
Proof. unfold listed. apply _. Defined.

Definition pipe_ok (k : nat) (p : pipe) (calls : list proto_call) : Prop :=
  valid_id (id p) ∧ (closing p = true → once p = true) ∧
  match adding p with
  | Attaching => added p = false ∧ removing p = NotRemoved ∧ calls = []
  | Rejected => added p = false ∧ removing p = NotRemoved ∧
      (calls = [] ∨ ∃ e, calls = [CallAddPipe k (Some e)])
  | AddedHook | AddDone => added p = true ∧
      if closing p
      then removing p ≠ NotRemoved ∧ calls = [CallAddPipe k None; CallRemovePipe k]
      else removing p = NotRemoved ∧ calls = [CallAddPipe k None]
  end.

Record cinv (s : core) : Prop := {
  ci_panic : panicked s = false;
  ci_pipe k p : cpipes s !! k = Some p → pipe_ok k p (calls_of k (proto_calls s));
  ci_fresh k : cpipes s !! k = None → calls_of k (proto_calls s) = [];
  ci_used k p : cpipes s !! k = Some p → removing p ≠ IDFreed →
    id p ∈ used_set (pipeIDs s);
  ci_uniq k p k' p' : cpipes s !! k = Some p → cpipes s !! k' = Some p' →
    removing p ≠ IDFreed → removing p' ≠ IDFreed → id p = id p' → k = k';
  ci_list i k : pipeList s !! i = Some k ↔
    ∃ p, cpipes s !! k = Some p ∧ id p = i ∧ listed p
}.

Lemma calls_of_app k l cs : calls_of k (l ++ cs) = calls_of k l ++ calls_of k cs.
Proof. apply filter_app. Qed.

Lemma calls_of_own k cs : Forall (λ c, call_pipe c = k) cs → calls_of k cs = cs.
Proof.
  intros H. induction H as [|c cs Hc _ IH]; [done|].
  unfold calls_of in *. rewrite filter_cons_True by done. by f_equal.
Qed.

Lemma calls_of_other k j cs : Forall (λ c, call_pipe c = k) cs → j ≠ k → calls_of j cs = [].
Proof.
  intros H Hne. induction H as [|c cs Hc _ IH]; [done|].
  unfold calls_of in *. rewrite filter_cons_False; [done|congruence].
Qed.

(** A step that rewrites pipe [k] in place, and may call the protocol about
    it and take it off the list, keeps the invariant. *)
Lemma cinv_update s s' k p p' cs :
  cinv s → cpipes s' = <[k := p']> (cpipes s) →
  cpipes s !! k = Some p → id p' = id p → (removing p = IDFreed → removing p' = IDFreed) →
  pipeIDs s' = pipeIDs s → panicked s' = panicked s →
  proto_calls s' = proto_calls s ++ cs → Forall (λ c, call_pipe c = k) cs →
  pipe_ok k p' (calls_of k (proto_calls s) ++ cs) →
  (pipeList s' = pipeList s ∧ (listed p ↔ listed p') ∨
   pipeList s' = delete (id p) (pipeList s) ∧ listed p ∧ ¬ listed p') →
  cinv s'.
Proof.
  intros [Hpa Hp Hf Hu Huq Hl] Hc Hk Hid Hfr Ha Hpn Hpc Hcs Hok Hlist.
  assert (∀ j q, cpipes s' !! j = Some q →
    j = k ∧ q = p' ∨ j ≠ k ∧ cpipes s !! j = Some q) as Hcase.
  { intros j q. rewrite Hc, lookup_insert_Some. naive_solver. }
  split.
  - congruence.
  - intros j q [[-> ->]|[Hne Hq]]%Hcase; rewrite Hpc, calls_of_app.
    + by rewrite (calls_of_own k cs).
    + rewrite (calls_of_other k j cs), app_nil_r by done. eauto.
  - intros j. rewrite Hc, lookup_insert_None. intros [Hj Hne%not_eq_sym].
    rewrite Hpc, calls_of_app, (calls_of_other k j cs), app_nil_r by done. eauto.
  - intros j q [[-> ->]|[Hne Hq]]%Hcase Hr; rewrite Ha; [rewrite Hid|]; eauto.
  - intros j q j' q' [[-> ->]|[Hne Hq]]%Hcase [[-> ->]|[Hne' Hq']]%Hcase Hr Hr' Heq;
      [done|..]; eapply Huq; eauto; try (by intros ?%Hfr); congruence.
  - intros i j. rewrite Hc. setoid_rewrite lookup_insert_Some.
    destruct Hlist as [[-> Hiff]|(-> & Hlp & Hnl)].
    + rewrite Hl. split; [intros (q & Hq & Hi & Hq')|intros (q & [[<- <-]|[? Hq]] & Hi & Hq')].
      * destruct (decide (j = k)) as [->|]; [|by eauto 10].
        simplify_eq. exists p'. naive_solver.
      * exists p. naive_solver.
      * eauto.
    + rewrite lookup_delete_Some, Hl. split.
      * intros (Hne & q & Hq & Hi & Hq'). destruct (decide (j = k)) as [->|]; [congruence|].
        eauto 10.
      * intros (q & [[<- <-]|[Hne Hq]] & Hi & Hq'); [done|]. split; [|by eauto].
        intros Hpi. apply Hne. eapply (Huq k p j q); [done..| | |congruence].
        -- destruct Hlp as [-> _]. done.
        -- destruct Hq' as [-> _]. done.
Qed.

Lemma cinv_fire ph e k s : cinv s → cinv (fire ph e k s).
Proof. intros [??????]. destruct ph; by split. Qed.
Lemma cinv_notify d b s : cinv s → cinv (notify d b s).
Proof. intros [??????]. destruct d; by split. Qed.
Lemma cinv_sethook h s : cinv s → cinv (SetPipeEventHook h s).
Proof. intros [??????]. by split. Qed.

Create HintDb core_inv.
#[export] Hint Resolve cinv_fire cinv_notify cinv_sethook : core_inv.

Lemma cinv_add k d l rnd s s' :
  cinv s → cpipes s !! k = None → addPipe_start k d l rnd s = Some s' → cinv s'.
Proof.
  intros [Hpa Hp Hf Hu Huq Hl] Hk. unfold addPipe_start, newPipe.
  destruct (Get rnd (pipeIDs s)) as [[i a]|] eqn:Hg; simpl; [|done]. intros [= <-].
  apply cinv_fire.
  apply Get_Some in Hg as (Hv & Hnew & Hua).
  set (p := mkPipe i d l false false false false (pipehook s) false Attaching NotRemoved).
  assert (∀ j q, <[k := p]> (cpipes s) !! j = Some q →
    j = k ∧ q = p ∨ j ≠ k ∧ cpipes s !! j = Some q) as Hcase.
  { intros j q. rewrite lookup_insert_Some. naive_solver. }
  split; simpl.
  - done.
  - intros j q [[-> ->]|[Hne Hq]]%Hcase; [|by eauto].
    unfold pipe_ok; simpl. rewrite Hf by done. done.
  - intros j. rewrite lookup_insert_None. intros [Hj _]. eauto.
  - intros j q [[-> ->]|[Hne Hq]]%Hcase Hr; rewrite Hua; simpl; [set_solver|].
    specialize (Hu _ _ Hq Hr). set_solver.
  - intros j q j' q' [[-> ->]|[Hne Hq]]%Hcase [[-> ->]|[Hne' Hq']]%Hcase Hr Hr' Heq;
      simpl in *; [done| | |by eauto].
    + specialize (Hu _ _ Hq' Hr'). congruence.
    + specialize (Hu _ _ Hq Hr). congruence.
  - intros i' j. setoid_rewrite lookup_insert_Some. rewrite Hl. split.
    + intros [[<- <-]|[Hi (q & Hq & Hi' & Hlq)]]; [|by exists q; naive_solver].
      exists p. split_and!; [by left|done|by split].
    + intros (q & [[<- <-]|[Hne Hq]] & Hi' & Hlq); [by left|]. right.
      split; [|by eauto]. simpl. intros <-. destruct Hlq as [Hr _].
      apply Hnew. rewrite <-Hi'. eapply Hu; [done|]. by rewrite Hr.
Qed.

Lemma cinv_free k p s :
  cinv s → cpipes s !! k = Some p → removing p = RemFree → cinv (remPipe_free k p s).
Proof.
  intros [Hpa Hp Hf Hu Huq Hl] Hk Hr. unfold remPipe_free, Free.
  assert (id p ∈ used_set (pipeIDs s)) as Hin by (eapply Hu; [done|by rewrite Hr]).
  rewrite decide_True by done.
  set (p' := p <| removing := IDFreed |>).
  assert (∀ j q, <[k := p']> (cpipes s) !! j = Some q →
    j = k ∧ q = p' ∨ j ≠ k ∧ cpipes s !! j = Some q) as Hcase.
  { intros j q. rewrite lookup_insert_Some. naive_solver. }
  split; simpl.
  - done.
  - intros j q [[-> ->]|[Hne Hq]]%Hcase; [|by eauto]. specialize (Hp _ _ Hk).
    unfold pipe_ok in *. simpl. rewrite Hr in Hp. clear -Hp.
    destruct (adding p), (closing p); destruct_and!; split_and!; done.
  - intros j. rewrite lookup_insert_None. intros [Hj _]. eauto.
  - intros j q [[-> ->]|[Hne Hq]]%Hcase Hr'; [done|].
    unfold used_set in *; simpl. apply elem_of_difference. split; [by eauto|].
    rewrite elem_of_singleton. intros Heq. apply Hne.
    eapply (Huq j q k p); [done..|by rewrite Hr|done].
  - intros j q j' q' [[-> ->]|[Hne Hq]]%Hcase [[-> ->]|[Hne' Hq']]%Hcase Hr1 Hr2;
      [done|done|done|by eauto].
  - intros i j. rewrite Hl. setoid_rewrite lookup_insert_Some. split.
    + intros (q & Hq & Hi & Hlq). destruct (decide (j = k)) as [->|]; [|by eauto 10].
      simplify_eq. destruct Hlq. congruence.
    + intros (q & [[<- <-]|[Hne Hq]] & Hi & Hlq); [|by eauto]. by destruct Hlq.
Qed.

Lemma cinv_attach k p res s :
  cinv s → cpipes s !! k = Some p → adding p = Attaching → cinv (addPipe_attach k p res s).
Proof.
  intros Hinv Hk Ha. pose proof (ci_pipe s Hinv _ _ Hk) as (Hv & Hon & Hok).
  rewrite Ha in Hok. destruct Hok as (Had & Hrm & Hcalls).
  assert (listed p) as Hl by (split; congruence).
  unfold addPipe_attach. destruct (closing p) eqn:Hc.
  - eapply (cinv_update s _ k p _ []); try done; [by rewrite app_nil_r|..].
    + rewrite Hcalls. unfold pipe_ok; simpl. rewrite Hc. eauto 10.
    + right. split_and!; [done..|]. by intros [_ ?].
  - destruct res as [e|].
    + eapply (cinv_update s _ k p _ [CallAddPipe k (Some e)]); try done; [by repeat constructor|..].
      * rewrite Hcalls. unfold pipe_ok; simpl. rewrite Hc. eauto 10.
      * right. split_and!; [done..|]. by intros [_ ?].
    + eapply (cinv_update s _ k p _ [CallAddPipe k None]); try done; [by repeat constructor|..].
      * rewrite Hcalls. unfold pipe_ok; simpl. rewrite Hc. eauto 10.
      * left. split; [done|]. split; [by intros _; split|done].
Qed.

Lemma cinv_close k p s :
  cinv s → cpipes s !! k = Some p → once p = true → closing p = false →
  cinv (Close_locked k p s).
Proof.
  intros Hinv Hk Ho Hc. pose proof (ci_pipe s Hinv _ _ Hk) as (Hv & Hon & Hok).
  rewrite Hc in Hok. unfold Close_locked. apply cinv_notify. cbn [added set_field].
  destruct (added p) eqn:Had.
  - assert (removing p = NotRemoved ∧ adding p ≠ Attaching ∧ adding p ≠ Rejected ∧
      calls_of k (proto_calls s) = [CallAddPipe k None]) as (Hrm & Hna & Hnr & Hcalls)
      by (destruct (adding p); naive_solver).
    eapply (cinv_update s _ k p _ [CallRemovePipe k]); try done; [congruence|by repeat constructor|..].
    + rewrite Hcalls. unfold pipe_ok; simpl. destruct (adding p); naive_solver.
    + right. split_and!; [done|by split|]. by intros [? _].
  - eapply (cinv_update s _ k p _ []); try done; [by rewrite app_nil_r|..].
    + rewrite app_nil_r. unfold pipe_ok; simpl. destruct (adding p); naive_solver.
    + by left.
Qed.

Lemma cinv_step l s s' : cinv s → cstep l s = Some s' → cinv s'.
Proof.
  intros Hinv. destruct l as [k d l rnd|k res|k|k|k|k|k|h]; simpl.
  1: { intros [Hk Hs]%guard_bind_Some. by eapply cinv_add. }
  7: { intros [= <-]. auto with core_inv. }
  all: destruct (cpipes s !! k) as [p|] eqn:Hk; simpl; [|done].
  all: intros [Hg [= <-]]%guard_bind_Some.
  all: pose proof (ci_pipe s Hinv _ _ Hk) as (Hv & Hon & Hok).
  - by apply cinv_attach.
  - apply cinv_fire, cinv_notify. rewrite Hg in Hok.
    eapply (cinv_update s _ k p _ []); try done; [by rewrite app_nil_r|by rewrite app_nil_r|].
    left. split; [done|]. unfold listed; simpl. rewrite Hg. clear. split; intros []; split; done.
  - eapply (cinv_update s _ k p _ []); try done; [by rewrite app_nil_r|by rewrite app_nil_r|by left].
  - destruct Hg. by apply cinv_close.
  - apply cinv_fire.
    eapply (cinv_update s _ k p _ []); try done; [congruence|by rewrite app_nil_r| |].
    + rewrite app_nil_r. unfold pipe_ok; simpl. rewrite Hg in Hok. clear -Hv Hon Hok.
      destruct (adding p), (closing p); destruct_and!; split_and!; done.
    + left. split; [done|]. unfold listed; simpl. rewrite Hg. clear. split; intros []; done.
  - by apply cinv_free.
Qed.

Definition cinit (s : core) : Prop := ∃ a, s = core0 a.

Lemma cinv_reachable s : reachable cstep cinit (λ _ _, True) s → cinv s.
Proof.
  apply reachable_invariant; [|by eauto using cinv_step].
  intros ? [a ->]. split; simpl; try done.
  intros i k. rewrite lookup_empty. split; [done|]. intros (p & H & _).
  by rewrite lookup_empty in H.
Qed.

(** What a protocol may rely on about the calls it gets for one pipe: either
    it is never offered, or offered and refused, or offered and accepted,
    and then removed at most once. *)
Definition pipe_contract (k : nat) (calls : list proto_call) : Prop :=
  calls = [] ∨ (∃ e, calls = [CallAddPipe k (Some e)]) ∨
  calls = [CallAddPipe k None] ∨ calls = [CallAddPipe k None; CallRemovePipe k].

(** C4.  Whatever the interleaving of arrivals, closes and detachments: no
    pipe ID is freed twice (the allocator never panics), two pipes whose IDs
    are not both given back have different IDs (the ID is held until after
    the Detached event has run), and the protocol sees, for every pipe, a
    legal sequence of [AddPipe] and [RemovePipe] calls. *)
Theorem pipe_lifecycle s :
  reachable cstep cinit (λ _ _, True) s →
  panicked s = false ∧
  (∀ k, pipe_contract k (calls_of k (proto_calls s))) ∧
  (∀ k p k' p', cpipes s !! k = Some p → cpipes s !! k' = Some p' →
     removing p ≠ IDFreed → removing p' ≠ IDFreed → id p = id p' → k = k') ∧
  (∀ k p, cpipes s !! k = Some p → valid_id (id p) ∧
     (pipeList s !! id p = Some k ↔ listed p)).
Proof.
  intros Hinv%cinv_reachable. destruct Hinv as [Hpa Hp Hf Hu Huq Hl] eqn:E. clear E.
  split_and!; [done| |done|].
  - intros k. unfold pipe_contract. destruct (cpipes s !! k) as [p|] eqn:Hk; [|by left; apply Hf].
    destruct (Hp _ _ Hk) as (_ & _ & Hok).
    destruct (adding p), (closing p); destruct_and!; naive_solver.
  - intros k p Hk. split; [apply (Hp _ _ Hk)|]. rewrite Hl. split; [|by eauto].
    intros (q & Hq & _ & Hlq). by simplify_eq.
Qed.

Definition okT {St Lb} (_ : St) (_ : Lb) : bool := true.

Definition life : list clabel :=
  [LSetHook true; LAdd 0 (Some 7) None [Byte.x00; Byte.x00; Byte.x00; Byte.x05];
   LAttach 0 None; LAdd 1 None (Some 3) []; LAttach 1 (Some ErrProtoState);
   LClose 0; LCloseLocked 0; LDetached 0; LFreeID 0; LAttached 0].

Lemma pipe_lifecycle_witness :
  let s := play cstep okT life (core0 alloc0) in
  proto_calls s = [CallAddPipe 0 None; CallAddPipe 1 (Some ErrProtoState); CallRemovePipe 0] ∧
  panicked s = false ∧ pipe_contract 0 (calls_of 0 (proto_calls s)).
Proof.
  split; [vm_compute; reflexivity|].
  destruct (pipe_lifecycle (play cstep okT life (core0 alloc0))) as (Hp & Hc & _).
  { apply play_reachable; [done|by exists alloc0]. }
  split; [exact Hp|apply Hc].
Defined.

(** A pipe that was rejected stays rejected, with its ID. *)
Lemma rejected_stable l s s' k p :
  cinv s → cpipes s !! k = Some p → adding p = Rejected → cstep l s = Some s' →
  ∃ p', cpipes s' !! k = Some p' ∧ adding p' = Rejected ∧ id p' = id p.
Proof.
  intros Hinv Hk Ha. pose proof (ci_pipe s Hinv _ _ Hk) as (_ & _ & Hok).
  rewrite Ha in Hok. destruct Hok as (Had & Hrm & _).
  assert (∀ k0 q s0, cpipes s0 = <[k0 := q]> (cpipes s) →
    (k0 = k → adding q = Rejected ∧ id q = id p) →
    ∃ p', cpipes s0 !! k = Some p' ∧ adding p' = Rejected ∧ id p' = id p) as Hupd.
  { intros k0 q s0 -> Hq. destruct (decide (k0 = k)) as [->|].
    - exists q. rewrite lookup_insert_eq. naive_solver.
    - exists p. by rewrite lookup_insert_ne. }
  assert (∀ ph e j s0, cpipes (fire ph e j s0) = cpipes s0) as Hfire by (by intros []).
  assert (∀ d b s0, cpipes (notify d b s0) = cpipes s0) as Hnot by (by intros []).
  destruct l as [k0 d l rnd|k0 res|k0|k0|k0|k0|k0|h]; simpl.
  1: { intros [Hk0 Hs]%guard_bind_Some. revert Hs. unfold addPipe_start.
       destruct (newPipe d l rnd s) as [[q s1]|] eqn:E; simpl; [|done]. intros [= <-].
       unfold newPipe in E. destruct (Get _ _) as [[i a]|]; simplify_eq/=.
       eapply (Hupd k0); [by rewrite Hfire|]. intros ->. congruence. }
  7: { intros [= <-]. eauto. }
  all: destruct (cpipes s !! k0) as [q|] eqn:Hq; simpl; [|done].
  all: intros [Hg [= <-]]%guard_bind_Some.
  - apply (Hupd k0 (if closing q then q <| adding := Rejected |> else
      match res with Some _ => q <| adding := Rejected |>
      | None => q <| added := true |> <| adding := AddedHook |> end)).
    + unfold addPipe_attach. by destruct (closing q), res.
    + intros ->. congruence.
  - unfold addPipe_finish. eapply (Hupd k0); [by rewrite Hfire, Hnot|]. intros ->. congruence.
  - eapply (Hupd k0); [done|]. intros ->. by simplify_eq.
  - unfold Close_locked. cbn [added set_field]. destruct (added q) eqn:Haq.
    + eapply (Hupd k0); [by rewrite Hnot|]. intros ->. congruence.
    + eapply (Hupd k0); [by rewrite Hnot|]. intros ->. by simplify_eq.
  - unfold remPipe_hook. eapply (Hupd k0); [by rewrite Hfire|]. intros ->. congruence.
  - unfold remPipe_free. destruct (Free _ _) eqn:E; [|by eauto].
    eapply (Hupd k0); [done|]. intros ->. congruence.
Qed.

(** C5.  The ID of a pipe that the hook or the protocol rejected is never
    given back: it is in use in every later state, although the pipe is
    closed.  ([Close] releases the ID only of pipes that were added.) *)
Theorem rejected_pipe_keeps_id s ls s' k p :
  reachable cstep cinit (λ _ _, True) s →
  cpipes s !! k = Some p → adding p = Rejected → run cstep ls s = Some s' →
  id p ∈ used_set (pipeIDs s').
Proof.
  intros Hinv%cinv_reachable. revert s p Hinv.
  induction ls as [|l ls IH]; simpl; intros s p Hinv Hk Ha Hrun.
  - simplify_eq. eapply ci_used; [done..|].
    destruct (ci_pipe s' Hinv _ _ Hk) as (_ & _ & Hok). rewrite Ha in Hok.
    destruct Hok as (_ & -> & _). done.
  - apply bind_Some in Hrun as (s1 & Hs & Hrun).
    destruct (rejected_stable _ _ _ _ _ Hinv Hk Ha Hs) as (p' & Hk' & Ha' & <-).
    eapply IH; [|done..]. by eapply cinv_step.
Qed.

Lemma rejected_pipe_keeps_id_witness :
  let s := play cstep okT (take 5 life) (core0 alloc0) in
  let s' := default s (run cstep [LClose 1; LCloseLocked 1] s) in
  ∃ p, cpipes s !! 1 = Some p ∧ once <$> cpipes s' !! 1 = Some true ∧
       pipeList s' !! id p = None ∧ id p ∈ used_set (pipeIDs s').
Proof.
  intros s s'. eexists. split; [vm_compute; reflexivity|].
  split; [vm_compute; reflexivity|]. split; [vm_compute; reflexivity|].
  eapply (rejected_pipe_keeps_id s [LClose 1; LCloseLocked 1] s' 1).
  - apply play_reachable; [done|by exists alloc0].
  - vm_compute. reflexivity.
  - vm_compute. reflexivity.
  - vm_compute. reflexivity.
Defined.
