(* ===== verification/Req.v ===== *)
(** * Req: the REQ protocol

    [src/protocol/req/req.go], complete: contexts, the two queues, resends,
    timeouts, cancellation.  Contexts, pipes and messages are shared objects
    held in stores and named by identity; the socket's mutex makes each
    stretch of code between [Lock] and [Unlock] (or [cond.Wait]) one step.
    [threads] holds the goroutines and blocked calls, [timers] the armed
    [time.AfterFunc]s. *)
From stdpp Require Import gmap list strings fin_maps.
From Stdlib Require Import ZArith Lia.
From S2P Require Import Prelude Types Message.

(** Identities: contexts, pipe objects, threads, timers. *)
Abbreviation cid := nat.
Abbreviation pid := nat.
Abbreviation tid := nat.
Abbreviation tmid := nat.

Record pipe := mkPipe { p_id : Z; p_closed : bool }.
#[export] Instance eta_pipe : Eta pipe := λ p, mkPipe (p_id p) (p_closed p).

Record context := mkContext {
  resendTime : Z;
  sendExpire : Z;
  receiveExpire : Z;
  sendTimer : option tmid;
  receiveTimer : option tmid;
  resendTimer : option tmid;
  reqMsg : option mid;
  repMsg : option mid;
  sendMsg : option mid;
  lastPipe : option pid;
  reqID : Z;
  receiveWait : bool;
  bestEffort : bool;
  failNoPeers : bool;
  queued : bool;
  c_closed : bool
}.
#[export] Instance eta_context : Eta context := λ c,
  mkContext (resendTime c) (sendExpire c) (receiveExpire c) (sendTimer c)
    (receiveTimer c) (resendTimer c) (reqMsg c) (repMsg c) (sendMsg c)
    (lastPipe c) (reqID c) (receiveWait c) (bestEffort c) (failNoPeers c)
    (queued c) (c_closed c).
#[export] Instance context_inhabited : Inhabited context :=
  populate (mkContext 0 0 0 None None None None None None None 0 false false false false false).

(** The functions given to [time.AfterFunc].  Those of [SendMsg] and
    [RecvMsg] also set the local [expired] of the call that armed them. *)
Inductive timer_fn :=
  | FnResend (c : cid) (id : Z)
  | FnSendExpire (c : cid) (m : mid) (call : tid)
  | FnRecvExpire (c : cid) (id : Z) (call : tid).

Inductive thread :=
  | ThSendStart (c : cid) (m : mid) (id : Z)       (* SendMsg, before s.Lock() *)
  | ThSend (c : cid) (m : mid) (expired woken : bool) (* SendMsg in cond.Wait *)
  | ThRecv (c : cid) (id : Z) (expired woken : bool)  (* RecvMsg in cond.Wait *)
  | ThSendCtx (p : pid) (m : mid)                  (* sendCtx, sending *)
  | ThSendCtxLock (p : pid)                        (* sendCtx, before s.Lock() *)
  | ThReceiver (p : pid)                           (* receiver *)
  | ThResend (c : cid) (id : Z)                    (* go c.resendMessage(id) *)
  | ThTimer (f : timer_fn).                        (* a timer that has fired *)

(** What an API call returned; for [RecvMsg] also the context and the
    request ID it was called for. *)
Inductive ret := RetSend (e : error) | RetRecv (c : cid) (id : Z) (r : result mid).

Record socket := mkSocket {
  defCtx : cid;
  contexts : gset cid;
  ctxByID : gmap Z cid;
  nextID : Z;
  s_closed : bool;
  sendQ : list cid;
  readyQ : list pid;
  pipes : gmap Z pid;
  ctxs : gmap cid context;
  pipeobjs : gmap pid pipe;
  mh : mheap;
  timers : gmap tmid timer_fn;
  threads : gmap tid thread;
  next_tid : tid;
  returns : list (tid * ret);
  panicked : bool              (* send has dereferenced a nil message *)
}.
#[export] Instance eta_socket : Eta socket := λ s,
  mkSocket (defCtx s) (contexts s) (ctxByID s) (nextID s) (s_closed s) (sendQ s)
    (readyQ s) (pipes s) (ctxs s) (pipeobjs s) (mh s) (timers s) (threads s)
    (next_tid s) (returns s) (panicked s).

(** ** Objects and the runtime *)
Definition ctx (c : cid) (s : socket) : context := ctxs s !!! c.
Definition upd_ctx (c : cid) (f : context → context) (s : socket) : socket :=
  s <| ctxs ::= alter f c |>.

Definition go (th : thread) (s : socket) : socket :=
  s <| threads ::= <[next_tid s := th]> |> <| next_tid ::= S |>.
Definition exit_thread (t : tid) (s : socket) : socket := s <| threads ::= delete t |>.
Definition return_ (t : tid) (r : ret) (s : socket) : socket :=
  exit_thread t s <| returns ::= (λ l, l ++ [(t, r)]) |>.

(** [time.AfterFunc]; the new timer's identity is [next_tid]. *)
Definition AfterFunc (f : timer_fn) (s : socket) : tmid * socket :=
  (next_tid s, s <| timers ::= <[next_tid s := f]> |> <| next_tid ::= S |>).
(** [t.Stop()] on a possibly nil timer. *)
Definition Stop (t : option tmid) (s : socket) : socket :=
  match t with Some t => s <| timers ::= delete t |> | None => s end.

(** [c.cond.Broadcast()]. *)
Definition wake (c : cid) (th : thread) : thread :=
  match th with
  | ThSend c' m e w => if decide (c' = c) then ThSend c' m e true else th
  | ThRecv c' id e w => if decide (c' = c) then ThRecv c' id e true else th
  | _ => th
  end.
Definition Broadcast (c : cid) (s : socket) : socket := s <| threads ::= fmap (wake c) |>.

(** [expired = true] in the call's own frame. *)
Definition expire (th : thread) : thread :=
  match th with
  | ThSend c m _ w => ThSend c m true w
  | ThRecv c id _ w => ThRecv c id true w
  | _ => th
  end.
Definition set_expired (call : tid) (s : socket) : socket :=
  s <| threads ::= alter expire call |>.

(** ** [socket.send] *)

(** The message of a context taken off [sendQ]: a new request becomes the
    outstanding one, otherwise the outstanding one is sent again. *)
Definition send_take (c : cid) (s : socket) : option mid * socket :=
  match sendMsg (ctx c s) with
  | Some m =>
      let s := upd_ctx c (λ x, x <| reqMsg := Some m |> <| sendMsg := None |>) s in
      let s := s <| ctxByID ::= <[reqID (ctx c s) := c]> |> in
      (Some m, Broadcast c s)
  | None => (reqMsg (ctx c s), s)
  end.

(** Remember the pipe and schedule the retransmission. *)
Definition send_arm (c : cid) (p : pid) (s : socket) : socket :=
  let s := upd_ctx c (λ x, x <| lastPipe := Some p |>) s in
  if decide (0 < resendTime (ctx c s))%Z then
    let '(t, s) := AfterFunc (FnResend c (reqID (ctx c s))) s in
    upd_ctx c (λ x, x <| resendTimer := Some t |>) s
  else s.

(** One pass of the [for] loop. *)
Definition send_one (s : socket) : socket :=
  match sendQ s, readyQ s with
  | c :: sq, p :: rq =>
      let s := s <| sendQ := sq |> in
      let s := upd_ctx c (λ x, x <| queued := false |>) s in
      let '(om, s) := send_take c s in
      match om with
      | None => s <| panicked := true |>   (* m.Clone() on a nil pointer *)
      | Some m =>
          let s := s <| mh ::= Clone m |> in
          let s := s <| readyQ := rq |> in
          go (ThSendCtx p m) (send_arm c p s)
      end
  | _, _ => s
  end.

Fixpoint send_loop (n : nat) (s : socket) : socket :=
  match n with O => s | S n => send_loop n (send_one s) end.

(** Every pass takes one context off [sendQ], so this many passes run the
    [for] loop to its end. *)
Definition send (s : socket) : socket := send_loop (length (sendQ s)) s.

(** ** Cancellation *)
Definition cancelSend (c : cid) (s : socket) : socket :=
  if queued (ctx c s) then
    upd_ctx c (λ x, x <| queued := false |>) s <| sendQ ::= remove_first c |>
  else s.

Definition stopResend (c : cid) (s : socket) : socket :=
  upd_ctx c (λ x, x <| resendTimer := None |>) (Stop (resendTimer (ctx c s)) s).
Definition stopSend (c : cid) (s : socket) : socket :=
  upd_ctx c (λ x, x <| sendTimer := None |>) (Stop (sendTimer (ctx c s)) s).
Definition stopReceive (c : cid) (s : socket) : socket :=
  upd_ctx c (λ x, x <| receiveTimer := None |>) (Stop (receiveTimer (ctx c s)) s).

Definition freeRep (c : cid) (s : socket) : socket :=
  upd_ctx c (λ x, x <| repMsg := None |>) (s <| mh ::= Free_opt (repMsg (ctx c s)) |>).
Definition freeReq (c : cid) (s : socket) : socket :=
  upd_ctx c (λ x, x <| reqMsg := None |>) (s <| mh ::= Free_opt (reqMsg (ctx c s)) |>).

Definition dropID (c : cid) (s : socket) : socket :=
  if decide (reqID (ctx c s) = 0)%Z then s
  else upd_ctx c (λ x, x <| reqID := 0%Z |>) (s <| ctxByID ::= delete (reqID (ctx c s)) |>).

Definition cancel (c : cid) (s : socket) : socket :=
  let s := cancelSend c s in
  let s := dropID c s in
  let s := freeRep c s in
  let s := freeReq c s in
  let s := stopResend c s in
  let s := stopSend c s in
  let s := stopReceive c s in
  Broadcast c s.

(** ** Sending to pipes *)

(** [sendCtx], around [p.p.SendMsg(m)].  A pipe that sends a message frees
    it; [sendCtx] frees it on an error. *)
Definition sendCtx_sent (t : tid) (p : pid) (m : mid) (res : error) (s : socket) : socket :=
  let s := s <| mh ::= Free m |> in
  if decide (res = Some ErrClosed) then exit_thread t s
  else s <| threads ::= <[t := ThSendCtxLock p]> |>.

Definition sendCtx_lock (t : tid) (p : pid) (s : socket) : socket :=
  let s := exit_thread t s in
  if negb (s_closed s) && negb (p_closed (default (mkPipe 0 true) (pipeobjs s !! p)))
  then send (s <| readyQ ::= (λ q, q ++ [p]) |>)
  else s.

Definition resendMessage (c : cid) (id : Z) (s : socket) : socket :=
  if bool_decide (reqID (ctx c s) = id) && bool_decide (reqMsg (ctx c s) ≠ None)
     && negb (queued (ctx c s))
  then send (upd_ctx c (λ x, x <| queued := true |>) s <| sendQ ::= (λ q, q ++ [c]) |>)
  else s.

(** ** Receiving from pipes: one turn of [receiver], given the body of the
    message that [p.p.RecvMsg()] returned.  [c.reqMsg] may be nil, and [Free]
    does nothing then. *)
Definition receive_locked (p : pid) (m : mid) (id : Z) (s : socket) : socket :=
  let s := s <| readyQ ::= swap_front p |> in
  match ctxByID s !! id with
  | Some c =>
      let s := cancelSend c s in
      let s := freeReq c s in
      let s := upd_ctx c (λ x, x <| repMsg := Some m |>) s in
      let s := s <| ctxByID ::= delete id |> in
      let s := stopResend c s in
      let s := stopReceive c s in
      Broadcast c s
  | None => s <| mh ::= Free m |>
  end.

Definition receiver_turn (p : pid) (body : list Byte.byte) (ch : option nat) (s : socket)
    : socket :=
  let '(m, h) := NewMessage (Z.of_nat (length body)) ch (mh s) in
  let h := set_Body m body h in
  if decide (length body < 4) then s <| mh := Free m h |>
  else
    let h := set_Header m (take 4 body) h in
    let h := set_Body m (drop 4 body) h in
    receive_locked p m (uint32_of (take 4 body)) (s <| mh := h |>).

(** ** [context.SendMsg] *)

(** Before the lock: the request ID and the header. *)
Definition SendMsg_start (t : tid) (c : cid) (m : mid) (s : socket) : socket :=
  let n := u32 (nextID s + 1) in
  let id := Z.lor n 0x80000000 in
  let s := s <| nextID := n |> <| mh ::= set_Header m (put_uint32 id) |> in
  s <| threads ::= <[t := ThSendStart c m id]> |>.

Definition noPeers (c : cid) (s : socket) : bool :=
  failNoPeers (ctx c s) && bool_decide (size (pipes s) = 0).

(** The [for] loop around [cond.Wait], evaluated once, and what follows it. *)
Definition SendMsg_check (t : tid) (c : cid) (m : mid) (expired : bool) (s : socket) : socket :=
  if bool_decide (sendMsg (ctx c s) = Some m) && negb expired && negb (c_closed (ctx c s))
     && negb (noPeers c s)
  then s <| threads ::= <[t := ThSend c m expired false]> |>
  else if bool_decide (sendMsg (ctx c s) = Some m) then
    let s := cancelSend c s in
    let s := upd_ctx c (λ x, x <| sendMsg := None |> <| reqID := 0%Z |>) s in
    if c_closed (ctx c s) then return_ t (RetSend (Some ErrClosed)) s
    else if noPeers c s then return_ t (RetSend (Some ErrNoPeers)) s
    else return_ t (RetSend (Some ErrSendTimeout)) s
  else return_ t (RetSend None) s.

(** Cancel what the context was doing and queue the new request. *)
Definition SendMsg_enqueue (c : cid) (m : mid) (id : Z) (s : socket) : socket :=
  let s := cancel c s in
  let s := cancelSend c s in
  upd_ctx c (λ x, x <| reqID := id |> <| queued := true |> <| sendMsg := Some m |>) s
    <| sendQ ::= (λ q, q ++ [c]) |>.

(** The send deadline: the initial value of [expired]. *)
Definition SendMsg_arm (t : tid) (c : cid) (m : mid) (s : socket) : bool * socket :=
  if decide (0 < sendExpire (ctx c s))%Z then
    let '(tm, s) := AfterFunc (FnSendExpire c m t) s in
    (false, upd_ctx c (λ x, x <| sendTimer := Some tm |>) s)
  else (bool_decide (sendExpire (ctx c s) < 0)%Z, s).

(** From the lock to the first wait or to the return. *)
Definition SendMsg_locked (t : tid) (c : cid) (m : mid) (id : Z) (s : socket) : socket :=
  if s_closed s || c_closed (ctx c s) then return_ t (RetSend (Some ErrClosed)) s
  else if noPeers c s then return_ t (RetSend (Some ErrNoPeers)) s
  else
    let s := SendMsg_enqueue c m id s in
    if bestEffort (ctx c s) then return_ t (RetSend None) (send s)
    else
      let '(expired, s) := SendMsg_arm t c m s in
      SendMsg_check t c m expired (send s).

(** ** [context.RecvMsg] *)
Definition RecvMsg_finish (t : tid) (c : cid) (id : Z) (expired : bool) (s : socket) : socket :=
  let om := repMsg (ctx c s) in
  let s := upd_ctx c (λ x, x <| reqID := 0%Z |> <| repMsg := None |> <| receiveWait := false |>) s in
  let s := Broadcast c s in
  match om with
  | Some m => return_ t (RetRecv c id (Ok m)) s
  | None =>
      if c_closed (ctx c s) then return_ t (RetRecv c id (Err ErrClosed)) s
      else if expired then return_ t (RetRecv c id (Err ErrRecvTimeout)) s
      else if noPeers c s then return_ t (RetRecv c id (Err ErrNoPeers)) s
      else return_ t (RetRecv c id (Err ErrCanceled)) s
  end.

Definition RecvMsg_check (t : tid) (c : cid) (id : Z) (expired : bool) (s : socket) : socket :=
  if bool_decide (id = reqID (ctx c s)) && bool_decide (repMsg (ctx c s) = None) then
    if decide (receiveExpire (ctx c s) < 0)%Z then RecvMsg_finish t c id true (cancel c s)
    else s <| threads ::= <[t := ThRecv c id expired false]> |>
  else RecvMsg_finish t c id expired s.

Definition RecvMsg (t : tid) (c : cid) (s : socket) : socket :=
  let id := reqID (ctx c s) in
  if s_closed s || c_closed (ctx c s) then return_ t (RetRecv c id (Err ErrClosed)) s
  else if noPeers c s then return_ t (RetRecv c id (Err ErrNoPeers)) s
  else if receiveWait (ctx c s) || bool_decide (reqID (ctx c s) = 0%Z)
  then return_ t (RetRecv c id (Err ErrProtoState)) s
  else
    let s := upd_ctx c (λ x, x <| receiveWait := true |>) s in
    let s :=
      if decide (0 < receiveExpire (ctx c s))%Z then
        let '(tm, s) := AfterFunc (FnRecvExpire c id t) s in
        upd_ctx c (λ x, x <| receiveTimer := Some tm |>) s
      else s in
    RecvMsg_check t c id false s.

(** The functions the timers run. *)
Definition run_timer (f : timer_fn) (s : socket) : socket :=
  match f with
  | FnResend c id => resendMessage c id s
  | FnSendExpire c m call =>
      if decide (sendMsg (ctx c s) = Some m) then cancel c (set_expired call s) else s
  | FnRecvExpire c id call =>
      if decide (reqID (ctx c s) = id) then cancel c (set_expired call s) else s
  end.

(** ** Options *)
Definition SetOption (c : cid) (name : string) (v : value) (s : socket) : error * socket :=
  if String.eqb name OptionRetryTime then
    match v with
    | VDuration d => (None, upd_ctx c (λ x, x <| resendTime := d |>) s)
    | _ => (Some ErrBadValue, s)
    end
  else if String.eqb name OptionRecvDeadline then
    match v with
    | VDuration d => (None, upd_ctx c (λ x, x <| receiveExpire := d |>) s)
    | _ => (Some ErrBadValue, s)
    end
  else if String.eqb name OptionSendDeadline then
    match v with
    | VDuration d => (None, upd_ctx c (λ x, x <| sendExpire := d |>) s)
    | _ => (Some ErrBadValue, s)
    end
  else if String.eqb name OptionBestEffort then
    match v with
    | VBool b => (None, upd_ctx c (λ x, x <| bestEffort := b |>) s)
    | _ => (Some ErrBadValue, s)
    end
  else if String.eqb name OptionFailNoPeers then
    match v with
    | VBool b => (None, upd_ctx c (λ x, x <| failNoPeers := b |>) s)
    | _ => (Some ErrBadValue, s)
    end
  else (Some ErrBadOption, s).

Definition GetOption (c : cid) (name : string) (s : socket) : result value :=
  if String.eqb name OptionRetryTime then Ok (VDuration (resendTime (ctx c s)))
  else if String.eqb name OptionRecvDeadline then Ok (VDuration (receiveExpire (ctx c s)))
  else if String.eqb name OptionSendDeadline then Ok (VDuration (sendExpire (ctx c s)))
  else if String.eqb name OptionBestEffort then Ok (VBool (bestEffort (ctx c s)))
  else if String.eqb name OptionFailNoPeers then Ok (VBool (failNoPeers (ctx c s)))
  else Err ErrBadOption.

Definition socket_GetOption (name : string) (s : socket) : result value :=
  if String.eqb name OptionRaw then Ok (VBool false) else GetOption (defCtx s) name s.
Definition socket_SetOption (name : string) (v : value) (s : socket) : error * socket :=
  SetOption (defCtx s) name v s.

Definition socket_SendMsg (t : tid) (m : mid) (s : socket) : socket :=
  SendMsg_start t (defCtx s) m s.
Definition socket_RecvMsg (t : tid) (s : socket) : socket := RecvMsg t (defCtx s) s.

(** ** Contexts, pipes, closing *)
Definition context_Close (c : cid) (s : socket) : error * socket :=
  if c_closed (ctx c s) then (Some ErrClosed, s)
  else
    let s := upd_ctx c (λ x, x <| c_closed := true |>) s in
    let s := cancel c s in
    (None, s <| contexts ::= (λ cs, cs ∖ {[c]}) |>).

(** [order] is the order in which Go ranges over the set of contexts. *)
Definition close_one (s : socket) (c : cid) : socket :=
  let s := upd_ctx c (λ x, x <| c_closed := true |>) s in
  cancel c s <| contexts ::= (λ cs, cs ∖ {[c]}) |>.
Definition socket_Close (order : list cid) (s : socket) : error * socket :=
  if s_closed s then (Some ErrClosed, s)
  else (None, foldl close_one (s <| s_closed := true |>) order).

(** [c] is the identity of the new context. *)
Definition OpenContext (c : cid) (s : socket) : error * socket :=
  if s_closed s then (Some ErrClosed, s)
  else
    let d := ctx (defCtx s) s in
    let x := mkContext (resendTime d) (sendExpire d) (receiveExpire d) None None None
               None None None None 0 false (bestEffort d) (failNoPeers d) false false in
    (None, s <| ctxs ::= <[c := x]> |> <| contexts ::= (λ cs, {[c]} ∪ cs) |>).

Definition AddPipe (p : pid) (id : Z) (s : socket) : error * socket :=
  let s := s <| pipeobjs ::= <[p := mkPipe id false]> |> in
  if s_closed s then (Some ErrClosed, s)
  else
    let s := s <| readyQ ::= (λ q, q ++ [p]) |> in
    let s := send s in
    let s := s <| pipes ::= <[id := p]> |> in
    (None, go (ThReceiver p) s).

Definition remove_for (p : pid) (s : socket) (c : cid) : socket :=
  if noPeers c s then cancel c s
  else if bool_decide (lastPipe (ctx c s) = Some p) && bool_decide (reqMsg (ctx c s) ≠ None) then
    let s := upd_ctx c (λ x, x <| lastPipe := None |>) s in
    let id := reqID (ctx c s) in
    if decide (resendTime (ctx c s) = 0)%Z then cancel c s
    else go (ThResend c id) (cancelSend c s)
  else s.

(** A pipe is in [readyQ] at most once ([ri_readyQ]), so the removal loop
    takes out one entry. *)
Definition RemovePipe (p : pid) (order : list cid) (s : socket) : socket :=
  let s := s <| pipeobjs ::= alter (λ x, x <| p_closed := true |>) p |> in
  let s := s <| readyQ ::= remove_first p |> in
  let s := s <| pipes ::= delete (p_id (default (mkPipe 0 true) (pipeobjs s !! p))) |> in
  foldl (remove_for p) s order.

Definition defCtx0 : context :=
  mkContext 60000000000 0 0 None None None None None None None 0 false false false false false.
(** [NewProtocol]; [now] is [time.Now().UnixNano()]. *)
Definition NewProtocol (now : Z) : socket :=
  mkSocket 0 {[0]} ∅ (u32 now) false [] [] ∅ {[0 := defCtx0]} ∅ heap0 ∅ ∅ 1 [] false.

Definition Info : ProtocolInfo := mkInfo ProtoReq ProtoRep "req" "rep".

(** ** The step system *)
Inductive label :=
  | LSend (c : cid) (m : mid)            (* a goroutine calls SendMsg *)
  | LSendLock (t : tid)                  (* ... and gets the lock *)
  | LRecv (c : cid)                      (* a goroutine calls RecvMsg *)
  | LWake (t : tid)                      (* cond.Wait returns *)
  | LFire (tm : tmid)                    (* a timer expires *)
  | LTimer (t : tid)                     (* its function gets the lock *)
  | LPipeSent (t : tid) (res : error)    (* p.p.SendMsg returns *)
  | LPipeSentLock (t : tid)
  | LPipeRecv (t : tid) (body : list Byte.byte) (ch : option nat)
  | LPipeRecvNil (t : tid)
  | LSetOption (c : cid) (name : string) (v : value)
  | LCtxClose (c : cid)
  | LClose (order : list cid)
  | LOpen (c : cid)
  | LAddPipe (p : pid) (id : Z)
  | LRemovePipe (p : pid) (order : list cid)
  | LNewMsg (body : list Byte.byte) (ch : option nat).  (* the application *)

Definition is_ctx (c : cid) (s : socket) : Prop := is_Some (ctxs s !! c).
#[export] Instance is_ctx_dec c s : Decision (is_ctx c s).
Proof. unfold is_ctx. apply _. Defined.

(** [order] lists the elements of [contexts], each once. *)
Definition ranges (order : list cid) (s : socket) : Prop :=
  NoDup order ∧ list_to_set order = contexts s.
#[export] Instance ranges_dec order s : Decision (ranges order s).
Proof. unfold ranges. apply _. Defined.

Definition fresh_thread (s : socket) : tid * socket := (next_tid s, s <| next_tid ::= S |>).

Definition step (l : label) (s : socket) : option socket :=
  guard (panicked s = false);;   (* a panic ends the program *)
  match l with
  | LSend c m =>
      guard (is_ctx c s ∧ is_Some (objs (mh s) !! m));;
      let '(t, s) := fresh_thread s in Some (SendMsg_start t c m s)
  | LSendLock t =>
      match threads s !! t with
      | Some (ThSendStart c m id) => guard (is_ctx c s);; Some (SendMsg_locked t c m id s)
      | _ => None
      end
  | LRecv c =>
      guard (is_ctx c s);; let '(t, s) := fresh_thread s in Some (RecvMsg t c s)
  | LWake t =>
      match threads s !! t with
      | Some (ThSend c m e true) => Some (SendMsg_check t c m e s)
      | Some (ThRecv c id e true) => Some (RecvMsg_check t c id e s)
      | _ => None
      end
  | LFire tm =>
      f ← timers s !! tm; Some (go (ThTimer f) (s <| timers ::= delete tm |>))
  | LTimer t =>
      match threads s !! t with
      | Some (ThTimer f) => Some (run_timer f (exit_thread t s))
      | Some (ThResend c id) => Some (resendMessage c id (exit_thread t s))
      | _ => None
      end
  | LPipeSent t res =>
      match threads s !! t with
      | Some (ThSendCtx p m) => Some (sendCtx_sent t p m res s)
      | _ => None
      end
  | LPipeSentLock t =>
      match threads s !! t with
      | Some (ThSendCtxLock p) => Some (sendCtx_lock t p s)
      | _ => None
      end
  | LPipeRecv t body ch =>
      match threads s !! t with
      | Some (ThReceiver p) => Some (receiver_turn p body ch s)
      | _ => None
      end
  | LPipeRecvNil t =>
      match threads s !! t with
      | Some (ThReceiver p) => Some (exit_thread t s)
      | _ => None
      end
  | LSetOption c name v => guard (is_ctx c s);; Some (snd (SetOption c name v s))
  | LCtxClose c => guard (is_ctx c s);; Some (snd (context_Close c s))
  | LClose order => guard (ranges order s);; Some (snd (socket_Close order s))
  | LOpen c => guard (ctxs s !! c = None);; Some (snd (OpenContext c s))
  | LAddPipe p id =>
      guard (pipeobjs s !! p = None ∧ pipes s !! id = None);; Some (snd (AddPipe p id s))
  | LRemovePipe p order =>
      guard ((p_closed <$> pipeobjs s !! p) = Some false ∧ ranges order s);;
      Some (RemovePipe p order s)
  | LNewMsg body ch =>
      let '(m, h) := NewMessage (Z.of_nat (length body)) ch (mh s) in
      Some (s <| mh := set_Body m body h |>)
  end.

Definition init (s : socket) : Prop := ∃ now, s = NewProtocol now.
