(* ===== verification/ReqInv.v ===== *)
(** * ReqInv: the queues of a REQ socket

    Invariants of [Req] that hold for every program using the socket: the
    two queues never hold an entry twice, a queued context always has a
    message to send (so [send] never dereferences nil), a pipe carries at
    most one message at a time, and no queued message waits while a pipe is free. *)
From stdpp Require Import gmap list strings fin_maps.
From Stdlib Require Import ZArith Lia.
From S2P Require Import Prelude Types Message Req.

(** ** The pipe a goroutine is sending on *)
Definition busy_on (th : thread) : option pid :=
  match th with ThSendCtx p _ | ThSendCtxLock p => Some p | _ => None end.
Definition busy (s : socket) (t : tid) (p : pid) : Prop :=
  threads s !! t ≫= busy_on = Some p.
(** Thread identities are handed out in order. *)
Definition tids_ok (s : socket) : Prop := ∀ t, is_Some (threads s !! t) → t < next_tid s.

(** Steps that leave the pipes and the goroutines sending on them alone
    (goroutines may end, or be woken). *)
Record pipe_frame (s s' : socket) : Prop := {
  pf_ready : readyQ s' = readyQ s;
  pf_objs : pipeobjs s' = pipeobjs s;
  pf_busy t p : busy s' t p → busy s t p;
  pf_tids : tids_ok s → tids_ok s';
  pf_panic : panicked s' = panicked s;
  pf_pipes : pipes s' = pipes s;
  pf_next : next_tid s ≤ next_tid s'
}.

#[export] Instance pipe_frame_preorder : PreOrder pipe_frame.
Proof.
  split.
  - by split.
  - intros s1 s2 s3 [] []. split; try congruence; auto. lia.
Qed.

Create HintDb req.

#[global] Arguments cancel : simpl never.
#[global] Arguments cancelSend : simpl never.
#[global] Arguments send : simpl never.
#[global] Arguments SendMsg_check : simpl never.
#[global] Arguments RecvMsg_check : simpl never.
#[global] Arguments RecvMsg_finish : simpl never.

(** A change that leaves the threads, [next_tid] and the pipe fields. *)
Lemma frame_same s s' :
  readyQ s' = readyQ s → pipeobjs s' = pipeobjs s → threads s' = threads s →
  next_tid s' = next_tid s → panicked s' = panicked s → pipes s' = pipes s → pipe_frame s s'.
Proof.
  intros ?? Ht Hn ??. split; try done.
  - intros t p. unfold busy. by rewrite Ht.
  - intros Htids t. rewrite Ht, Hn. apply Htids.
  - by rewrite Hn.
Qed.

Lemma frame_threads s s' :
  readyQ s' = readyQ s → pipeobjs s' = pipeobjs s → next_tid s' = next_tid s →
  panicked s' = panicked s → pipes s' = pipes s →
  (∀ t p, busy s' t p → busy s t p) →
  (∀ t, is_Some (threads s' !! t) → is_Some (threads s !! t) ∨ t < next_tid s) →
  pipe_frame s s'.
Proof.
  intros ?? Hn ?? Hb Ht. split; try done.
  - intros Htids t [Hs|Hlt]%Ht; rewrite Hn; [by apply Htids|done].
  - by rewrite Hn.
Qed.

Lemma frame_upd_ctx c f s : pipe_frame s (upd_ctx c f s).
Proof. by apply frame_same. Qed.
Lemma frame_Stop t s : pipe_frame s (Stop t s).
Proof. destruct t; by apply frame_same. Qed.

Lemma busy_on_wake c th : busy_on (wake c th) = busy_on th.
Proof. destruct th; simpl; try case_decide; done. Qed.
Lemma busy_on_expire th : busy_on (expire th) = busy_on th.
Proof. by destruct th. Qed.

Lemma frame_Broadcast c s : pipe_frame s (Broadcast c s).
Proof.
  apply frame_threads; try done.
  - intros t p. unfold busy. simpl. rewrite lookup_fmap.
    destruct (threads s !! t); simpl; [|done]. by rewrite busy_on_wake.
  - intros t. simpl. rewrite lookup_fmap, fmap_is_Some. by left.
Qed.

Lemma frame_set_expired t s : pipe_frame s (set_expired t s).
Proof.
  apply frame_threads; try done.
  - intros t' p. unfold busy. simpl. rewrite lookup_alter.
    case_decide; [|done]. subst. destruct (threads s !! t'); simpl; [|done].
    by rewrite busy_on_expire.
  - intros t'. simpl. rewrite lookup_alter. case_decide; [|by left].
    rewrite fmap_is_Some. subst. by left.
Qed.

Lemma frame_exit t s : pipe_frame s (exit_thread t s).
Proof.
  apply frame_threads; try done.
  - intros t' p. unfold busy. simpl. rewrite lookup_delete. by case_decide.
  - intros t'. simpl. rewrite lookup_delete. case_decide; [by intros []|by left].
Qed.

Lemma frame_return t r s : pipe_frame s (return_ t r s).
Proof.
  transitivity (exit_thread t s); [apply frame_exit|by apply frame_same].
Qed.

(** Replacing a thread by one that is not sending. *)
Lemma frame_set_thread t th s :
  busy_on th = None → is_Some (threads s !! t) ∨ t < next_tid s →
  pipe_frame s (s <| threads ::= <[t := th]> |>).
Proof.
  intros Hb Ht. apply frame_threads; try done.
  - intros t' p. unfold busy. simpl. rewrite lookup_insert.
    case_decide; [|done]. simpl. congruence.
  - intros t'. simpl. rewrite lookup_insert_is_Some'. intros [<-|?]; [done|by left].
Qed.

Lemma frame_next_tid s : pipe_frame s (s <| next_tid ::= S |>).
Proof.
  split; try done; simpl; [|lia]. intros Htids t Ht. simpl. apply Htids in Ht. lia.
Qed.

Lemma frame_go th s : busy_on th = None → pipe_frame s (go th s).
Proof.
  intros Hb. unfold go.
  transitivity (s <| next_tid ::= S |>); [apply frame_next_tid|].
  refine (frame_set_thread (next_tid s) th (s <| next_tid ::= S |>) Hb _). right. simpl. lia.
Qed.

Lemma frame_AfterFunc f s : pipe_frame s (snd (AfterFunc f s)).
Proof.
  simpl. transitivity (s <| next_tid ::= S |>); [apply frame_next_tid|by apply frame_same].
Qed.

Lemma frame_cancelSend c s : pipe_frame s (cancelSend c s).
Proof. unfold cancelSend. destruct (queued _); [by apply frame_same|done]. Qed.
Lemma frame_dropID c s : pipe_frame s (dropID c s).
Proof. unfold dropID. case_decide; [done|by apply frame_same]. Qed.
Lemma frame_freeRep c s : pipe_frame s (freeRep c s).
Proof. by apply frame_same. Qed.
Lemma frame_freeReq c s : pipe_frame s (freeReq c s).
Proof. by apply frame_same. Qed.
Lemma frame_stopResend c s : pipe_frame s (stopResend c s).
Proof. unfold stopResend. etrans; [apply frame_Stop|apply frame_upd_ctx]. Qed.
Lemma frame_stopSend c s : pipe_frame s (stopSend c s).
Proof. unfold stopSend. etrans; [apply frame_Stop|apply frame_upd_ctx]. Qed.
Lemma frame_stopReceive c s : pipe_frame s (stopReceive c s).
Proof. unfold stopReceive. etrans; [apply frame_Stop|apply frame_upd_ctx]. Qed.

Lemma frame_cancel c s : pipe_frame s (cancel c s).
Proof.
  unfold cancel. etrans; [apply frame_cancelSend|]. etrans; [apply frame_dropID|].
  etrans; [apply frame_freeRep|]. etrans; [apply frame_freeReq|].
  etrans; [apply frame_stopResend|]. etrans; [apply frame_stopSend|].
  etrans; [apply frame_stopReceive|]. apply frame_Broadcast.
Qed.

(** ** What cancellation does to a context *)
Lemma ctx_lookup c x s : ctxs s !! c = Some x → ctx c s = x.
Proof. apply lookup_total_correct. Qed.

Definition cancelled (x : context) : context :=
  x <| queued := false |> <| reqID := 0%Z |> <| repMsg := None |> <| reqMsg := None |>
    <| resendTimer := None |> <| sendTimer := None |> <| receiveTimer := None |>.

Lemma cancelSend_ctxs c s :
  ctxs (cancelSend c s) = alter (λ x, x <| queued := false |>) c (ctxs s).
Proof.
  unfold cancelSend. destruct (queued (ctx c s)) eqn:Hq; [done|].
  symmetry. apply alter_id_at. intros x Hx. rewrite (ctx_lookup _ _ _ Hx) in Hq.
  destruct x; simpl in *. by subst.
Qed.

Lemma dropID_ctxs c s : ctxs (dropID c s) = alter (λ x, x <| reqID := 0%Z |>) c (ctxs s).
Proof.
  unfold dropID. case_decide as Hq; [|done].
  symmetry. apply alter_id_at. intros x Hx. rewrite (ctx_lookup _ _ _ Hx) in Hq.
  destruct x; simpl in *. by subst.
Qed.

Lemma Stop_ctxs t s : ctxs (Stop t s) = ctxs s.
Proof. by destruct t. Qed.

Lemma stopResend_ctxs c s :
  ctxs (stopResend c s) = alter (λ x, x <| resendTimer := None |>) c (ctxs s).
Proof. unfold stopResend. simpl. by rewrite Stop_ctxs. Qed.
Lemma stopSend_ctxs c s :
  ctxs (stopSend c s) = alter (λ x, x <| sendTimer := None |>) c (ctxs s).
Proof. unfold stopSend. simpl. by rewrite Stop_ctxs. Qed.
Lemma stopReceive_ctxs c s :
  ctxs (stopReceive c s) = alter (λ x, x <| receiveTimer := None |>) c (ctxs s).
Proof. unfold stopReceive. simpl. by rewrite Stop_ctxs. Qed.
Lemma freeRep_ctxs c s : ctxs (freeRep c s) = alter (λ x, x <| repMsg := None |>) c (ctxs s).
Proof. done. Qed.
Lemma freeReq_ctxs c s : ctxs (freeReq c s) = alter (λ x, x <| reqMsg := None |>) c (ctxs s).
Proof. done. Qed.
Lemma Broadcast_ctxs c s : ctxs (Broadcast c s) = ctxs s.
Proof. done. Qed.

Lemma cancel_ctxs c s : ctxs (cancel c s) = alter cancelled c (ctxs s).
Proof.
  unfold cancel. rewrite Broadcast_ctxs, stopReceive_ctxs, stopSend_ctxs, stopResend_ctxs,
    freeReq_ctxs, freeRep_ctxs, dropID_ctxs, cancelSend_ctxs, !alter_alter. done.
Qed.

Lemma stopResend_sendQ c s : sendQ (stopResend c s) = sendQ s.
Proof. unfold stopResend. by destruct (resendTimer _). Qed.
Lemma stopSend_sendQ c s : sendQ (stopSend c s) = sendQ s.
Proof. unfold stopSend. by destruct (sendTimer _). Qed.
Lemma stopReceive_sendQ c s : sendQ (stopReceive c s) = sendQ s.
Proof. unfold stopReceive. by destruct (receiveTimer _). Qed.
Lemma dropID_sendQ c s : sendQ (dropID c s) = sendQ s.
Proof. unfold dropID. by case_decide. Qed.
Lemma freeReq_sendQ c s : sendQ (freeReq c s) = sendQ s.
Proof. done. Qed.
Lemma freeRep_sendQ c s : sendQ (freeRep c s) = sendQ s.
Proof. done. Qed.
Lemma Broadcast_sendQ c s : sendQ (Broadcast c s) = sendQ s.
Proof. done. Qed.

#[export] Hint Rewrite Broadcast_ctxs stopReceive_ctxs stopSend_ctxs stopResend_ctxs
  freeReq_ctxs freeRep_ctxs dropID_ctxs cancelSend_ctxs cancel_ctxs Stop_ctxs
  stopResend_sendQ stopSend_sendQ stopReceive_sendQ dropID_sendQ freeReq_sendQ freeRep_sendQ
  Broadcast_sendQ : req.

Lemma cancel_sendQ c s : sendQ (cancel c s) = sendQ (cancelSend c s).
Proof. unfold cancel. by autorewrite with req. Qed.

(** ** Contexts waiting to send *)
Record qinv (s : socket) : Prop := {
  qi_nd : NoDup (sendQ s);
  qi_in c : c ∈ sendQ s ↔ ∃ x, ctxs s !! c = Some x ∧ queued x = true;
  qi_msg c x : ctxs s !! c = Some x → queued x = true → sendMsg x ≠ None ∨ reqMsg x ≠ None
}.

Lemma qinv_ext s s' : sendQ s' = sendQ s → ctxs s' = ctxs s → qinv s → qinv s'.
Proof. intros Hq Hc [???]. split; by rewrite ?Hq, ?Hc. Qed.

(** A context that keeps its place, and a message if it has one. *)
Lemma qinv_alter s s' c f :
  sendQ s' = sendQ s → ctxs s' = alter f c (ctxs s) →
  (∀ x, queued (f x) = queued x) →
  (∀ x, ctxs s !! c = Some x → queued x = true → sendMsg (f x) ≠ None ∨ reqMsg (f x) ≠ None) →
  qinv s → qinv s'.
Proof.
  intros Hq Hc Hf Hm [Hnd Hin Hmsg]. split; rewrite ?Hq, ?Hc; [done| |].
  - intros k. rewrite Hin, lookup_alter. case_decide as E; [|done]. subst.
    destruct (ctxs s !! k) as [x|]; simpl; [|naive_solver].
    split; intros (y & [= <-] & Hy).
    + exists (f x). by rewrite Hf.
    + exists x. by rewrite <-Hf.
  - intros k y. rewrite lookup_alter. case_decide as E; [|by eauto]. subst.
    intros (x & Hx & ->)%fmap_Some. rewrite Hf. eauto.
Qed.

Lemma qinv_cancelSend c s : qinv s → qinv (cancelSend c s).
Proof.
  intros [Hnd Hin Hmsg]. unfold cancelSend. destruct (queued (ctx c s)) eqn:Hq; [|by split].
  split; simpl.
  - by apply NoDup_remove_first.
  - intros k. rewrite elem_of_remove_first, Hin by done. rewrite lookup_alter.
    case_decide as E; subst.
    + split; [naive_solver|]. intros (y & (x & _ & ->)%fmap_Some & Hy). done.
    + naive_solver.
  - intros k y. rewrite lookup_alter. case_decide as E; [|by eauto]. subst.
    intros (x & _ & ->)%fmap_Some. done.
Qed.

Lemma cancelSend_queued c x s : ctxs (cancelSend c s) !! c = Some x → queued x = false.
Proof. rewrite cancelSend_ctxs, lookup_alter_eq. intros (y & _ & ->)%fmap_Some. done. Qed.

Lemma qinv_cancel c s : qinv s → qinv (cancel c s).
Proof.
  intros Hq%(qinv_cancelSend c).
  eapply (qinv_alter (cancelSend c s) _ c
    (λ x, x <| reqID := 0%Z |> <| repMsg := None |> <| reqMsg := None |>
      <| resendTimer := None |> <| sendTimer := None |> <| receiveTimer := None |>)); [..|done].
  - apply cancel_sendQ.
  - rewrite cancel_ctxs, cancelSend_ctxs, alter_alter. done.
  - done.
  - intros x Hx Hqx. apply cancelSend_queued in Hx. congruence.
Qed.

(** A context that joins the queue with a message. *)
Lemma qinv_enqueue s s' c x f :
  qinv s → ctxs s !! c = Some x → queued x = false → queued (f x) = true →
  (sendMsg (f x) ≠ None ∨ reqMsg (f x) ≠ None) →
  sendQ s' = sendQ s ++ [c] → ctxs s' = alter f c (ctxs s) → qinv s'.
Proof.
  intros [Hnd Hin Hmsg] Hx Hqx Hqf Hm Hq Hc.
  assert (c ∉ sendQ s) as Hnot.
  { rewrite Hin. intros (y & ? & ?). congruence. }
  split; rewrite ?Hq, ?Hc.
  - apply NoDup_app. split_and!; [done|set_solver|apply NoDup_singleton].
  - intros k. rewrite elem_of_app, list_elem_of_singleton, Hin, lookup_alter.
    case_decide as E; subst; [rewrite Hx; simpl|]; naive_solver.
  - intros k y. rewrite lookup_alter. case_decide as E; [|by eauto]. subst.
    rewrite Hx. intros [= <-] _. done.
Qed.

(** ** Pipes *)
Record pinv (s : socket) : Prop := {
  pi_nd : NoDup (readyQ s);
  pi_open p : p ∈ readyQ s → p_closed <$> pipeobjs s !! p = Some false;
  pi_idle p t : p ∈ readyQ s → ¬ busy s t p;
  pi_busy t t' p : busy s t p → busy s t' p → t = t';
  pi_obj t p : busy s t p → is_Some (pipeobjs s !! p);
  pi_tids : tids_ok s
}.

Lemma pinv_frame s s' : pipe_frame s s' → pinv s → pinv s'.
Proof.
  intros [Hr Ho Hb Ht _ _ _] [Hnd Hop Hid Hbu Hob Htid]. split; rewrite ?Hr, ?Ho; auto.
  - intros p t Hp Hbz%Hb. by eapply Hid.
  - intros t t' p ?%Hb ?%Hb. eauto.
  - intros t p ?%Hb. eauto.
Qed.

(** ** One pass of [send] *)
Definition pending (x : context) : option mid :=
  match sendMsg x with Some m => Some m | None => reqMsg x end.
Definition sent (p : pid) (m : mid) (tm : option tmid) (x : context) : context :=
  x <| queued := false |> <| reqMsg := Some m |> <| sendMsg := None |>
    <| lastPipe := Some p |> <| resendTimer := tm |>.

Lemma ctx_upd c f s x : ctxs s !! c = Some x → ctx c (upd_ctx c f s) = f x.
Proof. intros Hx. apply ctx_lookup. simpl. by rewrite lookup_alter_eq, Hx. Qed.

Lemma send_take_spec c s x m :
  ctxs s !! c = Some x → pending x = Some m →
  ∃ s', send_take c s = (Some m, s') ∧ pipe_frame s s' ∧
    ctxs s' = alter (λ x, x <| reqMsg := Some m |> <| sendMsg := None |>) c (ctxs s) ∧
    sendQ s' = sendQ s ∧ threads s' = (if sendMsg x then wake c <$> threads s else threads s) ∧
    next_tid s' = next_tid s.
Proof.
  intros Hx Hm. unfold send_take. rewrite (ctx_lookup _ _ _ Hx). unfold pending in Hm.
  destruct (sendMsg x) as [m'|] eqn:Hs; simplify_eq.
  - eexists. split; [done|]. split_and!; try done.
    etrans; [|apply frame_Broadcast]. by apply frame_same.
  - eexists. split; [by rewrite Hm|]. split_and!; try done.
    symmetry. apply alter_id_at. intros y Hy. rewrite Hx in Hy. injection Hy as <-.
    destruct x; simpl in *. by subst.
Qed.

Lemma send_arm_spec c p s x :
  ctxs s !! c = Some x →
  ∃ tm, pipe_frame s (send_arm c p s) ∧
    ctxs (send_arm c p s) =
      alter (λ x, x <| lastPipe := Some p |> <| resendTimer := tm |>) c (ctxs s) ∧
    sendQ (send_arm c p s) = sendQ s ∧ threads (send_arm c p s) = threads s.
Proof.
  intros Hx. unfold send_arm. rewrite (ctx_upd _ _ _ _ Hx).
  case_decide.
  - exists (Some (next_tid s)). split_and!; [| |done|done].
    + etrans; [|apply frame_upd_ctx]. etrans; [|apply frame_AfterFunc]. by apply frame_same.
    + simpl. by rewrite alter_alter.
  - exists (resendTimer x). split_and!; [apply frame_upd_ctx| |done|done].
    simpl. apply map_eq. intros k. destruct (decide (c = k)) as [<-|].
    + rewrite !lookup_alter_eq, Hx. done.
    + by rewrite !lookup_alter_ne.
Qed.

Lemma send_one_spec s c sq p rq x m :
  sendQ s = c :: sq → readyQ s = p :: rq → ctxs s !! c = Some x → pending x = Some m →
  ∃ s1 tm,
    send_one s = go (ThSendCtx p m) s1 ∧ pipe_frame (s <| readyQ := rq |>) s1 ∧
    sendQ s1 = sq ∧ ctxs s1 = alter (sent p m tm) c (ctxs s) ∧
    threads s1 = (if sendMsg x then wake c <$> threads s else threads s).
Proof.
  intros Hq Hr Hx Hm. unfold send_one. rewrite Hq, Hr.
  set (s1 := upd_ctx c (λ x, x <| queued := false |>) (s <| sendQ := sq |>)).
  assert (ctxs s1 !! c = Some (x <| queued := false |>)) as Hx1.
  { simpl. by rewrite lookup_alter_eq, Hx. }
  destruct (send_take_spec c s1 _ m Hx1) as (s2 & -> & Hf & Hc & Hsq & Ht & Hn); [done|].
  set (s3 := s2 <| mh ::= Clone m |> <| readyQ := rq |>).
  assert (ctxs s3 !! c = Some (x <| queued := false |> <| reqMsg := Some m |> <| sendMsg := None |>))
    as Hx3. { simpl. rewrite Hc, lookup_alter_eq, Hx1. done. }
  destruct (send_arm_spec c p s3 _ Hx3) as (tm & Hf3 & Hc3 & Hsq3 & Ht3).
  exists (send_arm c p s3), tm. split_and!; [done| | | |].
  - etrans; [|exact Hf3]. destruct Hf as [Hfr Hfo Hfb Hft Hfp Hfps Hfn].
    split; simpl; try done. 
  - rewrite Hsq3. simpl. by rewrite Hsq.
  - rewrite Hc3. simpl. rewrite Hc. simpl. rewrite !alter_alter. done.
  - rewrite Ht3. simpl. by rewrite Ht.
Qed.

(** The invariant of the queues. *)
Record rinv (s : socket) : Prop := {
  ri_q : qinv s;
  ri_p : pinv s;
  ri_panic : panicked s = false
}.

Lemma rinv_frame s s' : pipe_frame s s' → qinv s' → rinv s → rinv s'.
Proof.
  intros Hf Hq [_ Hp Hpa]. split; [done|by eapply pinv_frame|].
  by rewrite (pf_panic _ _ Hf).
Qed.

Lemma rinv_same s s' : pipe_frame s s' → sendQ s' = sendQ s → ctxs s' = ctxs s → rinv s → rinv s'.
Proof. intros Hf Hq Hc Hr. eapply rinv_frame; [done| |done]. eapply qinv_ext; [done..|apply Hr]. Qed.

Lemma busy_go s th t p :
  tids_ok s → busy (go th s) t p ↔ (t = next_tid s ∧ busy_on th = Some p) ∨ busy s t p.
Proof.
  intros Htid. unfold busy, go. simpl. rewrite lookup_insert. case_decide as E; subst.
  - simpl. split; [naive_solver|]. intros [[_ H]|H]; [done|].
    destruct (threads s !! next_tid s) eqn:Ht; [|done].
    specialize (Htid (next_tid s)). rewrite Ht in Htid. specialize (Htid ltac:(eauto)). lia.
  - naive_solver.
Qed.

(** Handing a ready pipe to a new sending goroutine. *)
Lemma pinv_dispatch s s1 p rq m :
  readyQ s = p :: rq → pinv s → pipe_frame (s <| readyQ := rq |>) s1 → pinv (go (ThSendCtx p m) s1).
Proof.
  intros Hr [Hnd Hop Hid Hbu Hob Htid] [Hfr Hfo Hfb Hft _ _ _]. rewrite Hr in *.
  apply NoDup_cons in Hnd as [Hp Hnd].
  assert (tids_ok s1) as Htid1 by (apply Hft, Htid).
  assert (∀ t q, busy s1 t q → busy s t q) as Hb by (intros t q; apply Hfb).
  split.
  - simpl. rewrite Hfr. done.
  - intros q. simpl. rewrite Hfr, Hfo. intros Hq. apply Hop. set_solver.
  - intros q t. simpl. rewrite Hfr. intros Hq. rewrite busy_go by done.
    intros [[_ [= <-]]|Hbz%Hb]; [done|]. eapply (Hid q); [set_solver|done].
  - intros t t' q. rewrite !busy_go by done.
    intros [[-> [= <-]]|Hbz%Hb] [[-> Heq]|Hbz'%Hb]; [done| | |by eauto].
    + exfalso. eapply (Hid p); [set_solver|done].
    + simplify_eq/=. exfalso. eapply (Hid q); [set_solver|done].
  - intros t q. rewrite busy_go by done. simpl. rewrite Hfo.
    intros [[-> [= <-]]|Hbz%Hb]; [|by eauto].
    assert (p_closed <$> pipeobjs s !! p = Some false) as Ho by (apply Hop; set_solver).
    simpl. destruct (pipeobjs s !! p); [eauto|done].
  - intros t. simpl. rewrite lookup_insert_is_Some'. intros [<-|Ht%Htid1]; lia.
Qed.

(** The context at the head of [sendQ] has a message to send. *)
Lemma sendQ_head s c sq :
  qinv s → sendQ s = c :: sq → ∃ x m, ctxs s !! c = Some x ∧ pending x = Some m.
Proof.
  intros [Hnd Hin Hmsg] Hq.
  destruct (proj1 (Hin c)) as (x & Hx & Hqx); [rewrite Hq; set_solver|].
  exists x. unfold pending. destruct (Hmsg _ _ Hx Hqx) as [Hs|Hs];
    destruct (sendMsg x); [by eauto|done|by eauto|]. destruct (reqMsg x); [by eauto|done].
Qed.

Lemma send_one_rinv s : rinv s → rinv (send_one s).
Proof.
  intros Hr. destruct (sendQ s) as [|c sq] eqn:Hq; [unfold send_one; by rewrite Hq|].
  destruct (readyQ s) as [|p rq] eqn:Hrq; [unfold send_one; by rewrite Hq, Hrq|].
  pose proof Hr as [[Hnd Hin Hmsg] Hp Hpa].
  destruct (sendQ_head s c sq) as (x & m & Hx & Hm); [apply Hr|done|].
  destruct (send_one_spec s c sq p rq x m) as (s1 & tm & -> & Hf & Hsq & Hc & _); [done..|].
  rewrite Hq in Hnd. apply NoDup_cons in Hnd as [Hcn Hnd].
  split; [|by eapply pinv_dispatch|simpl; rewrite (pf_panic _ _ Hf); done].
  split; simpl; rewrite ?Hsq, ?Hc; [done| |].
  - intros k. rewrite lookup_alter. case_decide as E; subst.
    + split; [done|]. intros (y & (z & _ & ->)%fmap_Some & Hy). done.
    + rewrite <-Hin, Hq, elem_of_cons. naive_solver.
  - intros k y. rewrite lookup_alter. case_decide as E; [|by eauto]. subst.
    intros (z & _ & ->)%fmap_Some. done.
Qed.

Lemma send_one_length s :
  rinv s → sendQ s ≠ [] → readyQ s ≠ [] → length (sendQ s) = S (length (sendQ (send_one s))).
Proof.
  intros Hinv Hs Hr.
  destruct (sendQ s) as [|c sq] eqn:Hq; [done|]. destruct (readyQ s) as [|p rq] eqn:Hrq; [done|].
  destruct (sendQ_head s c sq) as (x & m & Hx & Hm); [apply Hinv|done|].
  destruct (send_one_spec s c sq p rq x m) as (s1 & tm & -> & _ & Hsq & _); [done..|].
  simpl. by rewrite Hsq.
Qed.

(** Nothing waits while a pipe is free. *)
Definition idle (s : socket) : Prop := sendQ s = [] ∨ readyQ s = [].

Lemma send_one_idle s : idle s → send_one s = s.
Proof. unfold send_one. by intros [->| ->]; [|destruct (sendQ s)]. Qed.

Lemma send_loop_idle n s : idle s → send_loop n s = s.
Proof. intros Hi. induction n as [|n IH]; simpl; [done|]. by rewrite send_one_idle. Qed.

Lemma send_loop_spec n s :
  rinv s → length (sendQ s) ≤ n → rinv (send_loop n s) ∧ idle (send_loop n s).
Proof.
  revert s. induction n as [|n IH]; intros s Hr Hn; simpl.
  { split; [done|]. left. destruct (sendQ s); simpl in *; [done|lia]. }
  destruct (decide (sendQ s = [])) as [Hq|Hq]; [|destruct (decide (readyQ s = [])) as [Hrq|Hrq]].
  1,2: assert (idle s) as Hi by (unfold idle; auto);
    rewrite send_one_idle, send_loop_idle by done; done.
  apply IH; [by apply send_one_rinv|].
  pose proof (send_one_length s Hr Hq Hrq). lia.
Qed.

Lemma send_spec s : rinv s → rinv (send s) ∧ idle (send s).
Proof. intros Hr. by apply send_loop_spec. Qed.

(** ** Steps that queue nothing *)
Record quiet (s s' : socket) : Prop := {
  qt_frame : pipe_frame s s';
  qt_q : qinv s → qinv s';
  qt_nil : sendQ s = [] → sendQ s' = []
}.
#[export] Instance quiet_preorder : PreOrder quiet.
Proof.
  split; [by split|]. intros s1 s2 s3 [] []. split; [by etrans|auto|auto].
Qed.

Definition inv (s : socket) : Prop := rinv s ∧ idle s.

Lemma inv_quiet s s' : quiet s s' → inv s → inv s'.
Proof.
  intros [Hf Hq Hn] [Hr Hi]. split; [eapply rinv_frame; [done| |done]; apply Hq, Hr|].
  destruct Hi as [Hi|Hi]; [left; auto|right]. by rewrite (pf_ready _ _ Hf).
Qed.

Lemma rinv_quiet s s' : quiet s s' → rinv s → rinv s'.
Proof. intros [Hf Hq Hn] Hr. eapply rinv_frame; [done| |done]. apply Hq, Hr. Qed.

Lemma reqinv_quiet_same s s' : pipe_frame s s' → sendQ s' = sendQ s → ctxs s' = ctxs s → quiet s s'.
Proof. intros Hf Hq Hc. split; [done|by apply qinv_ext|congruence]. Qed.

(** Updates that keep a context's place in the queue. *)
Lemma quiet_upd c f s :
  (∀ x, queued (f x) = queued x) →
  (∀ x, ctxs s !! c = Some x → queued x = true →
     sendMsg x ≠ None ∨ reqMsg x ≠ None → sendMsg (f x) ≠ None ∨ reqMsg (f x) ≠ None) →
  quiet s (upd_ctx c f s).
Proof.
  intros Hf Hm. split; [apply frame_upd_ctx| |done]. intros Hq.
  eapply (qinv_alter s); [done|done|done| |done]. intros x Hx Hqx.
  apply Hm; [done..|]. by eapply qi_msg.
Qed.

Definition unqueued (c : cid) (s : socket) : Prop :=
  ∀ x, ctxs s !! c = Some x → queued x = false.

Lemma quiet_upd_unqueued c f s :
  unqueued c s → (∀ x, queued (f x) = queued x) → quiet s (upd_ctx c f s).
Proof.
  intros Hu Hf. apply quiet_upd; [done|]. intros x Hx Hq. apply Hu in Hx. congruence.
Qed.

Lemma quiet_cancelSend c s : quiet s (cancelSend c s).
Proof.
  split; [apply frame_cancelSend|apply qinv_cancelSend|].
  unfold cancelSend. destruct (queued _); simpl; [|done]. by intros ->.
Qed.
Lemma quiet_cancel c s : quiet s (cancel c s).
Proof.
  split; [apply frame_cancel|apply qinv_cancel|]. rewrite cancel_sendQ.
  apply (qt_nil _ _ (quiet_cancelSend c s)).
Qed.
Lemma quiet_Stop t s : quiet s (Stop t s).
Proof. apply reqinv_quiet_same; [apply frame_Stop|by destruct t..]. Qed.
Lemma quiet_Broadcast c s : quiet s (Broadcast c s).
Proof. by apply reqinv_quiet_same; [apply frame_Broadcast|..]. Qed.
Lemma quiet_exit t s : quiet s (exit_thread t s).
Proof. by apply reqinv_quiet_same; [apply frame_exit|..]. Qed.
Lemma quiet_return t r s : quiet s (return_ t r s).
Proof. by apply reqinv_quiet_same; [apply frame_return|..]. Qed.
Lemma quiet_go th s : busy_on th = None → quiet s (go th s).
Proof. by intros; apply reqinv_quiet_same; [apply frame_go|..]. Qed.
Lemma quiet_AfterFunc f s : quiet s (snd (AfterFunc f s)).
Proof. by apply reqinv_quiet_same; [apply frame_AfterFunc|..]. Qed.
Lemma quiet_set_expired t s : quiet s (set_expired t s).
Proof. by apply reqinv_quiet_same; [apply frame_set_expired|..]. Qed.
Lemma quiet_mh f s : quiet s (s <| mh ::= f |>).
Proof. by apply reqinv_quiet_same; [apply frame_same|..]. Qed.
Lemma quiet_ctxByID f s : quiet s (s <| ctxByID ::= f |>).
Proof. by apply reqinv_quiet_same; [apply frame_same|..]. Qed.
Lemma quiet_contexts f s : quiet s (s <| contexts ::= f |>).
Proof. by apply reqinv_quiet_same; [apply frame_same|..]. Qed.
Lemma quiet_timers f s : quiet s (s <| timers ::= f |>).
Proof. by apply reqinv_quiet_same; [apply frame_same|..]. Qed.

#[export] Hint Resolve quiet_cancelSend quiet_cancel quiet_Stop quiet_Broadcast quiet_exit
  quiet_return quiet_go quiet_AfterFunc quiet_set_expired quiet_mh quiet_ctxByID
  quiet_contexts quiet_timers : req.

Lemma quiet_set_thread t th s :
  busy_on th = None → is_Some (threads s !! t) ∨ t < next_tid s →
  quiet s (s <| threads ::= <[t := th]> |>).
Proof. by intros; apply reqinv_quiet_same; [apply frame_set_thread|..]. Qed.

Lemma quiet_upd_same c f s :
  (∀ x, queued (f x) = queued x ∧ sendMsg (f x) = sendMsg x ∧ reqMsg (f x) = reqMsg x) →
  quiet s (upd_ctx c f s).
Proof.
  intros Hf. apply quiet_upd; [by intros x; apply Hf|].
  intros x _ _. destruct (Hf x) as (_ & -> & ->). done.
Qed.

Lemma cancelSend_unqueued c s : unqueued c (cancelSend c s).
Proof. intros x. apply cancelSend_queued. Qed.
Lemma unqueued_upd c f s : (∀ x, queued (f x) = queued x) → unqueued c s → unqueued c (upd_ctx c f s).
Proof.
  intros Hf Hu x. simpl. rewrite lookup_alter_eq. intros (y & Hy & ->)%fmap_Some.
  rewrite Hf. eauto.
Qed.

Lemma quiet_stopResend c s : quiet s (stopResend c s).
Proof. unfold stopResend. etrans; [apply quiet_Stop|by apply quiet_upd_same]. Qed.
Lemma quiet_stopReceive c s : quiet s (stopReceive c s).
Proof. unfold stopReceive. etrans; [apply quiet_Stop|by apply quiet_upd_same]. Qed.
#[export] Hint Resolve quiet_stopResend quiet_stopReceive : req.

(** ** The handlers keep the invariant *)
Lemma quiet_SendMsg_check t c m e s :
  t < next_tid s → quiet s (SendMsg_check t c m e s).
Proof.
  intros Ht. unfold SendMsg_check. case_match; [apply quiet_set_thread; auto|].
  case_match; [|auto with req].
  assert (quiet s (upd_ctx c (λ x, x <| sendMsg := None |> <| reqID := 0%Z |>) (cancelSend c s))) as Hq.
  { etrans; [apply quiet_cancelSend|].
    by apply quiet_upd_unqueued; [apply cancelSend_unqueued|]. }
  repeat case_match; (etrans; [apply Hq|apply quiet_return]).
Qed.

Lemma quiet_RecvMsg_finish t c id e s : quiet s (RecvMsg_finish t c id e s).
Proof.
  unfold RecvMsg_finish.
  assert (quiet s (Broadcast c (upd_ctx c (λ x, x <| reqID := 0%Z |> <| repMsg := None |>
    <| receiveWait := false |>) s))) as Hq.
  { etrans; [|apply quiet_Broadcast]. by apply quiet_upd_same. }
  repeat case_match; (etrans; [apply Hq|apply quiet_return]).
Qed.

Lemma quiet_RecvMsg_check t c id e s :
  t < next_tid s → quiet s (RecvMsg_check t c id e s).
Proof.
  intros Ht. unfold RecvMsg_check. case_match; [|apply quiet_RecvMsg_finish].
  destruct (decide (receiveExpire _ < 0)%Z); [|apply quiet_set_thread; auto].
  etrans; [apply quiet_cancel|apply quiet_RecvMsg_finish].
Qed.

Lemma quiet_RecvMsg t c s : t < next_tid s → quiet s (RecvMsg t c s).
Proof.
  intros Ht. unfold RecvMsg. repeat (case_match; [apply quiet_return|]).
  destruct (decide (0 < receiveExpire _)%Z).
  - etrans; [|apply quiet_RecvMsg_check; simpl; lia].
    etrans; [|by apply quiet_upd_same]. etrans; [|apply quiet_AfterFunc].
    by apply quiet_upd_same.
  - etrans; [|by apply quiet_RecvMsg_check]. by apply quiet_upd_same.
Qed.

Lemma quiet_receive_locked_ctx c m id s :
  quiet s (Broadcast c (stopReceive c (stopResend c
    (upd_ctx c (λ x, x <| repMsg := Some m |>) (freeReq c (cancelSend c s))
       <| ctxByID ::= delete id |>)))).
Proof.
  etrans; [|apply quiet_Broadcast]. etrans; [|apply quiet_stopReceive].
  etrans; [|apply quiet_stopResend]. etrans; [|apply quiet_ctxByID].
  etrans; [|by apply quiet_upd_same]. etrans; [apply quiet_cancelSend|].
  unfold freeReq. etrans; [apply (quiet_mh (Free_opt (reqMsg (ctx c (cancelSend c s)))))|].
  apply quiet_upd_unqueued; [|done]. apply cancelSend_unqueued.
Qed.

(** ** Queueing and sending *)
Lemma rinv_enqueue c f x s :
  rinv s → ctxs s !! c = Some x → queued x = false → queued (f x) = true →
  (sendMsg (f x) ≠ None ∨ reqMsg (f x) ≠ None) →
  rinv (upd_ctx c f s <| sendQ ::= (λ q, q ++ [c]) |>).
Proof.
  intros Hr Hx Hq Hf Hm. eapply (rinv_frame s); [by apply frame_same| |done].
  by eapply (qinv_enqueue s); [apply Hr|..].
Qed.

Lemma send_next_tid s : rinv s → next_tid s ≤ next_tid (send s).
Proof.
  unfold send. generalize (length (sendQ s)) as n. intros n. revert s.
  induction n as [|n IH]; intros s Hr; simpl; [done|].
  etrans; [|apply IH; by apply send_one_rinv].
  destruct (sendQ s) as [|c sq] eqn:Hq; [unfold send_one; by rewrite Hq|].
  destruct (readyQ s) as [|p rq] eqn:Hrq; [unfold send_one; by rewrite Hq, Hrq|].
  destruct (sendQ_head s c sq) as (x & m & Hx & Hm); [apply Hr|done|].
  destruct (send_one_spec s c sq p rq x m) as (s1 & tm & -> & Hf & _); [done..|].
  pose proof (pf_next _ _ Hf). simpl in *. lia.
Qed.

Lemma SendMsg_enqueue_spec c m id s :
  is_ctx c s → rinv s →
  rinv (SendMsg_enqueue c m id s) ∧ next_tid s ≤ next_tid (SendMsg_enqueue c m id s).
Proof.
  intros [x Hx] Hr. unfold SendMsg_enqueue.
  assert (quiet s (cancelSend c (cancel c s))) as Hq
    by (etrans; [apply quiet_cancel|apply quiet_cancelSend]).
  assert (∃ x1, ctxs (cancelSend c (cancel c s)) !! c = Some x1) as [x1 Hx1].
  { rewrite cancelSend_ctxs, cancel_ctxs, !lookup_alter_eq, Hx. by eexists. }
  pose proof (cancelSend_queued _ _ _ Hx1) as Hqx.
  revert Hq Hx1. generalize (cancelSend c (cancel c s)) as s1. intros s1 Hq Hx1.
  split; [|apply (pf_next _ _ (qt_frame _ _ Hq))].
  eapply rinv_enqueue; [by eapply rinv_quiet|done..|by left].
Qed.

Lemma quiet_SendMsg_arm t c m s : quiet s (snd (SendMsg_arm t c m s)).
Proof.
  unfold SendMsg_arm. case_decide; [|done].
  etrans; [apply quiet_AfterFunc|by apply quiet_upd_same].
Qed.

Lemma inv_SendMsg_locked t c m id s :
  is_ctx c s → t < next_tid s → inv s → inv (SendMsg_locked t c m id s).
Proof.
  intros Hc Ht Hinv. unfold SendMsg_locked.
  do 2 (case_match; [eapply inv_quiet; [apply quiet_return|done]|]).
  destruct (SendMsg_enqueue_spec c m id s Hc (proj1 Hinv)) as [Hr2 Hn2].
  revert Hr2 Hn2. generalize (SendMsg_enqueue c m id s) as s2. intros s2 Hr2 Hn2.
  case_match.
  { eapply inv_quiet; [apply quiet_return|]. by apply send_spec. }
  pose proof (quiet_SendMsg_arm t c m s2) as Hq3.
  destruct (SendMsg_arm t c m s2) as [e s3]. simpl in Hq3.
  pose proof (rinv_quiet _ _ Hq3 Hr2) as Hr3.
  pose proof (pf_next _ _ (qt_frame _ _ Hq3)). pose proof (send_next_tid _ Hr3).
  eapply inv_quiet; [apply quiet_SendMsg_check; lia|by apply send_spec].
Qed.

Lemma inv_resendMessage c id s : inv s → inv (resendMessage c id s).
Proof.
  intros Hinv. unfold resendMessage. case_match eqn:E; [|done].
  apply andb_prop in E as [[_ E]%andb_prop Hnq]. apply bool_decide_eq_true_1 in E.
  apply negb_true_iff in Hnq. apply send_spec.
  destruct (ctxs s !! c) as [x|] eqn:Hx.
  - rewrite (ctx_lookup _ _ _ Hx) in *. eapply rinv_enqueue; [apply Hinv|done..|by right].
  - exfalso. apply E. unfold ctx. by rewrite lookup_total_alt, Hx.
Qed.

Lemma pinv_ready t p s :
  pinv s → threads s !! t = Some (ThSendCtxLock p) →
  p_closed <$> pipeobjs s !! p = Some false →
  pinv (exit_thread t s <| readyQ ::= (λ q, q ++ [p]) |>).
Proof.
  intros [Hnd Hop Hid Hbu Hob Htid] Ht Hp.
  assert (busy s t p) as Hb by (unfold busy; by rewrite Ht).
  assert (∀ t' q, busy (exit_thread t s <| readyQ ::= (λ q, q ++ [p]) |>) t' q →
    t' ≠ t ∧ busy s t' q) as Hb'.
  { intros t' q. unfold busy; simpl. rewrite lookup_delete. by case_decide; simpl. }
  split; simpl.
  - apply NoDup_app. split_and!; [done| |apply NoDup_singleton].
    intros q Hq ->%list_elem_of_singleton. by eapply Hid.
  - intros q [Hq| ->%list_elem_of_singleton]%elem_of_app; auto.
  - intros q t' [Hq| ->%list_elem_of_singleton]%elem_of_app [Hne Hb1]%Hb'.
    + by eapply Hid.
    + apply Hne. by eapply Hbu.
  - intros t1 t2 q [_ ?]%Hb' [_ ?]%Hb'. eauto.
  - intros t1 q [_ ?]%Hb'. eauto.
  - intros t'. simpl. rewrite lookup_delete. case_decide; [by intros []|apply Htid].
Qed.

Lemma inv_sendCtx_lock t p s :
  threads s !! t = Some (ThSendCtxLock p) → inv s → inv (sendCtx_lock t p s).
Proof.
  intros Ht Hinv. unfold sendCtx_lock. case_match eqn:E.
  - apply andb_prop in E as [_ Hc]. apply send_spec. destruct Hinv as [[Hq Hp Hpa] Hi].
    split; [by apply (qinv_ext s)|apply pinv_ready; try done|done].
    simpl in Hc. destruct (pipeobjs s !! p) as [po|]; simpl in *; [|done].
    by destruct (p_closed po).
  - eapply inv_quiet; [apply quiet_exit|done].
Qed.

(** The sending goroutine moves on, still on its pipe. *)
Lemma inv_sendCtx_sent t p m res s :
  threads s !! t = Some (ThSendCtx p m) → inv s → inv (sendCtx_sent t p m res s).
Proof.
  intros Ht Hinv. unfold sendCtx_sent.
  assert (inv (s <| mh ::= Free m |>)) as Hinv1 by (eapply inv_quiet; [apply quiet_mh|done]).
  case_decide; [eapply inv_quiet; [apply quiet_exit|done]|].
  eapply (inv_quiet s); [|done]. apply reqinv_quiet_same; [|done|done].
  apply frame_threads; try done; simpl.
  - intros t' q. unfold busy; simpl. rewrite lookup_insert. case_decide; [|done].
    subst. rewrite Ht. done.
  - intros t'. rewrite lookup_insert_is_Some'. intros [<-|?]; [|by left].
    left. rewrite Ht. eauto.
Qed.

(** Reordering the ready pipes. *)
Lemma pinv_readyQ_perm s q : q ≡ₚ readyQ s → pinv s → pinv (s <| readyQ := q |>).
Proof.
  intros Hq [Hnd Hop Hid Hbu Hob Htid].
  assert (NoDup q) as Hnq by by rewrite Hq.
  assert (∀ p, p ∈ q → p ∈ readyQ s) as Hin by (intros p Hp; by rewrite <-Hq).
  clear Hq. split; try done; simpl; auto. intros p t Hp. apply Hid. auto.
Qed.

Lemma inv_readyQ_perm s q :
  q ≡ₚ readyQ s → inv s → inv (s <| readyQ := q |>).
Proof.
  intros Hq [[Hqi Hp Hpa] Hi].
  assert (readyQ s = [] → q = []) as Hnil.
  { intros E. rewrite E in Hq. by apply Permutation_nil_r. }
  split; [split; [by apply (qinv_ext s)|by apply pinv_readyQ_perm|done]|].
  destruct Hi as [Hi|Hi]; [by left|right]. by apply Hnil.
Qed.

Lemma inv_receiver_turn p body ch s : inv s → inv (receiver_turn p body ch s).
Proof.
  intros Hinv. unfold receiver_turn. destruct (NewMessage _ _ _) as [m h].
  assert (∀ h, inv (s <| mh := h |>)) as Hh.
  { intros h'. eapply inv_quiet; [apply (quiet_mh (λ _, h'))|done]. }
  case_decide; [apply Hh|]. unfold receive_locked.
  set (h2 := set_Body m (drop 4 body) _).
  set (s1 := s <| mh := h2 |> <| readyQ ::= swap_front p |>).
  assert (inv s1) as Hinv1.
  { apply (inv_readyQ_perm (s <| mh := h2 |>)); [apply swap_front_Permutation|apply Hh]. }
  clearbody s1. destruct (ctxByID s1 !! _) as [c|].
  - eapply inv_quiet; [apply quiet_receive_locked_ctx|done].
  - eapply inv_quiet; [apply quiet_mh|done].
Qed.

Lemma quiet_SetOption c n v s : quiet s (snd (SetOption c n v s)).
Proof.
  unfold SetOption. repeat case_match; simpl; try reflexivity; by apply quiet_upd_same.
Qed.

Lemma quiet_close_one s c : quiet s (close_one s c).
Proof.
  unfold close_one. etrans; [|apply quiet_contexts]. etrans; [|apply quiet_cancel].
  by apply quiet_upd_same.
Qed.

Lemma quiet_context_Close c s : quiet s (snd (context_Close c s)).
Proof.
  unfold context_Close. destruct (c_closed _); [reflexivity|].
  exact (quiet_close_one s c).
Qed.

Lemma quiet_foldl (f : socket → cid → socket) l s :
  (∀ s c, quiet s (f s c)) → quiet s (foldl f s l).
Proof.
  intros Hf. revert s. induction l as [|c l IH]; intros s; simpl; [done|].
  etrans; [apply Hf|apply IH].
Qed.

Lemma quiet_socket_Close order s : quiet s (snd (socket_Close order s)).
Proof.
  unfold socket_Close. destruct (s_closed s); [reflexivity|]. cbn [snd].
  etrans; [|apply quiet_foldl, quiet_close_one]. by apply reqinv_quiet_same; [apply frame_same|..].
Qed.

Lemma inv_OpenContext c s :
  ctxs s !! c = None → inv s → inv (snd (OpenContext c s)).
Proof.
  intros Hc Hinv. unfold OpenContext. case_match; simpl; [done|].
  eapply (inv_quiet s); [|done]. split; [by apply frame_same| |done].
  intros [Hnd Hin Hmsg]. split; simpl; [done| |].
  - intros k. rewrite Hin, lookup_insert. case_decide as E; [|done]. subst.
    rewrite Hc. naive_solver.
  - intros k y. rewrite lookup_insert. case_decide; [|by eauto]. intros [= <-]. done.
Qed.

Lemma quiet_remove_for p s c : quiet s (remove_for p s c).
Proof.
  unfold remove_for. case_match; [apply quiet_cancel|]. case_match; [|done].
  etrans; [by apply (quiet_upd_same c (λ x, x <| lastPipe := None |>))|].
  generalize (upd_ctx c (λ x, x <| lastPipe := None |>) s) as s1. intros s1.
  destruct (decide (resendTime _ = 0)%Z); [apply quiet_cancel|].
  etrans; [apply quiet_cancelSend|by apply quiet_go].
Qed.

Lemma inv_RemovePipe p order s : inv s → inv (RemovePipe p order s).
Proof.
  intros Hinv. unfold RemovePipe.
  eapply inv_quiet; [apply quiet_foldl, quiet_remove_for|].
  destruct Hinv as [[Hqi [Hnd Hop Hid Hbu Hob Htid] Hpa] Hi].
  split; [split; [by apply (qinv_ext s)| |done]|].
  - split; simpl.
    + by apply NoDup_remove_first.
    + intros q [Hq Hne]%elem_of_remove_first; [|done].
      rewrite lookup_alter_ne by done. auto.
    + intros q t [Hq Hne]%elem_of_remove_first; [|done]. by apply Hid.
    + done.
    + intros t q Hb. rewrite lookup_alter. case_decide; [|by eauto].
      rewrite fmap_is_Some. subst. by eapply Hob.
    + done.
  - destruct Hi as [Hi|Hi]; [by left|right]. simpl. by rewrite Hi.
Qed.

Lemma inv_AddPipe p id s :
  pipeobjs s !! p = None → inv s → inv (snd (AddPipe p id s)).
Proof.
  intros Hp [[Hqi [Hnd Hop Hid Hbu Hob Htid] Hpa] Hi].
  assert (∀ t, ¬ busy s t p) as Hnb.
  { intros t [? Ho]%Hob. congruence. }
  assert (p ∉ readyQ s) as Hnr.
  { intros Ho%Hop. by rewrite Hp in Ho. }
  unfold AddPipe.
  set (s1 := s <| pipeobjs ::= <[p := mkPipe id false]> |>).
  assert (∀ q, q ∈ readyQ s → p_closed <$> pipeobjs s1 !! q = Some false) as Hop1.
  { intros q Hq. simpl. rewrite lookup_insert_ne by (by intros ->). auto. }
  assert (∀ t q, busy s t q → is_Some (pipeobjs s1 !! q)) as Hob1.
  { intros t q Hb. simpl. apply lookup_insert_is_Some'. right. eauto. }
  destruct (s_closed s1); cbn [snd].
  - split; [split; [by apply (qinv_ext s)|by split|done]|done].
  - set (s2 := s1 <| readyQ ::= (λ q, q ++ [p]) |>).
    assert (rinv s2) as Hr2.
    { split; [by apply (qinv_ext s)| |done]. split; simpl; try done.
      - apply NoDup_app. split_and!; [done|set_solver|apply NoDup_singleton].
      - intros q [Hq| ->%list_elem_of_singleton]%elem_of_app; [by apply Hop1|].
        by rewrite lookup_insert_eq.
      - intros q t [Hq| ->%list_elem_of_singleton]%elem_of_app; [by apply Hid|apply Hnb]. }
    clearbody s2. apply send_spec in Hr2. revert Hr2. generalize (send s2) as s3. intros s3 [Hr3 Hi3].
    eapply inv_quiet; [by apply quiet_go|].
    split; [|exact Hi3]. destruct Hr3 as [Hq3 [] ?]. split; [by apply (qinv_ext s3)|by split|done].
Qed.

Lemma inv_run_timer f s : inv s → inv (run_timer f s).
Proof.
  intros Hinv. destruct f; simpl; [by apply inv_resendMessage|..];
    (case_decide; [|done]; eapply inv_quiet; [etrans; [apply quiet_set_expired|apply quiet_cancel]|done]).
Qed.

Lemma tid_lt t th s : inv s → threads s !! t = Some th → t < next_tid s.
Proof. intros [[_ Hp _] _] Ht. apply (pi_tids _ Hp). eauto. Qed.

Lemma inv_start t c m s : t < next_tid s → inv s → inv (SendMsg_start t c m s).
Proof.
  intros Ht Hinv. unfold SendMsg_start.
  eapply inv_quiet; [|exact Hinv]. apply reqinv_quiet_same; [|done|done].
  set (s1 := _ <| mh ::= _ |>). transitivity s1; [by apply frame_same|].
  by apply frame_set_thread; [|right].
Qed.

Lemma inv_fresh s : inv s → inv (s <| next_tid ::= S |>).
Proof. apply inv_quiet, reqinv_quiet_same; [apply frame_next_tid|done|done]. Qed.

(** ** Every step keeps the invariant *)
Lemma inv_step l s s' : step l s = Some s' → inv s → inv s'.
Proof.
  intros [_ Hs]%guard_bind_Some Hinv. destruct l; cbn [fresh_thread] in Hs.
  - apply guard_bind_Some in Hs as [_ [= <-]].
    apply inv_start; [simpl; lia|by apply inv_fresh].
  - destruct (threads s !! t) as [[]|] eqn:Ht; try done.
    apply guard_bind_Some in Hs as [Hc [= <-]].
    apply inv_SendMsg_locked; [done|by eapply tid_lt|done].
  - apply guard_bind_Some in Hs as [_ [= <-]].
    eapply inv_quiet; [apply quiet_RecvMsg; simpl; lia|by apply inv_fresh].
  - destruct (threads s !! t) as [[]|] eqn:Ht; try done; destruct woken; try done;
      injection Hs as <-; pose proof (tid_lt _ _ _ Hinv Ht);
      (eapply inv_quiet; [|done]); [by apply quiet_SendMsg_check|by apply quiet_RecvMsg_check].
  - destruct (timers s !! tm) as [f|]; simpl in Hs; [|done]. injection Hs as <-.
    eapply inv_quiet; [|done]. etrans; [apply (quiet_timers (delete tm))|by apply quiet_go].
  - assert (inv (exit_thread t s)) as He by (eapply inv_quiet; [apply quiet_exit|done]).
    destruct (threads s !! t) as [[]|] eqn:Ht; try done; injection Hs as <-;
      [by apply inv_resendMessage|by apply inv_run_timer].
  - destruct (threads s !! t) as [[]|] eqn:Ht; try done. injection Hs as <-.
    by apply inv_sendCtx_sent.
  - destruct (threads s !! t) as [[]|] eqn:Ht; try done. injection Hs as <-.
    by apply inv_sendCtx_lock.
  - destruct (threads s !! t) as [[]|] eqn:Ht; try done. injection Hs as <-.
    by apply inv_receiver_turn.
  - destruct (threads s !! t) as [[]|] eqn:Ht; try done. injection Hs as <-.
    eapply inv_quiet; [apply quiet_exit|done].
  - apply guard_bind_Some in Hs as [_ [= <-]]. eapply inv_quiet; [apply quiet_SetOption|done].
  - apply guard_bind_Some in Hs as [_ [= <-]]. eapply inv_quiet; [apply quiet_context_Close|done].
  - apply guard_bind_Some in Hs as [_ [= <-]]. eapply inv_quiet; [apply quiet_socket_Close|done].
  - apply guard_bind_Some in Hs as [? [= <-]]. by apply inv_OpenContext.
  - apply guard_bind_Some in Hs as [[? _] [= <-]]. by apply inv_AddPipe.
  - apply guard_bind_Some in Hs as [_ [= <-]]. by apply inv_RemovePipe.
  - destruct (NewMessage _ _ _) as [m h]. injection Hs as <-.
    eapply inv_quiet; [apply (quiet_mh (λ _, set_Body m body h))|done].
Qed.

Lemma inv_init s : init s → inv s.
Proof.
  intros [now ->]. split; [|by left]. split; [|split|done]; [split| ..]; simpl.
  - apply NoDup_nil_2.
  - intros c. split; [by intros ?%elem_of_nil|]. intros (x & Hx & Hq).
    apply lookup_singleton_Some in Hx as [_ <-]. done.
  - intros c x [_ <-]%lookup_singleton_Some. done.
  - apply NoDup_nil_2.
  - by intros p ?%elem_of_nil.
  - by intros p t ?%elem_of_nil.
  - by intros t t' p.
  - by intros t p.
  - intros t [x Hx]. done.
Qed.

(** Any step the model allows. *)
Definition any (s : socket) (l : label) : Prop := True.

Lemma reachable_inv s : reachable step init any s → inv s.
Proof. apply reachable_invariant; [apply inv_init|]. intros l s0 s1 Hi _ Hs. by eapply inv_step. Qed.

(** C6. In every state a REQ socket reaches, whatever calls the application
    makes and however the goroutines, timers and pipes interleave: [send] has
    not dereferenced a nil message; a context is in [sendQ] exactly when it is
    marked queued, and once; a pipe is in [readyQ] at most once, and then it
    is open and nothing is being sent on it; and no pipe carries two messages
    at a time. *)
Theorem req_queues s (H : reachable step init any s) :
  panicked s = false ∧
  NoDup (sendQ s) ∧
  (∀ c, c ∈ sendQ s ↔ ∃ x, ctxs s !! c = Some x ∧ queued x = true) ∧
  NoDup (readyQ s) ∧
  (∀ p, p ∈ readyQ s → p_closed <$> pipeobjs s !! p = Some false) ∧
  (∀ p t, p ∈ readyQ s → ¬ busy s t p) ∧
  (∀ t t' p, busy s t p → busy s t' p → t = t').
Proof. destruct (reachable_inv s H) as [[[] [] ?] _]. done. Qed.

(** C7. No queued request waits while a pipe could carry it: between any two
    steps [sendQ] or [readyQ] is empty. *)
Theorem req_work_conserving s (H : reachable step init any s) :
  sendQ s = [] ∨ readyQ s = [].
Proof. apply (reachable_inv s H). Qed.

Definition allow (s : socket) (l : label) : bool := true.
Definition sched (ls : list label) : socket := play step allow ls (NewProtocol 0).
Lemma sched_reachable ls : reachable step init any (sched ls).
Proof. apply play_reachable; [done|by exists 0%Z]. Qed.

(** Two contexts, one pipe that is busy with the first request: the second
    waits in the queue. *)
Definition busy_run : list label :=
  [LAddPipe 0 5; LOpen 1; LNewMsg [] None; LSend 0 0; LSendLock 2; LNewMsg [] None;
   LSend 1 1; LSendLock 5].

Lemma req_queues_witness :
  sendQ (sched busy_run) = [1] ∧ busy (sched busy_run) 4 0 ∧ panicked (sched busy_run) = false.
Proof.
  split; [by vm_compute|]. split; [by vm_compute|].
  exact (proj1 (req_queues (sched busy_run) (sched_reachable _))).
Defined.

Lemma req_work_conserving_witness :
  sendQ (sched busy_run) = [1] ∧ (sendQ (sched busy_run) = [] ∨ readyQ (sched busy_run) = []).
Proof.
  split; [by vm_compute|exact (req_work_conserving (sched busy_run) (sched_reachable _))].
Defined.

(** A [RecvMsg] waits for the reply to request 0x80000001; a second
    [SendMsg] cancels it and sends request 0x80000002; the cancelled
    [RecvMsg] then resets the [reqID] that now belongs to the new request. *)
Definition cancel_prefix : list label :=
  [LAddPipe 0 5; LNewMsg [Byte.x61] None; LSend 0 0; LSendLock 2; LPipeSent 4 None;
   LPipeSentLock 4; LRecv 0; LNewMsg [Byte.x62] None; LSend 0 1; LSendLock 6; LWake 5].
Definition late_reply : label := LPipeRecv 1 (put_uint32 0x80000002 ++ [Byte.x2a]) None.

(** The next [RecvMsg] fails; a third [SendMsg] (0x80000003) leaves
    0x80000002 in [ctxByID], and the reply to it reaches the [RecvMsg] that
    waits for 0x80000003. *)
Definition cancel_run : list label :=
  cancel_prefix ++ [LPipeSent 8 None; LPipeSentLock 8; LRecv 0; LNewMsg [Byte.x63] None;
   LSend 0 2; LSendLock 10; late_reply; LRecv 0].

(** The same while the pipe is still busy: the third request waits in [sendQ]
    when the reply to 0x80000002 arrives; then the pipe is free again. *)
Definition stuck_run : list label :=
  cancel_prefix ++ [LNewMsg [Byte.x63] None; LSend 0 2; LSendLock 9; late_reply;
   LPipeSent 8 None; LPipeSentLock 8; LWake 9].
(** The steps that goroutines, timers and pipes take without a new call of the
    application and without a message or a change of the pipes. *)
Definition by_itself (l : label) : bool :=
  match l with
  | LWake _ | LFire _ | LTimer _ | LPipeSent _ _ | LPipeSentLock _ => true
  | _ => false
  end.

Lemma waits_forever s c m p :
  threads s = <[9:=ThSend c m false false]> {[1:=ThReceiver p]} → timers s = ∅ →
  ∀ l, by_itself l = true → step l s = None.
Proof.
  intros Hth Htm l Hl. unfold step. case_guard; [|done].
  destruct l; try done; cbn; try (by rewrite Htm, lookup_empty); rewrite Hth;
    (destruct (_ !! _) as [th|] eqn:Ht; [|done]);
    by apply lookup_insert_Some in Ht as [[_ <-]|[_ [_ <-]%lookup_singleton_Some]].
Qed.

(** C8. A [RecvMsg] that was cancelled by a new request on its context
    forgets that request: the next [RecvMsg] fails with [ErrProtoState]
    although a request is outstanding, and after one more request a reply to the
    forgotten one (0x80000002) is returned as the reply to the latest one
    (0x80000003).  When that one is still queued, the reply takes it off the
    queue: its [SendMsg], which has no deadline, waits although a pipe is free,
    and no step that the socket takes by itself will wake it. *)
Theorem cancelled_recv_forgets_request :
  (let s := sched cancel_run in
   reachable step init any s ∧
   (∃ t, (t, RetRecv 0 0 (Err ErrProtoState)) ∈ returns s) ∧
   (∃ t m o, (t, RetRecv 0 0x80000003 (Ok m)) ∈ returns s ∧
      objs (mh s) !! m = Some o ∧ Header o = put_uint32 0x80000002)) ∧
  (let s := sched stuck_run in
   reachable step init any s ∧
   threads s !! 9 = Some (ThSend 0 2 false false) ∧ sendMsg (ctx 0 s) = Some 2 ∧
   sendQ s = [] ∧ readyQ s = [0] ∧ ∀ l, by_itself l = true → step l s = None).
Proof.
  split; (split; [apply sched_reachable|]); [split|].
  - exists 9. vm_compute. set_solver.
  - exists 13, 3. eexists. split; [vm_compute; set_solver|]. split; by vm_compute.
  - split_and!; [by vm_compute..|]. apply (waits_forever _ 0 2 0); by vm_compute.
Qed.
