(* ===== verification/Conn.v ===== *)
(** * Conn: messages and the handshake on byte streams

    [src/transport/conn.go] and [src/transport/connipc_posix.go]: the pipe
    that the stream transports (TCP, TLS, IPC) share.  The [net.Conn] below
    it is a stream of chunks: a [Read] returns what one packet brought, or as
    much of it as the buffer takes, so message and packet boundaries are
    unrelated. *)
From stdpp Require Import gmap list strings fin_maps.
From Stdlib Require Import ZArith Lia.
From S2P Require Import Prelude Types Message.

Abbreviation bytes := (list Byte.byte).

(** What a peer will have sent, in the pieces that will arrive, and how
    reading ends after that; what was written; and whether the connection
    was closed on this side. *)
Record netConn := mkNet {
  chunks : list bytes;
  rd_err : err;
  written : bytes;
  net_closed : bool
}.
#[export] Instance eta_netConn : Eta netConn := λ c,
  mkNet (chunks c) (rd_err c) (written c) (net_closed c).

Definition closed_err : err := ErrOther 1.   (* net.ErrClosed *)
Definition EOF : err := ErrOther 2.                (* io.EOF *)
Definition ErrUnexpectedEOF : err := ErrOther 3.   (* io.ErrUnexpectedEOF *)

(** [c.Read(buf)] with [len(buf) = n > 0]. *)
Definition Read (n : nat) (c : netConn) : result bytes * netConn :=
  if net_closed c then (Err closed_err, c)
  else match chunks c with
  | [] => (Err (rd_err c), c)
  | b :: bs =>
      (Ok (take n b),
       c <| chunks := if decide (length b ≤ n) then bs else drop n b :: bs |>)
  end.

(** What [io.ReadFull] makes of the error [e] of a [Read] once it has the
    bytes [got]: an end of file in the middle is unexpected. *)
Definition read_err (got : bytes) (e : err) : err :=
  match got with
  | [] => e
  | _ => if decide (e = EOF) then ErrUnexpectedEOF else e
  end.

(** [io.ReadFull], which [binary.Read] uses too: [Read] until the buffer is
    full.  A [Read] of a nonempty chunk brings a byte, so [n] passes are
    enough. *)
Fixpoint ReadFull_loop (fuel n : nat) (acc : bytes) (c : netConn) : result bytes * netConn :=
  match n with
  | O => (Ok acc, c)
  | S _ =>
      match fuel with
      | O => (Err (read_err acc (rd_err c)), c)
      | S fuel =>
          match Read n c with
          | (Ok b, c) => ReadFull_loop fuel (n - length b) (acc ++ b) c
          | (Err e, c) => (Err (read_err acc e), c)
          end
      end
  end.
Definition ReadFull (n : nat) (c : netConn) : result bytes * netConn :=
  ReadFull_loop n n [] c.

(** [buff.WriteTo(c)]: all bytes, or the first [k] of them and an error. *)
Definition WriteTo (b : bytes) (fail : option (nat * err)) (c : netConn) : error * netConn :=
  if net_closed c then (Some closed_err, c)
  else match fail with
  | Some (k, e) => (Some e, c <| written ::= (λ w, w ++ take k b) |>)
  | None => (None, c <| written ::= (λ w, w ++ b) |>)
  end.

Definition net_Close (c : netConn) : netConn := c <| net_closed := true |>.

Record conn := mkConn {
  nc : netConn;
  proto : ProtocolInfo;
  open : bool;
  closed : bool;
  handshakeTimeout : Z;
  options : gmap string value;
  maxrx : Z
}.
#[export] Instance eta_conn : Eta conn := λ p,
  mkConn (nc p) (proto p) (open p) (closed p) (handshakeTimeout p) (options p) (maxrx p).

Definition DefaultHandshakeTimeout : Z := 10 * 1000000000.

Definition NewConnPipe (c : netConn) (pr : ProtocolInfo) (laddr raddr : value) : conn :=
  let p := mkConn c pr false false DefaultHandshakeTimeout ∅ 0 in
  p <| options := <[OptionRemoteAddr := raddr]> (<[OptionLocalAddr := laddr]>
        (<[OptionMaxRecvSize := VInt 0]> ∅)) |>.

(** ** Messages *)

(** The largest slice [make] can allocate on a 64-bit machine (the address
    space of the Go runtime); above it [make] panics. *)
Definition maxAlloc : Z := 2 ^ 48.

(** [Recv] after the size has been read; shared by the two framings.
    [None]: [make], called by [NewMessage], panics. *)
Definition Recv_body (sz : Z) (ch : option nat) (p : conn) (h : mheap)
    : option (result mid * conn * mheap) :=
  if ((sz <? 0) || ((0 <? maxrx p) && (maxrx p <? sz)))%Z then Some (Err ErrTooLong, p, h)
  else if (maxAlloc <? sz)%Z then None
  else
    let '(m, h) := NewMessage sz ch h in
    match ReadFull (Z.to_nat sz) (nc p) with
    | (Ok b, c) => Some (Ok m, p <| nc := c |>, set_Body m b h)
    | (Err e, c) => Some (Err e, p <| nc := c |>, Free m h)
    end.

Definition Recv (ch : option nat) (p : conn) (h : mheap) : option (result mid * conn * mheap) :=
  match ReadFull 8 (nc p) with
  | (Err e, c) => Some (Err e, p <| nc := c |>, h)
  | (Ok b, c) => Recv_body (i64 (be_decode b)) ch (p <| nc := c |>) h
  end.

Definition Send (m : mid) (fail : option (nat * err)) (p : conn) (h : mheap)
    : error * conn * mheap :=
  let o := objs h !!! m in
  let l := u64 (Z.of_nat (length (Header o)) + Z.of_nat (length (Body o))) in
  let buff := be_encode 8 l ++ Header o ++ Body o in
  match WriteTo buff fail (nc p) with
  | (Some e, c) => (Some e, p <| nc := c |>, h)
  | (None, c) => (None, p <| nc := c |>, Free m h)
  end.

(** [connipc]: a leading byte in front of every message. *)
Definition connipc_Recv (ch : option nat) (p : conn) (h : mheap)
    : option (result mid * conn * mheap) :=
  match Read 1 (nc p) with
  | (Err e, c) => Some (Err e, p <| nc := c |>, h)
  | (Ok _, c) =>
      match ReadFull 8 c with
      | (Err e, c) => Some (Err e, p <| nc := c |>, h)
      | (Ok b, c) => Recv_body (i64 (be_decode b)) ch (p <| nc := c |>) h
      end
  end.

Definition connipc_Send (m : mid) (fail : option (nat * err)) (p : conn) (h : mheap)
    : error * conn * mheap :=
  let o := objs h !!! m in
  let l := u64 (Z.of_nat (length (Header o)) + Z.of_nat (length (Body o))) in
  let buff := (Byte.x01 :: be_encode 8 l) ++ Header o ++ Body o in
  match WriteTo buff fail (nc p) with
  | (Some e, c) => (Some e, p <| nc := c |>, h)
  | (None, c) => (None, p <| nc := c |>, Free m h)
  end.

Definition Close (p : conn) : conn :=
  if closed p then p
  else p <| closed := true |> <| open := false |> <| nc ::= net_Close |>.

Definition GetOption (n : string) (p : conn) : result value :=
  if String.eqb n OptionMaxRecvSize then Ok (VInt (maxrx p))
  else match options p !! n with
       | Some v => Ok v
       | None => Err ErrBadProperty
       end.

(** [None]: the type assertion panics. *)
Definition SetOption (n : string) (v : value) (p : conn) : option conn :=
  if String.eqb n OptionMaxRecvSize then
    match v with
    | VInt z => Some (p <| maxrx := z |> <| options ::= <[n := v]> |>)
    | _ => None
    end
  else Some (p <| options ::= <[n := v]> |>).

(** ** The handshake *)
Record connHeader := mkHeader {
  Zero : Byte.byte;
  S_ : Byte.byte;
  P_ : Byte.byte;
  Version : Byte.byte;
  Proto : Z;
  Reserved : Z
}.
(** [binary.Write] and [binary.Read] of the struct, big-endian. *)
Definition write_header (x : connHeader) : bytes :=
  [Zero x; S_ x; P_ x; Version x] ++ be_encode 2 (Proto x) ++ be_encode 2 (Reserved x).
Definition read_header (b : bytes) : connHeader :=
  mkHeader (default Byte.x00 (b !! 0)) (default Byte.x00 (b !! 1)) (default Byte.x00 (b !! 2))
    (default Byte.x00 (b !! 3)) (be_decode (take 2 (drop 4 b))) (be_decode (take 2 (drop 6 b))).

(** What the handshake says of the header it read. *)
Definition check_header (peer : Z) (x : connHeader) : error :=
  if negb (bool_decide (Zero x = Byte.x00)) || negb (bool_decide (S_ x = Byte.x53))
     || negb (bool_decide (P_ x = Byte.x50)) || negb (Reserved x =? 0)%Z
  then Some ErrBadHeader
  else if negb (bool_decide (Version x = Byte.x00)) then Some ErrBadVersion
  else if negb (Proto x =? peer)%Z then Some ErrBadProto
  else None.

(** [dl] is the outcome of [SetDeadline], [fail] of the write, and
    [closing] whether [Close] ran before the final lock; an expired
    deadline is a read or write error of the connection. *)
Definition handshake (dl : error) (fail : option (nat * err)) (closing : bool) (p : conn)
    : error * conn :=
  if (0 <? handshakeTimeout p)%Z && bool_decide (dl ≠ None) then (dl, p)
  else
    let x := mkHeader Byte.x00 Byte.x53 Byte.x50 Byte.x00 (Self (proto p)) 0 in
    match WriteTo (write_header x) fail (nc p) with
    | (Some e, c) => (Some e, p <| nc := c |>)
    | (None, c) =>
        match ReadFull 8 c with
        | (Err e, c) => (Some e, p <| nc := net_Close c |>)
        | (Ok b, c) =>
            match check_header (Peer (proto p)) (read_header b) with
            | Some e => (Some e, p <| nc := net_Close c |>)
            | None =>
                let p := p <| nc := c |> in
                let p := if closing then Close p else p in
                if closed p then (Some ErrClosed, p) else (None, p <| open := true |>)
            end
        end
    end.

(** ** Reading is independent of how the bytes arrive *)
Definition data (c : netConn) : bytes := concat (chunks c).
Definition live (c : netConn) : Prop :=
  net_closed c = false ∧ Forall (λ b, b ≠ []) (chunks c).

(** The connection after some input was consumed. *)
Definition advanced (c c' : netConn) : Prop :=
  rd_err c' = rd_err c ∧ written c' = written c ∧ live c'.

Lemma Read_spec n c :
  live c → 0 < n → data c ≠ [] →
  ∃ k c', 0 < k ≤ n ∧ k ≤ length (data c) ∧ Read n c = (Ok (take k (data c)), c') ∧
    advanced c c' ∧ data c' = drop k (data c).
Proof.
  intros [Hcl Hne] Hn Hd. unfold Read, data in *. rewrite Hcl.
  destruct (chunks c) as [|b bs] eqn:Hc; [done|].
  apply Forall_cons in Hne as [Hb Hbs]. simpl.
  exists (min n (length b)). eexists.
  assert (0 < length b) by (destruct b; simpl in *; [done|lia]).
  split; [lia|]. split; [rewrite length_app; lia|]. split; [f_equal|split; [split; [|split]|]].
  - f_equal. rewrite take_app_le by lia. destruct (decide (n ≤ length b)).
    + by rewrite Nat.min_l.
    + rewrite Nat.min_r, !take_ge by lia. done.
  - done.
  - done.
  - split; simpl; [done|]. case_decide; [done|]. constructor; [|done].
    intros Hd0. apply (f_equal length) in Hd0. rewrite length_drop in Hd0. simpl in *. lia.
  - simpl. case_decide.
    + rewrite Nat.min_r by lia. by rewrite drop_app_length.
    + rewrite Nat.min_l by lia. simpl. by rewrite drop_app_le by lia.
Qed.

Lemma Read_end n c : live c → data c = [] → Read n c = (Err (rd_err c), c).
Proof.
  intros [Hcl Hne] Hd. unfold Read, data in *. rewrite Hcl.
  destruct (chunks c) as [|b bs]; [done|].
  apply Forall_cons in Hne as [Hb _]. simpl in Hd. by apply app_eq_nil in Hd as [-> _].
Qed.

#[global] Instance advanced_trans : Transitive advanced.
Proof. intros c1 c2 c3 (? & ? & ?) (? & ? & ?). split_and!; congruence || done. Qed.

Lemma ReadFull_loop_ok fuel n acc c :
  live c → n ≤ fuel → n ≤ length (data c) →
  ∃ c', ReadFull_loop fuel n acc c = (Ok (acc ++ take n (data c)), c') ∧
    advanced c c' ∧ data c' = drop n (data c).
Proof.
  revert n acc c. induction fuel as [|fuel IH]; intros n acc c Hl Hf Hn; destruct n as [|n]; try lia.
  1,2: exists c; simpl; rewrite app_nil_r, drop_0; by split_and!.
  cbn [ReadFull_loop].
  destruct (Read_spec (S n) c) as (k & c1 & Hk & Hkl & -> & Hadv & Hd1); [done|lia| |].
  { intros E. rewrite E in Hn. simpl in Hn. lia. }
  rewrite length_take_le by done.
  destruct (IH (S n - k) (acc ++ take k (data c)) c1) as (c2 & -> & Hadv2 & Hd2).
  - apply Hadv.
  - lia.
  - rewrite Hd1, length_drop. lia.
  - exists c2. split_and!; [|by etrans|].
    + f_equal. f_equal. rewrite <-app_assoc, Hd1. f_equal.
      rewrite <-(take_drop k (data c)) at 3. rewrite take_app_ge; rewrite length_take_le by done; [|lia].
      done.
    + rewrite Hd2, Hd1, drop_drop. f_equal. lia.
Qed.

Lemma ReadFull_loop_short fuel n acc c :
  live c → n ≤ fuel → length (data c) < n →
  ∃ c', ReadFull_loop fuel n acc c = (Err (read_err (acc ++ data c) (rd_err c)), c') ∧
    advanced c c' ∧ data c' = [].
Proof.
  revert n acc c. induction fuel as [|fuel IH]; intros n acc c Hl Hf Hn; destruct n as [|n]; try lia.
  cbn [ReadFull_loop]. destruct (decide (data c = [])) as [Hd|Hd].
  { rewrite Read_end by done. exists c. rewrite Hd, app_nil_r. by split_and!. }
  destruct (Read_spec (S n) c) as (k & c1 & Hk & Hkl & -> & Hadv & Hd1); [done|lia|done|].
  rewrite length_take_le by done.
  destruct (IH (S n - k) (acc ++ take k (data c)) c1) as (c2 & -> & Hadv2 & Hd2).
  - apply Hadv.
  - lia.
  - rewrite Hd1, length_drop. lia.
  - exists c2. destruct Hadv as [He ?]. rewrite He, Hd1, <-app_assoc, take_drop.
    split_and!; [done| |done]. by trans c1.
Qed.

(** [ReadFull] takes the next [n] bytes of the stream, or all of it and
    fails, however the stream is cut. *)
Lemma ReadFull_spec n c :
  live c →
  ∃ c', advanced c c' ∧
    (if decide (n ≤ length (data c))
     then ReadFull n c = (Ok (take n (data c)), c') ∧ data c' = drop n (data c)
     else ReadFull n c = (Err (read_err (data c) (rd_err c)), c') ∧ data c' = []).
Proof.
  intros Hl. unfold ReadFull. case_decide.
  - destruct (ReadFull_loop_ok n n [] c) as (c' & ? & ? & ?); [done|lia|done|]. by exists c'.
  - destruct (ReadFull_loop_short n n [] c) as (c' & ? & ? & ?); [done|lia|lia|]. by exists c'.
Qed.

(** ** What a receiver gets *)

(** [m] is a new message with body [b]; every referenced message stays as
    it was. *)
Definition received (h h' : mheap) (m : mid) (b : bytes) : Prop :=
  heap_wf h' ∧ unreferenced h m ∧
  ∃ o, objs h' = <[m := o]> (objs h) ∧ Header o = [] ∧ Body o = b ∧ refcnt o = 1%Z.
(** The same messages are referenced, and they are as they were. *)
Definition unchanged (h h' : mheap) : Prop :=
  heap_wf h' ∧
  ∀ k o, refcnt o ≠ 0%Z → objs h' !! k = Some o ↔ objs h !! k = Some o.

Definition too_long (p : conn) (sz : Z) : bool :=
  ((sz <? 0) || ((0 <? maxrx p) && (maxrx p <? sz)))%Z.

Lemma received_intro m o b h h' :
  heap_wf h' → unreferenced h m → objs h' = <[m := o]> (objs h) → Header o = [] →
  refcnt o = 1%Z → received h (set_Body m b h') m b.
Proof.
  intros Hwf Hun Ho Hh Hr. split_and!; [|done|].
  - apply wf_alter; [done|]. intros q. eapply referenced_not_pooled; [done| |].
    + rewrite Ho. apply lookup_insert_eq.
    + by rewrite Hr.
  - exists (o <| Body := b |>). simpl. by rewrite Ho, alter_insert_eq.
Qed.

Lemma unchanged_free m o h h' :
  heap_wf h' → unreferenced h m → objs h' = <[m := o]> (objs h) →
  refcnt o = 1%Z → unchanged h (Free m h').
Proof.
  intros Hwf Hun Ho Hr.
  assert (objs h' !! m = Some o) as Hm by (rewrite Ho; apply lookup_insert_eq).
  destruct (Free_spec m o h') as [Hwf' Ho']; [done|done|lia|].
  split; [done|]. intros k x Hx. rewrite Ho', Ho, insert_insert_eq, lookup_insert.
  case_decide; [|done]. subst. split.
  - intros [= <-]. simpl in Hx. lia.
  - intros Hk. by apply Hun in Hk.
Qed.

Lemma Recv_body_spec sz ch p h :
  live (nc p) → heap_wf h → too_long p sz = false → (sz ≤ maxAlloc)%Z →
  ∃ c', advanced (nc p) c' ∧
    (if decide (sz ≤ Z.of_nat (length (data (nc p))))%Z
     then data c' = drop (Z.to_nat sz) (data (nc p)) ∧
       ∃ m h', Recv_body sz ch p h = Some (Ok m, p <| nc := c' |>, h') ∧
         received h h' m (take (Z.to_nat sz) (data (nc p)))
     else ∃ h', Recv_body sz ch p h =
           Some (Err (read_err (data (nc p)) (rd_err (nc p))), p <| nc := c' |>, h') ∧
         unchanged h h').
Proof.
  intros Hl Hwf Htl Hmax. unfold Recv_body. fold (too_long p sz). rewrite Htl.
  destruct (Z.ltb_spec maxAlloc sz); [lia|].
  assert (0 ≤ sz)%Z by (unfold too_long in Htl; lia).
  destruct (NewMessage sz ch h) as [m h1] eqn:Hnew.
  apply NewMessage_spec in Hnew as (Hun & Hwf1 & o & Ho & Hh & _ & Hr & _); [|done].
  destruct (ReadFull_spec (Z.to_nat sz) (nc p) Hl) as (c' & Hadv & Hrf).
  exists c'. split; [done|]. case_decide as Hsz; case_decide; try lia;
    destruct Hrf as [-> Hd].
  - split; [done|]. eexists m, _. split; [done|]. by eapply received_intro.
  - eexists. split; [done|]. by eapply unchanged_free.
Qed.

(** The two framings. *)
Definition recv (ipc : bool) := if ipc then connipc_Recv else Recv.
Definition send (ipc : bool) := if ipc then connipc_Send else Send.
Definition pre (ipc : bool) : nat := if ipc then 1 else 0.
Definition size_field (ipc : bool) (d : bytes) : Z :=
  i64 (be_decode (take 8 (drop (pre ipc) d))).

(** The size is read, or the stream ends before it. *)
Lemma recv_size ipc ch p h :
  live (nc p) →
  let d := data (nc p) in
  ∃ c', advanced (nc p) c' ∧
    (if decide (pre ipc + 8 ≤ length d)
     then recv ipc ch p h = Recv_body (size_field ipc d) ch (p <| nc := c' |>) h ∧
          data c' = drop (pre ipc + 8) d
     else recv ipc ch p h =
       Some (Err (read_err (drop (pre ipc) d) (rd_err (nc p))), p <| nc := c' |>, h)).
Proof.
  intros Hl d. unfold size_field, pre, recv, connipc_Recv, Recv, d. destruct ipc.
  - destruct (decide (data (nc p) = [])) as [Hd|Hd].
    { exists (nc p). split; [by split_and!|]. rewrite Hd. case_decide; [simpl in *; lia|].
      by rewrite Read_end. }
    destruct (Read_spec 1 (nc p)) as (k & c1 & Hk & Hkl & -> & Hadv & Hd1); [done|lia|done|].
    assert (k = 1) as -> by lia.
    destruct (ReadFull_spec 8 c1) as (c2 & Hadv2 & Hrf); [apply Hadv|].
    exists c2. split; [by trans c1|]. rewrite Hd1, length_drop in Hrf.
    case_decide; case_decide; try lia.
    + destruct Hrf as [-> Hd2]. split; [done|]. by rewrite Hd2, drop_drop.
    + destruct Hrf as [-> Hd2]. destruct Hadv as [He _]. by rewrite He.
  - destruct (ReadFull_spec 8 (nc p) Hl) as (c2 & Hadv2 & Hrf).
    exists c2. split; [done|]. simpl. case_decide; destruct Hrf as [-> Hd2]; done.
Qed.

(** C9. [Recv] on any byte stream, whatever the packet boundaries and
    whatever the peer sent, for both framings.  A stream that ends inside the
    size field gives the connection's error, or [io.ErrUnexpectedEOF] when
    that is [io.EOF] and a part of the field was there; a negative size, or
    one above a positive [maxrx], gives [ErrTooLong], with no message
    allocated and nothing more read; any other size above [maxAlloc] panics;
    otherwise exactly [size] bytes become the body of a new message, or, if the
    stream ends first, the error is returned (an [io.EOF] inside the body as
    [io.ErrUnexpectedEOF]) and the allocated message is given back.  No other
    referenced message changes. *)
Theorem conn_recv_total ipc ch p h (Hl : live (nc p)) (Hwf : heap_wf h) :
  let d := data (nc p) in
  let sz := size_field ipc d in
  let rest := drop (pre ipc + 8) d in
  let e := rd_err (nc p) in
  ∃ c', advanced (nc p) c' ∧
  let p' := p <| nc := c' |> in
  if decide (length d < pre ipc + 8)
  then recv ipc ch p h = Some (Err (read_err (drop (pre ipc) d) e), p', h)
  else if too_long p sz then recv ipc ch p h = Some (Err ErrTooLong, p', h) ∧ data c' = rest
  else if decide (maxAlloc < sz)%Z then recv ipc ch p h = None
  else if decide (sz ≤ Z.of_nat (length rest))%Z then
    ∃ m h', recv ipc ch p h = Some (Ok m, p', h') ∧ data c' = drop (Z.to_nat sz) rest ∧
      received h h' m (take (Z.to_nat sz) rest)
  else ∃ h', recv ipc ch p h = Some (Err (read_err rest e), p', h') ∧ unchanged h h'.
Proof.
  intros d sz rest e.
  destruct (recv_size ipc ch p h Hl) as (c1 & Hadv & Hr). fold d in Hr.
  destruct (decide (length d < _)) as [Hd|Hd].
  { exists c1. rewrite decide_False in Hr by lia. done. }
  rewrite decide_True in Hr by lia. destruct Hr as [-> Hd1]. fold sz. fold rest in Hd1.
  set (p1 := p <| nc := c1 |>). change (too_long p sz) with (too_long p1 sz).
  destruct (too_long p1 sz) eqn:Htl.
  { exists c1. split; [done|]. split; [|done]. unfold Recv_body.
    fold (too_long p1 sz). by rewrite Htl. }
  destruct (decide (maxAlloc < sz)%Z) as [Hmax|Hmax].
  { exists c1. split; [done|]. unfold Recv_body. fold (too_long p1 sz). rewrite Htl.
    by rewrite (proj2 (Z.ltb_lt _ _) Hmax). }
  destruct (Recv_body_spec sz ch p1 h) as (c2 & Hadv2 & Hb); [apply Hadv|done|done|lia|].
  change (nc p1) with c1 in *. rewrite Hd1, (proj1 Hadv) in Hb.
  exists c2. split; [by trans c1|]. case_decide.
  - destruct Hb as (Hdd & m & h' & Hb & Hrec). eauto 10.
  - destruct Hb as (h' & Hb & Hun). eauto.
Qed.

(** ** Round trip *)
Definition payload (h : mheap) (m : mid) : bytes :=
  Header (objs h !!! m) ++ Body (objs h !!! m).

(** Sending a sequence of messages, with no write failing. *)
Fixpoint send_all (ipc : bool) (ms : list mid) (p : conn) (h : mheap) : conn * mheap :=
  match ms with
  | [] => (p, h)
  | m :: ms => let '(_, p, h) := send ipc m None p h in send_all ipc ms p h
  end.

(** Receiving as many messages as there are allocator choices: what each
    one contains when it is returned. *)
Fixpoint recv_all (ipc : bool) (chs : list (option nat)) (p : conn) (h : mheap)
    : option (list (result bytes) * conn) :=
  match chs with
  | [] => Some ([], p)
  | ch :: chs =>
      '(r, p, h') ← recv ipc ch p h;
      match r with
      | Err e => Some ([Err e], p)
      | Ok m => '(l, p) ← recv_all ipc chs p h'; Some (Ok (payload h' m) :: l, p)
      end
  end.

Definition enc (ipc : bool) (b : bytes) : bytes :=
  (if ipc then [Byte.x01] else []) ++ be_encode 8 (Z.of_nat (length b)) ++ b.

Lemma send_enc ipc m p h :
  net_closed (nc p) = false →
  send ipc m None p h =
    (None, p <| nc ::= (λ c, c <| written ::= (λ w, w ++ enc ipc (payload h m)) |>) |>, Free m h).
Proof.
  intros Hc.
  pose proof (be_encode_mod 8 8 (Z.of_nat (length (payload h m))) ltac:(lia)) as He.
  change (8 * Z.of_nat 8)%Z with 64%Z in He. unfold enc. rewrite <-He.
  unfold payload. rewrite length_app, Nat2Z.inj_add.
  destruct ipc; unfold send, connipc_Send, Send, WriteTo; rewrite Hc; done.
Qed.

Lemma payload_Free m k h : payload (Free m h) k = payload h k.
Proof.
  unfold payload, Free. destruct (objs h !! m) as [o|] eqn:Ho; [|done].
  assert (objs h !!! m = o) as Ht by by apply lookup_total_correct.
  set (o' := o <| refcnt := _ |>). set (h1 := h <| objs ::= <[m := o']> |>).
  assert (payload h1 k = payload h k) as Hp.
  { unfold payload. simpl. destruct (decide (m = k)) as [<-|].
    - by rewrite lookup_total_insert_eq, Ht.
    - by rewrite lookup_total_insert_ne. }
  unfold payload in Hp. case_decide; [|done]. by destruct (find_class _).
Qed.

Lemma send_all_written ipc ms p h :
  net_closed (nc p) = false →
  written (nc (fst (send_all ipc ms p h))) =
    written (nc p) ++ concat ((enc ipc ∘ payload h) <$> ms).
Proof.
  revert p h. induction ms as [|m ms IH]; intros p h Hc; simpl; [by rewrite app_nil_r|].
  rewrite send_enc by done. rewrite IH by done. simpl. rewrite <-app_assoc. do 3 f_equal.
  apply list_fmap_ext. intros _ k _. simpl. by rewrite payload_Free.
Qed.

Lemma size_field_enc ipc b d :
  (Z.of_nat (length b) < 2 ^ 63)%Z → size_field ipc (enc ipc b ++ d) = Z.of_nat (length b).
Proof.
  intros Hb. unfold size_field, enc, pre. rewrite <-!app_assoc.
  assert (∀ x : bytes, take 8 (be_encode 8 (Z.of_nat (length b)) ++ x) =
    be_encode 8 (Z.of_nat (length b))) as Ht.
  { intros x. apply take_app_length'. by rewrite length_be_encode. }
  destruct ipc; cbn [app drop]; rewrite ?drop_0, <-?app_assoc, Ht, be_decode_encode;
    rewrite Z.mod_small by lia; apply i64_small; lia.
Qed.

Lemma enc_split ipc b d : drop (pre ipc + 8) (enc ipc b ++ d) = b ++ d.
Proof.
  unfold enc. rewrite <-!app_assoc. destruct ipc; cbn [app pre Nat.add].
  - change 9 with (S (length (be_encode 8 (Z.of_nat (length b))))). cbn [drop].
    apply drop_app_length.
  - apply (drop_app_length' (be_encode 8 (Z.of_nat (length b)))). by rewrite length_be_encode.
Qed.

Lemma received_payload h h' m b : received h h' m b → payload h' m = b.
Proof.
  intros (_ & _ & o & Ho & Hh & Hb & _). unfold payload.
  by rewrite Ho, lookup_total_insert_eq, Hh, Hb.
Qed.

Lemma recv_enc ipc ch p h b d :
  live (nc p) → heap_wf h → data (nc p) = enc ipc b ++ d → 
  (Z.of_nat (length b) ≤ maxAlloc)%Z → too_long p (Z.of_nat (length b)) = false →
  ∃ m c' h', recv ipc ch p h = Some (Ok m, p <| nc := c' |>, h') ∧ live c' ∧ heap_wf h' ∧
    data c' = d ∧ payload h' m = b.
Proof.
  intros Hl Hwf Hd Hb Htl. destruct (recv_size ipc ch p h Hl) as (c1 & Hadv & Hr).
  rewrite Hd, size_field_enc, enc_split in Hr by (unfold maxAlloc in Hb; lia).
  rewrite decide_True in Hr; [destruct Hr as [-> Hd1]|].
  2:{ unfold enc. destruct ipc; rewrite !length_app, length_be_encode; simpl; lia. }
  destruct (Recv_body_spec (Z.of_nat (length b)) ch (p <| nc := c1 |>) h)
    as (c2 & Hadv2 & Hrb); [apply Hadv|done|done|done|].
  change (nc (p <| nc := c1 |>)) with c1 in *.
  rewrite decide_True in Hrb by (rewrite Hd1, length_app; lia).
  destruct Hrb as (Hd2 & m & h' & -> & Hrec). rewrite Hd1, Nat2Z.id in *.
  exists m, c2, h'. rewrite take_app_length in Hrec.
  split_and!; [done|apply Hadv2|apply Hrec| |by eapply received_payload].
  by rewrite Hd2, drop_app_length.
Qed.

Lemma recv_all_enc ipc chs bs p h d :
  live (nc p) → heap_wf h → length chs = length bs →
  data (nc p) = concat (enc ipc <$> bs) ++ d →
  Forall (λ b, (Z.of_nat (length b) ≤ maxAlloc)%Z ∧ too_long p (Z.of_nat (length b)) = false) bs →
  ∃ c', recv_all ipc chs p h = Some (Ok <$> bs, p <| nc := c' |>) ∧ data c' = d.
Proof.
  revert chs p h. induction bs as [|b bs IH]; intros [|ch chs] p h Hl Hwf Hlen Hd Hbs; try done.
  { exists (nc p). split; [by destruct p|done]. }
  apply Forall_cons in Hbs as [[Hb1 Hb2] Hbs]. simpl in Hd. rewrite <-app_assoc in Hd.
  destruct (recv_enc ipc ch p h b _ Hl Hwf Hd Hb1 Hb2) as (m & c1 & h1 & Hr & Hl1 & Hwf1 & Hd1 & Hp).
  destruct (IH chs (p <| nc := c1 |>) h1) as (c2 & Hrest & Hd2); try done.
  { simpl in Hlen. lia. }
  exists c2. cbn [recv_all]. rewrite Hr. cbn [mbind option_bind].
  match goal with |- context [recv_all _ _ ?q _] => change q with (p <| nc := c1 |>) end.
  rewrite Hrest. cbn. by rewrite Hp.
Qed.

(** C10. Messages written by [Send] are read back by [Recv] in order and
    complete, in both framings and whatever pieces the bytes arrive in: the
    receiver gets each message's header followed by its body, and nothing is
    left over.  The messages fit the receiver's limit and a slice. *)
Theorem conn_roundtrip ipc ms chs p h q hq
    (Hopen : net_closed (nc p) = false) (Hnew : written (nc p) = [])
    (Hsize : Forall (λ m, (Z.of_nat (length (payload h m)) ≤ maxAlloc)%Z ∧
       too_long q (Z.of_nat (length (payload h m))) = false) ms)
    (Hl : live (nc q)) (Hwf : heap_wf hq) (Hch : length chs = length ms)
    (Hwire : data (nc q) = written (nc (fst (send_all ipc ms p h)))) :
  ∃ q', recv_all ipc chs q hq = Some (Ok ∘ payload h <$> ms, q') ∧ data (nc q') = [].
Proof.
  rewrite send_all_written, Hnew in Hwire by done. simpl in Hwire.
  destruct (recv_all_enc ipc chs (payload h <$> ms) q hq []) as (c' & -> & Hd); try done.
  - by rewrite length_fmap.
  - rewrite app_nil_r, Hwire. by rewrite <-list_fmap_compose.
  - by apply Forall_fmap.
  - eexists. by rewrite <-list_fmap_compose.
Qed.

(** ** The handshake accepts exactly one greeting *)
Definition hello (pr : Z) : bytes :=
  write_header (mkHeader Byte.x00 Byte.x53 Byte.x50 Byte.x00 pr 0).

Lemma read_write_header x :
  (0 ≤ Proto x < 2 ^ 16)%Z → (0 ≤ Reserved x < 2 ^ 16)%Z → read_header (write_header x) = x.
Proof.
  intros Hp Hr. destruct x as [z s p v pr rs]. simpl in Hp, Hr. unfold read_header, write_header.
  pose proof (be_decode_encode 2 pr) as Dp. pose proof (be_decode_encode 2 rs) as Dr.
  rewrite Z.mod_small in Dp, Dr by done.
  cbn [Zero S_ P_ Version Proto Reserved].
  pose proof (length_be_encode 2 pr) as Lp. pose proof (length_be_encode 2 rs) as Lr.
  revert Dp Dr Lp Lr. generalize (be_encode 2 pr) as a, (be_encode 2 rs) as b.
  intros a b Dp Dr Lp Lr. do 2 (destruct a as [|? a]; [done|]). destruct a; [|done].
  do 2 (destruct b as [|? b]; [done|]). destruct b; [|done].
  cbn [lookup list_lookup app take drop default from_option id]. by rewrite Dp, Dr.
Qed.

Lemma write_read_header b : length b = 8 → write_header (read_header b) = b.
Proof.
  intros Hb. do 8 (destruct b as [|? b]; [done|]). destruct b; [|done].
  unfold write_header, read_header. cbn [Zero S_ P_ Version Proto Reserved].
  cbn [lookup list_lookup take drop default].
  rewrite !be_encode_decode by done. done.
Qed.

Lemma check_header_None peer x :
  check_header peer x = None ↔ x = mkHeader Byte.x00 Byte.x53 Byte.x50 Byte.x00 peer 0.
Proof.
  unfold check_header. destruct x as [z s p v pr rs]; simpl. split.
  - repeat case_bool_decide; simpl; try done;
      destruct (Z.eqb_spec rs 0), (Z.eqb_spec pr peer); simpl; try done. by intros; subst.
  - intros [= -> -> -> -> -> ->]. case_bool_decide; [|done]. simpl. by rewrite Z.eqb_refl.
Qed.

Lemma check_greeting peer b :
  (0 ≤ peer < 2 ^ 16)%Z → length b = 8 →
  check_header peer (read_header b) = None ↔ b = hello peer.
Proof.
  intros Hp Hb. rewrite check_header_None. split.
  - intros E. by rewrite <-(write_read_header b), E.
  - intros ->. apply read_write_header; simpl; lia.
Qed.

Definition valid_proto (z : Z) : Prop := (0 ≤ z < 2 ^ 16)%Z.

Lemma handshake_spec p :
  live (nc p) → closed p = false →
  let d := data (nc p) in
  ∃ r p', handshake None None false p = (r, p') ∧
    match r with
    | None => 8 ≤ length d ∧ check_header (Peer (proto p)) (read_header (take 8 d)) = None ∧
        open p' = true ∧ net_closed (nc p') = false ∧ data (nc p') = drop 8 d ∧
        written (nc p') = written (nc p) ++ hello (Self (proto p))
    | Some e => net_closed (nc p') = true ∧ open p' = open p ∧
        written (nc p') = written (nc p) ++ hello (Self (proto p)) ∧
        (length d < 8 ∧ e = read_err d (rd_err (nc p)) ∨
         8 ≤ length d ∧ check_header (Peer (proto p)) (read_header (take 8 d)) = Some e)
    end.
Proof.
  intros Hl Hc d. unfold handshake. rewrite andb_false_r.
  unfold WriteTo. destruct Hl as [Hnc Hne]. rewrite Hnc.
  set (c0 := nc p <| written ::= _ |>).
  destruct (ReadFull_spec 8 c0) as (c1 & (He & Hw & Hl1) & Hrf); [by split|].
  change (data c0) with d in Hrf. case_decide as Hd; destruct Hrf as [-> Hd1].
  - destruct (check_header _ _) as [e|] eqn:Hck.
    + eexists _, _. split; [done|]. simpl. rewrite Hw. split_and!; [done..|]. by right.
    + change (closed (p <| nc := c1 |>)) with (closed p). rewrite Hc.
      eexists _, _. split; [done|]. simpl. rewrite Hw. split_and!; try done. apply Hl1.
  - eexists _, _. split; [done|]. simpl. rewrite Hw. split_and!; [done..|]. left. split; [lia|done].
Qed.

(** A handshake on an open connection succeeds exactly when the first
    eight bytes the peer sends are 0, 'S', 'P', 0, the peer protocol's number
    and two zeros; then the pipe is open, its own greeting is on the wire and
    the rest of the input is untouched.  On any other input it fails and the
    connection is closed. *)
Theorem handshake_accepts p (Hl : live (nc p)) (Hc : closed p = false)
    (Hp : valid_proto (Peer (proto p))) :
  let d := data (nc p) in
  let '(r, p') := handshake None None false p in
  (r = None ↔ take 8 d = hello (Peer (proto p))) ∧
  (r = None → open p' = true ∧ net_closed (nc p') = false ∧ data (nc p') = drop 8 d ∧
     written (nc p') = written (nc p) ++ hello (Self (proto p))) ∧
  (r ≠ None → open p' = open p ∧ net_closed (nc p') = true).
Proof.
  intros d. destruct (handshake_spec p Hl Hc) as (r & p' & -> & H). fold d in H.
  assert (take 8 d = hello (Peer (proto p)) → 8 ≤ length d) as Hlen.
  { intros E%(f_equal length). rewrite length_take in E. change (length (hello _)) with 8 in E. lia. }
  assert (8 ≤ length d → check_header (Peer (proto p)) (read_header (take 8 d)) = None ↔
    take 8 d = hello (Peer (proto p))) as Hck.
  { intros H8. apply check_greeting; [done|]. rewrite length_take. lia. }
  destruct r as [e|].
  - destruct H as (Hnc & Ho & _ & H). split_and!; [|done|done]. split; [done|].
    intros E. destruct H as [[H _]|[H8 H]]; [apply Hlen in E; lia|].
    apply Hck in E; [congruence|done].
  - destruct H as (H8 & H & Ho & Hnc & Hd & Hw). split_and!; [|done|done]. by rewrite <-Hck.
Qed.

(** What was written to a connection since it was [c]. *)
Definition sent_since (c c' : netConn) : bytes := drop (length (written c)) (written c').
(** How an end is left by a handshake with result [e]: open, with the input
    after the peer's greeting unread, or with its connection closed. *)
Definition left_with (e : error) (p p' : conn) (rest : bytes) : Prop :=
  match e with
  | None => open p' = true ∧ net_closed (nc p') = false ∧ data (nc p') = rest
  | Some _ => open p' = open p ∧ net_closed (nc p') = true
  end.

Lemma handshake_reads_greeting p e p' s rest :
  live (nc p) → closed p = false → valid_proto s → handshake None None false p = (e, p') →
  data (nc p) = hello s ++ rest →
  e = (if decide (s = Peer (proto p)) then None else Some ErrBadProto) ∧ left_with e p p' rest.
Proof.
  intros Hl Hc Hs Hh Hd. destruct (handshake_spec p Hl Hc) as (r & q & E & H).
  rewrite Hh in E. injection E as <- <-.
  assert (take 8 (data (nc p)) = hello s) as E1 by by rewrite Hd.
  assert (check_header (Peer (proto p)) (read_header (hello s)) =
    if decide (s = Peer (proto p)) then None else Some ErrBadProto) as Hck.
  { unfold hello. rewrite read_write_header by (simpl; try lia; apply Hs).
    unfold check_header; simpl. destruct (Z.eqb_spec s (Peer (proto p))); case_decide; done. }
  rewrite E1, Hck in H. destruct e as [e|].
  - destruct H as (? & ? & _ & [[Hlen _]|[_ H]]); [|done].
    rewrite Hd, length_app in Hlen. change (length (hello s)) with 8 in Hlen. lia.
  - destruct H as (_ & H & ? & ? & Hr & _). split; [done|]. split_and!; [done..|].
    by rewrite Hr, Hd.
Qed.

Lemma handshake_writes_greeting p e p' :
  live (nc p) → closed p = false → handshake None None false p = (e, p') →
  sent_since (nc p) (nc p') = hello (Self (proto p)).
Proof.
  intros Hl Hc Hh. destruct (handshake_spec p Hl Hc) as (r & q & E & H).
  rewrite Hh in E. injection E as <- <-. unfold sent_since.
  destruct e; destruct H as (? & H); [destruct H as (_ & -> & _)|destruct H as (_ & _ & _ & _ & ->)];
    apply drop_app_length.
Qed.

(** C11. Two pipes connected to each other, each reading what the handshake
    of the other writes (and then [rp] and [rq]): an end completes it exactly
    when the other's protocol is its peer protocol, and then it is open and
    has read the greeting and nothing else; an end whose peer does not match
    is told [ErrBadProto], closes its connection and does not become open. *)
Theorem handshake_agreement p q p' q' ep eq rp rq
    (Hlp : live (nc p)) (Hlq : live (nc q)) (Hcp : closed p = false) (Hcq : closed q = false)
    (Hsp : valid_proto (Self (proto p))) (Hsq : valid_proto (Self (proto q)))
    (Hp : handshake None None false p = (ep, p')) (Hq : handshake None None false q = (eq, q'))
    (Hpq : data (nc q) = sent_since (nc p) (nc p') ++ rq)
    (Hqp : data (nc p) = sent_since (nc q) (nc q') ++ rp) :
  ep = (if decide (Self (proto q) = Peer (proto p)) then None else Some ErrBadProto) ∧
  eq = (if decide (Self (proto p) = Peer (proto q)) then None else Some ErrBadProto) ∧
  left_with ep p p' rp ∧ left_with eq q q' rq.
Proof.
  erewrite handshake_writes_greeting in Hpq, Hqp by done.
  destruct (handshake_reads_greeting p ep p' _ rp Hlp Hcp Hsq Hp Hqp) as [? ?].
  by destruct (handshake_reads_greeting q eq q' _ rq Hlq Hcq Hsp Hq Hpq) as [? ?].
Qed.

(** Two messages, sent with the IPC framing and received in three pieces. *)
Definition pair_info : ProtocolInfo := mkInfo ProtoPair ProtoPair "pair" "pair".
Definition req_info : ProtocolInfo := mkInfo ProtoReq ProtoRep "req" "rep".
Definition rep_info : ProtocolInfo := mkInfo ProtoRep ProtoReq "rep" "req".
Definition net (cs : list bytes) : netConn := mkNet cs EOF [] false.
Definition conn_on (cs : list bytes) (pr : ProtocolInfo) : conn :=
  NewConnPipe (net cs) pr (VOther 0) (VOther 1).
Definition two_messages : mheap :=
  let '(m, h) := NewMessage 1 None heap0 in
  let '(m', h) := NewMessage 2 None h in
  set_Body m' [Byte.x62; Byte.x63] (set_Header m' [Byte.x80] (set_Body m [Byte.x61] h)).
Definition sent : conn := fst (send_all true [0; 1] (conn_on [] pair_info) two_messages).
Definition pieces : list bytes :=
  let w := written (nc sent) in [take 3 w; take 7 (drop 3 w); drop 10 w].

Lemma conn_roundtrip_witness :
  pieces = [[Byte.x01; Byte.x00; Byte.x00];
            [Byte.x00; Byte.x00; Byte.x00; Byte.x00; Byte.x00; Byte.x01; Byte.x61];
            [Byte.x01; Byte.x00; Byte.x00; Byte.x00; Byte.x00; Byte.x00; Byte.x00; Byte.x00;
             Byte.x03; Byte.x80; Byte.x62; Byte.x63]] ∧
  ∃ q', recv_all true [None; None] (conn_on pieces pair_info) heap0 =
    Some ([Ok [Byte.x61]; Ok [Byte.x80; Byte.x62; Byte.x63]], q') ∧ data (nc q') = [].
Proof.
  split; [by vm_compute|].
  refine (conn_roundtrip true [0; 1] [None; None] (conn_on [] pair_info) two_messages
    (conn_on pieces pair_info) heap0 _ _ _ _ _ _ _).
  - done.
  - done.
  - repeat constructor; vm_compute; done.
  - split; [done|]. vm_compute. repeat constructor; done.
  - apply heap0_wf.
  - done.
  - vm_compute. done.
Defined.

(** A peer that announces more than the machine can address, to a pipe with
    no limit (the default), and one whose stream ends after three bytes. *)
Lemma conn_recv_total_witness :
  recv false None (conn_on [be_encode 8 (2 ^ 48 + 1)] pair_info) heap0 = None ∧
  fst <$> (fst <$> recv true None (conn_on [[Byte.x01; Byte.x00]; [Byte.x00]] pair_info) heap0) =
    Some (Err ErrUnexpectedEOF).
Proof.
  split.
  - set (p := conn_on [be_encode 8 (2 ^ 48 + 1)] pair_info).
    destruct (conn_recv_total false None p heap0) as (c' & _ & H).
    + split; [done|]. vm_compute. repeat constructor; done.
    + apply heap0_wf.
    + rewrite decide_False in H by (vm_compute; lia).
      assert (too_long p (size_field false (data (nc p))) = false) as E by (vm_compute; done).
      rewrite E, decide_True in H by (vm_compute; done). exact H.
  - set (p := conn_on _ _). destruct (conn_recv_total true None p heap0) as (c' & _ & H).
    + split; [done|]. vm_compute. repeat constructor; done.
    + apply heap0_wf.
    + rewrite decide_True in H by (vm_compute; lia). by rewrite H.
Defined.

Lemma handshake_accepts_witness :
  let p := conn_on [[Byte.x00; Byte.x53]; [Byte.x50; Byte.x00; Byte.x00];
                    [Byte.x31; Byte.x00; Byte.x00; Byte.x2a]] req_info in
  fst (handshake None None false p) = None ∧ data (nc (snd (handshake None None false p))) = [Byte.x2a].
Proof.
  intros p. pose proof (handshake_accepts p) as H.
  destruct (handshake None None false p) as [r p'] eqn:E.
  destruct H as (H1 & H2 & _).
  - split; [done|]. vm_compute. repeat constructor; done.
  - done.
  - by vm_compute.
  - assert (r = None) as Hr by (apply H1; by vm_compute).
    split; [done|]. by apply (H2 Hr).
Defined.

(** The bytes on the wire are what [handshake] writes, in three pieces. *)
Lemma handshake_agreement_witness :
  let p := conn_on [hello ProtoRep ++ [Byte.x2a]] req_info in
  let q := conn_on [take 3 (hello ProtoReq); drop 3 (hello ProtoReq)] rep_info in
  sent_since (nc p) (nc (snd (handshake None None false p))) =
    [Byte.x00; Byte.x53; Byte.x50; Byte.x00; Byte.x00; Byte.x30; Byte.x00; Byte.x00] ∧
  fst (handshake None None false p) = None ∧ fst (handshake None None false q) = None ∧
  data (nc (snd (handshake None None false p))) = [Byte.x2a].
Proof.
  intros p q.
  destruct (handshake None None false p) as [ep p'] eqn:Hp.
  destruct (handshake None None false q) as [eq q'] eqn:Hq.
  assert (p' = snd (handshake None None false p)) as Ep by by rewrite Hp.
  assert (q' = snd (handshake None None false q)) as Eq by by rewrite Hq.
  destruct (handshake_agreement p q p' q' ep eq [Byte.x2a] []) as (H1 & H2 & H3 & _); try done.
  - split; [done|]. vm_compute. repeat constructor; done.
  - split; [done|]. vm_compute. repeat constructor; done.
  - subst. by vm_compute.
  - subst. by vm_compute.
  - assert (ep = None) as -> by (rewrite H1; by vm_compute).
    split; [subst; by vm_compute|]. split; [done|]. split; [rewrite H2; by vm_compute|].
    apply H3.
Defined.

(** ** The handshaker

    A worker goroutine per connection runs the handshake; [Wait] hands the
    pipes out in the order in which they finish.  Connections are named by
    identity; [tclosed] is the set of those that were closed, [workers] the
    goroutines still in [handshake], [waits] what the calls of [Wait]
    returned, [started] every connection given to [Start]. *)
Record connHandshaker := mkHS {
  workq : gset nat;
  doneq : list (option nat * error);
  hclosed : bool;
  workers : gset nat;
  tclosed : gset nat;
  waits : list (option nat * error);
  started : gset nat
}.
#[export] Instance eta_connHandshaker : Eta connHandshaker := λ h,
  mkHS (workq h) (doneq h) (hclosed h) (workers h) (tclosed h) (waits h) (started h).

Definition NewConnHandshaker : connHandshaker := mkHS ∅ [] false ∅ ∅ [] ∅.

Definition hs_Close_conn (k : nat) (h : connHandshaker) : connHandshaker :=
  h <| tclosed ::= (λ s, {[k]} ∪ s) |>.

(** [Start], with the goroutine it starts. *)
Definition Start (k : nat) (h : connHandshaker) : connHandshaker :=
  h <| workq ::= (λ s, {[k]} ∪ s) |> <| workers ::= (λ s, {[k]} ∪ s) |>
    <| started ::= (λ s, {[k]} ∪ s) |>.

(** [worker], once [handshake] has returned [e]. *)
Definition worker (k : nat) (e : error) (h : connHandshaker) : connHandshaker :=
  let h := h <| workers ::= (λ s, s ∖ {[k]}) |> in
  let h := h <| workq ::= (λ s, s ∖ {[k]}) |> in
  let '(item, h) :=
    match e with
    | Some _ => ((None, e), hs_Close_conn k h)
    | None => if hclosed h then ((Some k, Some ErrClosed), hs_Close_conn k h)
              else ((Some k, None), h)
    end in
  h <| doneq ::= (λ q, q ++ [item]) |>.

(** [Wait]; [None]: it keeps waiting. *)
Definition Wait (h : connHandshaker) : option connHandshaker :=
  if hclosed h then Some (h <| waits ::= (λ w, w ++ [(None, Some ErrClosed)]) |>)
  else match doneq h with
       | [] => None
       | item :: q => Some (h <| doneq := q |> <| waits ::= (λ w, w ++ [item]) |>)
       end.

Definition hs_Close (h : connHandshaker) : connHandshaker :=
  let h := h <| hclosed := true |> in
  let h := h <| tclosed ::= (λ s, workq h ∪ s) |> in
  h <| tclosed ::= (λ s, list_to_set (omap fst (doneq h)) ∪ s) |> <| doneq := [] |>.

Inductive hs_label := HStart (k : nat) | HWorker (k : nat) (e : error) | HWait | HClose.

Definition hs_step (l : hs_label) (h : connHandshaker) : option connHandshaker :=
  match l with
  | HStart k => guard (k ∉ started h);; Some (Start k h)
  | HWorker k e => guard (k ∈ workers h);; Some (worker k e h)
  | HWait => Wait h
  | HClose => Some (hs_Close h)
  end.
Definition hs_init (h : connHandshaker) : Prop := h = NewConnHandshaker.
Definition hs_any (h : connHandshaker) (l : hs_label) : Prop := True.

(** The connections among some results. *)
Definition conns_of (l : list (option nat * error)) : list nat := omap fst l.

Record hs_inv (h : connHandshaker) : Prop := {
  hi_started k : k ∈ started h →
    k ∈ workers h ∨ k ∈ tclosed h ∨ k ∈ conns_of (doneq h) ∨ k ∈ conns_of (waits h);
  hi_known k : k ∈ workers h ∨ k ∈ conns_of (waits h ++ doneq h) → k ∈ started h;
  hi_nodup : NoDup (conns_of (waits h ++ doneq h));
  hi_busy k : k ∈ workers h → k ∉ conns_of (waits h ++ doneq h);
  hi_closed k : hclosed h = true → k ∈ conns_of (doneq h) → k ∈ tclosed h;
  hi_ok k e : (Some k, e) ∈ waits h → e = None;
  hi_done k e : hclosed h = false → (Some k, e) ∈ doneq h → e = None
}.

Lemma conns_of_app l1 l2 : conns_of (l1 ++ l2) = conns_of l1 ++ conns_of l2.
Proof. apply omap_app. Qed.

(** A worker ends: its connection is closed, or in the item it leaves. *)
Lemma hs_inv_finish k (o : option nat) e tc wq h :
  hs_inv h → k ∈ workers h → tclosed h ⊆ tc →
  o = Some k ∨ o = None ∧ k ∈ tc →
  (hclosed h = true → k ∈ tc) → (hclosed h = false → o = Some k → e = None) →
  hs_inv (mkHS wq (doneq h ++ [(o, e)]) (hclosed h) (workers h ∖ {[k]}) tc (waits h) (started h)).
Proof.
  intros [Hs Hkn Hnd Hb Hc Ho Hd] Hk Htc Hok Hcl Hop.
  assert (∀ x, x ∈ conns_of [(o, e)] → x = k) as Hit.
  { intros x. destruct Hok as [->|[-> _]]; simpl; set_solver. }
  assert (NoDup (conns_of [(o, e)])) as Hnd1.
  { destruct Hok as [->|[-> _]]; simpl; [apply NoDup_singleton|apply NoDup_nil_2]. }
  assert (k ∈ tc ∨ k ∈ conns_of [(o, e)]) as Hin.
  { destruct Hok as [->|[-> ?]]; [right; simpl; set_solver|by left]. }
  split; simpl; rewrite ?app_assoc, ?(conns_of_app _ [_]).
  - intros x Hx. rewrite elem_of_app. destruct (decide (x = k)) as [->|Hne].
    { destruct Hin; auto. }
    destruct (Hs x Hx) as [?|[?|[?|?]]]; [left; set_solver|right; left; set_solver|auto..].
  - intros x [Hx|Hx]; [apply Hkn; left; set_solver|].
    apply elem_of_app in Hx as [Hx|Hx%Hit]; [by apply Hkn; right|subst; apply Hkn; by left].
  - apply NoDup_app. split_and!; [done| |done]. intros x Hx ->%Hit. by eapply Hb.
  - intros x Hx Hx2. apply elem_of_app in Hx2 as [Hx2|Hx2%Hit]; [|set_solver].
    eapply Hb; [|done]. set_solver.
  - intros x Hcl' Hx. apply elem_of_app in Hx as [Hx|Hx%Hit]; [|subst; by apply Hcl].
    apply Htc. by apply Hc.
  - done.
  - intros x e' Hcl' Hx. apply elem_of_app in Hx as [Hx|Hx]; [by eapply Hd|].
    apply list_elem_of_singleton in Hx as [= <- ->].
    destruct Hok as [E|[E _]]; [|done]. injection E as ->. by apply Hop.
Qed.

Lemma hs_inv_worker k e h : k ∈ workers h → hs_inv h → hs_inv (worker k e h).
Proof.
  intros Hk Hi. unfold worker. destruct e as [e|].
  { refine (hs_inv_finish k None (Some e) ({[k]} ∪ tclosed h) (workq h ∖ {[k]}) h Hi Hk _ _ _ _);
      set_solver. }
  set (h1 := h <| workers ::= _ |> <| workq ::= _ |>).
  change (hclosed h1) with (hclosed h). destruct (hclosed h) eqn:Hcl.
  - refine (hs_inv_finish k (Some k) (Some ErrClosed) ({[k]} ∪ tclosed h) (workq h ∖ {[k]}) h
      Hi Hk _ _ _ _); try set_solver. by rewrite Hcl.
  - refine (hs_inv_finish k (Some k) None (tclosed h) (workq h ∖ {[k]}) h Hi Hk _ _ _ _);
      try set_solver. by rewrite Hcl.
Qed.

Lemma hs_inv_pop h item q :
  hs_inv h → hclosed h = false → doneq h = item :: q →
  hs_inv (h <| doneq := q |> <| waits ::= (λ w, w ++ [item]) |>).
Proof.
  intros [Hs Hkn Hnd Hb Hc Ho Hd] Hcl Hq.
  assert (waits h ++ doneq h = (waits h ++ [item]) ++ q) as E by (rewrite Hq; by rewrite <-app_assoc).
  rewrite E in Hkn, Hnd, Hb. split; simpl; try done.
  - intros x Hx. destruct (Hs x Hx) as [?|[?|H]]; [auto..|]. right; right.
    rewrite Hq in H. change (item :: q) with ([item] ++ q) in H.
    rewrite conns_of_app, elem_of_app in H. rewrite conns_of_app, elem_of_app. tauto.
  - congruence.
  - intros x e [?|Hx%list_elem_of_singleton]%elem_of_app; [by eauto|]. subst.
    apply (Hd x e); [done|]. rewrite Hq. set_solver.
  - intros x e _ Hx. apply (Hd x e); [done|]. rewrite Hq. set_solver.
Qed.

Lemma hs_inv_step l h h' : hs_inv h → hs_any h l → hs_step l h = Some h' → hs_inv h'.
Proof.
  intros Hi _. destruct l as [k|k e| |]; simpl.
  - intros [Hk [= <-]]%guard_bind_Some. destruct Hi as [Hs Hkn Hnd Hb Hc Ho Hd].
    split; simpl; try done.
    + intros x. specialize (Hs x). set_solver.
    + intros x. specialize (Hkn x). set_solver.
    + intros x. specialize (Hb x). specialize (Hkn x). set_solver.
  - intros [Hk [= <-]]%guard_bind_Some. by apply hs_inv_worker.
  - unfold Wait. destruct (hclosed h) eqn:Hcl.
    + destruct Hi as [Hs Hkn Hnd Hb Hc Ho Hd]. intros [= <-]. assert (∀ l, conns_of ((waits h ++ [(None, Some ErrClosed)]) ++ l) =
        conns_of (waits h ++ l)) as E by (intros l; by rewrite <-app_assoc, !conns_of_app).
      pose proof (E []) as E0. rewrite !app_nil_r in E0.
      split; simpl; rewrite ?E, ?E0; try (done || (intros; congruence)).
      intros x e. rewrite elem_of_app, list_elem_of_singleton. intros [?|[= ]]; by eauto.
    + destruct (doneq h) as [|item q] eqn:Hq; [done|]. intros [= <-]. apply hs_inv_pop; done.
  - intros [= <-]. destruct Hi as [Hs Hkn Hnd Hb Hc Ho Hd]. unfold hs_Close.
    rewrite conns_of_app in *. apply NoDup_app in Hnd as (Hnd & _ & _).
    split; simpl; rewrite ?app_nil_r; try done.
    + intros x Hx. specialize (Hs x Hx). unfold conns_of in *. set_solver.
    + intros x. specialize (Hkn x). set_solver.
    + intros x. specialize (Hb x). set_solver.
    + intros x _ Hx. by apply elem_of_nil in Hx.
Qed.

(** C12. The handshaker loses no connection and hands none out twice, for
    every interleaving of [Start], the workers, [Wait] and [Close]: a started
    connection is still in its handshake, was closed, waits in [doneq], or
    was returned by [Wait]; [Wait] returns a connection only with a nil error
    and at most once; and once the handshaker is closed and the workers are
    done, every connection that [Wait] did not return has been closed. *)
Theorem handshaker_accounts h (H : reachable hs_step hs_init hs_any h) :
  (∀ k, k ∈ started h →
     k ∈ workers h ∨ k ∈ tclosed h ∨ k ∈ conns_of (doneq h) ∨ k ∈ conns_of (waits h)) ∧
  NoDup (conns_of (waits h)) ∧
  (∀ k e, (Some k, e) ∈ waits h → e = None) ∧
  (hclosed h = true → workers h = ∅ →
     ∀ k, k ∈ started h → k ∈ tclosed h ∨ k ∈ conns_of (waits h)).
Proof.
  assert (hs_inv h) as Hi.
  { revert h H. apply reachable_invariant.
    - intros h ->. split; simpl; (set_solver || apply NoDup_nil_2 || idtac).
    - apply hs_inv_step. }
  destruct Hi as [Hs Hkn Hnd Hb Hc Ho Hd]. rewrite conns_of_app in Hnd.
  apply NoDup_app in Hnd as (Hnd & _ & _). split_and!; [done..|].
  intros Hcl Hw k Hk. destruct (Hs k Hk) as [?|[?|[?|?]]]; [set_solver|auto..].
Qed.

Definition hs_run : connHandshaker :=
  play hs_step (λ _ _, true)
    [HStart 0; HStart 1; HStart 2; HWorker 1 None; HWait; HClose; HWorker 0 None;
     HWorker 2 (Some ErrBadProto); HWait] NewConnHandshaker.

Lemma handshaker_accounts_witness :
  waits hs_run = [(Some 1, None); (None, Some ErrClosed)] ∧
  (0 ∈ tclosed hs_run ∨ 0 ∈ conns_of (waits hs_run)).
Proof.
  split; [by vm_compute|].
  assert (reachable hs_step hs_init hs_any hs_run) as Hr by by apply play_reachable.
  destruct (handshaker_accounts hs_run Hr) as (_ & _ & _ & H).
  apply H; [by vm_compute|by vm_compute|]. apply (bool_decide_unpack _). by vm_compute.
Defined.
