(* ===== verification/Chan.v ===== *)
(** * Chan: goroutines, channels and select

    The protocols other than REQ are built from goroutines that meet in
    [select] statements over channels.  This file models that part of the Go
    language once, for any program: the state holds the channels, the
    goroutines at their program points and the shared variables; a program
    says which [select] cases a goroutine offers at a program point and where
    it goes after each.  A stretch of code between two blocking points (a
    critical section of a mutex) is one step of the program, given by [ext].

    Two facts hold for every program: a channel is a bounded FIFO queue
    ([wf]), and a message reference has one owner at a time ([owned]): it is
    in one buffer, in the hands of one goroutine, freed, or passed on. *)
From stdpp Require Import gmap list strings fin_maps.
From Stdlib Require Import ZArith Lia.
From S2P Require Import Prelude.

(** A channel; [ins] and [outs] record everything sent to and received from
    it. *)
Record chan (A : Type) := mkChan {
  buf : list A;
  cap : nat;
  cclosed : bool;
  ins : list A;
  outs : list A
}.
Arguments mkChan {A}. Arguments buf {A}. Arguments cap {A}. Arguments cclosed {A}.
Arguments ins {A}. Arguments outs {A}.
#[export] Instance eta_chan A : Eta (chan A) := λ c,
  mkChan (buf c) (cap c) (cclosed c) (ins c) (outs c).

(** A channel's identity says what the channel is for (a kind, given by the
    program) and which one it is.  A nil channel is an identity with no
    entry. *)
Abbreviation thid := nat.

(** A case of a [select]; [OTime] is a timer channel that may be ready at
    any moment ([time.After], or the closed channel of best effort). *)
Inductive op (K A : Type) := ORecv (c : K * nat) | OSend (c : K * nat) (a : A) | OTime.
Arguments ORecv {K A}. Arguments OSend {K A}. Arguments OTime {K A}.

(** [freed] lists the messages that were freed, [passed] those handed to a
    transport or to the application, [given] every reference that came into
    the program. *)
Record st (K A S T : Type) `{Countable K} := mkSt {
  vars : S;
  chans : gmap (K * nat) (chan A);
  threads : gmap thid T;
  fresh : nat;
  freed : list A;
  passed : list A;
  given : list A;
  crashed : bool
}.
Arguments mkSt {K A S T _ _}. Arguments vars {K A S T _ _}. Arguments chans {K A S T _ _}.
Arguments threads {K A S T _ _}. Arguments fresh {K A S T _ _}. Arguments freed {K A S T _ _}.
Arguments passed {K A S T _ _}. Arguments given {K A S T _ _}. Arguments crashed {K A S T _ _}.
#[export] Instance eta_st K A S T `{Countable K} : Eta (st K A S T) := λ s,
  mkSt (vars s) (chans s) (threads s) (fresh s) (freed s) (passed s) (given s) (crashed s).

(** A program: the [select] a goroutine is at, whether that has a [default],
    and the program point after a case (with the value received) or after the
    default, with the messages freed on the way. *)
Class Program (K A T : Type) := {
  select : T → list (op K A);
  has_default : T → bool;
  resume : T → option nat → option A → T * list A
}.

(** The identity of a message: which Go pointer it is. *)
Class Keyed (A : Type) := key : A → nat.

Section Machine.
Context {K A S T : Type} `{!EqDecision K, !Countable K} `{!Program K A T}.
Abbreviation st := (st K A S T).
Abbreviation chid := (K * nat)%type.
Implicit Types (s : st) (c : chid) (t : thid) (a : A).

(** ** Primitives *)
Definition set_vars (f : S → S) s : st := s <| vars ::= f |>.
Definition set_thread t (th : T) s : st := s <| threads ::= <[t := th]> |>.
Definition go (th : T) s : st :=
  s <| threads ::= <[fresh s := th]> |> <| fresh ::= Datatypes.S |>.
Definition free (l : list A) s : st := s <| freed ::= (λ f, f ++ l) |>.
Definition pass (l : list A) s : st := s <| passed ::= (λ f, f ++ l) |>.
Definition give (l : list A) s : st := s <| given ::= (λ f, f ++ l) |>.

(** [make(chan, n)]. *)
Definition make_chan (k : K) (n : nat) s : chid * st :=
  ((k, fresh s),
   s <| chans ::= <[(k, fresh s) := mkChan [] n false [] []]> |> <| fresh ::= Datatypes.S |>).
Definition close_chan c s : st :=
  match chans s !! c with
  | Some ch =>
      if cclosed ch then s <| crashed := true |>
      else s <| chans ::= <[c := ch <| cclosed := true |>]> |>
  | None => s <| crashed := true |>
  end.

Definition resume_thread t (th : T) (i : option nat) (v : option A) s : st :=
  let '(th', fr) := resume th i v in free fr (set_thread t th' s).

Definition push a (ch : chan A) : chan A :=
  ch <| buf ::= (λ b, b ++ [a]) |> <| ins ::= (λ b, b ++ [a]) |>.
Definition pop a (b : list A) (ch : chan A) : chan A :=
  ch <| buf := b |> <| outs ::= (λ l, l ++ [a]) |>.
(** A value that goes straight from the sender to the receiver. *)
Definition hand_over a (ch : chan A) : chan A :=
  ch <| ins ::= (λ b, b ++ [a]) |> <| outs ::= (λ b, b ++ [a]) |>.

(** [c <- a], by a goroutine that is parked in its [select] or not; [r]
    names the receiver when the channel is unbuffered.  One of the two must be
    parked. *)
Definition chan_send c a (parked : bool) (r : option (thid * nat)) s : option st :=
  ch ← chans s !! c;
  if cclosed ch then Some (s <| crashed := true |>)
  else if decide (length (buf ch) < cap ch) then
    Some (s <| chans ::= <[c := push a ch]> |>)
  else if decide (cap ch = 0) then
    '(t, j) ← r; th ← threads s !! t;
    match select th !! j with
    | Some (ORecv c') =>
        guard (c' = c ∧ (parked || negb (has_default th)) = true);;
        Some (resume_thread t th (Some j) (Some a) (s <| chans ::= <[c := hand_over a ch]> |>))
    | _ => None
    end
  else None.

(** The goroutines parked at a receive from, or a send to, a channel. *)
Definition case_on (snd_side : bool) c (o : op K A) : bool :=
  match o with
  | ORecv c' => negb snd_side && bool_decide (c' = c)
  | OSend c' _ => snd_side && bool_decide (c' = c)
  | OTime => false
  end.
Definition parked_at (snd_side : bool) c s : list (thid * nat) :=
  flat_map (λ '(t, th),
    if has_default th then [] else
    omap (λ '(i, o), if case_on snd_side c o then Some (t, i) else None)
      (imap pair (select th))) (map_to_list (threads s)).

(** Whether a case could go through at once. *)
Definition ready s (o : op K A) : bool :=
  match o with
  | ORecv c =>
      match chans s !! c with
      | Some ch => bool_decide (buf ch ≠ []) || cclosed ch ||
                   (bool_decide (cap ch = 0) && bool_decide (parked_at true c s ≠ []))
      | None => false
      end
  | OSend c a =>
      match chans s !! c with
      | Some ch => cclosed ch || bool_decide (length (buf ch) < cap ch) ||
                   (bool_decide (cap ch = 0) && bool_decide (parked_at false c s ≠ []))
      | None => false
      end
  | OTime => true
  end.

(** [select { case c <- a: ...; default: ... }] inside a critical section. *)
Definition try_send c a s : option st := chan_send c a false (head (parked_at false c s)) s.

(** Case [i] of the [select] that goroutine [t] is at. *)
Definition do_case t (th : T) (i : nat) (r : option (thid * nat)) s : option st :=
  o ← select th !! i;
  match o with
  | OSend c a =>
      guard (fst <$> r ≠ Some t);;
      s ← chan_send c a (negb (has_default th)) r s;
      Some (resume_thread t th (Some i) None s)
  | ORecv c =>
      ch ← chans s !! c;
      match buf ch with
      | a :: b => Some (resume_thread t th (Some i) (Some a) (s <| chans ::= <[c := pop a b ch]> |>))
      | [] => guard (cclosed ch = true);; Some (resume_thread t th (Some i) None s)
      end
  | OTime => Some (resume_thread t th (Some i) None s)
  end.

Inductive label (E : Type) :=
  | LCase (t : thid) (i : nat) (r : option (thid * nat))
  | LDefault (t : thid)
  | LExt (e : E).
Arguments LCase {E}. Arguments LDefault {E}. Arguments LExt {E}.

(** One step of a program whose critical sections are [ext]. *)
Definition gstep {E} (ext : E → st → option st) (l : label E) s : option st :=
  guard (crashed s = false);;
  match l with
  | LCase t i r => th ← threads s !! t; do_case t th i r s
  | LDefault t =>
      th ← threads s !! t;
      guard (has_default th = true ∧ forallb (λ o, negb (ready s o)) (select th) = true);;
      Some (resume_thread t th None None s)
  | LExt e => ext e s
  end.

(** ** Channels are bounded FIFO queues *)
Definition chan_ok (ch : chan A) : Prop :=
  ins ch = outs ch ++ buf ch ∧ length (buf ch) ≤ cap ch.

Record wf s : Prop := {
  wf_chan c ch : chans s !! c = Some ch → chan_ok ch;
  wf_fresh_c c : is_Some (chans s !! c) → c.2 < fresh s;
  wf_fresh_t t : is_Some (threads s !! t) → t < fresh s
}.

(** A step moves a channel on: what was sent and received stays so. *)
Definition chan_le (ch ch' : chan A) : Prop :=
  cap ch' = cap ch ∧ ins ch `prefix_of` ins ch' ∧ outs ch `prefix_of` outs ch' ∧
  (cclosed ch = true → cclosed ch' = true).
Definition chans_le s s' : Prop :=
  ∀ c ch, chans s !! c = Some ch → ∃ ch', chans s' !! c = Some ch' ∧ chan_le ch ch'.

#[export] Instance chan_le_preorder : PreOrder chan_le.
Proof.
  split.
  - intros ch. by split_and!.
  - intros c1 c2 c3 (? & ? & ? & ?) (? & ? & ? & ?). split_and!; [congruence|by etrans|by etrans|auto].
Qed.
#[export] Instance chans_le_preorder : PreOrder chans_le.
Proof.
  split.
  - intros s c ch Hc. by exists ch.
  - intros s1 s2 s3 H12 H23 c ch Hc. destruct (H12 c ch Hc) as (ch2 & Hc2 & ?).
    destruct (H23 c ch2 Hc2) as (ch3 & Hc3 & ?). exists ch3. split; [done|by etrans].
Qed.

(** What one step may do to the machine. *)
Record advance s s' : Prop := {
  adv_wf : wf s → wf s';
  adv_chans : chans_le s s';
  adv_fresh : fresh s ≤ fresh s'
}.
#[export] Instance advance_preorder : PreOrder advance.
Proof.
  split.
  - intros s. split; [done|reflexivity|lia].
  - intros s1 s2 s3 [] []. split; [auto|by etrans|lia].
Qed.

Lemma advance_same s s' :
  chans s' = chans s → threads s' = threads s → fresh s' = fresh s → advance s s'.
Proof.
  intros Hc Ht Hf. split.
  - intros [???]. by split; rewrite ?Hc, ?Ht, ?Hf.
  - intros c ch. rewrite Hc. intros ?. by exists ch.
  - lia.
Qed.

Lemma advance_set_chan c ch ch' s :
  chans s !! c = Some ch → chan_le ch ch' → (chan_ok ch → chan_ok ch') →
  advance s (s <| chans ::= <[c := ch']> |>).
Proof.
  intros Hc Hle Hok. split; [|intros k x|done].
  - intros [Hch Hfc Hft]. split; simpl; [| |done].
    + intros k x. rewrite lookup_insert. case_decide; [|by eauto]. intros [= <-]. eauto.
    + intros k. rewrite lookup_insert_is_Some'. intros [<-|?]; eauto.
  - intros Hk. simpl. rewrite lookup_insert. case_decide; [|by exists x].
    subst. simplify_eq. eauto.
Qed.

Lemma advance_set_thread t th s :
  is_Some (threads s !! t) → advance s (set_thread t th s).
Proof.
  intros Ht. split; [|intros k x Hk; by exists x|done].
  intros [Hch Hfc Hft]. split; simpl; try done.
  intros k. rewrite lookup_insert_is_Some'. intros [<-|?]; eauto.
Qed.

Lemma advance_go th s : advance s (go th s).
Proof.
  split; [|intros k x Hk; by exists x|simpl; lia].
  intros [Hch Hfc Hft]. split; simpl; try done.
  - intros k Hk%Hfc. lia.
  - intros k. rewrite lookup_insert_is_Some'. intros [<-|Hk%Hft]; lia.
Qed.

Lemma make_chan_new k s : wf s → chans s !! (k, fresh s) = None.
Proof. intros Hwf. apply eq_None_not_Some. intros Hs%(wf_fresh_c s Hwf). simpl in Hs. lia. Qed.

Lemma advance_make_chan k n s : wf s → advance s (snd (make_chan k n s)).
Proof.
  intros Hwf. split; [intros [Hch Hfc Hft]|intros c x Hc|simpl; lia].
  - split; simpl.
    + intros c x. rewrite lookup_insert. case_decide; [|by eauto]. intros [= <-]. split; [done|simpl; lia].
    + intros c. rewrite lookup_insert_is_Some'. intros [<-|Hc%Hfc]; simpl; lia.
    + intros t Ht%Hft. lia.
  - simpl. exists x. split; [|done]. rewrite lookup_insert_ne; [done|].
    intros <-. by rewrite make_chan_new in Hc.
Qed.

Lemma advance_close_chan c s : advance s (close_chan c s).
Proof.
  unfold close_chan. destruct (chans s !! c) as [ch|] eqn:Hc; [|by apply advance_same].
  destruct (cclosed ch) eqn:Hcl; [by apply advance_same|].
  eapply advance_set_chan; [done| |done]. by split_and!.
Qed.

Lemma advance_resume t th i v s :
  threads s !! t = Some th → advance s (resume_thread t th i v s).
Proof.
  intros Ht. unfold resume_thread. destruct (resume th i v) as [th' fr].
  transitivity (set_thread t th' s); [apply advance_set_thread; eauto|by apply advance_same].
Qed.

Lemma chan_le_push a ch : chan_le ch (push a ch).
Proof. split_and!; simpl; try done. by apply prefix_app_r. Qed.
Lemma chan_ok_push a ch : length (buf ch) < cap ch → chan_ok ch → chan_ok (push a ch).
Proof.
  intros Hl [Hi Hb]. split; simpl; [|rewrite length_app; simpl; lia].
  by rewrite Hi, <-app_assoc.
Qed.
Lemma chan_le_pop a b ch : chan_le ch (pop a b ch).
Proof. split_and!; simpl; try done. by apply prefix_app_r. Qed.
Lemma chan_ok_pop a b ch : buf ch = a :: b → chan_ok ch → chan_ok (pop a b ch).
Proof.
  intros Hb [Hi Hl]. rewrite Hb in *. split; simpl in *; [|lia]. by rewrite Hi, <-app_assoc.
Qed.
Lemma chan_le_hand_over a ch : chan_le ch (hand_over a ch).
Proof. split_and!; simpl; try done; by apply prefix_app_r. Qed.
Lemma chan_ok_hand_over a ch : cap ch = 0 → chan_ok ch → chan_ok (hand_over a ch).
Proof.
  intros Hc [Hi Hl]. assert (buf ch = []) as Hb by (destruct (buf ch); simpl in *; [done|lia]).
  rewrite Hb, app_nil_r in Hi. split; simpl; rewrite Hb; [|simpl; lia]. by rewrite app_nil_r, Hi.
Qed.

Lemma advance_chan_send c a pk r s s' : chan_send c a pk r s = Some s' → advance s s'.
Proof.
  unfold chan_send. destruct (chans s !! c) as [ch|] eqn:Hc; simpl; [|done].
  destruct (cclosed ch); [intros [= <-]; by apply advance_same|].
  case_decide as Hl.
  { intros [= <-]. eapply advance_set_chan; [done|apply chan_le_push|by apply chan_ok_push]. }
  case_decide as Hcap; [|done]. destruct r as [[t j]|]; simpl; [|done].
  destruct (threads s !! t) as [th|] eqn:Ht; simpl; [|done].
  destruct (select th !! j) as [[c'|c' x|]|]; try done.
  intros [_ [= <-]]%guard_bind_Some.
  transitivity (s <| chans ::= <[c := hand_over a ch]> |>).
  { eapply advance_set_chan; [done|apply chan_le_hand_over|by apply chan_ok_hand_over]. }
  by apply advance_resume.
Qed.

Lemma threads_resume t th i v s k :
  k ≠ t → threads (resume_thread t th i v s) !! k = threads s !! k.
Proof.
  intros Hk. unfold resume_thread. destruct (resume th i v) as [th' fr]. simpl.
  by rewrite lookup_insert_ne by done.
Qed.

Lemma chan_send_threads c a pk r s s' t :
  chan_send c a pk r s = Some s' → fst <$> r ≠ Some t → threads s' !! t = threads s !! t.
Proof.
  unfold chan_send. destruct (chans s !! c) as [ch|] eqn:Hc; simpl; [|done].
  destruct (cclosed ch); [by intros [= <-]|].
  case_decide as Hl; [by intros [= <-]|].
  case_decide as Hcap; [|done]. destruct r as [[t' j]|]; simpl; [|done].
  destruct (threads s !! t') as [th|] eqn:Ht; simpl; [|done].
  destruct (select th !! j) as [[c'|c' x|]|]; try done.
  intros [_ [= <-]]%guard_bind_Some Hne. rewrite threads_resume by congruence. done.
Qed.

Lemma advance_do_case t th i r s s' :
  threads s !! t = Some th → do_case t th i r s = Some s' → advance s s'.
Proof.
  intros Ht. unfold do_case. destruct (select th !! i) as [[c|c a|]|]; simpl; try done.
  - destruct (chans s !! c) as [ch|] eqn:Hc; simpl; [|done].
    destruct (buf ch) as [|a b] eqn:Hb.
    + intros [_ [= <-]]%guard_bind_Some. by apply advance_resume.
    + intros [= <-]. transitivity (s <| chans ::= <[c := pop a b ch]> |>).
      { eapply advance_set_chan; [done|apply chan_le_pop|by apply chan_ok_pop]. }
      by apply advance_resume.
  - intros [Hr Hs]%guard_bind_Some. apply bind_Some in Hs as (s1 & Hs & [= <-]).
    transitivity s1; [by eapply advance_chan_send|]. apply advance_resume.
    by rewrite (chan_send_threads _ _ _ _ _ _ _ Hs Hr).
  - intros [= <-]. by apply advance_resume.
Qed.

(** ** Ownership of messages *)

Context `{!Keyed A}.

(** References to message [x] in a list. *)
Definition kocc (x : nat) (l : list A) : nat := occ x (key <$> l).
Lemma kocc_nil x : kocc x [] = 0.
Proof. done. Qed.
Lemma kocc_app x l1 l2 : kocc x (l1 ++ l2) = kocc x l1 + kocc x l2.
Proof. unfold kocc. by rewrite fmap_app, occ_app. Qed.
Lemma kocc_cons x a l : kocc x (a :: l) = (if key a =? x then 1 else 0) + kocc x l.
Proof.
  unfold kocc. rewrite fmap_cons, occ_cons. by destruct (Nat.eqb_spec (key a) x); case_decide.
Qed.

(** What the goroutines hold.  After a case a goroutine holds, or has freed,
    at most what it held and received, less what it sent. *)
Class Owns := {
  holds : T → list A;
  owns_case th i o v x :
    select th !! i = Some o →
    match o with ORecv _ => True | _ => v = None end →
    let '(th', fr) := resume th (Some i) v in
    kocc x (holds th') + kocc x fr + kocc x (match o with OSend _ a => [a] | _ => [] end) ≤
    kocc x (holds th) + kocc x (option_list v);
  owns_default th x :
    has_default th = true →
    let '(th', fr) := resume th None None in
    kocc x (holds th') + kocc x fr ≤ kocc x (holds th)
}.

Context `{!Owns}.

(** References to [x]: in buffers, held, freed, passed on. *)
Definition owned (x : nat) s : nat :=
  map_sum (λ ch, kocc x (buf ch)) (chans s) + map_sum (λ th, kocc x (holds th)) (threads s)
  + kocc x (freed s) + kocc x (passed s).
Definition own_inv s : Prop := ∀ x, owned x s ≤ kocc x (given s).

Lemma owned_resume x t th i v s :
  threads s !! t = Some th →
  let '(th', fr) := resume th i v in
  owned x (resume_thread t th i v s) + kocc x (holds th) = owned x s + kocc x (holds th') + kocc x fr.
Proof.
  intros Ht. unfold resume_thread. destruct (resume th i v) as [th' fr].
  unfold owned, free, set_thread. simpl. rewrite kocc_app.
  pose proof (map_sum_insert (λ th, kocc x (holds th)) (threads s) t th th' Ht). simpl in *. lia.
Qed.

Lemma owned_set_chan x c ch ch' s :
  chans s !! c = Some ch →
  owned x (s <| chans ::= <[c := ch']> |>) + kocc x (buf ch) = owned x s + kocc x (buf ch').
Proof.
  intros Hc. unfold owned. simpl.
  pose proof (map_sum_insert (λ ch, kocc x (buf ch)) (chans s) c ch ch' Hc). simpl in *. lia.
Qed.

(** A sent value is one reference more in the hands of the others. *)
Lemma owned_chan_send x c a pk r s s' :
  chan_send c a pk r s = Some s' → owned x s' ≤ owned x s + kocc x [a].
Proof.
  unfold chan_send. destruct (chans s !! c) as [ch|] eqn:Hc; simpl; [|done].
  destruct (cclosed ch); [intros [= <-]; unfold owned; simpl; lia|].
  case_decide as Hl.
  { intros [= <-]. pose proof (owned_set_chan x c ch (push a ch) s Hc) as H0. simpl in H0.
    rewrite kocc_app in H0. simpl. lia. }
  case_decide as Hcap; [|done]. destruct r as [[t j]|]; simpl; [|done].
  destruct (threads s !! t) as [th|] eqn:Ht; simpl; [|done].
  destruct (select th !! j) as [[c'|c' y|]|] eqn:Hsel; try done.
  intros [_ Hs']%guard_bind_Some. apply (inj Some) in Hs'. subst s'.
  set (s1 := s <| chans ::= <[c := hand_over a ch]> |>).
  assert (owned x s1 = owned x s) as H1.
  { pose proof (owned_set_chan x c ch (hand_over a ch) s Hc). subst s1. simpl in *. lia. }
  change (owned x (resume_thread t th (Some j) (Some a) s1) ≤ owned x s + kocc x [a]).
  assert (threads s1 !! t = Some th) as Ht1 by done. clearbody s1.
  pose proof (owned_resume x t th (Some j) (Some a) s1 Ht1) as H2.
  pose proof (owns_case th j (ORecv c') (Some a) x Hsel I) as H3.
  destruct (resume th (Some j) (Some a)) as [th' fr]. change (option_list (Some a)) with [a] in H3.
  rewrite kocc_nil in H3. lia.
Qed.

Lemma given_resume t th i v s : given (resume_thread t th i v s) = given s.
Proof. unfold resume_thread. by destruct (resume th i v). Qed.

Lemma given_chan_send c a pk r s s' : chan_send c a pk r s = Some s' → given s' = given s.
Proof.
  unfold chan_send. destruct (chans s !! c) as [ch|]; simpl; [|done].
  destruct (cclosed ch); [by intros [= <-]|]. case_decide; [by intros [= <-]|].
  case_decide; [|done]. destruct r as [[t j]|]; simpl; [|done].
  destruct (threads s !! t) as [th|]; simpl; [|done].
  destruct (select th !! j) as [[c'|c' y|]|]; try done.
  intros [_ [= <-]]%guard_bind_Some. by rewrite given_resume.
Qed.

Lemma vars_chan_send c a pk r s s' : chan_send c a pk r s = Some s' → vars s' = vars s.
Proof.
  unfold chan_send. destruct (chans s !! c) as [ch|]; simpl; [|done].
  destruct (cclosed ch); [by intros [= <-]|]. case_decide; [by intros [= <-]|].
  case_decide; [|done]. destruct r as [[t j]|]; simpl; [|done].
  destruct (threads s !! t) as [th|]; simpl; [|done].
  destruct (select th !! j) as [[c'|c' y|]|]; try done.
  intros [_ [= <-]]%guard_bind_Some. unfold resume_thread. by destruct (resume th (Some j) (Some a)).
Qed.
(** On an open channel with room a send goes to the buffer. *)
Lemma chan_send_room c a pk r s ch :
  chans s !! c = Some ch → cclosed ch = false → length (buf ch) < cap ch →
  chan_send c a pk r s = Some (s <| chans ::= <[c := push a ch]> |>).
Proof. intros Hc Hcl Hl. unfold chan_send. rewrite Hc. simpl. rewrite Hcl. by rewrite decide_True. Qed.
Lemma owned_case_resume x t th i o s :
  threads s !! t = Some th → select th !! i = Some o →
  owned x (resume_thread t th (Some i) None s) +
    kocc x (match o with OSend _ a => [a] | _ => [] end) ≤ owned x s.
Proof.
  intros Ht Hsel. pose proof (owned_resume x t th (Some i) None s Ht) as H1.
  pose proof (owns_case th i o None x Hsel ltac:(by destruct o)) as H2.
  destruct (resume th (Some i) None) as [th' fr]. change (option_list None) with (@nil A) in H2. rewrite kocc_nil in H2. lia.
Qed.

Lemma own_do_case t th i r s s' :
  threads s !! t = Some th → do_case t th i r s = Some s' → own_inv s → own_inv s'.
Proof.
  intros Ht Hdo Hinv x. specialize (Hinv x). revert Hdo. unfold do_case.
  destruct (select th !! i) as [o|] eqn:Hsel; simpl; [|done].
  pose proof (owned_case_resume x t th i o s Ht Hsel) as Hres.
  destruct o as [c|c a|].
  - destruct (chans s !! c) as [ch|] eqn:Hc; simpl; [|done].
    destruct (buf ch) as [|a b] eqn:Hb.
    + intros [_ [= <-]]%guard_bind_Some. rewrite given_resume. simpl in Hres. lia.
    + intros Hs'. apply (inj Some) in Hs'. subst s'. rewrite given_resume. set (s1 := s <| chans ::= <[c := pop a b ch]> |>).
      assert (owned x s1 + kocc x [a] = owned x s) as H1.
      { pose proof (owned_set_chan x c ch (pop a b ch) s Hc) as H0. rewrite Hb in H0.
        change (a :: b) with ([a] ++ b) in H0. rewrite kocc_app in H0. subst s1. simpl in *. lia. }
      change (owned x (resume_thread t th (Some i) (Some a) s1) ≤ kocc x (given s1)).
      change (given s) with (given s1) in Hinv. assert (threads s1 !! t = Some th) as Ht1 by done.
      clearbody s1. pose proof (owned_resume x t th (Some i) (Some a) s1 Ht1) as H2.
      pose proof (owns_case th i (ORecv c) (Some a) x Hsel I) as H3.
      destruct (resume th (Some i) (Some a)) as [th' fr]. change (option_list (Some a)) with [a] in H3.
      rewrite kocc_nil in H3. lia.
  - intros [Hr Hs]%guard_bind_Some. apply bind_Some in Hs as (s1 & Hs & [= <-]).
    rewrite given_resume, (given_chan_send _ _ _ _ _ _ Hs).
    assert (threads s1 !! t = Some th) as Ht1
      by by rewrite (chan_send_threads _ _ _ _ _ _ _ Hs Hr).
    pose proof (owned_case_resume x t th i (OSend c a) s1 Ht1 Hsel) as H1.
    pose proof (owned_chan_send x _ _ _ _ _ _ Hs). simpl in H1. lia.
  - intros [= <-]. rewrite given_resume. simpl in Hres. lia.
Qed.

(** ** Typed channels

    What the values on each channel and the local data of each goroutine
    satisfy, in terms of the shared variables, and what the shared variables
    satisfy themselves.  A goroutine that receives may rely on what those
    who send on the channel establish. *)
Class Typed := {
  vars_type : S → Prop;
  chan_type : S → chid → A → Prop;
  thread_type : S → thid → T → Prop;
  typed_case σ t th i o v :
    select th !! i = Some o → thread_type σ t th →
    match o, v with ORecv c, Some a => chan_type σ c a | ORecv _, None => True | _, _ => v = None end →
    match o with OSend c a => chan_type σ c a | _ => True end ∧
    thread_type σ t (fst (resume th (Some i) v));
  typed_default σ t th :
    has_default th = true → thread_type σ t th → thread_type σ t (fst (resume th None None))
}.
Context `{!Typed}.

Record typed s : Prop := {
  ty_chan c ch a : chans s !! c = Some ch → a ∈ ins ch → chan_type (vars s) c a;
  ty_thread t th : threads s !! t = Some th → thread_type (vars s) t th;
  ty_vars : vars_type (vars s)
}.

Lemma typed_resume t th i v s :
  typed s → thread_type (vars s) t (fst (resume th i v)) → typed (resume_thread t th i v s).
Proof.
  intros [Hc Ht Hv] Hty. unfold resume_thread. destruct (resume th i v) as [th' fr]. simpl in Hty.
  split; simpl; [done| |done]. intros t' th''. rewrite lookup_insert. case_decide; [|by apply Ht].
  subst. by intros [= <-].
Qed.

Lemma typed_set_chan c ch ch' s :
  chans s !! c = Some ch → typed s → (∀ a, a ∈ ins ch' → a ∈ ins ch ∨ chan_type (vars s) c a) →
  typed (s <| chans ::= <[c := ch']> |>).
Proof.
  intros Hc [Hty Ht Hv] Hin. split; simpl; [|done|done]. intros c' ch'' a. rewrite lookup_insert.
  case_decide; [|by apply Hty]. subst. intros [= <-] [Ha|Ha]%Hin; [by eapply Hty|done].
Qed.

Lemma typed_send c a pk r s s' :
  chan_send c a pk r s = Some s' → chan_type (vars s) c a → typed s →
  typed s' ∧ vars s' = vars s.
Proof.
  unfold chan_send. destruct (chans s !! c) as [ch|] eqn:Hc; simpl; [|done].
  destruct (cclosed ch); [intros [= <-] _ []; by split; [split|]|].
  case_decide as Hl.
  { intros [= <-] Ha Hs. split; [|done]. eapply typed_set_chan; [done..|].
    intros b. simpl. rewrite elem_of_app, list_elem_of_singleton. intros [?| ->]; auto. }
  case_decide as Hcap; [|done]. destruct r as [[t j]|]; simpl; [|done].
  destruct (threads s !! t) as [th|] eqn:Ht; simpl; [|done].
  destruct (select th !! j) as [[c'|c' y|]|] eqn:Hsel; try done.
  intros [[-> _] Hs']%guard_bind_Some Ha Hs. apply (inj Some) in Hs'. subst s'.
  set (s1 := s <| chans ::= <[c := hand_over a ch]> |>).
  assert (typed s1) as Hs1.
  { eapply typed_set_chan; [done..|]. intros b. simpl.
    rewrite elem_of_app, list_elem_of_singleton. intros [?| ->]; auto. }
  change (typed (resume_thread t th (Some j) (Some a) s1) ∧
          vars (resume_thread t th (Some j) (Some a) s1) = vars s1). split.
  - apply typed_resume; [done|]. change (vars s1) with (vars s).
    by eapply (typed_case (vars s) t th j (ORecv c) (Some a)); [|eapply ty_thread|].
  - unfold resume_thread. by destruct (resume th (Some j) (Some a)).
Qed.

Lemma typed_do_case t th i r s s' :
  wf s → threads s !! t = Some th → do_case t th i r s = Some s' → typed s → typed s'.
Proof.
  intros Hwf Ht Hdo Hs. revert Hdo. unfold do_case.
  destruct (select th !! i) as [o|] eqn:Hsel; simpl; [|done].
  pose proof (ty_thread _ Hs _ _ Ht) as Hth.
  destruct o as [c|c a|].
  - destruct (chans s !! c) as [ch|] eqn:Hc; simpl; [|done].
    destruct (buf ch) as [|a b] eqn:Hb.
    + intros [_ Hs']%guard_bind_Some. apply (inj Some) in Hs'. subst s'. apply typed_resume; [done|].
      by eapply (typed_case _ t th i (ORecv c) None).
    + intros Hs'. apply (inj Some) in Hs'. subst s'. apply typed_resume.
      { eapply (typed_set_chan c ch (pop a b ch)); [done..|]. by left. }
      eapply (typed_case (vars s) t th i (ORecv c) (Some a)); [done..|].
      eapply ty_chan; [done..|]. rewrite (proj1 (wf_chan _ Hwf _ _ Hc)), Hb. set_solver.
  - intros [Hr Hs1]%guard_bind_Some. apply bind_Some in Hs1 as (s1 & Hs1 & [= <-]).
    destruct (typed_case (vars s) t th i (OSend c a) None Hsel Hth eq_refl) as [Ha Hth'].
    destruct (typed_send _ _ _ _ _ _ Hs1 Ha Hs) as [Hs2 Hv]. apply typed_resume; [done|].
    by rewrite Hv.
  - intros Hs'. apply (inj Some) in Hs'. subst s'. apply typed_resume; [done|].
    by eapply (typed_case _ t th i OTime None).
Qed.

(** ** What the primitives do to ownership and types *)
Lemma owned_vars x f s : owned x (set_vars f s) = owned x s.
Proof. done. Qed.
Lemma owned_free x l s : owned x (free l s) = owned x s + kocc x l.
Proof. unfold owned, free. simpl. rewrite kocc_app. lia. Qed.
Lemma owned_pass x l s : owned x (pass l s) = owned x s + kocc x l.
Proof. unfold owned, pass. simpl. rewrite kocc_app. lia. Qed.
Lemma owned_give x l s : owned x (give l s) = owned x s.
Proof. done. Qed.
Lemma owned_go x th s : wf s → owned x (go th s) = owned x s + kocc x (holds th).
Proof.
  intros Hwf. unfold owned, go. simpl. rewrite map_sum_insert_new; [lia|].
  apply eq_None_not_Some. intros Hs%(wf_fresh_t _ Hwf). lia.
Qed.
Lemma owned_set_thread x t th th' s :
  threads s !! t = Some th →
  owned x (set_thread t th' s) + kocc x (holds th) = owned x s + kocc x (holds th').
Proof.
  intros Ht. unfold owned, set_thread. simpl.
  pose proof (map_sum_insert (λ th, kocc x (holds th)) (threads s) t th th' Ht). simpl in *. lia.
Qed.
Lemma owned_make_chan x k n s : wf s → owned x (snd (make_chan k n s)) = owned x s.
Proof.
  intros Hwf. unfold owned. simpl. rewrite map_sum_insert_new; [done|]. by apply make_chan_new.
Qed.
Lemma owned_close_chan x c s : owned x (close_chan c s) = owned x s.
Proof.
  unfold close_chan. destruct (chans s !! c) as [ch|] eqn:Hc; [|done].
  destruct (cclosed ch); [done|].
  pose proof (owned_set_chan x c ch (ch <| cclosed := true |>) s Hc). simpl in *. lia.
Qed.
Lemma given_close_chan c s : given (close_chan c s) = given s.
Proof. unfold close_chan. destruct (chans s !! c) as [ch|]; [|done]. by destruct (cclosed ch). Qed.
Lemma vars_close_chan c s : vars (close_chan c s) = vars s.
Proof. unfold close_chan. destruct (chans s !! c) as [ch|]; [|done]. by destruct (cclosed ch). Qed.
Lemma fresh_close_chan c s : fresh (close_chan c s) = fresh s.
Proof. unfold close_chan. destruct (chans s !! c) as [ch|]; [|done]. by destruct (cclosed ch). Qed.
Lemma threads_close_chan c s : threads (close_chan c s) = threads s.
Proof. unfold close_chan. destruct (chans s !! c) as [ch|]; [|done]. by destruct (cclosed ch). Qed.

Lemma wf_go th s : wf s → wf (go th s).
Proof. apply advance_go. Qed.
Lemma wf_make_chan k n s : wf s → wf (snd (make_chan k n s)).
Proof. intros Hwf. by apply advance_make_chan. Qed.
Lemma wf_vars f s : wf s → wf (set_vars f s).
Proof. by apply advance_same. Qed.
Lemma wf_close_chan c s : wf s → wf (close_chan c s).
Proof. apply advance_close_chan. Qed.
Lemma wf_free l s : wf s → wf (free l s).
Proof. by apply advance_same. Qed.
Lemma wf_give l s : wf s → wf (give l s).
Proof. by apply advance_same. Qed.
Lemma wf_pass l s : wf s → wf (pass l s).
Proof. by apply advance_same. Qed.

Lemma typed_same s s' :
  chans s' = chans s → threads s' = threads s → vars s' = vars s → typed s → typed s'.
Proof. intros Hc Ht Hv [???]. by split; rewrite ?Hc, ?Ht, ?Hv. Qed.
Lemma typed_free l s : typed s → typed (free l s).
Proof. by apply typed_same. Qed.
Lemma typed_pass l s : typed s → typed (pass l s).
Proof. by apply typed_same. Qed.
Lemma typed_give l s : typed s → typed (give l s).
Proof. by apply typed_same. Qed.
Lemma typed_vars f s :
  typed s →
  (∀ c ch a, chans s !! c = Some ch → a ∈ ins ch →
     chan_type (vars s) c a → chan_type (f (vars s)) c a) →
  (∀ t th, threads s !! t = Some th → thread_type (vars s) t th → thread_type (f (vars s)) t th) →
  vars_type (f (vars s)) →
  typed (set_vars f s).
Proof. intros [Hc Ht Hv] Hc' Ht' Hv'. split; simpl; eauto. Qed.
Lemma typed_go th s : typed s → thread_type (vars s) (fresh s) th → typed (go th s).
Proof.
  intros [Hc Ht Hv] Hth. split; simpl; [done| |done].
  intros t th'. rewrite lookup_insert. case_decide; [|by apply Ht]. subst. by intros [= <-].
Qed.
Lemma typed_set_thread t th s : typed s → thread_type (vars s) t th → typed (set_thread t th s).
Proof.
  intros [Hc Ht Hv] Hth. split; simpl; [done| |done]. intros t' th'. rewrite lookup_insert.
  case_decide; [|by apply Ht]. subst. by intros [= <-].
Qed.
Lemma typed_make_chan k n s : typed s → typed (snd (make_chan k n s)).
Proof.
  intros [Hc Ht Hv]. split; simpl; [|done|done].
  intros c ch a. rewrite lookup_insert.
  case_decide; [|by apply Hc]. intros [= <-]. simpl. set_solver.
Qed.
Lemma typed_close_chan c s : typed s → typed (close_chan c s).
Proof.
  intros Hs. unfold close_chan. destruct (chans s !! c) as [ch|] eqn:Hc; [|by apply (typed_same s)].
  destruct (cclosed ch); [by apply (typed_same s)|].
  eapply typed_set_chan; [done..|]. by left.
Qed.

(** A step that keeps everything. *)
Record okstep s s' : Prop := {
  os_advance : advance s s';
  os_own : own_inv s → own_inv s';
  os_typed : typed s → typed s'
}.
#[export] Instance okstep_preorder : PreOrder okstep.
Proof.
  split; [by split|]. intros s1 s2 s3 [] []. split; [by etrans|auto|auto].
Qed.

(** The shared variables change; what is in the channels keeps its type. *)
Lemma okstep_vars_ins f s :
  (vars_type (vars s) → vars_type (f (vars s))) →
  (∀ c ch a, vars_type (vars s) → chans s !! c = Some ch → a ∈ ins ch →
     chan_type (vars s) c a → chan_type (f (vars s)) c a) →
  (∀ t th, vars_type (vars s) → threads s !! t = Some th →
     thread_type (vars s) t th → thread_type (f (vars s)) t th) →
  okstep s (set_vars f s).
Proof.
  intros Hv Hc Ht. split; [by apply advance_same|done|]. intros Hty.
  pose proof (ty_vars _ Hty). apply typed_vars; eauto.
Qed.
Lemma okstep_vars f s :
  (vars_type (vars s) → vars_type (f (vars s))) →
  (∀ c a, vars_type (vars s) → chan_type (vars s) c a → chan_type (f (vars s)) c a) →
  (∀ t th, vars_type (vars s) → threads s !! t = Some th →
     thread_type (vars s) t th → thread_type (f (vars s)) t th) →
  okstep s (set_vars f s).
Proof. intros Hv Hc Ht. apply okstep_vars_ins; eauto. Qed.

(** A goroutine that starts with what is given to it. *)
Lemma okstep_go th s :
  wf s → holds th = [] → (typed s → thread_type (vars s) (fresh s) th) → okstep s (go th s).
Proof.
  intros Hwf Hh Hth. split; [apply advance_go| |auto using typed_go].
  intros Ho x. rewrite owned_go, Hh, kocc_nil by done. specialize (Ho x). simpl. lia.
Qed.
Lemma okstep_make_chan k n s c s' :
  wf s → make_chan k n s = (c, s') →
  okstep s s' ∧ wf s' ∧ c = (k, fresh s) ∧ vars s' = vars s ∧ threads s' = threads s.
Proof.
  intros Hwf [= <- <-]. split_and!; try done.
  - split; [by apply advance_make_chan| |by apply typed_make_chan].
    intros Ho x. specialize (Ho x). pose proof (owned_make_chan x k n s Hwf). simpl in *. lia.
  - by apply (wf_make_chan k n).
Qed.
Lemma okstep_crash s : okstep s (s <| crashed := true |>).
Proof. split; [by apply advance_same|done|]. by apply typed_same. Qed.
Lemma okstep_close_chan c s : okstep s (close_chan c s).
Proof.
  split; [apply advance_close_chan| |apply typed_close_chan].
  intros Ho x. rewrite owned_close_chan, given_close_chan. apply Ho.
Qed.
(** Bookkeeping: [l] came in, some messages were freed or passed on. *)
Record accounts (l : list A) (more less : list A) s s1 : Prop := {
  ac_threads : threads s1 = threads s;
  ac_chans : chans s1 = chans s;
  ac_vars : vars s1 = vars s;
  ac_fresh : fresh s1 = fresh s;
  ac_given : given s1 = given s ++ l;
  ac_count x : kocc x more + kocc x (freed s1) + kocc x (passed s1) ≤
    kocc x less + kocc x l + kocc x (freed s) + kocc x (passed s)
}.

Lemma okstep_account l s s1 : accounts l [] [] s s1 → okstep s s1.
Proof.
  intros [Ht Hc Hv Hf Hg Hn]. split; [by apply advance_same| |by apply typed_same].
  intros Ho x. specialize (Ho x). specialize (Hn x). rewrite !kocc_nil in Hn.
  unfold owned in *. rewrite Hc, Ht, Hg, kocc_app. lia.
Qed.

(** A goroutine that goes on. *)
Lemma okstep_goto t th th' l s s1 :
  threads s !! t = Some th → accounts l (holds th') (holds th) s s1 →
  (typed s → thread_type (vars s) t th') → okstep s (set_thread t th' s1).
Proof.
  intros Ht [Hths Hcs Hv Hf Hg Hh] Hth. split.
  - transitivity s1; [by apply advance_same|].
    apply advance_set_thread. rewrite Hths. eauto.
  - intros Ho x. specialize (Ho x). specialize (Hh x).
    rewrite <-Hths in Ht. pose proof (owned_set_thread x t th th' s1 Ht) as H1.
    unfold owned in *. rewrite Hcs, Hths in *. simpl in *. rewrite Hg, kocc_app. lia.
  - intros Hty. apply typed_set_thread; [by apply (typed_same s)|]. rewrite Hv. auto.
Qed.
Lemma okstep_set_thread t th th' s :
  threads s !! t = Some th → (∀ x, kocc x (holds th') ≤ kocc x (holds th)) →
  (typed s → thread_type (vars s) t th') → okstep s (set_thread t th' s).
Proof.
  intros Ht Hh Hth. eapply (okstep_goto t th th' []); [done| |done]. split; try done.
  - by rewrite app_nil_r.
  - intros x. specialize (Hh x). lia.
Qed.

(** A goroutine that stops, or goes on empty-handed. *)
Lemma okstep_stop t th th' s :
  threads s !! t = Some th → holds th' = [] → (typed s → thread_type (vars s) t th') →
  okstep s (set_thread t th' s).
Proof. intros Ht Hh. eapply okstep_set_thread; [done|]. intros x. rewrite Hh, kocc_nil. lia. Qed.

(** A goroutine that starts. *)
Lemma okstep_spawn th l s s1 :
  wf s → accounts l (holds th) [] s s1 → (typed s → thread_type (vars s) (fresh s) th) →
  okstep s (go th s1).
Proof.
  intros Hwf [Hths Hcs Hv Hf Hg Hh] Hth.
  assert (advance s s1) as Ha by by apply advance_same. split.
  - transitivity s1; [done|apply advance_go].
  - intros Ho x. specialize (Ho x). specialize (Hh x). rewrite owned_go by (by apply Ha).
    rewrite kocc_nil in Hh. unfold owned in *. rewrite Hcs, Hths in *. simpl.
    rewrite Hg, kocc_app. lia.
  - intros Hty. apply typed_go; [by apply (typed_same s)|]. rewrite Hv, Hf. auto.
Qed.

(** A message that comes in and is put on a channel in a critical section. *)
Lemma okstep_send c a pk r s s' :
  chan_send c a pk r s = Some s' → (typed s → chan_type (vars s) c a) → okstep s (give [a] s').
Proof.
  intros Hs Ha. split.
  - transitivity s'; [by eapply advance_chan_send|by apply advance_same].
  - intros Ho x. specialize (Ho x). pose proof (owned_chan_send x _ _ _ _ _ _ Hs).
    rewrite owned_give. simpl. rewrite (given_chan_send _ _ _ _ _ _ Hs), kocc_app. lia.
  - intros Hty. apply typed_give. by eapply typed_send; eauto.
Qed.

(** ** What a case of a select does *)
Inductive case_done t (th : T) (i : nat) s : st → Prop :=
  | case_recv c ch a b :
      select th !! i = Some (ORecv c) → chans s !! c = Some ch → buf ch = a :: b →
      case_done t th i s
        (resume_thread t th (Some i) (Some a) (s <| chans ::= <[c := pop a b ch]> |>))
  | case_recv_closed c ch :
      select th !! i = Some (ORecv c) → chans s !! c = Some ch → buf ch = [] → cclosed ch = true →
      case_done t th i s (resume_thread t th (Some i) None s)
  | case_time :
      select th !! i = Some OTime → case_done t th i s (resume_thread t th (Some i) None s)
  | case_send_closed c ch a :
      select th !! i = Some (OSend c a) → chans s !! c = Some ch → cclosed ch = true →
      case_done t th i s (resume_thread t th (Some i) None (s <| crashed := true |>))
  | case_send c ch a :
      select th !! i = Some (OSend c a) → chans s !! c = Some ch → length (buf ch) < cap ch →
      case_done t th i s (resume_thread t th (Some i) None (s <| chans ::= <[c := push a ch]> |>))
  | case_hand c ch a t' th' j :
      select th !! i = Some (OSend c a) → chans s !! c = Some ch → cap ch = 0 → t' ≠ t →
      threads s !! t' = Some th' → select th' !! j = Some (ORecv c) →
      case_done t th i s
        (resume_thread t th (Some i) None
          (resume_thread t' th' (Some j) (Some a) (s <| chans ::= <[c := hand_over a ch]> |>))).

Lemma do_case_done t th i r s s' : do_case t th i r s = Some s' → case_done t th i s s'.
Proof.
  unfold do_case. destruct (select th !! i) as [[c|c a|]|] eqn:Hsel; simpl; try done.
  - destruct (chans s !! c) as [ch|] eqn:Hc; simpl; [|done]. destruct (buf ch) as [|a b] eqn:Hb.
    + intros [Hcl Hs]%guard_bind_Some. apply (inj Some) in Hs. subst s'. by eapply case_recv_closed.
    + intros Hs. apply (inj Some) in Hs. subst s'. by eapply case_recv.
  - intros [Hr Hs]%guard_bind_Some. apply bind_Some in Hs as (s1 & Hs1 & Hs). 
    apply (inj Some) in Hs. subst s'. revert Hs1. unfold chan_send.
    destruct (chans s !! c) as [ch|] eqn:Hc; simpl; [|done].
    destruct (cclosed ch) eqn:Hcl.
    { intros Hs. apply (inj Some) in Hs. subst s1. by eapply case_send_closed. }
    case_decide as Hl.
    { intros Hs. apply (inj Some) in Hs. subst s1. by eapply case_send. }
    case_decide as Hcap; [|done]. destruct r as [[t' j]|]; simpl; [|done].
    destruct (threads s !! t') as [th'|] eqn:Ht; simpl; [|done].
    destruct (select th' !! j) as [[c'|c' x|]|] eqn:Hsel'; try done.
    intros [[-> _] Hs]%guard_bind_Some. apply (inj Some) in Hs. subst s1.
    eapply case_hand; try done. intros ->. by apply Hr.
  - intros Hs. apply (inj Some) in Hs. subst s'. by apply case_time.
Qed.

Lemma chans_resume t th i v s : chans (resume_thread t th i v s) = chans s.
Proof. unfold resume_thread. by destruct (resume th i v). Qed.
Lemma threads_resume_eq t th i v s :
  threads (resume_thread t th i v s) !! t = Some (fst (resume th i v)).
Proof. unfold resume_thread. destruct (resume th i v). apply lookup_insert_eq. Qed.
Lemma vars_resume t th i v s : vars (resume_thread t th i v s) = vars s.
Proof. unfold resume_thread. by destruct (resume th i v). Qed.

(** Where the goroutines are after it, and what the channels hold. *)
Definition contents s c : list A := default [] (buf <$> chans s !! c).

Lemma vars_do_case t th i s s' : case_done t th i s s' → vars s' = vars s.
Proof.
  intros []; unfold resume_thread; repeat destruct (resume _ _ _); done.
Qed.
(** Only the critical sections change the shared variables. *)
Lemma gstep_vars {E} (ext : E → st → option st) l s s' :
  gstep ext l s = Some s' → vars s' = vars s ∨ ∃ e, l = LExt e ∧ ext e s = Some s'.
Proof.
  intros [_ Hs]%guard_bind_Some. destruct l as [t i r|t|e]; [left..|right; by exists e].
  - apply bind_Some in Hs as (th & _ & Hs). by apply do_case_done, vars_do_case in Hs.
  - apply bind_Some in Hs as (th & _ & [_ Hs]%guard_bind_Some). apply (inj Some) in Hs. subst s'.
    apply vars_resume.
Qed.
Lemma gstep_ext {E} (ext : E → st → option st) e s s' :
  gstep ext (LExt e) s = Some s' → ext e s = Some s'.
Proof. by intros [_ Hs]%guard_bind_Some. Qed.
Lemma passed_do_case t th i s s' : case_done t th i s s' → passed s' = passed s.
Proof. intros []; unfold resume_thread; repeat destruct (resume _ _ _); done. Qed.
Lemma passed_close_chan c s : passed (close_chan c s) = passed s.
Proof. unfold close_chan. destruct (chans s !! c) as [ch|]; [|done]. by destruct (cclosed ch). Qed.
Lemma do_case_threads t th i s s' k th' :
  threads s !! t = Some th → case_done t th i s s' → threads s' !! k = Some th' →
  threads s !! k = Some th' ∨
  ∃ th0 j o v, threads s !! k = Some th0 ∧ select th0 !! j = Some o ∧
    (k = t → j = i) ∧ (k ≠ t → ∃ c, o = ORecv c) ∧ th' = fst (resume th0 (Some j) v).
Proof.
  intros Ht Hd.
  assert (∀ s1 v, is_Some (select th !! i) →
    threads (resume_thread t th (Some i) v s1) !! t = Some th' →
    ∃ th0 j o v, threads s !! t = Some th0 ∧ select th0 !! j = Some o ∧
      (t = t → j = i) ∧ (t ≠ t → ∃ c, o = ORecv c) ∧ th' = fst (resume th0 (Some j) v)) as Hres.
  { intros s1 v [o Ho]. rewrite threads_resume_eq. intros [= <-]. naive_solver. }
  destruct (decide (k = t)) as [->|].
  - intros Hk. right.
    destruct Hd as [c ch a b Hsel|c ch Hsel|Hsel|c ch a Hsel|c ch a Hsel|c ch a t' x j Hsel];
      (eapply Hres; [by rewrite Hsel|exact Hk]).
  - destruct Hd as [c ch a b Hsel|c ch Hsel|Hsel|c ch a Hsel|c ch a Hsel|c ch a t' x j Hsel Hch Hcap Hne Ht' Hsel'];
      rewrite threads_resume by done; try (by left).
    destruct (decide (k = t')) as [->|].
    + rewrite threads_resume_eq. intros [= <-]. right. naive_solver.
    + rewrite threads_resume by done. by left.
Qed.
(** A goroutine that no [select] moves out of [Q], and no critical section. *)
Lemma do_case_follows (Q : T → Prop) t th i s s' k th' :
  (∀ th i v, Q th → Q (fst (resume th i v))) →
  threads s !! t = Some th → case_done t th i s s' → threads s !! k = Some th' → Q th' →
  ∃ th'', threads s' !! k = Some th'' ∧ Q th''.
Proof.
  intros Hq Ht Hd Hk HQ.
  assert (∀ s1 v, (∃ th'', threads s1 !! k = Some th'' ∧ Q th'') →
    ∃ th'', threads (resume_thread t th (Some i) v s1) !! k = Some th'' ∧ Q th'') as Hres.
  { intros s1 v Hs1. destruct (decide (k = t)) as [->|].
    - rewrite threads_resume_eq. simplify_eq. eauto.
    - rewrite threads_resume by done. exact Hs1. }
  destruct Hd as [| | | | |c ch a t' x j Hsel Hch Hcap Hne Ht' Hsel']; try (apply Hres; by eauto).
  apply Hres. destruct (decide (k = t')) as [->|].
  - rewrite threads_resume_eq. simplify_eq. eauto.
  - rewrite threads_resume by done. eauto.
Qed.
Lemma gstep_follows {E} (ext : E → st → option st) (Q : T → Prop) l s s' k th :
  (∀ th i v, Q th → Q (fst (resume th i v))) →
  (∀ e s', ext e s = Some s' → ∃ th', threads s' !! k = Some th' ∧ Q th') →
  gstep ext l s = Some s' → threads s !! k = Some th → Q th →
  ∃ th', threads s' !! k = Some th' ∧ Q th'.
Proof.
  intros Hq He [_ Hs]%guard_bind_Some Hk HQ. destruct l as [t i r|t|e]; [..|by eapply He].
  - apply bind_Some in Hs as (th0 & Ht & Hs). apply do_case_done in Hs.
    exact (do_case_follows Q t th0 i s s' k th Hq Ht Hs Hk HQ).
  - apply bind_Some in Hs as (th0 & Ht & [_ Hs]%guard_bind_Some). apply (inj Some) in Hs. subst s'.
    destruct (decide (k = t)) as [->|].
    + rewrite threads_resume_eq. simplify_eq. eauto.
    + rewrite threads_resume by done. eauto.
Qed.
Lemma do_case_idle t th i s s' k th' :
  threads s !! t = Some th → case_done t th i s s' → threads s !! k = Some th' → select th' = [] →
  threads s' !! k = Some th'.
Proof.
  intros Ht Hd Hk Hs.
  assert (is_Some (select th !! i) → k ≠ t) as Hkt.
  { intros [o Ho] ->. simplify_eq. by rewrite Hs in Ho. }
  destruct Hd as [c ch a b Hsel|c ch Hsel|Hsel|c ch a Hsel|c ch a Hsel|c ch a t' x j Hsel Hch Hcap Hne Ht' Hsel'];
    try (rewrite threads_resume; [done|apply Hkt; by eauto]).
  rewrite threads_resume by (apply Hkt; by eauto). rewrite threads_resume; [done|].
  intros ->. simplify_eq. by rewrite Hs in Hsel'.
Qed.
Lemma contents_insert c c' ch s :
  contents (s <| chans ::= <[c := ch]> |>) c' = if decide (c = c') then buf ch else contents s c'.
Proof. unfold contents. simpl. rewrite lookup_insert. by case_decide. Qed.
Lemma contents_resume t th i v s c : contents (resume_thread t th i v s) c = contents s c.
Proof. unfold contents. by rewrite chans_resume. Qed.
Lemma contents_same s s' c : chans s' = chans s → contents s' c = contents s c.
Proof. unfold contents. by intros ->. Qed.
Lemma contents_make_chan k n s c : wf s → contents (snd (make_chan k n s)) c = contents s c.
Proof.
  intros Hwf. unfold contents. simpl. rewrite lookup_insert. case_decide; [|done]. subst.
  by rewrite make_chan_new.
Qed.
Lemma contents_close_chan k s c : contents (close_chan k s) c = contents s c.
Proof.
  unfold close_chan. destruct (chans s !! k) as [ch|] eqn:Hk; [|done].
  destruct (cclosed ch); [done|]. rewrite contents_insert. case_decide; [|done].
  subst. unfold contents. by rewrite Hk.
Qed.
(** What was ever sent on a channel. *)
Definition sent_on s c : list A := default [] (ins <$> chans s !! c).
Lemma do_case_sent t th i s s' c :
  case_done t th i s s' →
  sent_on s' c = sent_on s c ∨
  (∃ a, sent_on s' c = sent_on s c ++ [a] ∧ select th !! i = Some (OSend c a)).
Proof.
  intros Hd. unfold sent_on.
  destruct Hd as [c' ch a b Hsel Hch|c' ch Hsel Hch|Hsel|c' ch a Hsel Hch|c' ch a Hsel Hch|c' ch a t' x j Hsel Hch];
    rewrite ?chans_resume; try (by left); simpl; rewrite lookup_insert;
    (case_decide; [subst|by left]); rewrite Hch; simpl; naive_solver.
Qed.
(** Whether a channel is closed. *)
Definition shut s c : bool := default false (cclosed <$> chans s !! c).
Lemma do_case_shut t th i s s' c : case_done t th i s s' → shut s' c = shut s c.
Proof.
  intros Hd. unfold shut.
  destruct Hd as [c' ch a b Hsel Hch|c' ch Hsel Hch|Hsel|c' ch a Hsel Hch|c' ch a Hsel Hch|c' ch a t' x j Hsel Hch];
    rewrite ?chans_resume; try done; simpl; rewrite lookup_insert;
    (case_decide; [subst; by rewrite Hch|done]).
Qed.
Lemma shut_close_chan c c' s : c' ≠ c → shut (close_chan c' s) c = shut s c.
Proof.
  intros Hne. unfold shut, close_chan. destruct (chans s !! c') as [ch|]; [|done].
  destruct (cclosed ch); [done|]. simpl. by rewrite lookup_insert_ne.
Qed.
Lemma shut_make_chan k n s c : wf s → shut (snd (make_chan k n s)) c = shut s c.
Proof.
  intros Hwf. unfold shut. simpl. rewrite lookup_insert. case_decide; [|done]. subst.
  by rewrite make_chan_new.
Qed.
(** [close] on a channel that is there. *)
Lemma shut_close_chan_at c c' s :
  is_Some (chans s !! c) → shut (close_chan c s) c' = (if decide (c' = c) then true else shut s c').
Proof.
  intros [ch Hch]. unfold shut, close_chan. rewrite Hch. destruct (cclosed ch) eqn:Hcl; cbn.
  - case_decide; [|done]. subst. rewrite Hch. done.
  - rewrite lookup_insert. destruct (decide (c = c')) as [<-|]; [by rewrite decide_True|].
    by rewrite decide_False.
Qed.
Lemma crashed_close_chan c s :
  is_Some (chans s !! c) → shut s c = false → crashed (close_chan c s) = crashed s.
Proof. intros [ch Hch]. unfold shut, close_chan. rewrite Hch. cbn. by intros ->. Qed.
Lemma chans_close_chan c c' s : is_Some (chans s !! c') → is_Some (chans (close_chan c s) !! c').
Proof.
  intros Hc. unfold close_chan. destruct (chans s !! c); [|done]. destruct (cclosed _); [done|].
  simpl. rewrite lookup_insert. by case_decide.
Qed.
Lemma freed_close_chan c s : freed (close_chan c s) = freed s.
Proof. unfold close_chan. destruct (chans s !! c) as [ch|]; [|done]. by destruct (cclosed ch). Qed.
(** A send on an open channel gets through. *)
Lemma do_case_send_open t th i c a s s' :
  case_done t th i s s' → select th !! i = Some (OSend c a) → shut s c = false →
  sent_on s' c = sent_on s c ++ [a].
Proof.
  intros Hd Hs Hc.
  destruct Hd as [c' ch a' b Hsel Hch|c' ch Hsel Hch|Hsel|c' ch a' Hsel Hch Hcl|c' ch a' Hsel Hch|c' ch a' t' x j Hsel Hch];
    simplify_eq; unfold sent_on; rewrite ?chans_resume; simpl; rewrite ?lookup_insert_eq, ?Hch; try done.
  unfold shut in Hc. rewrite Hch in Hc. simpl in Hc. congruence.
Qed.
Lemma do_case_contents t th i s s' c :
  case_done t th i s s' →
  contents s' c = contents s c ∨
  (∃ a, contents s c = a :: contents s' c ∧ select th !! i = Some (ORecv c)) ∨
  (∃ a, contents s' c = contents s c ++ [a] ∧ select th !! i = Some (OSend c a)).
Proof.
  intros Hd.
  destruct Hd as [c' ch a b Hsel Hch|c' ch Hsel Hch|Hsel|c' ch a Hsel Hch|c' ch a Hsel Hch|c' ch a t' x j Hsel Hch];
    rewrite ?contents_resume; try (by left);
    (rewrite contents_insert; case_decide; [subst|by left]); unfold contents;
    rewrite Hch; simpl; naive_solver.
Qed.

(** Nothing is added to the channels that are there. *)
Definition shrinks s s' : Prop :=
  ∀ c ch, chans s !! c = Some ch →
    ∃ ch', chans s' !! c = Some ch' ∧ cap ch' = cap ch ∧ length (buf ch') ≤ length (buf ch).
#[export] Instance shrinks_preorder : PreOrder shrinks.
Proof.
  split.
  - intros s c ch Hc. by exists ch.
  - intros s1 s2 s3 H12 H23 c ch Hc. destruct (H12 c ch Hc) as (ch2 & Hc2 & ? & ?).
    destruct (H23 c ch2 Hc2) as (ch3 & Hc3 & ? & ?). exists ch3. split_and!; [done|congruence|lia].
Qed.
Lemma shrinks_same s s' : chans s' = chans s → shrinks s s'.
Proof. intros Heq c ch. rewrite Heq. by exists ch. Qed.
Lemma shrinks_make_chan k n s : wf s → shrinks s (snd (make_chan k n s)).
Proof.
  intros Hwf c ch Hc. exists ch. split; [|done]. simpl. rewrite lookup_insert_ne; [done|].
  intros <-. by rewrite make_chan_new in Hc.
Qed.
Lemma shrinks_set_chan c ch ch' s :
  chans s !! c = Some ch → cap ch' = cap ch → length (buf ch') ≤ length (buf ch) →
  shrinks s (s <| chans ::= <[c := ch']> |>).
Proof.
  intros Hc Hcap Hl k x Hk. simpl. rewrite lookup_insert. case_decide; [|by exists x].
  subst. simplify_eq. by exists ch'.
Qed.
Lemma shrinks_close_chan c s : shrinks s (close_chan c s).
Proof.
  unfold close_chan. destruct (chans s !! c) as [ch|] eqn:Hc; [|by apply shrinks_same].
  destruct (cclosed ch); [by apply shrinks_same|]. by eapply shrinks_set_chan.
Qed.

(** Nothing is sent: what was sent to the channels that are there stays the
    same, new channels have seen nothing. *)
Definition still s s' : Prop :=
  (∀ c ch, chans s !! c = Some ch → ∃ ch', chans s' !! c = Some ch' ∧ ins ch' = ins ch) ∧
  (∀ c ch', chans s' !! c = Some ch' → is_Some (chans s !! c) ∨ ins ch' = []).
#[export] Instance still_preorder : PreOrder still.
Proof.
  split.
  - intros s. split; [by eauto|]. intros c ch' ->. by left.
  - intros s1 s2 s3 [H12 N12] [H23 N23]. split.
    + intros c ch Hc. destruct (H12 c ch Hc) as (ch2 & Hc2 & <-). by apply H23.
    + intros c ch3 Hc3. destruct (N23 c ch3 Hc3) as [[ch2 Hc2]|?]; [|by right].
      destruct (N12 c ch2 Hc2) as [?|Hn]; [by left|right].
      destruct (H23 c ch2 Hc2) as (ch' & Hc' & E). simplify_eq. congruence.
Qed.
Lemma still_same s s' : chans s' = chans s → still s s'.
Proof. intros E. unfold still. rewrite E. split; [by eauto|]. intros c ch ->. by left. Qed.
Lemma still_sent s s' c : still s s' → sent_on s' c = sent_on s c.
Proof.
  intros [H1 H2]. unfold sent_on. destruct (chans s !! c) as [ch|] eqn:Hc.
  - destruct (H1 _ _ Hc) as (ch' & -> & E). simpl. done.
  - destruct (chans s' !! c) as [ch'|] eqn:Hc'; [|done].
    destruct (H2 _ _ Hc') as [[? ?]|E]; [congruence|]. done.
Qed.
Lemma still_make_chan k n s : wf s → still s (snd (make_chan k n s)).
Proof.
  intros Hwf. split.
  - intros c ch Hc. exists ch. split; [|done]. simpl. rewrite lookup_insert_ne; [done|].
    intros <-. by rewrite make_chan_new in Hc.
  - intros c ch'. simpl. rewrite lookup_insert. case_decide; [|by left].
    intros [= <-]. by right.
Qed.
Lemma still_set_chan c ch ch' s :
  chans s !! c = Some ch → ins ch' = ins ch → still s (s <| chans ::= <[c := ch']> |>).
Proof.
  intros Hc Hi. split; simpl.
  - intros k x Hk. rewrite lookup_insert. case_decide; [|by eauto]. simplify_eq. eauto.
  - intros k x. rewrite lookup_insert. case_decide; [|by left]. intros _. left. subst. by rewrite Hc.
Qed.
Lemma still_close_chan c s : still s (close_chan c s).
Proof.
  unfold close_chan. destruct (chans s !! c) as [ch|] eqn:Hc; [|by apply still_same].
  destruct (cclosed ch); [by apply still_same|]. by eapply still_set_chan.
Qed.

(** ** Good states *)
Definition refs_unique s : Prop := NoDup (key <$> given s).

(** A message has one owner at most. *)
Lemma unique_owner s x : own_inv s → refs_unique s → owned x s ≤ 1.
Proof.
  intros Ho Hu. specialize (Ho x). unfold kocc in Ho. pose proof (occ_NoDup x _ Hu). lia.
Qed.

(** Counting some of the holders. *)
Lemma few_holders f x s :
  (∀ th, f th ≤ kocc x (holds th)) → own_inv s → refs_unique s →
  map_sum f (threads s) + kocc x (passed s) ≤ 1.
Proof.
  intros Hf Ho Hu. pose proof (unique_owner s x Ho Hu) as Hx1. unfold owned in Hx1.
  pose proof (map_sum_le f (λ th, kocc x (holds th)) (threads s) Hf). lia.
Qed.
(** What a goroutine holds is nowhere else. *)
Lemma kocc_elem_of a (l : list A) : a ∈ l → 0 < kocc (key a) l.
Proof. intros Ha. apply occ_elem_of. by apply list_elem_of_fmap_2. Qed.
Lemma sole_owner t th a s :
  own_inv s → refs_unique s → threads s !! t = Some th → a ∈ holds th →
  (∀ c, a ∉ contents s c) ∧ a ∉ freed s ∧
  ∀ t' th', threads s !! t' = Some th' → a ∈ holds th' → t' = t.
Proof.
  intros Ho Hu Ht Ha. pose proof (unique_owner s (key a) Ho Hu) as H1. unfold owned in H1.
  rewrite (map_sum_delete _ _ _ _ Ht) in H1. pose proof (kocc_elem_of _ _ Ha) as Hh. split_and!.
  - intros c Hc. unfold contents in Hc. destruct (chans s !! c) as [ch|] eqn:Hch; [|simpl in Hc; set_solver].
    pose proof (map_sum_ge (λ ch, kocc (key a) (buf ch)) (chans s) c ch Hch) as H2.
    pose proof (kocc_elem_of _ _ Hc). simpl in *. lia.
  - intros Hf%kocc_elem_of. lia.
  - intros t' th' Ht' Ha'. destruct (decide (t' = t)) as [|Hne]; [done|exfalso].
    pose proof (map_sum_ge (λ th, kocc (key a) (holds th)) (delete t (threads s)) t' th') as H2.
    rewrite lookup_delete_ne in H2 by done. specialize (H2 Ht').
    pose proof (kocc_elem_of _ _ Ha'). simpl in *. lia.
Qed.
Lemma refs_unique_give a s s' :
  given s' = given s ++ [a] → key a ∉ key <$> given s → refs_unique s → refs_unique s'.
Proof.
  unfold refs_unique. intros -> Hm Hn. rewrite fmap_app. apply NoDup_app.
  split_and!; [done| |apply NoDup_singleton]. intros x Hx ->%list_elem_of_singleton. done.
Qed.

Record good s : Prop := { good_wf : wf s; good_own : own_inv s; good_typed : typed s }.

(** A state with empty channels and no goroutine. *)
Lemma good_start σ cs n :
  map_Forall (λ c ch, c.2 < n ∧ buf ch = [] ∧ ins ch = [] ∧ outs ch = []) cs → vars_type σ →
  good (mkSt σ cs ∅ n [] [] [] false).
Proof.
  intros Hcs Hv. split.
  - split; simpl.
    + intros c ch (_ & Hb & Hi & Ho)%Hcs. split; rewrite Hb; [by rewrite Hi, Ho|simpl; lia].
    + intros c [ch (? & _)%Hcs]. done.
    + by intros t [? ?].
  - intros x. unfold owned. simpl. rewrite map_sum_empty, !kocc_nil.
    enough (map_sum (λ ch, kocc x (buf ch)) cs = 0) by lia.
    clear Hv. induction cs as [|c ch cs Hc IH] using map_ind; [apply map_sum_empty|].
    rewrite map_sum_insert_new by done. apply map_Forall_insert in Hcs as [(_ & Hb & _) Hcs]; [|done].
    by rewrite Hb, kocc_nil, IH.
  - split; simpl; [|done|done]. intros c ch a (_ & _ & Hi & _)%Hcs. rewrite Hi. set_solver.
Qed.

(** ** Every program *)
Section Program.
Context {E : Type} (ext : E → st → option st).

(** What a program's critical sections must keep. *)
Class ExtOk := ext_ok e s s' : wf s → typed s → ext e s = Some s' → okstep s s'.
Context `{!ExtOk}.

Lemma gstep_ok l s s' : wf s → typed s → gstep ext l s = Some s' → okstep s s'.
Proof.
  intros Hwf Hty [_ Hs]%guard_bind_Some. destruct l as [t i r|t|e]; [..|by eapply ext_ok].
  - apply bind_Some in Hs as (th & Ht & Hs). split.
    + by eapply advance_do_case.
    + by eapply own_do_case.
    + by eapply typed_do_case.
  - apply bind_Some in Hs as (th & Ht & [[Hd _] Hs]%guard_bind_Some).
    apply (inj Some) in Hs. subst s'. split.
    + by apply advance_resume.
    + intros Hinv x. specialize (Hinv x). rewrite given_resume.
      pose proof (owned_resume x t th None None s Ht) as Ho1.
      pose proof (owns_default th x Hd) as Ho2. destruct (resume th None None) as [th' fr]. lia.
    + intros _. apply typed_resume; [done|]. apply typed_default; [done|by eapply ty_thread].
Qed.

(** Only the critical sections bring messages in. *)
Lemma given_do_case t th i r s s' : do_case t th i r s = Some s' → given s' = given s.
Proof.
  unfold do_case. destruct (select th !! i) as [[c|c a|]|]; simpl; try done.
  - destruct (chans s !! c) as [ch|]; simpl; [|done]. destruct (buf ch).
    + intros [_ Hs]%guard_bind_Some. apply (inj Some) in Hs. subst. by rewrite given_resume.
    + intros Hs. apply (inj Some) in Hs. subst. by rewrite given_resume.
  - intros [Hr Hs]%guard_bind_Some. apply bind_Some in Hs as (s1 & Hs & Hs'). 
    apply (inj Some) in Hs'. subst. rewrite given_resume. by eapply given_chan_send.
  - intros Hs. apply (inj Some) in Hs. subst. by rewrite given_resume.
Qed.

Lemma gstep_refs_unique l s s' :
  (∀ e, ext e s = Some s' → refs_unique s → refs_unique s') →
  gstep ext l s = Some s' → refs_unique s → refs_unique s'.
Proof.
  intros He [_ Hs]%guard_bind_Some. unfold refs_unique. destruct l as [t i r|t|e].
  - apply bind_Some in Hs as (th & Ht & Hs). by rewrite (given_do_case _ _ _ _ _ _ Hs).
  - apply bind_Some in Hs as (th & Ht & [_ Hs]%guard_bind_Some).
    apply (inj Some) in Hs. subst. by rewrite given_resume.
  - by apply (He e).
Qed.

(** The states a program reaches. *)
Definition gok (ok : st → E → Prop) s (l : label E) : Prop :=
  match l with LExt e => ok s e | _ => True end.

Lemma reachable_good (init : st → Prop) ok s :
  (∀ s, init s → good s) → reachable (gstep ext) init (gok ok) s → good s.
Proof.
  intros Hi Hr. revert s Hr. apply (reachable_invariant _ _ _ good); [done|].
  intros l s0 s1 [Hwf Hown Hty] _ Hs. destruct (gstep_ok _ _ _ Hwf Hty Hs) as [Ha Ho Ht].
  split; [by apply Ha|auto|auto].
Qed.
Lemma reachable_good_unique (init : st → Prop) ok s :
  (∀ s, init s → good s ∧ refs_unique s) →
  (∀ e s s', ext e s = Some s' → refs_unique s → refs_unique s') →
  reachable (gstep ext) init (gok ok) s → good s ∧ refs_unique s.
Proof.
  intros Hi He Hr. split.
  - eapply reachable_good; [|exact Hr]. apply Hi.
  - revert s Hr. apply (reachable_invariant _ _ _ refs_unique); [apply Hi|].
    intros l s s' Hu _ Hs. eapply gstep_refs_unique; [|exact Hs|done]. intros e. apply He.
Qed.
End Program.
End Machine.

(** What a critical section does to the shared variables: the cases of
    [ext e s = Some s'], and the fields it leaves alone. *)
Ltac unfold_ext Hs :=
  repeat first
    [ apply guard_bind_Some in Hs as [_ Hs]
    | apply bind_Some in Hs as (? & _ & Hs)
    | match type of Hs with match ?x with _ => _ end = Some _ => destruct x; try discriminate Hs end
    | apply (inj Some) in Hs ].
Ltac frame_vars :=
  cbn; repeat case_match; cbn; rewrite ?vars_close_chan; cbn; first [by left|idtac].

Arguments LCase {E}. Arguments LDefault {E}. Arguments LExt {E}.
#[global] Hint Mode Program - - + : typeclass_instances.

(** Ownership of a state built from the primitives. *)
Create HintDb chan.
#[export] Hint Rewrite @owned_vars @owned_free @owned_pass @owned_give @owned_close_chan
  @given_close_chan @vars_close_chan @threads_close_chan @kocc_nil @kocc_app @kocc_cons
  @given_resume : chan.
#[export] Hint Resolve wf_go wf_make_chan wf_vars wf_close_chan wf_free wf_give wf_pass
  typed_free typed_pass typed_give typed_go typed_set_thread typed_make_chan typed_close_chan
  advance_go advance_close_chan advance_make_chan : chan.

(** The cases of a [select]: from [H : [o1; ...; on] !! i = Some o]. *)
Ltac select_cases H :=
  lazymatch type of H with
  | (_ :: _) !! ?i = Some _ =>
      rewrite lookup_cons in H; destruct i as [|i];
      [apply (inj Some) in H; subst|select_cases H]
  | [] !! _ = Some _ => by rewrite lookup_nil in H
  end.

#[global] Arguments kocc : simpl never.

(** The channels a protocol starts with. *)
Ltac start_good :=
  apply good_start;
  [repeat first [apply map_Forall_empty|apply map_Forall_insert_2; [by split_and!; simpl; try lia|]
     |apply map_Forall_singleton; by split_and!; simpl; try lia]|].
