(* ===== verification/Backtrace.v ===== *)
(** * Backtrace: the routing headers of request/reply and survey

    Raw sockets put the ID of the pipe a message came from in front of it; a
    device therefore leaves a stack of pipe IDs, ending in the request ID,
    whose top bit is set.  Here are the loops that move this stack from the
    body to the header ([receiver] of [xrep], [rep], [xrespondent],
    [respondent]) and those that pop it, on message values; [XRep], [XReq]
    and [Rep] use them. *)
From stdpp Require Import gmap list strings fin_maps.
From Stdlib Require Import ZArith Lia.
From S2P Require Import Prelude Types Chan.

Abbreviation bytes := (list Byte.byte).

(** A message by value: what [Message.v] keeps in the store; [mref] is its
    identity there. *)
Record msg := mkMsg { mhdr : bytes; mbody : bytes; mpipe : option Z; mref : nat }.
#[export] Instance eta_msg : Eta msg := λ m, mkMsg (mhdr m) (mbody m) (mpipe m) (mref m).
#[export] Instance msg_eq_dec : EqDecision msg.
Proof. solve_decision. Defined.

#[export] Instance msg_keyed : Keyed msg := mref.

(** Counting references to messages. *)
Ltac owns_lia :=
  cbn; autorewrite with chan; unfold key, msg_keyed; cbn; repeat case_match; (lia || congruence).

Ltac count := let x := fresh "x" in intros x; owns_lia.
Ltac accounting := split; [reflexivity..|cbn; by rewrite ?app_nil_r|count].

(** What a pipe writes for a message, and the message it makes of it. *)
Definition wire (m : msg) : bytes := mhdr m ++ mbody m.
Definition unwire (p : Z) (b : bytes) : msg := mkMsg [] b (Some p) 0.

(** [m.Header = append(m.Header, m.Body[:4]...); m.Body = m.Body[4:]] *)
Definition shift4 (m : msg) : msg :=
  m <| mhdr ::= (λ h, h ++ take 4 (mbody m)) |> <| mbody := drop 4 (mbody m) |>.

(** [m.Body[0]&0x80 != 0] *)
Definition top_bit (b : bytes) : bool := match b with x :: _ => high_bit x | [] => false end.

(** [xrep] [receiver]: the inner loop; [None] says the message is freed.
    Every pass but the last shortens the body, so its length bounds the
    number of passes. *)
Fixpoint xrep_walk (fuel : nat) (hops ttl : Z) (m : msg) : option msg :=
  match fuel with
  | O => None
  | S fuel =>
      if decide (ttl < hops)%Z then None
      else if decide (length (mbody m) < 4) then None
      else
        let finish := top_bit (mbody m) in
        let m := shift4 m in
        if finish then Some m else xrep_walk fuel (hops + 1) ttl m
  end.
(** From the message that arrived on pipe [p]. *)
Definition xrep_receive (ttl p : Z) (m : msg) : option msg :=
  let m := m <| mhdr ::= (λ h, put_uint32 p ++ h) |> in
  xrep_walk (S (length (mbody m))) 1 ttl m.

(** [rep] and [respondent] [receiver]: the same loop, which looks at the
    word after moving it. *)
Fixpoint rep_walk (fuel : nat) (hops ttl : Z) (m : msg) : option msg :=
  match fuel with
  | O => None
  | S fuel =>
      if decide (ttl <= hops)%Z then None
      else if decide (length (mbody m) < 4) then None
      else
        let m := shift4 m in
        if top_bit (drop (length (mhdr m) - 4) (mhdr m)) then Some m
        else rep_walk fuel (hops + 1) ttl m
  end.
Definition rep_receive (ttl : Z) (m : msg) : option msg :=
  rep_walk (S (length (mbody m))) 0 ttl m.

(** [xrespondent] [receiver]. *)
Fixpoint xrespondent_walk (fuel : nat) (hops ttl : Z) (m : msg) : option msg :=
  match fuel with
  | O => None
  | S fuel =>
      if decide (ttl <= hops)%Z then None
      else if decide (length (mbody m) < 4) then None
      else
        let finish := top_bit (mbody m) in
        let m := shift4 m in
        if finish then Some m else xrespondent_walk fuel (hops + 1) ttl m
  end.
Definition xrespondent_receive (ttl p : Z) (m : msg) : option msg :=
  if decide (length (mbody m) < 4) then None
  else
    let m := m <| mhdr ::= (λ h, put_uint32 p ++ h) |> in
    xrespondent_walk (S (length (mbody m))) 1 ttl m.

(** [xreq] [receiver]: one word. *)
Definition xreq_receive (m : msg) : option msg :=
  if decide (length (mbody m) < 4) then None
  else Some (m <| mhdr := take 4 (mbody m) |> <| mbody := drop 4 (mbody m) |>).

(** [xrep] [SendMsg]: the pipe to send to, and the message without that
    word; [None] says the message is freed. *)
Definition xrep_route (m : msg) : option (Z * msg) :=
  if decide (length (mhdr m) < 4) then None
  else Some (uint32_of (take 4 (mhdr m)), m <| mhdr ::= drop 4 |>).

(** ** Well-formed backtraces *)

(** At most [n] words without the top bit, then one with it. *)
Fixpoint split_trace (n : nat) (b : bytes) : option (bytes * bytes) :=
  match n with
  | O => None
  | S n =>
      if decide (length b < 4) then None
      else if top_bit b then Some (take 4 b, drop 4 b)
      else '(t, r) ← split_trace n (drop 4 b); Some (take 4 b ++ t, r)
  end.

(** The message with a backtrace moved to the header. *)
Definition with_trace (m : msg) (tr : option (bytes * bytes)) : option msg :=
  '(t, r) ← tr; Some (m <| mhdr ::= (λ h, h ++ t) |> <| mbody := r |>).

Lemma top_bit_take b : top_bit (take 4 b) = top_bit b.
Proof. by destruct b. Qed.

Lemma shift4_last m :
  4 ≤ length (mbody m) →
  drop (length (mhdr (shift4 m)) - 4) (mhdr (shift4 m)) = take 4 (mbody m).
Proof.
  intros Hl. simpl. rewrite length_app, length_take_le by done.
  by rewrite Nat.add_sub, drop_app_length.
Qed.

Lemma with_trace_shift m n :
  with_trace (shift4 m) (split_trace n (mbody (shift4 m))) =
  with_trace m ('(t, r) ← split_trace n (drop 4 (mbody m)); Some (take 4 (mbody m) ++ t, r)).
Proof.
  simpl. destruct (split_trace n _) as [[t r]|]; simpl; [|done].
  by rewrite app_assoc.
Qed.

(** The three loops split off a backtrace; they differ in its length. *)
Lemma xrep_walk_spec fuel hops ttl m :
  length (mbody m) < fuel →
  xrep_walk fuel hops ttl m = with_trace m (split_trace (Z.to_nat (ttl + 1 - hops)) (mbody m)).
Proof.
  revert hops m. induction fuel as [|fuel IH]; intros hops m Hf; [lia|]. cbn [xrep_walk].
  case_decide as Ht.
  { replace (Z.to_nat (ttl + 1 - hops)) with 0 by lia. done. }
  replace (Z.to_nat (ttl + 1 - hops)) with (S (Z.to_nat (ttl + 1 - (hops + 1)))) by lia.
  cbn [split_trace]. case_decide as Hl; [done|]. destruct (top_bit (mbody m)); [done|].
  rewrite IH, with_trace_shift; [done|]. simpl. rewrite length_drop. lia.
Qed.

Lemma xrespondent_walk_spec fuel hops ttl m :
  length (mbody m) < fuel →
  xrespondent_walk fuel hops ttl m = with_trace m (split_trace (Z.to_nat (ttl - hops)) (mbody m)).
Proof.
  revert hops m. induction fuel as [|fuel IH]; intros hops m Hf; [lia|]. cbn [xrespondent_walk].
  case_decide as Ht.
  { replace (Z.to_nat (ttl - hops)) with 0 by lia. done. }
  replace (Z.to_nat (ttl - hops)) with (S (Z.to_nat (ttl - (hops + 1)))) by lia.
  cbn [split_trace]. case_decide as Hl; [done|]. destruct (top_bit (mbody m)); [done|].
  rewrite IH, with_trace_shift; [done|]. simpl. rewrite length_drop. lia.
Qed.

Lemma rep_walk_spec fuel hops ttl m :
  length (mbody m) < fuel →
  rep_walk fuel hops ttl m = with_trace m (split_trace (Z.to_nat (ttl - hops)) (mbody m)).
Proof.
  revert hops m. induction fuel as [|fuel IH]; intros hops m Hf; [lia|]. cbn [rep_walk].
  case_decide as Ht.
  { replace (Z.to_nat (ttl - hops)) with 0 by lia. done. }
  replace (Z.to_nat (ttl - hops)) with (S (Z.to_nat (ttl - (hops + 1)))) by lia.
  cbn [split_trace]. case_decide as Hl; [done|].
  rewrite shift4_last, top_bit_take by lia. destruct (top_bit (mbody m)); [done|].
  rewrite IH, with_trace_shift; [done|]. simpl. rewrite length_drop. lia.
Qed.

#[global] Arguments be_encode : simpl never.

(** A backtrace: the IDs of the pipes a message came through (the latest
    first) and the request ID. *)
Definition trace_of (ps : list Z) (id : Z) : bytes := concat (put_uint32 <$> ps) ++ put_uint32 id.
(** Pipe IDs have the top bit clear, request IDs have it set. *)
Definition pipe_id (p : Z) : Prop := (0 ≤ p < 2 ^ 31)%Z.
Definition req_id (id : Z) : Prop := (2 ^ 31 ≤ id < 2 ^ 32)%Z.

Lemma take4 z (b : bytes) : take 4 (put_uint32 z ++ b) = put_uint32 z.
Proof. apply take_app_length'. by rewrite length_be_encode. Qed.
Lemma drop4 z (b : bytes) : drop 4 (put_uint32 z ++ b) = b.
Proof. apply drop_app_length'. by rewrite length_be_encode. Qed.
Lemma len4 z (b : bytes) : ¬ length (put_uint32 z ++ b) < 4.
Proof. rewrite length_app, length_be_encode. lia. Qed.
Lemma top_bit_put z (b : bytes) :
  (0 ≤ z < 2 ^ 32)%Z → top_bit (put_uint32 z ++ b) = (2 ^ 31 <=? z)%Z.
Proof. intros Hz. destruct (be32_high_bit z Hz) as (x & l & -> & Hx). done. Qed.
Lemma put_small z :
  (0 ≤ z < 256)%Z → put_uint32 z = [Byte.x00; Byte.x00; Byte.x00; byte_of_Z z].
Proof.
  intros Hz. unfold be_encode. simpl Z.of_nat.
  rewrite (Z.shiftr_div_pow2 _ (8 * 3)), (Z.shiftr_div_pow2 _ (8 * 2)), (Z.shiftr_div_pow2 _ (8 * 1)) by lia.
  rewrite !Z.div_small by lia. done.
Qed.
Lemma uint32_put z : (0 ≤ z < 2 ^ 32)%Z → uint32_of (put_uint32 z) = z.
Proof. intros Hz. rewrite be_decode_encode. apply Z.mod_small. done. Qed.

Lemma split_trace_of ps id b n :
  Forall pipe_id ps → req_id id → length ps < n →
  split_trace n (trace_of ps id ++ b) = Some (trace_of ps id, b).
Proof.
  intros Hps Hid. revert n. unfold trace_of.
  induction Hps as [|p ps Hp Hps IH]; intros n Hn; (destruct n as [|n]; [lia|]);
    cbn [split_trace]; rewrite ?fmap_cons; cbn [fmap list_fmap concat app].
  - rewrite decide_False by apply len4. rewrite top_bit_put, take4, drop4 by (unfold req_id in *; lia).
    destruct (Z.leb_spec (2 ^ 31) id); [done|unfold req_id in *; lia].
  - rewrite <-!app_assoc.
    rewrite decide_False by apply len4. unfold pipe_id in Hp.
    rewrite top_bit_put, take4, drop4 by lia.
    destruct (Z.leb_spec (2 ^ 31) p); [lia|]. rewrite app_assoc.
    rewrite IH by (cbn [length] in Hn; lia). cbn. by rewrite app_assoc.
Qed.

(** Every body that splits is a backtrace followed by the rest. *)
Lemma split_trace_inv n b t r :
  split_trace n b = Some (t, r) →
  b = t ++ r ∧ ∃ ps id, t = trace_of ps id ∧ Forall pipe_id ps ∧ req_id id ∧ length ps < n.
Proof.
  revert b t. induction n as [|n IH]; intros b t; cbn [split_trace]; [done|].
  case_decide as Hl; [done|].
  assert (length (take 4 b) = 4) as H4 by (rewrite length_take; lia).
  pose proof (be_encode_decode _ _ H4) as He. pose proof (be_decode_range (take 4 b)) as Hr.
  rewrite H4 in Hr. change (256 ^ Z.of_nat 4)%Z with (2 ^ 32)%Z in Hr.
  assert (top_bit b = (2 ^ 31 <=? be_decode (take 4 b))%Z) as Htb.
  { rewrite <-(take_drop 4 b) at 1. rewrite <-He at 1. by apply top_bit_put. }
  rewrite Htb. destruct (Z.leb_spec (2 ^ 31) (be_decode (take 4 b))) as [Hb|Hb].
  - intros [= <- <-]. split; [by rewrite take_drop|].
    exists [], (be_decode (take 4 b)). unfold trace_of, req_id. cbn.
    split_and!; [by rewrite He|constructor|lia|lia|lia].
  - intros Hs. apply bind_Some in Hs as ([t' r'] & Hs & [= <- <-]).
    destruct (IH _ _ Hs) as (Hd & ps & id & -> & Hps & Hid & Hlen). split.
    { by rewrite <-app_assoc, <-Hd, take_drop. }
    exists (be_decode (take 4 b) :: ps), id. split_and!; [|constructor; [|done]|done|simpl; lia].
    + unfold trace_of. rewrite fmap_cons. cbn [concat]. by rewrite He, <-app_assoc.
    + unfold pipe_id. lia.
Qed.

Lemma walk_iff m n m' :
  with_trace m (split_trace n (mbody m)) = Some m' ↔
  ∃ ps id, mbody m = trace_of ps id ++ mbody m' ∧ mhdr m' = mhdr m ++ trace_of ps id ∧
    mpipe m' = mpipe m ∧ mref m' = mref m ∧ Forall pipe_id ps ∧ req_id id ∧ length ps < n.
Proof.
  split.
  - intros H. apply bind_Some in H as ([t r] & Hs & [= <-]).
    apply split_trace_inv in Hs as (Hb & ps & id & -> & ? & ? & ?). exists ps, id. simpl. done.
  - intros (ps & id & Hb & Hh & Hp & Hrf & Hps & Hid & Hn). rewrite Hb, split_trace_of by done.
    simpl. destruct m, m'; simpl in *. by subst.
Qed.

(** C13. What the four [receiver]s accept, and the hop limit of each: the
    message goes on exactly when its body starts with a backtrace of fewer
    than [ttl] pipe IDs ([xrep], [rep], [respondent]; [ttl - 1] for
    [xrespondent]) and a request ID; the backtrace is moved to the header, for
    the raw sockets behind the ID of the receiving pipe, and the rest is the
    body.  Everything else is dropped. *)
Theorem receivers_accept ttl p m m' (Httl : (0 ≤ ttl)%Z) :
  (xrep_receive ttl p m = Some m' ↔
     ∃ ps id, mbody m = trace_of ps id ++ mbody m' ∧
       mhdr m' = put_uint32 p ++ mhdr m ++ trace_of ps id ∧ mpipe m' = mpipe m ∧ mref m' = mref m ∧
       Forall pipe_id ps ∧ req_id id ∧ (Z.of_nat (length ps) < ttl)%Z) ∧
  (rep_receive ttl m = Some m' ↔
     ∃ ps id, mbody m = trace_of ps id ++ mbody m' ∧
       mhdr m' = mhdr m ++ trace_of ps id ∧ mpipe m' = mpipe m ∧ mref m' = mref m ∧
       Forall pipe_id ps ∧ req_id id ∧ (Z.of_nat (length ps) < ttl)%Z) ∧
  (xrespondent_receive ttl p m = Some m' ↔
     ∃ ps id, mbody m = trace_of ps id ++ mbody m' ∧
       mhdr m' = put_uint32 p ++ mhdr m ++ trace_of ps id ∧ mpipe m' = mpipe m ∧ mref m' = mref m ∧
       Forall pipe_id ps ∧ req_id id ∧ (Z.of_nat (length ps) < ttl - 1)%Z).
Proof.
  set (m1 := m <| mhdr ::= (λ h, put_uint32 p ++ h) |>). split_and!.
  - unfold xrep_receive. fold m1. rewrite xrep_walk_spec by (simpl; lia).
    change (mbody m) with (mbody m1). rewrite walk_iff.
    change (mhdr m1) with (put_uint32 p ++ mhdr m). change (mpipe m1) with (mpipe m). change (mref m1) with (mref m).
    do 2 (apply exist_proper; intros ?). rewrite <-app_assoc.
    assert (∀ k : nat, k < Z.to_nat (ttl + 1 - 1) ↔ (Z.of_nat k < ttl)%Z) as -> by lia. done.
  - unfold rep_receive. rewrite rep_walk_spec by lia. rewrite walk_iff.
    do 2 (apply exist_proper; intros ?).
    assert (∀ k : nat, k < Z.to_nat (ttl - 0) ↔ (Z.of_nat k < ttl)%Z) as -> by lia. done.
  - unfold xrespondent_receive. fold m1. case_decide as Hl.
    + split; [done|]. intros (ps & id & Hb & _). exfalso. rewrite Hb in Hl. unfold trace_of in Hl.
      rewrite !length_app, length_be_encode in Hl. lia.
    + rewrite xrespondent_walk_spec by (simpl; lia).
      change (mbody m) with (mbody m1). rewrite walk_iff.
    change (mhdr m1) with (put_uint32 p ++ mhdr m). change (mpipe m1) with (mpipe m). change (mref m1) with (mref m).
      do 2 (apply exist_proper; intros ?). rewrite <-app_assoc.
      assert (∀ k : nat, k < Z.to_nat (ttl - 1) ↔ (Z.of_nat k < ttl - 1)%Z) as -> by lia. done.
Qed.

Definition example_wire : bytes := trace_of [7%Z] 0x80000005 ++ [Byte.x61].
Lemma receivers_accept_witness :
  rep_receive 2 (unwire 9 example_wire) =
    Some (mkMsg (trace_of [7%Z] 0x80000005) [Byte.x61] (Some 9%Z) 0) ∧
  xrespondent_receive 2 9 (unwire 9 example_wire) ≠
    Some (mkMsg (put_uint32 9 ++ trace_of [7%Z] 0x80000005) [Byte.x61] (Some 9%Z) 0).
Proof.
  destruct (receivers_accept 2 9 (unwire 9 example_wire)
    (mkMsg (trace_of [7%Z] 0x80000005) [Byte.x61] (Some 9%Z) 0) ltac:(lia)) as (_ & [_ H] & _).
  split; [|by vm_compute]. apply H. exists [7%Z], 0x80000005%Z.
  unfold pipe_id, req_id. split_and!; try done.
  by apply Forall_singleton.
Defined.

(** C14. With the smallest time-to-live the option allows, a raw RESPONDENT
    drops every survey, also one that came straight from the surveyor, where
    the three other sockets accept it. *)
Theorem xrespondent_ttl_one p m id b :
  xrespondent_receive 1 p m = None ∧
  (req_id id → mbody m = put_uint32 id ++ b →
   is_Some (rep_receive 1 m) ∧ is_Some (xrep_receive 1 p m)).
Proof.
  split.
  - unfold xrespondent_receive. case_decide; [done|]. by rewrite xrespondent_walk_spec by (simpl; lia).
  - intros Hid Hb. unfold rep_receive, xrep_receive.
    rewrite rep_walk_spec, xrep_walk_spec by (simpl; lia).
    change (mbody (m <| mhdr ::= _ |>)) with (mbody m). rewrite Hb.
    change (put_uint32 id ++ b) with (trace_of [] id ++ b).
    rewrite !split_trace_of by (done || constructor). split; eexists; done.
Qed.

Lemma xrespondent_ttl_one_witness :
  xrespondent_receive 1 9 (unwire 9 (put_uint32 0x80000005 ++ [Byte.x61])) = None ∧
  is_Some (rep_receive 1 (unwire 9 (put_uint32 0x80000005 ++ [Byte.x61]))).
Proof.
  destruct (xrespondent_ttl_one 9 (unwire 9 (put_uint32 0x80000005 ++ [Byte.x61]))
    0x80000005 [Byte.x61]) as [H1 H2].
  split; [done|]. apply H2; [unfold req_id; lia|done].
Defined.

(** ** A request and its reply through a chain of devices

    Device [i] has an XREP socket, which receives the request on the pipe
    with ID [p_i], and an XREQ socket, which sends it on. *)
Fixpoint forward_request (hops : list (Z * Z)) (b : bytes) : option bytes :=
  match hops with
  | [] => Some b
  | (ttl, p) :: hops => m ← xrep_receive ttl p (unwire p b); forward_request hops (wire m)
  end.

(** The reply goes back through the XREQ socket of the last device first;
    its XREP socket chooses the pipe to answer on.  The result lists the
    pipes chosen and what arrives at the requester. *)
Fixpoint return_reply (n : nat) (q : Z) (b : bytes) : option (list Z * bytes) :=
  match n with
  | O => Some ([], b)
  | S n =>
      m ← xreq_receive (unwire q b); '(p, m) ← xrep_route m;
      '(ps, b) ← return_reply n q (wire m); Some (p :: ps, b)
  end.

Lemma trace_of_cons p ps id : trace_of (p :: ps) id = put_uint32 p ++ trace_of ps id.
Proof. unfold trace_of. rewrite fmap_cons. cbn [concat]. by rewrite <-app_assoc. Qed.

(** A hop pushes the ID of the pipe. *)
Lemma xrep_hop ttl p ps id b :
  Forall pipe_id ps → req_id id → (Z.of_nat (length ps) < ttl)%Z →
  xrep_receive ttl p (unwire p (trace_of ps id ++ b)) =
    Some (mkMsg (trace_of (p :: ps) id) b (Some p) 0).
Proof.
  intros Hps Hid Hn. unfold xrep_receive, unwire. rewrite xrep_walk_spec by (simpl; lia).
  set (m1 := _ <| mhdr ::= _ |>). change (mbody m1) with (trace_of ps id ++ b).
  rewrite split_trace_of by (done || lia). subst m1. rewrite trace_of_cons. done.
Qed.

Lemma forward_request_trace hops ps id b :
  Forall pipe_id ps → req_id id → Forall (λ h, pipe_id (snd h)) hops →
  (∀ i h, hops !! i = Some h → (Z.of_nat (length ps + i) < fst h)%Z) →
  forward_request hops (trace_of ps id ++ b) =
    Some (trace_of (rev (snd <$> hops) ++ ps) id ++ b).
Proof.
  intros Hps Hid Hh. revert ps Hps.
  induction Hh as [|[ttl p] hops Hp Hh IH]; intros ps Hps Httl; [done|].
  pose proof (Httl 0 _ eq_refl) as H0. cbn [fst] in H0.
  cbn [forward_request]. rewrite xrep_hop by (done || lia).
  change (forward_request hops (trace_of (p :: ps) id ++ b) = Some (trace_of (rev (snd <$> (ttl, p) :: hops) ++ ps) id ++ b)).
  rewrite IH; [|by constructor|].
  - rewrite fmap_cons. cbn [rev snd]. by rewrite <-app_assoc.
  - intros i h Hi. specialize (Httl (S i) h Hi). cbn [length]. lia.
Qed.

Lemma return_reply_trace ps id q b :
  Forall pipe_id ps → req_id id →
  return_reply (length ps) q (trace_of ps id ++ b) = Some (ps, put_uint32 id ++ b).
Proof.
  intros Hps Hid. induction Hps as [|p ps Hp Hps IH]; [done|].
  cbn [length return_reply]. rewrite trace_of_cons, <-app_assoc.
  unfold xreq_receive, unwire. cbn [mbody]. rewrite decide_False by apply len4.
  rewrite take4, drop4. unfold xrep_route. cbn [mbind option_bind].
  change (mhdr (_ <| mhdr := _ |> <| mbody := _ |>)) with (put_uint32 p).
  rewrite decide_False by (rewrite length_be_encode; lia).
  rewrite (take_ge (put_uint32 p)) by (rewrite length_be_encode; lia).
  rewrite uint32_put by (unfold pipe_id in Hp; lia). cbn [mbind option_bind].
  change (wire _) with (drop 4 (put_uint32 p) ++ trace_of ps id ++ b).
  rewrite (drop_ge (put_uint32 p)) by (rewrite length_be_encode; lia).
  rewrite app_nil_l, IH. done.
Qed.

(** C15. A request that passes through a chain of devices, each with a
    time-to-live above the number of devices before it, reaches the replier
    with its body intact, whose REP socket takes off the whole backtrace; the
    reply sent with that backtrace goes back through the same pipes in
    reverse order and reaches the requester with the request's own ID and the
    reply's body. *)
Theorem device_chain_roundtrip hops ttl id b r q
    (Hid : req_id id) (Hp : Forall (λ h, pipe_id (snd h)) hops)
    (Httl : ∀ i h, hops !! i = Some h → (Z.of_nat i < fst h)%Z)
    (Hrep : (Z.of_nat (length hops) < ttl)%Z) :
  ∃ bt,
    (forward_request hops (put_uint32 id ++ b) ≫= λ w, rep_receive ttl (unwire q w)) =
      Some (mkMsg bt b (Some q) 0) ∧
    return_reply (length hops) q (wire (mkMsg bt r None 0)) =
      Some (rev (snd <$> hops), put_uint32 id ++ r).
Proof.
  assert (Forall pipe_id (rev (snd <$> hops))) as Hps.
  { apply Forall_rev. by apply Forall_fmap. }
  assert (length (rev (snd <$> hops)) = length hops) as Hlen by (by rewrite length_rev, length_fmap).
  exists (trace_of (rev (snd <$> hops)) id). split.
  - change (put_uint32 id ++ b) with (trace_of [] id ++ b).
    rewrite forward_request_trace by (done || constructor). cbn [mbind option_bind].
    rewrite app_nil_r. unfold rep_receive, unwire. rewrite rep_walk_spec by (simpl; lia).
    cbn [mbody]. rewrite split_trace_of by (done || lia). done.
  - unfold wire. cbn [mhdr mbody]. rewrite <-Hlen. by apply return_reply_trace.
Qed.

Lemma device_chain_roundtrip_witness :
  ∃ bt,
    (forward_request [(8, 21); (2, 34)]%Z (put_uint32 0x80000007 ++ [Byte.x61])
       ≫= λ w, rep_receive 3 (unwire 55 w)) = Some (mkMsg bt [Byte.x61] (Some 55%Z) 0) ∧
    return_reply 2 55 (wire (mkMsg bt [Byte.x62] None 0)) =
      Some ([34; 21]%Z, put_uint32 0x80000007 ++ [Byte.x62]).
Proof.
  apply (device_chain_roundtrip [(8, 21); (2, 34)]%Z 3 0x80000007 [Byte.x61] [Byte.x62] 55).
  - unfold req_id. lia.
  - unfold pipe_id. repeat (constructor; [simpl; lia|]). constructor.
  - intros [|[|i]] h Hh; simplify_eq/=; lia.
  - simpl. lia.
Defined.
