(* ===== verification/XReq.v ===== *)
(** * XReq: the raw REQ protocol

    [src/protocol/xreq/xreq.go], complete, as a program of [Chan].  All pipes
    take their messages from one queue, so a request goes to whichever pipe is
    free first. *)
From stdpp Require Import gmap list strings fin_maps.
From Stdlib Require Import ZArith Lia.
From S2P Require Import Prelude Types Chan Backtrace.

(** The channels: those that only get closed, [recvQ], [sendQ], and nil. *)
Inductive kind := KSignal | KRecv | KSend | KNil.
#[export] Instance kind_eq_dec : EqDecision kind.
Proof. solve_decision. Defined.
#[export] Instance kind_countable : Countable kind.
Proof.
  refine (inj_countable'
    (λ k, match k with KSignal => 0 | KRecv => 1 | KSend => 2 | KNil => 3 end)
    (λ x, match x with 0 => KSignal | 1 => KRecv | 2 => KSend | _ => KNil end) _).
  by intros [].
Defined.
Abbreviation chid := (kind * nat)%type.

Abbreviation pid := nat.
Record pipe := mkPipe { p_id : Z; p_closeQ : chid }.

Record socket := mkSocket {
  closed : bool;
  recvQ : chid;
  sendQ : chid;
  closeQ : chid;
  sizeQ : chid;
  recvExpire : Z;
  sendExpire : Z;
  sendQLen : Z;
  recvQLen : Z;
  bestEffort : bool;
  pobjs : gmap pid pipe;
  removed : gset pid;
  pclosed : gset pid;
  submitted : list msg;
  arrived : list msg
}.
#[export] Instance eta_socket : Eta socket := λ s,
  mkSocket (closed s) (recvQ s) (sendQ s) (closeQ s) (sizeQ s) (recvExpire s) (sendExpire s)
    (sendQLen s) (recvQLen s) (bestEffort s) (pobjs s) (removed s) (pclosed s)
    (submitted s) (arrived s).

Definition defaultQLen : Z := 128.

(** Program points.  [tq]: a timer channel is part of the [select]. *)
Inductive thread :=
  | SendTry (q zq cq : chid) (m : msg) (tq be : bool)
  | SendWait (q zq cq : chid) (m : msg) (tq be : bool)
  | SendRet (e : error) (back : option msg)   (* SendMsg returned; the caller keeps [back] *)
  | RecvTop                                   (* RecvMsg, before s.Lock() *)
  | RecvTry (rq zq cq : chid) (tq : bool)
  | RecvWait (rq zq cq : chid) (tq : bool)
  | RecvRet (r : result msg)
  | Receiver (p : pid)                        (* in p.p.RecvMsg() *)
  | RecvPut (p : pid) (m : msg) (rq zq cq : chid)
  | SenderTop (p : pid)                       (* sender, before s.Lock() *)
  | Sender (p : pid) (q zq cq : chid)         (* at the select of sender *)
  | Sending (p : pid) (m : msg)               (* in p.p.SendMsg(m) *)
  | PipeClose (p : pid)                       (* about to call p.p.Close() *)
  | CloseChan (c : chid)                      (* about to close a channel *)
  | Done.

Definition timer (tq : bool) : list (op kind msg) := if tq then [OTime] else [].

Definition sel (th : thread) : list (op kind msg) :=
  match th with
  | SendTry q zq cq m tq be => [OSend q m]
  | SendWait q zq cq m tq be => [OSend q m; ORecv zq; ORecv cq] ++ timer tq
  | RecvTry rq zq cq tq => [ORecv rq]
  | RecvWait rq zq cq tq => [ORecv cq; ORecv rq; ORecv zq] ++ timer tq
  | RecvPut p m rq zq cq => [OSend rq m; ORecv zq; ORecv cq]
  | Sender p q zq cq => [ORecv q; ORecv zq; ORecv cq]
  | _ => []
  end.
Definition dflt (th : thread) : bool :=
  match th with SendTry _ _ _ _ _ _ | RecvTry _ _ _ _ => true | _ => false end.

(** After a case.  [recvQ] and [sendQ] are never closed, so a receive from
    them brings a message. *)
Definition res (th : thread) (i : option nat) (v : option msg) : thread * list msg :=
  match th, i with
  | SendTry q zq cq m tq be, None => (SendWait q zq cq m tq be, [])
  | SendTry q zq cq m tq be, Some _ => (SendRet None None, [])
  | SendWait q zq cq m tq be, Some 0 => (SendRet None None, [])
  | SendWait q zq cq m tq be, Some 1 => (SendRet None None, [m])
  | SendWait q zq cq m tq be, Some 2 => (SendRet (Some ErrClosed) (Some m), [])
  | SendWait q zq cq m tq be, Some _ =>
      if be then (SendRet None None, [m]) else (SendRet (Some ErrSendTimeout) (Some m), [])
  | RecvTry rq zq cq tq, None => (RecvWait rq zq cq tq, [])
  | RecvTry rq zq cq tq, Some _ =>
      (match v with Some m => RecvRet (Ok m) | None => RecvTop end, [])
  | RecvWait rq zq cq tq, Some 0 => (RecvRet (Err ErrClosed), [])
  | RecvWait rq zq cq tq, Some 1 =>
      (match v with Some m => RecvRet (Ok m) | None => RecvTop end, [])
  | RecvWait rq zq cq tq, Some 2 => (RecvTop, [])
  | RecvWait rq zq cq tq, Some _ => (RecvRet (Err ErrRecvTimeout), [])
  | RecvPut p m rq zq cq, Some 0 => (Receiver p, [])
  | RecvPut p m rq zq cq, Some 1 => (Receiver p, [m])
  | RecvPut p m rq zq cq, Some _ => (PipeClose p, [m])
  | Sender p q zq cq, Some 0 => (match v with Some m => Sending p m | None => PipeClose p end, [])
  | Sender p q zq cq, Some 1 => (SenderTop p, [])
  | Sender p q zq cq, Some _ => (PipeClose p, [])
  | th, _ => (th, [])
  end.

#[export] Instance xreq_program : Program kind msg thread :=
  { select := sel; has_default := dflt; resume := res }.

Abbreviation state := (st kind msg socket thread).

(** ** The critical sections *)

(** [SendMsg], up to the first [select]. *)
Definition SendMsg (m : msg) (s : state) : state :=
  let s := set_vars (λ σ, σ <| submitted ::= (λ l, l ++ [m]) |>) (give [m] s) in
  let σ := vars s in
  let tq := bestEffort σ || negb (sendExpire σ =? 0)%Z in
  go (SendTry (sendQ σ) (sizeQ σ) (closeQ σ) m tq (bestEffort σ)) s.

(** [RecvMsg], from the top of its loop to the first [select]. *)
Definition RecvMsg_top (s : state) : thread :=
  let σ := vars s in
  RecvTry (recvQ σ) (sizeQ σ) (closeQ σ) (negb (recvExpire σ =? 0)%Z).

(** [receiver], when [p.p.RecvMsg()] has returned [m]. *)
Definition receiver_turn (t : thid) (p : pid) (po : pipe) (m : msg) (s : state) : state :=
  let s := set_vars (λ σ, σ <| arrived ::= (λ l, l ++ [m]) |>) (give [m] s) in
  let σ := vars s in
  match xreq_receive m with
  | None => free [m] s
  | Some m => set_thread t (RecvPut p m (recvQ σ) (sizeQ σ) (p_closeQ po)) s
  end.

(** [sender]: the top of its loop, and the return of [p.p.SendMsg(m)]. *)
Definition sender_top (p : pid) (po : pipe) (s : state) : thread :=
  Sender p (sendQ (vars s)) (sizeQ (vars s)) (p_closeQ po).
Definition sender_sent (t : thid) (p : pid) (m : msg) (e : error) (s : state) : state :=
  match e with
  | Some _ => set_thread t (PipeClose p) s
  | None => set_thread t (SenderTop p) (pass [m] s)
  end.

Definition pipe_close (t : thid) (p : pid) (s : state) : state :=
  set_thread t Done (set_vars (λ σ, σ <| pclosed ::= (λ x, {[p]} ∪ x) |>) s).

(** The queue-length options: a new queue, and a new [sizeQ] in place of the
    one that gets closed. *)
Definition resize (k : kind) (f : chid → socket → socket) (z : Z) (s : state) : state :=
  let '(q, s) := make_chan k (Z.to_nat z) s in
  let '(zq, s) := make_chan KSignal 0 s in
  let old := sizeQ (vars s) in
  go (CloseChan old) (set_vars (λ σ, f q σ <| sizeQ := zq |>) s).

Definition SetOption (name : string) (v : value) (s : state) : error * state :=
  if String.eqb name OptionRecvDeadline then
    match v with
    | VDuration d => (None, set_vars (λ σ, σ <| recvExpire := d |>) s)
    | _ => (Some ErrBadValue, s)
    end
  else if String.eqb name OptionSendDeadline then
    match v with
    | VDuration d => (None, set_vars (λ σ, σ <| sendExpire := d |>) s)
    | _ => (Some ErrBadValue, s)
    end
  else if String.eqb name OptionBestEffort then
    match v with
    | VBool b => (None, set_vars (λ σ, σ <| bestEffort := b |>) s)
    | _ => (Some ErrBadValue, s)
    end
  else if String.eqb name OptionWriteQLen then
    match v with
    | VInt z => if (0 <=? z)%Z
                then (None, resize KSend (λ q σ, σ <| sendQLen := z |> <| sendQ := q |>) z s)
                else (Some ErrBadValue, s)
    | _ => (Some ErrBadValue, s)
    end
  else if String.eqb name OptionReadQLen then
    match v with
    | VInt z => if (0 <=? z)%Z
                then (None, resize KRecv (λ q σ, σ <| recvQLen := z |> <| recvQ := q |>) z s)
                else (Some ErrBadValue, s)
    | _ => (Some ErrBadValue, s)
    end
  else (Some ErrBadOption, s).

Definition GetOption (name : string) (σ : socket) : result value :=
  if String.eqb name OptionRaw then Ok (VBool true)
  else if String.eqb name OptionRecvDeadline then Ok (VDuration (recvExpire σ))
  else if String.eqb name OptionSendDeadline then Ok (VDuration (sendExpire σ))
  else if String.eqb name OptionBestEffort then Ok (VBool (bestEffort σ))
  else if String.eqb name OptionWriteQLen then Ok (VInt (sendQLen σ))
  else if String.eqb name OptionReadQLen then Ok (VInt (recvQLen σ))
  else Err ErrBadOption.

Definition Close (s : state) : error * state :=
  if closed (vars s) then (Some ErrClosed, s)
  else
    let s := set_vars (λ σ, σ <| closed := true |> <| sendQ := (KNil, 0) |>) s in
    (None, go (CloseChan (closeQ (vars s))) s).

Definition AddPipe (p : pid) (id : Z) (s : state) : error * state :=
  let '(cq, s) := make_chan KSignal 0 s in
  let s := set_vars (λ σ, σ <| pobjs ::= <[p := mkPipe id cq]> |>) s in
  if closed (vars s) then (Some ErrClosed, s)
  else (None, go (Receiver p) (go (SenderTop p) s)).

Definition RemovePipe (p : pid) (po : pipe) (s : state) : state :=
  close_chan (p_closeQ po) (set_vars (λ σ, σ <| removed ::= (λ x, {[p]} ∪ x) |>) s).

Definition OpenContext : error := Some ErrProtoOp.
Definition Info : ProtocolInfo := mkInfo ProtoReq ProtoRep "req" "rep".

Definition NewProtocol : state :=
  let cq := (KSignal, 0) in
  let zq := (KSignal, 1) in
  let rq := (KRecv, 2) in
  let sq := (KSend, 3) in
  mkSt (mkSocket false rq sq cq zq 0 0 defaultQLen defaultQLen false ∅ ∅ ∅ [] [])
    {[cq := mkChan [] 0 false [] []; zq := mkChan [] 0 false [] [];
      rq := mkChan [] (Z.to_nat defaultQLen) false [] [];
      sq := mkChan [] (Z.to_nat defaultQLen) false [] []]} ∅ 4 [] [] [] false.

(** ** The program *)
Inductive event :=
  | ESend (m : msg)                    (* the application calls SendMsg *)
  | ERecv                              (* ... RecvMsg *)
  | ERecvTop (t : thid)                (* RecvMsg gets the lock *)
  | EPipeRecv (t : thid) (m : msg)     (* p.p.RecvMsg() returns *)
  | EPipeRecvNil (t : thid)
  | ESenderTop (t : thid)              (* sender gets the lock *)
  | EPipeSent (t : thid) (e : error)   (* p.p.SendMsg() returns *)
  | EPipeClose (t : thid)
  | ECloseChan (t : thid)
  | ESetOption (name : string) (v : value)
  | EClose
  | EAddPipe (p : pid) (id : Z)
  | ERemovePipe (p : pid).

(** New messages have identities of their own; the core adds a pipe object
    once and removes it once. *)
Definition ext (e : event) (s : state) : option state :=
  match e with
  | ESend m => guard (mref m ∉ mref <$> given s);; Some (SendMsg m s)
  | ERecv => Some (go RecvTop s)
  | ERecvTop t =>
      match threads s !! t with
      | Some RecvTop => Some (set_thread t (RecvMsg_top s) s)
      | _ => None
      end
  | EPipeRecv t m =>
      match threads s !! t with
      | Some (Receiver p) =>
          po ← pobjs (vars s) !! p;
          guard (mref m ∉ mref <$> given s ∧ mhdr m = [] ∧ mpipe m = Some (p_id po));;
          Some (receiver_turn t p po m s)
      | _ => None
      end
  | EPipeRecvNil t =>
      match threads s !! t with
      | Some (Receiver p) => Some (set_thread t (PipeClose p) s)
      | _ => None
      end
  | ESenderTop t =>
      match threads s !! t with
      | Some (SenderTop p) =>
          po ← pobjs (vars s) !! p; Some (set_thread t (sender_top p po s) s)
      | _ => None
      end
  | EPipeSent t e =>
      match threads s !! t with
      | Some (Sending p m) => Some (sender_sent t p m e s)
      | _ => None
      end
  | EPipeClose t =>
      match threads s !! t with
      | Some (PipeClose p) => Some (pipe_close t p s)
      | _ => None
      end
  | ECloseChan t =>
      match threads s !! t with
      | Some (CloseChan c) => Some (set_thread t Done (close_chan c s))
      | _ => None
      end
  | ESetOption name v => Some (snd (SetOption name v s))
  | EClose => Some (snd (Close s))
  | EAddPipe p id => guard (pobjs (vars s) !! p = None);; Some (snd (AddPipe p id s))
  | ERemovePipe p =>
      po ← pobjs (vars s) !! p; guard (p ∉ removed (vars s));; Some (RemovePipe p po s)
  end.

Definition init (s : state) : Prop := s = NewProtocol.
Definition step : label event → state → option state := gstep ext.
Definition ok : state → label event → Prop := gok (λ _ _, True).

(** ** Ownership *)
Definition holding (th : thread) : list msg :=
  match th with
  | SendTry _ _ _ m _ _ | SendWait _ _ _ m _ _ | SendRet _ (Some m) | RecvRet (Ok m)
  | RecvPut _ m _ _ _ | Sending _ m => [m]
  | _ => []
  end.

#[export] Instance xreq_owns : Owns (K := kind) (A := msg) (T := thread).
Proof.
  refine {| holds := holding |}.
  - intros th i o v x Hsel Hv.
    destruct th; try (destruct tq); cbn in Hsel; select_cases Hsel; cbn in *; subst;
      try (destruct v); try (destruct be); owns_lia.
  - intros th x Hd. destruct th; try done; owns_lia.
Defined.

(** ** What the channels carry *)
Definition brought (σ : socket) (m : msg) : Prop :=
  ∃ m0, m0 ∈ arrived σ ∧ xreq_receive m0 = Some m.

Definition ctype (σ : socket) (c : chid) (m : msg) : Prop :=
  match c.1 with
  | KSend | KNil => m ∈ submitted σ
  | KRecv => brought σ m
  | KSignal => False
  end.
Definition send_kind (c : chid) : Prop := c.1 = KSend ∨ c.1 = KNil.

Definition ttype (σ : socket) (th : thread) : Prop :=
  match th with
  | SendTry q _ _ m _ _ | SendWait q _ _ m _ _ => ctype σ q m ∧ m ∈ submitted σ
  | SendRet _ (Some m) => m ∈ submitted σ
  | RecvTry rq _ _ _ | RecvWait rq _ _ _ => rq.1 = KRecv
  | RecvRet (Ok m) => brought σ m
  | RecvPut _ m rq _ _ => ctype σ rq m
  | Sender _ q _ _ => send_kind q
  | Sending _ m => m ∈ submitted σ
  | _ => True
  end.

Record vtype (σ : socket) : Prop := {
  vt_recvQ : (recvQ σ).1 = KRecv;
  vt_sendQ : send_kind (sendQ σ)
}.

#[export] Instance xreq_typed : Typed (K := kind) (A := msg) (S := socket) (T := thread).
Proof.
  refine {| vars_type := vtype; chan_type := ctype; thread_type := λ σ _ th, ttype σ th |}.
  - intros σ t th i o v Hsel Hth Hv.
    destruct th; try (destruct tq); cbn in Hsel; select_cases Hsel; cbn in Hth;
      try (destruct v as [m'|]); try done; cbn.
    all: try (destruct be; naive_solver).
    all: try (unfold ctype in Hv; rewrite Hth in Hv; done).
    unfold ctype in Hv. destruct Hth as [Hth|Hth]; rewrite Hth in Hv; done.
  - intros σ t th Hd Hth. destruct th; done.
Defined.

(** The variables grow. *)
Record vle (σ σ' : socket) : Prop := {
  le_sub m : m ∈ submitted σ → m ∈ submitted σ';
  le_arr x : x ∈ arrived σ → x ∈ arrived σ'
}.

Lemma xreq_brought_mono σ σ' m : vle σ σ' → brought σ m → brought σ' m.
Proof. intros [Hs Ha] (m0 & ? & ?). exists m0. auto. Qed.
Lemma xreq_ctype_mono σ σ' c m : vle σ σ' → ctype σ c m → ctype σ' c m.
Proof.
  intros Hle. unfold ctype. destruct (c.1); [done|by apply xreq_brought_mono|..]; apply Hle.
Qed.
Lemma xreq_ttype_mono σ σ' th : vle σ σ' → ttype σ th → ttype σ' th.
Proof.
  intros Hle. pose proof Hle as [Hs Ha].
  destruct th; simpl; try done.
  - intros [? ?]. split; [by eapply xreq_ctype_mono|auto].
  - intros [? ?]. split; [by eapply xreq_ctype_mono|auto].
  - destruct back; auto.
  - destruct r; [by apply xreq_brought_mono|done].
  - by apply xreq_ctype_mono.
  - auto.
Qed.

Lemma xreq_okstep_vle f (s : state) :
  vle (vars s) (f (vars s)) → (vtype (vars s) → vtype (f (vars s))) → okstep s (set_vars f s).
Proof.
  intros Hle Hv. apply okstep_vars; [done|..].
  - intros c a _. by apply xreq_ctype_mono.
  - intros t th _ _. by apply xreq_ttype_mono.
Qed.
Lemma xreq_okstep_plain f (s : state) :
  (∀ σ, submitted (f σ) = submitted σ ∧ arrived (f σ) = arrived σ ∧
     recvQ (f σ) = recvQ σ ∧ sendQ (f σ) = sendQ σ) → okstep s (set_vars f s).
Proof.
  intros Hf. destruct (Hf (vars s)) as (Es & Ea & Er & Eq). apply xreq_okstep_vle.
  - split; by rewrite ?Es, ?Ea.
  - intros [H1 H2]. split; by rewrite ?Er, ?Eq.
Qed.

(** ** The critical sections keep everything *)
Lemma xreq_okstep_SendMsg m s : wf s → okstep s (SendMsg m s).
Proof.
  intros Hwf. unfold SendMsg.
  set (f := λ σ : socket, σ <| submitted ::= (λ l, l ++ [m]) |>).
  change (set_vars f (give [m] s)) with (give [m] (set_vars f s)).
  assert (okstep s (set_vars f s)) as Hok.
  { apply xreq_okstep_vle; [split; simpl; set_solver|]. intros [? ?]. by split. }
  assert (m ∈ submitted (vars (set_vars f s))) as Hm by (simpl; set_solver).
  assert (wf (set_vars f s)) as Hwf1 by by apply Hok.
  revert Hok Hwf1 Hm. generalize (set_vars f s) as s1. clear f. intros s1 Hok Hwf1 Hm.
  etrans; [exact Hok|]. clear Hok. change (vars (give [m] s1)) with (vars s1).
  apply (okstep_spawn _ [m]); [done|accounting|]. intros Hty. split; [|done].
  destruct (ty_vars _ Hty) as [_ [Hq|Hq]]; unfold ctype; by rewrite Hq.
Qed.

Lemma xreq_okstep_receiver_turn t p po m s :
  wf s → threads s !! t = Some (Receiver p) → okstep s (receiver_turn t p po m s).
Proof.
  intros Hwf Ht. unfold receiver_turn.
  set (f := λ σ : socket, σ <| arrived ::= (λ l, l ++ [m]) |>).
  change (set_vars f (give [m] s)) with (give [m] (set_vars f s)).
  assert (okstep s (set_vars f s)) as Hok.
  { apply xreq_okstep_vle; [split; simpl; set_solver|]. intros [? ?]. by split. }
  assert (m ∈ arrived (vars (set_vars f s))) as Hm by (simpl; set_solver).
  assert (threads (set_vars f s) !! t = Some (Receiver p)) as Ht1 by done.
  revert Hok Hm Ht1. generalize (set_vars f s) as s1. clear f. intros s1 Hok Hm Ht1.
  etrans; [exact Hok|]. clear Hok. change (vars (give [m] s1)) with (vars s1).
  destruct (xreq_receive m) as [m'|] eqn:Hr.
  - assert (mref m' = mref m) as Href.
    { unfold xreq_receive in Hr. case_decide; [done|]. by injection Hr as <-. }
    apply (okstep_goto t (Receiver p) _ [m]); [done| |].
    + split; [reflexivity..|done|]. intros x. owns_lia.
    + intros Hty. destruct (ty_vars _ Hty) as [Hq _]. simpl. unfold ctype. rewrite Hq. by exists m.
  - apply (okstep_account [m]). accounting.
Qed.

Lemma xreq_okstep_resize k f z s :
  wf s →
  (∀ q σ, submitted (f q σ) = submitted σ ∧ arrived (f q σ) = arrived σ) →
  (∀ n σ, vtype σ → vtype (f (k, n) σ)) → okstep s (resize k f z s).
Proof.
  intros Hwf Hf Hv. unfold resize. destruct (make_chan k _ s) as [q s1] eqn:E1.
  destruct (okstep_make_chan _ _ _ _ _ Hwf E1) as (Hok1 & Hwf1 & -> & _ & _).
  destruct (make_chan KSignal _ s1) as [zq s2] eqn:E2.
  destruct (okstep_make_chan _ _ _ _ _ Hwf1 E2) as (Hok2 & Hwf2 & _ & _ & _).
  etrans; [exact Hok1|]. etrans; [exact Hok2|].
  set (g := λ σ : socket, f _ σ <| sizeQ := _ |>).
  etrans; [apply (xreq_okstep_vle g)|apply okstep_go; [by apply wf_vars|done|done]].
  - destruct (Hf (k, fresh s) (vars s2)) as [E3 E4]. split; simpl; by rewrite ?E3, ?E4.
  - intros Hv2%(Hv (fresh s)). destruct Hv2. by split.
Qed.

Lemma xreq_okstep_SetOption name v s : wf s → okstep s (snd (SetOption name v s)).
Proof.
  intros Hwf. unfold SetOption.
  do 3 (destruct (String.eqb name _); [destruct v; try reflexivity; by apply xreq_okstep_plain|]).
  destruct (String.eqb name _); [|destruct (String.eqb name _); [|reflexivity]];
    (destruct v; try reflexivity; destruct (0 <=? z)%Z; [|reflexivity];
     apply xreq_okstep_resize; [done|done|]; intros n σ [? ?]; split; (done || by left)).
Qed.

Lemma xreq_okstep_Close s : wf s → okstep s (snd (Close s)).
Proof.
  intros Hwf. unfold Close. destruct (closed (vars s)); [reflexivity|].
  etrans; [apply (xreq_okstep_vle (λ σ, σ <| closed := true |> <| sendQ := (KNil, 0) |>))|].
  - by split.
  - intros [? ?]. split; [done|by right].
  - apply okstep_go; [by apply wf_vars|done|done].
Qed.

Lemma xreq_okstep_AddPipe p id s : wf s → okstep s (snd (AddPipe p id s)).
Proof.
  intros Hwf. unfold AddPipe. destruct (make_chan KSignal _ s) as [cq s1] eqn:E1.
  destruct (okstep_make_chan _ _ _ _ _ Hwf E1) as (Hok1 & Hwf1 & _ & _ & _).
  etrans; [exact Hok1|].
  set (s2 := set_vars _ s1). assert (okstep s1 s2) as Hok2 by by apply xreq_okstep_plain.
  etrans; [exact Hok2|]. assert (wf s2) as Hwf2 by by apply Hok2. clearbody s2.
  destruct (closed (vars s2)); [reflexivity|]. cbn [snd].
  etrans; [by apply (okstep_go (SenderTop p))|]. by apply okstep_go; [apply wf_go|..].
Qed.

#[export] Instance xreq_ok : ExtOk ext.
Proof.
  intros e s s' Hwf _. destruct e; cbn [ext].
  - intros [_ [= <-]]%guard_bind_Some. by apply xreq_okstep_SendMsg.
  - intros [= <-]. by apply okstep_go.
  - destruct (threads s !! t) as [[]|] eqn:Ht; try done. intros [= <-].
    eapply okstep_set_thread; [done|count|]. intros Hty. by destruct (ty_vars _ Hty).
  - destruct (threads s !! t) as [[]|] eqn:Ht; try done. intros Hs.
    apply bind_Some in Hs as (po & Hpo & [_ [= <-]]%guard_bind_Some). by apply xreq_okstep_receiver_turn.
  - destruct (threads s !! t) as [[]|] eqn:Ht; try done. intros [= <-].
    eapply okstep_set_thread; [done|count|done].
  - destruct (threads s !! t) as [[]|] eqn:Ht; try done. intros Hs.
    apply bind_Some in Hs as (po & Hpo & [= <-]).
    eapply okstep_set_thread; [done|count|]. intros Hty. by destruct (ty_vars _ Hty).
  - destruct (threads s !! t) as [[]|] eqn:Ht; try done. intros [= <-].
    unfold sender_sent. destruct e as [e|].
    + eapply okstep_set_thread; [done|count|done].
    + eapply (okstep_goto t _ _ []); [done|accounting|done].
  - destruct (threads s !! t) as [[]|] eqn:Ht; try done. intros [= <-]. unfold pipe_close.
    etrans; [by apply (xreq_okstep_plain (λ σ, σ <| pclosed ::= (λ x, {[p]} ∪ x) |>))|].
    by eapply okstep_stop.
  - destruct (threads s !! t) as [[]|] eqn:Ht; try done. intros [= <-].
    etrans; [apply (okstep_close_chan c)|]. eapply okstep_stop; [by rewrite threads_close_chan|done|done].
  - intros [= <-]. by apply xreq_okstep_SetOption.
  - intros [= <-]. by apply xreq_okstep_Close.
  - intros [_ [= <-]]%guard_bind_Some. by apply xreq_okstep_AddPipe.
  - intros Hs. apply bind_Some in Hs as (po & Hpo & [_ [= <-]]%guard_bind_Some). unfold RemovePipe.
    etrans; [by apply (xreq_okstep_plain (λ σ, σ <| removed ::= (λ x, {[p]} ∪ x) |>))|].
    apply okstep_close_chan.
Qed.

Lemma xreq_init_good s : init s → good s ∧ refs_unique s.
Proof.
  intros ->. split; [|by apply NoDup_nil_2]. start_good.
  split; simpl; [done|by left].
Qed.

Lemma xreq_ext_refs_unique e s s' : ext e s = Some s' → refs_unique s → refs_unique s'.
Proof.
  destruct e; cbn [ext].
  - intros [Hm [= <-]]%guard_bind_Some. by apply (refs_unique_give m).
  - by intros [= <-].
  - destruct (threads s !! t) as [[]|]; try done. by intros [= <-].
  - destruct (threads s !! t) as [[]|]; try done. intros Hs.
    apply bind_Some in Hs as (po & _ & [[Hm _] [= <-]]%guard_bind_Some).
    apply (refs_unique_give m); [|done]. unfold receiver_turn. by destruct (xreq_receive m).
  - destruct (threads s !! t) as [[]|]; try done. by intros [= <-].
  - destruct (threads s !! t) as [[]|]; try done. intros Hs.
    by apply bind_Some in Hs as (po & _ & [= <-]).
  - destruct (threads s !! t) as [[]|]; try done. intros [= <-]. by destruct e.
  - destruct (threads s !! t) as [[]|]; try done. by intros [= <-].
  - destruct (threads s !! t) as [[]|]; try done. intros [= <-].
    unfold refs_unique. simpl. by rewrite given_close_chan.
  - intros [= <-]. unfold SetOption.
    repeat (destruct (String.eqb name _); [destruct v; try done; by destruct (0 <=? z)%Z|]). done.
  - intros [= <-]. unfold Close. by destruct (closed (vars s)).
  - intros [_ [= <-]]%guard_bind_Some. unfold AddPipe. simpl. by destruct (closed (vars s)).
  - intros Hs. apply bind_Some in Hs as (po & _ & [_ [= <-]]%guard_bind_Some).
    unfold refs_unique, RemovePipe. by rewrite given_close_chan.
Qed.

Lemma reachable_xreq s : reachable step init ok s → good s ∧ refs_unique s.
Proof.
  intros H. split.
  - revert H. eapply reachable_good; [apply _|]. apply xreq_init_good.
  - revert s H. apply (reachable_invariant _ _ _ refs_unique); [apply xreq_init_good|].
    intros l s s' Hu _ Hs. eapply gstep_refs_unique; [|exact Hs|done].
    intros e. apply xreq_ext_refs_unique.
Qed.

(** The pipes' transports that have or had message [x]. *)
Definition transports (x : nat) (s : state) : nat :=
  map_sum (λ th, match th with Sending _ m => kocc x [m] | _ => 0 end) (threads s) +
  kocc x (passed s).

(** C17. A raw REQ socket hands a request to at most one pipe, unchanged:
    whatever the resizes, timeouts and closes, the transports together never
    get a message of the application twice, and never one it did not send;
    what [RecvMsg] returns arrived on a pipe, and has its first word moved to
    the header; the queues are FIFO and no longer than their capacity. *)
Theorem xreq_delivers s (H : reachable step init ok s) :
  (∀ x, transports x s ≤ 1) ∧
  (∀ t p m, threads s !! t = Some (Sending p m) → m ∈ submitted (vars s)) ∧
  (∀ t m, threads s !! t = Some (RecvRet (Ok m)) →
     ∃ m0, m0 ∈ arrived (vars s) ∧ xreq_receive m0 = Some m) ∧
  (∀ c ch, chans s !! c = Some ch → ins ch = outs ch ++ buf ch ∧ length (buf ch) ≤ cap ch).
Proof.
  destruct (reachable_xreq s H) as [[Hwf Ho [_ Ht _]] Hu].
  split_and!; [|intros ? ? ? Hth; exact (Ht _ _ Hth)|intros ? ? Hth; exact (Ht _ _ Hth)|apply Hwf].
  intros x. apply few_holders; [|done|done]. intros th. destruct th; simpl; lia.
Qed.

Definition request (n : nat) : msg := mkMsg (put_uint32 0x80000001) [Byte.x61] None n.
(** Two pipes; the first one takes the request. *)
Definition xreq_run : state :=
  play step (λ _ _, true)
    [LExt (EAddPipe 0 7); LExt (EAddPipe 1 9); LExt (ESend (request 0)); LCase 10 0 None;
     LExt (ESenderTop 5); LExt (ESenderTop 8); LCase 5 0 None] NewProtocol.

Lemma xreq_delivers_witness :
  threads xreq_run !! 5 = Some (Sending 0 (request 0)) ∧ transports 0 xreq_run ≤ 1.
Proof.
  assert (reachable step init ok xreq_run) as Hr by (by apply play_reachable; [intros ? []|]).
  split; [by vm_compute|]. apply (proj1 (xreq_delivers xreq_run Hr)).
Defined.
