(* ===== verification/Rep.v ===== *)
(** * Rep: the REP protocol

    [src/protocol/rep/rep.go], complete, as a program of [Chan].  Requests
    come through one unbuffered queue, with the pipe they came from; a context
    remembers the backtrace and the pipe of the request it took, and answers
    there.  [arrived] records what the pipes brought. *)
From stdpp Require Import gmap list strings fin_maps.
From Stdlib Require Import ZArith Lia.
From S2P Require Import Prelude Types Chan Backtrace.

Abbreviation pid := nat.
Abbreviation cid := nat.

(** The channels: those that only get closed, [recvQ], and the [sendQ] of a
    pipe object. *)
Inductive kind := KSignal | KRecv | KSend (p : pid).
#[export] Instance kind_eq_dec : EqDecision kind.
Proof. solve_decision. Defined.
#[export] Instance kind_countable : Countable kind.
Proof.
  refine (inj_countable'
    (λ k, match k with KSignal => inl false | KRecv => inl true | KSend id => inr id end)
    (λ x, match x with inl false => KSignal | inl true => KRecv | inr id => KSend id end) _).
  by intros [].
Defined.
Abbreviation chid := (kind * nat)%type.

(** [recvQEntry]; a reply on its way out has no [ep]. *)
Record entry := mkEntry { em : msg; ep : option pid }.
#[export] Instance entry_keyed : Keyed entry := λ e, mref (em e).

Record pipe := mkPipe { p_id : Z; p_sendQ : chid; p_closeQ : chid }.

Record context := mkContext {
  c_closed : bool;
  recvWait : bool;
  recvExpire : Z;
  recvPipe : option pid;
  closeQ : chid;
  sendExpire : Z;
  bestEffort : bool;
  backtrace : option bytes
}.
#[export] Instance eta_context : Eta context := λ c,
  mkContext (c_closed c) (recvWait c) (recvExpire c) (recvPipe c) (closeQ c) (sendExpire c)
    (bestEffort c) (backtrace c).

Record socket := mkSocket {
  closed : bool;
  ttl : Z;
  sendQLen : Z;
  recvQ : chid;
  contexts : gset cid;
  master : cid;
  ctxs : gmap cid context;
  pobjs : gmap pid pipe;
  removed : gset pid;
  pclosed : gset pid;
  arrived : list (pid * msg)
}.
#[export] Instance eta_socket : Eta socket := λ s,
  mkSocket (closed s) (ttl s) (sendQLen s) (recvQ s) (contexts s) (master s) (ctxs s) (pobjs s)
    (removed s) (pclosed s) (arrived s).

(** Program points. *)
Inductive thread :=
  | RecvTry (c : cid) (rq cq : chid) (tq : bool)
  | RecvWait (c : cid) (rq cq : chid) (tq : bool)
  | RecvEnd (c : cid) (r : result entry)        (* RecvMsg, before its second s.Lock() *)
  | RecvRet (r : result msg)
  | SendTry (q cq pcq : chid) (m : msg) (tq be : bool)
  | SendWait (q cq pcq : chid) (m : msg) (tq be : bool)
  | SendRet (e : error) (back : option msg)
  | Receiver (p : pid)
  | RecvPut (p : pid) (m : msg) (rq cq : chid)
  | Sender (p : pid) (q cq : chid)
  | Sending (p : pid) (m : msg)
  | PipeClose (p : pid)
  | Closing (l : list cid)                      (* socket.Close, closing contexts *)
  | Done.

Definition timer (tq : bool) : list (op kind entry) := if tq then [OTime] else [].
Definition reply (m : msg) : entry := mkEntry m None.

Definition sel (th : thread) : list (op kind entry) :=
  match th with
  | RecvTry c rq cq tq => [ORecv rq]
  | RecvWait c rq cq tq => [ORecv rq; ORecv cq] ++ timer tq
  | SendTry q cq pcq m tq be => [OSend q (reply m)]
  | SendWait q cq pcq m tq be => [ORecv cq; ORecv pcq; OSend q (reply m)] ++ timer tq
  | RecvPut p m rq cq => [OSend rq (mkEntry m (Some p)); ORecv cq]
  | Sender p q cq => [ORecv q; ORecv cq]
  | _ => []
  end.
Definition dflt (th : thread) : bool :=
  match th with RecvTry _ _ _ _ | SendTry _ _ _ _ _ _ => true | _ => false end.

(** After a case.  [recvQ] and [sendQ] are never closed, so a receive from
    them brings an entry. *)
Definition res (th : thread) (i : option nat) (v : option entry) : thread * list entry :=
  match th, i with
  | RecvTry c rq cq tq, None => (RecvWait c rq cq tq, [])
  | RecvTry c rq cq tq, Some _ =>
      (RecvEnd c (match v with Some e => Ok e | None => Err ErrClosed end), [])
  | RecvWait c rq cq tq, Some 0 =>
      (RecvEnd c (match v with Some e => Ok e | None => Err ErrClosed end), [])
  | RecvWait c rq cq tq, Some 1 => (RecvEnd c (Err ErrClosed), [])
  | RecvWait c rq cq tq, Some _ => (RecvEnd c (Err ErrRecvTimeout), [])
  | SendTry q cq pcq m tq be, None => (SendWait q cq pcq m tq be, [])
  | SendTry q cq pcq m tq be, Some _ => (SendRet None None, [])
  | SendWait q cq pcq m tq be, Some 0 =>
      (SendRet (Some ErrClosed) (Some (m <| mhdr := [] |>)), [])
  | SendWait q cq pcq m tq be, Some 1 => (SendRet None None, [reply m])
  | SendWait q cq pcq m tq be, Some 2 => (SendRet None None, [])
  | SendWait q cq pcq m tq be, Some _ =>
      if be then (SendRet None None, [reply m])
      else (SendRet (Some ErrSendTimeout) (Some (m <| mhdr := [] |>)), [])
  | RecvPut p m rq cq, Some 0 => (Receiver p, [])
  | RecvPut p m rq cq, Some _ => (PipeClose p, [reply m])
  | Sender p q cq, Some 0 => (match v with Some e => Sending p (em e) | None => Done end, [])
  | Sender p q cq, Some _ => (Done, [])
  | th, _ => (th, [])
  end.

#[export] Instance rep_program : Program kind entry thread :=
  { select := sel; has_default := dflt; resume := res }.

Abbreviation state := (st kind entry socket thread).

(** ** The critical sections *)
Definition upd_ctx (c : cid) (f : context → context) (s : state) : state :=
  set_vars (λ σ, σ <| ctxs ::= alter f c |>) s.

(** [context.RecvMsg], up to its first [select]. *)
Definition RecvMsg (c : cid) (x : context) (s : state) : state :=
  if c_closed x then go (RecvRet (Err ErrClosed)) s
  else if recvWait x then go (RecvRet (Err ErrProtoState)) s
  else
    let s := upd_ctx c (λ x, x <| recvWait := true |>) s in
    go (RecvTry c (recvQ (vars s)) (closeQ x) (negb (recvExpire x =? 0)%Z)) s.

(** Its last section. *)
Definition RecvMsg_end (t : thid) (c : cid) (r : result entry) (s : state) : state :=
  match r with
  | Ok e =>
      let s := upd_ctx c (λ x, x <| backtrace := Some (mhdr (em e)) |> <| recvPipe := ep e |>
                                 <| recvWait := false |>) s in
      set_thread t (RecvRet (Ok (em e <| mhdr := [] |>))) s
  | Err e => set_thread t (RecvRet (Err e)) (upd_ctx c (λ x, x <| recvWait := false |>) s)
  end.

(** [context.SendMsg], up to its first [select].  A context with a backtrace
    has a pipe; without one the last match would be a nil dereference. *)
Definition SendMsg (c : cid) (x : context) (m : msg) (s : state) : state :=
  let s := give [reply m] s in
  if closed (vars s) || c_closed x then go (SendRet (Some ErrClosed) (Some m)) s
  else match backtrace x with
  | None => go (SendRet (Some ErrProtoState) (Some m)) s
  | Some bt =>
      let tq := bestEffort x || negb (sendExpire x =? 0)%Z in
      let m := m <| mhdr := bt |> in
      let p := recvPipe x in
      let s := upd_ctx c (λ x, x <| recvPipe := None |> <| backtrace := None |>) s in
      match p ≫= λ p, pobjs (vars s) !! p with
      | Some po => go (SendTry (p_sendQ po) (closeQ x) (p_closeQ po) m tq (bestEffort x)) s
      | None => s <| crashed := true |>
      end
  end.

(** [context.Close]. *)
Definition context_Close (c : cid) (x : context) (s : state) : error * state :=
  if c_closed x then (Some ErrClosed, s)
  else
    let s := set_vars (λ σ, σ <| contexts ::= (λ cs, cs ∖ {[c]}) |>) s in
    (None, close_chan (closeQ x) (upd_ctx c (λ x, x <| c_closed := true |>) s)).

Definition context_GetOption (name : string) (x : context) : result value :=
  if String.eqb name OptionBestEffort then Ok (VBool (bestEffort x))
  else if String.eqb name OptionRecvDeadline then Ok (VDuration (recvExpire x))
  else if String.eqb name OptionSendDeadline then Ok (VDuration (sendExpire x))
  else Err ErrBadOption.

Definition context_SetOption (c : cid) (name : string) (v : value) (s : state) : error * state :=
  if String.eqb name OptionBestEffort then
    match v with
    | VBool b => (None, upd_ctx c (λ x, x <| bestEffort := b |>) s)
    | _ => (Some ErrBadValue, s)
    end
  else if String.eqb name OptionSendDeadline then
    match v with
    | VDuration d => (None, upd_ctx c (λ x, x <| sendExpire := d |>) s)
    | _ => (Some ErrBadValue, s)
    end
  else if String.eqb name OptionRecvDeadline then
    match v with
    | VDuration d => (None, upd_ctx c (λ x, x <| recvExpire := d |>) s)
    | _ => (Some ErrBadValue, s)
    end
  else (Some ErrBadOption, s).

(** [receiver], when [p.p.RecvMsg()] has returned [m]. *)
Definition receiver_turn (t : thid) (p : pid) (po : pipe) (m : msg) (s : state) : state :=
  let s := set_vars (λ σ, σ <| arrived ::= (λ l, l ++ [(p, m)]) |>) (give [reply m] s) in
  match rep_receive (ttl (vars s)) m with
  | None => free [reply m] s
  | Some m => set_thread t (RecvPut p m (recvQ (vars s)) (p_closeQ po)) s
  end.

(** [sender], when [p.p.SendMsg(m)] has returned. *)
Definition sender_sent (t : thid) (p : pid) (po : pipe) (m : msg) (e : error) (s : state) : state :=
  match e with
  | Some _ => set_thread t (PipeClose p) s
  | None => set_thread t (Sender p (p_sendQ po) (p_closeQ po)) (pass [reply m] s)
  end.

Definition pipe_close (t : thid) (p : pid) (s : state) : state :=
  set_thread t Done (set_vars (λ σ, σ <| pclosed ::= (λ x, {[p]} ∪ x) |>) s).

(** [socket.Close]: [order] is the order in which Go ranges over the
    contexts; each is closed in a section of its own. *)
Definition Close (order : list cid) (s : state) : error * state :=
  if closed (vars s) then (Some ErrClosed, s)
  else (None, go (Closing order) (set_vars (λ σ, σ <| closed := true |>) s)).
Definition Close_next (t : thid) (l : list cid) (s : state) : state :=
  match l with
  | [] => set_thread t Done s
  | c :: l =>
      let s := set_thread t (Closing l) s in
      match ctxs (vars s) !! c with
      | Some x => snd (context_Close c x s)
      | None => s
      end
  end.

Definition AddPipe (p : pid) (id : Z) (s : state) : error * state :=
  let '(q, s) := make_chan (KSend p) (Z.to_nat (sendQLen (vars s))) s in
  let '(cq, s) := make_chan KSignal 0 s in
  let s := set_vars (λ σ, σ <| pobjs ::= <[p := mkPipe id q cq]> |>) s in
  if closed (vars s) then (Some ErrClosed, s)
  else (None, go (Receiver p) (go (Sender p q cq) s)).

Definition RemovePipe (p : pid) (po : pipe) (s : state) : state :=
  close_chan (p_closeQ po) (set_vars (λ σ, σ <| removed ::= (λ x, {[p]} ∪ x) |>) s).

Definition SetOption (name : string) (v : value) (s : state) : error * state :=
  if String.eqb name OptionWriteQLen then
    match v with
    | VInt z => if (0 <=? z)%Z then (None, set_vars (λ σ, σ <| sendQLen := z |>) s)
                else (Some ErrBadValue, s)
    | _ => (Some ErrBadValue, s)
    end
  else if String.eqb name OptionTTL then
    match v with
    | VInt z => if ((0 <? z) && (z <? 256))%Z
                then (None, set_vars (λ σ, σ <| ttl := z |>) s) else (Some ErrBadValue, s)
    | _ => (Some ErrBadValue, s)
    end
  else context_SetOption (master (vars s)) name v s.

Definition GetOption (name : string) (σ : socket) : result value :=
  if String.eqb name OptionRaw then Ok (VBool false)
  else if String.eqb name OptionTTL then Ok (VInt (ttl σ))
  else if String.eqb name OptionWriteQLen then Ok (VInt (sendQLen σ))
  else match ctxs σ !! master σ with
       | Some x => context_GetOption name x
       | None => Err ErrBadOption
       end.

Definition new_context (cq : chid) : context :=
  mkContext false false 0 None cq 0 false None.

Definition OpenContext (c : cid) (s : state) : error * state :=
  if closed (vars s) then (Some ErrClosed, s)
  else
    let '(cq, s) := make_chan KSignal 0 s in
    (None, set_vars (λ σ, σ <| ctxs ::= <[c := new_context cq]> |>
                            <| contexts ::= (λ cs, {[c]} ∪ cs) |>) s).

Definition Info : ProtocolInfo := mkInfo ProtoRep ProtoReq "rep" "req".

Definition NewProtocol : state :=
  let rq := (KRecv, 0) in
  let cq := (KSignal, 1) in
  mkSt (mkSocket false 8 0 rq {[0]} 0 {[0 := new_context cq]} ∅ ∅ ∅ [])
    {[rq := mkChan [] 0 false [] []; cq := mkChan [] 0 false [] []]} ∅ 2 [] [] [] false.

(** ** The program *)
Inductive event :=
  | ERecv (c : cid)
  | ERecvEnd (t : thid)
  | ESend (c : cid) (m : msg)
  | EPipeRecv (t : thid) (m : msg)
  | EPipeRecvNil (t : thid)
  | EPipeSent (t : thid) (e : error)
  | EPipeClose (t : thid)
  | ECtxSetOption (c : cid) (name : string) (v : value)
  | ECtxClose (c : cid)
  | ESetOption (name : string) (v : value)
  | EClose (order : list cid)
  | EClosing (t : thid)
  | EOpenContext (c : cid)
  | EAddPipe (p : pid) (id : Z)
  | ERemovePipe (p : pid).

Definition ext (e : event) (s : state) : option state :=
  match e with
  | ERecv c => x ← ctxs (vars s) !! c; Some (RecvMsg c x s)
  | ERecvEnd t =>
      match threads s !! t with
      | Some (RecvEnd c r) => Some (RecvMsg_end t c r s)
      | _ => None
      end
  | ESend c m =>
      x ← ctxs (vars s) !! c; guard (mref m ∉ key <$> given s);; Some (SendMsg c x m s)
  | EPipeRecv t m =>
      match threads s !! t with
      | Some (Receiver p) =>
          po ← pobjs (vars s) !! p;
          guard (mref m ∉ key <$> given s ∧ mhdr m = [] ∧ mpipe m = Some (p_id po));;
          Some (receiver_turn t p po m s)
      | _ => None
      end
  | EPipeRecvNil t =>
      match threads s !! t with
      | Some (Receiver p) => Some (set_thread t (PipeClose p) s)
      | _ => None
      end
  | EPipeSent t e =>
      match threads s !! t with
      | Some (Sending p m) => po ← pobjs (vars s) !! p; Some (sender_sent t p po m e s)
      | _ => None
      end
  | EPipeClose t =>
      match threads s !! t with
      | Some (PipeClose p) => Some (pipe_close t p s)
      | _ => None
      end
  | ECtxSetOption c name v => Some (snd (context_SetOption c name v s))
  | ECtxClose c => x ← ctxs (vars s) !! c; Some (snd (context_Close c x s))
  | ESetOption name v => Some (snd (SetOption name v s))
  | EClose order =>
      guard (NoDup order ∧ list_to_set order = contexts (vars s));; Some (snd (Close order s))
  | EClosing t =>
      match threads s !! t with
      | Some (Closing l) => Some (Close_next t l s)
      | _ => None
      end
  | EOpenContext c => guard (ctxs (vars s) !! c = None);; Some (snd (OpenContext c s))
  | EAddPipe p id => guard (pobjs (vars s) !! p = None);; Some (snd (AddPipe p id s))
  | ERemovePipe p =>
      po ← pobjs (vars s) !! p; guard (p ∉ removed (vars s));; Some (RemovePipe p po s)
  end.

Definition init (s : state) : Prop := s = NewProtocol.
Definition step : label event → state → option state := gstep ext.
Definition ok : state → label event → Prop := gok (λ _ _, True).

(** ** Ownership *)
Definition holding (th : thread) : list entry :=
  match th with
  | RecvEnd _ (Ok e) => [e]
  | RecvRet (Ok m) | SendTry _ _ _ m _ _ | SendWait _ _ _ m _ _ | SendRet _ (Some m)
  | RecvPut _ m _ _ | Sending _ m => [reply m]
  | _ => []
  end.

Ltac rep_lia :=
  cbn; autorewrite with chan; unfold key, entry_keyed; cbn; repeat case_match; (lia || congruence).
Ltac rep_count := let x := fresh "x" in intros x; rep_lia.
Ltac rep_accounting := split; [reflexivity..|cbn; by rewrite ?app_nil_r|rep_count].

#[export] Instance rep_owns : Owns (K := kind) (A := entry) (T := thread).
Proof.
  refine {| holds := holding |}.
  - intros th i o v x Hsel Hv.
    destruct th; try (destruct tq); cbn in Hsel; select_cases Hsel; cbn in *; subst;
      try (destruct v); try (destruct be); rep_lia.
  - intros th x Hd. destruct th; try done; rep_lia.
Defined.

(** ** What the channels carry *)

(** [m] is a request from pipe [p], its backtrace in the header. *)
Definition brought (σ : socket) (p : pid) (m : msg) : Prop :=
  ∃ m0 n, (p, m0) ∈ arrived σ ∧ rep_receive n m0 = Some m.
(** [bt] is the backtrace of some request from pipe [p]. *)
Definition asked (σ : socket) (p : pid) (bt : bytes) : Prop :=
  ∃ m, brought σ p m ∧ bt = mhdr m.
Definition known (σ : socket) (p : pid) : Prop := is_Some (pobjs σ !! p).

Definition ctype (σ : socket) (c : chid) (e : entry) : Prop :=
  match c.1 with
  | KSend p => asked σ p (mhdr (em e))
  | KRecv => ∃ p, ep e = Some p ∧ brought σ p (em e) ∧ known σ p
  | KSignal => False
  end.

Definition ttype (σ : socket) (th : thread) : Prop :=
  match th with
  | RecvTry _ rq _ _ | RecvWait _ rq _ _ => rq.1 = KRecv
  | RecvEnd _ (Ok e) => ∃ p, ep e = Some p ∧ brought σ p (em e) ∧ known σ p
  | RecvRet (Ok m) => ∃ p m', brought σ p m' ∧ m = m' <| mhdr := [] |>
  | SendTry q _ _ m _ _ | SendWait q _ _ m _ _ => ctype σ q (reply m)
  | Receiver p => known σ p
  | RecvPut p m rq _ => ctype σ rq (mkEntry m (Some p)) ∧ known σ p
  | Sender p q _ => q.1 = KSend p
  | Sending p m => asked σ p (mhdr m)
  | _ => True
  end.

Record vtype (σ : socket) : Prop := {
  vt_recvQ : (recvQ σ).1 = KRecv;
  vt_pobj p po : pobjs σ !! p = Some po → (p_sendQ po).1 = KSend p;
  vt_ctx c x bt : ctxs σ !! c = Some x → backtrace x = Some bt →
    ∃ p, recvPipe x = Some p ∧ known σ p ∧ asked σ p bt
}.

#[export] Instance rep_typed : Typed (K := kind) (A := entry) (S := socket) (T := thread).
Proof.
  refine {| vars_type := vtype; chan_type := ctype; thread_type := λ σ _ th, ttype σ th |}.
  - intros σ t th i o v Hsel Hth Hv.
    destruct th; try (destruct tq); cbn in Hsel; select_cases Hsel; cbn in Hth;
      try (destruct v as [m'|]); try done; cbn.
    all: try (destruct be; naive_solver).
    all: try (unfold ctype in Hv; rewrite Hth in Hv; done).
  - intros σ t th Hd Hth. destruct th; done.
Defined.

(** The variables grow. *)
Record vle (σ σ' : socket) : Prop := {
  le_arr x : x ∈ arrived σ → x ∈ arrived σ';
  le_known p : known σ p → known σ' p
}.

Lemma rep_brought_mono σ σ' p m : vle σ σ' → brought σ p m → brought σ' p m.
Proof. intros [Ha Hk] (m0 & n & ? & ?). exists m0, n. auto. Qed.
Lemma asked_mono σ σ' p bt : vle σ σ' → asked σ p bt → asked σ' p bt.
Proof. intros Hle (m & ? & ?). exists m. eauto using rep_brought_mono. Qed.
Lemma rep_ctype_mono σ σ' c e : vle σ σ' → ctype σ c e → ctype σ' c e.
Proof.
  intros Hle. unfold ctype. destruct (c.1); [done| |by apply asked_mono].
  intros (p & ? & ? & ?). exists p. split_and!; [done|by eapply rep_brought_mono|by apply Hle].
Qed.
Lemma rep_ttype_mono σ σ' th : vle σ σ' → ttype σ th → ttype σ' th.
Proof.
  intros Hle. pose proof (rep_ctype_mono σ σ' (KRecv, 0)) as Hrecv.
  destruct th; simpl; try done; try (by apply rep_ctype_mono); try (by apply Hle); try (by apply asked_mono).
  - destruct r; [|done]. by apply Hrecv.
  - destruct r; [|done]. intros (p & m' & ? & ?). exists p, m'. eauto using rep_brought_mono.
  - intros [? ?]. split; [by eapply rep_ctype_mono|by apply Hle].
Qed.

Lemma rep_okstep_vle f (s : state) :
  vle (vars s) (f (vars s)) → (vtype (vars s) → vtype (f (vars s))) → okstep s (set_vars f s).
Proof.
  intros Hle Hv. apply okstep_vars; [done|..].
  - intros c a _. by apply rep_ctype_mono.
  - intros t th _ _. by apply rep_ttype_mono.
Qed.
Lemma rep_okstep_plain f (s : state) :
  (∀ σ, arrived (f σ) = arrived σ ∧ pobjs (f σ) = pobjs σ ∧
     recvQ (f σ) = recvQ σ ∧ ctxs (f σ) = ctxs σ) → okstep s (set_vars f s).
Proof.
  intros Hf. destruct (Hf (vars s)) as (Ea & Ep & Er & Ec).
  assert (vle (vars s) (f (vars s))) as Hle by (split; unfold known; by rewrite ?Ea, ?Ep).
  apply rep_okstep_vle; [done|]. intros [H1 H2 H3]. split; rewrite ?Er, ?Ep, ?Ec; try done.
  intros c x bt Hc Hb. destruct (H3 c x bt Hc Hb) as (p & ? & ? & ?).
  exists p. split_and!; [done|by apply Hle|by eapply asked_mono].
Qed.

(** A context keeps its backtrace and pipe, or loses the backtrace, or gets
    those of a request. *)
Lemma okstep_upd_ctx c f (s : state) :
  (∀ x bt, ctxs (vars s) !! c = Some x → vtype (vars s) → backtrace (f x) = Some bt →
     (backtrace x = Some bt ∧ recvPipe (f x) = recvPipe x) ∨
     ∃ p, recvPipe (f x) = Some p ∧ known (vars s) p ∧ asked (vars s) p bt) →
  okstep s (upd_ctx c f s).
Proof.
  intros Hf. apply rep_okstep_vle; [by split|]. intros Hv. pose proof Hv as [H1 H2 H3].
  split; simpl; [done|done|]. intros c' x bt. rewrite lookup_alter. case_decide; [|by eauto].
  subst. intros (x0 & Hx0 & ->)%fmap_Some Hb.
  destruct (Hf x0 bt Hx0 Hv Hb) as [[Hb0 ->]|?]; [by eapply H3|done].
Qed.
Lemma okstep_upd_ctx_same c f (s : state) :
  (∀ x, backtrace (f x) = backtrace x ∧ recvPipe (f x) = recvPipe x) → okstep s (upd_ctx c f s).
Proof.
  intros Hf. apply okstep_upd_ctx. intros x bt _ _. destruct (Hf x) as [-> ->]. by left.
Qed.

(** ** The critical sections keep everything *)
Lemma rep_okstep_RecvMsg c x s : wf s → okstep s (RecvMsg c x s).
Proof.
  intros Hwf. unfold RecvMsg. do 2 (case_match; [by apply okstep_go|]).
  etrans; [by apply (okstep_upd_ctx_same c (λ x, x <| recvWait := true |>))|].
  apply okstep_go; [by apply wf_vars|done|]. intros Hty. by destruct (ty_vars _ Hty).
Qed.

Lemma okstep_RecvMsg_end t c r s :
  typed s → threads s !! t = Some (RecvEnd c r) → okstep s (RecvMsg_end t c r s).
Proof.
  intros Hty Ht. pose proof (ty_thread _ Hty _ _ Ht) as Hth. unfold RecvMsg_end.
  destruct r as [e|e]; simpl in Hth.
  - destruct Hth as (p & Hp & Hb & Hk). set (f := λ x : context, x <| backtrace := _ |> <| recvPipe := _ |> <| recvWait := _ |>).
    etrans; [apply (okstep_upd_ctx c f)|].
    + intros x bt _ _ Heq. right. exists p. simpl in Heq. injection Heq as <-.
      split_and!; [done|done|]. by exists (em e).
    + eapply okstep_set_thread; [done|rep_count|]. intros _. by exists p, (em e).
  - etrans; [by apply (okstep_upd_ctx_same c (λ x, x <| recvWait := false |>))|].
    eapply okstep_set_thread; [done|rep_count|done].
Qed.

Lemma rep_okstep_SendMsg c x m s :
  wf s → typed s → ctxs (vars s) !! c = Some x → okstep s (SendMsg c x m s).
Proof.
  intros Hwf Hty Hx. unfold SendMsg. change (vars (give [reply m] s)) with (vars s).
  case_match; [apply (okstep_spawn _ [reply m]); [done|rep_accounting|done]|].
  destruct (backtrace x) as [bt|] eqn:Hb;
    [|apply (okstep_spawn _ [reply m]); [done|rep_accounting|done]].
  destruct (ty_vars _ Hty) as [_ Hq Hc]. destruct (Hc c x bt Hx Hb) as (p & Hp & [po Hpo] & Ha).
  set (f := λ x : context, x <| recvPipe := None |> <| backtrace := None |>).
  change (upd_ctx c f (give [reply m] s)) with (give [reply m] (upd_ctx c f s)).
  assert (okstep s (upd_ctx c f s)) as Hok by (by apply okstep_upd_ctx).
  change (pobjs (vars (give [reply m] (upd_ctx c f s)))) with (pobjs (vars s)).
  rewrite Hp. simpl. rewrite Hpo. etrans; [exact Hok|].
  apply (okstep_spawn _ [reply m]); [by apply Hok|rep_accounting|]. intros _. simpl.
  unfold ctype. rewrite (Hq _ _ Hpo). simpl. by eapply (asked_mono (vars s)).
Qed.

(** [SendMsg] dereferences the pipe of the request safely. *)
Lemma SendMsg_crashed c x m s :
  typed s → ctxs (vars s) !! c = Some x → crashed (SendMsg c x m s) = crashed s.
Proof.
  intros Hty Hx. unfold SendMsg. change (vars (give [reply m] s)) with (vars s).
  case_match; [done|]. destruct (backtrace x) as [bt|] eqn:Hb; [|done].
  destruct (ty_vars _ Hty) as [_ Hq Hc]. destruct (Hc c x bt Hx Hb) as (p & Hp & [po Hpo] & Ha).
  rewrite Hp. simpl. by rewrite Hpo.
Qed.

Lemma rep_okstep_receiver_turn t p po m s :
  typed s → threads s !! t = Some (Receiver p) → okstep s (receiver_turn t p po m s).
Proof.
  intros Hty Ht. pose proof (ty_thread _ Hty _ _ Ht) as Hk. simpl in Hk. unfold receiver_turn.
  set (f := λ σ : socket, σ <| arrived ::= (λ l, l ++ [(p, m)]) |>).
  change (set_vars f (give [reply m] s)) with (give [reply m] (set_vars f s)).
  assert (vle (vars s) (f (vars s))) as Hle by (split; [simpl; set_solver|done]).
  assert (okstep s (set_vars f s)) as Hok.
  { apply rep_okstep_vle; [done|]. intros [H1 H2 H3]. split; simpl; [done|done|].
    intros c x bt Hc Hb. destruct (H3 c x bt Hc Hb) as (p' & ? & ? & ?).
    exists p'. split_and!; [done|done|by eapply asked_mono]. }
  assert ((p, m) ∈ arrived (vars (set_vars f s))) as Hm by (simpl; set_solver).
  assert (threads (set_vars f s) !! t = Some (Receiver p)) as Ht1 by done.
  assert (known (vars (set_vars f s)) p) as Hk1 by done.
  revert Hok Hm Ht1 Hk1. generalize (set_vars f s) as s1. clear - p. intros s1 Hok Hm Ht1 Hk1.
  etrans; [exact Hok|]. clear Hok. change (vars (give [reply m] s1)) with (vars s1).
  destruct (rep_receive _ m) as [m'|] eqn:Hr.
  - assert (mref m' = mref m) as Href.
    { unfold rep_receive in Hr. rewrite rep_walk_spec in Hr by (simpl; lia).
      apply bind_Some in Hr as ([? ?] & _ & [= <-]). done. }
    apply (okstep_goto t (Receiver p) _ [reply m]); [done| |].
    + split; [reflexivity..|done|]. rep_count.
    + intros Hty. destruct (ty_vars _ Hty) as [Hq _ _]. split; [|done]. unfold ctype. rewrite Hq.
      exists p. split_and!; [done| |done]. by exists m, (ttl (vars s1)).
  - apply (okstep_account [reply m]). rep_accounting.
Qed.

Lemma rep_okstep_context_Close c x s : okstep s (snd (context_Close c x s)).
Proof.
  unfold context_Close. destruct (c_closed x); [reflexivity|]. cbn [snd].
  etrans; [by apply (rep_okstep_plain (λ σ, σ <| contexts ::= (λ cs, cs ∖ {[c]}) |>))|].
  etrans; [by apply (okstep_upd_ctx_same c (λ x, x <| c_closed := true |>))|].
  apply okstep_close_chan.
Qed.

Lemma okstep_context_SetOption c name v s : okstep s (snd (context_SetOption c name v s)).
Proof.
  unfold context_SetOption.
  do 3 (destruct (String.eqb name _); [destruct v; try reflexivity; by apply okstep_upd_ctx_same|]).
  reflexivity.
Qed.

Lemma rep_okstep_SetOption name v s : okstep s (snd (SetOption name v s)).
Proof.
  unfold SetOption.
  do 2 (destruct (String.eqb name _); [destruct v; try case_match; try reflexivity;
    by apply rep_okstep_plain|]).
  apply okstep_context_SetOption.
Qed.

Lemma okstep_Close_next t l s :
  threads s !! t = Some (Closing l) → okstep s (Close_next t l s).
Proof.
  intros Ht. unfold Close_next. destruct l as [|c l]; [by eapply okstep_stop|].
  assert (okstep s (set_thread t (Closing l) s)) as Hok
    by (eapply okstep_set_thread; [done|rep_count|done]).
  revert Hok. generalize (set_thread t (Closing l) s) as s1. intros s1 Hok.
  destruct (ctxs (vars s1) !! c); [|done]. etrans; [done|apply rep_okstep_context_Close].
Qed.

Lemma rep_okstep_OpenContext c s : wf s → okstep s (snd (OpenContext c s)).
Proof.
  intros Hwf. unfold OpenContext. destruct (closed (vars s)); [reflexivity|].
  destruct (make_chan KSignal _ s) as [cq s1] eqn:E1.
  destruct (okstep_make_chan _ _ _ _ _ Hwf E1) as (Hok1 & Hwf1 & _ & _ & _).
  etrans; [exact Hok1|]. apply rep_okstep_vle; [by split|]. intros [H1 H2 H3].
  split; simpl; [done|done|]. intros c' x bt. rewrite lookup_insert. case_decide; [|by eauto].
  by intros [= <-].
Qed.

Lemma rep_okstep_AddPipe p id s :
  wf s → pobjs (vars s) !! p = None → okstep s (snd (AddPipe p id s)).
Proof.
  intros Hwf Hp. unfold AddPipe.
  destruct (make_chan (KSend p) _ s) as [q s1] eqn:E1.
  destruct (okstep_make_chan _ _ _ _ _ Hwf E1) as (Hok1 & Hwf1 & -> & _ & _).
  destruct (make_chan KSignal _ s1) as [cq s2] eqn:E2.
  destruct (okstep_make_chan _ _ _ _ _ Hwf1 E2) as (Hok2 & Hwf2 & -> & _ & _).
  etrans; [exact Hok1|]. etrans; [exact Hok2|]. set (po := mkPipe id _ _).
  set (s3 := set_vars (λ σ, σ <| pobjs ::= <[p := po]> |>) s2).
  assert (vle (vars s2) (vars s3)) as Hle.
  { split; [done|]. intros p'. unfold known. simpl. rewrite lookup_insert_is_Some'. by right. }
  assert (okstep s2 s3) as Hok3.
  { apply rep_okstep_vle; [done|]. intros [H1 H2 H3]. split; simpl; [done|..].
    - intros p' po'. rewrite lookup_insert. case_decide; [|by eauto]. intros [= <-]. by subst.
    - intros c x bt Hc Hb. destruct (H3 c x bt Hc Hb) as (p' & ? & ? & ?).
      exists p'. split_and!; [done|by apply Hle|by eapply (asked_mono (vars s2))]. }
  etrans; [exact Hok3|]. assert (wf s3) as Hwf3 by by apply Hok3.
  assert (known (vars s3) p) as Hk by (unfold known; simpl; rewrite lookup_insert_eq; eauto).
  clearbody s3. destruct (closed (vars s3)); [reflexivity|]. cbn [snd].
  etrans; [by apply (okstep_go (Sender p (KSend p, fresh s) (KSignal, fresh s1)))|].
  by apply okstep_go; [apply wf_go|..].
Qed.

#[export] Instance rep_ok : ExtOk ext.
Proof.
  intros e s s' Hwf Hty. destruct e; cbn [ext].
  - intros Hs. apply bind_Some in Hs as (x & _ & [= <-]). by apply rep_okstep_RecvMsg.
  - destruct (threads s !! t) as [[]|] eqn:Ht; try done. intros [= <-]. by apply okstep_RecvMsg_end.
  - intros Hs. apply bind_Some in Hs as (x & Hx & [_ [= <-]]%guard_bind_Some).
    by apply rep_okstep_SendMsg.
  - destruct (threads s !! t) as [[]|] eqn:Ht; try done. intros Hs.
    apply bind_Some in Hs as (po & Hpo & [_ [= <-]]%guard_bind_Some). by apply rep_okstep_receiver_turn.
  - destruct (threads s !! t) as [[]|] eqn:Ht; try done. intros [= <-].
    eapply okstep_set_thread; [done|rep_count|done].
  - destruct (threads s !! t) as [[]|] eqn:Ht; try done. intros Hs.
    apply bind_Some in Hs as (po & Hpo & [= <-]). unfold sender_sent. destruct e as [e|].
    + eapply okstep_set_thread; [done|rep_count|done].
    + eapply (okstep_goto t _ _ []); [done|rep_accounting|].
      intros _. simpl. destruct (ty_vars _ Hty) as [_ Hq _]. by apply Hq.
  - destruct (threads s !! t) as [[]|] eqn:Ht; try done. intros [= <-]. unfold pipe_close.
    etrans; [by apply (rep_okstep_plain (λ σ, σ <| pclosed ::= (λ x, {[p]} ∪ x) |>))|].
    by eapply okstep_stop.
  - intros [= <-]. apply okstep_context_SetOption.
  - intros Hs. apply bind_Some in Hs as (x & _ & [= <-]). apply rep_okstep_context_Close.
  - intros [= <-]. apply rep_okstep_SetOption.
  - intros [_ [= <-]]%guard_bind_Some. unfold Close. destruct (closed (vars s)); [reflexivity|].
    etrans; [by apply (rep_okstep_plain (λ σ, σ <| closed := true |>))|].
    apply okstep_go; [by apply wf_vars|done|done].
  - destruct (threads s !! t) as [[]|] eqn:Ht; try done. intros [= <-]. by apply okstep_Close_next.
  - intros [_ [= <-]]%guard_bind_Some. by apply rep_okstep_OpenContext.
  - intros [? [= <-]]%guard_bind_Some. by apply rep_okstep_AddPipe.
  - intros Hs. apply bind_Some in Hs as (po & Hpo & [_ [= <-]]%guard_bind_Some). unfold RemovePipe.
    etrans; [by apply (rep_okstep_plain (λ σ, σ <| removed ::= (λ x, {[p]} ∪ x) |>))|].
    apply okstep_close_chan.
Qed.

Lemma rep_init_good s : init s → good s.
Proof.
  intros ->. start_good.
  split; simpl; [done|done|]. intros c x bt [_ <-]%lookup_singleton_Some. done.
Qed.

Lemma reachable_rep s : reachable step init ok s → good s.
Proof. eapply reachable_good; [apply _|apply rep_init_good]. Qed.

(** C18. A REP socket answers where it was asked, for every interleaving of
    contexts, pipes and goroutines: a message that goes to the transport of a
    pipe carries the backtrace of a request that arrived on that pipe; what
    [RecvMsg] returns is the body of a request that arrived; and a context
    that has a backtrace has the pipe it came from, so [SendMsg] never follows
    a nil pipe. *)
Theorem rep_answers s (H : reachable step init ok s) :
  (∀ t p m, threads s !! t = Some (Sending p m) →
     ∃ m0 n m1, (p, m0) ∈ arrived (vars s) ∧ rep_receive n m0 = Some m1 ∧ mhdr m = mhdr m1) ∧
  (∀ t m, threads s !! t = Some (RecvRet (Ok m)) →
     ∃ p m0 n m1, (p, m0) ∈ arrived (vars s) ∧ rep_receive n m0 = Some m1 ∧
       m = m1 <| mhdr := [] |>) ∧
  (∀ c x m, ctxs (vars s) !! c = Some x → crashed (SendMsg c x m s) = crashed s).
Proof.
  destruct (reachable_rep s H) as [_ _ Hty]. split_and!.
  - intros t p m Hth. destruct (ty_thread _ Hty _ _ Hth) as (m1 & (m0 & n & ? & ?) & ?).
    by exists m0, n, m1.
  - intros t m Hth. destruct (ty_thread _ Hty _ _ Hth) as (p & m1 & (m0 & n & ? & ?) & ?).
    by exists p, m0, n, m1.
  - intros c x m Hc. by apply SendMsg_crashed.
Qed.

(** One request and its reply. *)
Definition rep_run : state :=
  play step (λ _ _, true)
    [LExt (EAddPipe 0 7); LExt (ERecv 0); LDefault 6;
     LExt (EPipeRecv 5 (mkMsg [] (put_uint32 0x80000001 ++ [Byte.x61]) (Some 7%Z) 0));
     LCase 5 0 (Some (6, 0)); LExt (ERecvEnd 6);
     LExt (ESend 0 (mkMsg [] [Byte.x62] None 1)); LCase 7 0 (Some (4, 0))] NewProtocol.

Lemma rep_answers_witness :
  threads rep_run !! 4 = Some (Sending 0 (mkMsg (put_uint32 0x80000001) [Byte.x62] None 1)) ∧
  threads rep_run !! 6 = Some (RecvRet (Ok (mkMsg [] [Byte.x61] (Some 7%Z) 0))) ∧
  ∃ m0 n m1, (0, m0) ∈ arrived (vars rep_run) ∧ rep_receive n m0 = Some m1 ∧
    put_uint32 0x80000001 = mhdr m1.
Proof.
  assert (reachable step init ok rep_run) as Hr by (by apply play_reachable; [intros ? []|]).
  split; [by vm_compute|]. split; [by vm_compute|].
  apply (proj1 (rep_answers rep_run Hr) 4 0 (mkMsg (put_uint32 0x80000001) [Byte.x62] None 1)).
  by vm_compute.
Defined.
