(* ===== verification/Sub.v ===== *)
(** * Sub: the SUB protocol

    [src/protocol/sub/sub.go], complete, as a program of [Chan].  The code
    holds the socket's mutex across channel operations, so here the mutex is
    a variable ([locked]): a goroutine that owns it is at one of the program
    points that [critical] lists, and every section that needs it waits until
    it is free.  [ever] records the topics a context was ever subscribed to,
    [arrived] what the pipes brought. *)
From stdpp Require Import gmap list strings fin_maps.
From Stdlib Require Import ZArith Lia.
From S2P Require Import Prelude Types Chan Backtrace.

Abbreviation pid := nat.
Abbreviation cid := nat.

(** The channels: those that only get closed, and the [recvQ]s of a context. *)
Inductive kind := KSignal | KRecv (c : cid).
#[export] Instance kind_eq_dec : EqDecision kind.
Proof. solve_decision. Defined.
#[export] Instance kind_countable : Countable kind.
Proof.
  refine (inj_countable'
    (λ k, match k with KSignal => None | KRecv c => Some c end)
    (λ x, match x with None => KSignal | Some c => KRecv c end) _).
  by intros [].
Defined.
Abbreviation chid := (kind * nat)%type.

Record context := mkContext {
  recvQLen : Z;
  recvQ : chid;
  closeQ : chid;
  sizeQ : chid;
  recvExpire : Z;
  c_closed : bool;
  subs : list bytes;
  ever : list bytes
}.
#[export] Instance eta_context : Eta context := λ c,
  mkContext (recvQLen c) (recvQ c) (closeQ c) (sizeQ c) (recvExpire c) (c_closed c) (subs c)
    (ever c).

Record socket := mkSocket {
  master : cid;
  contexts : gset cid;       (* s.ctxs *)
  closed : bool;
  locked : option thid;      (* who holds the mutex *)
  ctxs : gmap cid context;   (* all context objects *)
  pclosed : gset pid;
  arrived : list msg
}.
#[export] Instance eta_socket : Eta socket := λ s,
  mkSocket (master s) (contexts s) (closed s) (locked s) (ctxs s) (pclosed s) (arrived s).

Definition defaultQLen : Z := 128.

(** [bytes.HasPrefix(m.Body, sub)] and [matches]. *)
Definition has_prefix (b sub : bytes) : bool := bool_decide (take (length sub) b = sub).
Fixpoint matches_subs (l : list bytes) (m : msg) : bool :=
  match l with
  | [] => false
  | sub :: l => if has_prefix (mbody m) sub then true else matches_subs l m
  end.
Definition matches (x : context) (m : msg) : bool := matches_subs (subs x) m.

(** Program points. *)
Inductive thread :=
  | RecvTry (c : cid) (rq zq cq : chid) (tq : bool)
  | RecvWait (c : cid) (rq zq cq : chid) (tq : bool)
  | RecvResize (c : cid) (cq : chid) (tq : bool)  (* sizeQ fired; before s.Lock() *)
  | RecvGot (c : cid) (m : msg)                   (* before m.MakeUnique() *)
  | RecvRet (c : cid) (r : result msg)
  | Receiver (p : pid)                            (* in p.p.RecvMsg() *)
  | Locking (p : pid) (m : msg)                   (* receiver, before s.Lock() *)
  | Next (p : pid) (m : msg) (l : list cid)       (* the head of its loop over s.ctxs *)
  | Try (p : pid) (m : msg) (l : list cid) (rq : chid)
  | Drain (p : pid) (m : msg) (l : list cid) (rq : chid)
  | Put (p : pid) (m : msg) (l : list cid) (rq : chid)
  | PipeClose (p : pid)
  | UDrain (c : cid) (x : list bytes) (old new : chid)  (* unsubscribe, pruning *)
  | UPut (c : cid) (x : list bytes) (m : msg) (old new : chid)
  | UDone
  | CloseChan (ch : chid) (l : list cid)          (* context.Close, after s.Unlock() *)
  | Closing (l : list cid)                        (* socket.Close, closing contexts *)
  | Done.

(** The points at which a goroutine owns the mutex. *)
Definition critical (th : thread) : bool :=
  match th with
  | Next _ _ _ | Try _ _ _ _ | Drain _ _ _ _ | Put _ _ _ _ | UDrain _ _ _ _ | UPut _ _ _ _ _
  | UDone => true
  | _ => false
  end.

Definition timer (tq : bool) : list (op kind msg) := if tq then [OTime] else [].

Definition sel (th : thread) : list (op kind msg) :=
  match th with
  | RecvTry c rq zq cq tq => [ORecv rq]
  | RecvWait c rq zq cq tq => [ORecv cq; ORecv zq; ORecv rq] ++ timer tq
  | Try p m l rq => [OSend rq m]
  | Drain p m l rq => [ORecv rq]
  | Put p m l rq => [OSend rq m]
  | UDrain c x old new => [ORecv old]
  | UPut c x m old new => [OSend new m]
  | _ => []
  end.
Definition dflt (th : thread) : bool :=
  match th with
  | RecvTry _ _ _ _ _ | Try _ _ _ _ | Drain _ _ _ _ | UDrain _ _ _ _ => true
  | _ => false
  end.

(** After a case.  A [recvQ] is never closed, so a receive from it brings a
    message. *)
Definition res (th : thread) (i : option nat) (v : option msg) : thread * list msg :=
  match th, i with
  | RecvTry c rq zq cq tq, None => (RecvWait c rq zq cq tq, [])
  | RecvTry c rq zq cq tq, Some _ =>
      (match v with Some m => RecvGot c m | None => RecvWait c rq zq cq tq end, [])
  | RecvWait c rq zq cq tq, Some 0 => (RecvRet c (Err ErrClosed), [])
  | RecvWait c rq zq cq tq, Some 1 => (RecvResize c cq tq, [])
  | RecvWait c rq zq cq tq, Some 2 =>
      (match v with Some m => RecvGot c m | None => RecvWait c rq zq cq tq end, [])
  | RecvWait c rq zq cq tq, Some _ => (RecvRet c (Err ErrRecvTimeout), [])
  | Try p m l rq, None => (Drain p m l rq, [])
  | Try p m l rq, Some _ => (Next p m l, [])
  | Drain p m l rq, None => (Put p m l rq, [])
  | Drain p m l rq, Some _ => (Put p m l rq, option_list v)
  | Put p m l rq, Some _ => (Next p m l, [])
  | UDrain c x old new, None => (UDone, [])
  | UDrain c x old new, Some _ =>
      match v with
      | Some m => if matches_subs x m then (UPut c x m old new, []) else (UDrain c x old new, [m])
      | None => (UDone, [])
      end
  | UPut c x m old new, Some _ => (UDrain c x old new, [])
  | th, _ => (th, [])
  end.

#[export] Instance sub_program : Program kind msg thread :=
  { select := sel; has_default := dflt; resume := res }.

Abbreviation state := (st kind msg socket thread).

(** ** The critical sections *)
Definition upd_ctx (c : cid) (f : context → context) (s : state) : state :=
  set_vars (λ σ, σ <| ctxs ::= alter f c |>) s.
Definition lock (t : thid) (s : state) : state := set_vars (λ σ, σ <| locked := Some t |>) s.
Definition unlock (s : state) : state := set_vars (λ σ, σ <| locked := None |>) s.

(** [context.RecvMsg], up to its first [select], and after a resize. *)
Definition RecvMsg (c : cid) (x : context) (s : state) : state :=
  go (RecvTry c (recvQ x) (sizeQ x) (closeQ x) (negb (recvExpire x =? 0)%Z)) s.
Definition RecvMsg_resized (t : thid) (c : cid) (x : context) (cq : chid) (tq : bool) (s : state)
    : state := set_thread t (RecvTry c (recvQ x) (sizeQ x) cq tq) s.

(** The references to a message that are left. *)
Definition refcount (x : nat) (s : state) : nat :=
  kocc x (given s) - kocc x (freed s) - kocc x (passed s).

(** [m.MakeUnique()]; [n] is the identity of the copy, if one is made. *)
Definition RecvMsg_unique (t : thid) (c : cid) (m : msg) (n : nat) (s : state) : state :=
  if decide (refcount (mref m) s = 1) then set_thread t (RecvRet c (Ok m)) s
  else
    let d := m <| mref := n |> in
    set_thread t (RecvRet c (Ok d)) (free [m] (give [d] s)).

(** [receiver]: one context of its loop; at the end the lock is released and
    the message freed. *)
Definition receiver_next (t : thid) (p : pid) (m : msg) (l : list cid) (s : state) : state :=
  match l with
  | [] => set_thread t (Receiver p) (unlock (free [m] s))
  | c :: l =>
      match ctxs (vars s) !! c with
      | Some x =>
          if matches x m then set_thread t (Try p m l (recvQ x)) (give [m] s)
          else set_thread t (Next p m l) s
      | None => set_thread t (Next p m l) s
      end
  end.

(** [context.Close], and the [close(c.closeQ)] that follows it. *)
Definition context_Close (c : cid) (x : context) (l : list cid) (s : state) : state :=
  if c_closed x then go (Closing l) s
  else
    let s := upd_ctx c (λ x, x <| c_closed := true |>) s in
    let s := set_vars (λ σ, σ <| contexts ::= (λ cs, cs ∖ {[c]}) |>) s in
    go (CloseChan (closeQ x) l) s.

Definition subscribe (c : cid) (x : context) (topic : bytes) (s : state) : error * state :=
  if decide (topic ∈ subs x) then (None, s)
  else (None, upd_ctx c (λ x, x <| subs ::= (λ l, l ++ [topic]) |>
                                <| ever ::= (λ l, l ++ [topic]) |>) s).

(** [unsubscribe]: a fresh queue, into which the matching messages of the
    old one are moved under the lock. *)
Definition unsubscribe (c : cid) (x : context) (topic : bytes) (s : state) : error * state :=
  if decide (topic ∈ subs x) then
    let x' := x <| subs ::= remove_first topic |> in
    let '(rq, s) := make_chan (KRecv c) (Z.to_nat (recvQLen x)) s in
    let '(zq, s) := make_chan KSignal 0 s in
    let s := upd_ctx c (λ y, y <| subs := subs x' |> <| recvQ := rq |> <| sizeQ := zq |>) s in
    let s := close_chan (sizeQ x) s in
    (None, go (UDrain c (subs x') (recvQ x) rq) (lock (fresh s) s))
  else (Some ErrBadValue, s).

Definition set_qlen (c : cid) (x : context) (z : Z) (s : state) : state :=
  let '(rq, s) := make_chan (KRecv c) (Z.to_nat z) s in
  let '(zq, s) := make_chan KSignal 0 s in
  let s := upd_ctx c (λ y, y <| recvQ := rq |> <| sizeQ := zq |> <| recvQLen := z |>) s in
  close_chan (sizeQ x) s.

(** [context.SetOption]; [make(chan, v)] panics on a negative length. *)
Definition context_SetOption (c : cid) (x : context) (name : string) (v : value) (s : state)
    : error * state :=
  if String.eqb name OptionReadQLen then
    match v with
    | VInt z => (None, if (z <? 0)%Z then s <| crashed := true |> else set_qlen c x z s)
    | _ => (Some ErrBadValue, s)
    end
  else if String.eqb name OptionRecvDeadline then
    match v with
    | VDuration d => (None, upd_ctx c (λ y, y <| recvExpire := d |>) s)
    | _ => (Some ErrBadValue, s)
    end
  else if String.eqb name OptionSubscribe then
    match v with
    | VBytes b => subscribe c x b s
    | VString b => subscribe c x (String.list_byte_of_string b) s
    | _ => (Some ErrBadValue, s)
    end
  else if String.eqb name OptionUnsubscribe then
    match v with
    | VBytes b => unsubscribe c x b s
    | VString b => unsubscribe c x (String.list_byte_of_string b) s
    | _ => (Some ErrBadValue, s)
    end
  else (Some ErrBadOption, s).

Definition context_GetOption (name : string) (x : context) : result value :=
  if String.eqb name OptionReadQLen then Ok (VInt (recvQLen x))
  else if String.eqb name OptionRecvDeadline then Ok (VDuration (recvExpire x))
  else Err ErrBadOption.
Definition GetOption (name : string) (σ : socket) : result value :=
  if String.eqb name OptionRaw then Ok (VBool false)
  else match ctxs σ !! master σ with
       | Some x => context_GetOption name x
       | None => Err ErrBadOption
       end.

Definition SendMsg : error := Some ErrProtoOp.

Definition AddPipe (p : pid) (s : state) : error * state :=
  if closed (vars s) then (Some ErrClosed, s) else (None, go (Receiver p) s).

Definition Close (order : list cid) (s : state) : error * state :=
  if closed (vars s) then (Some ErrClosed, s)
  else (None, go (Closing order) (set_vars (λ σ, σ <| closed := true |>) s)).

Definition OpenContext (c : cid) (s : state) : error * state :=
  if closed (vars s) then (Some ErrClosed, s)
  else match ctxs (vars s) !! master (vars s) with
  | None => (None, s <| crashed := true |>)
  | Some d =>
      let '(cq, s) := make_chan KSignal 0 s in
      let '(zq, s) := make_chan KSignal 0 s in
      let '(rq, s) := make_chan (KRecv c) (Z.to_nat (recvQLen d)) s in
      let x := mkContext (recvQLen d) rq cq zq (recvExpire d) false [] [] in
      (None, set_vars (λ σ, σ <| ctxs ::= <[c := x]> |>
                              <| contexts ::= (λ cs, {[c]} ∪ cs) |>) s)
  end.

Definition Info : ProtocolInfo := mkInfo ProtoSub ProtoPub "sub" "pub".

Definition NewProtocol : state :=
  let rq := (KRecv 0, 0) in
  let cq := (KSignal, 1) in
  let zq := (KSignal, 2) in
  mkSt (mkSocket 0 {[0]} false None {[0 := mkContext defaultQLen rq cq zq 0 false [] []]} ∅ [])
    {[rq := mkChan [] (Z.to_nat defaultQLen) false [] []; cq := mkChan [] 0 false [] [];
      zq := mkChan [] 0 false [] []]} ∅ 3 [] [] [] false.

(** ** The program *)
Inductive event :=
  | ERecv (c : cid)
  | ERecvResize (t : thid)
  | EUnique (t : thid) (n : nat)
  | EPipeRecv (t : thid) (m : msg)
  | EPipeRecvNil (t : thid)
  | ELock (t : thid) (order : list cid)   (* receiver gets the lock *)
  | ENext (t : thid)
  | EPipeClose (t : thid)
  | EUnlock (t : thid)                    (* unsubscribe returns *)
  | ECtxSetOption (c : cid) (name : string) (v : value)
  | ECtxClose (c : cid)
  | ECloseChan (t : thid)
  | EClose (order : list cid)
  | EClosing (t : thid)
  | EOpenContext (c : cid)
  | EAddPipe (p : pid).

(** The mutex is free. *)
Definition free_lock (s : state) : Prop := locked (vars s) = None.

Definition ext (e : event) (s : state) : option state :=
  match e with
  | ERecv c => guard (free_lock s);; x ← ctxs (vars s) !! c; Some (RecvMsg c x s)
  | ERecvResize t =>
      match threads s !! t with
      | Some (RecvResize c cq tq) =>
          guard (free_lock s);; x ← ctxs (vars s) !! c; Some (RecvMsg_resized t c x cq tq s)
      | _ => None
      end
  | EUnique t n =>
      match threads s !! t with
      | Some (RecvGot c m) => guard (n ∉ mref <$> given s);; Some (RecvMsg_unique t c m n s)
      | _ => None
      end
  | EPipeRecv t m =>
      match threads s !! t with
      | Some (Receiver p) =>
          guard (mref m ∉ mref <$> given s ∧ mhdr m = []);;
          Some (set_thread t (Locking p m)
            (set_vars (λ σ, σ <| arrived ::= (λ l, l ++ [m]) |>) (give [m] s)))
      | _ => None
      end
  | EPipeRecvNil t =>
      match threads s !! t with
      | Some (Receiver p) => Some (set_thread t (PipeClose p) s)
      | _ => None
      end
  | ELock t order =>
      match threads s !! t with
      | Some (Locking p m) =>
          guard (free_lock s ∧ NoDup order ∧ list_to_set order = contexts (vars s));;
          Some (set_thread t (Next p m order) (lock t s))
      | _ => None
      end
  | ENext t =>
      match threads s !! t with
      | Some (Next p m l) => Some (receiver_next t p m l s)
      | _ => None
      end
  | EPipeClose t =>
      match threads s !! t with
      | Some (PipeClose p) =>
          Some (set_thread t Done (set_vars (λ σ, σ <| pclosed ::= (λ x, {[p]} ∪ x) |>) s))
      | _ => None
      end
  | EUnlock t =>
      match threads s !! t with
      | Some UDone => Some (set_thread t Done (unlock s))
      | _ => None
      end
  | ECtxSetOption c name v =>
      guard (free_lock s);; x ← ctxs (vars s) !! c; Some (snd (context_SetOption c x name v s))
  | ECtxClose c => guard (free_lock s);; x ← ctxs (vars s) !! c; Some (context_Close c x [] s)
  | ECloseChan t =>
      match threads s !! t with
      | Some (CloseChan ch l) => Some (set_thread t (Closing l) (close_chan ch s))
      | _ => None
      end
  | EClose order =>
      guard (free_lock s ∧ NoDup order ∧ list_to_set order = contexts (vars s));;
      Some (snd (Close order s))
  | EClosing t =>
      match threads s !! t with
      | Some (Closing (c :: l)) =>
          guard (free_lock s);; x ← ctxs (vars s) !! c;
          Some (context_Close c x l (set_thread t Done s))
      | _ => None
      end
  | EOpenContext c =>
      guard (free_lock s ∧ ctxs (vars s) !! c = None);; Some (snd (OpenContext c s))
  | EAddPipe p => guard (free_lock s);; Some (snd (AddPipe p s))
  end.

Definition init (s : state) : Prop := s = NewProtocol.
Definition step : label event → state → option state := gstep ext.
Definition ok : state → label event → Prop := gok (λ _ _, True).

(** ** Ownership *)
Definition holding (th : thread) : list msg :=
  match th with
  | RecvGot _ m | RecvRet _ (Ok m) | Locking _ m | Next _ m _ | UPut _ _ m _ _ => [m]
  | Try _ m _ _ | Drain _ m _ _ | Put _ m _ _ => [m; m]
  | _ => []
  end.

#[export] Instance sub_owns : Owns (K := kind) (A := msg) (T := thread).
Proof.
  refine {| holds := holding |}.
  - intros th i o v y Hsel Hv.
    destruct th; try (destruct tq); cbn in Hsel; select_cases Hsel; cbn in *; subst;
      try (destruct v as [m'|]); cbn;
      try match goal with |- context [matches_subs ?x ?m] => destruct (matches_subs x m) end; owns_lia.
  - intros th y Hd. destruct th; try done; owns_lia.
Defined.

(** ** What the channels carry *)

(** [m] was wanted by context [k]: it starts with a topic that [k] was
    subscribed to at some time. *)
Definition wanted (σ : socket) (k : cid) (m : msg) : Prop :=
  ∃ x topic, ctxs σ !! k = Some x ∧ topic ∈ ever x ∧ has_prefix (mbody m) topic = true.

(** On the current queue of a context, only messages that match one of its
    present subscriptions. *)
Definition ctype (σ : socket) (c : chid) (m : msg) : Prop :=
  match c.1 with
  | KSignal => False
  | KRecv k => m ∈ arrived σ ∧ wanted σ k m ∧
      ∀ x, ctxs σ !! k = Some x → recvQ x = c → matches x m = true
  end.

Definition owner (σ : socket) (t : thid) : Prop := locked σ = Some t.
(** The pruning goroutine works for context [c], whose subscriptions are now
    [l], and moves messages to its current queue. *)
Definition pruning (σ : socket) (c : cid) (l : list bytes) (old new : chid) : Prop :=
  old.1 = KRecv c ∧ new.1 = KRecv c ∧
  ∃ x, ctxs σ !! c = Some x ∧ subs x = l ∧ recvQ x = new.

Definition ttype (σ : socket) (t : thid) (th : thread) : Prop :=
  match th with
  | RecvTry c rq _ _ _ | RecvWait c rq _ _ _ => rq.1 = KRecv c
  | RecvGot c m => m ∈ arrived σ ∧ wanted σ c m
  | RecvRet c (Ok m) => wanted σ c m ∧ ∃ m0, m0 ∈ arrived σ ∧ m = m0 <| mref := mref m |>
  | Locking _ m => m ∈ arrived σ
  | Next _ m _ => owner σ t ∧ m ∈ arrived σ
  | Try _ m _ rq | Drain _ m _ rq | Put _ m _ rq => owner σ t ∧ m ∈ arrived σ ∧ ctype σ rq m
  | UDrain c l old new => owner σ t ∧ pruning σ c l old new
  | UPut c l m old new => owner σ t ∧ pruning σ c l old new ∧ ctype σ new m
  | UDone => owner σ t
  | _ => True
  end.

Record vtype (σ : socket) : Prop := {
  vt_recvQ c x : ctxs σ !! c = Some x → (recvQ x).1 = KRecv c;
  vt_ever c x : ctxs σ !! c = Some x → ∀ topic, topic ∈ subs x → topic ∈ ever x
}.

Lemma has_prefix_iff b sub : has_prefix b sub = true ↔ sub `prefix_of` b.
Proof.
  unfold has_prefix. rewrite bool_decide_eq_true. split.
  - intros E. exists (drop (length sub) b). by rewrite <-E at 1; rewrite take_drop.
  - intros [k ->]. apply take_app_length.
Qed.

Lemma matches_iff l m : matches_subs l m = true ↔ ∃ topic, topic ∈ l ∧ has_prefix (mbody m) topic = true.
Proof.
  induction l as [|a l IH]; simpl; [split; [done|intros (? & ?%elem_of_nil & _); done]|].
  destruct (has_prefix (mbody m) a) eqn:E.
  - split; [|done]. intros _. exists a. split; [set_solver|done].
  - rewrite IH. split; intros (y & Hy & Hp); exists y; (split; [|done]).
    + by apply elem_of_cons; right.
    + apply elem_of_cons in Hy as [->|Hy]; [|done]. by rewrite Hp in E.
Qed.

#[export] Instance sub_typed : Typed (K := kind) (A := msg) (S := socket) (T := thread).
Proof.
  refine {| vars_type := vtype; chan_type := ctype; thread_type := ttype |}.
  - intros σ t th i o v Hsel Hth Hv.
    destruct th; try (destruct tq); cbn in Hsel; select_cases Hsel; cbn in Hth;
      try (destruct v as [m'|]); try done; cbn.
    all: try (unfold ctype in Hv; rewrite Hth in Hv; naive_solver).
    all: try naive_solver.
    destruct Hth as (Ho & Hpr). pose proof Hpr as (Hold & Hnew & y & Hy & Hs & Hq).
    destruct (matches_subs x m') eqn:Hm; cbn; [|done]. split_and!; [done..|].
    unfold ctype in *. rewrite Hold in Hv. rewrite Hnew. destruct Hv as (Ha & Hw & _).
    split_and!; [done|done|]. intros y' Hy' _. unfold matches. simplify_eq. done.
  - intros σ t th Hd Hth. destruct th; try done. by destruct Hth.
Defined.

(** ** How the variables move *)

(** What every step keeps: messages that arrived, and topics ever subscribed
    to. *)
Record vle (σ σ' : socket) : Prop := {
  le_arr m : m ∈ arrived σ → m ∈ arrived σ';
  le_ctx c x : ctxs σ !! c = Some x →
    ∃ x', ctxs σ' !! c = Some x' ∧ ∀ topic, topic ∈ ever x → topic ∈ ever x'
}.

Lemma wanted_mono σ σ' k m : vle σ σ' → wanted σ k m → wanted σ' k m.
Proof.
  intros [_ Hc] (x & topic & Hx & He & Hp). destruct (Hc _ _ Hx) as (x' & Hx' & He').
  exists x', topic. auto.
Qed.

Lemma ttype_mono σ σ' t th : vle σ σ' → critical th = false → ttype σ t th → ttype σ' t th.
Proof.
  intros Hle Hcr. pose proof (le_arr _ _ Hle) as Ha. destruct th as [| | | |c [m|]| | | | | | | | | | | | |];
    simpl in *; try done; try (by auto).
  - intros [? ?]. eauto using wanted_mono.
  - intros [? (m0 & ? & ?)]. eauto 10 using wanted_mono.
Qed.

(** The thread that owns the mutex is the only one inside a critical
    section. *)
Lemma critical_owner σ t th : critical th = true → ttype σ t th → owner σ t.
Proof. destruct th; simpl; try done; intros _; by (intros []) || done. Qed.

(** A change while the mutex is free.  A context's queue is as before, with
    more subscriptions, or new. *)
Lemma okstep_free f s :
  free_lock s → vle (vars s) (f (vars s)) → (vtype (vars s) → vtype (f (vars s))) →
  (∀ c x', ctxs (f (vars s)) !! c = Some x' →
     (∃ x, ctxs (vars s) !! c = Some x ∧ recvQ x = recvQ x' ∧
        ∀ topic, topic ∈ subs x → topic ∈ subs x') ∨
     (∀ ch, chans s !! recvQ x' = Some ch → ins ch = [])) →
  okstep s (set_vars f s).
Proof.
  intros Hfree Hle Hv Hq. apply okstep_vars_ins; [done| |].
  - intros [k n] ch m _ Hch Hm. unfold ctype. simpl. destruct k as [|k]; [done|].
    intros (Ha & Hw & Hmt). split_and!; [by apply Hle|by eapply wanted_mono|].
    intros x' Hx' Hrq. destruct (Hq _ _ Hx') as [(x & Hx & Hrq' & Hs)|Hnew].
    + apply matches_iff. destruct (proj1 (matches_iff _ _) (Hmt x Hx ltac:(congruence))) as (tp & ? & ?).
      eauto.
    + rewrite Hrq in Hnew. rewrite (Hnew _ Hch) in Hm. by apply elem_of_nil in Hm.
  - intros t th _ Ht Hth. destruct (critical th) eqn:Hcr; [|by eapply ttype_mono].
    apply critical_owner in Hth; [|done]. unfold owner, free_lock in *. congruence.
Qed.

(** A change of one context. *)
Lemma okstep_ctx c g s :
  free_lock s →
  (∀ x, ctxs (vars s) !! c = Some x →
     (∀ topic, topic ∈ ever x → topic ∈ ever (g x)) ∧
     ((∀ topic, topic ∈ subs x → topic ∈ ever x) → ∀ topic, topic ∈ subs (g x) → topic ∈ ever (g x)) ∧
     (recvQ (g x) = recvQ x ∧ (∀ topic, topic ∈ subs x → topic ∈ subs (g x)) ∨
      (recvQ (g x)).1 = KRecv c ∧ ∀ ch, chans s !! recvQ (g x) = Some ch → ins ch = [])) →
  okstep s (upd_ctx c g s).
Proof.
  intros Hfree Hg. apply okstep_free; [done|split; [done|]|intros [Hrq Hev]; split|]; simpl.
  - intros k x Hx. rewrite lookup_alter. case_decide; [subst; rewrite Hx|by eauto].
    exists (g x). split; [done|]. by apply Hg.
  - intros k x'. rewrite lookup_alter. case_decide; [subst|by apply Hrq].
    intros (x & Hx & ->)%fmap_Some. destruct (Hg _ Hx) as (_ & _ & [[-> _]|[? _]]); eauto.
  - intros k x'. rewrite lookup_alter. case_decide; [subst|by apply Hev].
    intros (x & Hx & ->)%fmap_Some. destruct (Hg _ Hx) as (_ & ? & _); eauto.
  - intros k x'. rewrite lookup_alter. case_decide; [subst|by eauto 10].
    intros (x & Hx & ->)%fmap_Some. destruct (Hg _ Hx) as (_ & _ & [[? ?]|[_ ?]]); [left|by right].
    exists x. auto.
Qed.

(** A change that leaves the contexts and the mutex alone. *)
Lemma okstep_apart f s :
  (∀ m, m ∈ arrived (vars s) → m ∈ arrived (f (vars s))) → ctxs (f (vars s)) = ctxs (vars s) →
  locked (f (vars s)) = locked (vars s) → okstep s (set_vars f s).
Proof.
  intros Ha Hc Hl. set (σ := vars s) in *. set (σ' := f σ) in *.
  assert (vle σ σ') as Hle by (split; [done|rewrite Hc; by eauto]).
  assert (∀ c m, ctype σ c m → ctype σ' c m) as Hct.
  { intros [[|k] n] m; unfold ctype; simpl; [done|]. intros (? & ? & ?).
    split_and!; [auto|by eapply wanted_mono|by rewrite Hc]. }
  apply okstep_vars; [|intros ? ? _; apply Hct|]; fold σ σ'.
  - intros [? ?]. split; by rewrite Hc.
  - intros t th _ _. destruct (critical th) eqn:Hcr; [|by apply ttype_mono].
    destruct th; simpl; try done; unfold owner, pruning; rewrite ?Hl, ?Hc; naive_solver.
Qed.

(** ** The critical sections keep everything *)
Lemma okstep_lock t s : free_lock s → okstep s (lock t s).
Proof.
  intros Hfree. apply okstep_free; [done|by split; eauto|by intros []; split|].
  intros c x Hx. left. by exists x.
Qed.
Lemma okstep_unlock t th s :
  locked (vars s) = Some t → threads s !! t = Some th → critical th = false → okstep s (unlock s).
Proof.
  intros Hl Ht Hcr. apply okstep_vars; [by intros []; split|done|].
  intros t' th' _ Ht' Hth'. destruct (critical th') eqn:Hcr'; [|apply (ttype_mono (vars s)); [by split; eauto|done|done]].
  apply critical_owner in Hth'; [|done]. unfold owner in Hth'. congruence.
Qed.

Lemma sub_okstep_RecvMsg c x s : wf s → ctxs (vars s) !! c = Some x → okstep s (RecvMsg c x s).
Proof.
  intros Hwf Hx. apply okstep_go; [done|done|]. intros Hty. by apply (vt_recvQ _ (ty_vars _ Hty)).
Qed.
Lemma okstep_RecvMsg_resized t c x cq tq s :
  threads s !! t = Some (RecvResize c cq tq) → ctxs (vars s) !! c = Some x →
  okstep s (RecvMsg_resized t c x cq tq s).
Proof.
  intros Ht Hx. eapply okstep_set_thread; [done|count|].
  intros Hty. by apply (vt_recvQ _ (ty_vars _ Hty)).
Qed.
Lemma okstep_RecvMsg_unique t c m n s :
  typed s → threads s !! t = Some (RecvGot c m) → okstep s (RecvMsg_unique t c m n s).
Proof.
  intros Hty Ht. destruct (ty_thread _ Hty _ _ Ht) as [Ha Hw]. unfold RecvMsg_unique. case_decide.
  - eapply okstep_set_thread; [done|count|]. intros _. split; [done|]. exists m. by destruct m.
  - eapply (okstep_goto t _ _ [m <| mref := n |>]); [done|accounting|]. intros _.
    split; [|by exists m]. destruct Hw as (x & tp & ? & ? & ?). by exists x, tp.
Qed.

Lemma okstep_receiver_next t p m l s :
  typed s → threads s !! t = Some (Next p m l) → okstep s (receiver_next t p m l s).
Proof.
  intros Hty Ht. destruct (ty_thread _ Hty _ _ Ht) as [Ho Ha]. unfold receiver_next.
  assert (∀ l, okstep s (set_thread t (Next p m l) s)) as Hnext.
  { intros l'. eapply okstep_set_thread; [done|count|done]. }
  destruct l as [|c l].
  - change (okstep s (unlock (set_thread t (Receiver p) (free [m] s)))).
    etrans; [apply (okstep_goto t (Next p m []) (Receiver p) [] s (free [m] s)); [done|accounting|done]|].
    apply (okstep_unlock t (Receiver p)); [exact Ho|apply lookup_insert_eq|done].
  - destruct (ctxs (vars s) !! c) as [x|] eqn:Hx; [|done].
    destruct (matches x m) eqn:Hm; [|done].
    eapply (okstep_goto t _ _ [m]); [done|accounting|]. intros _. split_and!; [done|done|].
    destruct (ty_vars _ Hty) as [Hrq Hev]. unfold ctype. rewrite (Hrq _ _ Hx). split_and!; [done| |].
    + destruct (proj1 (matches_iff _ _) Hm) as (tp & ? & ?). exists x, tp. eauto.
    + intros x' Hx' _. by simplify_eq.
Qed.

Lemma sub_okstep_context_Close c x l s :
  wf s → free_lock s → ctxs (vars s) !! c = Some x → okstep s (context_Close c x l s).
Proof.
  intros Hwf Hf Hx. unfold context_Close. destruct (c_closed x); [by apply okstep_go|].
  set (s1 := upd_ctx c _ s). assert (okstep s s1) as Hok1.
  { apply okstep_ctx; [done|]. intros y _. split_and!; [done|done|by left]. }
  set (s2 := set_vars _ s1). assert (okstep s1 s2) as Hok2 by by apply okstep_apart.
  etrans; [exact Hok1|]. etrans; [exact Hok2|]. apply okstep_go; [|done|done].
  apply Hok2. by apply Hok1.
Qed.

Lemma okstep_subscribe c x topic s :
  free_lock s → okstep s (snd (subscribe c x topic s)).
Proof.
  intros Hf. unfold subscribe. case_decide; [reflexivity|]. apply okstep_ctx; [done|].
  intros y _. split_and!; simpl; [set_solver..|left; set_solver].
Qed.

(** A new queue for a context, as [unsubscribe] and [SetOption] make it. *)
Lemma okstep_requeue c x n g s :
  wf s → free_lock s →
  (∀ rq zq y, ctxs (vars s) !! c = Some y →
     recvQ (g rq zq y) = rq ∧ ever (g rq zq y) = ever y ∧
     ((∀ topic, topic ∈ subs y → topic ∈ ever y) → ∀ topic, topic ∈ subs (g rq zq y) → topic ∈ ever y)) →
  let '(rq, s1) := make_chan (KRecv c) n s in
  let '(zq, s2) := make_chan KSignal 0 s1 in
  let s3 := close_chan (sizeQ x) (upd_ctx c (g rq zq) s2) in
  okstep s s3 ∧ wf s3 ∧ free_lock s3 ∧ rq.1 = KRecv c ∧
  ctxs (vars s3) = alter (g rq zq) c (ctxs (vars s)).
Proof.
  intros Hwf Hf Hg. destruct (make_chan (KRecv c) n s) as [rq s1] eqn:E1.
  destruct (okstep_make_chan _ _ _ _ _ Hwf E1) as (Hok1 & Hwf1 & Hrq & Hv1 & _).
  destruct (make_chan KSignal 0 s1) as [zq s2] eqn:E2.
  destruct (okstep_make_chan _ _ _ _ _ Hwf1 E2) as (Hok2 & Hwf2 & _ & Hv2 & _).
  set (s3 := upd_ctx c (g rq zq) s2). assert (okstep s2 s3) as Hok3.
  { apply okstep_ctx; [unfold free_lock; by rewrite Hv2, Hv1|]. rewrite Hv2, Hv1. intros y Hy.
    destruct (Hg rq zq y Hy) as (-> & -> & Hs). split_and!; [done|done|right].
    split; [by rewrite Hrq|]. intros ch. injection E1 as <- <-. injection E2 as <- <-. cbn.
    rewrite lookup_insert_ne by congruence. rewrite lookup_insert_eq. by intros [= <-]. }
  assert (okstep s (close_chan (sizeQ x) s3)) as Hok.
  { etrans; [exact Hok1|]. etrans; [exact Hok2|]. etrans; [exact Hok3|]. apply okstep_close_chan. }
  assert (vars (close_chan (sizeQ x) s3) = vars s3) as Hv3 by apply vars_close_chan.
  split_and!; [done|by apply Hok| |by rewrite Hrq|].
  - unfold free_lock. rewrite Hv3. simpl. by rewrite Hv2, Hv1.
  - rewrite Hv3. simpl. by rewrite Hv2, Hv1.
Qed.

Lemma okstep_unsubscribe c x topic s :
  wf s → typed s → free_lock s → ctxs (vars s) !! c = Some x →
  okstep s (snd (unsubscribe c x topic s)).
Proof.
  intros Hwf Hty Hf Hx. unfold unsubscribe. case_decide; [|reflexivity].
  set (x' := x <| subs ::= remove_first topic |>). 
  pose proof (okstep_requeue c x (Z.to_nat (recvQLen x))
    (λ rq zq y, y <| subs := subs x' |> <| recvQ := rq |> <| sizeQ := zq |>) s Hwf Hf) as Hrq.
  destruct (make_chan (KRecv c) _ s) as [rq s1]. destruct (make_chan KSignal 0 s1) as [zq s2].
  cbv zeta in *. cbn [snd].
  destruct Hrq as (Hok & Hwf3 & Hf3 & Hk & Hctx).
  { intros rq' zq' y Hy. simplify_eq. split_and!; [done|done|]. intros Hs tp Htp.
    apply Hs. simpl in Htp. by eapply elem_of_remove_first_1. }
  set (s3 := close_chan (sizeQ x) _) in *. clearbody s3. etrans; [exact Hok|]. etrans; [by apply (okstep_lock (fresh s3))|].
  apply okstep_go; [by apply wf_vars|done|]. intros Hty3. split; [done|].
  split_and!; [by apply (vt_recvQ _ (ty_vars _ Hty))|done|].
  eexists. simpl. rewrite Hctx, lookup_alter_eq, Hx. by split_and!.
Qed.

Lemma okstep_SetOption c x name v s :
  wf s → typed s → free_lock s → ctxs (vars s) !! c = Some x →
  okstep s (snd (context_SetOption c x name v s)).
Proof.
  intros Hwf Hty Hf Hx. unfold context_SetOption.
  destruct (String.eqb name OptionReadQLen).
  { destruct v; try reflexivity. cbn [snd]. destruct (z <? 0)%Z; [by apply (okstep_account []); accounting|].
    unfold set_qlen.
    pose proof (okstep_requeue c x (Z.to_nat z)
      (λ rq zq y, y <| recvQ := rq |> <| sizeQ := zq |> <| recvQLen := z |>) s Hwf Hf) as Hrq.
    destruct (make_chan (KRecv c) _ s) as [rq s1]. destruct (make_chan KSignal 0 s1) as [zq s2].
    by destruct Hrq. }
  destruct (String.eqb name OptionRecvDeadline).
  { destruct v; try reflexivity. apply okstep_ctx; [done|]. intros y _. split_and!; [done|done|by left]. }
  destruct (String.eqb name OptionSubscribe).
  { destruct v; try reflexivity; by apply okstep_subscribe. }
  destruct (String.eqb name OptionUnsubscribe); [|reflexivity].
  destruct v; try reflexivity; by apply okstep_unsubscribe.
Qed.

Lemma sub_okstep_OpenContext c s :
  wf s → free_lock s → ctxs (vars s) !! c = None → okstep s (snd (OpenContext c s)).
Proof.
  intros Hwf Hf Hc. unfold OpenContext. destruct (closed (vars s)); [reflexivity|].
  destruct (ctxs (vars s) !! master (vars s)) as [d|]; [|by apply (okstep_account []); accounting].
  destruct (make_chan KSignal 0 s) as [cq s1] eqn:E1.
  destruct (okstep_make_chan _ _ _ _ _ Hwf E1) as (Hok1 & Hwf1 & _ & Hv1 & _).
  destruct (make_chan KSignal 0 s1) as [zq s2] eqn:E2.
  destruct (okstep_make_chan _ _ _ _ _ Hwf1 E2) as (Hok2 & Hwf2 & _ & Hv2 & _).
  destruct (make_chan (KRecv c) _ s2) as [rq s3] eqn:E3.
  destruct (okstep_make_chan _ _ _ _ _ Hwf2 E3) as (Hok3 & Hwf3 & Hrq & Hv3 & _).
  cbn [snd]. etrans; [exact Hok1|]. etrans; [exact Hok2|]. etrans; [exact Hok3|].
  assert (vars s3 = vars s) as Hv by congruence.
  apply okstep_free; [unfold free_lock; by rewrite Hv|split; [done|]|intros [Hr He]; split|]; simpl.
  - rewrite Hv. intros k x Hx. rewrite lookup_insert_ne by congruence. by eauto.
  - intros k x'. rewrite lookup_insert. case_decide; [|by apply Hr]. intros [= <-]. subst. done.
  - intros k x'. rewrite lookup_insert. case_decide; [|by apply He]. intros [= <-]. subst. done.
  - intros k x'. rewrite lookup_insert. case_decide; [|by eauto 10]. intros [= <-]. right. simpl.
    intros ch. injection E3 as <- <-. cbn. rewrite lookup_insert_eq. by intros [= <-].
Qed.

#[export] Instance sub_ok : ExtOk ext.
Proof.
  intros e s s' Hwf Hty. destruct e; cbn [ext].
  - intros [Hf Hs]%guard_bind_Some. apply bind_Some in Hs as (x & Hx & [= <-]). by apply sub_okstep_RecvMsg.
  - destruct (threads s !! t) as [[]|] eqn:Ht; try done. intros [Hf Hs]%guard_bind_Some.
    apply bind_Some in Hs as (x & Hx & [= <-]). by apply okstep_RecvMsg_resized.
  - destruct (threads s !! t) as [[]|] eqn:Ht; try done. intros [_ [= <-]]%guard_bind_Some.
    by apply okstep_RecvMsg_unique.
  - destruct (threads s !! t) as [[]|] eqn:Ht; try done. intros [_ [= <-]]%guard_bind_Some.
    set (f := λ σ : socket, σ <| arrived ::= (λ l, l ++ [m]) |>).
    change (okstep s (set_thread t (Locking p m) (give [m] (set_vars f s)))).
    etrans; [apply (okstep_apart f); [simpl; set_solver|done|done]|].
    eapply (okstep_goto t _ _ [m]); [exact Ht|accounting|]. simpl. set_solver.
  - destruct (threads s !! t) as [[]|] eqn:Ht; try done. intros [= <-].
    eapply okstep_set_thread; [done|count|done].
  - destruct (threads s !! t) as [[]|] eqn:Ht; try done. intros [(Hf & _ & _) [= <-]]%guard_bind_Some.
    etrans; [by apply (okstep_lock t)|]. eapply okstep_set_thread; [exact Ht|count|].
    intros _. split; [done|]. exact (ty_thread _ Hty _ _ Ht).
  - destruct (threads s !! t) as [[]|] eqn:Ht; try done. intros [= <-]. by apply okstep_receiver_next.
  - destruct (threads s !! t) as [[]|] eqn:Ht; try done. intros [= <-].
    etrans; [by apply (okstep_apart (λ σ, σ <| pclosed ::= (λ x, {[p]} ∪ x) |>))|].
    eapply okstep_set_thread; [exact Ht|count|done].
  - destruct (threads s !! t) as [[]|] eqn:Ht; try done. intros [= <-].
    change (okstep s (unlock (set_thread t Done s))).
    etrans; [apply (okstep_set_thread t UDone Done); [done|count|done]|].
    apply (okstep_unlock t Done); [exact (ty_thread _ Hty _ _ Ht)|apply lookup_insert_eq|done].
  - intros [Hf Hs]%guard_bind_Some. apply bind_Some in Hs as (x & Hx & [= <-]). by apply okstep_SetOption.
  - intros [Hf Hs]%guard_bind_Some. apply bind_Some in Hs as (x & Hx & [= <-]).
    by apply sub_okstep_context_Close.
  - destruct (threads s !! t) as [[]|] eqn:Ht; try done. intros [= <-].
    etrans; [apply (okstep_close_chan ch)|].
    eapply okstep_set_thread; [by rewrite threads_close_chan|count|done].
  - intros [(Hf & _ & _) [= <-]]%guard_bind_Some. unfold Close. destruct (closed (vars s)); [reflexivity|].
    etrans; [by apply (okstep_apart (λ σ, σ <| closed := true |>))|].
    apply okstep_go; [by apply wf_vars|done|done].
  - destruct (threads s !! t) as [[]|] eqn:Ht; try done. destruct l as [|c l]; [done|].
    intros [Hf Hs]%guard_bind_Some. apply bind_Some in Hs as (x & Hx & [= <-]).
    assert (okstep s (set_thread t Done s)) as Hok by (eapply okstep_set_thread; [done|count|done]).
    etrans; [exact Hok|]. apply sub_okstep_context_Close; [by apply Hok|done|done].
  - intros [[Hf Hc] [= <-]]%guard_bind_Some. by apply sub_okstep_OpenContext.
  - intros [Hf [= <-]]%guard_bind_Some. unfold AddPipe. destruct (closed (vars s)); [reflexivity|].
    by apply okstep_go.
Qed.

Lemma sub_init_good s : init s → good s.
Proof.
  intros ->. start_good.
  split; simpl; intros c x [<- <-]%lookup_singleton_Some; [done|]. simpl. set_solver.
Qed.

Lemma reachable_sub s : reachable step init ok s → good s.
Proof. eapply reachable_good; [apply _|]. apply sub_init_good. Qed.

(** C19. A SUB context gets what it subscribed to, and only that: the
    messages waiting on its queue all arrived from a publisher and match one
    of its present subscriptions (so [unsubscribe] prunes every message that
    it should); a message [RecvMsg] returns is one that arrived, with a prefix
    the context was subscribed to; at most one goroutine is inside a section
    that holds the mutex; and no message is freed more often than there were
    references to it. *)
Theorem sub_filters s (H : reachable step init ok s) :
  (∀ c x ch m, ctxs (vars s) !! c = Some x → chans s !! recvQ x = Some ch → m ∈ buf ch →
     m ∈ arrived (vars s) ∧ ∃ topic, topic ∈ subs x ∧ topic `prefix_of` mbody m) ∧
  (∀ t c m, threads s !! t = Some (RecvRet c (Ok m)) →
     (∃ m0, m0 ∈ arrived (vars s) ∧ m = m0 <| mref := mref m |>) ∧
     ∃ x topic, ctxs (vars s) !! c = Some x ∧ topic ∈ ever x ∧ topic `prefix_of` mbody m) ∧
  (∀ t t' th th', threads s !! t = Some th → threads s !! t' = Some th' →
     critical th = true → critical th' = true → t = t') ∧
  (∀ x, kocc x (freed s) ≤ kocc x (given s)).
Proof.
  destruct (reachable_sub s H) as [Hwf Ho [Hc Ht [Hrq Hev]]]. split_and!.
  - intros c x ch m Hx Hch Hm.
    assert (m ∈ ins ch) as Hin by (rewrite (proj1 (wf_chan _ Hwf _ _ Hch)); set_solver).
    specialize (Hc _ _ _ Hch Hin). simpl in Hc. unfold ctype in Hc. rewrite (Hrq _ _ Hx) in Hc.
    destruct Hc as (? & _ & Hmt). split; [done|].
    destruct (proj1 (matches_iff _ _) (Hmt x Hx eq_refl)) as (tp & ? & Hp).
    exists tp. split; [done|by apply has_prefix_iff].
  - intros t c m Hth. destruct (Ht _ _ Hth) as [(x & tp & ? & ? & Hp) Ha]. split; [done|].
    exists x, tp. split_and!; [done|done|by apply has_prefix_iff].
  - intros t t' th th' Hth Hth' Hcr Hcr'.
    apply critical_owner with (σ := vars s) (t := t) in Hcr; [|exact (Ht _ _ Hth)].
    apply critical_owner with (σ := vars s) (t := t') in Hcr'; [|exact (Ht _ _ Hth')].
    unfold owner in *. congruence.
  - intros x. specialize (Ho x). unfold owned in Ho. lia.
Qed.

Definition news (n : nat) : msg := mkMsg [] [Byte.x61; Byte.x62] (Some 9%Z) n.
(** A message arrives for a subscribed context, and is received. *)
Definition sub_arrival : list (label event) :=
  [LExt (ECtxSetOption 0 OptionSubscribe (VBytes [Byte.x61])); LExt (EAddPipe 5);
   LExt (EPipeRecv 3 (news 0)); LExt (ELock 3 [0]); LExt (ENext 3); LCase 3 0 None;
   LExt (ENext 3)].
Definition sub_queued : state := play step (λ _ _, true) sub_arrival NewProtocol.
Definition sub_received : state :=
  play step (λ _ _, true) (sub_arrival ++ [LExt (ERecv 0); LCase 4 0 None; LExt (EUnique 4 7)])
    NewProtocol.

Lemma sub_filters_witness :
  buf <$> chans sub_queued !! (KRecv 0, 0) = Some [news 0] ∧
  threads sub_received !! 4 = Some (RecvRet 0 (Ok (news 0))) ∧
  ∃ x topic, ctxs (vars sub_received) !! 0 = Some x ∧ topic ∈ ever x ∧
    topic `prefix_of` mbody (news 0).
Proof.
  assert (reachable step init ok sub_received) as Hr by (by apply play_reachable; [intros ? []|]).
  split_and!; [by vm_compute|by vm_compute|].
  destruct (sub_filters sub_received Hr) as (_ & Hret & _).
  exact (proj2 (Hret 4 0 (news 0) ltac:(by vm_compute))).
Defined.
