(* ===== verification/SubInv.v ===== *)
(** * SubInv: what the mutex of the SUB protocol guarantees

    The comments of [src/protocol/sub/sub.go] promise that a goroutine that
    holds the mutex never blocks when it puts a message on a queue; this holds
    for every queue with room for at least one message, and fails for
    unbuffered ones.  And a message that [RecvMsg] returns is the caller's
    alone. *)
From stdpp Require Import gmap list strings fin_maps.
From Stdlib Require Import ZArith Lia.
From S2P Require Import Prelude Types Chan Backtrace Sub.

(** ** The critical sections put nothing on the channels *)
Lemma shrinks_requeue c x n g (s : state) :
  wf s →
  let '(rq, s1) := make_chan (KRecv c) n s in
  let '(zq, s2) := make_chan KSignal 0 s1 in
  shrinks s (close_chan (sizeQ x) (upd_ctx c (g rq zq) s2)).
Proof.
  intros Hwf. destruct (make_chan (KRecv c) n s) as [rq s1] eqn:E1.
  destruct (okstep_make_chan _ _ _ _ _ Hwf E1) as (_ & Hwf1 & _).
  destruct (make_chan KSignal 0 s1) as [zq s2] eqn:E2.
  transitivity s1. { pose proof (shrinks_make_chan (KRecv c) n s Hwf) as H. by rewrite E1 in H. }
  transitivity s2. { pose proof (shrinks_make_chan KSignal 0 s1 Hwf1) as H. by rewrite E2 in H. }
  transitivity (upd_ctx c (g rq zq) s2); [by apply shrinks_same|]. apply shrinks_close_chan.
Qed.

Lemma shrinks_SetOption c x name v s : wf s → shrinks s (snd (context_SetOption c x name v s)).
Proof.
  intros Hwf. unfold context_SetOption.
  assert (∀ topic, shrinks s (snd (subscribe c x topic s))) as Hs.
  { intros topic. unfold subscribe. case_decide; by apply shrinks_same. }
  assert (∀ topic, shrinks s (snd (unsubscribe c x topic s))) as Hu.
  { intros topic. unfold unsubscribe. case_decide; [|by apply shrinks_same].
    pose proof (shrinks_requeue c x (Z.to_nat (recvQLen x)) (λ rq zq y,
      y <| subs := subs (x <| subs ::= remove_first topic |>) |> <| recvQ := rq |> <| sizeQ := zq |>)
      s Hwf) as Hrq.
    destruct (make_chan (KRecv c) _ s) as [rq s1]. destruct (make_chan KSignal 0 s1) as [zq s2].
    etrans; [exact Hrq|]. by apply shrinks_same. }
  destruct (String.eqb name OptionReadQLen).
  { destruct v; try by apply shrinks_same. cbn [snd]. destruct (z <? 0)%Z; [by apply shrinks_same|].
    unfold set_qlen. pose proof (shrinks_requeue c x (Z.to_nat z) (λ rq zq y,
      y <| recvQ := rq |> <| sizeQ := zq |> <| recvQLen := z |>) s Hwf) as Hrq.
    by destruct (make_chan (KRecv c) _ s) as [rq s1]; destruct (make_chan KSignal 0 s1) as [zq s2]. }
  destruct (String.eqb name OptionRecvDeadline); [destruct v; by apply shrinks_same|].
  destruct (String.eqb name OptionSubscribe); [destruct v; first [by apply shrinks_same|apply Hs]|].
  destruct (String.eqb name OptionUnsubscribe); [destruct v; first [by apply shrinks_same|apply Hu]|].
  by apply shrinks_same.
Qed.

Lemma shrinks_OpenContext c s : wf s → shrinks s (snd (OpenContext c s)).
Proof.
  intros Hwf. unfold OpenContext. destruct (closed (vars s)); [by apply shrinks_same|].
  destruct (ctxs (vars s) !! master (vars s)) as [d|]; [|by apply shrinks_same].
  destruct (make_chan KSignal 0 s) as [cq s1] eqn:E1.
  destruct (okstep_make_chan _ _ _ _ _ Hwf E1) as (_ & Hwf1 & _).
  destruct (make_chan KSignal 0 s1) as [zq s2] eqn:E2.
  destruct (okstep_make_chan _ _ _ _ _ Hwf1 E2) as (_ & Hwf2 & _).
  destruct (make_chan (KRecv c) _ s2) as [rq s3] eqn:E3.
  transitivity s1. { pose proof (shrinks_make_chan KSignal 0 s Hwf) as H. by rewrite E1 in H. }
  transitivity s2. { pose proof (shrinks_make_chan KSignal 0 s1 Hwf1) as H. by rewrite E2 in H. }
  transitivity s3; [|by apply shrinks_same].
  pose proof (shrinks_make_chan (KRecv c) (Z.to_nat (recvQLen d)) s2 Hwf2) as H. by rewrite E3 in H.
Qed.

(** ** Room on the queues *)
Definition roomy (s : state) (th : thread) : Prop :=
  match th with
  | Try _ _ _ rq | Drain _ _ _ rq => is_Some (chans s !! rq)
  | Put _ _ _ rq => ∃ ch, chans s !! rq = Some ch ∧ (cap ch = 0 ∨ length (buf ch) < cap ch)
  | UDrain _ _ old new =>
      old ≠ new ∧ ∃ ch ch', chans s !! old = Some ch ∧ chans s !! new = Some ch' ∧
        length (buf ch) + length (buf ch') ≤ cap ch'
  | UPut _ _ _ old new =>
      old ≠ new ∧ ∃ ch ch', chans s !! old = Some ch ∧ chans s !! new = Some ch' ∧
        length (buf ch) + length (buf ch') < cap ch'
  | _ => True
  end.

(** A context's queue is as long as its option says. *)
Definition queued (s : state) (x : context) : Prop :=
  ∃ ch, chans s !! recvQ x = Some ch ∧ cap ch = Z.to_nat (recvQLen x).

Record room (s : state) : Prop := {
  room_ctx c x : ctxs (vars s) !! c = Some x → queued s x;
  room_th t th : threads s !! t = Some th → roomy s th
}.

Lemma roomy_noncritical s th : critical th = false → roomy s th.
Proof. by destruct th. Qed.
Lemma roomy_shrinks s s' th : shrinks s s' → roomy s th → roomy s' th.
Proof.
  intros Hsh. destruct th; simpl; try done.
  - intros [ch Hch]. destruct (Hsh _ _ Hch) as (ch' & -> & _). done.
  - intros [ch Hch]. destruct (Hsh _ _ Hch) as (ch' & -> & _). done.
  - intros (ch & Hch & Hr). destruct (Hsh _ _ Hch) as (ch' & ? & ? & ?). exists ch'. split; [done|lia].
  - intros (? & c1 & c2 & H1 & H2 & ?). destruct (Hsh _ _ H1) as (c1' & ? & ? & ?).
    destruct (Hsh _ _ H2) as (c2' & ? & ? & ?). split; [done|]. exists c1', c2'. split_and!; [done..|lia].
  - intros (? & c1 & c2 & H1 & H2 & ?). destruct (Hsh _ _ H1) as (c1' & ? & ? & ?).
    destruct (Hsh _ _ H2) as (c2' & ? & ? & ?). split; [done|]. exists c1', c2'. split_and!; [done..|lia].
Qed.
Lemma queued_shrinks s s' x y :
  shrinks s s' → recvQ y = recvQ x → recvQLen y = recvQLen x → queued s x → queued s' y.
Proof.
  intros Hsh Hq Hl (ch & Hch & Hcap). destruct (Hsh _ _ Hch) as (ch' & ? & ? & _).
  exists ch'. rewrite Hq, Hl. split; [done|lia].
Qed.

(** A step that adds nothing to the queues: the contexts are as before or
    have a queue of the right length, the goroutines are as before or have
    room. *)
Lemma room_step s s' :
  shrinks s s' →
  (∀ c x, ctxs (vars s') !! c = Some x →
     (∃ y, ctxs (vars s) !! c = Some y ∧ recvQ x = recvQ y ∧ recvQLen x = recvQLen y) ∨ queued s' x) →
  (∀ t th, threads s' !! t = Some th → threads s !! t = Some th ∨ roomy s' th) →
  room s → room s'.
Proof.
  intros Hsh Hc Ht [Rc Rt]. split.
  - intros c x Hx. destruct (Hc _ _ Hx) as [(y & Hy & ? & ?)|?]; [|done]. eapply queued_shrinks; eauto.
  - intros t th Hth. destruct (Ht _ _ Hth) as [?|?]; [|done]. eapply roomy_shrinks; eauto.
Qed.

(** One goroutine moves. *)
Lemma room_goto t th' s s' :
  shrinks s s' → ctxs (vars s') = ctxs (vars s) → threads s' = <[t := th']> (threads s) →
  (room s → roomy s' th') → room s → room s'.
Proof.
  intros Hsh Hc Ht Hr Hs. pose proof (Hr Hs) as Hr'. revert Hs. apply room_step; [done|..].
  - rewrite Hc. eauto 10.
  - intros k th. rewrite Ht, lookup_insert. case_decide; [|by left]. intros [= <-]. by right.
Qed.

(** ** Select cases *)

(** The receive of [Drain] makes room, and [UDrain] moves one message. *)
Lemma roomy_recv s th i a c ch b :
  wf s → select th !! i = Some (ORecv c) → chans s !! c = Some ch → buf ch = a :: b → roomy s th →
  roomy (s <| chans ::= <[c := pop a b ch]> |>) (fst (resume th (Some i) (Some a))).
Proof.
  intros Hwf Hsel Hc Hb. pose proof (proj2 (wf_chan _ Hwf _ _ Hc)) as Hcap. rewrite Hb in Hcap.
  destruct th; try (destruct tq); cbn in Hsel; select_cases Hsel; cbn [resume sub_program res fst];
    try done; simplify_eq; simpl in Hcap |- *.
  - intros _. exists (pop a b ch). rewrite lookup_insert_eq. split; [done|]. simpl. lia.
  - intros (Hne & co & cn & Hco & Hcn & Hl). simplify_eq.
    assert (∀ n, length b + length (buf cn) + n ≤ cap cn → c ≠ new ∧
      ∃ ch1 ch2, <[c := pop a b ch]> (chans s) !! c = Some ch1 ∧
        <[c := pop a b ch]> (chans s) !! new = Some ch2 ∧
        length (buf ch1) + length (buf ch2) + n ≤ cap ch2) as Hmv.
    { intros n Hn. split; [done|]. exists (pop a b ch), cn.
      rewrite lookup_insert_eq, lookup_insert_ne by done. by split_and!. }
    rewrite Hb in Hl. simpl in Hl. destruct (matches_subs x a); simpl.
    + destruct (Hmv 1 ltac:(lia)) as (? & c1 & c2 & ? & ? & ?). split; [done|]. exists c1, c2.
      split_and!; [done..|lia].
    + destruct (Hmv 0 ltac:(lia)) as (? & c1 & c2 & ? & ? & ?). split; [done|]. exists c1, c2.
      split_and!; [done..|lia].
Qed.

(** No message received, nothing sent. *)
Lemma roomy_none s th i o :
  select th !! i = Some o →
  match o with ORecv c => ∃ ch, chans s !! c = Some ch ∧ buf ch = [] | _ => True end →
  roomy s th → roomy s (fst (resume th (Some i) None)).
Proof.
  intros Hsel Ho. destruct th; try (destruct tq); cbn in Hsel; select_cases Hsel;
    cbn [resume sub_program res fst] in *; try done; simpl.
  - destruct Ho as (ch & Hch & Hb). intros _. exists ch. rewrite Hb. split; [done|simpl; lia].
  - intros (? & c1 & c2 & ? & ? & ?). split; [done|]. exists c1, c2. split_and!; [done..|lia].
Qed.

Lemma roomy_default s th :
  has_default th = true → forallb (λ o, negb (ready s o)) (select th) = true → roomy s th →
  roomy s (fst (resume th None None)).
Proof.
  intros Hd Hr. destruct th; try done; simpl in *.
  intros [ch Hch]. exists ch. split; [done|]. rewrite Hch in Hr.
  destruct (buf ch); [simpl; lia|done].
Qed.

(** Others are outside the critical sections while [t] is inside. *)
Lemma others_noncritical s t th t' th' :
  typed s → threads s !! t = Some th → critical th = true →
  threads s !! t' = Some th' → t' ≠ t → critical th' = false.
Proof.
  intros [_ Hty _] Ht Hcr Ht' Hne. destruct (critical th') eqn:Hcr'; [|done].
  apply (critical_owner (vars s) t) in Hcr; [|exact (Hty _ _ Ht)].
  apply (critical_owner (vars s) t') in Hcr'; [|exact (Hty _ _ Ht')].
  unfold owner in *. congruence.
Qed.
Lemma sends_critical th i c m : select th !! i = Some (OSend c m) → critical th = true.
Proof. intros Hsel. destruct th; try (destruct tq); cbn in Hsel; by select_cases Hsel. Qed.

Lemma room_resume t th i v s :
  room s → threads s !! t = Some th → roomy s (fst (resume th i v)) → room (resume_thread t th i v s).
Proof.
  intros Hr Ht Hth. revert Hr. apply (room_goto t (fst (resume th i v)));
    [apply shrinks_same, chans_resume|by rewrite vars_resume| |].
  - unfold resume_thread. by destruct (resume th i v).
  - intros _. eapply roomy_shrinks; [apply shrinks_same, chans_resume|done].
Qed.

(** A send, by the goroutine that owns the mutex. *)
Lemma room_send t th i c ch a s :
  typed s → room s → threads s !! t = Some th → select th !! i = Some (OSend c a) →
  chans s !! c = Some ch →
  room (resume_thread t th (Some i) None (s <| chans ::= <[c := push a ch]> |>)).
Proof.
  intros Hty [Rc Rt] Ht Hsel Hc. pose proof (sends_critical _ _ _ _ Hsel) as Hcr. split.
  - rewrite vars_resume. intros k x Hx. destruct (Rc _ _ Hx) as (cx & Hcx & Hl).
    unfold queued. rewrite chans_resume. simpl. rewrite lookup_insert. case_decide; [|by exists cx].
    exists (push a ch). split; [done|]. by simplify_eq.
  - intros k th'. destruct (decide (k = t)) as [->|Hne].
    + rewrite threads_resume_eq. intros [= <-]. specialize (Rt _ _ Ht).
      destruct th; try (destruct tq); cbn in Hsel; select_cases Hsel; try done; simplify_eq.
      destruct Rt as (Hne & co & cn & Hco & Hcn & Hl). simplify_eq. split; [done|].
      exists co, (push a cn). rewrite chans_resume. simpl.
      rewrite lookup_insert_eq, lookup_insert_ne by done. split_and!; [done|done|].
      rewrite length_app. simpl. lia.
    + rewrite threads_resume by done. intros Hth'. apply roomy_noncritical.
      by apply (others_noncritical s t th k th').
Qed.

(** A goroutine that is handed a message. *)
Lemma room_handed t' th' j a s c ch :
  room s → threads s !! t' = Some th' → critical th' = false → select th' !! j = Some (ORecv c) →
  chans s !! c = Some ch → room (resume_thread t' th' (Some j) (Some a) (s <| chans ::= <[c := hand_over a ch]> |>)).
Proof.
  intros Hr Ht Hcr Hsel Hc. assert (room (s <| chans ::= <[c := hand_over a ch]> |>)) as Hr1.
  { revert Hr. apply room_step; [by eapply shrinks_set_chan|by eauto 10|by intros; left]. }
  apply room_resume; [done|done|]. apply roomy_noncritical.
  by destruct th'; try (destruct tq); cbn in Hsel; select_cases Hsel.
Qed.

Lemma room_case t th i r s s' :
  good s → threads s !! t = Some th → do_case t th i r s = Some s' → room s → room s'.
Proof.
  intros [Hwf _ Hty] Ht Hdo Hr. pose proof (room_th _ Hr _ _ Ht) as Hth. apply do_case_done in Hdo.
  destruct Hdo as [c ch a b Hsel Hc Hb|c ch Hsel Hc Hb _|Hsel|c ch a Hsel Hc _|c ch a Hsel Hc Hl
    |c ch a t' th' j Hsel Hc Hcap Hne Ht' Hsel'].
  - apply room_resume; [|done|by apply roomy_recv].
    revert Hr. apply room_step; [|by eauto 10|by intros; left].
    eapply shrinks_set_chan; [done|done|]. rewrite Hb. simpl. lia.
  - apply room_resume; [done..|]. eapply roomy_none; [done|by exists ch|done].
  - apply room_resume; [done..|]. by eapply roomy_none.
  - apply room_resume; [|done|by eapply (roomy_none (s <| crashed := true |>))].
    revert Hr. apply room_step; [by apply shrinks_same|by eauto 10|by intros; left].
  - by eapply room_send.
  - assert (critical th' = false) as Hcr'.
    { eapply (others_noncritical s t th); eauto using sends_critical. }
    set (s1 := s <| chans ::= <[c := hand_over a ch]> |>).
    assert (room (resume_thread t' th' (Some j) (Some a) s1)) as Hr1 by by eapply room_handed.
    apply room_resume; [done|by rewrite threads_resume|].
    eapply roomy_shrinks; [apply shrinks_same, chans_resume|].
    assert (roomy s1 th) as Hth1.
    { eapply roomy_shrinks; [|exact Hth]. by eapply shrinks_set_chan. }
    by eapply roomy_none.
Qed.

(** ** Critical sections *)
Lemma room_apart s s' :
  chans s' = chans s → ctxs (vars s') = ctxs (vars s) → threads s' = threads s → room s → room s'.
Proof.
  intros Hc Hx Ht. apply room_step; [by apply shrinks_same|rewrite Hx; by eauto 10|].
  rewrite Ht. by left.
Qed.
Lemma room_close_chan c s : room s → room (close_chan c s).
Proof.
  apply room_step; [apply shrinks_close_chan| |].
  - rewrite vars_close_chan. eauto 10.
  - rewrite threads_close_chan. by left.
Qed.
Lemma room_go th s : roomy s th → room s → room (go th s).
Proof.
  intros Hth. apply (room_goto (fresh s) th); [by apply shrinks_same|done|done|done].
Qed.
Lemma room_set_thread t th s s1 :
  chans s1 = chans s → ctxs (vars s1) = ctxs (vars s) → threads s1 = threads s →
  (room s → roomy s th) → room s → room (set_thread t th s1).
Proof.
  intros Hc Hx Ht Hth. apply (room_goto t th); [by apply shrinks_same|done|simpl; by rewrite Ht|].
  intros Hr. eapply roomy_shrinks; [by apply shrinks_same; simpl|auto].
Qed.
Lemma room_upd_ctx c g s :
  (∀ x, recvQ (g x) = recvQ x ∧ recvQLen (g x) = recvQLen x) → room s → room (upd_ctx c g s).
Proof.
  intros Hg. apply room_step; [by apply shrinks_same| |by left]. intros k x. simpl.
  rewrite lookup_alter. case_decide; [|by eauto 10]. intros (y & Hy & ->)%fmap_Some.
  left. exists y. subst. split; [done|apply Hg].
Qed.
Lemma room_make_chan k n s c s' : wf s → make_chan k n s = (c, s') → room s → room s'.
Proof.
  intros Hwf Hm. apply room_step.
  - pose proof (shrinks_make_chan k n s Hwf) as H. by rewrite Hm in H.
  - injection Hm as <- <-. simpl. eauto 10.
  - injection Hm as <- <-. by left.
Qed.

Lemma room_requeue c x n g s :
  wf s → (∀ rq zq y, ctxs (vars s) !! c = Some y →
     recvQ (g rq zq y) = rq ∧ Z.to_nat (recvQLen (g rq zq y)) = n) → room s →
  let '(rq, s1) := make_chan (KRecv c) n s in
  let '(zq, s2) := make_chan KSignal 0 s1 in
  let s3 := close_chan (sizeQ x) (upd_ctx c (g rq zq) s2) in
  room s3 ∧ chans s !! rq = None ∧ ∃ ch, chans s3 !! rq = Some ch ∧ cap ch = n ∧ buf ch = [].
Proof.
  intros Hwf Hg Hr. destruct (make_chan (KRecv c) n s) as [rq s1] eqn:E1.
  destruct (okstep_make_chan _ _ _ _ _ Hwf E1) as (_ & Hwf1 & _ & Hv1 & _).
  destruct (make_chan KSignal 0 s1) as [zq s2] eqn:E2.
  destruct (okstep_make_chan _ _ _ _ _ Hwf1 E2) as (_ & _ & _ & Hv2 & _).
  pose proof (room_make_chan _ _ _ _ _ Hwf E1 Hr) as Hr1.
  pose proof (room_make_chan _ _ _ _ _ Hwf1 E2 Hr1) as Hr2.
  assert (chans s2 !! rq = Some (mkChan [] n false [] [])) as Hch.
  { injection E1 as <- <-. injection E2 as <- <-. simpl.
    rewrite lookup_insert_ne by congruence. apply lookup_insert_eq. }
  set (s3 := upd_ctx c (g rq zq) s2). assert (room s3) as Hr3.
  { revert Hr2. apply room_step; [by apply shrinks_same| |by left]. intros k y. simpl.
    rewrite lookup_alter. case_decide; [|by eauto 10]. intros (z & Hz & ->)%fmap_Some. right.
    destruct (Hg rq zq z) as [Hq Hl]; [by subst; rewrite <-Hv1, <-Hv2|]. eexists. rewrite Hq, Hl. split; [exact Hch|done]. }
  split_and!; [by apply room_close_chan| |].
  - injection E1 as <- <-. by apply make_chan_new.
  - destruct (shrinks_close_chan (sizeQ x) s3 rq _ Hch) as (ch' & ? & ? & Hl). exists ch'.
    split_and!; [done|done|]. destruct (buf ch'); [done|simpl in Hl; lia].
Qed.

Lemma room_unsubscribe c x topic s :
  wf s → ctxs (vars s) !! c = Some x → room s → room (snd (unsubscribe c x topic s)).
Proof.
  intros Hwf Hx Hr. unfold unsubscribe. case_decide; [|done].
  set (x' := x <| subs ::= remove_first topic |>).
  set (g := λ rq zq y, y <| subs := subs x' |> <| recvQ := rq |> <| sizeQ := zq |>).
  pose proof (room_requeue c x (Z.to_nat (recvQLen x)) g s Hwf) as Hrq.
  pose proof (shrinks_requeue c x (Z.to_nat (recvQLen x)) g s Hwf) as Hsh.
  destruct (make_chan (KRecv c) _ s) as [rq s1]. destruct (make_chan KSignal 0 s1) as [zq s2].
  cbv zeta in *. cbn [snd]. destruct Hrq as (Hr3 & Hnew & chn & Hchn & Hcap & Hb); [intros; by simplify_eq|done|].
  change (upd_ctx c _ s2) with (upd_ctx c (g rq zq) s2).
  set (s3 := close_chan (sizeQ x) (upd_ctx c (g rq zq) s2)) in *. clearbody s3.
  apply room_go; [|by revert Hr3; apply room_apart].
  destruct (room_ctx _ Hr _ _ Hx) as (cho & Hcho & Hcapo). destruct (Hsh _ _ Hcho) as (cho' & ? & ? & ?).
  pose proof (proj2 (wf_chan _ Hwf _ _ Hcho)). split; [congruence|]. exists cho', chn.
  split_and!; [done..|]. rewrite Hb. simpl. lia.
Qed.

Lemma room_SetOption c x name v s :
  wf s → ctxs (vars s) !! c = Some x → room s → room (snd (context_SetOption c x name v s)).
Proof.
  intros Hwf Hx Hr. unfold context_SetOption.
  assert (∀ topic, room (snd (subscribe c x topic s))) as Hs.
  { intros topic. unfold subscribe. case_decide; [done|]. by revert Hr; apply room_upd_ctx. }
  destruct (String.eqb name OptionReadQLen).
  { destruct v; try done. cbn [snd]. destruct (z <? 0)%Z; [by revert Hr; apply room_apart|].
    unfold set_qlen. pose proof (room_requeue c x (Z.to_nat z) (λ rq zq y,
      y <| recvQ := rq |> <| sizeQ := zq |> <| recvQLen := z |>) s Hwf ltac:(done) Hr) as Hrq.
    destruct (make_chan (KRecv c) _ s) as [rq s1]. destruct (make_chan KSignal 0 s1) as [zq s2].
    by destruct Hrq. }
  destruct (String.eqb name OptionRecvDeadline).
  { destruct v; try done. by revert Hr; apply room_upd_ctx. }
  destruct (String.eqb name OptionSubscribe); [by destruct v; try apply Hs|].
  destruct (String.eqb name OptionUnsubscribe); [|done].
  destruct v; try done; by apply room_unsubscribe.
Qed.

Lemma room_OpenContext c s : wf s → room s → room (snd (OpenContext c s)).
Proof.
  intros Hwf Hr. unfold OpenContext. destruct (closed (vars s)); [done|].
  destruct (ctxs (vars s) !! master (vars s)) as [d|]; [|by revert Hr; apply room_apart].
  destruct (make_chan KSignal 0 s) as [cq s1] eqn:E1.
  destruct (okstep_make_chan _ _ _ _ _ Hwf E1) as (_ & Hwf1 & _).
  destruct (make_chan KSignal 0 s1) as [zq s2] eqn:E2.
  destruct (okstep_make_chan _ _ _ _ _ Hwf1 E2) as (_ & Hwf2 & _).
  destruct (make_chan (KRecv c) _ s2) as [rq s3] eqn:E3.
  assert (room s3) as Hr3 by eauto using room_make_chan. cbn [snd].
  revert Hr3. apply room_step; [by apply shrinks_same| |by left]. intros k x. simpl.
  rewrite lookup_insert. case_decide; [|by eauto 10]. intros [= <-]. right. injection E3 as <- <-.
  eexists. simpl. rewrite lookup_insert_eq. done.
Qed.

Lemma room_context_Close c x l s : room s → room (context_Close c x l s).
Proof.
  intros Hr. unfold context_Close. destruct (c_closed x); [by apply room_go|].
  apply room_go; [done|]. apply (room_apart (upd_ctx c (λ x, x <| c_closed := true |>) s)); [done..|].
  by revert Hr; apply room_upd_ctx.
Qed.

Lemma room_ext e s s' : wf s → ext e s = Some s' → room s → room s'.
Proof.
  intros Hwf Hs Hr. revert Hs. destruct e; cbn [ext].
  - intros [Hf Hs]%guard_bind_Some. apply bind_Some in Hs as (x & Hx & [= <-]). by apply room_go.
  - destruct (threads s !! t) as [[]|] eqn:Ht; try done. intros [Hf Hs]%guard_bind_Some.
    apply bind_Some in Hs as (x & Hx & [= <-]). by revert Hr; apply room_set_thread.
  - destruct (threads s !! t) as [[]|] eqn:Ht; try done. intros [_ [= <-]]%guard_bind_Some.
    unfold RecvMsg_unique. case_decide; by revert Hr; apply room_set_thread.
  - destruct (threads s !! t) as [[]|] eqn:Ht; try done. intros [_ [= <-]]%guard_bind_Some.
    by revert Hr; apply room_set_thread.
  - destruct (threads s !! t) as [[]|] eqn:Ht; try done. intros [= <-].
    by revert Hr; apply room_set_thread.
  - destruct (threads s !! t) as [[]|] eqn:Ht; try done. intros [_ [= <-]]%guard_bind_Some.
    by revert Hr; apply room_set_thread.
  - destruct (threads s !! t) as [[]|] eqn:Ht; try done. intros [= <-]. unfold receiver_next.
    destruct l as [|c l]; [by revert Hr; apply room_set_thread|].
    destruct (ctxs (vars s) !! c) as [x|] eqn:Hx; [|by revert Hr; apply room_set_thread].
    destruct (matches x m); [|by revert Hr; apply room_set_thread].
    revert Hr; apply room_set_thread; [done..|]. intros Hr.
    destruct (room_ctx _ Hr _ _ Hx) as (ch & Hch & _). by exists ch.
  - destruct (threads s !! t) as [[]|] eqn:Ht; try done. intros [= <-].
    by revert Hr; apply room_set_thread.
  - destruct (threads s !! t) as [[]|] eqn:Ht; try done. intros [= <-].
    by revert Hr; apply room_set_thread.
  - intros [Hf Hs]%guard_bind_Some. apply bind_Some in Hs as (x & Hx & [= <-]). by apply room_SetOption.
  - intros [Hf Hs]%guard_bind_Some. apply bind_Some in Hs as (x & Hx & [= <-]).
    by apply room_context_Close.
  - destruct (threads s !! t) as [[]|] eqn:Ht; try done. intros [= <-].
    apply (room_close_chan ch) in Hr. by revert Hr; apply room_set_thread.
  - intros [_ [= <-]]%guard_bind_Some. unfold Close. destruct (closed (vars s)); [done|].
    apply room_go; [done|]. by revert Hr; apply room_apart.
  - destruct (threads s !! t) as [[]|] eqn:Ht; try done. destruct l as [|c l]; [done|].
    intros [Hf Hs]%guard_bind_Some. apply bind_Some in Hs as (x & Hx & [= <-]).
    apply room_context_Close. by revert Hr; apply room_set_thread.
  - intros [_ [= <-]]%guard_bind_Some. by apply room_OpenContext.
  - intros [_ [= <-]]%guard_bind_Some. unfold AddPipe. destruct (closed (vars s)); [done|].
    by apply room_go.
Qed.

Lemma reachable_room s : reachable step init ok s → room s.
Proof.
  intros H. enough (good s ∧ room s) by tauto. revert s H.
  apply (reachable_invariant _ _ _ (λ s, good s ∧ room s)).
  - intros s ->. split; [by apply sub_init_good|]. split; [|done]. simpl.
    intros c x [<- <-]%lookup_singleton_Some. eexists. simpl. by rewrite lookup_insert_eq.
  - intros l s s' [Hg Hr] _ Hs. split.
    { destruct Hg as [Hwf Ho Hty]. destruct (gstep_ok ext _ _ _ Hwf Hty Hs) as [Ha ? ?].
      split; [by apply Ha|auto|auto]. }
    apply guard_bind_Some in Hs as [_ Hs]. destruct l as [t i r|t|e].
    + apply bind_Some in Hs as (th & Ht & Hs). by eapply room_case.
    + apply bind_Some in Hs as (th & Ht & [[Hd Hrd] Hs]%guard_bind_Some).
      apply (inj Some) in Hs. subst s'. apply room_resume; [done..|].
      apply roomy_default; [done..|]. by eapply room_th.
    + destruct Hg. by eapply room_ext.
Qed.

(** The send that goroutine [t] is at can go through at once. *)
Definition proceeds (t : thid) (s : state) : Prop := is_Some (step (LCase t 0 None) s).

(** C20. What the comments of [receiver] and [unsubscribe] promise: a
    goroutine that is about to put a message on a context's queue while it
    holds the mutex can do so at once: in [receiver] when the queue has a
    capacity of at least one, in [unsubscribe] always.  A context's queue has
    the capacity its [OptionReadQLen] says. *)
Theorem sub_put_never_blocks s (H : reachable step init ok s) (Hrun : crashed s = false) :
  (∀ t p m l rq, threads s !! t = Some (Put p m l rq) →
     ∃ ch, chans s !! rq = Some ch ∧ (0 < cap ch → proceeds t s)) ∧
  (∀ t c l m old new, threads s !! t = Some (UPut c l m old new) →
     proceeds t s) ∧
  (∀ c x, ctxs (vars s) !! c = Some x →
     ∃ ch, chans s !! recvQ x = Some ch ∧ cap ch = Z.to_nat (recvQLen x)).
Proof.
  destruct (reachable_room s H) as [Rc Rt].
  assert (∀ t th c ch m, threads s !! t = Some th → select th !! 0 = Some (OSend c m) →
    chans s !! c = Some ch → length (buf ch) < cap ch → proceeds t s) as Hgo.
  { intros t th c ch m Ht Hsel Hc Hl. unfold proceeds, step, gstep. rewrite Hrun, Ht. simpl.
    unfold do_case. rewrite Hsel. simpl. unfold chan_send. rewrite Hc. simpl.
    destruct (cclosed ch); [done|]. rewrite decide_True by done. done. }
  split_and!; [| |done].
  - intros t p m l rq Ht. destruct (Rt _ _ Ht) as (ch & Hch & Hr). exists ch. split; [done|].
    intros Hcap. eapply Hgo; [done|done|done|lia].
  - intros t c l m old new Ht. destruct (Rt _ _ Ht) as (_ & co & cn & _ & Hcn & Hl).
    eapply Hgo; [done|done|done|lia].
Qed.

(** A queue of one, and a second message for it. *)
Definition sub_full : state :=
  play step (λ _ _, true)
    [LExt (ECtxSetOption 0 OptionReadQLen (VInt 1));
     LExt (ECtxSetOption 0 OptionSubscribe (VBytes [])); LExt (EAddPipe 5);
     LExt (EPipeRecv 5 (news 0)); LExt (ELock 5 [0]); LExt (ENext 5); LCase 5 0 None;
     LExt (ENext 5);
     LExt (EPipeRecv 5 (news 1)); LExt (ELock 5 [0]); LExt (ENext 5); LDefault 5; LCase 5 0 None]
    NewProtocol.

Lemma sub_put_never_blocks_witness :
  threads sub_full !! 5 = Some (Put 5 (news 1) [] (KRecv 0, 3)) ∧ freed sub_full = [news 0; news 0] ∧
  proceeds 5 sub_full.
Proof.
  assert (reachable step init ok sub_full) as Hr by (by apply play_reachable; [intros ? []|]).
  assert (threads sub_full !! 5 = Some (Put 5 (news 1) [] (KRecv 0, 3))) as Ht by by vm_compute.
  split_and!; [done|by vm_compute|].
  destruct (sub_put_never_blocks sub_full Hr ltac:(by vm_compute)) as (Hput & _ & _).
  destruct (Hput _ _ _ _ _ Ht) as (ch & Hch & Hgo). apply Hgo.
  assert (cap <$> chans sub_full !! (KRecv 0, 3) = Some 1) as Hc by by vm_compute.
  rewrite Hch in Hc. injection Hc as ->. lia.
Defined.

(** ** Unbuffered queues *)

(** A goroutine that has nothing to do with the queue [rq] or the mutex. *)
Definition away (rq : chid) (th : thread) : Prop :=
  match th with
  | RecvTry _ q zq cq _ | RecvWait _ q zq cq _ => rq ≠ q ∧ rq ≠ zq ∧ rq ≠ cq
  | CloseChan c _ => rq ≠ c
  | th => critical th = false
  end.

(** Goroutine [t] holds the mutex and waits for somebody to take a message
    from the unbuffered queue [rq], which nobody is receiving from. *)
Record stuck (t : thid) (rq : chid) (s : state) : Prop := {
  st_locked : locked (vars s) = Some t;
  st_put : ∃ p m l, threads s !! t = Some (Put p m l rq);
  st_chan : ∃ ch, chans s !! rq = Some ch ∧ cap ch = 0 ∧ cclosed ch = false;
  st_others t' th : t' ≠ t → threads s !! t' = Some th → away rq th
}.

(** Another goroutine moves. *)
Lemma stuck_move t rq t' th s s' :
  stuck t rq s → t' ≠ t → locked (vars s') = locked (vars s) →
  threads s' = <[t' := th]> (threads s) → away rq th → chans s' !! rq = chans s !! rq →
  stuck t rq s'.
Proof.
  intros [Hl Hp Hc Ho] Hne Hv Ht Haw Hch. split.
  - by rewrite Hv.
  - destruct Hp as (p & m & l & Hp). exists p, m, l. by rewrite Ht, lookup_insert_ne.
  - by rewrite Hch.
  - intros k th' Hk. rewrite Ht, lookup_insert. case_decide; [|by apply Ho]. by intros [= <-].
Qed.

Lemma away_case rq th i o v :
  select th !! i = Some o → away rq th →
  match o with ORecv c => rq ≠ c | OSend _ _ => False | OTime => True end ∧
  away rq (fst (resume th (Some i) v)).
Proof.
  intros Hsel Haw. destruct th; try (destruct tq); cbn in Hsel; select_cases Hsel; try done;
    destruct v; simpl in *; naive_solver.
Qed.
Lemma away_default rq th :
  has_default th = true → away rq th → away rq (fst (resume th None None)).
Proof. by destruct th. Qed.

Lemma stuck_resume t rq t' th i v s s1 :
  stuck t rq s → t' ≠ t → vars s1 = vars s → threads s1 = threads s →
  chans s1 !! rq = chans s !! rq → away rq (fst (resume th i v)) →
  stuck t rq (resume_thread t' th i v s1).
Proof.
  intros Hst Hne Hv Ht Hc Haw. eapply (stuck_move t rq t' (fst (resume th i v)) s); try done.
  - by rewrite vars_resume, Hv.
  - unfold resume_thread. destruct (resume th i v). simpl. by rewrite Ht.
  - by rewrite chans_resume.
Qed.

Lemma stuck_case t rq t' th i r s s' :
  stuck t rq s → threads s !! t' = Some th → do_case t' th i r s = Some s' → stuck t rq s'.
Proof.
  intros Hst Ht' Hdo. destruct (decide (t' = t)) as [->|Hne].
  - exfalso. destruct Hst as [_ (p & m & l & Ht) (ch & Hch & Hcap & Hcl) Ho]. simplify_eq.
    apply do_case_done in Hdo.
    destruct Hdo as [c c1 a b Hsel Hc Hb|c c1 Hsel Hc Hb _|Hsel|c c1 a Hsel Hc Hcl1|c c1 a Hsel Hc Hl1
      |c c1 a t1 th1 j Hsel Hc Hcap1 Hne1 Ht1 Hsel1]; cbn in Hsel; select_cases Hsel; simplify_eq.
    + congruence.
    + lia.
    + specialize (Ho _ _ Hne1 Ht1). by destruct (away_case _ _ _ _ None Hsel1 Ho).
  - pose proof (st_others _ _ _ Hst _ _ Hne Ht') as Haw. apply do_case_done in Hdo.
    destruct Hdo as [c ch a b Hsel Hc Hb|c ch Hsel Hc Hb _|Hsel|c ch a Hsel Hc _|c ch a Hsel Hc Hl
      |c ch a t1 th1 j Hsel Hc Hcap Hne1 Ht1 Hsel1].
    + destruct (away_case _ _ _ _ (Some a) Hsel Haw). eapply stuck_resume; try done.
      simpl. by rewrite lookup_insert_ne.
    + destruct (away_case _ _ _ _ None Hsel Haw). by eapply stuck_resume.
    + destruct (away_case _ _ _ _ None Hsel Haw). by eapply stuck_resume.
    + by destruct (away_case _ _ _ _ None Hsel Haw).
    + by destruct (away_case _ _ _ _ None Hsel Haw).
    + by destruct (away_case _ _ _ _ None Hsel Haw).
Qed.

Lemma stuck_ext t rq e s s' : stuck t rq s → ext e s = Some s' → stuck t rq s'.
Proof.
  intros Hst. pose proof (st_locked _ _ _ Hst) as Hl.
  assert (¬ free_lock s) as Hnf by (unfold free_lock; congruence).
  assert (∀ t' th, threads s !! t' = Some th → (∀ p m l, th ≠ Put p m l rq) → t' ≠ t ∧ away rq th) as Hth.
  { intros t' th Ht' Hnp. destruct (st_put _ _ _ Hst) as (p & m & l & Hp).
    assert (t' ≠ t) as Hne by (intros ->; rewrite Hp in Ht'; simplify_eq; by eapply Hnp).
    split; [done|]. by eapply st_others. }
  destruct e; cbn [ext]; try (intros [Hf _]%guard_bind_Some; exfalso; tauto);
    destruct (threads s !! _) as [th|] eqn:Ht; try done; destruct th; try done;
    destruct (Hth _ _ Ht ltac:(done)) as [Hne Haw]; try done.
  - by intros [? _]%guard_bind_Some.
  - intros [_ [= <-]]%guard_bind_Some. unfold RecvMsg_unique.
    case_decide; by eapply stuck_move.
  - intros [_ [= <-]]%guard_bind_Some. by eapply stuck_move.
  - intros [= <-]. by eapply stuck_move.
  - by intros [[? _] _]%guard_bind_Some.
  - intros [= <-]. by eapply stuck_move.
  - intros [= <-]. eapply (stuck_move t rq t0 (Closing l)); try done; simpl.
    + by rewrite vars_close_chan.
    + by rewrite threads_close_chan.
    + unfold close_chan. destruct (chans s !! ch) as [x|] eqn:Hx; [|done].
      destruct (cclosed x); [done|]. simpl. by rewrite lookup_insert_ne.
  - destruct l; [done|]. by intros [? _]%guard_bind_Some.
Qed.

(** A message for a context with an unbuffered queue, while nobody receives. *)
Definition sub_unbuffered : state :=
  play step (λ _ _, true)
    [LExt (ECtxSetOption 0 OptionReadQLen (VInt 0));
     LExt (ECtxSetOption 0 OptionSubscribe (VBytes [])); LExt (EAddPipe 5);
     LExt (EPipeRecv 5 (news 0)); LExt (ELock 5 [0]); LExt (ENext 5); LDefault 5; LDefault 5]
    NewProtocol.

Lemma sub_unbuffered_stuck : stuck 5 (KRecv 0, 3) sub_unbuffered.
Proof.
  split.
  - by vm_compute.
  - exists 5, (news 0), []. by vm_compute.
  - exists (mkChan [] 0 false [] []). by vm_compute.
  - intros t th Hne Ht.
    assert (threads sub_unbuffered = {[5 := Put 5 (news 0) [] (KRecv 0, 3)]}) as E by by vm_compute.
    rewrite E in Ht. by apply lookup_singleton_Some in Ht as [? _].
Qed.

(** No call that needs the mutex can get it. *)
Definition locked_out (s : state) : Prop :=
  (∀ c, ext (ERecv c) s = None) ∧ (∀ c name v, ext (ECtxSetOption c name v) s = None) ∧
  (∀ c, ext (ECtxClose c) s = None) ∧ (∀ order, ext (EClose order) s = None) ∧
  (∀ c, ext (EOpenContext c) s = None) ∧ ∀ p, ext (EAddPipe p) s = None.

(** C21. With [OptionReadQLen] 0, which [SetOption] accepts, the promise of
    C21 fails for good: when a message arrives for the context while nobody
    is receiving, [receiver] blocks with the mutex in its hands, and from then
    on no schedule ever lets another call get the mutex: [RecvMsg] (which
    would unblock it), [SetOption], [Close] of the context or of the socket,
    [OpenContext] and [AddPipe] block forever. *)
Theorem sub_unbuffered_deadlock :
  ∃ s, reachable step init ok s ∧
  ∀ s', reachable step (λ x, x = s) ok s' →
    (∃ t p m l rq, threads s' !! t = Some (Put p m l rq)) ∧ locked_out s'.
Proof.
  exists sub_unbuffered. split; [by apply play_reachable; [intros ? []|]|].
  intros s' Hr. assert (stuck 5 (KRecv 0, 3) s') as [Hl (p & m & l & Hp) _ _].
  { revert s' Hr. apply (reachable_invariant _ _ _ (stuck 5 (KRecv 0, 3))).
    - intros ? ->. exact sub_unbuffered_stuck.
    - intros lb s s' Hst _ [_ Hs]%guard_bind_Some. destruct lb as [t i r|t|e].
      + apply bind_Some in Hs as (th & Ht & Hs). by eapply stuck_case.
      + apply bind_Some in Hs as (th & Ht & [[Hd _] Hs]%guard_bind_Some).
        apply (inj Some) in Hs. subst s'. destruct (st_put _ _ _ Hst) as (p & m & l & Hp).
        assert (t ≠ 5) as Hne by (intros ->; by simplify_eq).
        eapply stuck_resume; try done. apply away_default; [done|]. by eapply st_others.
      + by eapply stuck_ext. }
  split; [by eexists _, _, _, _, _|].
  assert (∀ P : Prop, ∀ A (d : Decision (free_lock s' ∧ P)) (k : option A),
    (guard (free_lock s' ∧ P);; k) = None) as Hno.
  { intros P A d k. destruct (guard _;; k) eqn:E; [|done].
    apply guard_bind_Some in E as [[Hf _] _]. unfold free_lock in Hf. congruence. }
  assert (∀ A (d : Decision (free_lock s')) (k : option A), (guard (free_lock s');; k) = None) as Hno1.
  { intros A d k. destruct (guard _;; k) eqn:E; [|done].
    apply guard_bind_Some in E as [Hf _]. unfold free_lock in Hf. congruence. }
  unfold locked_out. split_and!; intros; cbn [ext]; apply Hno || apply Hno1.
Qed.

(** ** The application's messages *)

(** A message that was returned has no other reference. *)
Definition alone (s : state) : Prop :=
  ∀ t c m, threads s !! t = Some (RecvRet c (Ok m)) → refcount (mref m) s ≤ 1.

Definition returned (th : thread) : bool :=
  match th with RecvRet _ (Ok _) => true | _ => false end.

Lemma alone_step s s' :
  (∀ x, (∃ t c m, threads s !! t = Some (RecvRet c (Ok m)) ∧ mref m = x) →
     refcount x s' ≤ refcount x s) →
  (∀ t c m, threads s' !! t = Some (RecvRet c (Ok m)) →
     threads s !! t = Some (RecvRet c (Ok m)) ∨ refcount (mref m) s' ≤ 1) →
  alone s → alone s'.
Proof.
  intros Hx Ht Ha t c m Hth. destruct (Ht _ _ _ Hth) as [Hs|?]; [|done].
  etrans; [apply Hx; eauto 10|by eapply Ha].
Qed.

(** One goroutine moves, messages are freed. *)
Lemma alone_move t th s s' :
  threads s' = <[t := th]> (threads s) → returned th = false →
  given s' = given s → passed s' = passed s → freed s `prefix_of` freed s' → alone s → alone s'.
Proof.
  intros Ht Hr Hg Hp [l Hf]. apply alone_step.
  - intros x _. unfold refcount. rewrite Hg, Hp, Hf, kocc_app. lia.
  - intros k c m. rewrite Ht, lookup_insert. case_decide; [|by left]. by intros [= ->].
Qed.
Lemma alone_same s s' :
  threads s' = threads s → given s' = given s → passed s' = passed s → freed s' = freed s →
  alone s → alone s'.
Proof.
  intros Ht Hg Hp Hf. apply alone_step; [|rewrite Ht; by left].
  intros x _. unfold refcount. by rewrite Hg, Hp, Hf.
Qed.

Lemma alone_resume t th i v s :
  returned (fst (resume th i v)) = false → alone s → alone (resume_thread t th i v s).
Proof.
  intros Hr. unfold resume_thread in *. destruct (resume th i v) as [th' fr].
  apply (alone_move t th'); [done..|]. by apply prefix_app_r.
Qed.
Lemma returned_case th i o v : select th !! i = Some o → returned (fst (resume th (Some i) v)) = false.
Proof.
  intros Hsel. destruct th; try (destruct tq); cbn in Hsel; select_cases Hsel; try done;
    destruct v; cbn; try done; by destruct (matches_subs _ _).
Qed.

Lemma alone_case t th i r s s' : do_case t th i r s = Some s' → alone s → alone s'.
Proof.
  intros Hdo Ha. apply do_case_done in Hdo.
  destruct Hdo as [c ch a b Hsel|c ch Hsel|Hsel|c ch a Hsel|c ch a Hsel|c ch a t' th' j Hsel Hc _ _ Ht' Hsel'];
    (apply alone_resume; [by eapply returned_case|]); try done.
  apply alone_resume; [by eapply returned_case|done].
Qed.
Lemma alone_default t th s : has_default th = true → alone s → alone (resume_thread t th None None s).
Proof. intros Hd. apply alone_resume. by destruct th. Qed.

(** What goroutines and channels hold is covered by references. *)
Lemma held_refs (s : state) x :
  own_inv s → map_sum (λ th, kocc x (holds th)) (threads s) +
    map_sum (λ ch, kocc x (buf ch)) (chans s) ≤ refcount x s.
Proof. intros Ho. specialize (Ho x). unfold owned, refcount in *. lia. Qed.

Lemma two_holders (s : state) x t t' th th' :
  threads s !! t = Some th → threads s !! t' = Some th' → t ≠ t' →
  kocc x (holds th) + kocc x (holds th') ≤ map_sum (λ th, kocc x (holds th)) (threads s).
Proof.
  intros Ht Ht' Hne. rewrite (map_sum_delete _ _ _ _ Ht).
  pose proof (map_sum_ge (λ th, kocc x (holds th)) (delete t (threads s)) t' th') as H.
  rewrite lookup_delete_ne in H by done. specialize (H Ht'). cbn beta in *. lia.
Qed.
Lemma kocc_self (m : msg) l : m ∈ l → 1 ≤ kocc (mref m) l.
Proof.
  intros (l1 & l2 & ->)%list_elem_of_split. rewrite kocc_app, kocc_cons.
  unfold key, msg_keyed. rewrite Nat.eqb_refl. lia.
Qed.

(** A new message: its identity is new. *)
Lemma refcount_give x m (s s' : state) :
  given s' = given s ++ [m] → kocc x (freed s) ≤ kocc x (freed s') → passed s' = passed s →
  mref m ≠ x → refcount x s' ≤ refcount x s.
Proof.
  intros Hg Hf Hp Hne. unfold refcount. rewrite Hg, Hp, kocc_app, kocc_cons, kocc_nil.
  assert ((key m =? x) = false) as -> by (by apply Nat.eqb_neq). lia.
Qed.
Lemma returned_given (s : state) t c m n :
  own_inv s → threads s !! t = Some (RecvRet c (Ok m)) → n ∉ mref <$> given s → n ≠ mref m.
Proof.
  intros Ho Ht Hn ->. apply Hn. pose proof (held_refs s (mref m) Ho) as Hh.
  pose proof (map_sum_ge (λ th, kocc (mref m) (holds th)) _ _ _ Ht) as Hge. cbn beta in Hge.
  pose proof (kocc_self m (holds (RecvRet c (Ok m))) ltac:(cbn; set_solver)).
  assert (0 < kocc (mref m) (given s)) as Hp by (unfold refcount in Hh; lia).
  unfold kocc in Hp. by apply occ_elem_of in Hp.
Qed.

Lemma alone_vars f s : alone s → alone (set_vars f s).
Proof. by apply alone_same. Qed.
Lemma alone_go th s : returned th = false → alone s → alone (go th s).
Proof. intros Hr. by apply (alone_move (fresh s) th). Qed.
Lemma alone_set_thread t th s : returned th = false → alone s → alone (set_thread t th s).
Proof. intros Hr. by apply (alone_move t th). Qed.
Lemma alone_close_chan c s : alone s → alone (close_chan c s).
Proof.
  unfold close_chan. destruct (chans s !! c) as [ch|]; [|by apply alone_same].
  destruct (cclosed ch); by apply alone_same.
Qed.

Lemma alone_SetOption c x name v s : alone s → alone (snd (context_SetOption c x name v s)).
Proof.
  intros Ha. unfold context_SetOption.
  assert (∀ topic, alone (snd (subscribe c x topic s))) as Hs.
  { intros topic. unfold subscribe. case_decide; [done|]. by revert Ha; apply alone_same. }
  assert (∀ topic, alone (snd (unsubscribe c x topic s))) as Hu.
  { intros topic. unfold unsubscribe. case_decide; [|done]. apply alone_go; [done|].
    apply alone_vars, alone_close_chan. by revert Ha; apply alone_same. }
  destruct (String.eqb name OptionReadQLen).
  { destruct v; try done. cbn [snd]. destruct (z <? 0)%Z; [by revert Ha; apply alone_same|].
    apply alone_close_chan. by revert Ha; apply alone_same. }
  destruct (String.eqb name OptionRecvDeadline).
  { by destruct v. }
  destruct (String.eqb name OptionSubscribe); [by destruct v; try apply Hs|].
  destruct (String.eqb name OptionUnsubscribe); [by destruct v; try apply Hu|done].
Qed.

Lemma alone_unique t c m n (s : state) :
  own_inv s → n ∉ mref <$> given s → threads s !! t = Some (RecvGot c m) →
  alone s → alone (RecvMsg_unique t c m n s).
Proof.
  intros Ho Hn Ht. unfold RecvMsg_unique. case_decide as Hc.
  - apply alone_step; [done|]. intros k c' m'. simpl. rewrite lookup_insert. case_decide; [|by left].
    intros [= <- <-]. right. change (refcount (mref m) s ≤ 1). lia.
  - apply alone_step.
    + intros x (k & c' & m' & Hk & <-). apply (refcount_give _ (m <| mref := n |>)); try done.
      * simpl. rewrite kocc_app. lia.
      * by eapply returned_given.
    + intros k c' m'. simpl. rewrite lookup_insert. case_decide; [|by left]. intros [= <- <-]. right.
      unfold refcount. simpl. rewrite kocc_app, kocc_cons, kocc_nil.
      assert (kocc n (given s) = 0) as ->; [|destruct (_ =? _); lia].
      destruct (kocc n (given s)) eqn:E; [done|]. destruct Hn. apply occ_elem_of.
      unfold kocc in E. unfold key, msg_keyed in E. rewrite E. lia.
Qed.

Lemma alone_next t p m l (s : state) :
  own_inv s → threads s !! t = Some (Next p m l) → alone s → alone (receiver_next t p m l s).
Proof.
  intros Ho Ht Ha. unfold receiver_next. destruct l as [|c l].
  { revert Ha. apply (alone_move t (Receiver p)); try done. by apply prefix_app_r. }
  destruct (ctxs (vars s) !! c) as [x|]; [|by apply alone_set_thread].
  destruct (matches x m); [|by apply alone_set_thread].
  pose proof Ha as Ha0. revert Ha. apply alone_step.
  - intros y (k & c' & m' & Hk & <-). apply (refcount_give _ m); try done. intros Heq.
    assert (k ≠ t) as Hne by congruence.
    pose proof (two_holders s (mref m') _ _ _ _ Hk Ht Hne) as H2.
    pose proof (held_refs s (mref m') Ho) as Hh. specialize (Ha0 _ _ _ Hk).
    pose proof (kocc_self m' (holds (RecvRet c' (Ok m'))) ltac:(cbn; set_solver)).
    pose proof (kocc_self m (holds (Next p m (c :: l))) ltac:(cbn; set_solver)) as Hm.
    rewrite Heq in Hm. lia.
  - intros k c' m'. simpl. rewrite lookup_insert. case_decide; [done|by left].
Qed.

Lemma alone_ext e s s' : own_inv s → ext e s = Some s' → alone s → alone s'.
Proof.
  intros Ho Hs Ha. revert Hs. destruct e; cbn [ext].
  - intros [_ Hs]%guard_bind_Some. apply bind_Some in Hs as (x & Hx & [= <-]). by apply alone_go.
  - destruct (threads s !! t) as [[]|] eqn:Ht; try done. intros [Hf Hs]%guard_bind_Some.
    apply bind_Some in Hs as (x & Hx & [= <-]). by apply alone_set_thread.
  - destruct (threads s !! t) as [[]|] eqn:Ht; try done. intros [Hn [= <-]]%guard_bind_Some.
    by apply alone_unique.
  - destruct (threads s !! t) as [[]|] eqn:Ht; try done. intros [[Hn _] [= <-]]%guard_bind_Some.
    revert Ha. apply alone_step.
    + intros x (k & c' & m' & Hk & <-). apply (refcount_give _ m); try done. by eapply returned_given.
    + intros k c' m'. simpl. rewrite lookup_insert. case_decide; [done|by left].
  - destruct (threads s !! t) as [[]|] eqn:Ht; try done. intros [= <-]. by apply alone_set_thread.
  - destruct (threads s !! t) as [[]|] eqn:Ht; try done. intros [_ [= <-]]%guard_bind_Some.
    by apply alone_set_thread, alone_vars.
  - destruct (threads s !! t) as [[]|] eqn:Ht; try done. intros [= <-]. by apply alone_next.
  - destruct (threads s !! t) as [[]|] eqn:Ht; try done. intros [= <-].
    by apply alone_set_thread, alone_vars.
  - destruct (threads s !! t) as [[]|] eqn:Ht; try done. intros [= <-].
    by apply alone_set_thread, alone_vars.
  - intros [_ Hs]%guard_bind_Some. apply bind_Some in Hs as (x & Hx & [= <-]). by apply alone_SetOption.
  - intros [_ Hs]%guard_bind_Some. apply bind_Some in Hs as (x & Hx & [= <-]).
    unfold context_Close. destruct (c_closed x); by apply alone_go.
  - destruct (threads s !! t) as [[]|] eqn:Ht; try done. intros [= <-].
    by apply alone_set_thread, alone_close_chan.
  - intros [_ [= <-]]%guard_bind_Some. unfold Close. destruct (closed (vars s)); [done|].
    by apply alone_go, alone_vars.
  - destruct (threads s !! t) as [[]|] eqn:Ht; try done. destruct l as [|c l]; [done|].
    intros [Hf Hs]%guard_bind_Some. apply bind_Some in Hs as (x & Hx & [= <-]).
    unfold context_Close. destruct (c_closed x); apply alone_go; try done; by apply (alone_set_thread t Done).
  - intros [_ [= <-]]%guard_bind_Some. unfold OpenContext. destruct (closed (vars s)); [done|].
    by destruct (ctxs (vars s) !! master (vars s)).
  - intros [_ [= <-]]%guard_bind_Some. unfold AddPipe. destruct (closed (vars s)); [done|].
    by apply alone_go.
Qed.

Lemma reachable_alone s : reachable step init ok s → good s ∧ alone s.
Proof.
  revert s. apply (reachable_invariant _ _ _ (λ s, good s ∧ alone s)).
  - intros s ->. split; [by apply sub_init_good|done].
  - intros l s s' [Hg Hr] _ Hs. split.
    { destruct Hg as [Hwf Ho Hty]. destruct (gstep_ok ext _ _ _ Hwf Hty Hs) as [Ha ? ?].
      split; [by apply Ha|auto|auto]. }
    apply guard_bind_Some in Hs as [_ Hs]. destruct l as [t i r|t|e].
    + apply bind_Some in Hs as (th & Ht & Hs). by eapply alone_case.
    + apply bind_Some in Hs as (th & Ht & [[Hd Hrd] Hs]%guard_bind_Some).
      apply (inj Some) in Hs. subst s'. by apply alone_default.
    + destruct Hg. by eapply alone_ext.
Qed.

(** No goroutine but [t] and no queue has a reference to [m]. *)
Definition unshared (t : thid) (m : msg) (s : state) : Prop :=
  (∀ t' th m', threads s !! t' = Some th → t' ≠ t → m' ∈ holding th → mref m' ≠ mref m) ∧
  (∀ q ch m', chans s !! q = Some ch → m' ∈ buf ch → mref m' ≠ mref m).

(** C22. [RecvMsg] returns a message the caller may modify, although the same
    message was put on the queues of several contexts: after [MakeUnique] no
    other goroutine and no queue has a reference to it, whatever other
    contexts, pipes and calls do afterwards. *)
Theorem sub_returns_unshared s (H : reachable step init ok s) :
  ∀ t c m, threads s !! t = Some (RecvRet c (Ok m)) → unshared t m s.
Proof.
  intros t c m Ht. destruct (reachable_alone s H) as [[_ Ho _] Ha]. specialize (Ha _ _ _ Ht).
  pose proof (held_refs s (mref m) Ho) as Hh.
  pose proof (kocc_self m (holds (RecvRet c (Ok m))) ltac:(cbn; set_solver)) as Hm. split.
  - intros t' th m' Ht' Hne Hm' Heq.
    pose proof (two_holders s (mref m) _ _ _ _ Ht' Ht Hne).
    pose proof (kocc_self m' (holds th) Hm') as Hc. rewrite Heq in Hc. lia.
  - intros q ch m' Hq Hm' Heq. pose proof (kocc_self m' (buf ch) Hm') as Hc. rewrite Heq in Hc.
    pose proof (map_sum_ge (λ th, kocc (mref m) (holds th)) _ _ _ Ht) as H1. cbn beta in H1.
    pose proof (map_sum_ge (λ ch, kocc (mref m) (buf ch)) _ _ _ Hq) as H2. cbn beta in H2. lia.
Qed.

(** Two contexts get the same message; the first to take it gets a copy. *)
Definition sub_two : state :=
  play step (λ _ _, true)
    [LExt (EOpenContext 1); LExt (ECtxSetOption 0 OptionSubscribe (VBytes []));
     LExt (ECtxSetOption 1 OptionSubscribe (VBytes [])); LExt (EAddPipe 5);
     LExt (EPipeRecv 6 (news 0)); LExt (ELock 6 [0; 1]); LExt (ENext 6); LCase 6 0 None;
     LExt (ENext 6); LCase 6 0 None; LExt (ENext 6);
     LExt (ERecv 0); LCase 7 0 None; LExt (EUnique 7 1)] NewProtocol.

Lemma sub_returns_unshared_witness :
  threads sub_two !! 7 = Some (RecvRet 0 (Ok (news 1))) ∧
  buf <$> chans sub_two !! (KRecv 1, 5) = Some [news 0] ∧ mref (news 0) ≠ mref (news 1).
Proof.
  assert (reachable step init ok sub_two) as Hr by (by apply play_reachable; [intros ? []|]).
  assert (threads sub_two !! 7 = Some (RecvRet 0 (Ok (news 1)))) as Ht by by vm_compute.
  split_and!; [done|by vm_compute|].
  destruct (sub_returns_unshared sub_two Hr _ _ _ Ht) as [_ Hq].
  eapply (Hq (KRecv 1, 5)); [by vm_compute|]. set_solver.
Defined.
