(* ===== verification/Surveyor.v ===== *)
(** * Surveyor: the SURVEYOR protocol

    [src/protocol/surveyor/surveyor.go], complete, as a program of [Chan].  A
    survey is an object with a queue of its own; it ends when its timer fires,
    when its context sends another survey, or when the context closes, and
    then its queue is closed and drained.  The identity of a channel says whose
    it is, so that closing one never closes another.

    [SendMsg] calls [m.MakeUnique()] without using the result; here the
    message is the caller's alone, so the call does nothing. *)
From stdpp Require Import gmap list strings fin_maps.
From Stdlib Require Import ZArith Lia.
From S2P Require Import Prelude Types Chan Backtrace.

Abbreviation pid := nat.
Abbreviation cid := nat.
Abbreviation sid := nat.

(** The channels: [closeQ] of a context and of a pipe, [sendQ] of a pipe,
    [recvQ] of a survey. *)
Inductive kind := KCtx (c : cid) | KPipe (p : pid) | KSend (p : pid) | KSurv (v : sid).
#[export] Instance kind_eq_dec : EqDecision kind.
Proof. solve_decision. Defined.
#[export] Instance kind_countable : Countable kind.
Proof.
  refine (inj_countable'
    (λ k, match k with KCtx c => (0, c) | KPipe p => (1, p) | KSend p => (2, p) | KSurv v => (3, v) end)
    (λ x, match x with (0, c) => KCtx c | (1, p) => KPipe p | (2, p) => KSend p | (_, v) => KSurv v end)
    _).
  by intros [].
Defined.
Abbreviation chid := (kind * nat)%type.

Record pipe := mkPipe { p_id : Z; p_closeQ : chid; p_sendQ : chid }.

Record survey := mkSurvey {
  sv_recvQ : chid;
  sv_id : Z;
  sv_ctx : cid;
  sv_err : error;
  sv_once : bool          (* once.Do was entered *)
}.
#[export] Instance eta_survey : Eta survey := λ s,
  mkSurvey (sv_recvQ s) (sv_id s) (sv_ctx s) (sv_err s) (sv_once s).

Record context := mkContext {
  c_closed : bool;
  c_closeQ : chid;
  recvQLen : Z;
  recvExpire : Z;
  survExpire : Z;
  c_surv : option sid
}.
#[export] Instance eta_context : Eta context := λ c,
  mkContext (c_closed c) (c_closeQ c) (recvQLen c) (recvExpire c) (survExpire c) (c_surv c).

Record socket := mkSocket {
  master : cid;
  contexts : gset cid;        (* s.ctxs *)
  surveys : gmap Z sid;
  pipes : gmap Z pid;
  nextID : Z;
  closed : bool;
  sendQLen : Z;
  cobjs : gmap cid context;   (* all context, survey and pipe objects *)
  survs : gmap sid survey;
  pobjs : gmap pid pipe;
  removed : gset pid;
  pclosed : gset pid;
  submitted : list msg;
  arrived : list msg
}.
#[export] Instance eta_socket : Eta socket := λ s,
  mkSocket (master s) (contexts s) (surveys s) (pipes s) (nextID s) (closed s) (sendQLen s)
    (cobjs s) (survs s) (pobjs s) (removed s) (pclosed s) (submitted s) (arrived s).

Definition defaultQLen : Z := 128.
Definition defaultSurveyTime : Z := 1000000000.

(** Program points. *)
Inductive thread :=
  | SendLock (c : cid) (id : Z) (m : msg)         (* SendMsg, before s.Lock() *)
  | BNext (m : msg) (l : list chid)               (* SendMsg, the head of its loop over pipes *)
  | BTry (m : msg) (q : chid) (l : list chid)
  | SendRet (e : error) (back : option msg)
  | RecvTry (c : cid) (v : sid) (rq cq : chid) (tq : bool)
  | RecvWait (c : cid) (v : sid) (rq cq : chid) (tq : bool)
  | RecvErr (c : cid) (v : sid)                   (* recvQ is closed: return nil, surv.err *)
  | RecvRet (c : cid) (r : result msg)
  | RecvNil (c : cid)                             (* returned nil, nil *)
  | Receiver (p : pid)
  | Sender (p : pid) (q cq : chid)
  | Sending (p : pid) (m : msg)
  | PipeClose (p : pid)
  | Cancel (v : sid) (e : err)                    (* survey.cancel, before once.Do *)
  | CloseSurv (v : sid)                           (* ..., before close(s.recvQ) *)
  | Drain (q : chid)                              (* ..., in its last loop *)
  | Removing (p : pid)                            (* RemovePipe, before s.Lock() *)
  | Done.

Definition timer (tq : bool) : list (op kind msg) := if tq then [OTime] else [].

Definition sel (th : thread) : list (op kind msg) :=
  match th with
  | BTry m q l => [OSend q m]
  | RecvTry c v rq cq tq => [ORecv rq]
  | RecvWait c v rq cq tq => [ORecv cq; ORecv rq] ++ timer tq
  | Sender p q cq => [ORecv cq; ORecv q]
  | Drain q => [ORecv q]
  | _ => []
  end.
Definition dflt (th : thread) : bool :=
  match th with BTry _ _ _ | RecvTry _ _ _ _ _ => true | _ => false end.

(** After a case.  A [sendQ] is never closed, so a receive from it brings a
    message; a closed [recvQ] brings nil. *)
Definition res (th : thread) (i : option nat) (x : option msg) : thread * list msg :=
  match th, i with
  | BTry m q l, Some _ => (BNext m l, [])
  | BTry m q l, None => (BNext m l, [m])
  | RecvTry c v rq cq tq, None => (RecvWait c v rq cq tq, [])
  | RecvTry c v rq cq tq, Some _ =>
      (match x with Some m => RecvRet c (Ok m) | None => RecvErr c v end, [])
  | RecvWait c v rq cq tq, Some 0 => (RecvRet c (Err ErrClosed), option_list x)
  | RecvWait c v rq cq tq, Some 1 =>
      (match x with Some m => RecvRet c (Ok m) | None => RecvErr c v end, [])
  | RecvWait c v rq cq tq, Some _ => (RecvRet c (Err ErrRecvTimeout), [])
  | Sender p q cq, Some 0 => (PipeClose p, option_list x)
  | Sender p q cq, Some _ => (match x with Some m => Sending p m | None => PipeClose p end, [])
  | Drain q, Some _ => match x with Some m => (Drain q, [m]) | None => (Done, []) end
  | th, _ => (th, [])
  end.

#[export] Instance surveyor_program : Program kind msg thread :=
  { select := sel; has_default := dflt; resume := res }.

Abbreviation state := (st kind msg socket thread).

(** ** The critical sections *)
Definition upd_ctx (c : cid) (f : context → context) (s : state) : state :=
  set_vars (λ σ, σ <| cobjs ::= alter f c |>) s.
Definition upd_surv (v : sid) (f : survey → survey) (s : state) : state :=
  set_vars (λ σ, σ <| survs ::= alter f v |>) s.

(** [survey.cancel], inside [once.Do], up to [sock.Unlock()]. *)
Definition cancel (t : thid) (v : sid) (x : survey) (e : err) (s : state) : state :=
  if sv_once x then set_thread t Done s
  else
    let s := upd_surv v (λ y, y <| sv_err := Some e |> <| sv_once := true |>) s in
    let s := upd_ctx (sv_ctx x)
      (λ c, if decide (c_surv c = Some v) then c <| c_surv := None |> else c) s in
    let s := set_vars (λ σ, σ <| surveys ::= delete (sv_id x) |>) s in
    set_thread t (CloseSurv v) s.

(** [survey.start]: the new survey object is [v]. *)
Definition start (v : sid) (c : cid) (id qLen : Z) (s : state) : state :=
  let '(rq, s) := make_chan (KSurv v) (Z.to_nat qLen) s in
  let s := set_vars (λ σ, σ <| survs ::= <[v := mkSurvey rq id c None false]> |>
                            <| surveys ::= <[id := v]> |>) s in
  upd_ctx c (λ x, x <| c_surv := Some v |>) s.

(** [context.SendMsg], before the lock. *)
Definition SendMsg (c : cid) (m : msg) (s : state) : state :=
  let n := u32 (nextID (vars s) + 1) in
  let id := Z.lor n 0x80000000 in
  let s := set_vars (λ σ, σ <| nextID := n |>) s in
  let m := m <| mhdr := put_uint32 id |> in
  go (SendLock c id m) (set_vars (λ σ, σ <| submitted ::= (λ l, l ++ [m]) |>) (give [m] s)).

(** ..., the critical section; [order] lists the pipes. *)
Definition SendMsg_locked (t : thid) (c : cid) (x : context) (id : Z) (m : msg) (v : sid)
    (order : list chid) (s : state) : state :=
  if closed (vars s) || c_closed x then set_thread t (SendRet (Some ErrClosed) (Some m)) s
  else
    let s := start v c id (recvQLen x) s in
    let s := match c_surv x with Some old => go (Cancel old ErrCanceled) s | None => s end in
    set_thread t (BNext m order) s.
(** ..., one pass of the broadcast. *)
Definition SendMsg_next (t : thid) (m : msg) (l : list chid) (s : state) : state :=
  match l with
  | [] => set_thread t (SendRet None None) (free [m] s)
  | q :: l => set_thread t (BTry m q l) (give [m] s)
  end.

(** [context.RecvMsg], up to the first [select]. *)
Definition RecvMsg (c : cid) (x : context) (s : state) : state :=
  if closed (vars s) then go (RecvRet c (Err ErrClosed)) s
  else
    let tq := negb (recvExpire x =? 0)%Z in
    match c_surv x with
    | None => go (RecvRet c (Err ErrProtoState)) s
    | Some v =>
        match survs (vars s) !! v with
        | Some y => go (RecvTry c v (sv_recvQ y) (c_closeQ x) tq) s
        | None => s <| crashed := true |>
        end
    end.
Definition RecvMsg_err (t : thid) (c : cid) (v : sid) (s : state) : state :=
  set_thread t
    (match survs (vars s) !! v with
     | Some y => match sv_err y with Some e => RecvRet c (Err e) | None => RecvNil c end
     | None => RecvNil c
     end) s.

(** [context.close], with the lock held. *)
Definition ctx_close (c : cid) (s : state) : state :=
  match cobjs (vars s) !! c with
  | None => s <| crashed := true |>
  | Some x =>
      if c_closed x then s
      else
        let s := upd_ctx c (λ x, x <| c_closed := true |> <| c_surv := None |>) s in
        let s := close_chan (c_closeQ x) s in
        match c_surv x with Some v => go (Cancel v ErrClosed) s | None => s end
  end.
Definition context_Close (c : cid) (x : context) (s : state) : error * state :=
  if c_closed x then (Some ErrClosed, s) else (None, ctx_close c s).

Definition context_SetOption (c : cid) (name : string) (v : value) (s : state) : error * state :=
  if String.eqb name OptionSurveyTime then
    match v with
    | VDuration d => (None, upd_ctx c (λ x, x <| survExpire := d |>) s)
    | _ => (Some ErrBadValue, s)
    end
  else if String.eqb name OptionRecvDeadline then
    match v with
    | VDuration d => (None, upd_ctx c (λ x, x <| recvExpire := d |>) s)
    | _ => (Some ErrBadValue, s)
    end
  else if String.eqb name OptionReadQLen then
    match v with
    | VInt z => if (0 <=? z)%Z then (None, upd_ctx c (λ x, x <| recvQLen := z |>) s)
                else (Some ErrBadValue, s)
    | _ => (Some ErrBadValue, s)
    end
  else (Some ErrBadOption, s).

Definition context_GetOption (name : string) (x : context) : result value :=
  if String.eqb name OptionSurveyTime then Ok (VDuration (survExpire x))
  else if String.eqb name OptionRecvDeadline then Ok (VDuration (recvExpire x))
  else if String.eqb name OptionReadQLen then Ok (VInt (recvQLen x))
  else Err ErrBadOption.

(** [receiver], when [p.p.RecvMsg()] has returned [m0]: the first word goes
    to the header, and the message to the queue of the survey it names, if
    there is room ([rv] is the goroutine that takes it when the queue is
    unbuffered). *)
Definition response (m : msg) : option msg :=
  if decide (length (mbody m) < 4) then None else Some (shift4 m).
Definition receiver_turn (m0 : msg) (rv : option (thid * nat)) (s : state) : option state :=
  let s := set_vars (λ σ, σ <| arrived ::= (λ l, l ++ [m0]) |>) s in
  match response m0 with
  | None => Some (free [m0] (give [m0] s))
  | Some m =>
      let id := uint32_of (take 4 (mhdr m)) in
      match surveys (vars s) !! id with
      | None => Some (free [m] (give [m] s))
      | Some v =>
          match survs (vars s) !! v with
          | None => Some (s <| crashed := true |>)
          | Some y =>
              if ready s (OSend (sv_recvQ y) m)
              then s ← chan_send (sv_recvQ y) m false rv s; Some (give [m] s)
              else Some (free [m] (give [m] s))
          end
      end
  end.

(** [sender], when [p.p.SendMsg(m)] has returned. *)
Definition sender_sent (t : thid) (p : pid) (po : pipe) (m : msg) (e : error) (s : state) : state :=
  match e with
  | Some _ => set_thread t (PipeClose p) (free [m] s)
  | None => set_thread t (Sender p (p_sendQ po) (p_closeQ po)) (pass [m] s)
  end.
Definition pipe_close (t : thid) (p : pid) (s : state) : state :=
  set_thread t Done (set_vars (λ σ, σ <| pclosed ::= (λ x, {[p]} ∪ x) |>) s).

Definition OpenContext (c : cid) (s : state) : error * state :=
  if closed (vars s) then (Some ErrClosed, s)
  else match cobjs (vars s) !! master (vars s) with
  | None => (None, s <| crashed := true |>)
  | Some d =>
      let '(cq, s) := make_chan (KCtx c) 0 s in
      let x := mkContext false cq (recvQLen d) (recvExpire d) (survExpire d) None in
      (None, set_vars (λ σ, σ <| cobjs ::= <[c := x]> |> <| contexts ::= (λ cs, {[c]} ∪ cs) |>) s)
  end.

Definition AddPipe (p : pid) (id : Z) (s : state) : error * state :=
  let '(sq, s) := make_chan (KSend p) (Z.to_nat (sendQLen (vars s))) s in
  let '(cq, s) := make_chan (KPipe p) 0 s in
  let s := set_vars (λ σ, σ <| pobjs ::= <[p := mkPipe id cq sq]> |>) s in
  if closed (vars s) then (Some ErrClosed, s)
  else
    let s := set_vars (λ σ, σ <| pipes ::= <[id := p]> |>) s in
    (None, go (Sender p sq cq) (go (Receiver p) s)).

(** [RemovePipe]: the part before the lock, and the rest. *)
Definition RemovePipe (p : pid) (po : pipe) (s : state) : state :=
  go (Removing p)
    (close_chan (p_closeQ po) (set_vars (λ σ, σ <| removed ::= (λ x, {[p]} ∪ x) |>) s)).
Definition RemovePipe_locked (t : thid) (po : pipe) (s : state) : state :=
  set_thread t Done (set_vars (λ σ, σ <| pipes ::= delete (p_id po) |>) s).

(** [socket.Close]; [order] lists the contexts. *)
Definition Close (order : list cid) (s : state) : error * state :=
  if closed (vars s) then (Some ErrClosed, s)
  else (None, foldl (λ s c, ctx_close c s) (set_vars (λ σ, σ <| closed := true |>) s) order).

Definition GetOption (name : string) (σ : socket) : result value :=
  if String.eqb name OptionRaw then Ok (VBool false)
  else if String.eqb name OptionWriteQLen then Ok (VInt (sendQLen σ))
  else match cobjs σ !! master σ with
       | Some x => context_GetOption name x
       | None => Err ErrBadOption
       end.
Definition SetOption (name : string) (v : value) (s : state) : error * state :=
  if String.eqb name OptionWriteQLen then
    match v with
    | VInt z => if (0 <=? z)%Z then (None, set_vars (λ σ, σ <| sendQLen := z |>) s)
                else (Some ErrBadValue, s)
    | _ => (Some ErrBadValue, s)
    end
  else context_SetOption (master (vars s)) name v s.

Definition Info : ProtocolInfo := mkInfo ProtoSurveyor ProtoRespondent "surveyor" "respondent".

(** [now] is the time that makes the first survey ID. *)
Definition NewProtocol (now : Z) : state :=
  let cq := (KCtx 0, 0) in
  mkSt (mkSocket 0 {[0]} ∅ ∅ (u32 now) false defaultQLen
          {[0 := mkContext false cq defaultQLen 0 defaultSurveyTime None]} ∅ ∅ ∅ ∅ [] [])
    {[cq := mkChan [] 0 false [] []]} ∅ 1 [] [] [] false.

(** ** The program *)
Inductive event :=
  | ESend (c : cid) (m : msg)
  | ESendLock (t : thid) (v : sid) (order : list pid)
  | ENext (t : thid)
  | ERecv (c : cid)
  | ERecvErr (t : thid)
  | EPipeRecv (t : thid) (m : msg) (rv : option (thid * nat))
  | EPipeRecvNil (t : thid)
  | EPipeSent (t : thid) (e : error)
  | EPipeClose (t : thid)
  | ETimer (v : sid)                     (* the timer of a survey fires *)
  | ECancel (t : thid)
  | ECloseSurv (t : thid)
  | ECtxSetOption (c : cid) (name : string) (v : value)
  | ESetOption (name : string) (v : value)
  | ECtxClose (c : cid)
  | EClose (order : list cid)
  | EOpenContext (c : cid)
  | EAddPipe (p : pid) (id : Z)
  | ERemovePipe (p : pid)
  | ERemoveLocked (t : thid).

(** New messages and objects have identities of their own; the pipes and
    contexts are ranged over in any order; the core adds a pipe once and
    removes it once. *)
Definition ext (e : event) (s : state) : option state :=
  match e with
  | ESend c m => guard (mref m ∉ mref <$> given s ∧ is_Some (cobjs (vars s) !! c));; Some (SendMsg c m s)
  | ESendLock t v order =>
      match threads s !! t with
      | Some (SendLock c id m) =>
          x ← cobjs (vars s) !! c;
          guard (survs (vars s) !! v = None ∧ NoDup order ∧
                 list_to_set order = (map_img (pipes (vars s)) : gset pid));;
          Some (SendMsg_locked t c x id m v (omap (λ p, p_sendQ <$> pobjs (vars s) !! p) order) s)
      | _ => None
      end
  | ENext t =>
      match threads s !! t with
      | Some (BNext m l) => Some (SendMsg_next t m l s)
      | _ => None
      end
  | ERecv c => x ← cobjs (vars s) !! c; Some (RecvMsg c x s)
  | ERecvErr t =>
      match threads s !! t with
      | Some (RecvErr c v) => Some (RecvMsg_err t c v s)
      | _ => None
      end
  | EPipeRecv t m rv =>
      match threads s !! t with
      | Some (Receiver p) =>
          guard (mref m ∉ mref <$> given s ∧ mhdr m = []);; receiver_turn m rv s
      | _ => None
      end
  | EPipeRecvNil t =>
      match threads s !! t with
      | Some (Receiver p) => Some (set_thread t Done s)
      | _ => None
      end
  | EPipeSent t e =>
      match threads s !! t with
      | Some (Sending p m) => po ← pobjs (vars s) !! p; Some (sender_sent t p po m e s)
      | _ => None
      end
  | EPipeClose t =>
      match threads s !! t with
      | Some (PipeClose p) => Some (pipe_close t p s)
      | _ => None
      end
  | ETimer v => guard (is_Some (survs (vars s) !! v));; Some (go (Cancel v ErrProtoState) s)
  | ECancel t =>
      match threads s !! t with
      | Some (Cancel v e) => x ← survs (vars s) !! v; Some (cancel t v x e s)
      | _ => None
      end
  | ECloseSurv t =>
      match threads s !! t with
      | Some (CloseSurv v) =>
          x ← survs (vars s) !! v;
          Some (set_thread t (Drain (sv_recvQ x)) (close_chan (sv_recvQ x) s))
      | _ => None
      end
  | ECtxSetOption c name v => Some (snd (context_SetOption c name v s))
  | ESetOption name v => Some (snd (SetOption name v s))
  | ECtxClose c => x ← cobjs (vars s) !! c; Some (snd (context_Close c x s))
  | EClose order =>
      guard (NoDup order ∧ list_to_set order = contexts (vars s));; Some (snd (Close order s))
  | EOpenContext c => guard (cobjs (vars s) !! c = None);; Some (snd (OpenContext c s))
  | EAddPipe p id => guard (pobjs (vars s) !! p = None);; Some (snd (AddPipe p id s))
  | ERemovePipe p =>
      po ← pobjs (vars s) !! p; guard (p ∉ removed (vars s));; Some (RemovePipe p po s)
  | ERemoveLocked t =>
      match threads s !! t with
      | Some (Removing p) => po ← pobjs (vars s) !! p; Some (RemovePipe_locked t po s)
      | _ => None
      end
  end.

Definition init (s : state) : Prop := ∃ now, s = NewProtocol now.
Definition step : label event → state → option state := gstep ext.
Definition ok : state → label event → Prop := gok (λ _ _, True).

(** ** Ownership *)
Definition holding (th : thread) : list msg :=
  match th with
  | SendLock _ _ m | BNext m _ | SendRet _ (Some m) | RecvRet _ (Ok m) | Sending _ m => [m]
  | BTry m _ _ => [m; m]
  | _ => []
  end.

#[export] Instance surveyor_owns : Owns (K := kind) (A := msg) (T := thread).
Proof.
  refine {| holds := holding |}.
  - intros th i o v y Hsel Hv.
    destruct th; try (destruct tq); cbn in Hsel; select_cases Hsel; cbn in *; subst;
      try (destruct v as [m'|]); owns_lia.
  - intros th y Hd. destruct th; try done; owns_lia.
Defined.

(** ** What the channels carry *)

(** [m] is a response to survey [v]: it arrived with the survey's ID in front. *)
Definition answers (σ : socket) (v : sid) (m : msg) : Prop :=
  ∃ y m0, survs σ !! v = Some y ∧ m0 ∈ arrived σ ∧ response m0 = Some m ∧
    uint32_of (take 4 (mhdr m)) = sv_id y.
Definition survey_of (σ : socket) (c : cid) (v : sid) : Prop :=
  ∃ y, survs σ !! v = Some y ∧ sv_ctx y = c.

Definition ctype (σ : socket) (c : chid) (m : msg) : Prop :=
  match c.1 with
  | KSurv v => answers σ v m
  | KSend _ => m ∈ submitted σ
  | KCtx _ | KPipe _ => False
  end.
Definition send_queue (q : chid) : Prop := ∃ p, q.1 = KSend p.

Definition ttype (σ : socket) (th : thread) : Prop :=
  match th with
  | SendLock c id m => m ∈ submitted σ
  | BNext m l => m ∈ submitted σ ∧ Forall send_queue l
  | BTry m q l => m ∈ submitted σ ∧ send_queue q ∧ Forall send_queue l
  | SendRet _ (Some m) => m ∈ submitted σ
  | RecvTry c v rq cq _ | RecvWait c v rq cq _ => rq.1 = KSurv v ∧ cq.1 = KCtx c ∧ survey_of σ c v
  | RecvErr c v => survey_of σ c v
  | RecvRet c (Ok m) => ∃ v, survey_of σ c v ∧ answers σ v m
  | Sender p q cq => q.1 = KSend p ∧ cq.1 = KPipe p
  | Sending _ m => m ∈ submitted σ
  | Drain q => ∃ v, q.1 = KSurv v
  | Cancel v _ | CloseSurv v => is_Some (survs σ !! v)
  | _ => True
  end.

Record vtype (σ : socket) : Prop := {
  vt_surv v y : survs σ !! v = Some y → (sv_recvQ y).1 = KSurv v;
  vt_ctx c x : cobjs σ !! c = Some x →
    (c_closeQ x).1 = KCtx c ∧ ∀ v, c_surv x = Some v → survey_of σ c v;
  vt_pipe p po : pobjs σ !! p = Some po → (p_closeQ po).1 = KPipe p ∧ (p_sendQ po).1 = KSend p;
  vt_surveys id v : surveys σ !! id = Some v → ∃ y, survs σ !! v = Some y ∧ sv_id y = id;
  vt_header m : m ∈ submitted σ → ∃ n, mhdr m = put_uint32 (Z.lor (u32 n) 0x80000000)
}.

#[export] Instance surveyor_typed : Typed (K := kind) (A := msg) (S := socket) (T := thread).
Proof.
  refine {| vars_type := vtype; chan_type := ctype; thread_type := λ σ _ th, ttype σ th |}.
  - intros σ t th i o v Hsel Hth Hv.
    destruct th; try (destruct tq); cbn in Hsel; select_cases Hsel; cbn in Hth;
      try (destruct v as [m'|]); try done; cbn.
    all: try (destruct Hth as [Hk ?]; unfold ctype in Hv; rewrite Hk in Hv; naive_solver).
    all: try naive_solver.
    destruct Hth as (? & [p Hp] & ?). unfold ctype. rewrite Hp. by split_and!.
  - intros σ t th Hd Hth. destruct th; try done. cbn in *. naive_solver.
Defined.

(** The variables grow. *)
Record vle (σ σ' : socket) : Prop := {
  le_sub m : m ∈ submitted σ → m ∈ submitted σ';
  le_arr m : m ∈ arrived σ → m ∈ arrived σ';
  le_surv v y : survs σ !! v = Some y →
    ∃ y', survs σ' !! v = Some y' ∧ sv_recvQ y' = sv_recvQ y ∧ sv_id y' = sv_id y ∧ sv_ctx y' = sv_ctx y
}.
Lemma surveyor_vle_refl σ : vle σ σ.
Proof. split; eauto 10. Qed.

Lemma survey_of_mono σ σ' c v : vle σ σ' → survey_of σ c v → survey_of σ' c v.
Proof.
  intros Hle (y & Hy & Hc). destruct (le_surv _ _ Hle _ _ Hy) as (y' & ? & _ & _ & ?).
  exists y'. split; [done|congruence].
Qed.
Lemma answers_mono σ σ' v m : vle σ σ' → answers σ v m → answers σ' v m.
Proof.
  intros Hle (y & m0 & Hy & Ha & Hr & Hid). destruct (le_surv _ _ Hle _ _ Hy) as (y' & ? & _ & ? & _).
  exists y', m0. split_and!; [done|by apply Hle|done|congruence].
Qed.
Lemma surveyor_ctype_mono σ σ' c m : vle σ σ' → ctype σ c m → ctype σ' c m.
Proof. intros Hle. unfold ctype. destruct (c.1); [done|done|apply Hle|by apply answers_mono]. Qed.
Lemma surveyor_ttype_mono σ σ' th : vle σ σ' → ttype σ th → ttype σ' th.
Proof.
  intros Hle. pose proof (le_sub _ _ Hle) as Hs.
  assert (∀ v, is_Some (survs σ !! v) → is_Some (survs σ' !! v)) as Hsv.
  { intros v [y Hy]. destruct (le_surv _ _ Hle _ _ Hy) as (y' & -> & _). done. }
  destruct th as [| | |e [m|]| | | |c [m|]| | | | | | | | | |]; simpl; try done; try (by auto).
  - naive_solver.
  - naive_solver.
  - intros (? & ? & ?). eauto using survey_of_mono.
  - intros (? & ? & ?). eauto using survey_of_mono.
  - by apply survey_of_mono.
  - intros (v & ? & ?). eauto using survey_of_mono, answers_mono.
Qed.

Lemma surveyor_okstep_vle f s :
  vle (vars s) (f (vars s)) → (vtype (vars s) → vtype (f (vars s))) → okstep s (set_vars f s).
Proof.
  intros Hle Hv. apply okstep_vars; [done|intros ? ? _; by apply surveyor_ctype_mono|].
  intros ? ? _ _. by apply surveyor_ttype_mono.
Qed.

(** ** The critical sections keep everything *)
Lemma surveyor_okstep_plain f s :
  submitted (f (vars s)) = submitted (vars s) → arrived (f (vars s)) = arrived (vars s) →
  survs (f (vars s)) = survs (vars s) → cobjs (f (vars s)) = cobjs (vars s) →
  pobjs (f (vars s)) = pobjs (vars s) →
  (∀ id v, surveys (f (vars s)) !! id = Some v → surveys (vars s) !! id = Some v) →
  okstep s (set_vars f s).
Proof.
  intros Es Ea Ev Ec Ep Ei. apply surveyor_okstep_vle.
  - split; rewrite ?Es, ?Ea, ?Ev; eauto 10.
  - intros [H1 H2 H3 H4 H5]. split; unfold survey_of; rewrite ?Es, ?Ev, ?Ec, ?Ep; eauto.
Qed.

Lemma surveyor_okstep_ctx c g s :
  (∀ x, c_closeQ (g x) = c_closeQ x ∧ ∀ v, c_surv (g x) = Some v →
     c_surv x = Some v ∨ survey_of (vars s) c v) →
  okstep s (upd_ctx c g s).
Proof.
  intros Hg. apply surveyor_okstep_vle; [by split; eauto 10|]. intros [H1 H2 H3 H4 H5].
  split; try done. intros k x. simpl. rewrite lookup_alter. case_decide; [subst|by apply H2].
  intros (y & Hy & ->)%fmap_Some. destruct (Hg y) as [-> Hgv]. destruct (H2 _ _ Hy) as [? Hs].
  split; [done|]. intros v Hv. destruct (Hgv v Hv) as [?|?]; [by apply Hs|done].
Qed.

Lemma surveyor_okstep_cancel t v e x s :
  threads s !! t = Some (Cancel v e) → survs (vars s) !! v = Some x → okstep s (cancel t v x e s).
Proof.
  intros Ht Hx. unfold cancel. destruct (sv_once x).
  { eapply okstep_set_thread; [done|count|done]. }
  set (s1 := upd_surv v _ s). assert (okstep s s1) as Hok1.
  { assert (∀ k y, survs (vars s) !! k = Some y → ∃ y', survs (vars s1) !! k = Some y' ∧
      sv_recvQ y' = sv_recvQ y ∧ sv_id y' = sv_id y ∧ sv_ctx y' = sv_ctx y) as Hle.
    { intros k y Hy. simpl. rewrite lookup_alter. case_decide; [subst; rewrite Hy|]; by eauto 10. }
    assert (vle (vars s) (vars s1)) as Hvle by by split.
    apply surveyor_okstep_vle; [done|]. intros [H1 H2 H3 H4 H5]. split; simpl.
    - intros k y. rewrite lookup_alter. case_decide; [subst|by apply H1].
      intros (z & Hz & ->)%fmap_Some. by apply (H1 k z).
    - intros k y Hy. destruct (H2 _ _ Hy) as [? Hs]. split; [done|]. intros v' Hv'.
      by eapply (survey_of_mono (vars s)); [|apply Hs].
    - done.
    - intros id k Hk. destruct (H4 _ _ Hk) as (y & Hy & ?). destruct (Hle _ _ Hy) as (y' & ? & ? & ? & ?).
      exists y'. split; [done|congruence].
    - done. }
  set (s2 := upd_ctx (sv_ctx x) _ s1). assert (okstep s1 s2) as Hok2.
  { apply surveyor_okstep_ctx. intros c. case_decide; naive_solver. }
  set (s3 := set_vars _ s2). assert (okstep s2 s3) as Hok3.
  { apply surveyor_okstep_plain; try done. simpl. intros id k. rewrite lookup_delete. by case_decide. }
  etrans; [exact Hok1|]. etrans; [exact Hok2|]. etrans; [exact Hok3|].
  apply (okstep_set_thread t (Cancel v e)); [done|count|]. intros _.
  simpl. rewrite lookup_alter_eq, Hx. done.
Qed.

Lemma surveyor_okstep_start v c id q s :
  wf s → survs (vars s) !! v = None →
  let s' := start v c id q s in
  okstep s s' ∧ threads s' = threads s ∧ submitted (vars s') = submitted (vars s) ∧
  ∀ v', is_Some (survs (vars s) !! v') → is_Some (survs (vars s') !! v').
Proof.
  intros Hwf Hv. unfold start. destruct (make_chan (KSurv v) _ s) as [rq s1] eqn:E1.
  destruct (okstep_make_chan _ _ _ _ _ Hwf E1) as (Hok1 & Hwf1 & Hrq & Hv1 & Ht1).
  set (f := λ σ : socket, σ <| survs ::= <[v := mkSurvey rq id c None false]> |> <| surveys ::= <[id := v]> |>).
  assert (vle (vars s1) (f (vars s1))) as Hvle.
  { split; [done|done|]. intros k y Hy. simpl. rewrite lookup_insert_ne; [by eauto 10|].
    rewrite Hv1 in Hy. congruence. }
  assert (okstep s1 (set_vars f s1)) as Hok2.
  { apply surveyor_okstep_vle; [done|]. intros [H1 H2 H3 H4 H5]. split; try done; simpl.
    - intros k y. rewrite lookup_insert. case_decide; [|by apply H1]. subst. by intros [= <-].
    - intros k y Hy. destruct (H2 _ _ Hy) as [? Hs]. split; [done|]. intros v' Hv'.
      by eapply survey_of_mono; [|apply Hs].
    - intros k v'. rewrite lookup_insert. case_decide.
      + intros [= <-]. subst. rewrite lookup_insert_eq. eauto.
      + intros Hk. destruct (H4 _ _ Hk) as (y & Hy & ?). exists y. split; [|done].
        rewrite lookup_insert_ne; [done|]. rewrite Hv1 in Hy. congruence. }
  set (s2 := set_vars f s1) in *. split_and!.
  - etrans; [exact Hok1|]. etrans; [exact Hok2|]. apply surveyor_okstep_ctx. intros x. split; [done|].
    simpl. intros v' [= <-]. right. eexists. simpl. rewrite lookup_insert_eq. done.
  - done.
  - simpl. by rewrite Hv1.
  - intros v' Hs. simpl. rewrite lookup_insert_is_Some'. right. by rewrite Hv1.
Qed.

Lemma surveyor_okstep_SendMsg c m s : wf s → okstep s (SendMsg c m s).
Proof.
  intros Hwf. unfold SendMsg. set (n := u32 (nextID (vars s) + 1)).
  set (m' := m <| mhdr := put_uint32 (Z.lor n 0x80000000) |>).
  set (f := λ σ : socket, σ <| nextID := n |>). set (g := λ σ : socket, σ <| submitted ::= (λ l, l ++ [m']) |>).
  change (set_vars g (give [m'] (set_vars f s))) with (give [m'] (set_vars g (set_vars f s))).
  assert (okstep s (set_vars f s)) as Hok1 by by apply surveyor_okstep_plain.
  assert (okstep (set_vars f s) (set_vars g (set_vars f s))) as Hok2.
  { apply surveyor_okstep_vle; [split; simpl; set_solver|]. intros [H1 H2 H3 H4 H5]. split; try done.
    simpl. intros x [?| ->%list_elem_of_singleton]%elem_of_app; [by apply H5|].
    exists (nextID (vars s) + 1)%Z. done. }
  etrans; [exact Hok1|]. etrans; [exact Hok2|].
  assert (wf (set_vars g (set_vars f s))) as Hwf2 by (by apply Hok2, Hok1).
  apply (okstep_spawn _ [m']); [done|accounting|]. intros _. simpl. set_solver.
Qed.

Lemma send_queues (σ : socket) order :
  vtype σ → Forall send_queue (omap (λ p, p_sendQ <$> pobjs σ !! p) order).
Proof.
  intros Hv. apply Forall_forall. intros q. rewrite list_elem_of_omap.
  intros (p & _ & (po & Hpo & ->)%fmap_Some). exists p. by apply (vt_pipe _ Hv).
Qed.

Lemma surveyor_okstep_SendMsg_locked t c x id m v order s :
  wf s → typed s → threads s !! t = Some (SendLock c id m) → cobjs (vars s) !! c = Some x →
  survs (vars s) !! v = None → Forall send_queue order →
  okstep s (SendMsg_locked t c x id m v order s).
Proof.
  intros Hwf Hty Ht Hx Hv Hord. pose proof (ty_thread _ Hty _ _ Ht) as Hm. unfold SendMsg_locked.
  destruct (_ || _). { eapply okstep_set_thread; [done|count|done]. }
  destruct (surveyor_okstep_start v c id (recvQLen x) s Hwf Hv) as (Hok & Hth & Hsub & Hsv).
  set (s1 := start v c id (recvQLen x) s) in *. assert (wf s1) as Hwf1 by by apply Hok. clearbody s1.
  set (s2 := match c_surv x with Some old => go (Cancel old ErrCanceled) s1 | None => s1 end).
  assert (okstep s1 s2 ∧ threads s2 !! t = Some (SendLock c id m) ∧ submitted (vars s2) = submitted (vars s))
    as (Hok2 & Ht2 & Hsub2).
  { subst s2. destruct (c_surv x) as [old|] eqn:Hold; [|by rewrite Hth].
    split_and!; [|simpl; rewrite Hth, lookup_insert_ne; [done|]|done].
    - apply okstep_go; [done|done|]. intros _. apply Hsv.
      destruct (vt_ctx _ (ty_vars _ Hty) _ _ Hx) as [_ Hs]. destruct (Hs _ Hold) as (y & -> & _). done.
    - intros E. assert (is_Some (threads s1 !! t)) as Hs by (rewrite Hth, Ht; done).
      apply (wf_fresh_t _ Hwf1) in Hs. lia. }
  etrans; [exact Hok|]. etrans; [exact Hok2|].
  eapply okstep_set_thread; [done|count|]. intros _. split; [by rewrite Hsub2|done].
Qed.

Lemma surveyor_okstep_SendMsg_next t m l s :
  typed s → threads s !! t = Some (BNext m l) → okstep s (SendMsg_next t m l s).
Proof.
  intros Hty Ht. destruct (ty_thread _ Hty _ _ Ht) as [Hm Hl]. unfold SendMsg_next. destruct l as [|q l].
  - eapply (okstep_goto t _ _ []); [done|accounting|done].
  - apply Forall_cons in Hl as [? ?]. eapply (okstep_goto t _ _ [m]); [done|accounting|done].
Qed.

Lemma surveyor_okstep_RecvMsg c x s :
  wf s → typed s → cobjs (vars s) !! c = Some x → okstep s (RecvMsg c x s).
Proof.
  intros Hwf Hty Hx. unfold RecvMsg. destruct (closed (vars s)); [by apply okstep_go|].
  destruct (vt_ctx _ (ty_vars _ Hty) _ _ Hx) as [Hcq Hs].
  destruct (c_surv x) as [v|]; [|by apply okstep_go]. specialize (Hs v eq_refl).
  destruct (survs (vars s) !! v) as [y|] eqn:Hy; [|by apply (okstep_account []); accounting].
  apply okstep_go; [done|done|]. intros _. split_and!; [|done|done].
  by apply (vt_surv _ (ty_vars _ Hty)).
Qed.

Lemma surveyor_okstep_ctx_close c s : wf s → typed s → okstep s (ctx_close c s).
Proof.
  intros Hwf Hty. unfold ctx_close.
  destruct (cobjs (vars s) !! c) as [x|] eqn:Hx; [|by apply (okstep_account []); accounting].
  destruct (c_closed x); [reflexivity|].
  set (s1 := upd_ctx c _ s). assert (okstep s s1) as Hok1.
  { apply surveyor_okstep_ctx. intros y. split; [done|]. by intros v [=]. }
  assert (okstep s1 (close_chan (c_closeQ x) s1)) as Hok2 by apply okstep_close_chan.
  etrans; [exact Hok1|]. etrans; [exact Hok2|].
  destruct (c_surv x) as [v|] eqn:Hv; [|reflexivity].
  apply okstep_go; [by apply Hok2, Hok1|done|]. intros _. rewrite vars_close_chan. simpl.
  destruct (vt_ctx _ (ty_vars _ Hty) _ _ Hx) as [_ Hs]. destruct (Hs _ Hv) as (y & -> & _). done.
Qed.
Lemma surveyor_okstep_closes order s :
  wf s → typed s → okstep s (foldl (λ s c, ctx_close c s) s order).
Proof.
  revert s. induction order as [|c order IH]; intros s Hwf Hty; [reflexivity|]. simpl.
  assert (okstep s (ctx_close c s)) as Hok by by apply surveyor_okstep_ctx_close.
  etrans; [exact Hok|]. apply IH; by apply Hok.
Qed.

Lemma surveyor_okstep_receiver_turn m0 rv s s' :
  typed s → receiver_turn m0 rv s = Some s' → okstep s s'.
Proof.
  intros Hty. unfold receiver_turn. set (f := λ σ : socket, σ <| arrived ::= (λ l, l ++ [m0]) |>).
  set (s1 := set_vars f s).
  assert (okstep s s1) as Hok.
  { apply surveyor_okstep_vle; [split; simpl; set_solver|]. intros [H1 H2 H3 H4 H5]. by split. }
  intros Hs. etrans; [exact Hok|]. revert Hs. assert (m0 ∈ arrived (vars s1)) as Hm0 by (simpl; set_solver).
  assert (typed s1) as Hty1 by by apply Hok. clearbody s1. clear Hok Hty s f.
  assert (∀ m, okstep s1 (free [m] (give [m] s1))) as Hfree.
  { intros m. apply (okstep_account [m]). accounting. }
  destruct (response m0) as [m|] eqn:Hr; [|intros [= <-]; apply Hfree].
  destruct (surveys (vars s1) !! _) as [v|] eqn:Hv; [|intros [= <-]; apply Hfree].
  destruct (survs (vars s1) !! v) as [y|] eqn:Hy.
  2:{ intros [= <-]. apply (okstep_account []). accounting. }
  destruct (ready s1 _); [|intros [= <-]; apply Hfree].
  intros Hs. apply bind_Some in Hs as (s2 & Hs2 & [= <-]). eapply okstep_send; [done|]. intros _.
  simpl. unfold ctype. rewrite (vt_surv _ (ty_vars _ Hty1) _ _ Hy). exists y, m0. split_and!; try done.
  destruct (vt_surveys _ (ty_vars _ Hty1) _ _ Hv) as (y' & Hy' & Hid). congruence.
Qed.

Lemma surveyor_okstep_SetOption c name v s : okstep s (snd (context_SetOption c name v s)).
Proof.
  unfold context_SetOption.
  assert (∀ g, (∀ x, c_closeQ (g x) = c_closeQ x ∧ c_surv (g x) = c_surv x) →
    okstep s (upd_ctx c g s)) as Hg.
  { intros g Hg. apply surveyor_okstep_ctx. intros x. destruct (Hg x) as [-> ->]. eauto. }
  do 2 (destruct (String.eqb name _); [destruct v; try reflexivity; by apply Hg|]).
  destruct (String.eqb name _); [|reflexivity].
  destruct v; try reflexivity. destruct (0 <=? z)%Z; [by apply Hg|reflexivity].
Qed.

Lemma surveyor_okstep_OpenContext c s :
  wf s → okstep s (snd (OpenContext c s)).
Proof.
  intros Hwf. unfold OpenContext. destruct (closed (vars s)); [reflexivity|].
  destruct (cobjs (vars s) !! master (vars s)) as [d|]; [|by apply (okstep_account []); accounting].
  destruct (make_chan (KCtx c) 0 s) as [cq s1] eqn:E1.
  destruct (okstep_make_chan _ _ _ _ _ Hwf E1) as (Hok1 & Hwf1 & Hcq & Hv1 & _).
  etrans; [exact Hok1|]. apply surveyor_okstep_vle; [by split; eauto 10|]. intros [H1 H2 H3 H4 H5].
  split; try done. simpl. intros k x. rewrite lookup_insert. case_decide; [|by apply H2].
  intros [= <-]. subst. split; [done|]. by intros v [=].
Qed.

Lemma surveyor_okstep_AddPipe p id s :
  wf s → pobjs (vars s) !! p = None → okstep s (snd (AddPipe p id s)).
Proof.
  intros Hwf Hp. unfold AddPipe. destruct (make_chan (KSend p) _ s) as [sq s1] eqn:E1.
  destruct (okstep_make_chan _ _ _ _ _ Hwf E1) as (Hok1 & Hwf1 & Hsq & Hv1 & _).
  destruct (make_chan (KPipe p) _ s1) as [cq s2] eqn:E2.
  destruct (okstep_make_chan _ _ _ _ _ Hwf1 E2) as (Hok2 & Hwf2 & Hcq & Hv2 & _).
  etrans; [exact Hok1|]. etrans; [exact Hok2|].
  set (s3 := set_vars _ s2). assert (okstep s2 s3) as Hok3.
  { apply surveyor_okstep_vle; [by split; eauto 10|]. intros [H1 H2 H3 H4 H5]. split; try done. simpl.
    intros k po. rewrite lookup_insert. case_decide; [|by apply H3]. intros [= <-]. by subst. }
  etrans; [exact Hok3|]. assert (wf s3) as Hwf3 by by apply Hok3. clearbody s3.
  destruct (closed (vars s3)); [reflexivity|]. cbn [snd].
  set (s4 := set_vars _ s3). assert (okstep s3 s4) as Hok4 by by apply surveyor_okstep_plain.
  etrans; [exact Hok4|]. assert (wf s4) as Hwf4 by by apply Hok4. clearbody s4.
  etrans; [by apply (okstep_go (Receiver p))|]. apply okstep_go; [by apply wf_go|done|].
  intros _. by subst.
Qed.

Lemma surveyor_okstep_sender_sent t p po m e s :
  typed s → threads s !! t = Some (Sending p m) → pobjs (vars s) !! p = Some po →
  okstep s (sender_sent t p po m e s).
Proof.
  intros Hty Ht Hpo. unfold sender_sent. destruct e as [e|].
  - eapply (okstep_goto t _ _ []); [done|accounting|done].
  - eapply (okstep_goto t _ _ []); [done|accounting|]. intros _.
    destruct (vt_pipe _ (ty_vars _ Hty) _ _ Hpo). done.
Qed.

#[export] Instance surveyor_ok : ExtOk ext.
Proof.
  intros e s s' Hwf Hty. destruct e; cbn [ext].
  - intros [_ [= <-]]%guard_bind_Some. by apply surveyor_okstep_SendMsg.
  - destruct (threads s !! t) as [[]|] eqn:Ht; try done. intros Hs.
    apply bind_Some in Hs as (x & Hx & [(Hv & _ & _) [= <-]]%guard_bind_Some).
    apply surveyor_okstep_SendMsg_locked; try done. apply send_queues, (ty_vars _ Hty).
  - destruct (threads s !! t) as [[]|] eqn:Ht; try done. intros [= <-].
    by apply surveyor_okstep_SendMsg_next.
  - intros Hs. apply bind_Some in Hs as (x & Hx & [= <-]). by apply surveyor_okstep_RecvMsg.
  - destruct (threads s !! t) as [[]|] eqn:Ht; try done. intros [= <-].
    unfold RecvMsg_err. destruct (survs (vars s) !! v) as [y|]; [destruct (sv_err y)|];
      (eapply okstep_set_thread; [done|count|done]).
  - destruct (threads s !! t) as [[]|] eqn:Ht; try done. intros [_ Hs]%guard_bind_Some.
    by eapply surveyor_okstep_receiver_turn.
  - destruct (threads s !! t) as [[]|] eqn:Ht; try done. intros [= <-]. by eapply okstep_stop.
  - destruct (threads s !! t) as [[]|] eqn:Ht; try done. intros Hs.
    apply bind_Some in Hs as (po & Hpo & [= <-]). by apply surveyor_okstep_sender_sent.
  - destruct (threads s !! t) as [[]|] eqn:Ht; try done. intros [= <-]. unfold pipe_close.
    etrans; [by apply (surveyor_okstep_plain (λ σ, σ <| pclosed ::= (λ x, {[p]} ∪ x) |>))|].
    by eapply okstep_stop.
  - intros [Hv [= <-]]%guard_bind_Some. by apply okstep_go.
  - destruct (threads s !! t) as [[]|] eqn:Ht; try done. intros Hs.
    apply bind_Some in Hs as (x & Hx & [= <-]). by apply surveyor_okstep_cancel.
  - destruct (threads s !! t) as [[]|] eqn:Ht; try done. intros Hs.
    apply bind_Some in Hs as (x & Hx & [= <-]). etrans; [apply (okstep_close_chan (sv_recvQ x))|].
    eapply okstep_set_thread; [by rewrite threads_close_chan|count|]. intros _. exists v.
    by apply (vt_surv _ (ty_vars _ Hty)).
  - intros [= <-]. apply surveyor_okstep_SetOption.
  - intros [= <-]. unfold SetOption. destruct (String.eqb name _); [|apply surveyor_okstep_SetOption].
    destruct v; try reflexivity. destruct (0 <=? z)%Z; [by apply surveyor_okstep_plain|reflexivity].
  - intros Hs. apply bind_Some in Hs as (x & Hx & [= <-]). unfold context_Close.
    destruct (c_closed x); [reflexivity|by apply surveyor_okstep_ctx_close].
  - intros [_ [= <-]]%guard_bind_Some. unfold Close. destruct (closed (vars s)); [reflexivity|].
    set (s1 := set_vars _ s). assert (okstep s s1) as Hok by by apply surveyor_okstep_plain.
    etrans; [exact Hok|]. apply surveyor_okstep_closes; by apply Hok.
  - intros [_ [= <-]]%guard_bind_Some. by apply surveyor_okstep_OpenContext.
  - intros [Hp [= <-]]%guard_bind_Some. by apply surveyor_okstep_AddPipe.
  - intros Hs. apply bind_Some in Hs as (po & Hpo & [_ [= <-]]%guard_bind_Some). unfold RemovePipe.
    set (s1 := set_vars _ s). assert (okstep s s1) as Hok by by apply surveyor_okstep_plain.
    etrans; [exact Hok|]. etrans; [apply (okstep_close_chan (p_closeQ po))|].
    apply okstep_go; [apply wf_close_chan; by apply Hok|done|done].
  - destruct (threads s !! t) as [[]|] eqn:Ht; try done. intros Hs.
    apply bind_Some in Hs as (po & Hpo & [= <-]). unfold RemovePipe_locked.
    etrans; [by apply (surveyor_okstep_plain (λ σ, σ <| pipes ::= delete (p_id po) |>))|].
    by eapply okstep_stop.
Qed.

Lemma surveyor_init_good s : init s → good s.
Proof.
  intros [now ->]. start_good.
  split; simpl; try done; [|set_solver]. intros c x [<- <-]%lookup_singleton_Some. split; [done|].
  by intros v [=].
Qed.

Lemma reachable_surveyor s : reachable step init ok s → good s.
Proof. eapply reachable_good; [apply _|]. apply surveyor_init_good. Qed.

(** C23. Surveys and responses are matched: what [RecvMsg] returns on a
    context is a message that arrived on a pipe with the ID of a survey of
    that context as its first word, which is now its header; what a pipe sends
    is a survey, with its ID (top bit set) as header and nothing else there;
    the survey a context is waiting on is one of its own; queues are FIFO and
    bounded, and no message is freed or sent more often than it was
    referenced. *)
Theorem surveyor_matches s (H : reachable step init ok s) :
  (∀ t c m, threads s !! t = Some (RecvRet c (Ok m)) →
     ∃ v y m0, survs (vars s) !! v = Some y ∧ sv_ctx y = c ∧ m0 ∈ arrived (vars s) ∧
       response m0 = Some m ∧ uint32_of (take 4 (mhdr m)) = sv_id y) ∧
  (∀ t p m, threads s !! t = Some (Sending p m) →
     m ∈ submitted (vars s) ∧ ∃ n, mhdr m = put_uint32 (Z.lor (u32 n) 0x80000000)) ∧
  (∀ c x v, cobjs (vars s) !! c = Some x → c_surv x = Some v →
     ∃ y, survs (vars s) !! v = Some y ∧ sv_ctx y = c) ∧
  (∀ q ch, chans s !! q = Some ch → ins ch = outs ch ++ buf ch ∧ length (buf ch) ≤ cap ch) ∧
  (∀ x, kocc x (freed s) + kocc x (passed s) ≤ kocc x (given s)).
Proof.
  destruct (reachable_surveyor s H) as [Hwf Ho [_ Ht Hv]]. split_and!.
  - intros t c m Hth. destruct (Ht _ _ Hth) as (v & (y & Hy & Hc) & (y' & m0 & Hy' & ? & ? & ?)).
    simplify_eq. exists v, y, m0. done.
  - intros t p m Hth. specialize (Ht _ _ Hth). split; [done|by apply (vt_header _ Hv)].
  - intros c x v Hx Hs. exact (proj2 (vt_ctx _ Hv _ _ Hx) v Hs).
  - apply Hwf.
  - intros x. specialize (Ho x). unfold owned in Ho. lia.
Qed.

(** One survey with the ID 0x80000001, one response. *)
Definition question : msg := mkMsg [] [Byte.x3f] None 0.
Definition answer : msg := mkMsg [] (put_uint32 0x80000001 ++ [Byte.x21]) (Some 9%Z) 1.
Definition surveyor_run : state :=
  play step (λ _ _, true)
    [LExt (EAddPipe 0 9); LExt (ESend 0 question); LExt (ESendLock 5 0 [0]); LExt (ENext 5);
     LCase 5 0 None; LExt (ENext 5); LCase 4 1 None; LExt (EPipeSent 4 None);
     LExt (EPipeRecv 3 answer None); LExt (ERecv 0); LCase 7 0 None] (NewProtocol 0).

Lemma surveyor_matches_witness :
  passed surveyor_run = [question <| mhdr := put_uint32 0x80000001 |>] ∧
  threads surveyor_run !! 7 =
    Some (RecvRet 0 (Ok (mkMsg (put_uint32 0x80000001) [Byte.x21] (Some 9%Z) 1))) ∧
  ∃ v y, survs (vars surveyor_run) !! v = Some y ∧ sv_id y = 0x80000001%Z.
Proof.
  assert (reachable step init ok surveyor_run) as Hr
    by (apply play_reachable; [by intros ? []|by exists 0%Z]).
  split_and!; [by vm_compute|by vm_compute|].
  destruct (surveyor_matches surveyor_run Hr) as (Hret & _).
  destruct (Hret 7 0 _ ltac:(by vm_compute)) as (v & y & m0 & Hy & _ & _ & _ & Hid).
  exists v, y. split; [done|]. by rewrite <-Hid.
Defined.
