(* ===== verification/SurveyorInv.v ===== *)
(** * SurveyorInv: the SURVEYOR protocol never panics

    [src/protocol/surveyor/surveyor.go] closes the queue of a survey while
    receivers may be about to put responses on it; a comment in [cancel] says
    why that is safe.  Here is the invariant behind it: no channel is closed
    twice, nothing is sent on a closed channel, and a call that finds the
    queue closed finds the error that explains it. *)
From stdpp Require Import gmap list strings fin_maps.
From Stdlib Require Import ZArith Lia.
From S2P Require Import Prelude Types Chan Backtrace Surveyor.

(** The owner of a channel of kind [k] has ended, so that it may be closed. *)
Definition cancelled (σ : socket) (v : sid) : Prop :=
  ∃ y, survs σ !! v = Some y ∧ sv_once y = true ∧ sv_err y ≠ None.
Definition ended (σ : socket) (k : kind) : Prop :=
  match k with
  | KCtx c => ∃ x, cobjs σ !! c = Some x ∧ c_closed x = true
  | KPipe p => p ∈ removed σ
  | KSend _ => False
  | KSurv v => cancelled σ v
  end.

(** The channels that objects will close. *)
Definition mentions (σ : socket) (q : chid) : Prop :=
  (∃ v y, survs σ !! v = Some y ∧ sv_recvQ y = q) ∨
  (∃ c x, cobjs σ !! c = Some x ∧ c_closeQ x = q) ∨
  (∃ p po, pobjs σ !! p = Some po ∧ p_closeQ po = q).

Definition shut (s : state) (q : chid) : Prop := ∃ ch, chans s !! q = Some ch ∧ cclosed ch = true.

Record calm (s : state) : Prop := {
  calm_crash : crashed s = false;
  calm_shut q : shut s q → ended (vars s) q.1;
  calm_there q : mentions (vars s) q → is_Some (chans s !! q);
  calm_closing t v : threads s !! t = Some (CloseSurv v) →
    cancelled (vars s) v ∧ ∀ y, survs (vars s) !! v = Some y → ¬ shut s (sv_recvQ y);
  calm_one t t' v :
    threads s !! t = Some (CloseSurv v) → threads s !! t' = Some (CloseSurv v) → t = t';
  calm_live id v : surveys (vars s) !! id = Some v →
    ∃ y, survs (vars s) !! v = Some y ∧ sv_once y = false ∧ sv_id y = id;
  calm_err t c v : threads s !! t = Some (RecvErr c v) → cancelled (vars s) v;
  calm_nil t c : threads s !! t ≠ Some (RecvNil c);
  calm_ctxs c : c ∈ contexts (vars s) → is_Some (cobjs (vars s) !! c);
  calm_master : is_Some (cobjs (vars s) !! master (vars s))
}.

(** Program points that need nothing of the rest. *)
Definition plain (th : thread) : bool :=
  match th with CloseSurv _ | RecvErr _ _ | RecvNil _ => false | _ => true end.

(** A step that leaves the variables alone and closes nothing. *)
Record quiet (s s' : state) : Prop := {
  q_crash : crashed s' = crashed s;
  q_vars : vars s' = vars s;
  q_there q : is_Some (chans s !! q) → is_Some (chans s' !! q);
  q_shut q : shut s' q → shut s q
}.

Lemma calm_quiet s s' :
  quiet s s' →
  (∀ t th, threads s' !! t = Some th → threads s !! t = Some th ∨
     plain th = true ∨ ∃ c v, th = RecvErr c v ∧ cancelled (vars s) v) →
  calm s → calm s'.
Proof.
  intros [Hcr Hv Hth Hsh] Ht [C1 C2 C3 C4 C5 C6 C7 C8 C9 C10].
  assert (∀ t v, threads s' !! t = Some (CloseSurv v) → threads s !! t = Some (CloseSurv v)) as Hcs.
  { intros t v Hs. by destruct (Ht _ _ Hs) as [?|[?|(? & ? & ? & ?)]]. }
  split; rewrite ?Hv; try done.
  - congruence.
  - eauto.
  - eauto.
  - intros t v Hs%Hcs. destruct (C4 _ _ Hs) as [? Hn]. split; [done|]. intros y Hy Hq%Hsh. by eapply Hn.
  - eauto.
  - intros t c v Hs. destruct (Ht _ _ Hs) as [?|[?|(? & ? & ? & ?)]]; [by eauto|done|by simplify_eq].
  - intros t c Hs. destruct (Ht _ _ Hs) as [?|[?|(? & ? & ? & ?)]]; [by eapply C8|done|done].
Qed.

Lemma surveyorinv_quiet_same s s' : crashed s' = crashed s → vars s' = vars s → chans s' = chans s → quiet s s'.
Proof. intros H1 H2 H3. split; [done|done|by rewrite H3|]. unfold shut. by rewrite H3. Qed.
Lemma quiet_trans s1 s2 s3 : quiet s1 s2 → quiet s2 s3 → quiet s1 s3.
Proof. intros [] []. split; [congruence|congruence|auto|auto]. Qed.
Lemma quiet_set_chan c ch ch' s :
  chans s !! c = Some ch → cclosed ch' = cclosed ch → quiet s (s <| chans ::= <[c := ch']> |>).
Proof.
  intros Hc Hcl. split; [done|done|..].
  - intros q Hq. simpl. rewrite lookup_insert_is_Some'. by right.
  - intros q (x & Hx & Hclx). simpl in Hx. rewrite lookup_insert in Hx. case_decide; [|by exists x].
    simplify_eq. exists ch. split; [done|congruence].
Qed.

Lemma surveyorinv_calm_go th s : plain th = true → calm s → calm (go th s).
Proof.
  intros Hp. apply calm_quiet; [by apply surveyorinv_quiet_same|]. intros t th'. simpl. rewrite lookup_insert.
  case_decide; [|by left]. intros [= <-]. auto.
Qed.
Lemma surveyorinv_calm_goto t th s s' :
  crashed s' = crashed s → vars s' = vars s → chans s' = chans s →
  threads s' = <[t := th]> (threads s) →
  plain th = true → calm s → calm s'.
Proof.
  intros H1 H2 H3 H4 Hp. apply calm_quiet; [by apply surveyorinv_quiet_same|]. intros k th'. rewrite H4, lookup_insert.
  case_decide; [|by left]. intros [= <-]. auto.
Qed.
Lemma surveyorinv_calm_same s s' :
  crashed s' = crashed s → vars s' = vars s → chans s' = chans s → threads s' = threads s →
  calm s → calm s'.
Proof.
  intros H1 H2 H3 H4. apply calm_quiet; [by apply surveyorinv_quiet_same|]. rewrite H4. by left.
Qed.

(** ** Select cases *)
Lemma calm_resume t th i v s :
  (plain (fst (resume th i v)) = true ∨
   ∃ c w, fst (resume th i v) = RecvErr c w ∧ cancelled (vars s) w) →
  calm s → calm (resume_thread t th i v s).
Proof.
  intros Hp. apply calm_quiet.
  - apply surveyorinv_quiet_same; [|apply vars_resume|apply chans_resume].
    unfold resume_thread. by destruct (resume th i v).
  - intros k th'. destruct (decide (k = t)) as [->|Hne].
    + rewrite threads_resume_eq. intros [= <-]. auto.
    + rewrite threads_resume by done. by left.
Qed.

Lemma plain_case th i o x :
  select th !! i = Some o → match o with ORecv _ => x ≠ None | _ => True end →
  plain (fst (resume th (Some i) x)) = true.
Proof.
  intros Hsel Hx. destruct th; try (destruct tq); cbn in Hsel; select_cases Hsel; destruct x; done.
Qed.

(** A receive from a closed channel: if it was the queue of a survey, the
    survey was cancelled. *)
Lemma closed_case s t th i q ch :
  typed s → calm s → threads s !! t = Some th → select th !! i = Some (ORecv q) →
  chans s !! q = Some ch → cclosed ch = true →
  plain (fst (resume th (Some i) None)) = true ∨
  ∃ c w, fst (resume th (Some i) None) = RecvErr c w ∧ cancelled (vars s) w.
Proof.
  intros Hty Hc Ht Hsel Hq Hcl. pose proof (ty_thread _ Hty _ _ Ht) as Hth.
  pose proof (calm_shut _ Hc q ltac:(by exists ch)) as He.
  destruct th; try (destruct tq); cbn in Hsel; select_cases Hsel; try (by left);
    simplify_eq; destruct Hth as (Hk & _ & _); rewrite Hk in He; right; simpl; eauto.
Qed.

Lemma sends_open s t th i q m ch :
  typed s → calm s → threads s !! t = Some th → select th !! i = Some (OSend q m) →
  chans s !! q = Some ch → cclosed ch = false.
Proof.
  intros Hty Hc Ht Hsel Hq. destruct (cclosed ch) eqn:Hcl; [|done].
  pose proof (ty_thread _ Hty _ _ Ht) as Hth.
  pose proof (calm_shut _ Hc q ltac:(by exists ch)) as He.
  destruct th; try (destruct tq); cbn in Hsel; select_cases Hsel; simplify_eq.
  destruct Hth as (_ & [p Hp] & _). by rewrite Hp in He.
Qed.

Lemma calm_set_chan c ch ch' s :
  chans s !! c = Some ch → cclosed ch' = cclosed ch → calm s → calm (s <| chans ::= <[c := ch']> |>).
Proof. intros Hc Hcl. apply calm_quiet; [by eapply quiet_set_chan|by left]. Qed.

Lemma calm_case t th i r s s' :
  typed s → threads s !! t = Some th → do_case t th i r s = Some s' → calm s → calm s'.
Proof.
  intros Hty Ht Hdo Hc. apply do_case_done in Hdo.
  destruct Hdo as [c ch a b Hsel Hch Hb|c ch Hsel Hch Hb Hcl|Hsel|c ch a Hsel Hch Hcl|c ch a Hsel Hch Hl
    |c ch a t' th' j Hsel Hch Hcap Hne Ht' Hsel'].
  - apply calm_resume; [left; by eapply plain_case|]. by eapply calm_set_chan.
  - apply calm_resume; [|done]. by eapply closed_case.
  - apply calm_resume; [left; by eapply plain_case|done].
  - rewrite (sends_open _ _ _ _ _ _ _ Hty Hc Ht Hsel Hch) in Hcl. done.
  - apply calm_resume; [left; by eapply plain_case|]. by eapply calm_set_chan.
  - apply calm_resume; [left; by eapply plain_case|].
    apply calm_resume; [left; by eapply plain_case|]. by eapply calm_set_chan.
Qed.
Lemma calm_default t th s : has_default th = true → calm s → calm (resume_thread t th None None s).
Proof. intros Hd. apply calm_resume. left. by destruct th. Qed.

(** [receiver] puts a response on the queue of a live survey only. *)
Lemma calm_chan_send q m rv s s' :
  typed s → calm s → ¬ shut s q → chan_send q m false rv s = Some s' → calm s'.
Proof.
  intros Hty Hc Hn. unfold chan_send. destruct (chans s !! q) as [ch|] eqn:Hq; simpl; [|done].
  destruct (cclosed ch) eqn:Hcl; [destruct Hn; by exists ch|].
  case_decide. { intros [= <-]. by eapply calm_set_chan. }
  case_decide; [|done]. destruct rv as [[t j]|]; simpl; [|done].
  destruct (threads s !! t) as [th|] eqn:Ht; simpl; [|done].
  destruct (sel th !! j) as [[c'|c' x|]|] eqn:Hsel; try done.
  intros [[-> _] Hs]%guard_bind_Some. apply (inj Some) in Hs. subst s'.
  apply calm_resume; [left; by eapply plain_case|]. by eapply calm_set_chan.
Qed.

(** ** Critical sections *)
Lemma calm_vars f s :
  (∀ k, ended (vars s) k → ended (f (vars s)) k) →
  (∀ q, mentions (f (vars s)) q → mentions (vars s) q ∨ is_Some (chans s !! q)) →
  (∀ v y, survs (vars s) !! v = Some y →
     ∃ y', survs (f (vars s)) !! v = Some y' ∧ sv_recvQ y' = sv_recvQ y) →
  (∀ id v, surveys (f (vars s)) !! id = Some v →
     ∃ y, survs (f (vars s)) !! v = Some y ∧ sv_once y = false ∧ sv_id y = id) →
  (∀ c, c ∈ contexts (f (vars s)) → is_Some (cobjs (f (vars s)) !! c)) →
  is_Some (cobjs (f (vars s)) !! master (f (vars s))) →
  calm s → calm (set_vars f s).
Proof.
  intros He Hm Hs Hl Hx Hms [C1 C2 C3 C4 C5 C6 C7 C8 C9 C10].
  assert (∀ v, cancelled (vars s) v → cancelled (f (vars s)) v) as Hcan by (intros v; apply (He (KSurv v))).
  split; simpl; try done.
  - intros q Hq. by apply He, C2.
  - intros q Hq. destruct (Hm _ Hq); [by apply C3|done].
  - intros t v Ht. destruct (C4 _ _ Ht) as [Hc Hn]. split; [by apply Hcan|]. intros y' Hy'.
    destruct Hc as (y & Hy & _). destruct (Hs _ _ Hy) as (y2 & Hy2 & E). simplify_eq. rewrite E. eauto.
  - intros t c v Ht. by eapply Hcan, C7.
Qed.

(** Changes that keep the objects. *)
Lemma calm_plain f s :
  survs (f (vars s)) = survs (vars s) → cobjs (f (vars s)) = cobjs (vars s) →
  pobjs (f (vars s)) = pobjs (vars s) → contexts (f (vars s)) = contexts (vars s) →
  master (f (vars s)) = master (vars s) → surveys (f (vars s)) = surveys (vars s) →
  (∀ p, p ∈ removed (vars s) → p ∈ removed (f (vars s))) →
  calm s → calm (set_vars f s).
Proof.
  intros E1 E2 E3 E4 E5 E6 Hr Hc. apply calm_vars; rewrite ?E1, ?E2, ?E4, ?E5, ?E6.
  - intros []; unfold ended, cancelled; rewrite ?E1, ?E2; auto.
  - unfold mentions. rewrite E1, E2, E3. auto.
  - eauto.
  - apply (calm_live _ Hc).
  - apply (calm_ctxs _ Hc).
  - apply (calm_master _ Hc).
  - done.
Qed.

Lemma calm_ctx c g s :
  (∀ x, c_closeQ (g x) = c_closeQ x ∧ (c_closed x = true → c_closed (g x) = true)) →
  calm s → calm (upd_ctx c g s).
Proof.
  intros Hg Hc.
  assert (∀ k, is_Some (cobjs (vars s) !! k) → is_Some (alter g c (cobjs (vars s)) !! k)) as Ha.
  { intros k. rewrite lookup_alter. case_decide; [subst|done]. by rewrite fmap_is_Some. }
  apply calm_vars; simpl; try done.
  - intros [k|p|p|v]; simpl; try done. intros (x & Hx & Hcl). rewrite lookup_alter. case_decide.
    + subst. rewrite Hx. exists (g x). split; [done|by apply Hg].
    + by exists x.
  - intros q [?|[(k & x & Hx & Hq)|?]]; left; [by left| |by right; right].
    right; left. simpl in Hx. rewrite lookup_alter in Hx. case_decide; [|by eauto].
    apply fmap_Some in Hx as (y & Hy & ->). exists k, y. subst. split; [done|]. symmetry. apply Hg.
  - eauto.
  - apply (calm_live _ Hc).
  - intros k Hk%(calm_ctxs _ Hc). auto.
  - apply Ha, (calm_master _ Hc).
Qed.

Lemma calm_make_chan k n s q s' : wf s → make_chan k n s = (q, s') → calm s → calm s'.
Proof.
  intros Hwf Hm. pose proof (make_chan_new k s Hwf) as Hnew. injection Hm as <- <-.
  apply calm_quiet; [|by left]. split; [done|done|..]; simpl.
  - intros q Hq. rewrite lookup_insert_is_Some'. by right.
  - intros q (ch & Hch & Hcl). simpl in Hch. rewrite lookup_insert in Hch. case_decide; [|by exists ch].
    by simplify_eq.
Qed.

Lemma calm_close q s :
  is_Some (chans s !! q) → ¬ shut s q → ended (vars s) q.1 →
  (∀ t v y, threads s !! t = Some (CloseSurv v) → survs (vars s) !! v = Some y → sv_recvQ y ≠ q) →
  calm s → calm (close_chan q s).
Proof.
  intros [ch Hch] Hn He Hcs [C1 C2 C3 C4 C5 C6 C7 C8 C9 C10]. unfold close_chan. rewrite Hch.
  destruct (cclosed ch) eqn:Hcl; [destruct Hn; by exists ch|].
  assert (∀ k, shut (s <| chans ::= <[q := ch <| cclosed := true |>]> |>) k → k = q ∨ shut s k) as Hsh.
  { intros k (x & Hx & Hclx). simpl in Hx. rewrite lookup_insert in Hx.
    case_decide; [by left|right; by exists x]. }
  split; simpl; try done.
  - intros k [-> | Hk]%Hsh; [done|by apply C2].
  - intros k Hk. rewrite lookup_insert_is_Some'. right. by apply C3.
  - intros t v Ht. destruct (C4 _ _ Ht) as [Hc Hnot]. split; [done|].
    intros y Hy [E|Hk]%Hsh; [by eapply Hcs|by eapply Hnot].
Qed.

Lemma calm_closing_thread t v s :
  cancelled (vars s) v → (∀ y, survs (vars s) !! v = Some y → ¬ shut s (sv_recvQ y)) →
  (∀ t', threads s !! t' ≠ Some (CloseSurv v)) → calm s → calm (set_thread t (CloseSurv v) s).
Proof.
  intros Hcan Hn Hno [C1 C2 C3 C4 C5 C6 C7 C8 C9 C10].
  assert (∀ k th, <[t := CloseSurv v]> (threads s) !! k = Some th →
    k = t ∧ th = CloseSurv v ∨ threads s !! k = Some th) as Hk.
  { intros k th. rewrite lookup_insert. case_decide; [|by right]. intros [= <-]. by left. }
  split; simpl; try done.
  - intros k w [[-> [= ->]]|Hw]%Hk; [done|by apply C4 in Hw].
  - intros k k' w H1%Hk H2%Hk. destruct H1 as [[-> E1]|H1], H2 as [[-> E2]|H2]; simplify_eq; try done.
    + by destruct (Hno k').
    + by destruct (Hno k).
    + by eapply C5.
  - intros k c w [[_ ?]|Hw]%Hk; [done|by eapply C7].
  - intros k c [[_ ?]|Hw]%Hk; [done|by eapply C8].
Qed.

Lemma calm_cancel t v e x s :
  typed s → threads s !! t = Some (Cancel v e) → survs (vars s) !! v = Some x →
  calm s → calm (cancel t v x e s).
Proof.
  intros Hty Ht Hx Hc. unfold cancel. destruct (sv_once x) eqn:Ho.
  { revert Hc. by apply (surveyorinv_calm_goto t Done). }
  assert (¬ cancelled (vars s) v) as Hnc by (intros (y & ? & ? & _); simplify_eq; congruence).
  set (f := λ σ : socket, σ <| surveys ::= delete (sv_id x) |>).
  set (g := λ y, y <| sv_err := Some e |> <| sv_once := true |>).
  change (calm (set_thread t (CloseSurv v) (upd_ctx (sv_ctx x)
    (λ c, if decide (c_surv c = Some v) then c <| c_surv := None |> else c)
    (upd_surv v g (set_vars f s))))).
  assert (calm (set_vars f s)) as Hc1.
  { apply calm_vars; try done; simpl; eauto.
    - intros id w. rewrite lookup_delete. case_decide; [done|]. apply (calm_live _ Hc).
    - apply (calm_ctxs _ Hc).
    - apply (calm_master _ Hc). }
  assert (calm (upd_surv v g (set_vars f s))) as Hc2.
  { revert Hc1. apply calm_vars; simpl.
    - intros [c|p|p|w]; simpl; try done. intros (y & Hy & Hon & He). unfold cancelled. simpl in *.
      rewrite lookup_alter. case_decide; [subst; rewrite Hy|by eauto]. exists (g y). done.
    - intros q [(w & y & Hy & Hq)|?]; left; [left|by right]. simpl in *. rewrite lookup_alter in Hy.
      case_decide; [|by eauto]. apply fmap_Some in Hy as (z & Hz & ->). by exists v, z.
    - intros w y Hy. rewrite lookup_alter. case_decide; [subst; rewrite Hy|]; by eauto.
    - intros id w. rewrite lookup_delete. case_decide; [done|]. intros Hw.
      destruct (calm_live _ Hc _ _ Hw) as (y & Hy & ? & ?). exists y. split_and!; try done.
      rewrite lookup_alter_ne; [done|]. intros ->. by simplify_eq.
    - apply (calm_ctxs _ Hc).
    - apply (calm_master _ Hc). }
  apply calm_closing_thread.
  - exists (g x). simpl. by rewrite lookup_alter_eq, Hx.
  - simpl. intros y. rewrite lookup_alter_eq, Hx. intros [= <-] Hs. apply Hnc.
    assert (shut s (sv_recvQ x)) as He%(calm_shut _ Hc) by done.
    by rewrite (vt_surv _ (ty_vars _ Hty) _ _ Hx) in He.
  - intros t' Ht'. by destruct (calm_closing _ Hc _ _ Ht').
  - revert Hc2. apply calm_ctx. intros y. by case_decide.
Qed.

Lemma calm_start v c id q s : wf s → survs (vars s) !! v = None → calm s → calm (start v c id q s).
Proof.
  intros Hwf Hv Hc. unfold start. destruct (make_chan (KSurv v) _ s) as [rq s1] eqn:E1.
  destruct (okstep_make_chan _ _ _ _ _ Hwf E1) as (_ & _ & _ & Hv1 & _).
  assert (is_Some (chans s1 !! rq)) as Hrq by (injection E1 as <- <-; simpl; by rewrite lookup_insert_eq).
  pose proof (calm_make_chan _ _ _ _ _ Hwf E1 Hc) as Hc1. rewrite <-Hv1 in Hv. clear Hc Hwf E1.
  apply calm_ctx; [done|]. revert Hc1. 
  assert (∀ w y, survs (vars s1) !! w = Some y →
    <[v := mkSurvey rq id c None false]> (survs (vars s1)) !! w = Some y) as Hne.
  { intros w y Hy. rewrite lookup_insert_ne; [done|congruence]. }
  intros Hc1. apply calm_vars; simpl; [..|done].
  - intros [k|p|p|w]; simpl; try done. intros (y & Hy & ?). exists y. split; [by apply Hne|done].
  - intros k [(w & y & Hy & Hq)|?]; [|left; by right]. simpl in Hy. rewrite lookup_insert in Hy.
    case_decide; [simplify_eq; by right|left; left; by eauto].
  - eauto.
  - intros k w. rewrite lookup_insert. case_decide.
    + intros [= <-]. rewrite lookup_insert_eq. eauto.
    + intros Hw. destruct (calm_live _ Hc1 _ _ Hw) as (y & Hy & ?). exists y. split; [by apply Hne|done].
  - apply (calm_ctxs _ Hc1).
  - apply (calm_master _ Hc1).
Qed.

Lemma not_shut_kind s q : calm s → ¬ ended (vars s) q.1 → ¬ shut s q.
Proof. intros Hc Hn Hs. by apply Hn, (calm_shut _ Hc). Qed.

Lemma calm_ctx_close c s :
  wf s → typed s → is_Some (cobjs (vars s) !! c) → calm s → calm (ctx_close c s).
Proof.
  intros Hwf Hty [x Hx] Hc. unfold ctx_close. rewrite Hx. destruct (c_closed x) eqn:Hcl; [done|].
  destruct (vt_ctx _ (ty_vars _ Hty) _ _ Hx) as [Hk _].
  assert (¬ shut s (c_closeQ x)) as Hn.
  { apply not_shut_kind; [done|]. rewrite Hk. intros (y & ? & ?). congruence. }
  set (s1 := upd_ctx c _ s). assert (calm s1) as Hc1 by (revert Hc; by apply calm_ctx).
  assert (calm (close_chan (c_closeQ x) s1)) as Hc2.
  { apply calm_close; [|done| | |done].
    - apply (calm_there _ Hc). right; left. eauto.
    - rewrite Hk. simpl. rewrite lookup_alter_eq, Hx. eexists. done.
    - intros t v y _ Hy E. pose proof (vt_surv _ (ty_vars _ Hty) v y Hy). congruence. }
  destruct (c_surv x); [by apply surveyorinv_calm_go|done].
Qed.

Lemma ctx_close_objects c k s : is_Some (cobjs (vars s) !! k) → is_Some (cobjs (vars (ctx_close c s)) !! k).
Proof.
  intros Hk. unfold ctx_close. destruct (cobjs (vars s) !! c) as [x|]; [|done].
  destruct (c_closed x); [done|].
  assert (∀ s' : state, vars s' = vars (upd_ctx c (λ x, x <| c_closed := true |> <| c_surv := None |>) s) →
    is_Some (cobjs (vars s') !! k)) as Hs.
  { intros s' ->. simpl. rewrite lookup_alter. case_decide; [subst; by rewrite fmap_is_Some|done]. }
  destruct (c_surv x); apply Hs; simpl; by rewrite vars_close_chan.
Qed.
Lemma calm_closes order s :
  wf s → typed s → (∀ c, c ∈ order → is_Some (cobjs (vars s) !! c)) → calm s →
  calm (foldl (λ s c, ctx_close c s) s order).
Proof.
  revert s. induction order as [|c order IH]; intros s Hwf Hty Hor Hc; [done|]. simpl.
  pose proof (surveyor_okstep_ctx_close c s Hwf Hty) as Hok.
  apply IH; [by apply Hok|by apply Hok| |].
  - intros k Hk. apply ctx_close_objects, Hor. set_solver.
  - apply calm_ctx_close; try done. apply Hor. set_solver.
Qed.

Lemma calm_receiver_turn m0 rv s s' :
  typed s → receiver_turn m0 rv s = Some s' → calm s → calm s'.
Proof.
  intros Hty Hs Hc. revert Hs. unfold receiver_turn.
  set (f := λ σ : socket, σ <| arrived ::= (λ l, l ++ [m0]) |>).
  assert (typed (set_vars f s)) as Hty1.
  { assert (okstep s (set_vars f s)) as Hok; [|by apply Hok].
    apply surveyor_okstep_vle; [split; simpl; set_solver|]. intros [H1 H2 H3 H4 H5]. by split. }
  assert (calm (set_vars f s)) as Hc1 by by apply calm_plain.
  revert Hty1 Hc1. generalize (set_vars f s) as s1. clear f Hty Hc s. intros s Hty Hc.
  assert (∀ m, calm (free [m] (give [m] s))) as Hfree by (intros m; by apply (surveyorinv_calm_same s)).
  destruct (response m0) as [m|]; [|by intros [= <-]].
  destruct (surveys (vars s) !! _) as [v|] eqn:Hv; [|by intros [= <-]].
  destruct (calm_live _ Hc _ _ Hv) as (y & Hy & Ho & _). rewrite Hy.
  destruct (ready s _); [|by intros [= <-]]. intros Hs. apply bind_Some in Hs as (s2 & Hs2 & [= <-]).
  apply (surveyorinv_calm_same s2); [done..|]. eapply calm_chan_send; [exact Hty|exact Hc| |exact Hs2].
  apply not_shut_kind; [done|]. rewrite (vt_surv _ (ty_vars _ Hty) _ _ Hy). intros (y' & ? & ? & _). congruence.
Qed.

Lemma calm_CloseSurv t v x s :
  typed s → threads s !! t = Some (CloseSurv v) → survs (vars s) !! v = Some x → calm s →
  calm (set_thread t (Drain (sv_recvQ x)) (close_chan (sv_recvQ x) s)).
Proof.
  intros Hty Ht Hx Hc. destruct (calm_closing _ Hc _ _ Ht) as [Hcan Hn].
  set (s1 := set_thread t (Drain (sv_recvQ x)) s).
  assert (calm s1) as Hc1 by (revert Hc; by apply (surveyorinv_calm_goto t (Drain (sv_recvQ x)))).
  assert (calm (close_chan (sv_recvQ x) s1)) as Hc2.
  { pose proof (vt_surv _ (ty_vars _ Hty) _ _ Hx) as Hk. apply calm_close; [| | | |done].
    - apply (calm_there _ Hc). left. eauto.
    - by apply Hn.
    - by rewrite Hk.
    - intros t' w y Ht' Hy E. pose proof (vt_surv _ (ty_vars _ Hty) _ _ Hy) as Hk'.
      assert (w = v) as -> by congruence. simpl in Ht'. rewrite lookup_insert in Ht'.
      case_decide; [done|]. by pose proof (calm_one _ Hc _ _ _ Ht Ht'). }
  revert Hc2. apply surveyorinv_calm_same; unfold close_chan; simpl; destruct (chans s !! _) as [ch|];
    try done; by destruct (cclosed ch).
Qed.

Lemma calm_RemovePipe p po s :
  wf s → typed s → pobjs (vars s) !! p = Some po → p ∉ removed (vars s) → calm s → calm (RemovePipe p po s).
Proof.
  intros Hwf Hty Hpo Hp Hc. destruct (vt_pipe _ (ty_vars _ Hty) _ _ Hpo) as [Hk _].
  unfold RemovePipe. apply surveyorinv_calm_go; [done|].
  set (s1 := set_vars _ s). assert (calm s1) as Hc1 by (apply calm_plain; try done; simpl; set_solver).
  apply calm_close; [| | | |done].
  - apply (calm_there _ Hc). right; right. eauto.
  - change (¬ shut s (p_closeQ po)). apply not_shut_kind; [done|]. by rewrite Hk.
  - rewrite Hk. simpl. set_solver.
  - intros t v y _ Hy E. pose proof (vt_surv _ (ty_vars _ Hty) v y Hy). congruence.
Qed.

Lemma calm_AddPipe p id s :
  wf s → pobjs (vars s) !! p = None → calm s → calm (snd (AddPipe p id s)).
Proof.
  intros Hwf Hp Hc. unfold AddPipe. destruct (make_chan (KSend p) _ s) as [sq s1] eqn:E1.
  destruct (okstep_make_chan _ _ _ _ _ Hwf E1) as (_ & Hwf1 & _ & Hv1 & _).
  destruct (make_chan (KPipe p) _ s1) as [cq s2] eqn:E2.
  assert (calm s2) as Hc2 by eauto using calm_make_chan.
  assert (is_Some (chans s2 !! cq)) as Hcq by (injection E2 as <- <-; simpl; by rewrite lookup_insert_eq).
  set (s3 := set_vars _ s2). assert (calm s3) as Hc3.
  { apply calm_vars; simpl; [done| |by eauto|apply (calm_live _ Hc2)|apply (calm_ctxs _ Hc2)
      |apply (calm_master _ Hc2)|done].
    intros q [?|[?|(k & x & Hx & Hq)]]; [left; by left|left; right; by left|].
    simpl in Hx. rewrite lookup_insert in Hx. case_decide; [simplify_eq; by right|].
    left; right; right. eauto. }
  clearbody s3. destruct (closed (vars s3)); [done|]. cbn [snd]. apply surveyorinv_calm_go; [done|].
  apply surveyorinv_calm_go; [done|]. revert Hc3. by apply calm_plain.
Qed.

Lemma calm_OpenContext c s :
  wf s → cobjs (vars s) !! c = None → calm s → calm (snd (OpenContext c s)).
Proof.
  intros Hwf Hn Hc. unfold OpenContext. destruct (closed (vars s)); [done|].
  destruct (calm_master _ Hc) as [d Hd]. rewrite Hd.
  destruct (make_chan (KCtx c) 0 s) as [cq s1] eqn:E1.
  destruct (okstep_make_chan _ _ _ _ _ Hwf E1) as (_ & _ & _ & Hv1 & _).
  assert (is_Some (chans s1 !! cq)) as Hcq by (injection E1 as <- <-; simpl; by rewrite lookup_insert_eq).
  pose proof (calm_make_chan _ _ _ _ _ Hwf E1 Hc) as Hc1. rewrite <-Hv1 in Hn. cbn [snd].
  apply calm_vars; simpl; [| |by eauto|apply (calm_live _ Hc1)| | |done].
  - intros [k|p|p|w]; simpl; try done. intros (x & Hx & ?). exists x.
    rewrite lookup_insert_ne by congruence. done.
  - intros q [?|[(k & x & Hx & Hq)|?]]; [left; by left| |left; right; by right].
    simpl in Hx. rewrite lookup_insert in Hx. case_decide; [simplify_eq; by right|].
    left; right; left. eauto.
  - intros k Hk. rewrite lookup_insert_is_Some'. apply elem_of_union in Hk as [->%elem_of_singleton|Hk]; [by left|].
    right. by apply (calm_ctxs _ Hc1).
  - rewrite lookup_insert_is_Some'. right. apply (calm_master _ Hc1).
Qed.

Lemma surveyorinv_calm_SetOption c name v s : calm s → calm (snd (context_SetOption c name v s)).
Proof.
  intros Hc. unfold context_SetOption.
  do 2 (destruct (String.eqb name _); [destruct v; try done; revert Hc; by apply calm_ctx|]).
  destruct (String.eqb name _); [|done].
  destruct v; try done. destruct (0 <=? z)%Z; [|done]. revert Hc; by apply calm_ctx.
Qed.

Lemma calm_SendMsg_locked t c x id m v order s :
  wf s → threads s !! t = Some (SendLock c id m) → survs (vars s) !! v = None →
  calm s → calm (SendMsg_locked t c x id m v order s).
Proof.
  intros Hwf Ht Hv Hc. unfold SendMsg_locked. destruct (_ || _).
  { revert Hc. by apply (surveyorinv_calm_goto t (SendRet (Some ErrClosed) (Some m))). }
  pose proof (calm_start v c id (recvQLen x) s Hwf Hv Hc) as Hc1.
  set (s2 := match c_surv x with Some old => go (Cancel old ErrCanceled) _ | None => _ end).
  assert (calm s2) as Hc2 by (subst s2; destruct (c_surv x); [by apply surveyorinv_calm_go|done]).
  clearbody s2. revert Hc2. by apply (surveyorinv_calm_goto t (BNext m order)).
Qed.

Lemma calm_ext e s s' : wf s → typed s → ext e s = Some s' → calm s → calm s'.
Proof.
  intros Hwf Hty Hs Hc. revert Hs. destruct e; cbn [ext].
  - intros [_ [= <-]]%guard_bind_Some. unfold SendMsg. apply surveyorinv_calm_go; [done|].
    apply calm_plain; try done. eapply (surveyorinv_calm_same (set_vars _ s)); [done..|]. by apply calm_plain.
  - destruct (threads s !! t) as [[]|] eqn:Ht; try done. intros Hs.
    apply bind_Some in Hs as (x & Hx & [(Hv & _ & _) [= <-]]%guard_bind_Some).
    by apply calm_SendMsg_locked.
  - destruct (threads s !! t) as [[]|] eqn:Ht; try done. intros [= <-].
    unfold SendMsg_next. destruct l as [|q l]; revert Hc.
    + by apply (surveyorinv_calm_goto t (SendRet None None)).
    + by apply (surveyorinv_calm_goto t (BTry m q l)).
  - intros Hs. apply bind_Some in Hs as (x & Hx & [= <-]). unfold RecvMsg.
    destruct (closed (vars s)); [by apply surveyorinv_calm_go|].
    destruct (c_surv x) as [v|] eqn:Hv; [|by apply surveyorinv_calm_go].
    destruct (vt_ctx _ (ty_vars _ Hty) _ _ Hx) as [_ Hsv]. destruct (Hsv _ Hv) as (y & -> & _).
    by apply surveyorinv_calm_go.
  - destruct (threads s !! t) as [[]|] eqn:Ht; try done. intros [= <-].
    destruct (calm_err _ Hc _ _ _ Ht) as (y & Hy & _ & He). unfold RecvMsg_err. rewrite Hy.
    destruct (sv_err y) as [e|]; [|done]. revert Hc. by apply (surveyorinv_calm_goto t (RecvRet c (Err e))).
  - destruct (threads s !! t) as [[]|] eqn:Ht; try done. intros [_ Hs]%guard_bind_Some.
    by eapply calm_receiver_turn.
  - destruct (threads s !! t) as [[]|] eqn:Ht; try done. intros [= <-]. revert Hc. by apply (surveyorinv_calm_goto t Done).
  - destruct (threads s !! t) as [[]|] eqn:Ht; try done. intros Hs.
    apply bind_Some in Hs as (po & Hpo & [= <-]). unfold sender_sent. destruct e; revert Hc.
    + by apply (surveyorinv_calm_goto t (PipeClose p)).
    + by apply (surveyorinv_calm_goto t (Sender p (p_sendQ po) (p_closeQ po))).
  - destruct (threads s !! t) as [[]|] eqn:Ht; try done. intros [= <-]. unfold pipe_close.
    eapply (surveyorinv_calm_goto t Done (set_vars _ s)); [done..|]. by apply calm_plain.
  - intros [Hv [= <-]]%guard_bind_Some. by apply surveyorinv_calm_go.
  - destruct (threads s !! t) as [[]|] eqn:Ht; try done. intros Hs.
    apply bind_Some in Hs as (x & Hx & [= <-]). by apply calm_cancel.
  - destruct (threads s !! t) as [[]|] eqn:Ht; try done. intros Hs.
    apply bind_Some in Hs as (x & Hx & [= <-]). by eapply calm_CloseSurv.
  - intros [= <-]. by apply surveyorinv_calm_SetOption.
  - intros [= <-]. unfold SetOption. destruct (String.eqb name _); [|by apply surveyorinv_calm_SetOption].
    destruct v; try done. destruct (0 <=? z)%Z; [|done]. by apply calm_plain.
  - intros Hs. apply bind_Some in Hs as (x & Hx & [= <-]). unfold context_Close.
    destruct (c_closed x); [done|]. by apply calm_ctx_close.
  - intros [[_ Hor] [= <-]]%guard_bind_Some. unfold Close. destruct (closed (vars s)); [done|].
    set (s1 := set_vars _ s). assert (okstep s s1) as Hok by by apply surveyor_okstep_plain.
    apply calm_closes; [by apply Hok|by apply Hok| |by apply calm_plain].
    intros c Hin. apply (calm_ctxs _ Hc). rewrite <-Hor. by apply elem_of_list_to_set.
  - intros [Hn [= <-]]%guard_bind_Some. by apply calm_OpenContext.
  - intros [Hp [= <-]]%guard_bind_Some. by apply calm_AddPipe.
  - intros Hs. apply bind_Some in Hs as (po & Hpo & [Hp [= <-]]%guard_bind_Some).
    by apply calm_RemovePipe.
  - destruct (threads s !! t) as [[]|] eqn:Ht; try done. intros Hs.
    apply bind_Some in Hs as (po & Hpo & [= <-]). unfold RemovePipe_locked.
    eapply (surveyorinv_calm_goto t Done (set_vars _ s)); [done..|]. by apply calm_plain.
Qed.

Lemma reachable_calm s : reachable step init ok s → calm s.
Proof.
  intros H. enough (good s ∧ calm s) by tauto. revert s H.
  apply (reachable_invariant _ _ _ (λ s, good s ∧ calm s)).
  - intros s Hs. split; [by apply surveyor_init_good|]. destruct Hs as [now ->]. split; simpl; try done.
    + intros q (ch & Hch & Hcl). simpl in Hch. apply lookup_singleton_Some in Hch as [_ <-]. done.
    + intros q [(? & ? & ? & _)|[(c & x & Hx & <-)|(? & ? & ? & _)]]; try done. simpl in Hx.
      apply lookup_singleton_Some in Hx as [_ <-]. simpl. by rewrite lookup_singleton_eq.
    + intros c ->%elem_of_singleton. by rewrite lookup_singleton_eq.
  - intros l s s' [Hg Hr] _ Hs. split.
    { destruct Hg as [Hwf Ho Hty]. destruct (gstep_ok ext _ _ _ Hwf Hty Hs) as [Ha ? ?].
      split; [by apply Ha|auto|auto]. }
    apply guard_bind_Some in Hs as [_ Hs]. destruct Hg as [Hwf Ho Hty]. destruct l as [t i r|t|e].
    + apply bind_Some in Hs as (th & Ht & Hs). by eapply calm_case.
    + apply bind_Some in Hs as (th & Ht & [[Hd Hrd] Hs]%guard_bind_Some).
      apply (inj Some) in Hs. subst s'. by apply calm_default.
    + by eapply calm_ext.
Qed.

(** C24. The SURVEYOR protocol never panics: whatever the interleaving of
    surveys, responses, timers, cancellations, closes and pipes coming and
    going, no channel is closed twice and nothing is sent on a closed channel
    (in particular no response on the queue of a cancelled survey); a survey
    that [receiver] finds in [surveys] has not been cancelled; and [RecvMsg]
    never returns a nil message without an error. *)
Theorem surveyor_never_panics s (H : reachable step init ok s) :
  crashed s = false ∧
  (∀ id v, surveys (vars s) !! id = Some v →
     ∃ y, survs (vars s) !! v = Some y ∧ sv_once y = false ∧
       is_Some (chans s !! sv_recvQ y) ∧ ¬ shut s (sv_recvQ y)) ∧
  (∀ t c, threads s !! t ≠ Some (RecvNil c)).
Proof.
  pose proof (reachable_calm s H) as Hc. destruct (reachable_surveyor s H) as [_ _ Hty].
  split_and!; [apply (calm_crash _ Hc)| |apply (calm_nil _ Hc)].
  intros id v Hv. destruct (calm_live _ Hc _ _ Hv) as (y & Hy & Ho & _).
  exists y. split_and!; try done; [apply (calm_there _ Hc); left; by eauto|].
  apply not_shut_kind; [done|]. rewrite (vt_surv _ (ty_vars _ Hty) _ _ Hy).
  intros (y' & ? & ? & _). congruence.
Qed.

(** A receiver waits, the survey's timer ends it, the receiver gets
    [ErrProtoState]. *)
Definition surveyor_expired : state :=
  play step (λ _ _, true)
    [LExt (ESend 0 question); LExt (ESendLock 1 0 []); LExt (ENext 1); LExt (ERecv 0); LDefault 3;
     LExt (ETimer 0); LExt (ECancel 4); LExt (ECloseSurv 4); LCase 3 1 None; LExt (ERecvErr 3)]
    (NewProtocol 0).

Lemma surveyor_never_panics_witness :
  threads surveyor_expired !! 3 = Some (RecvRet 0 (Err ErrProtoState)) ∧
  surveys (vars surveyor_expired) = ∅ ∧ crashed surveyor_expired = false.
Proof.
  assert (reachable step init ok surveyor_expired) as Hr
    by (apply play_reachable; [by intros ? []|by exists 0%Z]).
  split_and!; [by vm_compute|by vm_compute|].
  by destruct (surveyor_never_panics surveyor_expired Hr) as (? & _).
Defined.
