(* ===== verification/XPub.v ===== *)
(** * XPub: the raw PUB protocol

    [src/protocol/xpub/xpub.go], complete, as a program of [Chan].  [SendMsg]
    holds the socket's mutex while it offers the message to every pipe, so the
    mutex is a variable ([locked]); [published] records the messages in the
    order in which [SendMsg] got the mutex. *)
From stdpp Require Import gmap list strings fin_maps.
From Stdlib Require Import ZArith Lia.
From S2P Require Import Prelude Types Chan Backtrace.

Abbreviation pid := nat.

(** The channels: [closeq] and [sendq] of a pipe. *)
Inductive kind := KClose (p : pid) | KSend (p : pid).
#[export] Instance kind_eq_dec : EqDecision kind.
Proof. solve_decision. Defined.
#[export] Instance kind_countable : Countable kind.
Proof.
  refine (inj_countable'
    (λ k, match k with KClose p => inl p | KSend p => inr p end)
    (λ x, match x with inl p => KClose p | inr p => KSend p end) _).
  by intros [].
Defined.
Abbreviation chid := (kind * nat)%type.

Record pipe := mkPipe { p_id : Z; p_closeq : chid; p_sendq : chid }.

Record socket := mkSocket {
  closed : bool;
  pipes : gmap Z pid;
  sendQLen : Z;
  locked : option thid;      (* who holds the mutex *)
  pobjs : gmap pid pipe;     (* all pipe objects *)
  removed : gset pid;
  pclosed : gset pid;
  published : list msg
}.
#[export] Instance eta_socket : Eta socket := λ s,
  mkSocket (closed s) (pipes s) (sendQLen s) (locked s) (pobjs s) (removed s) (pclosed s)
    (published s).

Definition defaultQLen : Z := 128.

(** Program points. *)
Inductive thread :=
  | SendNext (m : msg) (l : list chid)           (* SendMsg, the head of its loop *)
  | SendTry (m : msg) (q : chid) (l : list chid)
  | SendRet (e : error) (back : option msg)
  | Receiver (p : pid)
  | Sender (p : pid) (q cq : chid)
  | Sending (p : pid) (m : msg)
  | PipeClose (p : pid)
  | Done.

Definition sel (th : thread) : list (op kind msg) :=
  match th with
  | SendTry m q l => [OSend q m]
  | Sender p q cq => [ORecv cq; ORecv q]
  | _ => []
  end.
Definition dflt (th : thread) : bool := match th with SendTry _ _ _ => true | _ => false end.

(** After a case.  A [sendq] is never closed, so a receive from it brings a
    message. *)
Definition res (th : thread) (i : option nat) (x : option msg) : thread * list msg :=
  match th, i with
  | SendTry m q l, Some _ => (SendNext m l, [])
  | SendTry m q l, None => (SendNext m l, [m])
  | Sender p q cq, Some 0 => (PipeClose p, option_list x)
  | Sender p q cq, Some _ => (match x with Some m => Sending p m | None => PipeClose p end, [])
  | th, _ => (th, [])
  end.

#[export] Instance xpub_program : Program kind msg thread :=
  { select := sel; has_default := dflt; resume := res }.

Abbreviation state := (st kind msg socket thread).

(** ** The critical sections *)

(** [SendMsg] gets the mutex; [order] lists the queues of the pipes. *)
Definition SendMsg (m : msg) (order : list chid) (s : state) : state :=
  if closed (vars s) then go (SendRet (Some ErrClosed) (Some m)) (give [m] s)
  else
    let s := set_vars (λ σ, σ <| locked := Some (fresh s) |>
                              <| published ::= (λ l, l ++ [m]) |>) s in
    go (SendNext m order) (give [m] s).
(** ..., one pass of its loop; at the end it releases the mutex. *)
Definition SendMsg_next (t : thid) (m : msg) (l : list chid) (s : state) : state :=
  match l with
  | [] => set_thread t (SendRet None None) (free [m] (set_vars (λ σ, σ <| locked := None |>) s))
  | q :: l => set_thread t (SendTry m q l) (give [m] s)
  end.

Definition RecvMsg : result msg := Err ErrProtoOp.

Definition SetOption (name : string) (v : value) (s : state) : error * state :=
  if String.eqb name OptionWriteQLen then
    match v with
    | VInt z => if (0 <=? z)%Z then (None, set_vars (λ σ, σ <| sendQLen := z |>) s)
                else (Some ErrBadValue, s)
    | _ => (Some ErrBadValue, s)
    end
  else (Some ErrBadOption, s).
Definition GetOption (name : string) (σ : socket) : result value :=
  if String.eqb name OptionRaw then Ok (VBool true)
  else if String.eqb name OptionWriteQLen then Ok (VInt (sendQLen σ))
  else Err ErrBadOption.

Definition AddPipe (p : pid) (id : Z) (s : state) : error * state :=
  let '(cq, s) := make_chan (KClose p) 0 s in
  let '(sq, s) := make_chan (KSend p) (Z.to_nat (sendQLen (vars s))) s in
  let s := set_vars (λ σ, σ <| pobjs ::= <[p := mkPipe id cq sq]> |>) s in
  if closed (vars s) then (Some ErrClosed, s)
  else
    let s := set_vars (λ σ, σ <| pipes ::= <[id := p]> |>) s in
    (None, go (Receiver p) (go (Sender p sq cq) s)).

Definition RemovePipe (p : pid) (po : pipe) (s : state) : state :=
  close_chan (p_closeq po)
    (set_vars (λ σ, σ <| pipes ::= delete (p_id po) |> <| removed ::= (λ x, {[p]} ∪ x) |>) s).

Definition OpenContext : error := Some ErrProtoOp.
Definition Info : ProtocolInfo := mkInfo ProtoPub ProtoSub "pub" "sub".

Definition Close (s : state) : error * state :=
  if closed (vars s) then (Some ErrClosed, s)
  else (None, set_vars (λ σ, σ <| closed := true |>) s).

(** [sender], when [p.p.SendMsg(m)] has returned. *)
Definition sender_sent (t : thid) (p : pid) (po : pipe) (m : msg) (e : error) (s : state) : state :=
  match e with
  | Some _ => set_thread t (PipeClose p) (free [m] s)
  | None => set_thread t (Sender p (p_sendq po) (p_closeq po)) (pass [m] s)
  end.
(** [receiver] drops what comes in. *)
Definition receiver_turn (m : msg) (s : state) : state := free [m] (give [m] s).
Definition pipe_close (t : thid) (p : pid) (s : state) : state :=
  set_thread t Done (set_vars (λ σ, σ <| pclosed ::= (λ x, {[p]} ∪ x) |>) s).

Definition NewProtocol : state :=
  mkSt (mkSocket false ∅ defaultQLen None ∅ ∅ ∅ []) ∅ ∅ 0 [] [] [] false.

(** ** The program *)
Inductive event :=
  | ESend (m : msg) (order : list pid)
  | ENext (t : thid)
  | EPipeRecv (t : thid) (m : msg)
  | EPipeRecvNil (t : thid)
  | EPipeSent (t : thid) (e : error)
  | EPipeClose (t : thid)
  | ESetOption (name : string) (v : value)
  | EClose
  | EAddPipe (p : pid) (id : Z)
  | ERemovePipe (p : pid).

Definition free_lock (s : state) : Prop := locked (vars s) = None.

(** New messages and pipe objects have identities of their own; the pipes are
    ranged over in any order; the core removes a pipe once. *)
Definition ext (e : event) (s : state) : option state :=
  match e with
  | ESend m order =>
      guard (free_lock s ∧ mref m ∉ mref <$> given s ∧ NoDup order ∧
             list_to_set order = (map_img (pipes (vars s)) : gset pid));;
      Some (SendMsg m (omap (λ p, p_sendq <$> pobjs (vars s) !! p) order) s)
  | ENext t =>
      match threads s !! t with
      | Some (SendNext m l) => Some (SendMsg_next t m l s)
      | _ => None
      end
  | EPipeRecv t m =>
      match threads s !! t with
      | Some (Receiver p) => guard (mref m ∉ mref <$> given s);; Some (receiver_turn m s)
      | _ => None
      end
  | EPipeRecvNil t =>
      match threads s !! t with
      | Some (Receiver p) => Some (set_thread t (PipeClose p) s)
      | _ => None
      end
  | EPipeSent t e =>
      match threads s !! t with
      | Some (Sending p m) => po ← pobjs (vars s) !! p; Some (sender_sent t p po m e s)
      | _ => None
      end
  | EPipeClose t =>
      match threads s !! t with
      | Some (PipeClose p) => Some (pipe_close t p s)
      | _ => None
      end
  | ESetOption name v => guard (free_lock s);; Some (snd (SetOption name v s))
  | EClose => guard (free_lock s);; Some (snd (Close s))
  | EAddPipe p id => guard (free_lock s ∧ pobjs (vars s) !! p = None);; Some (snd (AddPipe p id s))
  | ERemovePipe p =>
      po ← pobjs (vars s) !! p;
      guard (free_lock s ∧ p ∉ removed (vars s));; Some (RemovePipe p po s)
  end.

Definition init (s : state) : Prop := s = NewProtocol.
Definition step : label event → state → option state := gstep ext.
Definition ok : state → label event → Prop := gok (λ _ _, True).

(** ** Ownership *)
Definition holding (th : thread) : list msg :=
  match th with
  | SendNext m _ | SendRet _ (Some m) | Sending _ m => [m]
  | SendTry m _ _ => [m; m]
  | _ => []
  end.

#[export] Instance xpub_owns : Owns (K := kind) (A := msg) (T := thread).
Proof.
  refine {| holds := holding |}.
  - intros th i o v y Hsel Hv.
    destruct th; cbn in Hsel; select_cases Hsel; cbn in *; subst; try (destruct v as [m'|]); owns_lia.
  - intros th y Hd. destruct th; try done; owns_lia.
Defined.

(** ** What the channels carry *)
Definition ctype (σ : socket) (c : chid) (m : msg) : Prop :=
  match c.1 with KSend _ => m ∈ published σ | KClose _ => False end.
Definition send_queue (q : chid) : Prop := ∃ p, q.1 = KSend p.
Definition owner (σ : socket) (t : thid) : Prop := locked σ = Some t.

Definition ttype (σ : socket) (t : thid) (th : thread) : Prop :=
  match th with
  | SendNext m l => owner σ t ∧ m ∈ published σ ∧ Forall send_queue l
  | SendTry m q l => owner σ t ∧ m ∈ published σ ∧ send_queue q ∧ Forall send_queue l
  | Sender p q cq => q.1 = KSend p ∧ cq.1 = KClose p
  | Sending _ m => m ∈ published σ
  | _ => True
  end.

Definition vtype (σ : socket) : Prop :=
  ∀ p po, pobjs σ !! p = Some po → (p_closeq po).1 = KClose p ∧ (p_sendq po).1 = KSend p.

#[export] Instance xpub_typed : Typed (K := kind) (A := msg) (S := socket) (T := thread).
Proof.
  refine {| vars_type := vtype; chan_type := ctype; thread_type := ttype |}.
  - intros σ t th i o v Hsel Hth Hv.
    destruct th; cbn in Hsel; select_cases Hsel; cbn in Hth; try (destruct v as [m'|]); try done; cbn.
    + destruct Hth as (? & ? & [p Hp] & ?). unfold ctype. rewrite Hp. by split_and!.
    + destruct Hth as [Hk _]. unfold ctype in Hv. by rewrite Hk in Hv.
  - intros σ t th Hd Hth. destruct th; try done. cbn in *. naive_solver.
Defined.

(** The points at which [SendMsg] holds the mutex. *)
Definition critical (th : thread) : bool :=
  match th with SendNext _ _ | SendTry _ _ _ => true | _ => false end.
Lemma xpub_critical_owner σ t th : critical th = true → ttype σ t th → owner σ t.
Proof. destruct th; try done; intros _ Hth; apply Hth. Qed.

(** The variables change; the mutex stays with its owner, or was free. *)
Lemma xpub_okstep_vars f s :
  (∀ m, m ∈ published (vars s) → m ∈ published (f (vars s))) →
  (locked (f (vars s)) = locked (vars s) ∨ locked (vars s) = None) →
  (vtype (vars s) → vtype (f (vars s))) → okstep s (set_vars f s).
Proof.
  intros Hp Hl Hv. apply okstep_vars; [done| |].
  - intros [[p|p] n] m _; [done|apply Hp].
  - intros t th _ _ Hth. destruct (critical th) eqn:Hcr.
    + pose proof (xpub_critical_owner _ _ _ Hcr Hth) as Ho. unfold owner in Ho.
      destruct Hl as [Hl|Hl]; [|congruence].
      destruct th; try done; simpl in *; unfold owner; rewrite Hl; naive_solver.
    + destruct th; try done. simpl in *. auto.
Qed.

(** ** The critical sections keep everything *)
Lemma xpub_send_queues (σ : socket) order :
  vtype σ → Forall send_queue (omap (λ p, p_sendq <$> pobjs σ !! p) order).
Proof.
  intros Hv. apply Forall_forall. intros q. rewrite list_elem_of_omap.
  intros (p & _ & (po & Hpo & ->)%fmap_Some). exists p. by apply (Hv p).
Qed.

Lemma xpub_okstep_SendMsg m order s :
  wf s → free_lock s → Forall send_queue order → okstep s (SendMsg m order s).
Proof.
  intros Hwf Hf Hord. unfold SendMsg. destruct (closed (vars s)).
  { apply (okstep_spawn _ [m]); [done|accounting|done]. }
  set (f := λ σ : socket, σ <| locked := Some (fresh s) |> <| published ::= (λ l, l ++ [m]) |>).
  assert (okstep s (set_vars f s)) as Hok.
  { apply xpub_okstep_vars; [simpl; set_solver|by right|done]. }
  etrans; [exact Hok|]. apply (okstep_spawn _ [m]); [by apply Hok|accounting|]. intros _.
  split_and!; [done|simpl; set_solver|done].
Qed.

Lemma xpub_okstep_SendMsg_next t m l s :
  typed s → threads s !! t = Some (SendNext m l) → okstep s (SendMsg_next t m l s).
Proof.
  intros Hty Ht. destruct (ty_thread _ Hty _ _ Ht) as (Ho & Hm & Hl). unfold SendMsg_next.
  destruct l as [|q l].
  - set (f := λ σ : socket, σ <| locked := None |>).
    change (okstep s (set_vars f (set_thread t (SendRet None None) (free [m] s)))).
    etrans; [apply (okstep_goto t (SendNext m []) (SendRet None None) [] s (free [m] s));
      [done|accounting|done]|].
    apply okstep_vars; [done|done|]. intros t' th _ Ht' Hth. destruct (critical th) eqn:Hcr.
    + pose proof (xpub_critical_owner _ _ _ Hcr Hth) as Ho'. unfold owner in *. simpl in *.
      rewrite lookup_insert in Ht'. case_decide; [by simplify_eq|congruence].
    + destruct th; done.
  - apply Forall_cons in Hl as [? ?]. eapply (okstep_goto t _ _ [m]); [done|accounting|done].
Qed.

Lemma xpub_okstep_AddPipe p id s : wf s → okstep s (snd (AddPipe p id s)).
Proof.
  intros Hwf. unfold AddPipe. destruct (make_chan (KClose p) _ s) as [cq s1] eqn:E1.
  destruct (okstep_make_chan _ _ _ _ _ Hwf E1) as (Hok1 & Hwf1 & Hcq & Hv1 & _).
  destruct (make_chan (KSend p) _ s1) as [sq s2] eqn:E2.
  destruct (okstep_make_chan _ _ _ _ _ Hwf1 E2) as (Hok2 & Hwf2 & Hsq & Hv2 & _).
  etrans; [exact Hok1|]. etrans; [exact Hok2|].
  set (s3 := set_vars _ s2). assert (okstep s2 s3) as Hok3.
  { apply xpub_okstep_vars; [done|by left|]. intros Hv k po. simpl. rewrite lookup_insert.
    case_decide; [|by apply Hv]. intros [= <-]. by subst. }
  etrans; [exact Hok3|]. assert (wf s3) as Hwf3 by by apply Hok3. clearbody s3.
  destruct (closed (vars s3)); [reflexivity|]. cbn [snd].
  set (s4 := set_vars _ s3). assert (okstep s3 s4) as Hok4 by (apply xpub_okstep_vars; [done|by left|done]).
  etrans; [exact Hok4|]. assert (wf s4) as Hwf4 by by apply Hok4. clearbody s4.
  etrans; [apply (okstep_go (Sender p sq cq)); [done|done|by subst]|].
  apply okstep_go; [by apply wf_go|done|done].
Qed.

#[export] Instance xpub_ok : ExtOk ext.
Proof.
  intros e s s' Hwf Hty. destruct e; cbn [ext].
  - intros [(Hf & _) [= <-]]%guard_bind_Some. apply xpub_okstep_SendMsg; [done|done|].
    apply xpub_send_queues, (ty_vars _ Hty).
  - destruct (threads s !! t) as [[]|] eqn:Ht; try done. intros [= <-].
    by apply xpub_okstep_SendMsg_next.
  - destruct (threads s !! t) as [[]|] eqn:Ht; try done. intros [_ [= <-]]%guard_bind_Some.
    apply (okstep_account [m]). accounting.
  - destruct (threads s !! t) as [[]|] eqn:Ht; try done. intros [= <-].
    eapply okstep_set_thread; [done|count|done].
  - destruct (threads s !! t) as [[]|] eqn:Ht; try done. intros Hs.
    apply bind_Some in Hs as (po & Hpo & [= <-]). unfold sender_sent. destruct e as [e|].
    + eapply (okstep_goto t _ _ []); [done|accounting|done].
    + eapply (okstep_goto t _ _ []); [done|accounting|]. intros _.
      by destruct (ty_vars _ Hty _ _ Hpo).
  - destruct (threads s !! t) as [[]|] eqn:Ht; try done. intros [= <-].
    etrans; [apply (xpub_okstep_vars (λ σ, σ <| pclosed ::= (λ x, {[p]} ∪ x) |>)); [done|by left|done]|].
    eapply okstep_set_thread; [done|count|done].
  - intros [_ [= <-]]%guard_bind_Some. unfold SetOption. destruct (String.eqb name _); [|reflexivity].
    destruct v; try reflexivity. destruct (0 <=? z)%Z; [|reflexivity].
    apply xpub_okstep_vars; [done|by left|done].
  - intros [_ [= <-]]%guard_bind_Some. unfold Close. destruct (closed (vars s)); [reflexivity|].
    apply xpub_okstep_vars; [done|by left|done].
  - intros [_ [= <-]]%guard_bind_Some. by apply xpub_okstep_AddPipe.
  - intros Hs. apply bind_Some in Hs as (po & Hpo & [_ [= <-]]%guard_bind_Some). unfold RemovePipe.
    etrans; [|apply okstep_close_chan]. apply xpub_okstep_vars; [done|by left|done].
Qed.

Lemma xpub_init_good s : init s → good s.
Proof. intros ->. split; [split; simpl|by intros x|split]; try done; by intros ? [? ?]. Qed.

Lemma reachable_xpub s : reachable step init ok s → good s.
Proof. eapply reachable_good; [apply _|]. apply xpub_init_good. Qed.

(** ** Order *)

(** [m] is being published: it is the last of [published], and the queues [l]
    that are still to get it have seen only earlier messages. *)
Definition pending (s : state) (m : msg) (l : list chid) : Prop :=
  ∃ pre, published (vars s) = pre ++ [m] ∧ NoDup l ∧
    ∀ q, q ∈ l → ∃ ch, chans s !! q = Some ch ∧ ins ch `sublist_of` pre.
Definition paced (s : state) (th : thread) : Prop :=
  match th with
  | SendNext m l => pending s m l
  | SendTry m q l => pending s m (q :: l)
  | _ => True
  end.
Record ord (s : state) : Prop := {
  ord_q q ch : send_queue q → chans s !! q = Some ch → ins ch `sublist_of` published (vars s);
  ord_there p po : pobjs (vars s) !! p = Some po → is_Some (chans s !! p_sendq po);
  ord_th t th : threads s !! t = Some th → paced s th
}.

Lemma paced_still s s' th :
  still s s' → published (vars s') = published (vars s) → paced s th → paced s' th.
Proof.
  intros [Hs _] Hp.
  assert (∀ m l, pending s m l → pending s' m l) as Hpend.
  { intros m l (pre & ? & ? & Hq). exists pre. split_and!; [congruence|done|].
    intros q Hin. destruct (Hq q Hin) as (ch & Hch & ?). destruct (Hs _ _ Hch) as (ch' & ? & E).
    exists ch'. by rewrite E. }
  destruct th; simpl; auto.
Qed.

(** Nothing is sent, and the goroutines are as before or fine. *)
Lemma ord_still s s' :
  still s s' → published (vars s') = published (vars s) →
  (∀ p po, pobjs (vars s') !! p = Some po →
     pobjs (vars s) !! p = Some po ∨ is_Some (chans s' !! p_sendq po)) →
  (∀ t th, threads s' !! t = Some th → threads s !! t = Some th ∨ paced s' th) →
  ord s → ord s'.
Proof.
  intros Hst Hp Hpo Hth [O1 O2 O3]. split.
  - intros q ch' Hq Hch'. rewrite Hp. destruct (proj2 Hst _ _ Hch') as [[ch Hch]|E].
    + destruct (proj1 Hst _ _ Hch) as (ch2 & ? & E). simplify_eq. rewrite E. eauto.
    + rewrite E. apply sublist_nil_l.
  - intros p po Hx. destruct (Hpo _ _ Hx) as [Hy|?]; [|done]. destruct (O2 _ _ Hy) as [ch Hch].
    destruct (proj1 Hst _ _ Hch) as (ch' & -> & _). done.
  - intros t th Ht. destruct (Hth _ _ Ht) as [?|?]; [|done]. eapply paced_still; eauto.
Qed.
Lemma ord_goto t th s s' :
  still s s' → published (vars s') = published (vars s) → pobjs (vars s') = pobjs (vars s) →
  threads s' = <[t := th]> (threads s) → (ord s → paced s' th) → ord s → ord s'.
Proof.
  intros Hst Hp Hpo Ht Hth Ho. pose proof (Hth Ho) as Hth'. revert Ho. apply ord_still; [done|done| |].
  - rewrite Hpo. by left.
  - intros k th'. rewrite Ht, lookup_insert. case_decide; [|by left]. intros [= <-]. by right.
Qed.
Lemma ord_resume t th i v s :
  ord s → paced s (fst (resume th i v)) → ord (resume_thread t th i v s).
Proof.
  intros Ho Hp. revert Ho. apply (ord_goto t (fst (resume th i v))).
  - apply still_same, chans_resume.
  - by rewrite vars_resume.
  - by rewrite vars_resume.
  - unfold resume_thread. by destruct (resume th i v).
  - intros _. eapply paced_still; [apply still_same, chans_resume|by rewrite vars_resume|done].
Qed.

(** A goroutine outside [SendMsg] is fine after any case; [SendMsg] goes to the
    next queue. *)
Lemma paced_case s th i o x :
  select th !! i = Some o → paced s th → paced s (fst (resume th (Some i) x)).
Proof.
  intros Hsel. destruct th; cbn in Hsel; select_cases Hsel; try (by destruct x).
  intros (pre & ? & Hn & Hq). exists pre. apply NoDup_cons in Hn as [_ ?]. split_and!; [done|done|].
  intros k Hk. apply Hq. by apply elem_of_cons; right.
Qed.
Lemma paced_default s th : has_default th = true → paced s th → paced s (fst (resume th None None)).
Proof.
  destruct th; try done. intros _ (pre & ? & Hn & Hq). exists pre. apply NoDup_cons in Hn as [_ ?].
  split_and!; [done|done|]. intros k Hk. apply Hq. by apply elem_of_cons; right.
Qed.

(** The queue [q] gets [m]: it is not among those that are still to get it. *)
Lemma ord_sent t m q l ch ch' s :
  typed s → ord s → threads s !! t = Some (SendTry m q l) → chans s !! q = Some ch →
  ins ch' = ins ch ++ [m] →
  ord (set_thread t (SendNext m l) (s <| chans ::= <[q := ch']> |>)).
Proof.
  intros Hty [O1 O2 O3] Ht Hch Hi. destruct (O3 _ _ Ht) as (pre & Hpub & [Hnq Hn]%NoDup_cons & Hq).
  assert (owner (vars s) t) as Ho by (by destruct (ty_thread _ Hty _ _ Ht)).
  split; simpl.
  - intros k x Hk. rewrite lookup_insert. case_decide; [|by apply O1]. intros [= <-]. subst.
    rewrite Hi, Hpub. destruct (Hq k) as (ch1 & ? & ?); [by left|]. simplify_eq. by apply sublist_app.
  - intros p po Hpo. rewrite lookup_insert_is_Some'. right. eauto.
  - intros k th. rewrite lookup_insert. case_decide.
    + intros [= <-]. exists pre. split_and!; [done|done|]. intros k' Hk'. simpl.
      rewrite lookup_insert_ne by (intros ->; done). apply Hq. by apply elem_of_cons; right.
    + intros Hk. destruct (critical th) eqn:Hcr; [|by destruct th].
      pose proof (xpub_critical_owner _ _ _ Hcr (ty_thread _ Hty _ _ Hk)) as Ho'.
      unfold owner in *. congruence.
Qed.

Lemma ord_case t th i r s s' :
  typed s → threads s !! t = Some th → do_case t th i r s = Some s' → ord s → ord s'.
Proof.
  intros Hty Ht Hdo Ho. pose proof (ord_th _ Ho _ _ Ht) as Hth. apply do_case_done in Hdo.
  assert (∀ c ch a ch', select th !! i = Some (OSend c a) → chans s !! c = Some ch →
    ins ch' = ins ch ++ [a] → ∃ l, fst (resume th (Some i) None) = SendNext a l ∧
    ord (set_thread t (SendNext a l) (s <| chans ::= <[c := ch']> |>))) as Hsent.
  { intros c ch a ch' Hsel Hch Hi. destruct th; cbn in Hsel; select_cases Hsel; simplify_eq.
    exists l. split; [done|]. by eapply ord_sent. }
  destruct Hdo as [c ch a b Hsel Hch Hb|c ch Hsel Hch Hb Hcl|Hsel|c ch a Hsel Hch Hcl|c ch a Hsel Hch Hl
    |c ch a t' th' j Hsel Hch Hcap Hne Ht' Hsel'].
  - apply ord_resume.
    + revert Ho. apply ord_still; [by eapply still_set_chan|done|by left|by left].
    + apply (paced_still s); [by eapply still_set_chan|done|]. by eapply paced_case.
  - apply ord_resume; [done|by eapply paced_case].
  - apply ord_resume; [done|by eapply paced_case].
  - apply ord_resume; [by revert Ho; apply ord_still; [apply still_same|..]; auto|].
    apply (paced_still s); [by apply still_same|done|]. by eapply paced_case.
  - destruct (Hsent c ch a (push a ch)) as (l & El & Hl'); [done..|]. revert Hl'.
    apply ord_still; [apply still_same; by rewrite chans_resume|by rewrite vars_resume|..].
    + rewrite vars_resume. by left.
    + intros k th'. destruct (decide (k = t)) as [->|].
      * rewrite threads_resume_eq, El. simpl. rewrite lookup_insert_eq. by left.
      * rewrite threads_resume by done. simpl. rewrite lookup_insert_ne by done. by left.
  - destruct (Hsent c ch a (hand_over a ch)) as (l & El & Hl'); [done..|]. revert Hl'.
    apply ord_still; [apply still_same; by rewrite !chans_resume|by rewrite !vars_resume|..].
    + rewrite !vars_resume. by left.
    + intros k x. destruct (decide (k = t)) as [->|].
      * rewrite threads_resume_eq, El. simpl. rewrite lookup_insert_eq. by left.
      * rewrite threads_resume by done. simpl. rewrite lookup_insert_ne by done.
        destruct (decide (k = t')) as [->|]; [|rewrite threads_resume by done; by left].
        rewrite threads_resume_eq. intros [= <-]. right.
        destruct th'; cbn in Hsel'; select_cases Hsel'; done.
Qed.

(** The queues of different pipes are different. *)
Lemma queues_NoDup (σ : socket) order :
  vtype σ → NoDup order → NoDup (omap (λ p, p_sendq <$> pobjs σ !! p) order).
Proof.
  intros Hv. induction 1 as [|p l Hp _ IH]; [constructor|]. simpl.
  destruct (pobjs σ !! p) as [po|] eqn:Hpo; simpl; [|done]. constructor; [|done].
  rewrite list_elem_of_omap. intros (p' & Hp' & (po' & Hpo' & E)%fmap_Some).
  destruct (Hv _ _ Hpo) as [_ H1]. destruct (Hv _ _ Hpo') as [_ H2]. congruence.
Qed.

Lemma ord_SendMsg m order s :
  typed s → ord s → free_lock s → NoDup order →
  ord (SendMsg m (omap (λ p, p_sendq <$> pobjs (vars s) !! p) order) s).
Proof.
  intros Hty Ho Hf Hn. unfold SendMsg. destruct (closed (vars s)).
  { revert Ho. by apply (ord_goto (fresh s) (SendRet (Some ErrClosed) (Some m))); [apply still_same|..]. }
  pose proof Ho as [O1 O2 O3]. split; simpl.
  - intros q ch Hq Hch. apply sublist_inserts_r. eauto.
  - done.
  - intros k th. rewrite lookup_insert. case_decide.
    + intros [= <-]. exists (published (vars s)). split_and!; [done|by apply queues_NoDup; [apply Hty|]|].
      intros q. rewrite list_elem_of_omap. intros (p & _ & (po & Hpo & ->)%fmap_Some).
      destruct (O2 _ _ Hpo) as [ch Hch]. exists ch. split; [done|]. apply (O1 (p_sendq po)); [|done].
      exists p. by apply (ty_vars _ Hty p).
    + intros Hk. destruct (critical th) eqn:Hcr; [|by destruct th].
      pose proof (xpub_critical_owner _ _ _ Hcr (ty_thread _ Hty _ _ Hk)) as Ho'.
      unfold owner, free_lock in *. congruence.
Qed.

Lemma ord_AddPipe p id s : wf s → ord s → ord (snd (AddPipe p id s)).
Proof.
  intros Hwf Ho. unfold AddPipe. destruct (make_chan (KClose p) _ s) as [cq s1] eqn:E1.
  destruct (okstep_make_chan _ _ _ _ _ Hwf E1) as (_ & Hwf1 & _ & Hv1 & Ht1).
  destruct (make_chan (KSend p) _ s1) as [sq s2] eqn:E2.
  destruct (okstep_make_chan _ _ _ _ _ Hwf1 E2) as (_ & _ & _ & Hv2 & Ht2).
  assert (still s s2) as Hst.
  { transitivity s1.
    - pose proof (still_make_chan (KClose p) 0 s Hwf) as H. by rewrite E1 in H.
    - pose proof (still_make_chan (KSend p) (Z.to_nat (sendQLen (vars s1))) s1 Hwf1) as H.
      by rewrite E2 in H. }
  assert (is_Some (chans s2 !! sq)) as Hsq by (injection E2 as <- <-; simpl; by rewrite lookup_insert_eq).
  set (s3 := set_vars _ s2). assert (ord s3) as Ho3.
  { revert Ho. apply ord_still; [by etrans; [exact Hst|apply still_same]|simpl; by rewrite Hv2, Hv1| |].
    - intros k po. simpl. rewrite lookup_insert. case_decide; [intros [= <-]; by right|].
      rewrite Hv2, Hv1. by left.
    - simpl. rewrite Ht2, Ht1. by left. }
  clearbody s3. destruct (closed (vars s3)); [done|]. cbn [snd].
  assert (∀ th s, critical th = false → ord s → ord (go th s)) as Hgo.
  { intros th s4 Hcr. apply (ord_goto (fresh s4) th); [by apply still_same|done..|]. by destruct th. }
  do 2 (apply Hgo; [done|]). revert Ho3. by apply ord_still; [apply still_same|..]; auto.
Qed.

Lemma ord_ext e s s' : wf s → typed s → ext e s = Some s' → ord s → ord s'.
Proof.
  intros Hwf Hty Hs Ho. revert Hs.
  assert (∀ t th s', chans s' = chans s → published (vars s') = published (vars s) →
    pobjs (vars s') = pobjs (vars s) → threads s' = <[t := th]> (threads s) → critical th = false →
    ord s') as Hmove.
  { intros t th s1 H1 H2 H3 H4 Hcr. revert Ho. apply (ord_goto t th); [by apply still_same|done..|].
    by destruct th. }
  assert (∀ s', chans s' = chans s → published (vars s') = published (vars s) →
    pobjs (vars s') = pobjs (vars s) → threads s' = threads s → ord s') as Hsame.
  { intros s1 H1 H2 H3 H4. revert Ho. apply ord_still; [by apply still_same|done|rewrite H3; by left|].
    rewrite H4. by left. }
  destruct e; cbn [ext].
  - intros [(Hf & _ & Hn & _) [= <-]]%guard_bind_Some. by apply ord_SendMsg.
  - destruct (threads s !! t) as [[]|] eqn:Ht; try done. intros [= <-]. unfold SendMsg_next.
    destruct l as [|q l]; [by eapply Hmove|]. revert Ho.
    apply (ord_goto t (SendTry m q l)); [by apply still_same|done..|]. intros Ho.
    exact (ord_th _ Ho _ _ Ht).
  - destruct (threads s !! t) as [[]|] eqn:Ht; try done. intros [_ [= <-]]%guard_bind_Some.
    by apply Hsame.
  - destruct (threads s !! t) as [[]|] eqn:Ht; try done. intros [= <-]. by eapply Hmove.
  - destruct (threads s !! t) as [[]|] eqn:Ht; try done. intros Hs.
    apply bind_Some in Hs as (po & Hpo & [= <-]). unfold sender_sent. destruct e; by eapply Hmove.
  - destruct (threads s !! t) as [[]|] eqn:Ht; try done. intros [= <-]. by eapply Hmove.
  - intros [_ [= <-]]%guard_bind_Some. unfold SetOption. destruct (String.eqb name _); [|done].
    destruct v; try done. destruct (0 <=? z)%Z; [|done]. by apply Hsame.
  - intros [_ [= <-]]%guard_bind_Some. unfold Close. destruct (closed (vars s)); [done|]. by apply Hsame.
  - intros [_ [= <-]]%guard_bind_Some. by apply ord_AddPipe.
  - intros Hs. apply bind_Some in Hs as (po & Hpo & [_ [= <-]]%guard_bind_Some). unfold RemovePipe.
    set (s1 := set_vars _ s). assert (ord s1) as Ho1 by by apply Hsame. revert Ho1.
    apply ord_still; [apply still_close_chan|by rewrite vars_close_chan|..].
    + rewrite vars_close_chan. by left.
    + rewrite threads_close_chan. by left.
Qed.

Lemma reachable_ord s : reachable step init ok s → good s ∧ ord s.
Proof.
  revert s. apply (reachable_invariant _ _ _ (λ s, good s ∧ ord s)).
  - intros s ->. split; [by apply xpub_init_good|by split].
  - intros l s s' [[Hwf Hown Hty] Ho] _ Hs. destruct (gstep_ok ext _ _ _ Hwf Hty Hs) as [Ha ? ?].
    split; [split; [by apply Ha|auto|auto]|].
    apply guard_bind_Some in Hs as [_ Hs]. destruct l as [t i r|t|e].
    + apply bind_Some in Hs as (th & Ht & Hs). by eapply ord_case.
    + apply bind_Some in Hs as (th & Ht & [[Hd Hrd] Hs]%guard_bind_Some).
      apply (inj Some) in Hs. subst s'. apply ord_resume; [done|].
      apply paced_default; [done|]. by eapply ord_th.
    + by eapply ord_ext.
Qed.

(** A message is dropped for the queue [q] only if there is no room: the
    default case of the [select] needs a full queue. *)
Definition full (s : state) (q : chid) : Prop :=
  ∃ ch, chans s !! q = Some ch ∧ length (buf ch) = cap ch.

(** C25. Every subscriber's pipe gets the published messages in the order of
    publication, none twice and none that was not published: what was ever put
    on a pipe's queue is a subsequence of what was published, and the pipe's
    sender takes it off in that order.  [SendMsg] passes over a pipe only when
    its queue is full. *)
Theorem xpub_in_order s (H : reachable step init ok s) :
  (∀ p po, pobjs (vars s) !! p = Some po →
     ∃ ch, chans s !! p_sendq po = Some ch ∧ outs ch ++ buf ch `sublist_of` published (vars s)) ∧
  (∀ t p m, threads s !! t = Some (Sending p m) → m ∈ published (vars s)) ∧
  (∀ t m q l s', threads s !! t = Some (SendTry m q l) → step (LDefault t) s = Some s' → full s q).
Proof.
  destruct (reachable_ord s H) as [[Hwf _ [_ Ht Hv]] [O1 O2 O3]]. split_and!.
  - intros p po Hpo. destruct (O2 _ _ Hpo) as [ch Hch]. exists ch. split; [done|].
    rewrite <-(proj1 (wf_chan _ Hwf _ _ Hch)). apply (O1 (p_sendq po)); [|done].
    exists p. by apply (Hv p).
  - intros t p m Hth. exact (Ht _ _ Hth).
  - intros t m q l s' Hth [_ Hs]%guard_bind_Some. apply bind_Some in Hs as (th & Hth' & Hs).
    apply guard_bind_Some in Hs as [[_ Hr] _]. simplify_eq.
    destruct (O3 _ _ Hth) as (pre & _ & _ & Hq). destruct (Hq q) as (ch & Hch & _); [by left|].
    exists ch. split; [done|]. cbn in Hr. rewrite Hch in Hr.
    destruct (wf_chan _ Hwf _ _ Hch) as [_ Hle].
    destruct (cclosed ch); [done|]. destruct (decide (length (buf ch) < cap ch)); [|lia].
    by rewrite bool_decide_eq_true_2 in Hr by done.
Qed.

Definition news (n : nat) : msg := mkMsg [] [Byte.x61] None n.
(** Queues of one: the second message is dropped for the pipe that is busy. *)
Definition xpub_run : state :=
  play step (λ _ _, true)
    [LExt (ESetOption OptionWriteQLen (VInt 1)); LExt (EAddPipe 0 7);
     LExt (ESend (news 0) [0]); LExt (ENext 4); LCase 4 0 None; LExt (ENext 4);
     LExt (ESend (news 1) [0]); LExt (ENext 5)] NewProtocol.

Lemma xpub_in_order_witness :
  buf <$> chans xpub_run !! (KSend 0, 1) = Some [news 0] ∧
  published (vars xpub_run) = [news 0; news 1] ∧ full xpub_run (KSend 0, 1).
Proof.
  assert (reachable step init ok xpub_run) as Hr by (by apply play_reachable; [intros ? []|]).
  split_and!; [by vm_compute|by vm_compute|].
  destruct (xpub_in_order xpub_run Hr) as (_ & _ & Hfull).
  destruct (step (LDefault 5) xpub_run) as [s'|] eqn:E; [|by vm_compute in E].
  eapply (Hfull 5 (news 1) _ [] s'); [by vm_compute|done].
Defined.
