(* ===== verification/XPair1.v ===== *)
(** * XPair1: the raw PAIR1 protocol

    [src/protocol/xpair1/xpair1.go], complete, as a program of [Chan]: PAIR
    with a hop count in the header.  A message that comes from a pipe has one
    reference, so [MakeUnique] in [receiver] does nothing. *)
From stdpp Require Import gmap list strings fin_maps.
From Stdlib Require Import ZArith Lia.
From S2P Require Import Prelude Types Chan Backtrace.

(** The channels: those that only get closed, [recvQ] and [sendQ]. *)
Inductive kind := KSignal | KRecv | KSend.
#[export] Instance kind_eq_dec : EqDecision kind.
Proof. solve_decision. Defined.
#[export] Instance kind_countable : Countable kind.
Proof.
  refine (inj_countable'
    (λ k, match k with KSignal => 0 | KRecv => 1 | KSend => 2 end)
    (λ x, match x with 0 => KSignal | 1 => KRecv | _ => KSend end) _).
  by intros [].
Defined.
Abbreviation chid := (kind * nat)%type.

Abbreviation pid := nat.
Record pipe := mkPipe { p_closeQ : chid }.

Record socket := mkSocket {
  closed : bool;
  peer : option pid;
  recvQ : chid;
  sendQ : chid;
  closeQ : chid;
  sizeQ : chid;
  recvExpire : Z;
  sendExpire : Z;
  sendQLen : Z;
  recvQLen : Z;
  bestEffort : bool;
  ttl : Z;
  pobjs : gmap pid pipe;
  removed : gset pid;
  pclosed : gset pid;
  submitted : list msg;
  arrived : list (msg * Z)      (* what came from a pipe, with the TTL at that time *)
}.
#[export] Instance eta_socket : Eta socket := λ s,
  mkSocket (closed s) (peer s) (recvQ s) (sendQ s) (closeQ s) (sizeQ s) (recvExpire s) (sendExpire s)
    (sendQLen s) (recvQLen s) (bestEffort s) (ttl s) (pobjs s) (removed s) (pclosed s)
    (submitted s) (arrived s).

Definition defaultQLen : Z := 128.

(** Program points.  [tq]: a timer channel is part of the [select]. *)
Inductive thread :=
  | SendTry (q zq cq : chid) (m : msg) (tq be : bool)
  | SendWait (q zq cq : chid) (m : msg) (tq be : bool)
  | SendRet (e : error) (back : option msg)   (* SendMsg returned; the caller keeps [back] *)
  | RecvTop                                   (* RecvMsg, before s.Lock() *)
  | RecvTry (rq zq cq : chid) (tq : bool)
  | RecvWait (rq zq cq : chid) (tq : bool)
  | RecvRet (r : result msg)
  | Receiver (p : pid)                        (* in p.p.RecvMsg() *)
  | RecvPut (p : pid) (m : msg) (rq zq cq : chid)
  | SenderTop (p : pid)                       (* sender, before s.Lock() *)
  | Sender (p : pid) (q zq cq : chid)         (* at the select of sender *)
  | Sending (p : pid) (m : msg)               (* in p.p.SendMsg(m) *)
  | PipeClose (p : pid)                       (* about to call p.p.Close() *)
  | CloseChan (c : chid)                      (* about to close a channel *)
  | Done.

Definition timer (tq : bool) : list (op kind msg) := if tq then [OTime] else [].

Definition sel (th : thread) : list (op kind msg) :=
  match th with
  | SendTry q zq cq m tq be => [OSend q m]
  | SendWait q zq cq m tq be => [ORecv cq; ORecv zq; OSend q m] ++ timer tq
  | RecvTry rq zq cq tq => [ORecv rq]
  | RecvWait rq zq cq tq => [ORecv cq; ORecv rq; ORecv zq] ++ timer tq
  | RecvPut p m rq zq cq => [OSend rq m; ORecv zq; ORecv cq]
  | Sender p q zq cq => [ORecv q; ORecv zq; ORecv cq]
  | _ => []
  end.
Definition dflt (th : thread) : bool :=
  match th with SendTry _ _ _ _ _ _ | RecvTry _ _ _ _ => true | _ => false end.

(** After a case.  [recvQ] and [sendQ] are never closed, so a receive from
    them brings a message. *)
Definition res (th : thread) (i : option nat) (v : option msg) : thread * list msg :=
  match th, i with
  | SendTry q zq cq m tq be, None => (SendWait q zq cq m tq be, [])
  | SendTry q zq cq m tq be, Some _ => (SendRet None None, [])
  | SendWait q zq cq m tq be, Some 0 => (SendRet (Some ErrClosed) (Some m), [])
  | SendWait q zq cq m tq be, Some 1 => (SendRet None None, [m])
  | SendWait q zq cq m tq be, Some 2 => (SendRet None None, [])
  | SendWait q zq cq m tq be, Some _ =>
      if be then (SendRet None None, [m]) else (SendRet (Some ErrSendTimeout) (Some m), [])
  | RecvTry rq zq cq tq, None => (RecvWait rq zq cq tq, [])
  | RecvTry rq zq cq tq, Some _ =>
      (match v with Some m => RecvRet (Ok m) | None => RecvTop end, [])
  | RecvWait rq zq cq tq, Some 0 => (RecvRet (Err ErrClosed), [])
  | RecvWait rq zq cq tq, Some 1 =>
      (match v with Some m => RecvRet (Ok m) | None => RecvTop end, [])
  | RecvWait rq zq cq tq, Some 2 => (RecvTop, [])
  | RecvWait rq zq cq tq, Some _ => (RecvRet (Err ErrRecvTimeout), [])
  | RecvPut p m rq zq cq, Some 0 => (Receiver p, [])
  | RecvPut p m rq zq cq, Some 1 => (Receiver p, [m])
  | RecvPut p m rq zq cq, Some _ => (PipeClose p, [m])
  | Sender p q zq cq, Some 0 => (match v with Some m => Sending p m | None => PipeClose p end, [])
  | Sender p q zq cq, Some 1 => (SenderTop p, [])
  | Sender p q zq cq, Some _ => (PipeClose p, [])
  | th, _ => (th, [])
  end.

#[export] Instance xpair1_program : Program kind msg thread :=
  { select := sel; has_default := dflt; resume := res }.

Abbreviation state := (st kind msg socket thread).

(** ** The critical sections *)

(** The header [SendMsg] asks for: four bytes or more, the first three zero. *)
Definition header_ok (h : bytes) : bool :=
  match h with
  | b0 :: b1 :: b2 :: _ :: _ =>
      bool_decide (b0 = Byte.x00 ∧ b1 = Byte.x00 ∧ b2 = Byte.x00)
  | _ => false
  end.

(** [SendMsg], up to the first [select]. *)
Definition SendMsg (m : msg) (s : state) : state :=
  let s := set_vars (λ σ, σ <| submitted ::= (λ l, l ++ [m]) |>) (give [m] s) in
  let σ := vars s in
  if negb (header_ok (mhdr m)) then go (SendRet None None) (free [m] s)
  else if closed σ then go (SendRet (Some ErrClosed) (Some m)) s
  else
    let tq := bestEffort σ || negb (sendExpire σ =? 0)%Z in
    go (SendTry (sendQ σ) (sizeQ σ) (closeQ σ) m tq (bestEffort σ)) s.

(** [RecvMsg], from the top of its loop to the first [select]. *)
Definition RecvMsg_top (s : state) : thread :=
  let σ := vars s in
  RecvTry (recvQ σ) (sizeQ σ) (closeQ σ) (negb (recvExpire σ =? 0)%Z).

(** [receiver]: what it makes of a message ([None]: it is freed). *)
Definition pair1_receive (ttl : Z) (m : msg) : option msg :=
  if decide (length (mbody m) < 4) then None
  else
    let hops := uint32_of (take 4 (mbody m)) in
    if ((255 <=? hops) || (ttl <? hops))%Z then None
    else Some (m <| mhdr := <[3 := byte_of_Z (hops + 1)]> (mhdr m ++ take 4 (mbody m)) |>
                 <| mbody := drop 4 (mbody m) |>).

(** [receiver], when [p.p.RecvMsg()] has returned [m]. *)
Definition receiver_turn (t : thid) (p : pid) (po : pipe) (m : msg) (s : state) : state :=
  let s := set_vars (λ σ, σ <| arrived ::= (λ l, l ++ [(m, ttl (vars s))]) |>) (give [m] s) in
  let σ := vars s in
  match pair1_receive (ttl σ) m with
  | None => free [m] s
  | Some m => set_thread t (RecvPut p m (recvQ σ) (sizeQ σ) (p_closeQ po)) s
  end.

(** [sender]: the top of its loop, and the return of [p.p.SendMsg(m)]. *)
Definition sender_top (p : pid) (po : pipe) (s : state) : thread :=
  Sender p (sendQ (vars s)) (sizeQ (vars s)) (p_closeQ po).
Definition sender_sent (t : thid) (p : pid) (m : msg) (e : error) (s : state) : state :=
  match e with
  | Some _ => set_thread t (PipeClose p) (free [m] s)
  | None => set_thread t (SenderTop p) (pass [m] s)
  end.

Definition pipe_close (t : thid) (p : pid) (s : state) : state :=
  set_thread t Done (set_vars (λ σ, σ <| pclosed ::= (λ x, {[p]} ∪ x) |>) s).

(** The queue-length options: a new queue, and a new [sizeQ] in place of the
    one that gets closed. *)
Definition resize (k : kind) (f : chid → socket → socket) (z : Z) (s : state) : state :=
  let '(q, s) := make_chan k (Z.to_nat z) s in
  let '(zq, s) := make_chan KSignal 0 s in
  let old := sizeQ (vars s) in
  go (CloseChan old) (set_vars (λ σ, f q σ <| sizeQ := zq |>) s).

Definition SetOption (name : string) (v : value) (s : state) : error * state :=
  if String.eqb name OptionRecvDeadline then
    match v with
    | VDuration d => (None, set_vars (λ σ, σ <| recvExpire := d |>) s)
    | _ => (Some ErrBadValue, s)
    end
  else if String.eqb name OptionSendDeadline then
    match v with
    | VDuration d => (None, set_vars (λ σ, σ <| sendExpire := d |>) s)
    | _ => (Some ErrBadValue, s)
    end
  else if String.eqb name OptionBestEffort then
    match v with
    | VBool b => (None, set_vars (λ σ, σ <| bestEffort := b |>) s)
    | _ => (Some ErrBadValue, s)
    end
  else if String.eqb name OptionWriteQLen then
    match v with
    | VInt z => if (0 <=? z)%Z
                then (None, resize KSend (λ q σ, σ <| sendQLen := z |> <| sendQ := q |>) z s)
                else (Some ErrBadValue, s)
    | _ => (Some ErrBadValue, s)
    end
  else if String.eqb name OptionReadQLen then
    match v with
    | VInt z => if (0 <=? z)%Z
                then (None, resize KRecv (λ q σ, σ <| recvQLen := z |> <| recvQ := q |>) z s)
                else (Some ErrBadValue, s)
    | _ => (Some ErrBadValue, s)
    end
  else if String.eqb name OptionTTL then
    match v with
    | VInt z => if ((0 <? z) && (z <? 256))%Z then (None, set_vars (λ σ, σ <| ttl := z |>) s)
                else (Some ErrBadValue, s)
    | _ => (Some ErrBadValue, s)
    end
  else (Some ErrBadOption, s).

Definition GetOption (name : string) (σ : socket) : result value :=
  if String.eqb name OptionRaw then Ok (VBool true)
  else if String.eqb name OptionRecvDeadline then Ok (VDuration (recvExpire σ))
  else if String.eqb name OptionSendDeadline then Ok (VDuration (sendExpire σ))
  else if String.eqb name OptionBestEffort then Ok (VBool (bestEffort σ))
  else if String.eqb name OptionWriteQLen then Ok (VInt (sendQLen σ))
  else if String.eqb name OptionReadQLen then Ok (VInt (recvQLen σ))
  else if String.eqb name OptionTTL then Ok (VInt (ttl σ))
  else Err ErrBadOption.

Definition Close (s : state) : error * state :=
  if closed (vars s) then (Some ErrClosed, s)
  else (None, go (CloseChan (closeQ (vars s))) (set_vars (λ σ, σ <| closed := true |>) s)).

(** [AddPipe]: a second peer is refused. *)
Definition AddPipe (p : pid) (s : state) : error * state :=
  if closed (vars s) then (Some ErrClosed, s)
  else match peer (vars s) with
  | Some _ => (Some ErrProtoState, s)
  | None =>
      let '(cq, s) := make_chan KSignal 0 s in
      let s := set_vars (λ σ, σ <| pobjs ::= <[p := mkPipe cq]> |> <| peer := Some p |>) s in
      (None, go (SenderTop p) (go (Receiver p) s))
  end.

Definition RemovePipe (p : pid) (s : state) : state :=
  if decide (peer (vars s) = Some p) then
    match pobjs (vars s) !! p with
    | Some po =>
        close_chan (p_closeQ po)
          (set_vars (λ σ, σ <| peer := None |> <| removed ::= (λ x, {[p]} ∪ x) |>) s)
    | None => s <| crashed := true |>
    end
  else s.

Definition OpenContext : error := Some ErrProtoOp.
Definition Info : ProtocolInfo := mkInfo ProtoPair1 ProtoPair1 "pair1" "pair1".

Definition NewProtocol : state :=
  let cq := (KSignal, 0) in
  let zq := (KSignal, 1) in
  let rq := (KRecv, 2) in
  let sq := (KSend, 3) in
  mkSt (mkSocket false None rq sq cq zq 0 0 defaultQLen defaultQLen false 8 ∅ ∅ ∅ [] [])
    {[cq := mkChan [] 0 false [] []; zq := mkChan [] 0 false [] [];
      rq := mkChan [] (Z.to_nat defaultQLen) false [] [];
      sq := mkChan [] (Z.to_nat defaultQLen) false [] []]} ∅ 4 [] [] [] false.

(** ** The program *)
Inductive event :=
  | ESend (m : msg)                    (* the application calls SendMsg *)
  | ERecv                              (* ... RecvMsg *)
  | ERecvTop (t : thid)                (* RecvMsg gets the lock *)
  | EPipeRecv (t : thid) (m : msg)     (* p.p.RecvMsg() returns *)
  | EPipeRecvNil (t : thid)
  | ESenderTop (t : thid)              (* sender gets the lock *)
  | EPipeSent (t : thid) (e : error)   (* p.p.SendMsg() returns *)
  | EPipeClose (t : thid)
  | ECloseChan (t : thid)
  | ESetOption (name : string) (v : value)
  | EClose
  | EAddPipe (p : pid)
  | ERemovePipe (p : pid).

(** New messages and pipe objects have identities of their own. *)
Definition ext (e : event) (s : state) : option state :=
  match e with
  | ESend m => guard (mref m ∉ mref <$> given s);; Some (SendMsg m s)
  | ERecv => Some (go RecvTop s)
  | ERecvTop t =>
      match threads s !! t with
      | Some RecvTop => Some (set_thread t (RecvMsg_top s) s)
      | _ => None
      end
  | EPipeRecv t m =>
      match threads s !! t with
      | Some (Receiver p) =>
          po ← pobjs (vars s) !! p;
          guard (mref m ∉ mref <$> given s ∧ mhdr m = []);;
          Some (receiver_turn t p po m s)
      | _ => None
      end
  | EPipeRecvNil t =>
      match threads s !! t with
      | Some (Receiver p) => Some (set_thread t (PipeClose p) s)
      | _ => None
      end
  | ESenderTop t =>
      match threads s !! t with
      | Some (SenderTop p) =>
          po ← pobjs (vars s) !! p; Some (set_thread t (sender_top p po s) s)
      | _ => None
      end
  | EPipeSent t e =>
      match threads s !! t with
      | Some (Sending p m) => Some (sender_sent t p m e s)
      | _ => None
      end
  | EPipeClose t =>
      match threads s !! t with
      | Some (PipeClose p) => Some (pipe_close t p s)
      | _ => None
      end
  | ECloseChan t =>
      match threads s !! t with
      | Some (CloseChan c) => Some (set_thread t Done (close_chan c s))
      | _ => None
      end
  | ESetOption name v => Some (snd (SetOption name v s))
  | EClose => Some (snd (Close s))
  | EAddPipe p => guard (pobjs (vars s) !! p = None);; Some (snd (AddPipe p s))
  | ERemovePipe p => Some (RemovePipe p s)
  end.

Definition init (s : state) : Prop := s = NewProtocol.
Definition step : label event → state → option state := gstep ext.
Definition ok : state → label event → Prop := gok (λ _ _, True).

(** ** Ownership *)
Definition holding (th : thread) : list msg :=
  match th with
  | SendTry _ _ _ m _ _ | SendWait _ _ _ m _ _ | SendRet _ (Some m) | RecvRet (Ok m)
  | RecvPut _ m _ _ _ | Sending _ m => [m]
  | _ => []
  end.

#[export] Instance xpair1_owns : Owns (K := kind) (A := msg) (T := thread).
Proof.
  refine {| holds := holding |}.
  - intros th i o v x Hsel Hv.
    destruct th; try (destruct tq); cbn in Hsel; select_cases Hsel; cbn in *; subst;
      try (destruct v); try (destruct be); owns_lia.
  - intros th x Hd. destruct th; try done; owns_lia.
Defined.

(** ** What the channels carry *)

(** What the application sent, with a good header, and what came from a pipe. *)
Definition sendable (σ : socket) (m : msg) : Prop := m ∈ submitted σ ∧ header_ok (mhdr m) = true.
Definition brought (σ : socket) (m : msg) : Prop :=
  ∃ m0 n, (m0, n) ∈ arrived σ ∧ mhdr m0 = [] ∧ pair1_receive n m0 = Some m.

Definition ctype (σ : socket) (c : chid) (m : msg) : Prop :=
  match c.1 with
  | KSend => sendable σ m
  | KRecv => brought σ m
  | KSignal => False
  end.

Definition ttype (σ : socket) (th : thread) : Prop :=
  match th with
  | SendTry q _ _ m _ _ | SendWait q _ _ m _ _ => ctype σ q m ∧ m ∈ submitted σ
  | SendRet _ (Some m) => m ∈ submitted σ
  | RecvTry rq _ _ _ | RecvWait rq _ _ _ => rq.1 = KRecv
  | RecvRet (Ok m) => brought σ m
  | RecvPut _ m rq _ _ => ctype σ rq m
  | Sender _ q _ _ => q.1 = KSend
  | Sending _ m => sendable σ m
  | _ => True
  end.

(** Every pipe that was accepted is the peer, or was removed. *)
Record vtype (σ : socket) : Prop := {
  vt_recvQ : (recvQ σ).1 = KRecv;
  vt_sendQ : (sendQ σ).1 = KSend;
  vt_ttl : (0 < ttl σ < 256)%Z;
  vt_peer p : is_Some (pobjs σ !! p) → peer σ = Some p ∨ p ∈ removed σ;
  vt_there p : peer σ = Some p → is_Some (pobjs σ !! p) ∧ p ∉ removed σ;
  vt_removed p : p ∈ removed σ → is_Some (pobjs σ !! p)
}.

#[export] Instance xpair1_typed : Typed (K := kind) (A := msg) (S := socket) (T := thread).
Proof.
  refine {| vars_type := vtype; chan_type := ctype; thread_type := λ σ _ th, ttype σ th |}.
  - intros σ t th i o v Hsel Hth Hv.
    destruct th; try (destruct tq); cbn in Hsel; select_cases Hsel; cbn in Hth;
      try (destruct v as [m'|]); try done; cbn.
    all: try (destruct be; naive_solver).
    all: unfold ctype in Hv; rewrite Hth in Hv; done.
  - intros σ t th Hd Hth. destruct th; done.
Defined.

(** The variables grow. *)
Record vle (σ σ' : socket) : Prop := {
  le_sub m : m ∈ submitted σ → m ∈ submitted σ';
  le_arr x : x ∈ arrived σ → x ∈ arrived σ'
}.

Lemma xpair1_brought_mono σ σ' m : vle σ σ' → brought σ m → brought σ' m.
Proof. intros [Hs Ha] (m0 & n & ? & ? & ?). exists m0, n. auto. Qed.
Lemma xpair1_sendable_mono σ σ' m : vle σ σ' → sendable σ m → sendable σ' m.
Proof. intros [Hs Ha] [? ?]. split; auto. Qed.
Lemma xpair1_ctype_mono σ σ' c m : vle σ σ' → ctype σ c m → ctype σ' c m.
Proof.
  intros Hle. unfold ctype. destruct (c.1); [done|by apply xpair1_brought_mono|by apply xpair1_sendable_mono].
Qed.
Lemma xpair1_ttype_mono σ σ' th : vle σ σ' → ttype σ th → ttype σ' th.
Proof.
  intros Hle. pose proof Hle as [Hs Ha].
  destruct th; simpl; try done.
  - intros [? ?]. split; [by eapply xpair1_ctype_mono|auto].
  - intros [? ?]. split; [by eapply xpair1_ctype_mono|auto].
  - destruct back; auto.
  - destruct r; [by apply xpair1_brought_mono|done].
  - by apply xpair1_ctype_mono.
  - by apply xpair1_sendable_mono.
Qed.

Lemma xpair1_okstep_vle f (s : state) :
  vle (vars s) (f (vars s)) → (vtype (vars s) → vtype (f (vars s))) → okstep s (set_vars f s).
Proof.
  intros Hle Hv. apply okstep_vars; [done|..].
  - intros c a _. by apply xpair1_ctype_mono.
  - intros t th _ _. by apply xpair1_ttype_mono.
Qed.
Lemma xpair1_okstep_plain f (s : state) :
  (∀ σ, submitted (f σ) = submitted σ ∧ arrived (f σ) = arrived σ ∧
     recvQ (f σ) = recvQ σ ∧ sendQ (f σ) = sendQ σ ∧ ttl (f σ) = ttl σ ∧ peer (f σ) = peer σ ∧
     pobjs (f σ) = pobjs σ ∧ removed (f σ) = removed σ) → okstep s (set_vars f s).
Proof.
  intros Hf. destruct (Hf (vars s)) as (Es & Ea & Er & Eq & El & Ep & Eo & Em). apply xpair1_okstep_vle.
  - split; by rewrite ?Es, ?Ea.
  - intros [H1 H2 H0 H3 H4 H5]. split; rewrite ?Er, ?Eq, ?El, ?Ep, ?Eo, ?Em; auto.
Qed.

(** ** The critical sections keep everything *)
Lemma xpair1_okstep_SendMsg m s : wf s → okstep s (SendMsg m s).
Proof.
  intros Hwf. unfold SendMsg.
  set (f := λ σ : socket, σ <| submitted ::= (λ l, l ++ [m]) |>).
  change (set_vars f (give [m] s)) with (give [m] (set_vars f s)).
  assert (okstep s (set_vars f s)) as Hok.
  { apply xpair1_okstep_vle; [split; simpl; set_solver|]. intros []. by split. }
  assert (m ∈ submitted (vars (set_vars f s))) as Hm by (simpl; set_solver).
  assert (wf (set_vars f s)) as Hwf1 by by apply Hok.
  revert Hok Hwf1 Hm. generalize (set_vars f s) as s1. clear f. intros s1 Hok Hwf1 Hm.
  etrans; [exact Hok|]. clear Hok. change (vars (give [m] s1)) with (vars s1).
  destruct (header_ok (mhdr m)) eqn:Hh; simpl;
    [|apply (okstep_spawn _ [m]); [done|accounting|done]].
  destruct (closed (vars s1)); (apply (okstep_spawn _ [m]); [done|accounting|]); [done|].
  intros Hty. split; [|done]. unfold ctype. by rewrite (vt_sendQ _ (ty_vars _ Hty)).
Qed.

Lemma xpair1_okstep_receiver_turn t p po m s :
  wf s → mhdr m = [] → threads s !! t = Some (Receiver p) → okstep s (receiver_turn t p po m s).
Proof.
  intros Hwf Hm0 Ht. unfold receiver_turn.
  set (f := λ σ : socket, σ <| arrived ::= (λ l, l ++ [(m, ttl (vars s))]) |>).
  change (set_vars f (give [m] s)) with (give [m] (set_vars f s)).
  assert (okstep s (set_vars f s)) as Hok.
  { apply xpair1_okstep_vle; [split; simpl; set_solver|]. intros []. by split. }
  assert ((m, ttl (vars (set_vars f s))) ∈ arrived (vars (set_vars f s))) as Hm by (simpl; set_solver).
  assert (threads (set_vars f s) !! t = Some (Receiver p)) as Ht1 by done.
  revert Hok Hm Ht1. generalize (set_vars f s) as s1. clear f. intros s1 Hok Hm Ht1.
  etrans; [exact Hok|]. clear Hok. change (vars (give [m] s1)) with (vars s1).
  destruct (pair1_receive (ttl (vars s1)) m) as [m'|] eqn:Hr.
  - assert (mref m' = mref m) as Href.
    { unfold pair1_receive in Hr. case_decide; [done|]. destruct (_ || _); [done|].
      apply (inj Some) in Hr. by rewrite <-Hr. }
    apply (okstep_goto t (Receiver p) _ [m]); [done| |].
    + split; [reflexivity..|done|]. intros x. owns_lia.
    + intros Hty. simpl. unfold ctype. rewrite (vt_recvQ _ (ty_vars _ Hty)).
      by exists m, (ttl (vars s1)).
  - apply (okstep_account [m]). accounting.
Qed.

Lemma xpair1_okstep_resize k f z s :
  wf s →
  (∀ q σ, submitted (f q σ) = submitted σ ∧ arrived (f q σ) = arrived σ) →
  (∀ n σ, vtype σ → vtype (f (k, n) σ)) → okstep s (resize k f z s).
Proof.
  intros Hwf Hf Hv. unfold resize. destruct (make_chan k _ s) as [q s1] eqn:E1.
  destruct (okstep_make_chan _ _ _ _ _ Hwf E1) as (Hok1 & Hwf1 & -> & _ & _).
  destruct (make_chan KSignal _ s1) as [zq s2] eqn:E2.
  destruct (okstep_make_chan _ _ _ _ _ Hwf1 E2) as (Hok2 & Hwf2 & _ & _ & _).
  etrans; [exact Hok1|]. etrans; [exact Hok2|].
  set (g := λ σ : socket, f _ σ <| sizeQ := _ |>).
  etrans; [apply (xpair1_okstep_vle g)|apply okstep_go; [by apply wf_vars|done|done]].
  - destruct (Hf (k, fresh s) (vars s2)) as [E3 E4]. split; simpl; by rewrite ?E3, ?E4.
  - intros Hv2%(Hv (fresh s)). by destruct Hv2; split.
Qed.

Lemma xpair1_okstep_SetOption name v s : wf s → okstep s (snd (SetOption name v s)).
Proof.
  intros Hwf. unfold SetOption.
  do 3 (destruct (String.eqb name _); [destruct v; try reflexivity; by apply xpair1_okstep_plain|]).
  do 2 (destruct (String.eqb name _);
    [destruct v; try reflexivity; destruct (0 <=? z)%Z; [|reflexivity];
     apply xpair1_okstep_resize; [done|done|]; intros n σ []; by split|]).
  destruct (String.eqb name _); [|reflexivity]. destruct v; try reflexivity.
  destruct ((0 <? z) && (z <? 256))%Z eqn:Hz; [|reflexivity].
  apply xpair1_okstep_vle; [by split|]. intros []. split; try done. simpl. lia.
Qed.

Lemma xpair1_okstep_AddPipe p s :
  wf s → pobjs (vars s) !! p = None → okstep s (snd (AddPipe p s)).
Proof.
  intros Hwf Hp. unfold AddPipe. destruct (closed (vars s)); [reflexivity|].
  destruct (peer (vars s)) as [p'|] eqn:Hpeer; [reflexivity|].
  destruct (make_chan KSignal _ s) as [cq s1] eqn:E1.
  destruct (okstep_make_chan _ _ _ _ _ Hwf E1) as (Hok1 & Hwf1 & _ & Hv1 & _).
  etrans; [exact Hok1|].
  set (s2 := set_vars _ s1). assert (okstep s1 s2) as Hok2.
  { apply xpair1_okstep_vle; [by split|]. rewrite <-Hv1 in Hp, Hpeer. intros [H1 H2 H0 H3 H4 H5].
    split; simpl; [done|done|done|..].
    - intros k. rewrite lookup_insert_is_Some'. intros [->|[?|?]%H3]; [by left|congruence|by right].
    - intros k [= <-]. split; [by rewrite lookup_insert_eq|]. intros [? ?]%H5. congruence.
    - intros k Hk%H5. rewrite lookup_insert_is_Some'. by right. }
  etrans; [exact Hok2|]. assert (wf s2) as Hwf2 by by apply Hok2. clearbody s2. cbn [snd].
  etrans; [by apply (okstep_go (Receiver p))|]. by apply okstep_go; [apply wf_go|..].
Qed.

Lemma xpair1_okstep_RemovePipe p s : okstep s (RemovePipe p s).
Proof.
  unfold RemovePipe. case_decide as Hp; [|reflexivity].
  destruct (pobjs (vars s) !! p) as [po|] eqn:Hpo; [|by apply (okstep_account []); accounting].
  etrans; [|apply okstep_close_chan]. apply xpair1_okstep_vle; [by split|].
  intros [H1 H2 H0 H3 H4 H5]. split; simpl; [done|done|done| |done|].
  - intros k [Hk|Hk]%H3; [|set_solver]. simplify_eq. set_solver.
  - intros k [->%elem_of_singleton|Hk]%elem_of_union; [by rewrite Hpo|auto].
Qed.

#[export] Instance xpair1_ok : ExtOk ext.
Proof.
  intros e s s' Hwf _. destruct e; cbn [ext].
  - intros [_ [= <-]]%guard_bind_Some. by apply xpair1_okstep_SendMsg.
  - intros [= <-]. by apply okstep_go.
  - destruct (threads s !! t) as [[]|] eqn:Ht; try done. intros [= <-].
    eapply okstep_set_thread; [done|count|]. intros Hty. by destruct (ty_vars _ Hty).
  - destruct (threads s !! t) as [[]|] eqn:Ht; try done. intros Hs.
    apply bind_Some in Hs as (po & Hpo & [[_ Hm0] [= <-]]%guard_bind_Some).
    by apply xpair1_okstep_receiver_turn.
  - destruct (threads s !! t) as [[]|] eqn:Ht; try done. intros [= <-].
    eapply okstep_set_thread; [done|count|done].
  - destruct (threads s !! t) as [[]|] eqn:Ht; try done. intros Hs.
    apply bind_Some in Hs as (po & Hpo & [= <-]).
    eapply okstep_set_thread; [done|count|]. intros Hty. by destruct (ty_vars _ Hty).
  - destruct (threads s !! t) as [[]|] eqn:Ht; try done. intros [= <-].
    unfold sender_sent. destruct e as [e|].
    + eapply (okstep_goto t _ _ []); [done|accounting|done].
    + eapply (okstep_goto t _ _ []); [done|accounting|done].
  - destruct (threads s !! t) as [[]|] eqn:Ht; try done. intros [= <-]. unfold pipe_close.
    etrans; [by apply (xpair1_okstep_plain (λ σ, σ <| pclosed ::= (λ x, {[p]} ∪ x) |>))|].
    by eapply okstep_stop.
  - destruct (threads s !! t) as [[]|] eqn:Ht; try done. intros [= <-].
    etrans; [apply (okstep_close_chan c)|]. eapply okstep_stop; [by rewrite threads_close_chan|done|done].
  - intros [= <-]. by apply xpair1_okstep_SetOption.
  - intros [= <-]. unfold Close. destruct (closed (vars s)); [reflexivity|].
    etrans; [by apply (xpair1_okstep_plain (λ σ, σ <| closed := true |>))|].
    apply okstep_go; [by apply wf_vars|done|done].
  - intros [Hp [= <-]]%guard_bind_Some. by apply xpair1_okstep_AddPipe.
  - intros [= <-]. apply xpair1_okstep_RemovePipe.
Qed.

Lemma xpair1_init_good s : init s → good s ∧ refs_unique s.
Proof.
  intros ->. split; [|by apply NoDup_nil_2]. start_good.
  split; simpl; [done|done|lia|by intros p [? ?]|done|set_solver].
Qed.

Lemma xpair1_ext_refs_unique e s s' : ext e s = Some s' → refs_unique s → refs_unique s'.
Proof.
  destruct e; cbn [ext].
  - intros [Hm [= <-]]%guard_bind_Some. apply (refs_unique_give m); [|done].
    unfold SendMsg. destruct (negb _); [done|]. by destruct (closed _).
  - by intros [= <-].
  - destruct (threads s !! t) as [[]|]; try done. by intros [= <-].
  - destruct (threads s !! t) as [[]|]; try done. intros Hs.
    apply bind_Some in Hs as (po & _ & [[Hm _] [= <-]]%guard_bind_Some).
    apply (refs_unique_give m); [|done]. unfold receiver_turn. by destruct (pair1_receive _ m).
  - destruct (threads s !! t) as [[]|]; try done. by intros [= <-].
  - destruct (threads s !! t) as [[]|]; try done. intros Hs.
    by apply bind_Some in Hs as (po & _ & [= <-]).
  - destruct (threads s !! t) as [[]|]; try done. intros [= <-]. by destruct e.
  - destruct (threads s !! t) as [[]|]; try done. by intros [= <-].
  - destruct (threads s !! t) as [[]|]; try done. intros [= <-].
    unfold refs_unique. simpl. by rewrite given_close_chan.
  - intros [= <-]. unfold SetOption.
    repeat (destruct (String.eqb name _);
      [destruct v; try done; (by destruct (0 <=? z)%Z) || by destruct (_ && _)|]). done.
  - intros [= <-]. unfold Close. by destruct (closed (vars s)).
  - intros [_ [= <-]]%guard_bind_Some. unfold AddPipe. destruct (closed (vars s)); [done|].
    by destruct (peer (vars s)).
  - intros [= <-]. unfold RemovePipe. case_decide; [|done].
    destruct (pobjs (vars s) !! p); [|done]. unfold refs_unique. by rewrite given_close_chan.
Qed.

Lemma reachable_xpair1 s : reachable step init ok s → good s ∧ refs_unique s.
Proof. apply reachable_good_unique; [apply _|apply xpair1_init_good|apply xpair1_ext_refs_unique]. Qed.

(** The pipes' transports that have or had message [x]. *)
Definition transports (x : nat) (s : state) : nat :=
  map_sum (λ th, match th with Sending _ m => kocc x [m] | _ => 0 end) (threads s) +
  kocc x (passed s).

(** The hop count goes up by one; it stays a single byte. *)
Lemma hops_step hops :
  (0 ≤ hops < 255)%Z → <[3 := byte_of_Z (hops + 1)]> (put_uint32 hops) = put_uint32 (hops + 1).
Proof.
  intros Hh. unfold be_encode. simpl Z.of_nat.
  rewrite !(Z.shiftr_div_pow2 _ (8 * 3)), !(Z.shiftr_div_pow2 _ (8 * 2)), !(Z.shiftr_div_pow2 _ (8 * 1)) by lia.
  rewrite !Z.div_small by lia. done.
Qed.
Lemma pair1_receive_Some n m0 m :
  mhdr m0 = [] → pair1_receive n m0 = Some m →
  ∃ hops, (0 ≤ hops < 255)%Z ∧ (hops ≤ n)%Z ∧ mbody m0 = put_uint32 hops ++ mbody m ∧
    mhdr m = put_uint32 (hops + 1).
Proof.
  intros Hm0. unfold pair1_receive. case_decide as Hl; [done|].
  destruct (_ || _) eqn:Hb; [done|]. intros Hs. apply (inj Some) in Hs. subst m.
  set (w := take 4 (mbody m0)) in *. assert (length w = 4) as Hw by (subst w; rewrite length_take; lia).
  apply orb_false_elim in Hb as [H1%Z.leb_gt H2%Z.ltb_ge].
  pose proof (be_decode_range w) as Hr. exists (uint32_of w). split_and!; [lia|lia|lia| |].
  - rewrite (be_encode_decode w 4 Hw). simpl. subst w. by rewrite take_drop.
  - cbn [mhdr]. rewrite Hm0. cbn [app]. rewrite <-(hops_step (uint32_of w)) by lia.
    by rewrite (be_encode_decode w 4 Hw).
Qed.

(** The steps that bring a message, and those that change the TTL. *)
Lemma xpair1_ext_ttl e s s' :
  ext e s = Some s' →
  (arrived (vars s') = arrived (vars s) ∨
   ∃ t m, e = EPipeRecv t m ∧ arrived (vars s') = arrived (vars s) ++ [(m, ttl (vars s))]) ∧
  (ttl (vars s') = ttl (vars s) ∨ e = ESetOption OptionTTL (VInt (ttl (vars s')))).
Proof.
  intros Hs. split.
  - destruct e; cbn [ext] in Hs; unfold_ext Hs; rewrite <-Hs; clear Hs.
    all: unfold SendMsg, receiver_turn, sender_sent, pipe_close, SetOption, resize, Close, AddPipe,
      RemovePipe; frame_vars; right; by exists t, m.
  - destruct e; cbn [ext] in Hs; unfold_ext Hs; rewrite <-Hs; clear Hs.
    all: unfold SendMsg, receiver_turn, sender_sent, pipe_close, resize, Close, AddPipe,
      RemovePipe; try (by frame_vars).
    unfold SetOption, resize.
    do 5 (destruct (String.eqb name _); [frame_vars|]).
    destruct (String.eqb_spec name OptionTTL) as [->|]; [|by left].
    destruct v; try by left. destruct ((0 <? z) && (z <? 256))%Z; [by right|by left].
Qed.
Lemma xpair1_step_ttl l s s' :
  step l s = Some s' →
  (arrived (vars s') = arrived (vars s) ∨
   ∃ t m, l = LExt (EPipeRecv t m) ∧ arrived (vars s') = arrived (vars s) ++ [(m, ttl (vars s))]) ∧
  (ttl (vars s') = ttl (vars s) ∨ l = LExt (ESetOption OptionTTL (VInt (ttl (vars s'))))).
Proof.
  intros [->|(e & -> & Hs)]%gstep_vars; [by split; left|].
  destruct (xpair1_ext_ttl _ _ _ Hs) as [[?|(t & m & -> & ?)] [?|He]];
    split; eauto; right; by rewrite <-He.
Qed.

(** C27. The hop count of PAIR1: what [RecvMsg] returns arrived with a hop
    count below 255 and not above the TTL of that moment; it now has the count
    in its header, one higher, and that still fits its byte.  ([arrived] grows
    only when a pipe brings a message, which is recorded with the socket's
    TTL, and only [SetOption(OptionTTL)] changes that, to a value from 1 to
    255.)  What a transport is given is a message of the application whose
    header starts with three zero bytes and a hop count; no message is given
    to two transports.  As for PAIR, all accepted pipes but the peer have been
    removed. *)
Theorem xpair1_hops s (H : reachable step init ok s) :
  (∀ t m, threads s !! t = Some (RecvRet (Ok m)) →
     ∃ m0 n hops, (m0, n) ∈ arrived (vars s) ∧ mbody m0 = put_uint32 hops ++ mbody m ∧
       mhdr m = put_uint32 (hops + 1) ∧ (0 ≤ hops < 255)%Z ∧ (hops ≤ n)%Z) ∧
  (∀ l s', step l s = Some s' →
     (arrived (vars s') = arrived (vars s) ∨
      ∃ t m, l = LExt (EPipeRecv t m) ∧
        arrived (vars s') = arrived (vars s) ++ [(m, ttl (vars s))]) ∧
     (ttl (vars s') = ttl (vars s) ∨ l = LExt (ESetOption OptionTTL (VInt (ttl (vars s')))))) ∧
  (0 < ttl (vars s) < 256)%Z ∧
  (∀ t p m, threads s !! t = Some (Sending p m) →
     m ∈ submitted (vars s) ∧ take 3 (mhdr m) = [Byte.x00; Byte.x00; Byte.x00]) ∧
  (∀ x, transports x s ≤ 1) ∧
  (∀ p, is_Some (pobjs (vars s) !! p) → p ∉ removed (vars s) → peer (vars s) = Some p).
Proof.
  destruct (reachable_xpair1 s H) as [[Hwf Ho [_ Ht Hv]] Hu].
  split; [|split; [intros l s1; apply xpair1_step_ttl|split; [apply Hv|split_and!]]].
  - intros t m Hth. destruct (Ht _ _ Hth) as (m0 & n & Ha & Hm0 & Hr).
    destruct (pair1_receive_Some _ _ _ Hm0 Hr) as (hops & ? & ? & ? & ?).
    by exists m0, n, hops.
  - intros t p m Hth. destruct (Ht _ _ Hth) as [? Hh]. split; [done|]. unfold header_ok in Hh.
    destruct (mhdr m) as [|b0 [|b1 [|b2 [|b3 l]]]]; try done.
    apply bool_decide_eq_true in Hh as (-> & -> & ->). done.
  - intros x. apply few_holders; [|done|done]. intros th. destruct th; simpl; lia.
  - intros p Hp Hr. by destruct (vt_peer _ Hv _ Hp).
Qed.

Definition hop (n : nat) : msg := mkMsg [] [Byte.x00; Byte.x00; Byte.x00; Byte.x08; Byte.x61] (Some 9%Z) n.
(** A message that already passed eight times is let through once more, until
    the TTL is seven. *)
Definition xpair1_run : state :=
  play step (λ _ _, true)
    [LExt (EAddPipe 0); LExt (EPipeRecv 5 (hop 0)); LCase 5 0 None; LExt ERecv; LExt (ERecvTop 7);
     LCase 7 0 None; LExt (ESetOption OptionTTL (VInt 7)); LExt (EPipeRecv 5 (hop 1))] NewProtocol.

Lemma xpair1_hops_witness :
  threads xpair1_run !! 7 = Some (RecvRet (Ok (mkMsg (put_uint32 9) [Byte.x61] (Some 9%Z) 0))) ∧
  arrived (vars xpair1_run) = [(hop 0, 8); (hop 1, 7)]%Z ∧ freed xpair1_run = [hop 1] ∧
  ∃ m0 n hops, (m0, n) ∈ arrived (vars xpair1_run) ∧ mbody m0 = put_uint32 hops ++ [Byte.x61] ∧
    (hops ≤ n)%Z.
Proof.
  assert (reachable step init ok xpair1_run) as Hr by (by apply play_reachable; [intros ? []|]).
  assert (threads xpair1_run !! 7 = Some (RecvRet (Ok (mkMsg (put_uint32 9) [Byte.x61] (Some 9%Z) 0)))) as Ht
    by by vm_compute.
  split; [done|]. split; [by vm_compute|]. split; [by vm_compute|].
  destruct (proj1 (xpair1_hops xpair1_run Hr) _ _ Ht) as (m0 & n & hops & ? & ? & _ & _ & ?).
  by exists m0, n, hops.
Defined.
