(* ===== verification/XPush.v ===== *)
(** * XPush: the raw PUSH protocol

    [src/protocol/xpush/xpush.go], complete, as a program of [Chan].  One
    goroutine, [sender], gives the queued messages to the pipes that are ready;
    it sleeps on a condition variable while there is no message or no pipe
    ([asleep]), and it is the only one to do so.  It receives from [sendQ] with
    the mutex held, and so does [SetOption] when it moves the messages to a
    queue of another length: the mutex is a variable ([locked]).  [SendMsg]
    reads [s.sendQ] without the mutex, once for each of its two [select]
    statements ([SendSel], [SendSel2]). *)
From stdpp Require Import gmap list strings fin_maps.
From Stdlib Require Import ZArith Lia.
From S2P Require Import Prelude Types Chan Backtrace.

(** The channels: those that only get closed, [sendQ], and the [sendQ] of a
    pipe, which the code makes and never uses. *)
Inductive kind := KSignal | KSend | KPipe.
#[export] Instance kind_eq_dec : EqDecision kind.
Proof. solve_decision. Defined.
#[export] Instance kind_countable : Countable kind.
Proof.
  refine (inj_countable'
    (λ k, match k with KSignal => 0 | KSend => 1 | KPipe => 2 end)
    (λ x, match x with 0 => KSignal | 1 => KSend | _ => KPipe end) _).
  by intros [].
Defined.
Abbreviation chid := (kind * nat)%type.

Abbreviation pid := nat.
Record pipe := mkPipe { p_id : Z; p_closed : bool; p_sendQ : chid; p_closeQ : chid }.
#[export] Instance eta_pipe : Eta pipe := λ p,
  mkPipe (p_id p) (p_closed p) (p_sendQ p) (p_closeQ p).

Record socket := mkSocket {
  closed : bool;
  closeQ : chid;
  sendQ : chid;
  noPeerQ : chid;
  sendExpire : Z;
  sendQLen : Z;
  bestEffort : bool;
  failNoPeers : bool;
  readyQ : list pid;
  pipes : gmap Z pid;
  asleep : bool;             (* [sender] is in s.cv.Wait() *)
  locked : option thid;      (* who holds the mutex, between steps *)
  pobjs : gmap pid pipe;     (* all pipe objects *)
  removed : gset pid;
  pclosed : gset pid;
  submitted : list msg
}.
#[export] Instance eta_socket : Eta socket := λ s,
  mkSocket (closed s) (closeQ s) (sendQ s) (noPeerQ s) (sendExpire s) (sendQLen s) (bestEffort s)
    (failNoPeers s) (readyQ s) (pipes s) (asleep s) (locked s) (pobjs s) (removed s) (pclosed s)
    (submitted s).

Definition defaultQLen : Z := 128.

(** Program points. *)
Inductive thread :=
  | SendSel (pq : chid) (m : msg) (tq be : bool)      (* SendMsg, at its first select *)
  | SendTry (q pq : chid) (m : msg) (tq be : bool)
  | SendSel2 (pq : chid) (m : msg) (tq be : bool)     (* ... at its second select *)
  | SendWait (q pq cq : chid) (m : msg) (tq be : bool)
  | SendSignal                                        (* ... before s.Lock(); s.cv.Signal() *)
  | SendRet (e : error) (back : option msg)
  | Snd                                               (* sender, before it has the mutex *)
  | SndGet (q : chid)                                 (* sender, at m := <-s.sendQ *)
  | SndGot (m : msg)
  | Drain (old new : chid)                            (* SetOption, the loop over oldQ *)
  | DrainPut (m : msg) (old new : chid)
  | Unlock                                            (* SetOption, at its last s.Unlock() *)
  | Receiver (p : pid)
  | Sending (p : pid) (m : msg)                       (* send, in p.p.SendMsg(m) *)
  | Sent (p : pid)                                    (* send, before s.Lock() *)
  | PipeClose (p : pid)
  | RemoveLock (p : pid)                              (* RemovePipe, before s.Lock() *)
  | CloseChan (c : chid)
  | Done.

Definition timer (tq : bool) : list (op kind msg) := if tq then [OTime] else [].

Definition sel (th : thread) : list (op kind msg) :=
  match th with
  | SendTry q pq m tq be => [ORecv pq; OSend q m]
  | SendWait q pq cq m tq be => [ORecv pq; OSend q m; ORecv cq] ++ timer tq
  | SndGet q => [ORecv q]
  | Drain old new => [ORecv old]
  | DrainPut m old new => [OSend new m]
  | _ => []
  end.
Definition dflt (th : thread) : bool :=
  match th with SendTry _ _ _ _ _ | Drain _ _ | DrainPut _ _ _ => true | _ => false end.

(** After a case.  A [sendQ] is never closed, so a receive from it brings a
    message. *)
Definition res (th : thread) (i : option nat) (v : option msg) : thread * list msg :=
  match th, i with
  | SendTry q pq m tq be, Some 0 => (SendRet (Some ErrNoPeers) (Some m), [])
  | SendTry q pq m tq be, Some _ => (SendSignal, [])
  | SendTry q pq m tq be, None => (SendSel2 pq m tq be, [])
  | SendWait q pq cq m tq be, Some 0 => (SendRet (Some ErrNoPeers) (Some m), [])
  | SendWait q pq cq m tq be, Some 1 => (SendSignal, [])
  | SendWait q pq cq m tq be, Some 2 => (SendRet (Some ErrClosed) (Some m), [])
  | SendWait q pq cq m tq be, Some _ =>
      if be then (SendRet None None, [m]) else (SendRet (Some ErrSendTimeout) (Some m), [])
  | SndGet q, Some _ => (match v with Some m => SndGot m | None => SndGet q end, [])
  | Drain old new, Some _ => (match v with Some m => DrainPut m old new | None => Unlock end, [])
  | Drain old new, None => (Unlock, [])
  | DrainPut m old new, Some _ => (Drain old new, [])
  | DrainPut m old new, None => (Drain old new, [m])
  | th, _ => (th, [])
  end.

#[export] Instance xpush_program : Program kind msg thread :=
  { select := sel; has_default := dflt; resume := res }.

Abbreviation state := (st kind msg socket thread).

(** ** The critical sections *)

(** [SendMsg], up to the first [select]. *)
Definition SendMsg (m : msg) (s : state) : state :=
  let s := set_vars (λ σ, σ <| submitted ::= (λ l, l ++ [m]) |>) (give [m] s) in
  let σ := vars s in
  let tq := bestEffort σ || negb (sendExpire σ =? 0)%Z in
  if closed σ then go (SendRet (Some ErrClosed) (Some m)) s
  else if failNoPeers σ && bool_decide (pipes σ = ∅) then
    go (SendRet (Some ErrNoPeers) (Some m)) s
  else go (SendSel (noPeerQ σ) m tq (bestEffort σ)) s.

(** The two [select] statements read [s.sendQ]. *)
Definition SendMsg_select (th : thread) (σ : socket) : option thread :=
  match th with
  | SendSel pq m tq be => Some (SendTry (sendQ σ) pq m tq be)
  | SendSel2 pq m tq be => Some (SendWait (sendQ σ) pq (closeQ σ) m tq be)
  | _ => None
  end.

(** [s.cv.Signal()] and [s.cv.Broadcast()]: [sender] is all there is to wake. *)
Definition wake (σ : socket) : socket := σ <| asleep := false |>.
Definition SendMsg_signal (t : thid) (s : state) : state :=
  set_thread t (SendRet None None) (set_vars wake s).

(** [len(s.sendQ)] is the length of [queued]. *)
Definition queued (s : state) : list msg := contents s (sendQ (vars s)).

(** [sender], from the top of its loop, with the mutex. *)
Definition sender_top (t : thid) (s : state) : state :=
  let σ := vars s in
  if closed σ then set_thread t Done (set_vars (λ σ, σ <| locked := None |>) s)
  else if decide (readyQ σ = [] ∨ queued s = []) then
    set_thread t Snd (set_vars (λ σ, σ <| asleep := true |> <| locked := None |>) s)
  else set_thread t (SndGet (sendQ σ)) (set_vars (λ σ, σ <| locked := Some t |>) s).
(** ... after the receive from [sendQ]; [s.readyQ[0]] panics when there is none. *)
Definition sender_got (t : thid) (m : msg) (s : state) : state :=
  match readyQ (vars s) with
  | p :: l => sender_top t (set_vars (λ σ, σ <| readyQ := l |>)
                (go (Sending p m) (set_thread t Snd s)))
  | [] => s <| crashed := true |>
  end.

Definition RecvMsg : result msg := Err ErrProtoOp.

(** [receiver] drops what comes in. *)
Definition receiver_turn (m : msg) (s : state) : state := free [m] (give [m] s).

(** [send]: the return of [p.p.SendMsg(m)], and the rest. *)
Definition send_returned (t : thid) (p : pid) (m : msg) (e : error) (s : state) : state :=
  match e with
  | Some _ => set_thread t (PipeClose p) (free [m] s)
  | None => set_thread t (Sent p) (pass [m] s)
  end.
Definition send_sent (t : thid) (p : pid) (po : pipe) (s : state) : state :=
  let σ := vars s in
  set_thread t Done
    (if negb (closed σ) && negb (p_closed po)
     then set_vars (λ σ, wake (σ <| readyQ ::= (λ l, l ++ [p]) |>)) s else s).

Definition pipe_close (t : thid) (p : pid) (s : state) : state :=
  set_thread t Done (set_vars (λ σ, σ <| pclosed ::= (λ x, {[p]} ∪ x) |>) s).

(** [OptionWriteQLen]: a new queue; its loop holds the mutex. *)
Definition resize (z : Z) (s : state) : state :=
  let '(q, s) := make_chan KSend (Z.to_nat z) s in
  let old := sendQ (vars s) in
  let s := set_vars (λ σ, σ <| sendQLen := z |> <| sendQ := q |> <| locked := Some (fresh s) |>) s in
  go (Drain old q) s.

Definition SetOption (name : string) (v : value) (s : state) : error * state :=
  if String.eqb name OptionSendDeadline then
    match v with
    | VDuration d => (None, set_vars (λ σ, σ <| sendExpire := d |>) s)
    | _ => (Some ErrBadValue, s)
    end
  else if String.eqb name OptionBestEffort then
    match v with
    | VBool b => (None, set_vars (λ σ, σ <| bestEffort := b |>) s)
    | _ => (Some ErrBadValue, s)
    end
  else if String.eqb name OptionFailNoPeers then
    match v with
    | VBool b => (None, set_vars (λ σ, σ <| failNoPeers := b |>) s)
    | _ => (Some ErrBadValue, s)
    end
  else if String.eqb name OptionWriteQLen then
    match v with
    | VInt z => if (0 <=? z)%Z then (None, resize z s) else (Some ErrBadValue, s)
    | _ => (Some ErrBadValue, s)
    end
  else (Some ErrBadOption, s).

Definition GetOption (name : string) (σ : socket) : result value :=
  if String.eqb name OptionRaw then Ok (VBool true)
  else if String.eqb name OptionSendDeadline then Ok (VDuration (sendExpire σ))
  else if String.eqb name OptionBestEffort then Ok (VBool (bestEffort σ))
  else if String.eqb name OptionWriteQLen then Ok (VInt (sendQLen σ))
  else if String.eqb name OptionFailNoPeers then Ok (VBool (failNoPeers σ))
  else Err ErrBadOption.

Definition Close (s : state) : error * state :=
  if closed (vars s) then (Some ErrClosed, s)
  else (None, go (CloseChan (closeQ (vars s))) (set_vars (λ σ, wake (σ <| closed := true |>)) s)).

Definition AddPipe (p : pid) (id : Z) (s : state) : error * state :=
  let '(cq, s) := make_chan KSignal 0 s in
  let '(sq, s) := make_chan KPipe 1 s in
  let s := set_vars (λ σ, σ <| pobjs ::= <[p := mkPipe id false sq cq]> |>) s in
  if closed (vars s) then (Some ErrClosed, s)
  else (None, set_vars (λ σ, wake (σ <| pipes ::= <[id := p]> |> <| readyQ ::= (λ l, l ++ [p]) |>))
                (go (Receiver p) s)).

(** [RemovePipe], before and after it gets the mutex. *)
Definition RemovePipe (p : pid) (po : pipe) (s : state) : state :=
  go (RemoveLock p)
    (close_chan (p_closeQ po) (set_vars (λ σ, σ <| removed ::= (λ x, {[p]} ∪ x) |>) s)).
Definition RemovePipe_locked (t : thid) (p : pid) (po : pipe) (s : state) : state :=
  let s := set_vars (λ σ, σ <| pobjs ::= <[p := po <| p_closed := true |>]> |>
                            <| readyQ ::= remove_first p |> <| pipes ::= delete (p_id po) |>) s in
  let s := set_thread t Done s in
  if failNoPeers (vars s) && bool_decide (pipes (vars s) = ∅) then
    let s := close_chan (noPeerQ (vars s)) s in
    let '(nq, s) := make_chan KSignal 0 s in
    set_vars (λ σ, σ <| noPeerQ := nq |>) s
  else s.

Definition OpenContext : error := Some ErrProtoOp.
Definition Info : ProtocolInfo := mkInfo ProtoPush ProtoPull "push" "pull".

Definition NewProtocol : state :=
  go Snd (mkSt (mkSocket false (KSignal, 0) (KSend, 2) (KSignal, 1) 0 defaultQLen false false [] ∅
                  false None ∅ ∅ ∅ [])
    {[ (KSignal, 0) := mkChan [] 0 false [] []; (KSignal, 1) := mkChan [] 0 false [] [];
       (KSend, 2) := mkChan [] (Z.to_nat defaultQLen) false [] [] ]}
    ∅ 3 [] [] [] false).

(** ** The program *)
Inductive event :=
  | ESend (m : msg)
  | ESelect (t : thid)
  | ESignal (t : thid)
  | ESender (t : thid)
  | EPipeRecv (t : thid) (m : msg)
  | EPipeRecvNil (t : thid)
  | EPipeSent (t : thid) (e : error)
  | ESent (t : thid)
  | EPipeClose (t : thid)
  | ECloseChan (t : thid)
  | EUnlock (t : thid)
  | ESetOption (name : string) (v : value)
  | EClose
  | EAddPipe (p : pid) (id : Z)
  | ERemovePipe (p : pid)
  | ERemoveLock (t : thid).

Definition free_lock (s : state) : Prop := locked (vars s) = None.
#[export] Instance free_lock_dec s : Decision (free_lock s).
Proof. unfold free_lock. apply _. Defined.

(** New messages and pipe objects have identities of their own; the core
    removes a pipe once. *)
Definition ext (e : event) (s : state) : option state :=
  match e with
  | ESend m => guard (free_lock s ∧ mref m ∉ mref <$> given s);; Some (SendMsg m s)
  | ESelect t =>
      th ← threads s !! t; th' ← SendMsg_select th (vars s); Some (set_thread t th' s)
  | ESignal t =>
      match threads s !! t with
      | Some SendSignal => guard (free_lock s);; Some (SendMsg_signal t s)
      | _ => None
      end
  | ESender t =>
      match threads s !! t with
      | Some Snd => guard (free_lock s ∧ asleep (vars s) = false);; Some (sender_top t s)
      | Some (SndGot m) => Some (sender_got t m s)
      | _ => None
      end
  | EPipeRecv t m =>
      match threads s !! t with
      | Some (Receiver p) => guard (mref m ∉ mref <$> given s);; Some (receiver_turn m s)
      | _ => None
      end
  | EPipeRecvNil t =>
      match threads s !! t with
      | Some (Receiver p) => Some (set_thread t (PipeClose p) s)
      | _ => None
      end
  | EPipeSent t e =>
      match threads s !! t with
      | Some (Sending p m) => Some (send_returned t p m e s)
      | _ => None
      end
  | ESent t =>
      match threads s !! t with
      | Some (Sent p) => po ← pobjs (vars s) !! p; guard (free_lock s);; Some (send_sent t p po s)
      | _ => None
      end
  | EPipeClose t =>
      match threads s !! t with
      | Some (PipeClose p) => Some (pipe_close t p s)
      | _ => None
      end
  | ECloseChan t =>
      match threads s !! t with
      | Some (CloseChan c) => Some (set_thread t Done (close_chan c s))
      | _ => None
      end
  | EUnlock t =>
      match threads s !! t with
      | Some Unlock => Some (set_thread t Done (set_vars (λ σ, σ <| locked := None |>) s))
      | _ => None
      end
  | ESetOption name v => guard (free_lock s);; Some (snd (SetOption name v s))
  | EClose => guard (free_lock s);; Some (snd (Close s))
  | EAddPipe p id => guard (free_lock s ∧ pobjs (vars s) !! p = None);; Some (snd (AddPipe p id s))
  | ERemovePipe p =>
      po ← pobjs (vars s) !! p; guard (p ∉ removed (vars s));; Some (RemovePipe p po s)
  | ERemoveLock t =>
      match threads s !! t with
      | Some (RemoveLock p) =>
          po ← pobjs (vars s) !! p; guard (free_lock s);; Some (RemovePipe_locked t p po s)
      | _ => None
      end
  end.

Definition init (s : state) : Prop := s = NewProtocol.
Definition step : label event → state → option state := gstep ext.
Definition ok : state → label event → Prop := gok (λ _ _, True).

(** ** Ownership *)
Definition holding (th : thread) : list msg :=
  match th with
  | SendSel _ m _ _ | SendTry _ _ m _ _ | SendSel2 _ m _ _ | SendWait _ _ _ m _ _ => [m]
  | SendRet _ (Some m) | SndGot m | DrainPut m _ _ | Sending _ m => [m]
  | _ => []
  end.

#[export] Instance xpush_owns : Owns (K := kind) (A := msg) (T := thread).
Proof.
  refine {| holds := holding |}.
  - intros th i o v y Hsel Hv.
    destruct th; cbn in Hsel; try destruct tq; cbn in Hsel; select_cases Hsel; cbn in *; subst;
      try (destruct v as [m'|]); try destruct be; owns_lia.
  - intros th y Hd. destruct th; try done; owns_lia.
Defined.

(** ** What the channels carry *)
Definition ctype (σ : socket) (c : chid) (m : msg) : Prop := c.1 = KSend ∧ m ∈ submitted σ.
Definition owner (σ : socket) (t : thid) : Prop := locked σ = Some t.

Definition ttype (σ : socket) (t : thid) (th : thread) : Prop :=
  match th with
  | SendSel pq m _ _ | SendSel2 pq m _ _ => pq.1 = KSignal ∧ m ∈ submitted σ
  | SendTry q pq m _ _ => q.1 = KSend ∧ pq.1 = KSignal ∧ m ∈ submitted σ
  | SendWait q pq cq m _ _ => q.1 = KSend ∧ pq.1 = KSignal ∧ cq.1 = KSignal ∧ m ∈ submitted σ
  | SndGet q => owner σ t ∧ q = sendQ σ ∧ readyQ σ ≠ [] ∧ asleep σ = false
  | SndGot m => owner σ t ∧ m ∈ submitted σ ∧ readyQ σ ≠ [] ∧ asleep σ = false
  | Drain old new => owner σ t ∧ new = sendQ σ ∧ new.1 = KSend
  | DrainPut m old new => owner σ t ∧ new = sendQ σ ∧ new.1 = KSend ∧ m ∈ submitted σ
  | Unlock => owner σ t
  | Sending p m => m ∈ submitted σ ∧ is_Some (pobjs σ !! p)
  | Sent p => is_Some (pobjs σ !! p)
  | CloseChan c => c.1 = KSignal
  | _ => True
  end.

Record vtype (σ : socket) : Prop := {
  vt_sendQ : (sendQ σ).1 = KSend;
  vt_closeQ : (closeQ σ).1 = KSignal;
  vt_noPeerQ : (noPeerQ σ).1 = KSignal;
  vt_ready p : p ∈ readyQ σ → is_Some (pobjs σ !! p)
}.

#[export] Instance xpush_typed : Typed (K := kind) (A := msg) (S := socket) (T := thread).
Proof.
  refine {| vars_type := vtype; chan_type := ctype; thread_type := ttype |}.
  - intros σ t th i o v Hsel Hth Hv. unfold ctype in *.
    destruct th; cbn in Hsel; try destruct tq; cbn in Hsel; select_cases Hsel; cbn in Hth;
      try (destruct v as [m'|]); cbn; try destruct be; naive_solver.
  - intros σ t th Hd Hth. destruct th; try done; cbn in *; naive_solver.
Defined.

(** The points at which the mutex is held between steps. *)
Definition critical (th : thread) : bool :=
  match th with SndGet _ | SndGot _ | Drain _ _ | DrainPut _ _ _ | Unlock => true | _ => false end.
Definition no_critical (s : state) : Prop :=
  ∀ t th, threads s !! t = Some th → critical th = false.
Lemma xpush_critical_owner σ t th : critical th = true → ttype σ t th → owner σ t.
Proof. destruct th; try done; intros _ Hth; apply Hth. Qed.
Lemma free_no_critical s : typed s → free_lock s → no_critical s.
Proof.
  intros Hty Hf t th Ht. destruct (critical th) eqn:Hc; [|done].
  pose proof (xpush_critical_owner _ _ _ Hc (ty_thread _ Hty _ _ Ht)) as Ho.
  unfold owner, free_lock in *. congruence.
Qed.
(** The owner leaves its critical section. *)
Lemma leave_no_critical t th th' s :
  typed s → threads s !! t = Some th → critical th = true → critical th' = false →
  no_critical (set_thread t th' s).
Proof.
  intros Hty Ht Hc Hc' k x. simpl. rewrite lookup_insert. case_decide; [by intros [= <-]|].
  intros Hk. destruct (critical x) eqn:Hx; [|done].
  pose proof (xpush_critical_owner _ _ _ Hc (ty_thread _ Hty _ _ Ht)).
  pose proof (xpush_critical_owner _ _ _ Hx (ty_thread _ Hty _ _ Hk)). unfold owner in *. congruence.
Qed.

(** The variables change: messages and pipe objects stay, and what a holder of
    the mutex relies on does, if there is one. *)
Lemma xpush_okstep_vars f s :
  (∀ m, m ∈ submitted (vars s) → m ∈ submitted (f (vars s))) →
  (∀ p, is_Some (pobjs (vars s) !! p) → is_Some (pobjs (f (vars s)) !! p)) →
  (no_critical s ∨ locked (f (vars s)) = locked (vars s) ∧ sendQ (f (vars s)) = sendQ (vars s) ∧
     readyQ (f (vars s)) = readyQ (vars s) ∧
     (asleep (vars s) = false → asleep (f (vars s)) = false)) →
  (vtype (vars s) → vtype (f (vars s))) → okstep s (set_vars f s).
Proof.
  intros Hm Hp Hl Hv. apply okstep_vars; [done|unfold chan_type; simpl; unfold ctype; naive_solver|].
  intros t th _ Ht Hth. destruct (critical th) eqn:Hcr.
  - destruct Hl as [Hn|(H1 & H2 & H3 & H4)]; [by rewrite (Hn _ _ Ht) in Hcr|].
    destruct th; try done; simpl in *; unfold owner in *; rewrite ?H1, ?H2, ?H3; naive_solver.
  - destruct th; try done; simpl in *; naive_solver.
Qed.

(** ** The critical sections keep everything *)
Lemma xpush_okstep_SendMsg m s : wf s → okstep s (SendMsg m s).
Proof.
  intros Hwf. unfold SendMsg.
  set (f := λ σ : socket, σ <| submitted ::= (λ l, l ++ [m]) |>).
  assert (okstep s (set_vars f s)) as Hok.
  { apply xpush_okstep_vars; [simpl; set_solver|done|by right|by intros []]. }
  assert (m ∈ submitted (f (vars s))) as Hm by (simpl; set_solver).
  destruct (closed _); [|destruct (_ && _)]; (etrans; [exact Hok|]);
    (apply (okstep_spawn _ [m] (set_vars f s)); [by apply Hok|accounting|]); intros Hty; try done.
  split; [apply (vt_noPeerQ _ (ty_vars _ Hty))|done].
Qed.

Lemma xpush_okstep_sender_top t s :
  wf s → threads s !! t = Some Snd → no_critical s → asleep (vars s) = false →
  okstep s (sender_top t s).
Proof.
  intros Hwf Ht Hn Has. unfold sender_top.
  assert (∀ f : socket → socket, (∀ σ, submitted (f σ) = submitted σ) →
    (∀ σ, pobjs (f σ) = pobjs σ) → (∀ σ, vtype σ → vtype (f σ)) → okstep s (set_vars f s)) as Hvars.
  { intros f H1 H2 H3. apply xpush_okstep_vars; [by rewrite H1|by rewrite H2|by left|apply H3]. }
  destruct (closed (vars s)); [|case_decide as Hd].
  - etrans; [apply (Hvars (λ σ, σ <| locked := None |>)); [done|done|by intros ? []]|].
    by eapply okstep_stop.
  - etrans; [apply (Hvars (λ σ, σ <| asleep := true |> <| locked := None |>));
      [done|done|by intros ? []]|]. by eapply okstep_stop.
  - etrans; [apply (Hvars (λ σ, σ <| locked := Some t |>)); [done|done|by intros ? []]|].
    eapply okstep_stop; [done|done|]. intros _. split_and!; [done|done|simpl; tauto|done].
Qed.

(** [sender] hands the message over and goes back to the top of its loop. *)
Lemma xpush_okstep_sender_next t m p l s :
  wf s → typed s → threads s !! t = Some (SndGot m) → readyQ (vars s) = p :: l →
  okstep s (set_vars (λ σ, σ <| readyQ := l |>) (go (Sending p m) (set_thread t Snd s))) ∧
  no_critical (set_vars (λ σ, σ <| readyQ := l |>) (go (Sending p m) (set_thread t Snd s))).
Proof.
  intros Hwf Hty Ht Hl. destruct (ty_thread _ Hty _ _ Ht) as (Ho & Hm & _).
  pose proof (leave_no_critical t _ Snd s Hty Ht eq_refl eq_refl) as Hn.
  assert (is_Some (pobjs (vars s) !! p)) as Hp.
  { apply (vt_ready _ (ty_vars _ Hty)). rewrite Hl. by left. }
  assert (no_critical (go (Sending p m) (set_thread t Snd s))) as Hn'.
  { intros k th. simpl. rewrite lookup_insert. case_decide; [by intros [= <-]|]. apply Hn. }
  assert (is_Some (threads s !! t)) as Htt by eauto.
  assert (okstep s (go (Sending p m) (set_thread t Snd s))) as Hgo.
  { split.
    - transitivity (set_thread t Snd s); [by apply advance_set_thread|apply advance_go].
    - intros Hown x. specialize (Hown x). rewrite owned_go by (by apply (advance_set_thread t Snd s Htt)).
      pose proof (owned_set_thread x t (SndGot m) Snd s Ht) as H1. simpl in *.
      rewrite kocc_nil in H1. lia.
    - intros _. apply typed_go; [|done]. by apply typed_set_thread. }
  split; [|done]. etrans; [exact Hgo|].
  apply xpush_okstep_vars; [done|done|by left|]. intros [H1 H2 H3 H4]. split; try done.
  intros q Hq. apply H4. simpl in *. rewrite Hl. by right.
Qed.
Lemma xpush_okstep_sender_got t m s :
  wf s → typed s → threads s !! t = Some (SndGot m) → okstep s (sender_got t m s).
Proof.
  intros Hwf Hty Ht. destruct (ty_thread _ Hty _ _ Ht) as (_ & _ & Hr & Has). unfold sender_got.
  destruct (readyQ (vars s)) as [|p l] eqn:Hl; [done|].
  destruct (xpush_okstep_sender_next t m p l s Hwf Hty Ht Hl) as [Hok Hn].
  etrans; [exact Hok|]. apply xpush_okstep_sender_top; [by apply Hok| |done|done].
  simpl. rewrite lookup_insert_ne; [by rewrite lookup_insert_eq|].
  assert (t < fresh s) by (apply (wf_fresh_t _ Hwf); eauto). lia.
Qed.

Lemma xpush_okstep_resize z s : wf s → no_critical s → okstep s (resize z s).
Proof.
  intros Hwf Hn. unfold resize. destruct (make_chan KSend (Z.to_nat z) s) as [q s1] eqn:E1.
  destruct (okstep_make_chan _ _ _ _ _ Hwf E1) as (Hok1 & Hwf1 & Hq & Hv1 & Ht1).
  etrans; [exact Hok1|].
  set (f := λ σ : socket, σ <| sendQLen := z |> <| sendQ := q |> <| locked := Some (fresh s1) |>).
  assert (okstep s1 (set_vars f s1)) as Hok2.
  { apply xpush_okstep_vars; [done|done| |].
    - left. intros t th. rewrite Ht1. apply Hn.
    - intros []. split; try done. by subst. }
  etrans; [exact Hok2|]. apply okstep_go; [by apply Hok2|done|]. by subst.
Qed.

Lemma xpush_okstep_SetOption name v s : wf s → no_critical s → okstep s (snd (SetOption name v s)).
Proof.
  intros Hwf Hn. unfold SetOption.
  assert (∀ f : socket → socket, submitted (f (vars s)) = submitted (vars s) →
    pobjs (f (vars s)) = pobjs (vars s) → (vtype (vars s) → vtype (f (vars s))) →
    okstep s (set_vars f s)) as Hvars.
  { intros f H1 H2 H3. apply xpush_okstep_vars; [by rewrite H1|by rewrite H2|by left|done]. }
  do 4 (destruct (String.eqb name _);
    [destruct v; try reflexivity; cbn [snd]; try (by apply Hvars; [done|done|by intros []])|]);
    [|reflexivity].
  destruct (0 <=? z)%Z; [|reflexivity]. by apply xpush_okstep_resize.
Qed.

Lemma xpush_okstep_AddPipe p id s : wf s → no_critical s → okstep s (snd (AddPipe p id s)).
Proof.
  intros Hwf Hn. unfold AddPipe. destruct (make_chan KSignal 0 s) as [cq s1] eqn:E1.
  destruct (okstep_make_chan _ _ _ _ _ Hwf E1) as (Hok1 & Hwf1 & Hcq & Hv1 & Ht1).
  destruct (make_chan KPipe 1 s1) as [sq s2] eqn:E2.
  destruct (okstep_make_chan _ _ _ _ _ Hwf1 E2) as (Hok2 & Hwf2 & Hsq & Hv2 & Ht2).
  etrans; [exact Hok1|]. etrans; [exact Hok2|].
  set (f := λ σ : socket, σ <| pobjs ::= <[p := mkPipe id false sq cq]> |>).
  assert (∀ k, is_Some (pobjs (vars s2) !! k) → is_Some (pobjs (f (vars s2)) !! k)) as Hkeep.
  { intros k Hk. simpl. apply lookup_insert_is_Some'. by right. }
  assert (okstep s2 (set_vars f s2)) as Hok3.
  { apply xpush_okstep_vars; [done|done|by right|]. intros []. split; try done. intros k Hk. auto. }
  etrans; [exact Hok3|]. destruct (closed _); [reflexivity|]. cbn [snd].
  etrans; [apply (okstep_go (Receiver p)); [by apply Hok3|done|done]|].
  apply xpush_okstep_vars; [done|done| |].
  - left. intros t th. simpl. rewrite lookup_insert, Ht2, Ht1. case_decide; [by intros [= <-]|apply Hn].
  - intros []. split; try done. intros k. simpl. rewrite elem_of_app, list_elem_of_singleton.
    intros [?| ->]; [by auto|]. by rewrite lookup_insert_eq.
Qed.

Lemma xpush_okstep_RemovePipe_locked t p po s :
  wf s → no_critical s → threads s !! t = Some (RemoveLock p) → is_Some (pobjs (vars s) !! p) →
  okstep s (RemovePipe_locked t p po s).
Proof.
  intros Hwf Hn Ht Hp. unfold RemovePipe_locked.
  set (f := λ σ : socket, σ <| pobjs ::= <[p := po <| p_closed := true |>]> |>
              <| readyQ ::= remove_first p |> <| pipes ::= delete (p_id po) |>).
  set (s1 := set_thread t Done (set_vars f s)). assert (okstep s s1) as Hok.
  { transitivity (set_vars f s); [|by eapply okstep_stop].
    apply xpush_okstep_vars; [done| |by left|].
    - intros k Hk. apply lookup_insert_is_Some'. by right.
    - intros []. split; try done. intros k Hk%elem_of_remove_first_1. simpl.
      apply lookup_insert_is_Some'. right. auto. }
  etrans; [exact Hok|]. assert (wf s1) as Hwf1 by by apply Hok. clearbody s1.
  destruct (_ && _); [|reflexivity]. etrans; [apply okstep_close_chan|].
  destruct (make_chan KSignal 0 (close_chan _ s1)) as [nq s2] eqn:E.
  destruct (okstep_make_chan _ _ _ _ _ (wf_close_chan _ _ Hwf1) E) as (Hok2 & _ & -> & _ & _).
  etrans; [exact Hok2|]. apply xpush_okstep_vars; [done|done|by right|]. by intros [].
Qed.

#[export] Instance xpush_ok : ExtOk ext.
Proof.
  intros e s s' Hwf Hty.
  assert (free_lock s → no_critical s) as Hfree by by apply free_no_critical.
  destruct e; cbn [ext].
  - intros [_ [= <-]]%guard_bind_Some. by apply xpush_okstep_SendMsg.
  - intros Hs. apply bind_Some in Hs as (th & Ht & Hs). apply bind_Some in Hs as (th' & Hs & [= <-]).
    pose proof (ty_thread _ Hty _ _ Ht) as Hth. destruct (ty_vars _ Hty).
    destruct th; simplify_eq/=; (eapply okstep_set_thread; [done|count|naive_solver]).
  - destruct (threads s !! t) as [[]|] eqn:Ht; try done. intros [_ [= <-]]%guard_bind_Some.
    etrans; [apply (xpush_okstep_vars wake); [done|done|by right|by intros []]|]. by eapply okstep_stop.
  - destruct (threads s !! t) as [[]|] eqn:Ht; try done.
    + intros [[Hf ?] [= <-]]%guard_bind_Some. by apply xpush_okstep_sender_top; auto.
    + intros [= <-]. by apply xpush_okstep_sender_got.
  - destruct (threads s !! t) as [[]|] eqn:Ht; try done. intros [_ [= <-]]%guard_bind_Some.
    apply (okstep_account [m]). accounting.
  - destruct (threads s !! t) as [[]|] eqn:Ht; try done. intros [= <-]. by eapply okstep_stop.
  - destruct (threads s !! t) as [[]|] eqn:Ht; try done. intros [= <-]. unfold send_returned.
    destruct e; (eapply (okstep_goto t _ _ []); [done|accounting|]); [done|].
    intros _. apply (ty_thread _ Hty _ _ Ht).
  - destruct (threads s !! t) as [[]|] eqn:Ht; try done. intros Hs.
    apply bind_Some in Hs as (po & Hpo & [Hf [= <-]]%guard_bind_Some). unfold send_sent.
    destruct (_ && _); [|by eapply okstep_stop].
    etrans; [apply (xpush_okstep_vars (λ σ, wake (σ <| readyQ ::= (λ l, l ++ [p]) |>)));
      [done|done|left; auto|]|by eapply okstep_stop].
    intros []. split; try done. intros k. simpl. rewrite elem_of_app, list_elem_of_singleton.
    intros [?| ->]; eauto.
  - destruct (threads s !! t) as [[]|] eqn:Ht; try done. intros [= <-].
    etrans; [apply (xpush_okstep_vars (λ σ, σ <| pclosed ::= (λ x, {[p]} ∪ x) |>));
      [done|done|by right|by intros []]|by eapply okstep_stop].
  - destruct (threads s !! t) as [[]|] eqn:Ht; try done. intros [= <-].
    etrans; [apply okstep_close_chan|]. eapply okstep_stop; [by rewrite threads_close_chan|done|done].
  - destruct (threads s !! t) as [[]|] eqn:Ht; try done. intros [= <-].
    change (okstep s (set_vars (λ σ, σ <| locked := None |>) (set_thread t Done s))).
    etrans; [by eapply (okstep_stop t _ Done)|].
    apply xpush_okstep_vars; [done|done|left; by eapply leave_no_critical|by intros []].
  - intros [Hf [= <-]]%guard_bind_Some. by apply xpush_okstep_SetOption; auto.
  - intros [_ [= <-]]%guard_bind_Some. unfold Close. destruct (closed (vars s)); [reflexivity|].
    assert (okstep s (set_vars (λ σ, wake (σ <| closed := true |>)) s)) as Hok
      by (apply xpush_okstep_vars; [done|done|by right|by intros []]).
    etrans; [exact Hok|]. apply okstep_go; [by apply Hok|done|].
    intros _. apply (vt_closeQ _ (ty_vars _ Hty)).
  - intros [[Hf _] [= <-]]%guard_bind_Some. by apply xpush_okstep_AddPipe; auto.
  - intros Hs. apply bind_Some in Hs as (po & Hpo & [_ [= <-]]%guard_bind_Some). unfold RemovePipe.
    set (s1 := set_vars _ s). assert (okstep s s1) as Hok
      by (apply xpush_okstep_vars; [done|done|by right|by intros []]).
    etrans; [exact Hok|]. etrans; [apply okstep_close_chan|].
    apply okstep_go; [apply wf_close_chan; by apply Hok|done|done].
  - destruct (threads s !! t) as [[]|] eqn:Ht; try done. intros Hs.
    apply bind_Some in Hs as (po & Hpo & [Hf [= <-]]%guard_bind_Some).
    apply xpush_okstep_RemovePipe_locked; eauto.
Qed.

Lemma xpush_init_good s : init s → good s ∧ refs_unique s.
Proof.
  intros ->. split; [|by apply NoDup_nil_2]. unfold NewProtocol. set (s := mkSt _ _ _ _ _ _ _ _).
  assert (good s) as [Hwf Ho Ht] by (start_good; split; simpl; try done; set_solver).
  destruct (okstep_go Snd s Hwf ltac:(done) ltac:(done)) as [Ha Ho' Ht']. split; [by apply Ha|auto|auto].
Qed.

Lemma given_sender_top t s : given (sender_top t s) = given s.
Proof. unfold sender_top. destruct (closed _); [done|]. by case_decide. Qed.
Lemma xpush_ext_refs_unique e s s' : ext e s = Some s' → refs_unique s → refs_unique s'.
Proof.
  assert (given s' = given s → refs_unique s → refs_unique s') as Hsame
    by (unfold refs_unique; by intros ->).
  destruct e; cbn [ext];
    try match goal with
    | |- context [match threads s !! ?t with _ => _ end] => destruct (threads s !! t) as [[]|]; try done
    end.
  - intros [[_ Hm] [= <-]]%guard_bind_Some. apply (refs_unique_give m); [|done].
    unfold SendMsg. destruct (closed _); [done|]. by destruct (_ && _).
  - intros Hs. apply bind_Some in Hs as (th & ? & Hs). by apply bind_Some in Hs as (th' & ? & [= <-]).
  - by intros [_ [= <-]]%guard_bind_Some.
  - intros [_ [= <-]]%guard_bind_Some. apply Hsame, given_sender_top.
  - intros [= <-]. apply Hsame. unfold sender_got. destruct (readyQ _); [done|]. by rewrite given_sender_top.
  - intros [Hm [= <-]]%guard_bind_Some. by apply (refs_unique_give m).
  - by intros [= <-].
  - intros [= <-]. by destruct e.
  - intros Hs. apply bind_Some in Hs as (po & _ & [_ [= <-]]%guard_bind_Some).
    unfold send_sent. by destruct (_ && _).
  - by intros [= <-].
  - intros [= <-]. apply Hsame. simpl. apply given_close_chan.
  - by intros [= <-].
  - intros [_ [= <-]]%guard_bind_Some. unfold SetOption.
    repeat (destruct (String.eqb name _); [destruct v; try done; by destruct (0 <=? z)%Z|]). done.
  - intros [_ [= <-]]%guard_bind_Some. unfold Close. by destruct (closed (vars s)).
  - intros [_ [= <-]]%guard_bind_Some. unfold AddPipe. cbn. by destruct (closed (vars s)).
  - intros Hs. apply bind_Some in Hs as (po & _ & [_ [= <-]]%guard_bind_Some). apply Hsame.
    unfold RemovePipe. simpl. by rewrite given_close_chan.
  - intros Hs. apply bind_Some in Hs as (po & _ & [_ [= <-]]%guard_bind_Some). apply Hsame.
    unfold RemovePipe_locked. destruct (_ && _); [|done]. simpl. by rewrite given_close_chan.
Qed.

Lemma reachable_xpush s : reachable step init ok s → good s ∧ refs_unique s.
Proof. apply reachable_good_unique; [apply _|apply xpush_init_good|apply xpush_ext_refs_unique]. Qed.
