(* ===== verification/XPushInv.v ===== *)
(** * XPushInv: what the raw PUSH protocol guarantees

    One message at a time on a pipe ([serial]), no lost wakeup of [sender]
    ([alert]), and what a queue of length 0 does ([zero]); the protocol itself
    is in [XPush]. *)
From stdpp Require Import gmap list strings fin_maps.
From Stdlib Require Import ZArith Lia.
From S2P Require Import Prelude Types Chan Backtrace XPush.

(** ** One message at a time on a pipe *)
Definition busy (th : thread) : option pid :=
  match th with Sending p _ | Sent p => Some p | _ => None end.

Record serial (s : state) : Prop := {
  sr_nodup : NoDup (readyQ (vars s));
  sr_open p : p ∈ readyQ (vars s) → ∃ po, pobjs (vars s) !! p = Some po ∧ p_closed po = false;
  sr_busy t th p : threads s !! t = Some th → busy th = Some p → p ∉ readyQ (vars s);
  sr_one t1 t2 th1 th2 p :
    threads s !! t1 = Some th1 → threads s !! t2 = Some th2 →
    busy th1 = Some p → busy th2 = Some p → t1 = t2
}.

Definition keeps_busy (s s' : state) : Prop :=
  ∀ t th p, threads s' !! t = Some th → busy th = Some p →
    ∃ th0, threads s !! t = Some th0 ∧ busy th0 = Some p.

Lemma serial_keep s s' :
  readyQ (vars s') = readyQ (vars s) → pobjs (vars s') = pobjs (vars s) → keeps_busy s s' →
  serial s → serial s'.
Proof.
  intros Hr Hp Hb [S1 S2 S3 S4]. split; rewrite ?Hr, ?Hp; try done.
  - intros t th p Ht Hbu. destruct (Hb _ _ _ Ht Hbu) as (th0 & ? & ?). eauto.
  - intros t1 t2 th1 th2 p H1 H2 B1 B2. destruct (Hb _ _ _ H1 B1) as (? & ? & ?).
    destruct (Hb _ _ _ H2 B2) as (? & ? & ?). eauto.
Qed.
Lemma keeps_busy_same s s' : threads s' = threads s → keeps_busy s s'.
Proof. intros E t th p. rewrite E. eauto. Qed.
Lemma keeps_busy_insert k th s s' :
  threads s' = <[k := th]> (threads s) →
  (busy th = None ∨ ∃ th0, threads s !! k = Some th0 ∧ busy th0 = busy th) → keeps_busy s s'.
Proof.
  intros E Hb t x p. rewrite E, lookup_insert. case_decide; [|by eauto].
  intros [= <-] Hx. subst. destruct Hb as [Hb|(th0 & ? & Hb)]; [congruence|].
  exists th0. by rewrite Hb.
Qed.
#[export] Instance keeps_busy_trans : Transitive keeps_busy.
Proof.
  intros s1 s2 s3 H12 H23 t th p Ht Hb. destruct (H23 _ _ _ Ht Hb) as (th2 & Ht2 & Hb2). eauto.
Qed.

Lemma busy_case th i o v : select th !! i = Some o → busy (fst (resume th (Some i) v)) = None.
Proof.
  intros Hsel. destruct th; cbn in Hsel; try destruct tq; cbn in Hsel; select_cases Hsel;
    cbn; try destruct v; try destruct be; done.
Qed.
Lemma serial_case t th i s s' :
  threads s !! t = Some th → case_done t th i s s' → serial s → serial s'.
Proof.
  intros Ht Hd. apply serial_keep; [by rewrite (vars_do_case _ _ _ _ _ Hd)..|].
  intros k th' p Hk Hb. destruct (do_case_threads _ _ _ _ _ _ _ Ht Hd Hk) as [?|(th0 & j & o & v & _ & Hs & _ & _ & ->)].
  - eauto.
  - by rewrite (busy_case _ _ _ _ Hs) in Hb.
Qed.

(** A pipe joins the queue. *)
Lemma serial_ready p po s s' :
  readyQ (vars s') = readyQ (vars s) ++ [p] → pobjs (vars s') = pobjs (vars s) →
  pobjs (vars s) !! p = Some po → p_closed po = false → p ∉ readyQ (vars s) →
  keeps_busy s s' → (∀ t th, threads s' !! t = Some th → busy th ≠ Some p) → serial s → serial s'.
Proof.
  intros Hr Hp Hpo Hc Hnew Hb Hnb Hs.
  assert (serial (s <| threads := threads s' |>)) as [S1 S2 S3 S4] by by revert Hs; apply serial_keep.
  simpl in *. split; rewrite ?Hr, ?Hp.
  - apply NoDup_app. split_and!; [done| |apply NoDup_singleton].
    intros x Hx ->%list_elem_of_singleton. done.
  - intros q. rewrite elem_of_app, list_elem_of_singleton. intros [?| ->]; eauto.
  - intros t th q Ht Hq. rewrite elem_of_app, list_elem_of_singleton. intros [?| ->].
    + by eapply S3.
    + by eapply Hnb.
  - done.
Qed.

Lemma serial_sender_top t s :
  threads s !! t = Some Snd → serial s → serial (sender_top t s).
Proof.
  intros Ht. unfold sender_top. destruct (closed (vars s)); [|case_decide];
    (apply serial_keep; [done|done|by eapply keeps_busy_insert; [|left]]).
Qed.
Lemma serial_sender_got t m s :
  wf s → threads s !! t = Some (SndGot m) → serial s → serial (sender_got t m s).
Proof.
  intros Hwf Ht Hs. assert (t < fresh s) as Hlt by (apply (wf_fresh_t _ Hwf); eauto).
  unfold sender_got. destruct (readyQ (vars s)) as [|p l] eqn:Hl.
  { revert Hs. by apply serial_keep, keeps_busy_same. }
  apply serial_sender_top.
  { simpl. rewrite lookup_insert_ne by lia. apply lookup_insert_eq. }
  assert (serial (set_thread t Snd s)) as [S1 S2 S3 S4].
  { revert Hs. apply serial_keep; [done|done|by eapply keeps_busy_insert; [|left]]. }
  set (s1 := set_thread t Snd s) in *. change (readyQ (vars s1) = p :: l) in Hl.
  change (fresh s) with (fresh s1) in *. clearbody s1.
  rewrite Hl in *. apply NoDup_cons in S1 as [Hp S1]. split; simpl.
  - done.
  - intros q Hq. apply S2. by right.
  - intros k th q. rewrite lookup_insert. case_decide; [intros [= <-] [= <-]; done|].
    intros Hk Hb Hq. eapply S3; [done..|by right].
  - assert (∀ k th, threads s1 !! k = Some th → busy th ≠ Some p) as Hnb.
    { intros k th Hk Hb. eapply (S3 k th p); [done..|by left]. }
    intros k1 k2 th1 th2 q. rewrite !lookup_insert.
    repeat case_decide; [by subst| | |by apply S4]; intros; simplify_eq/=; exfalso; by eapply Hnb.
Qed.
Lemma serial_sent t p po s :
  threads s !! t = Some (Sent p) → pobjs (vars s) !! p = Some po → serial s →
  serial (send_sent t p po s).
Proof.
  intros Ht Hpo Hs. unfold send_sent.
  assert (keeps_busy s (set_thread t Done s)) as Hk by (by eapply keeps_busy_insert; [|left]).
  destruct (closed (vars s)), (p_closed po) eqn:Hc; simpl;
    try (revert Hs; apply serial_keep; [done|done|exact Hk]).
  pose proof Hs as [S1 S2 S3 S4]. revert Hs. eapply serial_ready; [done|done|exact Hpo|done| |exact Hk|].
  - by eapply S3.
  - intros k th. simpl. rewrite lookup_insert. case_decide; [by intros [= <-]|].
    intros Hth Hb. assert (k = t) by (by eapply (S4 k t)). done.
Qed.

Lemma serial_AddPipe p id s :
  typed s → pobjs (vars s) !! p = None → serial s → serial (snd (AddPipe p id s)).
Proof.
  intros Hty Hp [S1 S2 S3 S4]. unfold AddPipe. cbn [make_chan].
  set (s1 := set_vars _ _). assert (serial s1) as Hs1.
  { split; simpl; try done. intros q Hq. destruct (S2 q Hq) as (po & Hpo & ?). exists po.
    rewrite lookup_insert_ne by congruence. done. }
  change (closed (vars s1)) with (closed (vars s)). destruct (closed (vars s)); [done|]. cbn [snd].
  assert (p ∉ readyQ (vars s)) as Hnew.
  { intros Hq. destruct (S2 p Hq) as (po & ? & ?). congruence. }
  assert (∀ t th, threads s !! t = Some th → busy th ≠ Some p) as Hnb.
  { intros t th Ht Hb. pose proof (ty_thread _ Hty _ _ Ht) as Hth.
    destruct th; try done; simplify_eq/=; [destruct Hth as [_ [? ?]]|destruct Hth as [? ?]]; congruence. }
  revert Hs1. eapply serial_ready; [done|done|by apply lookup_insert_eq|done|done| |].
  - by eapply keeps_busy_insert; [|left].
  - intros t th. simpl. rewrite lookup_insert. case_decide; [by intros [= <-]|by apply Hnb].
Qed.

Lemma serial_RemovePipe_locked t p po s :
  threads s !! t = Some (RemoveLock p) → pobjs (vars s) !! p = Some po → serial s →
  serial (RemovePipe_locked t p po s).
Proof.
  intros Ht Hpo [S1 S2 S3 S4]. unfold RemovePipe_locked. set (s1 := set_thread t Done _).
  assert (serial s1) as Hs1.
  { assert (keeps_busy s s1) as Hk by (by eapply keeps_busy_insert; [|left]). split; simpl.
    - by apply NoDup_remove_first.
    - intros q [Hq Hne]%elem_of_remove_first; [|done]. rewrite lookup_insert_ne by done. by apply S2.
    - intros k th q Hkk Hb Hq%elem_of_remove_first_1. destruct (Hk _ _ _ Hkk Hb) as (? & ? & ?).
      by eapply S3.
    - intros k1 k2 th1 th2 q H1 H2 B1 B2. destruct (Hk _ _ _ H1 B1) as (? & ? & ?).
      destruct (Hk _ _ _ H2 B2) as (? & ? & ?). eauto. }
  clearbody s1. destruct (_ && _); [|done]. revert Hs1. cbn [make_chan].
  apply serial_keep; simpl; [by rewrite vars_close_chan..|].
  apply keeps_busy_same. simpl. by rewrite threads_close_chan.
Qed.

Lemma serial_ext e s s' : wf s → typed s → ext e s = Some s' → serial s → serial s'.
Proof.
  intros Hwf Hty Hs Hser. revert Hs.
  assert (∀ t th s', readyQ (vars s') = readyQ (vars s) → pobjs (vars s') = pobjs (vars s) →
    threads s' = <[t := th]> (threads s) → busy th = None → serial s') as Hmove.
  { intros t th s1 H1 H2 H3 H4. revert Hser. apply serial_keep; [done|done|].
    by eapply keeps_busy_insert; [|left]. }
  assert (∀ s', readyQ (vars s') = readyQ (vars s) → pobjs (vars s') = pobjs (vars s) →
    threads s' = threads s → serial s') as Hsame.
  { intros s1 H1 H2 H3. revert Hser. by apply serial_keep, keeps_busy_same. }
  destruct e; cbn [ext];
    try match goal with
    | |- context [match threads s !! ?t with _ => _ end] =>
        destruct (threads s !! t) as [[]|] eqn:Ht; try done
    end.
  - intros [_ [= <-]]%guard_bind_Some. unfold SendMsg. cbv zeta.
    destruct (closed _); [|destruct (_ && _)]; by eapply Hmove.
  - intros Hs. apply bind_Some in Hs as (th & Ht & Hs). apply bind_Some in Hs as (th' & Hs & [= <-]).
    eapply Hmove; [done..|]. by destruct th; simplify_eq/=.
  - intros [_ [= <-]]%guard_bind_Some. by eapply Hmove.
  - intros [_ [= <-]]%guard_bind_Some. by apply serial_sender_top.
  - intros [= <-]. by apply serial_sender_got.
  - intros [_ [= <-]]%guard_bind_Some. by apply Hsame.
  - intros [= <-]. by eapply Hmove.
  - intros [= <-]. unfold send_returned. destruct e; [by eapply Hmove|].
    revert Hser. apply serial_keep; [done|done|]. eapply keeps_busy_insert; [done|]. right. eauto.
  - intros Hs. apply bind_Some in Hs as (po & Hpo & [_ [= <-]]%guard_bind_Some). by apply serial_sent.
  - intros [= <-]. by eapply Hmove.
  - intros [= <-]. eapply (Hmove t Done); simpl; by rewrite ?vars_close_chan, ?threads_close_chan.
  - intros [= <-]. by eapply Hmove.
  - intros [_ [= <-]]%guard_bind_Some. unfold SetOption.
    do 3 (destruct (String.eqb name _); [destruct v; try done; by apply Hsame|]).
    destruct (String.eqb name _); [|done]. destruct v; try done. destruct (0 <=? z)%Z; [|done].
    by eapply Hmove.
  - intros [_ [= <-]]%guard_bind_Some. unfold Close. destruct (closed (vars s)); [done|]. by eapply Hmove.
  - intros [[_ Hp] [= <-]]%guard_bind_Some. by apply serial_AddPipe.
  - intros Hs. apply bind_Some in Hs as (po & Hpo & [_ [= <-]]%guard_bind_Some). unfold RemovePipe.
    set (s1 := close_chan _ _).
    assert (threads s1 = threads s) as E1 by by subst s1; rewrite threads_close_chan.
    assert (readyQ (vars s1) = readyQ (vars s) ∧ pobjs (vars s1) = pobjs (vars s)) as [E2 E3]
      by by subst s1; rewrite vars_close_chan.
    eapply (Hmove (fresh s1) (RemoveLock p)); [done..| |done]. simpl. by rewrite E1.
  - intros Hs. apply bind_Some in Hs as (po & Hpo & [_ [= <-]]%guard_bind_Some).
    by apply serial_RemovePipe_locked.
Qed.

(** ** The sleeping sender *)

(** No message that [sender] could take is there or underway. *)
Definition drains (s : state) (th : thread) : Prop :=
  match th with Drain old _ => contents s old = [] | DrainPut _ _ _ => False | _ => True end.
Definition drained (s : state) : Prop :=
  queued s = [] ∧ ∀ t th, threads s !! t = Some th → drains s th.
Definition signalled (s : state) : Prop := ∃ t, threads s !! t = Some SendSignal.

Record alert (s : state) : Prop := {
  al_awake : asleep (vars s) = true → readyQ (vars s) = [] ∨ signalled s ∨ drained s;
  al_fed t q : threads s !! t = Some (SndGet q) → contents s q ≠ []
}.

(** Points that [alert] does not mention. *)
Definition plain (th : thread) : bool :=
  match th with Drain _ _ | DrainPut _ _ _ | SndGet _ => false | _ => true end.

Lemma alert_keep s s' :
  (asleep (vars s') = true →
     asleep (vars s) = true ∧ (readyQ (vars s) = [] → readyQ (vars s') = []) ∧
     sendQ (vars s') = sendQ (vars s) ∧
     ∀ t, threads s !! t = Some SendSignal → threads s' !! t = Some SendSignal) →
  (∀ c, contents s' c = contents s c) →
  (∀ t th, threads s' !! t = Some th → threads s !! t = Some th ∨ plain th = true) →
  alert s → alert s'.
Proof.
  intros Ha Hc Ht [A1 A2]. split.
  - intros (Has & Hr & Hq & Hsig)%Ha. destruct (A1 Has) as [?|[[t Hts]|[Hd Hds]]].
    + left. auto.
    + right; left. exists t. auto.
    + right; right. split; [unfold queued; by rewrite Hq, Hc|]. intros t th Hth.
      destruct (Ht _ _ Hth) as [Hth'|Hp]; [|by destruct th].
      specialize (Hds _ _ Hth'). destruct th; try done. simpl in *. by rewrite Hc.
  - intros t q Hth. destruct (Ht _ _ Hth) as [?|?]; [|done]. rewrite Hc. eauto.
Qed.

(** A goroutine that moves on to a point that does not matter, while the
    sender gets no reason to go on. *)
Lemma alert_move t th th' s s' :
  threads s !! t = Some th → th ≠ SendSignal → chans s' = chans s →
  threads s' = <[t := th']> (threads s) → plain th' = true →
  (asleep (vars s') = true → asleep (vars s) = true ∧ readyQ (vars s') = readyQ (vars s) ∧
     sendQ (vars s') = sendQ (vars s)) →
  alert s → alert s'.
Proof.
  intros Ht Hth Hc Hths Hp Hv. apply alert_keep.
  - intros (H1 & H2 & H3)%Hv. split_and!; [done|by rewrite H2|done|].
    intros k. rewrite Hths, lookup_insert. case_decide; [congruence|done].
  - intros c. by apply contents_same.
  - intros k x. rewrite Hths, lookup_insert. case_decide; [intros [= <-]; by right|by left].
Qed.
Lemma alert_go th s s' :
  wf s → chans s' = chans s → threads s' = <[fresh s := th]> (threads s) → plain th = true →
  (asleep (vars s') = true → asleep (vars s) = true ∧ readyQ (vars s') = readyQ (vars s) ∧
     sendQ (vars s') = sendQ (vars s)) →
  alert s → alert s'.
Proof.
  intros Hwf Hc Hths Hp Hv. apply alert_keep.
  - intros (H1 & H2 & H3)%Hv. split_and!; [done|by rewrite H2|done|].
    intros k Hk. rewrite Hths, lookup_insert_ne; [done|].
    assert (k < fresh s) by (apply (wf_fresh_t _ Hwf); eauto). lia.
  - intros c. by apply contents_same.
  - intros k x. rewrite Hths, lookup_insert. case_decide; [intros [= <-]; by right|by left].
Qed.

(** *** The cases *)
Lemma get_resume th i o v q :
  select th !! i = Some o → fst (resume th (Some i) v) = SndGet q → th = SndGet q ∧ v = None.
Proof.
  intros Hsel. destruct th; cbn in Hsel; try destruct tq; cbn in Hsel; select_cases Hsel;
    cbn; try destruct v; try destruct be; naive_solver.
Qed.
(** A [sender] at its receive has been there all along: the queue is not empty. *)
Lemma get_case t th i s s' k q :
  threads s !! t = Some th → case_done t th i s s' → alert s → threads s' !! k = Some (SndGet q) →
  threads s !! k = Some (SndGet q) ∧ k ≠ t.
Proof.
  intros Ht Hd [_ A2]. destruct (decide (k = t)) as [->|Hne].
  - assert (∀ v o (s1 : state), select th !! i = Some o → (th = SndGet q → v ≠ None) →
      threads (resume_thread t th (Some i) v s1) !! t = Some (SndGet q) → False) as Hres.
    { intros v o s1 Hsel Hv. rewrite threads_resume_eq. intros [= E].
      destruct (get_resume _ _ _ _ _ Hsel E) as [-> ->]. by apply Hv. }
    intros Hk. exfalso. revert Hk.
    destruct Hd as [c ch a b Hsel|c ch Hsel Hch Hb|Hsel|c ch a Hsel|c ch a Hsel|c ch a t' x j Hsel Hch Hcap];
      (eapply Hres; [done|]); intros ->; cbn in Hsel; select_cases Hsel; try done.
    apply (A2 _ _) in Ht. simplify_eq. unfold contents in Ht. by rewrite Hch, <-Hb in Ht.
  - destruct Hd as [c ch a b Hsel|c ch Hsel|Hsel|c ch a Hsel|c ch a Hsel|c ch a t' x j Hsel Hch Hcap Hn' Ht' Hsel'];
      rewrite threads_resume by done; try done.
    destruct (decide (k = t')) as [->|]; [|by rewrite threads_resume by done].
    rewrite threads_resume_eq. intros [= E]. by destruct (get_resume _ _ _ _ _ Hsel' E).
Qed.
Lemma al_fed_case t th i s s' k q :
  typed s → threads s !! t = Some th → case_done t th i s s' → alert s →
  threads s' !! k = Some (SndGet q) → contents s' q ≠ [].
Proof.
  intros Hty Ht Hd Ha Hk. destruct (get_case _ _ _ _ _ _ _ Ht Hd Ha Hk) as [Hk' Hne].
  pose proof (al_fed _ Ha _ _ Hk') as Hq.
  destruct (do_case_contents _ _ _ _ _ q Hd) as [Hc|[(a & Hc & Hsel)|(a & Hc & Hsel)]].
  - by rewrite Hc.
  - exfalso. pose proof (ty_thread _ Hty _ _ Ht) as Hth.
    destruct (ty_thread _ Hty _ _ Hk') as (Ho & -> & _). pose proof (vt_sendQ _ (ty_vars _ Hty)) as Hs.
    destruct th; cbn in Hsel; try destruct tq; cbn in Hsel; select_cases Hsel; simplify_eq; simpl in Hth;
      unfold owner in *; naive_solver congruence.
  - rewrite Hc. by destruct (contents s q).
Qed.

(** Nothing to do: then a message that comes makes its sender signal. *)
Lemma drained_send t th i c a s s' :
  threads s !! t = Some th → select th !! i = Some (OSend c a) → case_done t th i s s' →
  drains s th → signalled s'.
Proof.
  intros Ht Hsel Hd Hth. exists t.
  assert (fst (resume th (Some i) None) = SendSignal) as E.
  { destruct th; cbn in Hsel; try destruct tq; cbn in Hsel; select_cases Hsel; done. }
  rewrite <-E. destruct Hd; simplify_eq; apply threads_resume_eq.
Qed.
Lemma drained_case t th i s s' :
  threads s !! t = Some th → case_done t th i s s' → vars s' = vars s → drained s →
  signalled s' ∨ drained s'.
Proof.
  intros Ht Hd Hv [Hq Hds]. pose proof (Hds _ _ Ht) as Hth.
  assert (∀ v s1, threads s1 = threads s → s' = resume_thread t th (Some i) v s1 →
    (∀ c a, select th !! i ≠ Some (OSend c a)) → is_Some (select th !! i) →
    (∀ c, v ≠ None → select th !! i = Some (ORecv c) → contents s c ≠ []) → drained s') as Hrecv.
  { intros v s1 E -> Hno [o Ho] Hvc.
    assert (∀ c, contents s c = [] → contents (resume_thread t th (Some i) v s1) c = []) as Hc.
    { intros c Hc. destruct (do_case_contents _ _ _ _ _ c Hd) as [?|[(a & E' & _)|(a & _ & ?)]];
        [congruence|congruence|naive_solver]. }
    split; [unfold queued; rewrite Hv; by apply Hc|]. intros k th'.
    destruct (decide (k = t)) as [->|].
    - rewrite threads_resume_eq. intros [= <-].
      destruct th; cbn in Ho; try destruct tq; cbn in Ho; select_cases Ho; cbn; try destruct v;
        try destruct be; try done. exfalso. by apply (Hvc old).
    - rewrite threads_resume, E by done. intros Hk. specialize (Hds _ _ Hk).
      destruct th'; try done. by apply Hc. }
  destruct (select th !! i) as [[c0|c0 a0|]|] eqn:Hsel0; [|left; by eapply drained_send|..]; right;
    destruct Hd as [c ch a b Hsel Hch Hb|c ch Hsel Hch|Hsel|c ch a Hsel|c ch a Hsel|c ch a t' x j Hsel];
    try congruence.
  - eapply (Hrecv (Some a)); [|done|congruence|by eauto|]; [done|]. intros c' _ ?. simplify_eq.
    unfold contents. rewrite Hch. simpl. by rewrite Hb.
  - by eapply (Hrecv None); [|done|congruence|eauto|].
  - by eapply (Hrecv None); [|done|congruence|eauto|].
Qed.

Lemma alert_case t th i s s' :
  typed s → threads s !! t = Some th → case_done t th i s s' → alert s → alert s'.
Proof.
  intros Hty Ht Hd Ha. split; [|intros k q; by eapply al_fed_case].
  rewrite (vars_do_case _ _ _ _ _ Hd). intros Has.
  destruct (al_awake _ Ha Has) as [?|[[k Hk]|[Hq Hds]]]; [by left| |].
  { right; left. exists k. exact (do_case_idle _ _ _ _ _ _ _ Ht Hd Hk eq_refl). }
  right. apply (drained_case t th i s); [done|done|by eapply vars_do_case|done].
Qed.

Lemma alert_default t th s :
  threads s !! t = Some th → has_default th = true → alert s →
  alert (resume_thread t th None None s).
Proof.
  intros Ht Hd Ha. unfold resume_thread. destruct th; try done; cbn.
  - revert Ha. by eapply (alert_move t _ (SendSel2 pq m tq be)).
  - revert Ha. by eapply (alert_move t _ Unlock).
  - destruct Ha as [A1 A2]. split; simpl.
    + intros Has. destruct (A1 Has) as [?|[[k Hk]|[_ Hds]]]; [by left| |by destruct (Hds _ _ Ht)].
      right; left. exists k. simpl. rewrite lookup_insert. case_decide; [congruence|done].
    + intros k q. rewrite lookup_insert. case_decide; [done|]. apply A2.
Qed.

Lemma alert_sender_top t s :
  no_critical s → threads s !! t = Some Snd → asleep (vars s) = false → alert (sender_top t s).
Proof.
  intros Hn Ht Has. unfold sender_top.
  assert (∀ k th q, <[t := th]> (threads s) !! k = Some (SndGet q) → th = SndGet q) as Hget.
  { intros k th q. rewrite lookup_insert. case_decide; [by intros [= ->]|]. intros Hk%Hn. done. }
  destruct (closed (vars s)); [|case_decide as Hd]; (split; simpl; [|intros k q Hk%Hget; try done]).
  - by rewrite Has.
  - intros _. destruct Hd as [?|Hq]; [by left|]. right; right. split; [done|]. intros k th. simpl.
    rewrite lookup_insert. case_decide; [by intros [= <-]|]. intros Hk%Hn. by destruct th.
  - by rewrite Has.
  - simplify_eq. intros Hq. apply Hd. by right.
Qed.

Lemma alert_resize z s : wf s → alert s → alert (resize z s).
Proof.
  intros Hwf [A1 A2]. unfold resize. cbn [make_chan].
  assert (∀ c (s' : state), chans s' = <[(KSend, fresh s) := mkChan [] (Z.to_nat z) false [] []]> (chans s) →
    contents s' c = contents s c) as Hc.
  { intros c s' E. rewrite <-(contents_make_chan KSend (Z.to_nat z) s c Hwf). by apply contents_same. }
  assert (∀ k, is_Some (threads s !! k) → k ≠ Datatypes.S (fresh s)) as Hf.
  { intros k Hk%(wf_fresh_t _ Hwf). lia. }
  split; simpl.
  - intros Has. destruct (A1 Has) as [?|[[k Hk]|[Hq Hds]]]; [by left| |].
    + right; left. exists k. simpl. rewrite lookup_insert_ne; [done|]. symmetry. apply Hf. by eauto.
    + right; right. split.
      * unfold queued. rewrite Hc by done. simpl. unfold contents. by rewrite make_chan_new.
      * intros k th. simpl. rewrite lookup_insert. case_decide.
        { intros [= <-]. simpl. by rewrite Hc by done. }
        intros Hk%Hds. destruct th; try done. simpl. by rewrite Hc by done.
  - intros k q. rewrite lookup_insert. case_decide; [done|]. rewrite Hc by done. apply A2.
Qed.

(** A state that differs by channels made or closed. *)
Lemma alert_chans s s' :
  (∀ c, contents s' c = contents s c) → threads s' = threads s → vars s' = vars s → alert s → alert s'.
Proof. intros Hc Ht Hv. apply alert_keep; [by rewrite Hv, Ht|done|rewrite Ht; by left]. Qed.
Lemma alert_AddPipe p id s : wf s → alert s → alert (snd (AddPipe p id s)).
Proof.
  intros Hwf Ha. unfold AddPipe. destruct (make_chan KSignal 0 s) as [cq s1] eqn:E1.
  destruct (okstep_make_chan _ _ _ _ _ Hwf E1) as (_ & Hwf1 & _ & Hv1 & Ht1).
  destruct (make_chan KPipe 1 s1) as [sq s2] eqn:E2.
  destruct (okstep_make_chan _ _ _ _ _ Hwf1 E2) as (_ & Hwf2 & _ & Hv2 & Ht2).
  assert (alert s2) as Ha2.
  { revert Ha. apply alert_chans; [|congruence..]. intros c.
    pose proof (contents_make_chan KPipe 1 s1 c Hwf1) as H2. rewrite E2 in H2.
    pose proof (contents_make_chan KSignal 0 s c Hwf) as H1. rewrite E1 in H1. simpl in *. congruence. }
  clear Ha E1 E2. destruct (closed _); cbn [snd]; [revert Ha2; by apply alert_keep; auto|].
  revert Ha2. by apply (alert_go (Receiver p)).
Qed.
Lemma alert_RemovePipe p po s : wf s → alert s → alert (RemovePipe p po s).
Proof.
  intros Hwf Ha. unfold RemovePipe. set (s1 := set_vars _ s).
  assert (alert s1) as Ha1 by (revert Ha; apply alert_keep; auto).
  assert (alert (close_chan (p_closeQ po) s1)) as Ha2.
  { revert Ha1. apply alert_chans; [intros c; apply contents_close_chan|apply threads_close_chan
      |apply vars_close_chan]. }
  revert Ha2. apply (alert_go (RemoveLock p)); try done. apply wf_close_chan. by apply wf_vars.
Qed.
Lemma alert_RemovePipe_locked t p po s :
  wf s → threads s !! t = Some (RemoveLock p) → alert s → alert (RemovePipe_locked t p po s).
Proof.
  intros Hwf Ht Ha. unfold RemovePipe_locked. set (s1 := set_thread t Done _).
  assert (alert s1) as Ha1.
  { revert Ha. apply alert_keep; simpl; [|done|].
    - intros ?. split_and!; [done|by intros ->|done|]. intros k Hk. rewrite lookup_insert_ne; congruence.
    - intros k th. rewrite lookup_insert. case_decide; [intros [= <-]; by right|by left]. }
  assert (wf s1) as Hwf1 by (apply advance_set_thread; [by eauto|by apply wf_vars]).
  clearbody s1. destruct (_ && _); [|done].
  assert (alert (close_chan (noPeerQ (vars s1)) s1)) as Ha2.
  { revert Ha1. apply alert_chans; [intros c; apply contents_close_chan|apply threads_close_chan
      |apply vars_close_chan]. }
  pose proof (wf_close_chan (noPeerQ (vars s1)) _ Hwf1) as Hwf2. revert Ha2.
  generalize (close_chan (noPeerQ (vars s1)) s1), Hwf2. clear. intros s Hwf. cbn [make_chan].
  apply alert_keep; [done| |by left]. intros c.
  rewrite <-(contents_make_chan KSignal 0 s c Hwf). by apply contents_same.
Qed.

Lemma alert_ext e s s' :
  wf s → typed s → ext e s = Some s' → alert s → alert s'.
Proof.
  intros Hwf Hty Hs Ha. revert Hs.
  assert (∀ th s', chans s' = chans s → threads s' = <[fresh s := th]> (threads s) → plain th = true →
    (asleep (vars s') = true → asleep (vars s) = true ∧ readyQ (vars s') = readyQ (vars s) ∧
     sendQ (vars s') = sendQ (vars s)) → alert s') as Hgo by (intros; by eapply alert_go).
  assert (∀ s', (∀ c, contents s' c = contents s c) → threads s' = threads s →
    (asleep (vars s') = true → asleep (vars s) = true ∧ readyQ (vars s') = readyQ (vars s) ∧
     sendQ (vars s') = sendQ (vars s)) → alert s') as Hsame.
  { intros s1 H1 H2 H3. revert Ha. apply alert_keep; [|done|rewrite H2; by left].
    intros (? & Hr & ?)%H3. split_and!; [done|by rewrite Hr|done|by rewrite H2]. }
  destruct e; cbn [ext];
    try match goal with
    | |- context [match threads s !! ?t with _ => _ end] =>
        destruct (threads s !! t) as [[]|] eqn:Ht; try done
    end.
  - intros [_ [= <-]]%guard_bind_Some. unfold SendMsg. cbv zeta.
    destruct (closed _); [|destruct (_ && _)]; by eapply Hgo.
  - intros Hs. apply bind_Some in Hs as (th & Ht & Hs). apply bind_Some in Hs as (th' & Hs & [= <-]).
    revert Ha. destruct th; simplify_eq/=; by eapply (alert_move t).
  - intros [_ [= <-]]%guard_bind_Some. destruct Ha as [_ A2]. split; [done|]. intros k q. simpl.
    rewrite lookup_insert. case_decide; [done|apply A2].
  - intros [[Hf Has] [= <-]]%guard_bind_Some. apply alert_sender_top; [by apply free_no_critical|done..].
  - intros [= <-]. destruct (ty_thread _ Hty _ _ Ht) as (_ & _ & Hr & Has). unfold sender_got.
    destruct (readyQ (vars s)) as [|p l] eqn:Hl; [done|].
    destruct (xpush_okstep_sender_next t m p l s Hwf Hty Ht Hl) as [_ Hn].
    apply alert_sender_top; [done| |done]. assert (t < fresh s) by (apply (wf_fresh_t _ Hwf); eauto).
    simpl. rewrite lookup_insert_ne by lia. apply lookup_insert_eq.
  - intros [_ [= <-]]%guard_bind_Some. by apply Hsame.
  - intros [= <-]. revert Ha. by eapply (alert_move t).
  - intros [= <-]. revert Ha. unfold send_returned. destruct e; by eapply (alert_move t).
  - intros Hs. apply bind_Some in Hs as (po & Hpo & [_ [= <-]]%guard_bind_Some). unfold send_sent.
    revert Ha. destruct (_ && _); by eapply (alert_move t).
  - intros [= <-]. revert Ha. by eapply (alert_move t).
  - intros [= <-]. assert (alert (close_chan c s)) as Ha'.
    { apply Hsame; rewrite ?threads_close_chan, ?vars_close_chan; try done.
      intros k. apply contents_close_chan. }
    revert Ha'. by eapply (alert_move t); [rewrite threads_close_chan|..].
  - intros [= <-]. revert Ha. by eapply (alert_move t).
  - intros [_ [= <-]]%guard_bind_Some. unfold SetOption.
    do 3 (destruct (String.eqb name _); [destruct v; try done; by apply Hsame|]).
    destruct (String.eqb name _); [|done]. destruct v; try done. destruct (0 <=? z)%Z; [|done].
    by apply alert_resize.
  - intros [_ [= <-]]%guard_bind_Some. unfold Close. destruct (closed (vars s)); [done|]. by eapply Hgo.
  - intros [_ [= <-]]%guard_bind_Some. by apply alert_AddPipe.
  - intros Hs. apply bind_Some in Hs as (po & Hpo & [_ [= <-]]%guard_bind_Some). by apply alert_RemovePipe.
  - intros Hs. apply bind_Some in Hs as (po & Hpo & [_ [= <-]]%guard_bind_Some).
    by apply alert_RemovePipe_locked.
Qed.

Lemma reachable_alert s : reachable step init ok s → good s ∧ serial s ∧ alert s.
Proof.
  revert s. apply (reachable_invariant _ _ _ (λ s, good s ∧ serial s ∧ alert s)).
  - intros s Hi. destruct (xpush_init_good s Hi) as [Hg _]. unfold init in Hi. subst s.
    split_and!; [done|split|split]; simpl.
    + apply NoDup_nil_2.
    + set_solver.
    + set_solver.
    + intros t1 t2 th1 th2 p. rewrite !lookup_insert. by repeat case_decide; intros; simplify_eq.
    + done.
    + intros t q. rewrite lookup_insert. by case_decide.
  - intros l s s' ([Hwf Hown Hty] & Hser & Hal) _ Hs. destruct (gstep_ok ext _ _ _ Hwf Hty Hs) as [Ha ? ?].
    split; [split; [by apply Ha|auto|auto]|]. apply guard_bind_Some in Hs as [_ Hs].
    destruct l as [t i r|t|e].
    + apply bind_Some in Hs as (th & Ht & Hs%do_case_done).
      split; [by eapply serial_case|by eapply alert_case].
    + apply bind_Some in Hs as (th & Ht & [[Hd Hrd] Hs]%guard_bind_Some).
      apply (inj Some) in Hs. subst s'. split; [|by apply alert_default]. revert Hser. unfold resume_thread.
      apply serial_keep; [by destruct (resume th None None)..|]. 
      eapply (keeps_busy_insert t (fst (resume th None None))); [by destruct (resume th None None)|].
      left. by destruct th.
    + split; [by eapply serial_ext|by eapply alert_ext].
Qed.

(** The pipes' transports that have or had message [x]. *)
Definition transports (x : nat) (s : state) : nat :=
  map_sum (λ th, match th with Sending _ m => kocc x [m] | _ => 0 end) (threads s) +
  kocc x (passed s).

(** C28. Each message of a PUSH socket goes to one pipe at most, and each pipe
    works on one message at a time: a pipe is ready at most once, is open then,
    and is not sending; what a transport is given was submitted, unchanged. *)
Theorem xpush_one_pipe s (H : reachable step init ok s) :
  (∀ x, transports x s ≤ 1) ∧
  NoDup (readyQ (vars s)) ∧
  (∀ p, p ∈ readyQ (vars s) → ∃ po, pobjs (vars s) !! p = Some po ∧ p_closed po = false) ∧
  (∀ t p m, threads s !! t = Some (Sending p m) → m ∈ submitted (vars s) ∧ p ∉ readyQ (vars s) ∧
     ∀ t' m', threads s !! t' = Some (Sending p m') → t' = t).
Proof.
  destruct (reachable_alert s H) as (_ & [S1 S2 S3 S4] & _).
  destruct (reachable_xpush s H) as [[Hwf Ho [_ Ht Hv]] Hu]. split_and!; [|done|done|].
  - intros x. apply few_holders; [|done|done]. intros th. destruct th; simpl; lia.
  - intros t p m Hth. split_and!; [apply (Ht _ _ Hth)|by eapply S3|]. intros t' m' Ht'. by eapply S4.
Qed.

(** C29. [sender] never sleeps through work: while it waits on the condition
    variable there is no ready pipe, or no message that it could take, or a
    [SendMsg] that put one on the queue is about to signal.  Under the mutex,
    its receive from the queue does not block, and the pipe it takes is there. *)
Theorem xpush_no_lost_wakeup s (H : reachable step init ok s) :
  (asleep (vars s) = true → readyQ (vars s) = [] ∨ queued s = [] ∨ signalled s) ∧
  (∀ t q, threads s !! t = Some (SndGet q) → contents s q ≠ []) ∧
  (∀ t m, threads s !! t = Some (SndGot m) → readyQ (vars s) ≠ []).
Proof.
  destruct (reachable_alert s H) as ([_ _ [_ Ht _]] & _ & [A1 A2]). split_and!; [|exact A2|].
  - intros Has. destruct (A1 Has) as [?|[?|[? _]]]; auto.
  - intros t m Hth. by destruct (Ht _ _ Hth) as (_ & _ & ? & _).
Qed.

(** *** A queue of length zero *)

(** [SetOption] was called with a queue length of 0 before anything else, and
    the length is not changed again. *)
Definition init0 (s : state) : Prop := s = snd (SetOption OptionWriteQLen (VInt 0) NewProtocol).
Definition ok0 : state → label event → Prop :=
  gok (λ _ e, match e with ESetOption name _ => name ≠ OptionWriteQLen | _ => True end).

Definition off_duty (th : thread) : Prop :=
  match th with SndGet _ | SndGot _ | Sending _ _ => False | _ => True end.
Record zero (s : state) : Prop := {
  zr_cap : ∃ ch, chans s !! sendQ (vars s) = Some ch ∧ cap ch = 0;
  zr_duty t th : threads s !! t = Some th → off_duty th;
  zr_passed : passed s = []
}.
Lemma zero_keep s s' :
  advance s s' → sendQ (vars s') = sendQ (vars s) → passed s' = passed s →
  (∀ t th, threads s' !! t = Some th → threads s !! t = Some th ∨ off_duty th) → zero s → zero s'.
Proof.
  intros Ha Hq Hp Ht [(ch & Hch & Hcap) Z2 Z3]. split; rewrite ?Hq, ?Hp; [|naive_solver|done].
  destruct (adv_chans _ _ Ha _ _ Hch) as (ch' & ? & E & _). exists ch'. split; [done|congruence].
Qed.
Lemma zero_queued s : wf s → zero s → queued s = [].
Proof.
  intros Hwf [(ch & Hch & Hcap) _ _]. unfold queued, contents. rewrite Hch. simpl.
  destruct (wf_chan _ Hwf _ _ Hch) as [_ Hl]. destruct (buf ch); [done|simpl in *; lia].
Qed.
Lemma off_duty_case th i o v :
  select th !! i = Some o → off_duty th → off_duty (fst (resume th (Some i) v)).
Proof.
  intros Hsel. destruct th; cbn in Hsel; try destruct tq; cbn in Hsel; select_cases Hsel;
    cbn; try destruct v; try destruct be; done.
Qed.

Lemma zero_ext e s s' :
  wf s → typed s → ok0 s (LExt e) → ext e s = Some s' → zero s → zero s'.
Proof.
  intros Hwf Hty Hok Hs Hz. pose proof (os_advance _ _ (ext_ok ext e s s' Hwf Hty Hs)) as Ha. revert Hs.
  assert (∀ th k, threads s' = <[k := th]> (threads s) → off_duty th →
    sendQ (vars s') = sendQ (vars s) → passed s' = passed s → zero s') as Hmove.
  { intros th k Ht Hth Hq Hp. revert Hz. apply zero_keep; [done..|]. intros j x.
    rewrite Ht, lookup_insert. case_decide; [intros [= <-]; by right|by left]. }
  assert (threads s' = threads s → sendQ (vars s') = sendQ (vars s) → passed s' = passed s →
    zero s') as Hsame.
  { intros Ht Hq Hp. revert Hz. apply zero_keep; [done..|]. rewrite Ht. by left. }
  destruct e; cbn [ext];
    try match goal with
    | |- context [match threads s !! ?t with _ => _ end] =>
        destruct (threads s !! t) as [[]|] eqn:Ht; try done; try (by destruct (zr_duty _ Hz _ _ Ht))
    end.
  - intros [_ [= <-]]%guard_bind_Some. unfold SendMsg in *. cbv zeta in *.
    destruct (closed _); [|destruct (_ && _)]; by eapply Hmove.
  - intros Hs. apply bind_Some in Hs as (th & Ht & Hs). apply bind_Some in Hs as (th' & Hs & [= <-]).
    destruct th; simplify_eq/=; by eapply Hmove.
  - intros [_ [= <-]]%guard_bind_Some. by eapply Hmove.
  - intros [_ [= <-]]%guard_bind_Some. revert Hmove. unfold sender_top. rewrite zero_queued by done.
    rewrite decide_True by (by right). destruct (closed (vars s)); intros Hmove; by eapply Hmove.
  - intros [_ [= <-]]%guard_bind_Some. by apply Hsame.
  - intros [= <-]. by eapply Hmove.
  - intros Hs. apply bind_Some in Hs as (po & Hpo & [_ [= <-]]%guard_bind_Some).
    revert Hmove. unfold send_sent. destruct (_ && _); intros Hmove; by eapply Hmove.
  - intros [= <-]. by eapply Hmove.
  - intros [= <-]. eapply (Hmove Done t); simpl;
      by rewrite ?threads_close_chan, ?vars_close_chan, ?passed_close_chan.
  - intros [= <-]. by eapply Hmove.
  - intros [_ [= <-]]%guard_bind_Some. revert Hsame. unfold SetOption.
    do 3 (destruct (String.eqb name _); [destruct v; intros Hsame; by apply Hsame|]).
    destruct (String.eqb_spec name OptionWriteQLen) as [E|]; [by destruct (Hok E)|]. done.
  - intros [_ [= <-]]%guard_bind_Some. revert Hmove. unfold Close.
    destruct (closed (vars s)); [done|]. intros Hmove. by eapply Hmove.
  - intros [_ [= <-]]%guard_bind_Some. revert Hmove Hsame. unfold AddPipe. cbn.
    destruct (closed (vars s)); cbn; intros Hmove Hsame; [by apply Hsame|by eapply Hmove].
  - intros Hs. apply bind_Some in Hs as (po & Hpo & [_ [= <-]]%guard_bind_Some).
    eapply Hmove; unfold RemovePipe; simpl;
      rewrite ?threads_close_chan, ?vars_close_chan, ?passed_close_chan; done.
  - intros Hs. apply bind_Some in Hs as (po & Hpo & [_ [= <-]]%guard_bind_Some).
    revert Hmove. unfold RemovePipe_locked. destruct (_ && _); intros Hmove; eapply Hmove; simpl;
      rewrite ?threads_close_chan, ?vars_close_chan, ?passed_close_chan; done.
Qed.

Lemma reachable_zero s : reachable step init0 ok0 s → good s ∧ zero s.
Proof.
  revert s. apply (reachable_invariant _ _ _ (λ s, good s ∧ zero s)).
  - intros s ->. destruct (xpush_init_good NewProtocol eq_refl) as [[Hwf Hown Hty] _].
    assert (no_critical NewProtocol) as Hn by by apply free_no_critical.
    destruct (xpush_okstep_SetOption OptionWriteQLen (VInt 0) NewProtocol Hwf Hn) as [Ha ? ?].
    split; [split; [by apply Ha|auto|auto]|]. split; [by eexists; vm_compute| |done].
    intros t th. simpl. rewrite lookup_insert. case_decide; [by intros [= <-]|].
    rewrite lookup_insert. case_decide; [by intros [= <-]|done].
  - intros l s s' ([Hwf Hown Hty] & Hz) Hok Hs. destruct (gstep_ok ext _ _ _ Hwf Hty Hs) as [Ha ? ?].
    split; [split; [by apply Ha|auto|auto]|]. apply guard_bind_Some in Hs as [_ Hs].
    destruct l as [t i r|t|e]; [..|by eapply zero_ext].
    + apply bind_Some in Hs as (th & Ht & Hs%do_case_done). revert Hz. pose proof zr_duty.
      intros Hz. pose proof Hz as [_ Z2 _]. revert Hz.
      apply zero_keep; [done|by rewrite (vars_do_case _ _ _ _ _ Hs)|by eapply passed_do_case|].
      intros k th' Hk. destruct (do_case_threads _ _ _ _ _ _ _ Ht Hs Hk) as [?|(th0 & j & o & v & H0 & Hsel & _ & _ & ->)].
      * by left.
      * right. eapply off_duty_case; eauto.
    + apply bind_Some in Hs as (th & Ht & [[Hd Hrd] Hs]%guard_bind_Some).
      apply (inj Some) in Hs. subst s'. revert Hz. unfold resume_thread in *.
      destruct th; try done; apply zero_keep; try done; intros k x; simpl; rewrite lookup_insert;
        (case_decide; [intros [= <-]; by right|by left]).
Qed.

(** C30. With a queue of length 0 a PUSH socket sends nothing at all: no pipe
    is ever given a message, however many are ready and wait, and however often
    [SendMsg] is called. *)
Theorem xpush_unbuffered_never_sends s (H : reachable step init0 ok0 s) :
  passed s = [] ∧ queued s = [] ∧ ∀ t p m, threads s !! t ≠ Some (Sending p m).
Proof.
  destruct (reachable_zero s H) as [[Hwf _ _] Hz]. split_and!; [apply Hz|by apply zero_queued|].
  intros t p m Ht. by destruct (zr_duty _ Hz _ _ Ht).
Qed.

Definition job (n : nat) : msg := mkMsg [] [Byte.x61] None n.
(** A message waits for [sender], which slept until pipe 0 came. *)
Definition xpush_run : state :=
  play step (λ _ _, true)
    [LExt (ESender 3); LExt (ESend (job 0)); LExt (ESelect 4); LCase 4 1 None; LExt (ESignal 4);
     LExt (ESender 3); LExt (EAddPipe 0 7); LExt (ESender 3); LCase 3 0 None; LExt (ESender 3)]
    NewProtocol.
Lemma xpush_one_pipe_witness :
  threads xpush_run !! 8 = Some (Sending 0 (job 0)) ∧ transports 0 xpush_run ≤ 1 ∧
  0 ∉ readyQ (vars xpush_run).
Proof.
  assert (reachable step init ok xpush_run) as Hr by (by apply play_reachable; [intros ? []|]).
  assert (threads xpush_run !! 8 = Some (Sending 0 (job 0))) as Ht by by vm_compute.
  destruct (xpush_one_pipe xpush_run Hr) as (Htr & _ & _ & Hs).
  split_and!; [done|apply Htr|apply (Hs _ _ _ Ht)].
Defined.

(** Pipe 0 is ready and a message is queued while [sender] sleeps: the
    [SendMsg] that queued it is about to signal. *)
Definition xpush_sleep : state :=
  play step (λ _ _, true)
    [LExt (EAddPipe 0 7); LExt (ESender 3); LExt (ESend (job 0)); LExt (ESelect 7); LCase 7 1 None]
    NewProtocol.
Lemma xpush_no_lost_wakeup_witness :
  asleep (vars xpush_sleep) = true ∧ readyQ (vars xpush_sleep) = [0] ∧
  queued xpush_sleep = [job 0] ∧ signalled xpush_sleep.
Proof.
  assert (reachable step init ok xpush_sleep) as Hr by (by apply play_reachable; [intros ? []|]).
  assert (asleep (vars xpush_sleep) = true) as Ha by by vm_compute.
  split_and!; [done|by vm_compute|by vm_compute|].
  destruct (proj1 (xpush_no_lost_wakeup xpush_sleep Hr) Ha) as [Hn|[Hn|Hn]];
    [by vm_compute in Hn..|done].
Defined.

(** Pipe 0 is ready, and a [SendMsg] waits for good. *)
Definition xpush_stuck : state :=
  play step (λ _ l, match l with LExt (ESetOption _ _) => false | _ => true end)
    [LDefault 5; LExt (EUnlock 5); LExt (EAddPipe 0 7); LExt (ESender 3); LExt (ESend (job 0));
     LExt (ESelect 9); LDefault 9; LExt (ESelect 9)]
    (snd (SetOption OptionWriteQLen (VInt 0) NewProtocol)).
Lemma xpush_unbuffered_never_sends_witness :
  threads xpush_stuck !! 9 = Some (SendWait (KSend, 4) (KSignal, 1) (KSignal, 0) (job 0) false false) ∧
  readyQ (vars xpush_stuck) = [0] ∧ passed xpush_stuck = [].
Proof.
  assert (reachable step init0 ok0 xpush_stuck) as Hr.
  { apply play_reachable; [|done]. intros ? [| |[]]; try done. }
  split_and!; [by vm_compute|by vm_compute|apply (xpush_unbuffered_never_sends xpush_stuck Hr)].
Defined.
