(* ===== verification/XPull.v ===== *)
(** * XPull: the raw PULL protocol

    [src/protocol/xpull/xpull.go], complete, as a program of [Chan].  Every
    pipe has a goroutine that puts what arrives on the one queue [recvQ].
    [p_arrived] records what arrived on a pipe, in order. *)
From stdpp Require Import gmap list strings fin_maps.
From Stdlib Require Import ZArith Lia.
From S2P Require Import Prelude Types Chan Backtrace.

(** The channels: those that only get closed, and [recvQ]. *)
Inductive kind := KSignal | KRecv.
#[export] Instance kind_eq_dec : EqDecision kind.
Proof. solve_decision. Defined.
#[export] Instance kind_countable : Countable kind.
Proof.
  refine (inj_countable' (λ k, match k with KSignal => false | KRecv => true end)
    (λ x : bool, if x then KRecv else KSignal) _).
  by intros [].
Defined.
Abbreviation chid := (kind * nat)%type.

Abbreviation pid := nat.
Record pipe := mkPipe { p_closeQ : chid; p_arrived : list msg }.
#[export] Instance eta_pipe : Eta pipe := λ p, mkPipe (p_closeQ p) (p_arrived p).

Record socket := mkSocket {
  closed : bool;
  closeQ : chid;
  sizeQ : chid;
  recvQ : chid;
  recvQLen : Z;
  resizeDiscards : bool;
  recvExpire : Z;
  pobjs : gmap pid pipe;
  removed : gset pid;
  pclosed : gset pid
}.
#[export] Instance eta_socket : Eta socket := λ s,
  mkSocket (closed s) (closeQ s) (sizeQ s) (recvQ s) (recvQLen s) (resizeDiscards s) (recvExpire s)
    (pobjs s) (removed s) (pclosed s).

Definition defaultQLen : Z := 128.

(** Program points.  [tq]: the timer of [RecvMsg] is set. *)
Inductive thread :=
  | RecvTop (tq : bool)                       (* RecvMsg, before s.Lock() *)
  | RecvTry (rq zq cq : chid) (tq : bool)
  | RecvWait (rq zq cq : chid) (tq : bool)
  | RecvRet (r : result msg)
  | Receiver (p : pid)                        (* in p.p.RecvMsg() *)
  | RecvInner (p : pid) (m : msg)             (* receiver, inner loop, before s.Lock() *)
  | RecvPut (p : pid) (m : msg) (rq zq cq : chid)
  | PipeClose (p : pid)
  | Resized (zq old new : chid) (discard : bool)  (* SetOption, before close(zq) *)
  | Drain (old new : chid)
  | DrainPut (m : msg) (old new : chid)
  | CloseChan (c : chid)
  | Done.

Definition timer (tq : bool) : list (op kind msg) := if tq then [OTime] else [].

Definition sel (th : thread) : list (op kind msg) :=
  match th with
  | RecvTry rq zq cq tq => [ORecv rq]
  | RecvWait rq zq cq tq => [ORecv cq; ORecv zq; ORecv rq] ++ timer tq
  | RecvPut p m rq zq cq => [OSend rq m; ORecv zq; ORecv cq]
  | Drain old new => [ORecv old]
  | DrainPut m old new => [OSend new m]
  | _ => []
  end.
Definition dflt (th : thread) : bool :=
  match th with RecvTry _ _ _ _ | Drain _ _ | DrainPut _ _ _ => true | _ => false end.

(** After a case.  [recvQ] is never closed, so a receive from it brings a
    message. *)
Definition res (th : thread) (i : option nat) (v : option msg) : thread * list msg :=
  match th, i with
  | RecvTry rq zq cq tq, None => (RecvWait rq zq cq tq, [])
  | RecvTry rq zq cq tq, Some _ =>
      (match v with Some m => RecvRet (Ok m) | None => RecvTop tq end, [])
  | RecvWait rq zq cq tq, Some 0 => (RecvRet (Err ErrClosed), [])
  | RecvWait rq zq cq tq, Some 1 => (RecvTop tq, [])
  | RecvWait rq zq cq tq, Some 2 =>
      (match v with Some m => RecvRet (Ok m) | None => RecvTop tq end, [])
  | RecvWait rq zq cq tq, Some _ => (RecvRet (Err ErrRecvTimeout), [])
  | RecvPut p m rq zq cq, Some 0 => (Receiver p, [])
  | RecvPut p m rq zq cq, Some 1 => (RecvInner p m, [])
  | RecvPut p m rq zq cq, Some _ => (PipeClose p, [m])
  | Drain old new, Some _ => (match v with Some m => DrainPut m old new | None => Done end, [])
  | Drain old new, None => (Done, [])
  | DrainPut m old new, Some _ => (Drain old new, [])
  | DrainPut m old new, None => (Drain old new, [m])
  | th, _ => (th, [])
  end.

#[export] Instance xpull_program : Program kind msg thread :=
  { select := sel; has_default := dflt; resume := res }.

Abbreviation state := (st kind msg socket thread).

(** ** The critical sections *)
Definition SendMsg : error := Some ErrProtoOp.

(** [RecvMsg], one pass of its loop to the first [select]; a timer that was set
    in an earlier pass stays. *)
Definition RecvMsg_top (tq : bool) (s : state) : thread :=
  let σ := vars s in
  RecvTry (recvQ σ) (sizeQ σ) (closeQ σ) (tq || negb (recvExpire σ =? 0)%Z).

(** [receiver], when [p.p.RecvMsg()] has returned [m], and its inner loop. *)
Definition receiver_turn (t : thid) (p : pid) (po : pipe) (m : msg) (s : state) : state :=
  set_thread t (RecvInner p m)
    (set_vars (λ σ, σ <| pobjs ::= <[p := po <| p_arrived ::= (λ l, l ++ [m]) |>]> |>) (give [m] s)).
Definition receiver_inner (p : pid) (po : pipe) (m : msg) (s : state) : thread :=
  RecvPut p m (recvQ (vars s)) (sizeQ (vars s)) (p_closeQ po).

Definition pipe_close (t : thid) (p : pid) (s : state) : state :=
  set_thread t Done (set_vars (λ σ, σ <| pclosed ::= (λ x, {[p]} ∪ x) |>) s).

(** [OptionReadQLen]: the new queue, then without the mutex [close(zq)] and the
    loop that moves the messages. *)
Definition resize (z : Z) (s : state) : state :=
  let '(q, s) := make_chan KRecv (Z.to_nat z) s in
  let '(zq, s) := make_chan KSignal 0 s in
  let σ := vars s in
  go (Resized (sizeQ σ) (recvQ σ) q (resizeDiscards σ))
    (set_vars (λ σ, σ <| recvQLen := z |> <| recvQ := q |> <| sizeQ := zq |>) s).
Definition resized (t : thid) (zq old new : chid) (discard : bool) (s : state) : state :=
  set_thread t (if discard then Done else Drain old new) (close_chan zq s).

Definition SetOption (name : string) (v : value) (s : state) : error * state :=
  if String.eqb name OptionRecvDeadline then
    match v with
    | VDuration d => (None, set_vars (λ σ, σ <| recvExpire := d |>) s)
    | _ => (Some ErrBadValue, s)
    end
  else if String.eqb name OptionReadQLen then
    match v with
    | VInt z => if (0 <=? z)%Z then (None, resize z s) else (Some ErrBadValue, s)
    | _ => (Some ErrBadValue, s)
    end
  else if String.eqb name "_resizeDiscards" then
    match v with
    | VBool b => (None, set_vars (λ σ, σ <| resizeDiscards := b |>) s)
    | _ => (None, s)
    end
  else (Some ErrBadOption, s).

Definition GetOption (name : string) (σ : socket) : result value :=
  if String.eqb name OptionRaw then Ok (VBool true)
  else if String.eqb name OptionRecvDeadline then Ok (VDuration (recvExpire σ))
  else if String.eqb name OptionReadQLen then Ok (VInt (recvQLen σ))
  else Err ErrBadOption.

Definition AddPipe (p : pid) (s : state) : error * state :=
  let '(cq, s) := make_chan KSignal 0 s in
  let s := set_vars (λ σ, σ <| pobjs ::= <[p := mkPipe cq []]> |>) s in
  if closed (vars s) then (Some ErrClosed, s) else (None, go (Receiver p) s).

Definition RemovePipe (p : pid) (po : pipe) (s : state) : state :=
  close_chan (p_closeQ po) (set_vars (λ σ, σ <| removed ::= (λ x, {[p]} ∪ x) |>) s).

Definition OpenContext : error := Some ErrProtoOp.
Definition Info : ProtocolInfo := mkInfo ProtoPull ProtoPush "pull" "push".

Definition Close (s : state) : error * state :=
  if closed (vars s) then (Some ErrClosed, s)
  else (None, go (CloseChan (closeQ (vars s))) (set_vars (λ σ, σ <| closed := true |>) s)).

Definition NewProtocol : state :=
  mkSt (mkSocket false (KSignal, 0) (KSignal, 1) (KRecv, 2) defaultQLen false 0 ∅ ∅ ∅)
    {[ (KSignal, 0) := mkChan [] 0 false [] []; (KSignal, 1) := mkChan [] 0 false [] [];
       (KRecv, 2) := mkChan [] (Z.to_nat defaultQLen) false [] [] ]} ∅ 3 [] [] [] false.

(** ** The program *)
Inductive event :=
  | ERecv
  | ERecvTop (t : thid)
  | EPipeRecv (t : thid) (m : msg)
  | EPipeRecvNil (t : thid)
  | EInner (t : thid)
  | EPipeClose (t : thid)
  | EResized (t : thid)
  | ECloseChan (t : thid)
  | ESetOption (name : string) (v : value)
  | EClose
  | EAddPipe (p : pid)
  | ERemovePipe (p : pid).

(** New messages and pipe objects have identities of their own; the core
    removes a pipe once. *)
Definition ext (e : event) (s : state) : option state :=
  match e with
  | ERecv => Some (go (RecvTop false) s)
  | ERecvTop t =>
      match threads s !! t with
      | Some (RecvTop tq) => Some (set_thread t (RecvMsg_top tq s) s)
      | _ => None
      end
  | EPipeRecv t m =>
      match threads s !! t with
      | Some (Receiver p) =>
          po ← pobjs (vars s) !! p;
          guard (mref m ∉ mref <$> given s);; Some (receiver_turn t p po m s)
      | _ => None
      end
  | EPipeRecvNil t =>
      match threads s !! t with
      | Some (Receiver p) => Some (set_thread t (PipeClose p) s)
      | _ => None
      end
  | EInner t =>
      match threads s !! t with
      | Some (RecvInner p m) =>
          po ← pobjs (vars s) !! p; Some (set_thread t (receiver_inner p po m s) s)
      | _ => None
      end
  | EPipeClose t =>
      match threads s !! t with
      | Some (PipeClose p) => Some (pipe_close t p s)
      | _ => None
      end
  | EResized t =>
      match threads s !! t with
      | Some (Resized zq old new d) => Some (resized t zq old new d s)
      | _ => None
      end
  | ECloseChan t =>
      match threads s !! t with
      | Some (CloseChan c) => Some (set_thread t Done (close_chan c s))
      | _ => None
      end
  | ESetOption name v => Some (snd (SetOption name v s))
  | EClose => Some (snd (Close s))
  | EAddPipe p => guard (pobjs (vars s) !! p = None);; Some (snd (AddPipe p s))
  | ERemovePipe p =>
      po ← pobjs (vars s) !! p; guard (p ∉ removed (vars s));; Some (RemovePipe p po s)
  end.

Definition init (s : state) : Prop := s = NewProtocol.
Definition step : label event → state → option state := gstep ext.
Definition ok : state → label event → Prop := gok (λ _ _, True).

(** ** Ownership *)
Definition holding (th : thread) : list msg :=
  match th with
  | RecvRet (Ok m) | RecvInner _ m | RecvPut _ m _ _ _ | DrainPut m _ _ => [m]
  | _ => []
  end.

#[export] Instance xpull_owns : Owns (K := kind) (A := msg) (T := thread).
Proof.
  refine {| holds := holding |}.
  - intros th i o v y Hsel Hv.
    destruct th; cbn in Hsel; try destruct tq; cbn in Hsel; select_cases Hsel; cbn in *; subst;
      try (destruct v as [m'|]); owns_lia.
  - intros th y Hd. destruct th; try done; owns_lia.
Defined.

(** ** What the channels carry *)
Definition came (σ : socket) (m : msg) : Prop := ∃ p po, pobjs σ !! p = Some po ∧ m ∈ p_arrived po.
Definition came_on (σ : socket) (p : pid) (m : msg) : Prop :=
  ∃ po, pobjs σ !! p = Some po ∧ m ∈ p_arrived po.
Definition ctype (σ : socket) (c : chid) (m : msg) : Prop := c.1 = KRecv ∧ came σ m.

Definition ttype (σ : socket) (t : thid) (th : thread) : Prop :=
  match th with
  | RecvTry rq zq cq _ | RecvWait rq zq cq _ => rq.1 = KRecv ∧ zq.1 = KSignal ∧ cq.1 = KSignal
  | RecvRet (Ok m) => came σ m
  | Receiver p => is_Some (pobjs σ !! p)
  | RecvInner p m => came_on σ p m
  | RecvPut p m rq zq cq => came_on σ p m ∧ rq.1 = KRecv ∧ zq.1 = KSignal ∧ cq.1 = KSignal
  | Resized zq old new _ => zq.1 = KSignal ∧ old.1 = KRecv ∧ new.1 = KRecv
  | Drain old new => old.1 = KRecv ∧ new.1 = KRecv
  | DrainPut m old new => came σ m ∧ old.1 = KRecv ∧ new.1 = KRecv
  | CloseChan c => c.1 = KSignal
  | _ => True
  end.

Record vtype (σ : socket) : Prop := {
  vt_recvQ : (recvQ σ).1 = KRecv;
  vt_closeQ : (closeQ σ).1 = KSignal;
  vt_sizeQ : (sizeQ σ).1 = KSignal;
  vt_pipes p po : pobjs σ !! p = Some po → (p_closeQ po).1 = KSignal
}.

#[export] Instance xpull_typed : Typed (K := kind) (A := msg) (S := socket) (T := thread).
Proof.
  refine {| vars_type := vtype; chan_type := ctype; thread_type := ttype |}.
  - intros σ t th i o v Hsel Hth Hv. unfold ctype in *.
    destruct th; cbn in Hsel; try destruct tq; cbn in Hsel; select_cases Hsel; cbn in Hth;
      try (destruct v as [m'|]); cbn; unfold came, came_on in *; naive_solver.
  - intros σ t th Hd Hth. destruct th; try done; cbn in *; naive_solver.
Defined.

(** The variables change: what arrived stays so. *)
Definition vle (σ σ' : socket) : Prop :=
  ∀ p po, pobjs σ !! p = Some po →
    ∃ po', pobjs σ' !! p = Some po' ∧ p_arrived po `prefix_of` p_arrived po'.
Lemma xpull_came_on_mono σ σ' p m : vle σ σ' → came_on σ p m → came_on σ' p m.
Proof.
  intros Hle (po & Hpo & Hm). destruct (Hle _ _ Hpo) as (po' & ? & [l Hl]). exists po'.
  split; [done|]. rewrite Hl. set_solver.
Qed.
Lemma came_mono σ σ' m : vle σ σ' → came σ m → came σ' m.
Proof. intros Hle (p & Hp). exists p. by eapply xpull_came_on_mono. Qed.
Lemma xpull_vle_same σ σ' : pobjs σ' = pobjs σ → vle σ σ'.
Proof. intros E p po. rewrite E. eauto. Qed.
Lemma xpull_okstep_vars f s :
  vle (vars s) (f (vars s)) → (vtype (vars s) → vtype (f (vars s))) → okstep s (set_vars f s).
Proof.
  intros Hle Hv. assert (∀ m, came (vars s) m → came (f (vars s)) m) as H1 by by eauto using came_mono.
  assert (∀ p m, came_on (vars s) p m → came_on (f (vars s)) p m) as H2 by by eauto using xpull_came_on_mono.
  apply okstep_vars; [done|unfold chan_type; simpl; unfold ctype; naive_solver|].
  intros t th _ _ Hth. destruct th as [| | |[]| | | | | | | | |]; try done; simpl in *; try naive_solver.
  destruct Hth as [po Hpo]. destruct (Hle _ _ Hpo) as (po' & -> & _). done.
Qed.

(** ** The critical sections keep everything *)
Lemma xpull_okstep_receiver_turn t p po m s :
  threads s !! t = Some (Receiver p) → pobjs (vars s) !! p = Some po →
  okstep s (receiver_turn t p po m s).
Proof.
  intros Ht Hpo. set (f := λ σ : socket,
    σ <| pobjs ::= <[p := po <| p_arrived ::= (λ l, l ++ [m]) |>]> |>).
  assert (okstep s (set_vars f s)) as Hok.
  { apply xpull_okstep_vars.
    - intros q x Hx. simpl. rewrite lookup_insert. case_decide; [|by eauto]. simplify_eq.
      eexists. split; [done|]. by apply prefix_app_r.
    - intros []. split; try done. intros q x. simpl. rewrite lookup_insert. case_decide; [|by eauto].
      intros [= <-]. subst. apply (vt_pipes0 _ _ Hpo). }
  etrans; [exact Hok|]. change (okstep (set_vars f s) (set_thread t (RecvInner p m) (give [m] (set_vars f s)))).
  eapply (okstep_goto t _ _ [m]); [done|accounting|]. intros _. eexists.
  split; [by apply lookup_insert_eq|simpl; set_solver].
Qed.

Lemma xpull_okstep_resize z s : wf s → typed s → okstep s (resize z s).
Proof.
  intros Hwf Hty. destruct (ty_vars _ Hty) as [V1 V2 V3 V4]. unfold resize. destruct (make_chan KRecv (Z.to_nat z) s) as [q s1] eqn:E1.
  destruct (okstep_make_chan _ _ _ _ _ Hwf E1) as (Hok1 & Hwf1 & Hq & Hv1 & Ht1).
  destruct (make_chan KSignal 0 s1) as [zq s2] eqn:E2.
  destruct (okstep_make_chan _ _ _ _ _ Hwf1 E2) as (Hok2 & Hwf2 & Hzq & Hv2 & Ht2).
  etrans; [exact Hok1|]. etrans; [exact Hok2|].
  set (f := λ σ : socket, σ <| recvQLen := z |> <| recvQ := q |> <| sizeQ := zq |>).
  assert (okstep s2 (set_vars f s2)) as Hok3.
  { apply xpull_okstep_vars; [by apply xpull_vle_same|]. intros []. by split; subst. }
  etrans; [exact Hok3|]. apply okstep_go; [by apply Hok3|done|]. intros _. simpl.
  rewrite Hv2, Hv1. by subst.
Qed.

Lemma xpull_okstep_AddPipe p s :
  wf s → pobjs (vars s) !! p = None → okstep s (snd (AddPipe p s)).
Proof.
  intros Hwf Hp. unfold AddPipe. destruct (make_chan KSignal 0 s) as [cq s1] eqn:E1.
  destruct (okstep_make_chan _ _ _ _ _ Hwf E1) as (Hok1 & Hwf1 & Hcq & Hv1 & Ht1).
  etrans; [exact Hok1|]. set (f := λ σ : socket, σ <| pobjs ::= <[p := mkPipe cq []]> |>).
  assert (okstep s1 (set_vars f s1)) as Hok2.
  { apply xpull_okstep_vars.
    - intros q po Hq. simpl. rewrite lookup_insert_ne by congruence. eauto.
    - intros []. split; try done. intros q x. simpl. rewrite lookup_insert. case_decide; [|by eauto].
      intros [= <-]. by subst. }
  etrans; [exact Hok2|]. destruct (closed _); [reflexivity|]. cbn [snd].
  apply okstep_go; [by apply Hok2|done|]. intros _. simpl. by rewrite lookup_insert_eq.
Qed.

#[export] Instance xpull_ok : ExtOk ext.
Proof.
  intros e s s' Hwf Hty. destruct e; cbn [ext];
    try match goal with
    | |- context [match threads s !! ?t with _ => _ end] =>
        destruct (threads s !! t) as [[]|] eqn:Ht; try done; pose proof (ty_thread _ Hty _ _ Ht) as Hth
    end.
  - intros [= <-]. by apply okstep_go.
  - intros [= <-]. eapply okstep_stop; [done|done|]. intros _. by destruct (ty_vars _ Hty).
  - intros Hs. apply bind_Some in Hs as (po & Hpo & [_ [= <-]]%guard_bind_Some).
    by apply xpull_okstep_receiver_turn.
  - intros [= <-]. by eapply okstep_stop.
  - intros Hs. apply bind_Some in Hs as (po & Hpo & [= <-]).
    eapply okstep_set_thread; [done|count|]. intros _. destruct (ty_vars _ Hty). naive_solver.
  - intros [= <-]. etrans; [apply (xpull_okstep_vars (λ σ, σ <| pclosed ::= (λ x, {[p]} ∪ x) |>));
      [by apply xpull_vle_same|by intros []]|by eapply okstep_stop].
  - intros [= <-]. etrans; [apply okstep_close_chan|]. destruct Hth as (_ & ? & ?).
    eapply okstep_stop; [by rewrite threads_close_chan|by destruct discard|by destruct discard].
  - intros [= <-]. etrans; [apply okstep_close_chan|].
    eapply okstep_stop; [by rewrite threads_close_chan|done|done].
  - intros [= <-]. unfold SetOption.
    assert (∀ f : socket → socket, pobjs (f (vars s)) = pobjs (vars s) →
      (vtype (vars s) → vtype (f (vars s))) → okstep s (set_vars f s)) as Hvars.
    { intros f Hf Hv. apply xpull_okstep_vars; [by apply xpull_vle_same|done]. }
    destruct (String.eqb name _); [destruct v; try reflexivity; by apply Hvars; [done|by intros []]|].
    destruct (String.eqb name _).
    { destruct v; try reflexivity. destruct (0 <=? z)%Z; [|reflexivity]. by apply xpull_okstep_resize. }
    destruct (String.eqb name _); [|reflexivity].
    destruct v; try reflexivity; by apply Hvars; [done|by intros []].
  - intros [= <-]. unfold Close. destruct (closed (vars s)); [reflexivity|].
    assert (okstep s (set_vars (λ σ, σ <| closed := true |>) s)) as Hok
      by (apply xpull_okstep_vars; [by apply xpull_vle_same|by intros []]).
    etrans; [exact Hok|]. apply okstep_go; [by apply Hok|done|].
    intros _. apply (vt_closeQ _ (ty_vars _ Hty)).
  - intros [Hp [= <-]]%guard_bind_Some. by apply xpull_okstep_AddPipe.
  - intros Hs. apply bind_Some in Hs as (po & Hpo & [_ [= <-]]%guard_bind_Some).
    etrans; [|apply okstep_close_chan]. apply xpull_okstep_vars; [by apply xpull_vle_same|by intros []].
Qed.

Lemma xpull_init_good s : init s → good s ∧ refs_unique s.
Proof. intros ->. split; [|by apply NoDup_nil_2]. start_good. split; simpl; try done; set_solver. Qed.

Lemma xpull_ext_given e s s' :
  ext e s = Some s' →
  given s' = given s ∨ ∃ m, given s' = given s ++ [m] ∧ mref m ∉ mref <$> given s.
Proof.
  destruct e; cbn [ext];
    try match goal with
    | |- context [match threads s !! ?t with _ => _ end] => destruct (threads s !! t) as [[]|]; try done
    end.
  - intros [= <-]. by left.
  - intros [= <-]. by left.
  - intros Hs. apply bind_Some in Hs as (po & _ & [Hm [= <-]]%guard_bind_Some). right. by exists m.
  - intros [= <-]. by left.
  - intros Hs. apply bind_Some in Hs as (po & _ & [= <-]). by left.
  - intros [= <-]. by left.
  - intros [= <-]. left. apply given_close_chan.
  - intros [= <-]. left. apply given_close_chan.
  - intros [= <-]. left. unfold SetOption.
    repeat (destruct (String.eqb name _); [destruct v; try done; by destruct (0 <=? z)%Z|]). done.
  - intros [= <-]. left. unfold Close. by destruct (closed (vars s)).
  - intros [_ [= <-]]%guard_bind_Some. left. unfold AddPipe. cbn. by destruct (closed (vars s)).
  - intros Hs. apply bind_Some in Hs as (po & _ & [_ [= <-]]%guard_bind_Some). left.
    unfold RemovePipe. by rewrite given_close_chan.
Qed.
Lemma xpull_ext_refs_unique e s s' : ext e s = Some s' → refs_unique s → refs_unique s'.
Proof.
  intros [E|(m & E & Hm)]%xpull_ext_given.
  - unfold refs_unique. by rewrite E.
  - by apply (refs_unique_give m).
Qed.

Lemma reachable_xpull P s : reachable step init (gok P) s → good s ∧ refs_unique s.
Proof. apply reachable_good_unique; [apply _|apply xpull_init_good|apply xpull_ext_refs_unique]. Qed.

(** ** Order, while the queue is not resized *)
Definition ok1 : state → label event → Prop :=
  gok (λ _ e, match e with ESetOption name _ => name ≠ OptionReadQLen | _ => True end).

(** The goroutine of a pipe, and what it has in hand. *)
Definition worker (th : thread) : option (pid * list msg) :=
  match th with
  | Receiver p => Some (p, [])
  | RecvInner p m | RecvPut p m _ _ _ => Some (p, [m])
  | _ => None
  end.
(** One queue: nobody uses another one, or moves messages. *)
Definition one_queue (q : chid) (th : thread) : Prop :=
  match th with
  | RecvTry rq _ _ _ | RecvWait rq _ _ _ | RecvPut _ _ rq _ _ => rq = q
  | Resized _ _ _ _ | Drain _ _ | DrainPut _ _ _ => False
  | _ => True
  end.
(** What was put on the queue, and of that what came from pipe [po]. *)
Definition enqueued (s : state) : list msg := sent_on s (recvQ (vars s)).
Definition mine (po : pipe) (l : list msg) : list msg := filter (λ m, m ∈ p_arrived po) l.

Record fifo (s : state) : Prop := {
  ff_queue t th : threads s !! t = Some th → one_queue (recvQ (vars s)) th;
  ff_one t1 t2 th1 th2 p l1 l2 :
    threads s !! t1 = Some th1 → threads s !! t2 = Some th2 →
    worker th1 = Some (p, l1) → worker th2 = Some (p, l2) → t1 = t2;
  ff_hand t th p l po :
    threads s !! t = Some th → worker th = Some (p, l) → pobjs (vars s) !! p = Some po →
    p_arrived po = mine po (enqueued s) ++ l;
  ff_prefix p po : pobjs (vars s) !! p = Some po → mine po (enqueued s) `prefix_of` p_arrived po;
  ff_given p po m : pobjs (vars s) !! p = Some po → m ∈ p_arrived po → m ∈ given s;
  ff_disjoint p1 p2 po1 po2 m :
    pobjs (vars s) !! p1 = Some po1 → pobjs (vars s) !! p2 = Some po2 →
    m ∈ p_arrived po1 → m ∈ p_arrived po2 → p1 = p2;
  ff_open : shut s (recvQ (vars s)) = false
}.

(** Nothing arrives and nothing is put on the queue. *)
Lemma fifo_keep s s' :
  pobjs (vars s') = pobjs (vars s) → recvQ (vars s') = recvQ (vars s) → given s' = given s →
  enqueued s' = enqueued s → shut s' (recvQ (vars s)) = shut s (recvQ (vars s)) →
  (∀ t th, threads s' !! t = Some th →
     threads s !! t = Some th ∨ one_queue (recvQ (vars s)) th ∧
     (worker th = None ∨ ∃ th0, threads s !! t = Some th0 ∧ worker th0 = worker th)) →
  fifo s → fifo s'.
Proof.
  intros Hp Hq Hg He Hsh Ht [F1 F2 F3 F4 F5 F6 F7].
  assert (∀ t th p l, threads s' !! t = Some th → worker th = Some (p, l) →
    ∃ th0, threads s !! t = Some th0 ∧ worker th0 = Some (p, l)) as Hw.
  { intros t th p l Hth Hwk. destruct (Ht _ _ Hth) as [?|[_ [?|(th0 & ? & E)]]]; [by eauto|congruence|].
    exists th0. by rewrite E. }
  split; rewrite ?Hp, ?Hq, ?Hg, ?He, ?Hsh; try done.
  - intros t th Hth. destruct (Ht _ _ Hth) as [?|[? _]]; eauto.
  - intros t1 t2 th1 th2 p l1 l2 H1 H2 W1 W2. destruct (Hw _ _ _ _ H1 W1) as (? & ? & ?).
    destruct (Hw _ _ _ _ H2 W2) as (? & ? & ?). eauto.
  - intros t th p l po Hth Hwk Hpo. destruct (Hw _ _ _ _ Hth Hwk) as (? & ? & ?). eauto.
Qed.

Lemma worker_case th i o v q :
  select th !! i = Some o → one_queue q th →
  match o with OSend _ _ => False | _ => True end →
  one_queue q (fst (resume th (Some i) v)) ∧
  (worker (fst (resume th (Some i) v)) = None ∨ worker (fst (resume th (Some i) v)) = worker th).
Proof.
  intros Hsel. destruct th; cbn in Hsel; try destruct tq; cbn in Hsel; select_cases Hsel;
    cbn; try destruct v; naive_solver.
Qed.

(** The goroutines after a case that sends nothing, or of those that do not
    send. *)
Lemma worker_others t th i s s' k th' :
  threads s !! t = Some th → case_done t th i s s' → fifo s → threads s' !! k = Some th' →
  (k = t → ∀ c a, select th !! i ≠ Some (OSend c a)) →
  threads s !! k = Some th' ∨ one_queue (recvQ (vars s)) th' ∧
    (worker th' = None ∨ ∃ th0, threads s !! k = Some th0 ∧ worker th0 = worker th').
Proof.
  intros Ht Hd Hf Hk Hno.
  destruct (do_case_threads _ _ _ _ _ _ _ Ht Hd Hk) as [?|(th0 & j & o & v & H0 & Hsel & E1 & E2 & ->)];
    [by left|right].
  destruct (worker_case th0 j o v (recvQ (vars s)) Hsel (ff_queue _ Hf _ _ H0)) as [Hq Hw].
  - destruct (decide (k = t)) as [->|Hne]; [|by destruct (E2 Hne) as [c ->]].
    rewrite (E1 eq_refl) in Hsel. simplify_eq. destruct o; try done. by apply (Hno eq_refl) in Hsel.
  - split; [done|]. destruct Hw as [?|Hw]; [by left|right]. exists th0. by rewrite Hw.
Qed.

(** The goroutine of pipe [p] puts [m] on the queue. *)
Lemma mine_put s p q po po' m :
  fifo s → pobjs (vars s) !! p = Some po → m ∈ p_arrived po → pobjs (vars s) !! q = Some po' →
  mine po' (enqueued s ++ [m]) = mine po' (enqueued s) ++ (if decide (q = p) then [m] else []).
Proof.
  intros Hf Hpo Hm Hpo'. unfold mine. rewrite filter_app. f_equal. rewrite filter_cons, filter_nil.
  case_decide as Hin; case_decide as Hq; try done.
  - by destruct Hq; eapply (ff_disjoint _ Hf).
  - by simplify_eq.
Qed.
Lemma fifo_put t p m rq zq cq i s s' :
  typed s → threads s !! t = Some (RecvPut p m rq zq cq) → case_done t (RecvPut p m rq zq cq) i s s' →
  select (RecvPut p m rq zq cq) !! i = Some (OSend rq m) → given s' = given s → fifo s → fifo s'.
Proof.
  intros Hty Ht Hd Hsel Hg Hf. pose proof Hf as [F1 F2 F3 F4 F5 F6 F7].
  pose proof (F1 _ _ Ht) as Hrq. simpl in Hrq. subst rq. pose proof (vars_do_case _ _ _ _ _ Hd) as Hv.
  destruct (ty_thread _ Hty _ _ Ht) as ((po & Hpo & Hm) & _).
  pose proof (do_case_send_open _ _ _ _ _ _ _ Hd Hsel F7) as Hsent.
  assert (enqueued s' = enqueued s ++ [m]) as He by (unfold enqueued; by rewrite Hv).
  assert (threads s' !! t = Some (Receiver p)) as Ht'.
  { assert (fst (resume (RecvPut p m (recvQ (vars s)) zq cq) (Some i) None) = Receiver p) as <-
      by (cbn in Hsel; by destruct i as [|[|[]]]).
    destruct Hd; simplify_eq; apply threads_resume_eq. }
  assert (∀ k th, threads s' !! k = Some th → k = t ∧ th = Receiver p ∨ k ≠ t ∧
    one_queue (recvQ (vars s)) th ∧
    (worker th = None ∨ ∃ th0, threads s !! k = Some th0 ∧ worker th0 = worker th)) as Hths.
  { intros k th Hk. destruct (decide (k = t)) as [->|Hne]; [left; by simplify_eq|right].
    split; [done|]. destruct (worker_others _ _ _ _ _ _ _ Ht Hd Hf Hk ltac:(done)); [|done].
    split; [by eapply F1|by eauto]. }
  pose proof (λ q po', mine_put s p q po po' m Hf Hpo Hm) as Hmine.
  split; rewrite ?Hv, ?Hg, ?He, ?(do_case_shut _ _ _ _ _ _ Hd); try done.
  - intros k th Hk. destruct (Hths _ _ Hk) as [[-> ->]|(_ & ? & _)]; done.
  - intros k1 k2 th1 th2 q l1 l2 H1 H2 W1 W2.
    destruct (Hths _ _ H1) as [[-> ->]|(N1 & _ & [?|(x1 & X1 & E1)])];
      destruct (Hths _ _ H2) as [[-> ->]|(N2 & _ & [?|(x2 & X2 & E2)])];
      rewrite <-?E1, <-?E2 in *; simplify_eq/=; try done.
    + by eapply (F2 t k2).
    + by eapply (F2 k1 t).
    + by eapply F2.
  - intros k th q l po' Hk W Hpo'. rewrite (Hmine _ _ Hpo').
    destruct (Hths _ _ Hk) as [[-> ->]|(N & _ & [?|(x & X & E)])]; [|congruence|].
    + simplify_eq/=. rewrite decide_True, app_nil_r by done. by eapply F3.
    + rewrite <-E in W. case_decide as Hqp; [|rewrite app_nil_r; by eapply F3]. subst.
      destruct N. by eapply (F2 k t).
  - intros q po' Hpo'. rewrite (Hmine _ _ Hpo'). case_decide as Hqp; [|rewrite app_nil_r; by eapply F4].
    subst. simplify_eq. rewrite <-(F3 t _ p [m] po Ht eq_refl Hpo). done.
Qed.

Lemma fifo_case t th i r s s' :
  typed s → threads s !! t = Some th → do_case t th i r s = Some s' → fifo s → fifo s'.
Proof.
  intros Hty Ht Hdo Hf. pose proof (given_do_case _ _ _ _ _ _ Hdo) as Hg. apply do_case_done in Hdo as Hd.
  pose proof (vars_do_case _ _ _ _ _ Hd) as Hv. pose proof (ff_queue _ Hf _ _ Ht) as Hq.
  assert ((∀ c a, select th !! i ≠ Some (OSend c a)) → fifo s') as Hno.
  { intros Hno. pose proof Hf as Hf'. revert Hf'. apply fifo_keep; [by rewrite Hv|by rewrite Hv|done| | |].
    - unfold enqueued. rewrite Hv.
      destruct (do_case_sent _ _ _ _ _ (recvQ (vars s)) Hd) as [?|(a & _ & Hs)]; [done|by apply Hno in Hs].
    - by apply (do_case_shut _ _ _ _ _ _ Hd).
    - intros k th' Hk. eapply worker_others; [exact Ht|exact Hd|done|done|]. intros _. exact Hno. }
  destruct (select th !! i) as [[c|c a|]|] eqn:Hsel; try (apply Hno; congruence).
  destruct th; cbn in Hsel; try destruct tq; cbn in Hsel; select_cases Hsel; simplify_eq; try done.
  by eapply (fifo_put t).
Qed.

Lemma fifo_receiver_turn t p po m s :
  typed s → threads s !! t = Some (Receiver p) → pobjs (vars s) !! p = Some po →
  mref m ∉ mref <$> given s → fifo s → fifo (receiver_turn t p po m s).
Proof.
  intros Hty Ht Hpo Hm [F1 F2 F3 F4 F5 F6 F7].
  assert (m ∉ given s) as Hnew by (intros Hin; apply Hm; by apply list_elem_of_fmap_2).
  assert (∀ q po', pobjs (vars s) !! q = Some po' → m ∉ p_arrived po') as Hna by naive_solver.
  assert (m ∉ enqueued s) as Hne.
  { unfold enqueued, sent_on. destruct (chans s !! recvQ (vars s)) as [ch|] eqn:Hch; [|set_solver].
    intros Hin. destruct (ty_chan _ Hty _ _ _ Hch Hin) as (_ & q & po' & Hq & ?). naive_solver. }
  assert (∀ q po', pobjs (vars (receiver_turn t p po m s)) !! q = Some po' →
    q = p ∧ po' = po <| p_arrived ::= (λ l, l ++ [m]) |> ∨ q ≠ p ∧ pobjs (vars s) !! q = Some po') as Hobj.
  { intros q po'. simpl. rewrite lookup_insert. case_decide; [|by right]. intros [= <-]. by left. }
  assert (mine (po <| p_arrived ::= (λ l, l ++ [m]) |>) (enqueued s) = mine po (enqueued s)) as Hmine.
  { apply list_filter_ext_in. intros x Hx. simpl. set_solver. }
  assert (∀ k th q l, threads (receiver_turn t p po m s) !! k = Some th → worker th = Some (q, l) →
    k = t ∧ q = p ∧ l = [m] ∨ q ≠ p ∧ threads s !! k = Some th) as Hth.
  { intros k th q l. simpl. rewrite lookup_insert. case_decide; [intros [= <-] [= <- <-]; by left|].
    intros Hk Hw. right. split; [|done]. intros ->. by assert (k = t) by (by eapply F2). }
  split; simpl vars; simpl given.
  - intros k th. simpl. rewrite lookup_insert. case_decide; [by intros [= <-]|apply F1].
  - intros k1 k2 th1 th2 q l1 l2 H1 H2 W1 W2.
    destruct (Hth _ _ _ _ H1 W1) as [(-> & -> & _)|[N1 T1]], (Hth _ _ _ _ H2 W2) as [(-> & ? & _)|[N2 T2]];
      try done. by eapply F2.
  - intros k th q l po' Hk W [[-> ->]|[Hq Hpo']]%Hobj; destruct (Hth _ _ _ _ Hk W) as [(-> & E & ->)|[? ?]];
      try done; [|by eapply F3].
    change (p_arrived po ++ [m] = mine (po <| p_arrived ::= (λ l, l ++ [m]) |>) (enqueued s) ++ [m]).
    rewrite Hmine. f_equal. rewrite (F3 t _ p [] po Ht eq_refl Hpo) at 1. by rewrite app_nil_r.
  - intros q po' [[-> ->]|[Hq Hpo']]%Hobj; [|by eapply F4].
    change (mine (po <| p_arrived ::= (λ l, l ++ [m]) |>) (enqueued s) `prefix_of` p_arrived po ++ [m]).
    rewrite Hmine. apply prefix_app_r. by eapply F4.
  - intros q po' x [[-> ->]|[Hq Hpo']]%Hobj Hx; [|set_solver]. simpl in Hx. set_solver.
  - intros q1 q2 po1 po2 x [[-> ->]|[N1 P1]]%Hobj [[-> ->]|[N2 P2]]%Hobj X1 X2; simpl in *; try done.
    + apply elem_of_app in X1 as [X1|X1]; [by eapply F6|]. set_solver.
    + apply elem_of_app in X2 as [X2|X2]; [by eapply F6|]. set_solver.
    + by eapply F6.
  - done.
Qed.

(** A new pipe object has seen nothing; nobody works for it. *)
Lemma worker_pipe s t th p l :
  typed s → threads s !! t = Some th → worker th = Some (p, l) → is_Some (pobjs (vars s) !! p).
Proof.
  intros Hty Ht W. pose proof (ty_thread _ Hty _ _ Ht) as Hth.
  destruct th; simplify_eq/=; unfold came_on, is_Some in *; naive_solver.
Qed.
Lemma mine_nil cq l : mine (mkPipe cq []) l = [].
Proof. unfold mine. induction l; [done|]. rewrite filter_cons_False; [done|simpl; set_solver]. Qed.
Lemma fifo_new_pipe p cq s s' :
  typed s → pobjs (vars s) !! p = None → pobjs (vars s') = <[p := mkPipe cq []]> (pobjs (vars s)) →
  recvQ (vars s') = recvQ (vars s) → threads s' = threads s → enqueued s' = enqueued s →
  shut s' (recvQ (vars s)) = shut s (recvQ (vars s)) → given s' = given s → fifo s → fifo s'.
Proof.
  intros Hty Hp Ho Hq Ht He Hsh Hg [F1 F2 F3 F4 F5 F6 F7].
  assert (∀ q po, pobjs (vars s') !! q = Some po →
    po = mkPipe cq [] ∧ q = p ∨ pobjs (vars s) !! q = Some po) as Hobj.
  { intros q po. rewrite Ho, lookup_insert. case_decide; [|by right]. intros [= <-]. by left. }
  split; rewrite ?Ht, ?Hq, ?He, ?Hg; try done.
  - intros t th q l po Hth W [[-> ->]|Hpo]%Hobj; [|by eauto].
    destruct (worker_pipe _ _ _ _ _ Hty Hth W) as [? ?]. congruence.
  - intros q po [[-> ->]|Hpo]%Hobj; [by rewrite mine_nil|by eauto].
  - intros q po m [[-> ->]|Hpo]%Hobj; simpl; [set_solver|by eauto].
  - intros q1 q2 po1 po2 m [[-> ->]|H1]%Hobj [[-> ->]|H2]%Hobj; simpl; (set_solver || by eauto).
  - by rewrite Hsh.
Qed.
Lemma fifo_go_receiver p cq s :
  wf s → pobjs (vars s) !! p = Some (mkPipe cq []) →
  (∀ t th l, threads s !! t = Some th → worker th ≠ Some (p, l)) → fifo s → fifo (go (Receiver p) s).
Proof.
  intros Hwf Hp Hno [F1 F2 F3 F4 F5 F6 F7].
  assert (∀ t th, threads (go (Receiver p) s) !! t = Some th →
    t = fresh s ∧ th = Receiver p ∨ threads s !! t = Some th) as Hth.
  { intros t th. simpl. rewrite lookup_insert. case_decide; [|by right]. intros [= <-]. by left. }
  split; try done.
  - intros t th [[-> ->]|Ht]%Hth; [done|by eauto].
  - intros t1 t2 th1 th2 q l1 l2 [[-> ->]|H1]%Hth [[-> ->]|H2]%Hth W1 W2; simplify_eq/=; try done.
    + by destruct (Hno _ _ _ H2 W2).
    + by destruct (Hno _ _ _ H1 W1).
    + by eauto.
  - intros t th q l po [[-> ->]|Ht]%Hth W Hpo; [|by eauto]. simplify_eq/=.
    change (enqueued (go (Receiver q) s)) with (enqueued s). by rewrite mine_nil.
Qed.
Lemma fifo_AddPipe p s :
  wf s → typed s → pobjs (vars s) !! p = None → fifo s → fifo (snd (AddPipe p s)).
Proof.
  intros Hwf Hty Hp Hf. unfold AddPipe. destruct (make_chan KSignal 0 s) as [cq s1] eqn:E1.
  destruct (okstep_make_chan _ _ _ _ _ Hwf E1) as (_ & Hwf1 & _ & Hv1 & Ht1).
  set (s2 := set_vars _ s1). assert (fifo s2) as Hf2.
  { revert Hf. apply (fifo_new_pipe p cq); simpl; rewrite ?Hv1; try done.
    - unfold enqueued. change (vars s2) with (vars s2). simpl. rewrite Hv1.
      pose proof (still_sent _ _ (recvQ (vars s)) (still_make_chan KSignal 0 s Hwf)) as H.
      rewrite E1 in H. done.
    - pose proof (shut_make_chan KSignal 0 s (recvQ (vars s)) Hwf) as H. by rewrite E1 in H.
    - by injection E1 as _ <-. }
  assert (pobjs (vars s2) !! p = Some (mkPipe cq [])) as Hp2 by apply lookup_insert_eq.
  assert (∀ t th l, threads s2 !! t = Some th → worker th ≠ Some (p, l)) as Hno.
  { intros t th l. simpl. rewrite Ht1. intros Hth W.
    destruct (worker_pipe _ _ _ _ _ Hty Hth W) as [? ?]. congruence. }
  assert (wf s2) as Hwf2 by by apply wf_vars. clearbody s2.
  destruct (closed (vars s2)); [done|]. by apply (fifo_go_receiver p cq).
Qed.

Lemma fifo_ext e s s' :
  wf s → typed s → ok1 s (LExt e) → ext e s = Some s' → fifo s → fifo s'.
Proof.
  intros Hwf Hty Hok Hs Hf. revert Hs.
  assert (∀ t th s', threads s' = <[t := th]> (threads s) → one_queue (recvQ (vars s)) th →
    (worker th = None ∨ ∃ th0, threads s !! t = Some th0 ∧ worker th0 = worker th) →
    pobjs (vars s') = pobjs (vars s) → recvQ (vars s') = recvQ (vars s) → given s' = given s →
    sent_on s' (recvQ (vars s)) = sent_on s (recvQ (vars s)) →
    shut s' (recvQ (vars s)) = shut s (recvQ (vars s)) → fifo s') as Hmove.
  { intros t th s1 Ht H1 Hw H2 H3 H4 H5 H6. revert Hf. apply fifo_keep; [done..| |done|].
    - unfold enqueued. by rewrite H3.
    - intros k x. rewrite Ht, lookup_insert. case_decide; [intros [= <-]; subst; by right|by left]. }
  assert (∀ s', threads s' = threads s → pobjs (vars s') = pobjs (vars s) →
    recvQ (vars s') = recvQ (vars s) → given s' = given s →
    sent_on s' (recvQ (vars s)) = sent_on s (recvQ (vars s)) →
    shut s' (recvQ (vars s)) = shut s (recvQ (vars s)) → fifo s') as Hsame.
  { intros s1 Ht H2 H3 H4 H5 H6. revert Hf. apply fifo_keep; [done..| |done|rewrite Ht; by left].
    unfold enqueued. by rewrite H3. }
  assert (∀ c (s1 : state), c.1 = KSignal → shut (close_chan c s1) (recvQ (vars s)) = shut s1 (recvQ (vars s)))
    as Hshut.
  { intros c s1 Hc. apply shut_close_chan. intros ->. by rewrite (vt_recvQ _ (ty_vars _ Hty)) in Hc. }
  assert (∀ c k (s1 : state), sent_on (close_chan c s1) k = sent_on s1 k) as Hsent.
  { intros c k s1. apply still_sent, still_close_chan. }
  destruct e; cbn [ext];
    try match goal with
    | |- context [match threads s !! ?t with _ => _ end] =>
        destruct (threads s !! t) as [[]|] eqn:Ht; try done; pose proof (ty_thread _ Hty _ _ Ht) as Hth
    end.
  - intros [= <-]. by eapply Hmove; auto.
  - intros [= <-]. by eapply Hmove; auto.
  - intros Hs. apply bind_Some in Hs as (po & Hpo & [Hm [= <-]]%guard_bind_Some).
    by apply fifo_receiver_turn.
  - intros [= <-]. by eapply Hmove; auto.
  - intros Hs. apply bind_Some in Hs as (po & Hpo & [= <-]). eapply Hmove; try done. right. by eauto.
  - intros [= <-]. by eapply Hmove; auto.
  - by destruct (ff_queue _ Hf _ _ Ht).
  - intros [= <-]. eapply (Hmove t Done); simpl;
      rewrite ?threads_close_chan, ?vars_close_chan, ?given_close_chan; auto; [apply Hsent|by apply Hshut].
  - intros [= <-]. unfold SetOption. destruct (String.eqb name _); [destruct v; try done; by apply Hsame|].
    destruct (String.eqb_spec name OptionReadQLen) as [E|]; [by destruct (Hok E)|].
    destruct (String.eqb name _); [|done]. destruct v; try done; by apply Hsame.
  - intros [= <-]. unfold Close. destruct (closed (vars s)); [done|]. by eapply Hmove; auto.
  - intros [Hp [= <-]]%guard_bind_Some. by apply fifo_AddPipe.
  - intros Hs. apply bind_Some in Hs as (po & Hpo & [_ [= <-]]%guard_bind_Some). unfold RemovePipe.
    apply Hsame; rewrite ?threads_close_chan, ?vars_close_chan, ?given_close_chan, ?Hsent; try done.
    rewrite Hshut; [done|]. by apply (vt_pipes _ (ty_vars _ Hty) p).
Qed.

Lemma reachable_fifo s : reachable step init ok1 s → good s ∧ fifo s.
Proof.
  revert s. apply (reachable_invariant _ _ _ (λ s, good s ∧ fifo s)).
  - intros s Hi. split; [by apply xpull_init_good|]. unfold init in Hi. subst s. by split.
  - intros l s s' ([Hwf Hown Hty] & Hf) Hok Hs. destruct (gstep_ok ext _ _ _ Hwf Hty Hs) as [Ha ? ?].
    split; [split; [by apply Ha|auto|auto]|]. apply guard_bind_Some in Hs as [_ Hs].
    destruct l as [t i r|t|e].
    + apply bind_Some in Hs as (th & Ht & Hs). by eapply fifo_case.
    + apply bind_Some in Hs as (th & Ht & [[Hd Hrd] Hs]%guard_bind_Some).
      apply (inj Some) in Hs. subst s'. pose proof (ff_queue _ Hf _ _ Ht) as Hq. revert Hf.
      unfold resume_thread. destruct th; try done. cbn.
      apply fifo_keep; try done. intros k x. simpl. rewrite lookup_insert. case_decide; [|by left].
      intros [= <-]. right. by auto.
    + by eapply fifo_ext.
Qed.

(** The calls of [RecvMsg] that have or had message [x]. *)
Definition returned (x : nat) (s : state) : nat :=
  map_sum (λ th, match th with RecvRet (Ok m) => kocc x [m] | _ => 0 end) (threads s) +
  kocc x (passed s).

(** C31. A PULL socket delivers in order and loses nothing, as long as its queue
    is not resized: of each pipe, what was put on the queue is what arrived, in
    order, but for a last message that its goroutine may still have in hand; the
    queue is FIFO and bounded; what [RecvMsg] returns was taken from the pipes,
    and no message is returned twice. *)
Theorem xpull_fifo s (H : reachable step init ok1 s) :
  (∀ t th p l po, threads s !! t = Some th → worker th = Some (p, l) →
     pobjs (vars s) !! p = Some po → p_arrived po = mine po (enqueued s) ++ l) ∧
  (∀ p po, pobjs (vars s) !! p = Some po → mine po (enqueued s) `prefix_of` p_arrived po) ∧
  (∀ c ch, chans s !! c = Some ch → ins ch = outs ch ++ buf ch ∧ length (buf ch) ≤ cap ch) ∧
  (∀ t m, threads s !! t = Some (RecvRet (Ok m)) → came (vars s) m) ∧
  (∀ x, returned x s ≤ 1).
Proof.
  destruct (reachable_fifo s H) as [[Hwf Ho [_ Ht _]] [F1 F2 F3 F4 F5 F6 F7]].
  split_and!; [exact F3|exact F4|apply Hwf|intros ? ? Hth; exact (Ht _ _ Hth)|].
  intros x. apply few_holders; [|done|].
  - intros th. destruct th as [| | |[]| | | | | | | | |]; simpl; lia.
  - by apply (reachable_xpull _ s H).
Qed.

Definition task (n : nat) : msg := mkMsg [] [Byte.x61] (Some 7%Z) n.
(** Two messages of one pipe: the first has been returned, the second is in
    the queue, a third in hand. *)
Definition xpull_run : state :=
  play step (λ _ l, match l with LExt (ESetOption _ _) => false | _ => true end)
    [LExt (EAddPipe 0); LExt (EPipeRecv 4 (task 0)); LExt (EInner 4); LCase 4 0 None;
     LExt (EPipeRecv 4 (task 1)); LExt (EInner 4); LCase 4 0 None; LExt (EPipeRecv 4 (task 2));
     LExt ERecv; LExt (ERecvTop 5); LCase 5 0 None] NewProtocol.

Lemma xpull_fifo_witness :
  threads xpull_run !! 5 = Some (RecvRet (Ok (task 0))) ∧
  enqueued xpull_run = [task 0; task 1] ∧
  (∃ po, pobjs (vars xpull_run) !! 0 = Some po ∧
     p_arrived po = mine po (enqueued xpull_run) ++ [task 2]) ∧
  returned 0 xpull_run ≤ 1.
Proof.
  assert (reachable step init ok1 xpull_run) as Hr.
  { apply play_reachable; [|done]. intros ? [| |[]]; try done. }
  destruct (xpull_fifo xpull_run Hr) as (Hh & _ & _ & _ & Hx).
  split_and!; [by vm_compute|by vm_compute| |apply Hx].
  destruct (pobjs (vars xpull_run) !! 0) as [po|] eqn:E; [|by vm_compute in E].
  exists po. split; [done|]. apply (Hh 4 (RecvInner 0 (task 2)) 0); [by vm_compute|done|done].
Defined.

(** With a resize a message can get lost: the goroutine of pipe 0 has picked the
    old queue, and puts its message there after [SetOption] has emptied it; the
    closed [sizeQ] is then ready as well, but [select] may take either. *)
Definition xpull_lost : state :=
  play step (λ _ _, true)
    [LExt (EAddPipe 0); LExt (EPipeRecv 4 (task 0)); LExt (EInner 4);
     LExt (ESetOption OptionReadQLen (VInt 5)); LExt (EResized 7); LDefault 7; LCase 4 0 None]
    NewProtocol.
Definition uses (c : chid) (th : thread) : bool :=
  match th with
  | RecvTry rq _ _ _ | RecvWait rq _ _ _ | RecvPut _ _ rq _ _ => bool_decide (rq = c)
  | Resized _ old new _ | Drain old new | DrainPut _ old new => bool_decide (old = c ∨ new = c)
  | _ => false
  end.
Example xpull_resize_loses :
  reachable step init ok xpull_lost ∧
  contents xpull_lost (KRecv, 2) = [task 0] ∧ recvQ (vars xpull_lost) = (KRecv, 5) ∧
  threads xpull_lost !! 7 = Some Done ∧
  forallb (λ '(t, th), negb (uses (KRecv, 2) th)) (map_to_list (threads xpull_lost)) = true.
Proof.
  split; [by apply play_reachable; [intros ? []|]|]. by vm_compute.
Qed.
