(* ===== verification/XSub.v ===== *)
(** * XSub: the raw SUB protocol

    [src/protocol/xsub/xsub.go], complete, as a program of [Chan].  The
    goroutine of a pipe offers what arrives to the one queue and drops what does
    not fit; it never waits. *)
From stdpp Require Import gmap list strings fin_maps.
From Stdlib Require Import ZArith Lia.
From S2P Require Import Prelude Types Chan Backtrace.

(** The channels: those that only get closed, and [recvQ]. *)
Inductive kind := KSignal | KRecv.
#[export] Instance kind_eq_dec : EqDecision kind.
Proof. solve_decision. Defined.
#[export] Instance kind_countable : Countable kind.
Proof.
  refine (inj_countable' (λ k, match k with KSignal => false | KRecv => true end)
    (λ x : bool, if x then KRecv else KSignal) _).
  by intros [].
Defined.
Abbreviation chid := (kind * nat)%type.

(** A [pipe] holds nothing of its own. *)
Abbreviation pid := nat.

Record socket := mkSocket {
  closed : bool;
  closeQ : chid;
  recvQLen : Z;
  recvExpire : Z;
  recvQ : chid;
  sizeQ : chid;
  pipes : gset pid;          (* the pipes that got a goroutine *)
  pclosed : gset pid;
  arrived : list msg
}.
#[export] Instance eta_socket : Eta socket := λ s,
  mkSocket (closed s) (closeQ s) (recvQLen s) (recvExpire s) (recvQ s) (sizeQ s) (pipes s)
    (pclosed s) (arrived s).

Definition defaultQLen : Z := 128.

(** Program points.  [tq]: the timer of [RecvMsg] is set. *)
Inductive thread :=
  | RecvTop (tq : bool)                       (* RecvMsg, before s.Lock() *)
  | RecvTry (rq zq cq : chid) (tq : bool)
  | RecvWait (rq zq cq : chid) (tq : bool)
  | RecvRet (r : result msg)
  | Receiver (p : pid)                        (* in p.p.RecvMsg() *)
  | RecvPut (p : pid) (m : msg) (rq : chid)
  | PipeClose (p : pid)
  | CloseChan (c : chid)
  | Done.

Definition timer (tq : bool) : list (op kind msg) := if tq then [OTime] else [].

Definition sel (th : thread) : list (op kind msg) :=
  match th with
  | RecvTry rq zq cq tq => [ORecv rq]
  | RecvWait rq zq cq tq => [ORecv cq; ORecv zq; ORecv rq] ++ timer tq
  | RecvPut p m rq => [OSend rq m]
  | _ => []
  end.
Definition dflt (th : thread) : bool :=
  match th with RecvTry _ _ _ _ | RecvPut _ _ _ => true | _ => false end.

(** After a case.  [recvQ] is never closed, so a receive from it brings a
    message. *)
Definition res (th : thread) (i : option nat) (v : option msg) : thread * list msg :=
  match th, i with
  | RecvTry rq zq cq tq, None => (RecvWait rq zq cq tq, [])
  | RecvTry rq zq cq tq, Some _ =>
      (match v with Some m => RecvRet (Ok m) | None => RecvTop tq end, [])
  | RecvWait rq zq cq tq, Some 0 => (RecvRet (Err ErrClosed), [])
  | RecvWait rq zq cq tq, Some 1 => (RecvTop tq, [])
  | RecvWait rq zq cq tq, Some 2 =>
      (match v with Some m => RecvRet (Ok m) | None => RecvTop tq end, [])
  | RecvWait rq zq cq tq, Some _ => (RecvRet (Err ErrRecvTimeout), [])
  | RecvPut p m rq, Some _ => (Receiver p, [])
  | RecvPut p m rq, None => (Receiver p, [m])
  | th, _ => (th, [])
  end.

#[export] Instance xsub_program : Program kind msg thread :=
  { select := sel; has_default := dflt; resume := res }.

Abbreviation state := (st kind msg socket thread).

(** ** The critical sections *)
Definition SendMsg : error := Some ErrProtoOp.

(** [RecvMsg], one pass of its loop to the first [select]; a timer that was set
    in an earlier pass stays. *)
Definition RecvMsg_top (tq : bool) (s : state) : thread :=
  let σ := vars s in
  RecvTry (recvQ σ) (sizeQ σ) (closeQ σ) (tq || negb (recvExpire σ =? 0)%Z).

(** [receiver], when [p.p.RecvMsg()] has returned [m]. *)
Definition receiver_turn (t : thid) (p : pid) (m : msg) (s : state) : state :=
  set_thread t (RecvPut p m (recvQ (vars s)))
    (set_vars (λ σ, σ <| arrived ::= (λ l, l ++ [m]) |>) (give [m] s)).

Definition pipe_close (t : thid) (p : pid) (s : state) : state :=
  set_thread t Done (set_vars (λ σ, σ <| pclosed ::= (λ x, {[p]} ∪ x) |>) s).

(** [OptionReadQLen]: a new queue; the messages of the old one are tossed. *)
Definition resize (z : Z) (s : state) : state :=
  let '(q, s) := make_chan KRecv (Z.to_nat z) s in
  let '(zq, s) := make_chan KSignal 0 s in
  go (CloseChan (sizeQ (vars s)))
    (set_vars (λ σ, σ <| recvQ := q |> <| sizeQ := zq |> <| recvQLen := z |>) s).

Definition SetOption (name : string) (v : value) (s : state) : error * state :=
  if String.eqb name OptionRecvDeadline then
    match v with
    | VDuration d => (None, set_vars (λ σ, σ <| recvExpire := d |>) s)
    | _ => (Some ErrBadValue, s)
    end
  else if String.eqb name OptionReadQLen then
    match v with
    | VInt z => if (0 <=? z)%Z then (None, resize z s) else (Some ErrBadValue, s)
    | _ => (Some ErrBadValue, s)
    end
  else (Some ErrBadOption, s).

Definition GetOption (name : string) (σ : socket) : result value :=
  if String.eqb name OptionRaw then Ok (VBool true)
  else if String.eqb name OptionRecvDeadline then Ok (VDuration (recvExpire σ))
  else if String.eqb name OptionReadQLen then Ok (VInt (recvQLen σ))
  else Err ErrBadOption.

Definition AddPipe (p : pid) (s : state) : error * state :=
  if closed (vars s) then (Some ErrClosed, s)
  else (None, go (Receiver p) (set_vars (λ σ, σ <| pipes ::= (λ x, {[p]} ∪ x) |>) s)).
Definition RemovePipe (p : pid) (s : state) : state := s.

Definition OpenContext : error := Some ErrProtoOp.
Definition Info : ProtocolInfo := mkInfo ProtoSub ProtoPub "sub" "pub".

Definition Close (s : state) : error * state :=
  if closed (vars s) then (Some ErrClosed, s)
  else (None, go (CloseChan (closeQ (vars s))) (set_vars (λ σ, σ <| closed := true |>) s)).

Definition NewProtocol : state :=
  mkSt (mkSocket false (KSignal, 0) defaultQLen 0 (KRecv, 2) (KSignal, 1) ∅ ∅ [])
    {[ (KSignal, 0) := mkChan [] 0 false [] []; (KSignal, 1) := mkChan [] 0 false [] [];
       (KRecv, 2) := mkChan [] (Z.to_nat defaultQLen) false [] [] ]} ∅ 3 [] [] [] false.

(** ** The program *)
Inductive event :=
  | ERecv
  | ERecvTop (t : thid)
  | EPipeRecv (t : thid) (m : msg)
  | EPipeRecvNil (t : thid)
  | EPipeClose (t : thid)
  | ECloseChan (t : thid)
  | ESetOption (name : string) (v : value)
  | EClose
  | EAddPipe (p : pid)
  | ERemovePipe (p : pid).

(** New messages have identities of their own; a pipe is added once. *)
Definition ext (e : event) (s : state) : option state :=
  match e with
  | ERecv => Some (go (RecvTop false) s)
  | ERecvTop t =>
      match threads s !! t with
      | Some (RecvTop tq) => Some (set_thread t (RecvMsg_top tq s) s)
      | _ => None
      end
  | EPipeRecv t m =>
      match threads s !! t with
      | Some (Receiver p) => guard (mref m ∉ mref <$> given s);; Some (receiver_turn t p m s)
      | _ => None
      end
  | EPipeRecvNil t =>
      match threads s !! t with
      | Some (Receiver p) => Some (set_thread t (PipeClose p) s)
      | _ => None
      end
  | EPipeClose t =>
      match threads s !! t with
      | Some (PipeClose p) => Some (pipe_close t p s)
      | _ => None
      end
  | ECloseChan t =>
      match threads s !! t with
      | Some (CloseChan c) => Some (set_thread t Done (close_chan c s))
      | _ => None
      end
  | ESetOption name v => Some (snd (SetOption name v s))
  | EClose => Some (snd (Close s))
  | EAddPipe p => guard (p ∉ pipes (vars s));; Some (snd (AddPipe p s))
  | ERemovePipe p => Some (RemovePipe p s)
  end.

Definition init (s : state) : Prop := s = NewProtocol.
Definition step : label event → state → option state := gstep ext.
Definition ok : state → label event → Prop := gok (λ _ _, True).

(** ** Ownership *)
Definition holding (th : thread) : list msg :=
  match th with RecvRet (Ok m) | RecvPut _ m _ => [m] | _ => [] end.

#[export] Instance xsub_owns : Owns (K := kind) (A := msg) (T := thread).
Proof.
  refine {| holds := holding |}.
  - intros th i o v y Hsel Hv.
    destruct th; cbn in Hsel; try destruct tq; cbn in Hsel; select_cases Hsel; cbn in *; subst;
      try (destruct v as [m'|]); owns_lia.
  - intros th y Hd. destruct th; try done; owns_lia.
Defined.

(** ** What the channels carry *)
Definition ctype (σ : socket) (c : chid) (m : msg) : Prop := c.1 = KRecv ∧ m ∈ arrived σ.
Definition ttype (σ : socket) (t : thid) (th : thread) : Prop :=
  match th with
  | RecvTry rq zq cq _ | RecvWait rq zq cq _ => rq.1 = KRecv ∧ zq.1 = KSignal ∧ cq.1 = KSignal
  | RecvRet (Ok m) => m ∈ arrived σ
  | RecvPut p m rq => m ∈ arrived σ ∧ rq.1 = KRecv
  | CloseChan c => c.1 = KSignal
  | _ => True
  end.
Record vtype (σ : socket) : Prop := {
  vt_recvQ : (recvQ σ).1 = KRecv;
  vt_closeQ : (closeQ σ).1 = KSignal;
  vt_sizeQ : (sizeQ σ).1 = KSignal
}.

#[export] Instance xsub_typed : Typed (K := kind) (A := msg) (S := socket) (T := thread).
Proof.
  refine {| vars_type := vtype; chan_type := ctype; thread_type := ttype |}.
  - intros σ t th i o v Hsel Hth Hv. unfold ctype in *.
    destruct th; cbn in Hsel; try destruct tq; cbn in Hsel; select_cases Hsel; cbn in Hth;
      try (destruct v as [m'|]); cbn; naive_solver.
  - intros σ t th Hd Hth. destruct th; try done; cbn in *; naive_solver.
Defined.

Lemma xsub_okstep_vars f s :
  (∀ m, m ∈ arrived (vars s) → m ∈ arrived (f (vars s))) → (vtype (vars s) → vtype (f (vars s))) →
  okstep s (set_vars f s).
Proof.
  intros Hle Hv. apply okstep_vars; [done|unfold chan_type; simpl; unfold ctype; naive_solver|].
  intros t th _ _ Hth. destruct th as [| | |[]| | | | |]; try done; simpl in *; naive_solver.
Qed.

Lemma xsub_okstep_resize z s : wf s → typed s → okstep s (resize z s).
Proof.
  intros Hwf Hty. destruct (ty_vars _ Hty) as [V1 V2 V3]. unfold resize.
  destruct (make_chan KRecv (Z.to_nat z) s) as [q s1] eqn:E1.
  destruct (okstep_make_chan _ _ _ _ _ Hwf E1) as (Hok1 & Hwf1 & Hq & Hv1 & Ht1).
  destruct (make_chan KSignal 0 s1) as [zq s2] eqn:E2.
  destruct (okstep_make_chan _ _ _ _ _ Hwf1 E2) as (Hok2 & Hwf2 & Hzq & Hv2 & Ht2).
  etrans; [exact Hok1|]. etrans; [exact Hok2|].
  set (f := λ σ : socket, σ <| recvQ := q |> <| sizeQ := zq |> <| recvQLen := z |>).
  assert (okstep s2 (set_vars f s2)) as Hok3.
  { apply xsub_okstep_vars; [done|]. intros []. by split; subst. }
  etrans; [exact Hok3|]. apply okstep_go; [by apply Hok3|done|]. intros _. simpl. by rewrite Hv2, Hv1.
Qed.

#[export] Instance xsub_ok : ExtOk ext.
Proof.
  intros e s s' Hwf Hty. destruct e; cbn [ext];
    try match goal with
    | |- context [match threads s !! ?t with _ => _ end] =>
        destruct (threads s !! t) as [[]|] eqn:Ht; try done; pose proof (ty_thread _ Hty _ _ Ht) as Hth
    end.
  - intros [= <-]. by apply okstep_go.
  - intros [= <-]. eapply okstep_stop; [done|done|]. intros _. by destruct (ty_vars _ Hty).
  - intros [_ [= <-]]%guard_bind_Some. set (f := λ σ : socket, σ <| arrived ::= (λ l, l ++ [m]) |>).
    assert (okstep s (set_vars f s)) as Hok
      by (apply xsub_okstep_vars; [simpl; set_solver|by intros []]).
    etrans; [exact Hok|]. eapply (okstep_goto t _ _ [m]); [exact Ht|accounting|]. intros _.
    split; [simpl; set_solver|]. by destruct (ty_vars _ Hty).
  - intros [= <-]. by eapply okstep_stop.
  - intros [= <-]. etrans; [apply (xsub_okstep_vars (λ σ, σ <| pclosed ::= (λ x, {[p]} ∪ x) |>));
      [done|by intros []]|by eapply okstep_stop].
  - intros [= <-]. etrans; [apply okstep_close_chan|].
    eapply okstep_stop; [by rewrite threads_close_chan|done|done].
  - intros [= <-]. unfold SetOption. destruct (String.eqb name _).
    { destruct v; try reflexivity; by apply xsub_okstep_vars; [done|by intros []]. }
    destruct (String.eqb name _); [|reflexivity].
    destruct v; try reflexivity. destruct (0 <=? z)%Z; [|reflexivity]. by apply xsub_okstep_resize.
  - intros [= <-]. unfold Close. destruct (closed (vars s)); [reflexivity|].
    assert (okstep s (set_vars (λ σ, σ <| closed := true |>) s)) as Hok
      by (apply xsub_okstep_vars; [done|by intros []]).
    etrans; [exact Hok|]. apply okstep_go; [by apply Hok|done|].
    intros _. apply (vt_closeQ _ (ty_vars _ Hty)).
  - intros [_ [= <-]]%guard_bind_Some. unfold AddPipe. destruct (closed (vars s)); [reflexivity|].
    set (f := λ σ : socket, σ <| pipes ::= (λ x, {[p]} ∪ x) |>).
    assert (okstep s (set_vars f s)) as Hok by (apply xsub_okstep_vars; [done|by intros []]).
    etrans; [exact Hok|]. by apply okstep_go; [apply Hok|..].
  - intros [= <-]. reflexivity.
Qed.

Lemma xsub_init_good s : init s → good s.
Proof. intros ->. start_good. by split. Qed.

(** What [RecvMsg] returns arrived on a pipe, unchanged; the goroutine of a pipe
    is always able to go on. *)
Lemma reachable_xsub s :
  reachable step init ok s →
  (∀ t m, threads s !! t = Some (RecvRet (Ok m)) → m ∈ arrived (vars s)) ∧
  (∀ t p m rq, threads s !! t = Some (RecvPut p m rq) → crashed s = false →
     is_Some (step (LDefault t) s) ∨ ready s (OSend rq m) = true).
Proof.
  intros H. assert (good s) as [_ _ [_ Ht _]] by (eapply reachable_good; [apply _|apply xsub_init_good|done]).
  split.
  - intros t m Hth. exact (Ht _ _ Hth).
  - intros t p m rq Hth Hc. destruct (ready s (OSend rq m)) eqn:Hr; [by right|left].
    unfold step, gstep. rewrite Hth. cbn -[ready]. rewrite option_guard_True by done. cbn -[ready].
    rewrite option_guard_True; [done|]. split; [done|]. cbn -[ready]. by rewrite Hr.
Qed.
