(* ===== verification/XBus.v ===== *)
(** * XBus: the raw BUS protocol

    [src/protocol/xbus/xbus.go], complete, as a program of [Chan].  [SendMsg]
    holds the socket's mutex while it offers the message to every pipe but the
    one it came from, so the mutex is a variable ([locked]).  The message given
    to [SendMsg] is not shared, so [MakeUnique] returns it as it is; pipe IDs
    are positive, as the core hands them out. *)
From stdpp Require Import gmap list strings fin_maps.
From Stdlib Require Import ZArith Lia.
From S2P Require Import Prelude Types Chan Backtrace.

Abbreviation pid := nat.

(** The channels: those that only get closed, [recvQ], and [sendQ] of a pipe. *)
Inductive kind := KSignal | KRecv | KSend (p : pid).
#[export] Instance kind_eq_dec : EqDecision kind.
Proof. solve_decision. Defined.
#[export] Instance kind_countable : Countable kind.
Proof.
  refine (inj_countable'
    (λ k, match k with KSignal => 0 | KRecv => 1 | KSend p => S (S p) end)
    (λ x, match x with 0 => KSignal | 1 => KRecv | S (S p) => KSend p end) _).
  by intros [].
Defined.
Abbreviation chid := (kind * nat)%type.

Record pipe := mkPipe { p_id : Z; p_closeQ : chid; p_sendQ : chid }.

Record socket := mkSocket {
  closed : bool;
  closeQ : chid;
  sizeQ : chid;
  pipes : gmap Z pid;
  recvQLen : Z;
  sendQLen : Z;
  recvExpire : Z;
  recvQ : chid;
  locked : option thid;      (* who holds the mutex, between steps *)
  pobjs : gmap pid pipe;     (* all pipe objects *)
  removed : gset pid;
  pclosed : gset pid;
  submitted : list msg;
  arrived : list (pid * msg)
}.
#[export] Instance eta_socket : Eta socket := λ s,
  mkSocket (closed s) (closeQ s) (sizeQ s) (pipes s) (recvQLen s) (sendQLen s) (recvExpire s)
    (recvQ s) (locked s) (pobjs s) (removed s) (pclosed s) (submitted s) (arrived s).

Definition defaultQLen : Z := 128.

(** Program points. *)
Inductive thread :=
  | SendNext (m : msg) (l : list chid)           (* SendMsg, the head of its loop *)
  | SendTry (m : msg) (q : chid) (l : list chid)
  | SendRet (e : error) (back : option msg)
  | RecvTop                                      (* RecvMsg, before s.Lock() *)
  | RecvTry (rq zq cq : chid) (tq : bool)
  | RecvWait (rq zq cq : chid) (tq : bool)
  | RecvRet (r : result msg)
  | Receiver (p : pid)                           (* in p.p.RecvMsg() *)
  | RecvLock (p : pid) (m : msg)                 (* receiver, before s.Lock() *)
  | RecvPut (p : pid) (m : msg) (rq zq cq : chid)
  | Sender (p : pid) (q cq : chid)
  | Sending (p : pid) (m : msg)
  | PipeClose (p : pid)
  | CloseChan (c : chid)
  | Done.

Definition timer (tq : bool) : list (op kind msg) := if tq then [OTime] else [].

Definition sel (th : thread) : list (op kind msg) :=
  match th with
  | SendTry m q l => [OSend q m]
  | RecvTry rq zq cq tq => [ORecv rq]
  | RecvWait rq zq cq tq => [ORecv cq; ORecv zq; ORecv rq] ++ timer tq
  | RecvPut p m rq zq cq => [OSend rq m; ORecv cq; ORecv zq]
  | Sender p q cq => [ORecv cq; ORecv q]
  | _ => []
  end.
Definition dflt (th : thread) : bool :=
  match th with SendTry _ _ _ | RecvTry _ _ _ _ => true | _ => false end.

(** After a case.  [recvQ] and the [sendQ]s are never closed, so a receive from
    them brings a message. *)
Definition res (th : thread) (i : option nat) (v : option msg) : thread * list msg :=
  match th, i with
  | SendTry m q l, Some _ => (SendNext m l, [])
  | SendTry m q l, None => (SendNext m l, [m])
  | RecvTry rq zq cq tq, None => (RecvWait rq zq cq tq, [])
  | RecvTry rq zq cq tq, Some _ =>
      (match v with Some m => RecvRet (Ok m) | None => RecvTop end, [])
  | RecvWait rq zq cq tq, Some 0 => (RecvRet (Err ErrClosed), [])
  | RecvWait rq zq cq tq, Some 1 => (RecvTop, [])
  | RecvWait rq zq cq tq, Some 2 =>
      (match v with Some m => RecvRet (Ok m) | None => RecvTop end, [])
  | RecvWait rq zq cq tq, Some _ => (RecvRet (Err ErrRecvTimeout), [])
  | RecvPut p m rq zq cq, Some 0 => (Receiver p, [])
  | RecvPut p m rq zq cq, Some _ => (PipeClose p, [m])
  | Sender p q cq, Some 0 => (PipeClose p, option_list v)
  | Sender p q cq, Some _ => (match v with Some m => Sending p m | None => PipeClose p end, [])
  | th, _ => (th, [])
  end.

#[export] Instance xbus_program : Program kind msg thread :=
  { select := sel; has_default := dflt; resume := res }.

Abbreviation state := (st kind msg socket thread).

(** ** The critical sections *)

(** [SendMsg]: a header of four bytes is the ID of the pipe that the message
    came from; it is taken off. *)
Definition origin (m : msg) : Z := if decide (length (mhdr m) = 4) then uint32_of (mhdr m) else 0.
Definition strip (m : msg) : msg := if decide (length (mhdr m) = 4) then m <| mhdr := [] |> else m.
(** The queues of the pipes that get the message, in the order [order]. *)
Definition targets (σ : socket) (id : Z) (order : list pid) : list chid :=
  omap (λ p, po ← pobjs σ !! p; if decide (p_id po = id) then None else Some (p_sendQ po)) order.
Definition SendMsg (m : msg) (order : list pid) (s : state) : state :=
  let s := give [m] s in
  if closed (vars s) then go (SendRet (Some ErrClosed) (Some m)) s
  else
    let l := targets (vars s) (origin m) order in
    let s := set_vars (λ σ, σ <| locked := Some (fresh s) |>
                              <| submitted ::= (λ l, l ++ [m]) |>) s in
    go (SendNext (strip m) l) s.
(** ..., one pass of its loop; at the end it releases the mutex. *)
Definition SendMsg_next (t : thid) (m : msg) (l : list chid) (s : state) : state :=
  match l with
  | [] => set_thread t (SendRet None None) (free [m] (set_vars (λ σ, σ <| locked := None |>) s))
  | q :: l => set_thread t (SendTry m q l) (give [m] s)
  end.

(** [RecvMsg], from the top of its loop to the first [select]. *)
Definition RecvMsg_top (s : state) : thread :=
  let σ := vars s in
  RecvTry (recvQ σ) (sizeQ σ) (closeQ σ) (negb (recvExpire σ =? 0)%Z).

(** [OptionReadQLen]: a new queue; what is in the old one is gone. *)
Definition resize (z : Z) (s : state) : state :=
  let '(q, s) := make_chan KRecv (Z.to_nat z) s in
  let '(zq, s) := make_chan KSignal 0 s in
  go (CloseChan (sizeQ (vars s)))
    (set_vars (λ σ, σ <| recvQLen := z |> <| recvQ := q |> <| sizeQ := zq |>) s).

Definition SetOption (name : string) (v : value) (s : state) : error * state :=
  if String.eqb name OptionRecvDeadline then
    match v with
    | VDuration d => (None, set_vars (λ σ, σ <| recvExpire := d |>) s)
    | _ => (Some ErrBadValue, s)
    end
  else if String.eqb name OptionWriteQLen then
    match v with
    | VInt z => if (0 <=? z)%Z then (None, set_vars (λ σ, σ <| sendQLen := z |>) s)
                else (Some ErrBadValue, s)
    | _ => (Some ErrBadValue, s)
    end
  else if String.eqb name OptionReadQLen then
    match v with
    | VInt z => if (0 <=? z)%Z then (None, resize z s) else (Some ErrBadValue, s)
    | _ => (Some ErrBadValue, s)
    end
  else (Some ErrBadOption, s).

Definition GetOption (name : string) (σ : socket) : result value :=
  if String.eqb name OptionRaw then Ok (VBool true)
  else if String.eqb name OptionRecvDeadline then Ok (VDuration (recvExpire σ))
  else if String.eqb name OptionWriteQLen then Ok (VInt (sendQLen σ))
  else if String.eqb name OptionReadQLen then Ok (VInt (recvQLen σ))
  else Err ErrBadOption.

Definition AddPipe (p : pid) (id : Z) (s : state) : error * state :=
  if closed (vars s) then (Some ErrClosed, s)
  else
    let '(cq, s) := make_chan KSignal 0 s in
    let '(sq, s) := make_chan (KSend p) (Z.to_nat (sendQLen (vars s))) s in
    let s := set_vars (λ σ, σ <| pobjs ::= <[p := mkPipe id cq sq]> |> <| pipes ::= <[id := p]> |>) s in
    (None, go (Receiver p) (go (Sender p sq cq) s)).

(** [RemovePipe]; the channel is closed without the mutex. *)
Definition RemovePipe (p : pid) (po : pipe) (s : state) : state :=
  go (CloseChan (p_closeQ po))
    (set_vars (λ σ, σ <| pipes ::= delete (p_id po) |> <| removed ::= (λ x, {[p]} ∪ x) |>) s).

Definition OpenContext : error := Some ErrProtoOp.
Definition Info : ProtocolInfo := mkInfo ProtoBus ProtoBus "bus" "bus".

Definition Close (s : state) : error * state :=
  if closed (vars s) then (Some ErrClosed, s)
  else (None, go (CloseChan (closeQ (vars s))) (set_vars (λ σ, σ <| closed := true |>) s)).

(** [sender], when [p.p.SendMsg(m)] has returned. *)
Definition sender_sent (t : thid) (p : pid) (po : pipe) (m : msg) (e : error) (s : state) : state :=
  match e with
  | Some _ => set_thread t (PipeClose p) (free [m] s)
  | None => set_thread t (Sender p (p_sendQ po) (p_closeQ po)) (pass [m] s)
  end.
(** [receiver]: the ID of the pipe becomes the header. *)
Definition stamp (po : pipe) (m : msg) : msg := m <| mhdr := put_uint32 (p_id po) |>.
Definition receiver_turn (t : thid) (p : pid) (po : pipe) (m : msg) (s : state) : state :=
  set_thread t (RecvLock p (stamp po m))
    (set_vars (λ σ, σ <| arrived ::= (λ l, l ++ [(p, m)]) |>) (give [m] s)).
Definition receiver_lock (p : pid) (po : pipe) (m : msg) (s : state) : thread :=
  RecvPut p m (recvQ (vars s)) (sizeQ (vars s)) (p_closeQ po).
Definition pipe_Close (t : thid) (p : pid) (s : state) : state :=
  set_thread t Done (set_vars (λ σ, σ <| pclosed ::= (λ x, {[p]} ∪ x) |>) s).

Definition NewProtocol : state :=
  mkSt (mkSocket false (KSignal, 0) (KSignal, 1) ∅ defaultQLen defaultQLen 0 (KRecv, 2) None ∅ ∅ ∅ [] [])
    {[ (KSignal, 0) := mkChan [] 0 false [] []; (KSignal, 1) := mkChan [] 0 false [] [];
       (KRecv, 2) := mkChan [] (Z.to_nat defaultQLen) false [] [] ]} ∅ 3 [] [] [] false.

(** ** The program *)
Inductive event :=
  | ESend (m : msg) (order : list pid)
  | ENext (t : thid)
  | ERecv
  | ERecvTop (t : thid)
  | EPipeRecv (t : thid) (m : msg)
  | EPipeRecvNil (t : thid)
  | ERecvLock (t : thid)
  | EPipeSent (t : thid) (e : error)
  | EPipeClose (t : thid)
  | ECloseChan (t : thid)
  | ESetOption (name : string) (v : value)
  | EClose
  | EAddPipe (p : pid) (id : Z)
  | ERemovePipe (p : pid).

Definition free_lock (s : state) : Prop := locked (vars s) = None.

(** New messages and pipe objects have identities of their own, pipe IDs are
    positive; the pipes are ranged over in any order; the core removes a pipe
    once. *)
Definition ext (e : event) (s : state) : option state :=
  match e with
  | ESend m order =>
      guard (free_lock s ∧ mref m ∉ mref <$> given s ∧ NoDup order ∧
             list_to_set order = (map_img (pipes (vars s)) : gset pid));;
      Some (SendMsg m order s)
  | ENext t =>
      match threads s !! t with
      | Some (SendNext m l) => Some (SendMsg_next t m l s)
      | _ => None
      end
  | ERecv => Some (go RecvTop s)
  | ERecvTop t =>
      match threads s !! t with
      | Some RecvTop => guard (free_lock s);; Some (set_thread t (RecvMsg_top s) s)
      | _ => None
      end
  | EPipeRecv t m =>
      match threads s !! t with
      | Some (Receiver p) =>
          po ← pobjs (vars s) !! p;
          guard (mref m ∉ mref <$> given s);; Some (receiver_turn t p po m s)
      | _ => None
      end
  | EPipeRecvNil t =>
      match threads s !! t with
      | Some (Receiver p) => Some (set_thread t (PipeClose p) s)
      | _ => None
      end
  | ERecvLock t =>
      match threads s !! t with
      | Some (RecvLock p m) =>
          po ← pobjs (vars s) !! p;
          guard (free_lock s);; Some (set_thread t (receiver_lock p po m s) s)
      | _ => None
      end
  | EPipeSent t e =>
      match threads s !! t with
      | Some (Sending p m) => po ← pobjs (vars s) !! p; Some (sender_sent t p po m e s)
      | _ => None
      end
  | EPipeClose t =>
      match threads s !! t with
      | Some (PipeClose p) => Some (pipe_Close t p s)
      | _ => None
      end
  | ECloseChan t =>
      match threads s !! t with
      | Some (CloseChan c) => Some (set_thread t Done (close_chan c s))
      | _ => None
      end
  | ESetOption name v => guard (free_lock s);; Some (snd (SetOption name v s))
  | EClose => guard (free_lock s);; Some (snd (Close s))
  | EAddPipe p id =>
      guard (free_lock s ∧ pobjs (vars s) !! p = None ∧ (0 < id < 2 ^ 31)%Z);;
      Some (snd (AddPipe p id s))
  | ERemovePipe p =>
      po ← pobjs (vars s) !! p;
      guard (free_lock s ∧ p ∉ removed (vars s));; Some (RemovePipe p po s)
  end.

Definition init (s : state) : Prop := s = NewProtocol.
Definition step : label event → state → option state := gstep ext.
Definition ok : state → label event → Prop := gok (λ _ _, True).

(** ** Ownership *)
Definition holding (th : thread) : list msg :=
  match th with
  | SendNext m _ | SendRet _ (Some m) | Sending _ m | RecvRet (Ok m) | RecvLock _ m
  | RecvPut _ m _ _ _ => [m]
  | SendTry m _ _ => [m; m]
  | _ => []
  end.

#[export] Instance xbus_owns : Owns (K := kind) (A := msg) (T := thread).
Proof.
  refine {| holds := holding |}.
  - intros th i o v y Hsel Hv.
    destruct th; cbn in Hsel; try destruct tq; cbn in Hsel; select_cases Hsel; cbn in *; subst;
      try (destruct v as [m'|]); owns_lia.
  - intros th y Hd. destruct th; try done; owns_lia.
Defined.

(** ** What the channels carry *)

(** A message that may go out on pipe [p]: one of the application's, which did
    not come from that pipe. *)
Definition goes_to (σ : socket) (p : pid) (m : msg) : Prop :=
  ∃ m0 po, m0 ∈ submitted σ ∧ m = strip m0 ∧ pobjs σ !! p = Some po ∧ p_id po ≠ origin m0.
(** A message that came in, with the ID of its pipe. *)
Definition came_on (σ : socket) (p : pid) (m : msg) : Prop :=
  ∃ m0 po, (p, m0) ∈ arrived σ ∧ pobjs σ !! p = Some po ∧ m = stamp po m0.
Definition ctype (σ : socket) (c : chid) (m : msg) : Prop :=
  match c.1 with
  | KSignal => False
  | KRecv => ∃ p, came_on σ p m
  | KSend p => goes_to σ p m
  end.
Definition target (σ : socket) (m : msg) (q : chid) : Prop := ∃ p, q.1 = KSend p ∧ goes_to σ p m.
Definition owner (σ : socket) (t : thid) : Prop := locked σ = Some t.

Definition ttype (σ : socket) (t : thid) (th : thread) : Prop :=
  match th with
  | SendNext m l => owner σ t ∧ Forall (target σ m) l
  | SendTry m q l => owner σ t ∧ target σ m q ∧ Forall (target σ m) l
  | RecvTry rq zq cq _ | RecvWait rq zq cq _ => rq.1 = KRecv ∧ zq.1 = KSignal ∧ cq.1 = KSignal
  | RecvRet (Ok m) => ∃ p, came_on σ p m
  | RecvLock p m => came_on σ p m
  | RecvPut p m rq zq cq => came_on σ p m ∧ rq.1 = KRecv ∧ zq.1 = KSignal ∧ cq.1 = KSignal
  | Sender p q cq => q.1 = KSend p ∧ cq.1 = KSignal
  | Sending p m => goes_to σ p m
  | CloseChan c => c.1 = KSignal
  | _ => True
  end.

Record vtype (σ : socket) : Prop := {
  vt_recvQ : (recvQ σ).1 = KRecv;
  vt_closeQ : (closeQ σ).1 = KSignal;
  vt_sizeQ : (sizeQ σ).1 = KSignal;
  vt_pipes p po : pobjs σ !! p = Some po →
    (p_closeQ po).1 = KSignal ∧ (p_sendQ po).1 = KSend p ∧ (0 < p_id po < 2 ^ 31)%Z
}.

#[export] Instance xbus_typed : Typed (K := kind) (A := msg) (S := socket) (T := thread).
Proof.
  refine {| vars_type := vtype; chan_type := ctype; thread_type := ttype |}.
  - intros σ t th i o v Hsel Hth Hv. unfold ctype, target in *.
    destruct th; cbn in Hsel; try destruct tq; cbn in Hsel; select_cases Hsel; cbn in Hth;
      try (destruct v as [m'|]); cbn; try done; destruct_and? Hth;
      repeat match goal with
      | H : ?x.1 = _, Hv : context [match ?x.1 with _ => _ end] |- _ => rewrite H in Hv
      | H : ?x.1 = _ |- context [match ?x.1 with _ => _ end] => rewrite H
      end; try done; try naive_solver.
    destruct H1 as (p & -> & ?). naive_solver.
  - intros σ t th Hd Hth. destruct th; try done; cbn in *; naive_solver.
Defined.

(** The variables grow. *)
Record vle (σ σ' : socket) : Prop := {
  vle_submitted m : m ∈ submitted σ → m ∈ submitted σ';
  vle_arrived x : x ∈ arrived σ → x ∈ arrived σ';
  vle_pobjs p po : pobjs σ !! p = Some po → pobjs σ' !! p = Some po
}.
Lemma xbus_goes_to_mono σ σ' p m : vle σ σ' → goes_to σ p m → goes_to σ' p m.
Proof. intros []. unfold goes_to. naive_solver. Qed.
Lemma xbus_came_on_mono σ σ' p m : vle σ σ' → came_on σ p m → came_on σ' p m.
Proof. intros []. unfold came_on. naive_solver. Qed.

Definition critical (th : thread) : bool :=
  match th with SendNext _ _ | SendTry _ _ _ => true | _ => false end.
Lemma xbus_critical_owner σ t th : critical th = true → ttype σ t th → owner σ t.
Proof. destruct th; try done; intros _ Hth; apply Hth. Qed.

Lemma xbus_ttype_mono σ σ' t th :
  vle σ σ' → (critical th = true → owner σ' t) → ttype σ t th → ttype σ' t th.
Proof.
  intros Hle Ho. assert (∀ p m, goes_to σ p m → goes_to σ' p m) as H1 by eauto using xbus_goes_to_mono.
  assert (∀ p m, came_on σ p m → came_on σ' p m) as H2 by eauto using xbus_came_on_mono.
  assert (∀ m q, target σ m q → target σ' m q) as H3 by (unfold target; naive_solver).
  assert (∀ m l, Forall (target σ m) l → Forall (target σ' m) l) as H4
    by (intros m l Hl; eapply Forall_impl; [exact Hl|auto]).
  destruct th as [| | | | | |[]| | | | | | | |]; try done; simpl in *; naive_solver.
Qed.
(** The variables change; the mutex stays with its owner, or was free. *)
Lemma xbus_okstep_vars f s :
  vle (vars s) (f (vars s)) → (locked (f (vars s)) = locked (vars s) ∨ locked (vars s) = None) →
  (vtype (vars s) → vtype (f (vars s))) → okstep s (set_vars f s).
Proof.
  intros Hle Hl Hv. apply okstep_vars; [done| |].
  - intros [k n] m _. unfold chan_type. simpl. unfold ctype. simpl.
    destruct k; [done|intros [q Hq]; exists q; by eapply xbus_came_on_mono|by apply xbus_goes_to_mono].
  - intros t th _ _ Hth. eapply xbus_ttype_mono; [done| |exact Hth]. intros Hcr.
    pose proof (xbus_critical_owner _ _ _ Hcr Hth). unfold owner in *. naive_solver congruence.
Qed.
Lemma xbus_vle_same σ σ' :
  submitted σ' = submitted σ → arrived σ' = arrived σ → pobjs σ' = pobjs σ → vle σ σ'.
Proof. intros H1 H2 H3. split; by rewrite ?H1, ?H2, ?H3. Qed.

(** ** The critical sections keep everything *)
Lemma targets_ok σ m order :
  vtype σ → m ∈ submitted σ → Forall (target σ (strip m)) (targets σ (origin m) order).
Proof.
  intros Hv Hm. apply Forall_forall. intros q. unfold targets. rewrite list_elem_of_omap.
  intros (p & _ & (po & Hpo & Hq)%bind_Some). case_decide as Hid; [done|]. simplify_eq.
  exists p. split; [by apply (vt_pipes _ Hv)|]. by exists m, po.
Qed.

Lemma xbus_okstep_SendMsg m order s : wf s → free_lock s → okstep s (SendMsg m order s).
Proof.
  intros Hwf Hf. unfold SendMsg. simpl. destruct (closed (vars s)).
  { apply (okstep_spawn _ [m] s); [done|accounting|done]. }
  set (f := λ σ : socket, σ <| locked := Some (fresh s) |> <| submitted ::= (λ l, l ++ [m]) |>).
  assert (okstep s (set_vars f s)) as Hok.
  { apply xbus_okstep_vars; [|by right|by intros []]. split; simpl; [set_solver|done|done]. }
  etrans; [exact Hok|]. apply (okstep_spawn (SendNext (strip m) (targets (vars s) (origin m) order)) [m]
    (set_vars f s) (set_vars f (give [m] s))); [by apply Hok| |].
  - split; try reflexivity. intros x. unfold strip. case_decide; owns_lia.
  - intros Hty. split; [done|]. apply (targets_ok (f (vars s))); [apply Hty|simpl; set_solver].
Qed.

Lemma xbus_okstep_SendMsg_next t m l s :
  typed s → threads s !! t = Some (SendNext m l) → okstep s (SendMsg_next t m l s).
Proof.
  intros Hty Ht. destruct (ty_thread _ Hty _ _ Ht) as (Ho & Hl). unfold SendMsg_next.
  destruct l as [|q l].
  - set (f := λ σ : socket, σ <| locked := None |>).
    change (okstep s (set_vars f (set_thread t (SendRet None None) (free [m] s)))).
    etrans; [apply (okstep_goto t (SendNext m []) (SendRet None None) [] s (free [m] s));
      [done|accounting|done]|].
    apply okstep_vars; [by intros []|done|]. intros t' th _ Ht' Hth.
    apply (xbus_ttype_mono (vars s)); [by apply xbus_vle_same| |exact Hth]. intros Hcr.
    pose proof (xbus_critical_owner _ _ _ Hcr Hth) as Ho'. unfold owner in *. simpl in *.
    rewrite lookup_insert in Ht'. case_decide; [by simplify_eq|congruence].
  - apply Forall_cons in Hl as [? ?]. eapply (okstep_goto t _ _ [m]); [done|accounting|done].
Qed.

Lemma xbus_okstep_resize z s : wf s → typed s → okstep s (resize z s).
Proof.
  intros Hwf Hty. destruct (ty_vars _ Hty) as [V1 V2 V3 V4]. unfold resize.
  destruct (make_chan KRecv (Z.to_nat z) s) as [q s1] eqn:E1.
  destruct (okstep_make_chan _ _ _ _ _ Hwf E1) as (Hok1 & Hwf1 & Hq & Hv1 & Ht1).
  destruct (make_chan KSignal 0 s1) as [zq s2] eqn:E2.
  destruct (okstep_make_chan _ _ _ _ _ Hwf1 E2) as (Hok2 & Hwf2 & Hzq & Hv2 & Ht2).
  etrans; [exact Hok1|]. etrans; [exact Hok2|].
  set (f := λ σ : socket, σ <| recvQLen := z |> <| recvQ := q |> <| sizeQ := zq |>).
  assert (okstep s2 (set_vars f s2)) as Hok3.
  { apply xbus_okstep_vars; [by apply xbus_vle_same|by left|]. intros []. by split; subst. }
  etrans; [exact Hok3|]. apply okstep_go; [by apply Hok3|done|]. intros _. simpl. by rewrite Hv2, Hv1.
Qed.

Lemma xbus_okstep_AddPipe p id s :
  wf s → pobjs (vars s) !! p = None → (0 < id < 2 ^ 31)%Z → okstep s (snd (AddPipe p id s)).
Proof.
  intros Hwf Hp Hid. unfold AddPipe. destruct (closed (vars s)); [reflexivity|].
  destruct (make_chan KSignal 0 s) as [cq s1] eqn:E1.
  destruct (okstep_make_chan _ _ _ _ _ Hwf E1) as (Hok1 & Hwf1 & Hcq & Hv1 & _).
  destruct (make_chan (KSend p) _ s1) as [sq s2] eqn:E2.
  destruct (okstep_make_chan _ _ _ _ _ Hwf1 E2) as (Hok2 & Hwf2 & Hsq & Hv2 & _).
  etrans; [exact Hok1|]. etrans; [exact Hok2|]. cbn [snd].
  set (s3 := set_vars _ s2). assert (okstep s2 s3) as Hok3.
  { apply xbus_okstep_vars; [|by left|].
    - split; simpl; [done|done|]. intros q po Hq. rewrite lookup_insert_ne; congruence.
    - intros []. split; try done. intros q po. simpl. rewrite lookup_insert. case_decide; [|by eauto].
      intros [= <-]. by subst. }
  etrans; [exact Hok3|]. assert (wf s3) as Hwf3 by by apply Hok3. clearbody s3.
  etrans; [apply (okstep_go (Sender p sq cq)); [done|done|by subst]|].
  apply okstep_go; [by apply wf_go|done|done].
Qed.

#[export] Instance xbus_ok : ExtOk ext.
Proof.
  intros e s s' Hwf Hty. pose proof (ty_vars _ Hty) as Hvt. destruct e; cbn [ext];
    try match goal with
    | |- context [match threads s !! ?t with _ => _ end] =>
        destruct (threads s !! t) as [[]|] eqn:Ht; try done; pose proof (ty_thread _ Hty _ _ Ht) as Hth
    end.
  - intros [(Hf & _) [= <-]]%guard_bind_Some. by apply xbus_okstep_SendMsg.
  - intros [= <-]. by apply xbus_okstep_SendMsg_next.
  - intros [= <-]. by apply okstep_go.
  - intros [_ [= <-]]%guard_bind_Some. eapply okstep_stop; [done|done|]. by destruct Hvt.
  - intros Hs. apply bind_Some in Hs as (po & Hpo & [_ [= <-]]%guard_bind_Some).
    set (f := λ σ : socket, σ <| arrived ::= (λ l, l ++ [(p, m)]) |>).
    assert (okstep s (set_vars f s)) as Hok.
    { apply xbus_okstep_vars; [|by left|by intros []]. split; simpl; [done|set_solver|done]. }
    etrans; [exact Hok|]. eapply (okstep_goto t _ (RecvLock p (stamp po m)) [m] _ (give [m] (set_vars f s)));
      [exact Ht|accounting|]. intros _. exists m, po. split_and!; [simpl; set_solver|done|done].
  - intros [= <-]. by eapply okstep_stop.
  - intros Hs. apply bind_Some in Hs as (po & Hpo & [_ [= <-]]%guard_bind_Some).
    eapply okstep_set_thread; [done|count|]. intros _. destruct Hvt. naive_solver.
  - intros Hs. apply bind_Some in Hs as (po & Hpo & [= <-]). unfold sender_sent.
    destruct e; (eapply (okstep_goto t _ _ []); [done|accounting|]); [done|].
    intros _. destruct Hvt. naive_solver.
  - intros [= <-]. etrans; [apply (xbus_okstep_vars (λ σ, σ <| pclosed ::= (λ x, {[p]} ∪ x) |>));
      [by apply xbus_vle_same|by left|by intros []]|by eapply okstep_stop].
  - intros [= <-]. etrans; [apply okstep_close_chan|].
    eapply okstep_stop; [by rewrite threads_close_chan|done|done].
  - intros [_ [= <-]]%guard_bind_Some. unfold SetOption.
    assert (∀ f : socket → socket, vle (vars s) (f (vars s)) → locked (f (vars s)) = locked (vars s) →
      (vtype (vars s) → vtype (f (vars s))) → okstep s (set_vars f s)) as Hvars.
    { intros f H1 H2 H3. apply xbus_okstep_vars; [done|by left|done]. }
    destruct (String.eqb name _).
    { destruct v; try reflexivity. by apply Hvars; [apply xbus_vle_same|..|intros []]. }
    destruct (String.eqb name _).
    { destruct v; try reflexivity. destruct (0 <=? z)%Z; [|reflexivity].
      by apply Hvars; [apply xbus_vle_same|..|intros []]. }
    destruct (String.eqb name _); [|reflexivity]. destruct v; try reflexivity.
    destruct (0 <=? z)%Z; [|reflexivity]. by apply xbus_okstep_resize.
  - intros [_ [= <-]]%guard_bind_Some. unfold Close. destruct (closed (vars s)); [reflexivity|].
    assert (okstep s (set_vars (λ σ, σ <| closed := true |>) s)) as Hok
      by (apply xbus_okstep_vars; [by apply xbus_vle_same|by left|by intros []]).
    etrans; [exact Hok|]. apply okstep_go; [by apply Hok|done|]. intros _. apply Hvt.
  - intros [(_ & Hp & Hid) [= <-]]%guard_bind_Some. by apply xbus_okstep_AddPipe.
  - intros Hs. apply bind_Some in Hs as (po & Hpo & [_ [= <-]]%guard_bind_Some). unfold RemovePipe.
    set (s1 := set_vars _ s). assert (okstep s s1) as Hok
      by (apply xbus_okstep_vars; [by apply xbus_vle_same|by left|by intros []]).
    etrans; [exact Hok|]. apply okstep_go; [by apply Hok|done|]. intros _. by apply (vt_pipes _ Hvt p).
Qed.

Lemma reachable_xbus s : reachable step init ok s → good s.
Proof.
  apply reachable_good; [apply _|]. intros ? ->. start_good. split; simpl; try done; set_solver.
Qed.

(** C32. A BUS socket never sends a message back where it came from, also when
    a device or the application forwards it: what [RecvMsg] returns has the ID
    of the pipe it arrived on as its header and is unchanged otherwise; what goes
    out on a pipe was submitted with a header that is not the pipe's ID (a header
    of four bytes is taken off), so that it is none that [RecvMsg] returned from
    this pipe; references to messages and the queues are respected. *)
Theorem xbus_no_echo s (H : reachable step init ok s) :
  (∀ t m, threads s !! t = Some (RecvRet (Ok m)) →
     ∃ p po m0, (p, m0) ∈ arrived (vars s) ∧ pobjs (vars s) !! p = Some po ∧
       m = m0 <| mhdr := put_uint32 (p_id po) |>) ∧
  (∀ t p m, threads s !! t = Some (Sending p m) →
     ∃ m0 po, m0 ∈ submitted (vars s) ∧ m = strip m0 ∧ pobjs (vars s) !! p = Some po ∧
       mhdr m0 ≠ put_uint32 (p_id po)) ∧
  (∀ c ch, chans s !! c = Some ch → ins ch = outs ch ++ buf ch ∧ length (buf ch) ≤ cap ch) ∧
  (∀ x, owned x s ≤ kocc x (given s)).
Proof.
  destruct (reachable_xbus s H) as [Hwf Ho [_ Ht Hv]]. split_and!; [| |apply Hwf|exact Ho].
  - intros t m Hth. destruct (Ht _ _ Hth) as (p & m0 & po & ? & ? & ?). by exists p, po, m0.
  - intros t p m Hth. destruct (Ht _ _ Hth) as (m0 & po & Hm & -> & Hpo & Hne). exists m0, po.
    split_and!; [done..|]. intros Hh. apply Hne. unfold origin. rewrite Hh, decide_True by done.
    destruct (vt_pipes _ Hv _ _ Hpo) as (_ & _ & Hid). symmetry.
    rewrite be_decode_encode. apply Z.mod_small. simpl. lia.
Qed.

Definition talk (n : nat) : msg := mkMsg [] [Byte.x61] (Some 7%Z) n.
(** A message arrives on pipe 0, is received, and sent on: pipe 1 gets it. *)
Definition xbus_run : state :=
  play step (λ _ _, true)
    [LExt (EAddPipe 0 7); LExt (EAddPipe 1 9); LExt (EPipeRecv 6 (talk 0)); LExt (ERecvLock 6);
     LCase 6 0 None; LExt ERecv; LExt (ERecvTop 11); LCase 11 0 None;
     LExt (ESend (mkMsg (put_uint32 7) [Byte.x61] (Some 7%Z) 1) [0; 1]); LExt (ENext 12);
     LCase 12 0 None; LExt (ENext 12); LCase 9 1 None] NewProtocol.

Lemma xbus_no_echo_witness :
  threads xbus_run !! 11 = Some (RecvRet (Ok (mkMsg (put_uint32 7) [Byte.x61] (Some 7%Z) 0))) ∧
  threads xbus_run !! 9 = Some (Sending 1 (mkMsg [] [Byte.x61] (Some 7%Z) 1)) ∧
  contents xbus_run (KSend 0, 4) = [] ∧
  ∃ m0 po, pobjs (vars xbus_run) !! 1 = Some po ∧ mhdr m0 ≠ put_uint32 (p_id po) ∧
    m0 ∈ submitted (vars xbus_run).
Proof.
  assert (reachable step init ok xbus_run) as Hr by (by apply play_reachable; [intros ? []|]).
  assert (threads xbus_run !! 9 = Some (Sending 1 (mkMsg [] [Byte.x61] (Some 7%Z) 1))) as Ht
    by by vm_compute.
  split_and!; [by vm_compute|done|by vm_compute|].
  destruct (xbus_no_echo xbus_run Hr) as (_ & Hs & _).
  destruct (Hs _ _ _ Ht) as (m0 & po & ? & _ & ? & ?). by exists m0, po.
Defined.

(** A resize of the read queue closes a pipe whose goroutine waits for room,
    where the comment in [receiver] says that the message is discarded. *)
Example xbus_resize_disconnects :
  threads (play step (λ _ _, true)
    [LExt (ESetOption OptionReadQLen (VInt 0)); LExt (EAddPipe 0 7); LExt (EPipeRecv 9 (talk 0));
     LExt (ERecvLock 9); LExt (ESetOption OptionReadQLen (VInt 5)); LExt (ECloseChan 12);
     LCase 9 2 None; LExt (EPipeClose 9)] NewProtocol) !! 9 = Some Done.
Proof. by vm_compute. Qed.
