(* ===== verification/XStar.v ===== *)
(** * XStar: the raw STAR protocol

    [src/protocol/xstar/xstar.go], complete, as a program of [Chan].  [SendMsg]
    and, for what comes in, [receiver] hold the socket's mutex while they offer
    a message to the pipes: the mutex is a variable ([locked]).  [s.recvq] and
    [s.sendQLen] are read without it, at points of their own.  A [Dup] is a new
    message; the event names it. *)
From stdpp Require Import gmap list strings fin_maps.
From Stdlib Require Import ZArith Lia.
From S2P Require Import Prelude Types Chan Backtrace.

Abbreviation pid := nat.

(** The channels: those that only get closed, [recvq], and [sendq] of a pipe. *)
Inductive kind := KSignal | KRecv | KSend (p : pid).
#[export] Instance kind_eq_dec : EqDecision kind.
Proof. solve_decision. Defined.
#[export] Instance kind_countable : Countable kind.
Proof.
  refine (inj_countable'
    (λ k, match k with KSignal => 0 | KRecv => 1 | KSend p => S (S p) end)
    (λ x, match x with 0 => KSignal | 1 => KRecv | S (S p) => KSend p end) _).
  by intros [].
Defined.
Abbreviation chid := (kind * nat)%type.

Record pipe := mkPipe { p_id : Z; p_closeq : chid; p_sendq : chid }.

Record socket := mkSocket {
  closed : bool;
  closeq : chid;
  pipes : gmap Z pid;
  recvQLen : Z;
  sendQLen : Z;
  recvExpire : Z;
  recvq : chid;
  ttl : Z;
  locked : option thid;      (* who holds the mutex, between steps *)
  pobjs : gmap pid pipe;     (* all pipe objects *)
  removed : gset pid;
  pclosed : gset pid;
  submitted : list msg;
  arrived : list (pid * msg * Z)   (* what came from a pipe, with the TTL at that time *)
}.
#[export] Instance eta_socket : Eta socket := λ s,
  mkSocket (closed s) (closeq s) (pipes s) (recvQLen s) (sendQLen s) (recvExpire s) (recvq s)
    (ttl s) (locked s) (pobjs s) (removed s) (pclosed s) (submitted s) (arrived s).

Definition defaultQLen : Z := 128.

(** Program points. *)
Inductive thread :=
  | SendNext (m : msg) (l : list chid)           (* SendMsg, the head of its loop *)
  | SendTry (m : msg) (q : chid) (l : list chid)
  | SendRet (e : error) (back : option msg)
  | RecvSel (tq : bool)                          (* RecvMsg, at its first select *)
  | RecvTry (rq : chid) (tq : bool)
  | RecvSel2 (tq : bool)                         (* ... at its second select *)
  | RecvWait (rq cq : chid) (tq : bool)
  | RecvRet (r : result msg)
  | Receiver (p : pid)                           (* in p.p.RecvMsg() *)
  | FwdLock (p : pid) (u m : msg)                (* receiver, before s.Lock() *)
  | FwdNext (p : pid) (u m : msg) (l : list chid)
  | FwdTry (p : pid) (u m m2 : msg) (q : chid) (l : list chid)
  | PutSel (p : pid) (u : msg)                   (* receiver, at its last select *)
  | RecvPut (p : pid) (u : msg) (rq cq scq : chid)
  | Sender (p : pid) (q cq : chid)
  | Sending (p : pid) (m : msg)
  | PipeClose (p : pid)
  | AddLock (p : pid)                            (* AddPipe, before s.Lock() *)
  | AddRet (e : error)
  | RemoveLock (p : pid)                         (* RemovePipe, before s.Lock() *)
  | CloseChan (c : chid)
  | Done.

Definition timer (tq : bool) : list (op kind msg) := if tq then [OTime] else [].

Definition sel (th : thread) : list (op kind msg) :=
  match th with
  | SendTry m q l => [OSend q m]
  | RecvTry rq tq => [ORecv rq]
  | RecvWait rq cq tq => [ORecv cq; ORecv rq] ++ timer tq
  | FwdTry p u m m2 q l => [OSend q m2]
  | RecvPut p u rq cq scq => [OSend rq u; ORecv cq; ORecv scq]
  | Sender p q cq => [ORecv cq; ORecv q]
  | _ => []
  end.
Definition dflt (th : thread) : bool :=
  match th with SendTry _ _ _ | RecvTry _ _ | FwdTry _ _ _ _ _ _ => true | _ => false end.

(** After a case.  [recvq] and the [sendq]s are never closed, so a receive from
    them brings a message. *)
Definition res (th : thread) (i : option nat) (v : option msg) : thread * list msg :=
  match th, i with
  | SendTry m q l, Some _ => (SendNext m l, [])
  | SendTry m q l, None => (SendNext m l, [m])
  | RecvTry rq tq, None => (RecvSel2 tq, [])
  | RecvTry rq tq, Some _ =>
      (match v with Some m => RecvRet (Ok m) | None => RecvSel tq end, [])
  | RecvWait rq cq tq, Some 0 => (RecvRet (Err ErrClosed), [])
  | RecvWait rq cq tq, Some 1 =>
      (match v with Some m => RecvRet (Ok m) | None => RecvSel tq end, [])
  | RecvWait rq cq tq, Some _ => (RecvRet (Err ErrRecvTimeout), [])
  | FwdTry p u m m2 q l, Some _ => (FwdNext p u m l, [])
  | FwdTry p u m m2 q l, None => (FwdNext p u m l, [m2])
  | RecvPut p u rq cq scq, Some 0 => (Receiver p, [])
  | RecvPut p u rq cq scq, Some _ => (PipeClose p, [u])
  | Sender p q cq, Some 0 => (PipeClose p, option_list v)
  | Sender p q cq, Some _ => (match v with Some m => Sending p m | None => PipeClose p end, [])
  | th, _ => (th, [])
  end.

#[export] Instance xstar_program : Program kind msg thread :=
  { select := sel; has_default := dflt; resume := res }.

Abbreviation state := (st kind msg socket thread).

(** ** The critical sections *)

(** The queues of the pipes in the order [order], less that of [not]. *)
Definition targets (σ : socket) (not : option pid) (order : list pid) : list chid :=
  omap (λ p, if decide (Some p = not) then None else p_sendq <$> pobjs σ !! p) order.

Definition SendMsg (m : msg) (order : list pid) (s : state) : state :=
  let s := give [m] s in
  if closed (vars s) then go (SendRet (Some ErrClosed) (Some m)) s
  else if decide (length (mhdr m) = 4) then
    let l := targets (vars s) None order in
    let s := set_vars (λ σ, σ <| locked := Some (fresh s) |>
                              <| submitted ::= (λ l, l ++ [m]) |>) s in
    go (SendNext m l) s
  else go (SendRet None None) (free [m] s).
(** ..., one pass of its loop; at the end it releases the mutex. *)
Definition SendMsg_next (t : thid) (m : msg) (l : list chid) (s : state) : state :=
  match l with
  | [] => set_thread t (SendRet None None) (free [m] (set_vars (λ σ, σ <| locked := None |>) s))
  | q :: l => set_thread t (SendTry m q l) (give [m] s)
  end.

(** [RecvMsg], and the two [select] statements, which read [s.recvq]. *)
Definition RecvMsg (s : state) : state := go (RecvSel (negb (recvExpire (vars s) =? 0)%Z)) s.
Definition RecvMsg_select (th : thread) (σ : socket) : option thread :=
  match th with
  | RecvSel tq => Some (RecvTry (recvq σ) tq)
  | RecvSel2 tq => Some (RecvWait (recvq σ) (closeq σ) tq)
  | _ => None
  end.

Definition SetOption (name : string) (v : value) (s : state) : error * state :=
  if String.eqb name OptionTTL then
    match v with
    | VInt z => if ((0 <? z) && (z <? 256))%Z then (None, set_vars (λ σ, σ <| ttl := z |>) s)
                else (Some ErrBadValue, s)
    | _ => (Some ErrBadValue, s)
    end
  else if String.eqb name OptionRecvDeadline then
    match v with
    | VDuration d => (None, set_vars (λ σ, σ <| recvExpire := d |>) s)
    | _ => (Some ErrBadValue, s)
    end
  else if String.eqb name OptionWriteQLen then
    match v with
    | VInt z => if (0 <=? z)%Z then (None, set_vars (λ σ, σ <| sendQLen := z |>) s)
                else (Some ErrBadValue, s)
    | _ => (Some ErrBadValue, s)
    end
  else if String.eqb name OptionReadQLen then
    match v with
    | VInt z =>
        if (0 <=? z)%Z then
          let '(q, s) := make_chan KRecv (Z.to_nat z) s in
          (None, set_vars (λ σ, σ <| recvQLen := z |> <| recvq := q |>) s)
        else (Some ErrBadValue, s)
    | _ => (Some ErrBadValue, s)
    end
  else (Some ErrBadOption, s).

Definition GetOption (name : string) (σ : socket) : result value :=
  if String.eqb name OptionRaw then Ok (VBool true)
  else if String.eqb name OptionTTL then Ok (VInt (ttl σ))
  else if String.eqb name OptionRecvDeadline then Ok (VDuration (recvExpire σ))
  else if String.eqb name OptionWriteQLen then Ok (VInt (sendQLen σ))
  else if String.eqb name OptionReadQLen then Ok (VInt (recvQLen σ))
  else Err ErrBadOption.

(** [AddPipe], before and after it gets the mutex. *)
Definition AddPipe (p : pid) (id : Z) (s : state) : state :=
  let '(cq, s) := make_chan KSignal 0 s in
  let '(sq, s) := make_chan (KSend p) (Z.to_nat (sendQLen (vars s))) s in
  go (AddLock p) (set_vars (λ σ, σ <| pobjs ::= <[p := mkPipe id cq sq]> |>) s).
Definition AddPipe_locked (t : thid) (p : pid) (po : pipe) (s : state) : state :=
  if closed (vars s) then set_thread t (AddRet (Some ErrClosed)) s
  else
    let s := set_vars (λ σ, σ <| pipes ::= <[p_id po := p]> |>) (set_thread t (AddRet None) s) in
    go (Receiver p) (go (Sender p (p_sendq po) (p_closeq po)) s).

(** [RemovePipe], before and after it gets the mutex. *)
Definition RemovePipe (p : pid) (po : pipe) (s : state) : state :=
  go (RemoveLock p)
    (close_chan (p_closeq po) (set_vars (λ σ, σ <| removed ::= (λ x, {[p]} ∪ x) |>) s)).
Definition RemovePipe_locked (t : thid) (po : pipe) (s : state) : state :=
  set_thread t Done (set_vars (λ σ, σ <| pipes ::= delete (p_id po) |>) s).

Definition OpenContext : error := Some ErrProtoOp.
Definition Info : ProtocolInfo := mkInfo ProtoStar ProtoStar "star" "star".

Definition Close (s : state) : error * state :=
  if closed (vars s) then (Some ErrClosed, s)
  else (None, go (CloseChan (closeq (vars s))) (set_vars (λ σ, σ <| closed := true |>) s)).

(** [sender], when [p.p.SendMsg(m)] has returned. *)
Definition sender_sent (t : thid) (p : pid) (po : pipe) (m : msg) (e : error) (s : state) : state :=
  match e with
  | Some _ => set_thread t (PipeClose p) (free [m] s)
  | None => set_thread t (Sender p (p_sendq po) (p_closeq po)) (pass [m] s)
  end.

(** [receiver]: what it makes of a message ([None]: it is freed).  The header
    becomes the first four bytes of the body, with the hop count one higher. *)
Definition star_receive (ttl : Z) (m : msg) : option msg :=
  match mbody m with
  | b0 :: b1 :: b2 :: b3 :: body =>
      if decide (b0 = Byte.x00 ∧ b1 = Byte.x00 ∧ b2 = Byte.x00 ∧ (Z_of_byte b3 < ttl)%Z) then
        Some (m <| mhdr := [b0; b1; b2; byte_of_Z (Z_of_byte b3 + 1)] |> <| mbody := body |>)
      else None
  | _ => None
  end.
Definition dup (n : nat) (m : msg) : msg := m <| mref := n |>.

(** ..., when [p.p.RecvMsg()] has returned [m]; [n] is the copy for the user. *)
Definition receiver_turn (t : thid) (p : pid) (m : msg) (n : nat) (s : state) : state :=
  let s := set_vars (λ σ, σ <| arrived ::= (λ l, l ++ [(p, m, ttl (vars s))]) |>) (give [m] s) in
  match star_receive (ttl (vars s)) m with
  | None => free [m] s
  | Some m => set_thread t (FwdLock p (dup n m) m) (give [dup n m] s)
  end.
(** ..., with the mutex: the copies for the other pipes. *)
Definition receiver_lock (t : thid) (p : pid) (u m : msg) (order : list pid) (s : state) : state :=
  let l := targets (vars s) (Some p) order in
  set_thread t (FwdNext p u m l) (set_vars (λ σ, σ <| locked := Some t |>) s).
Definition receiver_next (t : thid) (p : pid) (u m : msg) (l : list chid) (n : nat) (s : state) : state :=
  match l with
  | [] => set_thread t (PutSel p u) (free [m] (set_vars (λ σ, σ <| locked := None |>) s))
  | q :: l => set_thread t (FwdTry p u m (dup n m) q l) (give [dup n m] s)
  end.
Definition receiver_put (p : pid) (po : pipe) (u : msg) (s : state) : thread :=
  RecvPut p u (recvq (vars s)) (p_closeq po) (closeq (vars s)).

Definition pipe_close (t : thid) (p : pid) (s : state) : state :=
  set_thread t Done (set_vars (λ σ, σ <| pclosed ::= (λ x, {[p]} ∪ x) |>) s).

Definition NewProtocol : state :=
  mkSt (mkSocket false (KSignal, 0) ∅ defaultQLen defaultQLen 0 (KRecv, 1) 8 None ∅ ∅ ∅ [] [])
    {[ (KSignal, 0) := mkChan [] 0 false [] [];
       (KRecv, 1) := mkChan [] (Z.to_nat defaultQLen) false [] [] ]} ∅ 2 [] [] [] false.

(** ** The program *)
Inductive event :=
  | ESend (m : msg) (order : list pid)
  | ENext (t : thid) (n : nat)
  | ERecv
  | ERecvSel (t : thid)
  | EPipeRecv (t : thid) (m : msg) (n : nat)
  | EPipeRecvNil (t : thid)
  | EFwdLock (t : thid) (order : list pid)
  | EPutSel (t : thid)
  | EPipeSent (t : thid) (e : error)
  | EPipeClose (t : thid)
  | ECloseChan (t : thid)
  | ESetOption (name : string) (v : value)
  | EClose
  | EAddPipe (p : pid) (id : Z)
  | EAddLock (t : thid)
  | ERemovePipe (p : pid)
  | ERemoveLock (t : thid).

Definition free_lock (s : state) : Prop := locked (vars s) = None.
Definition ranges (order : list pid) (s : state) : Prop :=
  NoDup order ∧ list_to_set order = (map_img (pipes (vars s)) : gset pid).
#[export] Instance ranges_dec order s : Decision (ranges order s).
Proof. unfold ranges. apply _. Defined.

(** New messages, copies and pipe objects have identities of their own; the
    pipes are ranged over in any order; the core removes a pipe once. *)
Definition ext (e : event) (s : state) : option state :=
  match e with
  | ESend m order =>
      guard (free_lock s ∧ mref m ∉ mref <$> given s ∧ ranges order s);; Some (SendMsg m order s)
  | ENext t n =>
      match threads s !! t with
      | Some (SendNext m l) => Some (SendMsg_next t m l s)
      | Some (FwdNext p u m l) => guard (n ∉ mref <$> given s);; Some (receiver_next t p u m l n s)
      | _ => None
      end
  | ERecv => guard (free_lock s);; Some (RecvMsg s)
  | ERecvSel t =>
      th ← threads s !! t; th' ← RecvMsg_select th (vars s); Some (set_thread t th' s)
  | EPipeRecv t m n =>
      match threads s !! t with
      | Some (Receiver p) =>
          guard (mref m ∉ mref <$> given s ∧ n ∉ mref <$> given s ∧ n ≠ mref m);;
          Some (receiver_turn t p m n s)
      | _ => None
      end
  | EPipeRecvNil t =>
      match threads s !! t with
      | Some (Receiver p) => Some (set_thread t (PipeClose p) s)
      | _ => None
      end
  | EFwdLock t order =>
      match threads s !! t with
      | Some (FwdLock p u m) =>
          guard (free_lock s ∧ ranges order s);; Some (receiver_lock t p u m order s)
      | _ => None
      end
  | EPutSel t =>
      match threads s !! t with
      | Some (PutSel p u) => po ← pobjs (vars s) !! p; Some (set_thread t (receiver_put p po u s) s)
      | _ => None
      end
  | EPipeSent t e =>
      match threads s !! t with
      | Some (Sending p m) => po ← pobjs (vars s) !! p; Some (sender_sent t p po m e s)
      | _ => None
      end
  | EPipeClose t =>
      match threads s !! t with
      | Some (PipeClose p) => Some (pipe_close t p s)
      | _ => None
      end
  | ECloseChan t =>
      match threads s !! t with
      | Some (CloseChan c) => Some (set_thread t Done (close_chan c s))
      | _ => None
      end
  | ESetOption name v => guard (free_lock s);; Some (snd (SetOption name v s))
  | EClose => guard (free_lock s);; Some (snd (Close s))
  | EAddPipe p id => guard (pobjs (vars s) !! p = None);; Some (AddPipe p id s)
  | EAddLock t =>
      match threads s !! t with
      | Some (AddLock p) =>
          po ← pobjs (vars s) !! p; guard (free_lock s);; Some (AddPipe_locked t p po s)
      | _ => None
      end
  | ERemovePipe p =>
      po ← pobjs (vars s) !! p; guard (p ∉ removed (vars s));; Some (RemovePipe p po s)
  | ERemoveLock t =>
      match threads s !! t with
      | Some (RemoveLock p) =>
          po ← pobjs (vars s) !! p; guard (free_lock s);; Some (RemovePipe_locked t po s)
      | _ => None
      end
  end.

Definition init (s : state) : Prop := s = NewProtocol.
Definition step : label event → state → option state := gstep ext.
Definition ok : state → label event → Prop := gok (λ _ _, True).

(** ** Ownership *)
Definition holding (th : thread) : list msg :=
  match th with
  | SendNext m _ | SendRet _ (Some m) | Sending _ m | RecvRet (Ok m) => [m]
  | SendTry m _ _ => [m; m]
  | FwdLock _ u m | FwdNext _ u m _ => [u; m]
  | FwdTry _ u m m2 _ _ => [u; m; m2]
  | PutSel _ u | RecvPut _ u _ _ _ => [u]
  | _ => []
  end.

#[export] Instance xstar_owns : Owns (K := kind) (A := msg) (T := thread).
Proof.
  refine {| holds := holding |}.
  - intros th i o v y Hsel Hv.
    destruct th; cbn in Hsel; try destruct tq; cbn in Hsel; select_cases Hsel; cbn in *; subst;
      try (destruct v as [m'|]); owns_lia.
  - intros th y Hd. destruct th; try done; owns_lia.
Defined.

(** ** What the channels carry *)

(** [m] is, or is a copy of, what [receiver] made of a message that arrived on
    pipe [p]. *)
Definition hopped (σ : socket) (p : pid) (m : msg) : Prop :=
  ∃ m0 m1 n k, (p, m0, n) ∈ arrived σ ∧ (0 < n < 256)%Z ∧ star_receive n m0 = Some m1 ∧ m = dup k m1.
(** What may go out on pipe [p]. *)
Definition goes_to (σ : socket) (p : pid) (m : msg) : Prop :=
  (m ∈ submitted σ ∧ length (mhdr m) = 4) ∨ ∃ p', p' ≠ p ∧ hopped σ p' m.
Definition ctype (σ : socket) (c : chid) (m : msg) : Prop :=
  match c.1 with
  | KSignal => False
  | KRecv => ∃ p, hopped σ p m
  | KSend p => goes_to σ p m
  end.
Definition send_queue (q : chid) : Prop := ∃ p, q.1 = KSend p.
Definition other (p : pid) (q : chid) : Prop := ∃ p', q.1 = KSend p' ∧ p' ≠ p.
Definition owner (σ : socket) (t : thid) : Prop := locked σ = Some t.

Definition ttype (σ : socket) (t : thid) (th : thread) : Prop :=
  match th with
  | SendNext m l => owner σ t ∧ m ∈ submitted σ ∧ length (mhdr m) = 4 ∧ Forall send_queue l
  | SendTry m q l =>
      owner σ t ∧ m ∈ submitted σ ∧ length (mhdr m) = 4 ∧ send_queue q ∧ Forall send_queue l
  | RecvTry rq _ => rq.1 = KRecv
  | RecvWait rq cq _ => rq.1 = KRecv ∧ cq.1 = KSignal
  | RecvRet (Ok m) => ∃ p, hopped σ p m
  | FwdLock p u m => hopped σ p u ∧ hopped σ p m
  | FwdNext p u m l => owner σ t ∧ hopped σ p u ∧ hopped σ p m ∧ Forall (other p) l
  | FwdTry p u m m2 q l =>
      owner σ t ∧ hopped σ p u ∧ hopped σ p m ∧ hopped σ p m2 ∧ other p q ∧ Forall (other p) l
  | PutSel p u => hopped σ p u
  | RecvPut p u rq cq scq => hopped σ p u ∧ rq.1 = KRecv ∧ cq.1 = KSignal ∧ scq.1 = KSignal
  | Sender p q cq => q.1 = KSend p ∧ cq.1 = KSignal
  | Sending p m => goes_to σ p m
  | CloseChan c => c.1 = KSignal
  | _ => True
  end.

Record vtype (σ : socket) : Prop := {
  vt_recvq : (recvq σ).1 = KRecv;
  vt_closeq : (closeq σ).1 = KSignal;
  vt_ttl : (0 < ttl σ < 256)%Z;
  vt_pipes p po : pobjs σ !! p = Some po → (p_closeq po).1 = KSignal ∧ (p_sendq po).1 = KSend p
}.

Lemma other_goes_to σ p q m : hopped σ p m → other p q → ctype σ q m.
Proof. intros Hm (p' & Hq & Hne). unfold ctype. rewrite Hq. right. by exists p. Qed.
Lemma send_queue_goes_to σ q m : m ∈ submitted σ → length (mhdr m) = 4 → send_queue q → ctype σ q m.
Proof. intros Hm Hl (p & Hq). unfold ctype. rewrite Hq. by left. Qed.

#[export] Instance xstar_typed : Typed (K := kind) (A := msg) (S := socket) (T := thread).
Proof.
  refine {| vars_type := vtype; chan_type := ctype; thread_type := ttype |}.
  - intros σ t th i o v Hsel Hth Hv.
    destruct th; cbn in Hsel; try destruct tq; cbn in Hsel; select_cases Hsel; cbn in Hth;
      try (destruct v as [m'|]); cbn; try done; destruct_and? Hth;
      try (split; [|done]; eauto using other_goes_to, send_queue_goes_to);
      unfold ctype in *; repeat match goal with
      | H : ?x.1 = _, Hv : context [match ?x.1 with _ => _ end] |- _ => rewrite H in Hv
      | H : ?x.1 = _ |- context [match ?x.1 with _ => _ end] => rewrite H
      end; try done; naive_solver.
  - intros σ t th Hd Hth. destruct th; try done; cbn in *; naive_solver.
Defined.

(** The variables grow. *)
Record vle (σ σ' : socket) : Prop := {
  vle_submitted m : m ∈ submitted σ → m ∈ submitted σ';
  vle_arrived x : x ∈ arrived σ → x ∈ arrived σ'
}.
Lemma hopped_mono σ σ' p m : vle σ σ' → hopped σ p m → hopped σ' p m.
Proof. intros []. unfold hopped. naive_solver. Qed.
Lemma xstar_goes_to_mono σ σ' p m : vle σ σ' → goes_to σ p m → goes_to σ' p m.
Proof.
  intros Hle [[? ?]|(p' & ? & ?)]; [left; split; [by apply Hle|done]|].
  right. exists p'. split; [done|]. by eapply hopped_mono.
Qed.

Definition critical (th : thread) : bool :=
  match th with SendNext _ _ | SendTry _ _ _ | FwdNext _ _ _ _ | FwdTry _ _ _ _ _ _ => true | _ => false end.
Lemma xstar_critical_owner σ t th : critical th = true → ttype σ t th → owner σ t.
Proof. destruct th; try done; intros _ Hth; apply Hth. Qed.

Lemma xstar_ttype_mono σ σ' t th :
  vle σ σ' → (critical th = true → owner σ' t) → ttype σ t th → ttype σ' t th.
Proof.
  intros Hle Ho. assert (∀ p m, goes_to σ p m → goes_to σ' p m) as H1 by eauto using xstar_goes_to_mono.
  assert (∀ p m, hopped σ p m → hopped σ' p m) as H2 by eauto using hopped_mono. destruct Hle.
  destruct th as [| | | | | | |[]| | | | | | | | | | | | | |]; try done; simpl in *; naive_solver.
Qed.
Lemma xstar_okstep_vars f s :
  vle (vars s) (f (vars s)) → (locked (f (vars s)) = locked (vars s) ∨ locked (vars s) = None) →
  (vtype (vars s) → vtype (f (vars s))) → okstep s (set_vars f s).
Proof.
  intros Hle Hl Hv. apply okstep_vars; [done| |].
  - intros [k n] m _. unfold chan_type. simpl. unfold ctype. simpl.
    destruct k; [done|intros [q Hq]; exists q; by eapply hopped_mono|by apply xstar_goes_to_mono].
  - intros t th _ _ Hth. eapply xstar_ttype_mono; [done| |exact Hth]. intros Hcr.
    pose proof (xstar_critical_owner _ _ _ Hcr Hth). unfold owner in *. naive_solver congruence.
Qed.
Lemma xstar_vle_same σ σ' : submitted σ' = submitted σ → arrived σ' = arrived σ → vle σ σ'.
Proof. intros H1 H2. split; by rewrite ?H1, ?H2. Qed.

(** The holder of the mutex releases it. *)
Definition unlock (σ : socket) : socket := σ <| locked := None |>.
Lemma xstar_okstep_unlock t th th' l s s1 :
  typed s → threads s !! t = Some th → critical th = true → critical th' = false →
  ttype (vars s) t th' → accounts l (holds th') (holds th) s s1 →
  okstep s (set_vars unlock (set_thread t th' s1)).
Proof.
  intros Hty Ht Hc Hc' Hth' Hac. etrans; [by eapply (okstep_goto t th th' l)|].
  pose proof (xstar_critical_owner _ _ _ Hc (ty_thread _ Hty _ _ Ht)) as Ho.
  destruct Hac as [Hths _ Hv _ _ _].
  apply okstep_vars; [by intros []|done|]. simpl. rewrite Hths, Hv. intros k x _ Hk Hx.
  apply (xstar_ttype_mono (vars s)); [by apply xstar_vle_same| |exact Hx]. intros Hcr.
  pose proof (xstar_critical_owner _ _ _ Hcr Hx) as Ho'. unfold owner in *.
  rewrite lookup_insert in Hk. case_decide; [|congruence]. injection Hk as <-. congruence.
Qed.

(** ** The critical sections keep everything *)
Lemma targets_send (σ : socket) not order : vtype σ → Forall send_queue (targets σ not order).
Proof.
  intros Hv. apply Forall_forall. intros q. unfold targets. rewrite list_elem_of_omap.
  intros (p & _ & Hq). case_decide; [done|]. apply fmap_Some in Hq as (po & Hpo & ->).
  exists p. by destruct (vt_pipes _ Hv _ _ Hpo).
Qed.
Lemma targets_other (σ : socket) p order : vtype σ → Forall (other p) (targets σ (Some p) order).
Proof.
  intros Hv. apply Forall_forall. intros q. unfold targets. rewrite list_elem_of_omap.
  intros (p' & _ & Hq). case_decide; [done|]. apply fmap_Some in Hq as (po & Hpo & ->).
  exists p'. split; [by destruct (vt_pipes _ Hv _ _ Hpo)|congruence].
Qed.

Lemma xstar_okstep_SendMsg m order s : wf s → free_lock s → okstep s (SendMsg m order s).
Proof.
  intros Hwf Hf. unfold SendMsg. simpl. destruct (closed (vars s)).
  { apply (okstep_spawn _ [m] s); [done|accounting|done]. }
  case_decide as Hl; [|apply (okstep_spawn _ [m] s); [done|accounting|done]].
  set (f := λ σ : socket, σ <| locked := Some (fresh s) |> <| submitted ::= (λ l, l ++ [m]) |>).
  assert (okstep s (set_vars f s)) as Hok.
  { apply xstar_okstep_vars; [|by right|by intros []]. split; simpl; [set_solver|done]. }
  etrans; [exact Hok|]. apply (okstep_spawn (SendNext m (targets (vars s) None order)) [m]
    (set_vars f s) (set_vars f (give [m] s))); [by apply Hok|accounting|].
  intros Hty. split_and!; [done|simpl; set_solver|done|].
  apply (targets_send (f (vars s)) None order), (ty_vars _ Hty).
Qed.

Lemma xstar_okstep_SendMsg_next t m l s :
  typed s → threads s !! t = Some (SendNext m l) → okstep s (SendMsg_next t m l s).
Proof.
  intros Hty Ht. destruct (ty_thread _ Hty _ _ Ht) as (Ho & ? & ? & Hl). unfold SendMsg_next.
  destruct l as [|q l].
  - eapply (xstar_okstep_unlock t _ (SendRet None None) [] s (free [m] s)); [done..|accounting].
  - apply Forall_cons in Hl as [? ?]. eapply (okstep_goto t _ _ [m]); [done|accounting|done].
Qed.

Lemma hopped_dup σ p m n : hopped σ p m → hopped σ p (dup n m).
Proof. intros (m0 & m1 & z & k & ? & ? & ? & ->). by exists m0, m1, z, n. Qed.

Lemma xstar_okstep_receiver_turn t p m n s :
  wf s → typed s → threads s !! t = Some (Receiver p) → okstep s (receiver_turn t p m n s).
Proof.
  intros Hwf Hty Ht. unfold receiver_turn. simpl.
  set (f := λ σ : socket, σ <| arrived ::= (λ l, l ++ [(p, m, ttl (vars s))]) |>).
  assert (okstep s (set_vars f s)) as Hok.
  { apply xstar_okstep_vars; [|by left|by intros []]. split; simpl; [done|set_solver]. }
  etrans; [exact Hok|].
  destruct (star_receive (ttl (vars s)) m) as [m1|] eqn:Hr.
  - assert (mref m1 = mref m) as Href.
    { revert Hr. unfold star_receive. destruct (mbody m) as [|? [|? [|? [|? ?]]]]; try done.
      case_decide; [|done]. by intros [= <-]. }
    assert (hopped (f (vars s)) p (dup (mref m1) m1)) as Hh.
    { exists m, m1, (ttl (vars s)), (mref m1).
      split_and!; [simpl; set_solver|apply (vt_ttl _ (ty_vars _ Hty))..|done|done]. }
    eapply (okstep_goto t _ (FwdLock p (dup n m1) m1) [m; dup n m1] (set_vars f s)
      (give [dup n m1] (set_vars f (give [m] s)))); [exact Ht| |].
    + split; try reflexivity; [cbn; by rewrite <-app_assoc|].
      intros x. cbn. autorewrite with chan. unfold key, msg_keyed. cbn. rewrite Href. lia.
    + intros _. split; [by apply (hopped_dup _ _ (dup (mref m1) m1))|]. by destruct m1.
  - apply (okstep_account [m]). accounting.
Qed.

Lemma xstar_okstep_receiver_next t p u m l n s :
  typed s → threads s !! t = Some (FwdNext p u m l) → okstep s (receiver_next t p u m l n s).
Proof.
  intros Hty Ht. destruct (ty_thread _ Hty _ _ Ht) as (Ho & Hu & Hm & Hl). unfold receiver_next.
  destruct l as [|q l].
  - eapply (xstar_okstep_unlock t _ (PutSel p u) [] s (free [m] s)); [done..|accounting].
  - apply Forall_cons in Hl as [? ?]. eapply (okstep_goto t _ _ [dup n m]); [done|accounting|].
    intros _. split_and!; try done. by apply hopped_dup.
Qed.

Lemma xstar_okstep_AddPipe p id s :
  wf s → pobjs (vars s) !! p = None → okstep s (AddPipe p id s).
Proof.
  intros Hwf Hp. unfold AddPipe. destruct (make_chan KSignal 0 s) as [cq s1] eqn:E1.
  destruct (okstep_make_chan _ _ _ _ _ Hwf E1) as (Hok1 & Hwf1 & Hcq & Hv1 & _).
  destruct (make_chan (KSend p) _ s1) as [sq s2] eqn:E2.
  destruct (okstep_make_chan _ _ _ _ _ Hwf1 E2) as (Hok2 & Hwf2 & Hsq & Hv2 & _).
  etrans; [exact Hok1|]. etrans; [exact Hok2|].
  set (s3 := set_vars _ s2). assert (okstep s2 s3) as Hok3.
  { apply xstar_okstep_vars; [by apply xstar_vle_same|by left|].
    intros []. split; try done. intros q po. simpl. rewrite lookup_insert. case_decide; [|by eauto].
    intros [= <-]. by subst. }
  etrans; [exact Hok3|]. by apply okstep_go; [apply Hok3|..].
Qed.
Lemma xstar_okstep_AddPipe_locked t p po s :
  wf s → typed s → threads s !! t = Some (AddLock p) → pobjs (vars s) !! p = Some po →
  okstep s (AddPipe_locked t p po s).
Proof.
  intros Hwf Hty Ht Hpo. unfold AddPipe_locked. destruct (closed (vars s)); [by eapply okstep_stop|].
  set (s1 := set_vars _ _). assert (okstep s s1) as Hok1.
  { etrans; [by eapply (okstep_stop t _ (AddRet None))|].
    apply xstar_okstep_vars; [by apply xstar_vle_same|by left|by intros []]. }
  destruct (vt_pipes _ (ty_vars _ Hty) _ _ Hpo) as [? ?].
  etrans; [exact Hok1|]. etrans; [apply (okstep_go (Sender p (p_sendq po) (p_closeq po)));
    [by apply Hok1|done|done]|].
  apply okstep_go; [apply wf_go; by apply Hok1|done|done].
Qed.

Lemma xstar_okstep_SetOption name v s : wf s → okstep s (snd (SetOption name v s)).
Proof.
  intros Hwf. unfold SetOption.
  assert (∀ f : socket → socket, vle (vars s) (f (vars s)) → locked (f (vars s)) = locked (vars s) →
    (vtype (vars s) → vtype (f (vars s))) → okstep s (set_vars f s)) as Hvars.
  { intros f H1 H2 H3. apply xstar_okstep_vars; [done|by left|done]. }
  destruct (String.eqb name _).
  { destruct v; try reflexivity. destruct (_ && _) eqn:Hz; [|reflexivity].
    apply Hvars; [by apply xstar_vle_same|done|]. intros []. split; try done. simpl. lia. }
  destruct (String.eqb name _).
  { destruct v; try reflexivity. by apply Hvars; [apply xstar_vle_same|..|intros []]. }
  destruct (String.eqb name _).
  { destruct v; try reflexivity. destruct (0 <=? z)%Z; [|reflexivity].
    by apply Hvars; [apply xstar_vle_same|..|intros []]. }
  destruct (String.eqb name _); [|reflexivity]. destruct v; try reflexivity.
  destruct (0 <=? z)%Z; [|reflexivity]. destruct (make_chan KRecv (Z.to_nat z) s) as [q s1] eqn:E1.
  destruct (okstep_make_chan _ _ _ _ _ Hwf E1) as (Hok1 & _ & -> & _).
  etrans; [exact Hok1|]. apply xstar_okstep_vars; [by apply xstar_vle_same|by left|]. by intros [].
Qed.

#[export] Instance xstar_ok : ExtOk ext.
Proof.
  intros e s s' Hwf Hty. pose proof (ty_vars _ Hty) as Hvt. destruct e; cbn [ext];
    try match goal with
    | |- context [match threads s !! ?t with _ => _ end] =>
        destruct (threads s !! t) as [[]|] eqn:Ht; try done; pose proof (ty_thread _ Hty _ _ Ht) as Hth
    end.
  - intros [(Hf & _) [= <-]]%guard_bind_Some. by apply xstar_okstep_SendMsg.
  - intros [= <-]. by apply xstar_okstep_SendMsg_next.
  - intros [_ [= <-]]%guard_bind_Some. by apply xstar_okstep_receiver_next.
  - intros [_ [= <-]]%guard_bind_Some. by apply okstep_go.
  - intros Hs. apply bind_Some in Hs as (th & Ht & Hs). apply bind_Some in Hs as (th' & Hs & [= <-]).
    destruct Hvt. destruct th; simplify_eq/=; by eapply okstep_stop.
  - intros [_ [= <-]]%guard_bind_Some. by apply xstar_okstep_receiver_turn.
  - intros [= <-]. by eapply okstep_stop.
  - intros [[Hf _] [= <-]]%guard_bind_Some.
    etrans; [apply (xstar_okstep_vars (λ σ, σ <| locked := Some t |>));
      [by apply xstar_vle_same|by right|by intros []]|].
    eapply okstep_set_thread; [done|count|]. intros _. destruct Hth. split_and!; try done.
    by apply (targets_other (vars s)).
  - intros Hs. apply bind_Some in Hs as (po & Hpo & [= <-]).
    eapply okstep_set_thread; [done|count|]. intros _. destruct Hvt. naive_solver.
  - intros Hs. apply bind_Some in Hs as (po & Hpo & [= <-]). unfold sender_sent.
    destruct e; (eapply (okstep_goto t _ _ []); [done|accounting|]); [done|].
    intros _. destruct Hvt. naive_solver.
  - intros [= <-]. etrans; [apply (xstar_okstep_vars (λ σ, σ <| pclosed ::= (λ x, {[p]} ∪ x) |>));
      [by apply xstar_vle_same|by left|by intros []]|by eapply okstep_stop].
  - intros [= <-]. etrans; [apply okstep_close_chan|].
    eapply okstep_stop; [by rewrite threads_close_chan|done|done].
  - intros [_ [= <-]]%guard_bind_Some. by apply xstar_okstep_SetOption.
  - intros [_ [= <-]]%guard_bind_Some. unfold Close. destruct (closed (vars s)); [reflexivity|].
    assert (okstep s (set_vars (λ σ, σ <| closed := true |>) s)) as Hok
      by (apply xstar_okstep_vars; [by apply xstar_vle_same|by left|by intros []]).
    etrans; [exact Hok|]. apply okstep_go; [by apply Hok|done|]. intros _. apply Hvt.
  - intros [Hp [= <-]]%guard_bind_Some. by apply xstar_okstep_AddPipe.
  - intros Hs. apply bind_Some in Hs as (po & Hpo & [_ [= <-]]%guard_bind_Some).
    by apply xstar_okstep_AddPipe_locked.
  - intros Hs. apply bind_Some in Hs as (po & Hpo & [_ [= <-]]%guard_bind_Some). unfold RemovePipe.
    set (s1 := set_vars _ s). assert (okstep s s1) as Hok
      by (apply xstar_okstep_vars; [by apply xstar_vle_same|by left|by intros []]).
    etrans; [exact Hok|]. etrans; [apply okstep_close_chan|].
    apply okstep_go; [apply wf_close_chan; by apply Hok|done|done].
  - intros Hs. apply bind_Some in Hs as (po & Hpo & [_ [= <-]]%guard_bind_Some).
    etrans; [apply (xstar_okstep_vars (λ σ, σ <| pipes ::= delete (p_id po) |>));
      [by apply xstar_vle_same|by left|by intros []]|by eapply okstep_stop].
Qed.

Lemma reachable_xstar s : reachable step init ok s → good s.
Proof.
  apply reachable_good; [apply _|]. intros ? ->. start_good. split; simpl; try done; set_solver.
Qed.

(** ** Hops *)
Lemma star_receive_Some n m m1 :
  (0 < n < 256)%Z → star_receive n m = Some m1 →
  ∃ h, (0 ≤ h < n)%Z ∧ mbody m = put_uint32 h ++ mbody m1 ∧ mhdr m1 = put_uint32 (h + 1).
Proof.
  intros Hn. unfold star_receive. destruct (mbody m) as [|b0 [|b1 [|b2 [|b3 b]]]]; try done.
  case_decide as Hd; [|done]. destruct Hd as (-> & -> & -> & Hb). intros [= <-]. cbn [mbody mhdr set_field].
  pose proof (Z_of_byte_range b3) as Hr. exists (Z_of_byte b3). split; [lia|].
  rewrite !put_small, byte_of_Z_of_byte by lia. done.
Qed.

(** A message on its way: each socket it comes to, with the TTL it has, makes it
    a message with a header and sends that on. *)
Fixpoint star_chain (ttls : list Z) (b : bytes) : option bytes :=
  match ttls with
  | [] => Some b
  | n :: ttls => m ← star_receive n (unwire 0 b); star_chain ttls (wire m)
  end.
Lemma star_chain_bound n ttls b b' h :
  Forall (λ z, 0 < z ≤ n)%Z ttls → (n < 256)%Z → (0 ≤ h < 256)%Z →
  take 4 b = put_uint32 h → star_chain ttls b = Some b' → (h + Z.of_nat (length ttls) ≤ Z.max n h)%Z.
Proof.
  intros Hall Hn. revert b h. induction Hall as [|z ttls Hz _ IH]; intros b h Hh Hb; simpl; [lia|].
  intros (m & Hm & Hc)%bind_Some. destruct (star_receive_Some z _ _ ltac:(lia) Hm) as (k & Hk & Hbody & Hhdr).
  change (mbody (unwire 0 b)) with b in Hbody. rewrite Hbody, take_app_length' in Hb by done.
  assert (k = h) as ->.
  { apply (f_equal be_decode) in Hb. rewrite !be_decode_encode, !Z.mod_small in Hb by (simpl; lia). done. }
  specialize (IH (wire m) (h + 1)%Z ltac:(lia)). rewrite Nat2Z.inj_succ.
  enough (h + 1 + Z.of_nat (length ttls) ≤ Z.max n (h + 1))%Z by lia.
  apply IH; [|done]. unfold wire. by rewrite Hhdr, take_app_length'.
Qed.

Lemma hopped_hops σ p m :
  hopped σ p m → ∃ m0 n h, (p, m0, n) ∈ arrived σ ∧ (0 ≤ h < n)%Z ∧ (n < 256)%Z ∧
    mbody m0 = put_uint32 h ++ mbody m ∧ mhdr m = put_uint32 (h + 1).
Proof.
  intros (m0 & m1 & n & k & Ha & Hn & Hr & ->).
  destruct (star_receive_Some _ _ _ Hn Hr) as (h & ? & ? & ?). exists m0, n, h.
  split_and!; [done|lia|lia|lia|done..].
Qed.

(** The steps that bring a message, and those that change the TTL. *)
Lemma xstar_ext_ttl e s s' :
  ext e s = Some s' →
  (arrived (vars s') = arrived (vars s) ∨
   ∃ t p m n, e = EPipeRecv t m n ∧ threads s !! t = Some (Receiver p) ∧
     arrived (vars s') = arrived (vars s) ++ [(p, m, ttl (vars s))]) ∧
  (ttl (vars s') = ttl (vars s) ∨ e = ESetOption OptionTTL (VInt (ttl (vars s')))).
Proof.
  intros Hs. split.
  - destruct e; cbn [ext] in Hs; try (destruct (threads s !! t) as [[]|] eqn:Ht; try discriminate Hs);
      unfold_ext Hs; rewrite <-Hs; clear Hs.
    all: unfold SendMsg, SendMsg_next, receiver_turn, receiver_lock, receiver_next, sender_sent,
      pipe_close, SetOption, Close, AddPipe, AddPipe_locked, RemovePipe, RemovePipe_locked; frame_vars.
    all: right; by eexists t, _, m, n.
  - destruct e; cbn [ext] in Hs; unfold_ext Hs; rewrite <-Hs; clear Hs.
    all: unfold SendMsg, SendMsg_next, receiver_turn, receiver_lock, receiver_next, sender_sent,
      pipe_close, Close, AddPipe, AddPipe_locked, RemovePipe, RemovePipe_locked; try (by frame_vars).
    unfold SetOption. destruct (String.eqb_spec name OptionTTL) as [->|]; [|by frame_vars].
    destruct v; try by left. destruct ((0 <? z) && (z <? 256))%Z; [by right|by left].
Qed.
Lemma xstar_step_ttl l s s' :
  step l s = Some s' →
  (arrived (vars s') = arrived (vars s) ∨
   ∃ t p m n, l = LExt (EPipeRecv t m n) ∧ threads s !! t = Some (Receiver p) ∧
     arrived (vars s') = arrived (vars s) ++ [(p, m, ttl (vars s))]) ∧
  (ttl (vars s') = ttl (vars s) ∨ l = LExt (ESetOption OptionTTL (VInt (ttl (vars s'))))).
Proof.
  intros [->|(e & -> & Hs)]%gstep_vars; [by split; left|].
  destruct (xstar_ext_ttl _ _ _ Hs) as [[?|(t & p & m & n & -> & ? & ?)] [?|He]];
    split; eauto 10; right; by rewrite <-He.
Qed.

(** C33. STAR: a message is never sent back to the pipe it arrived on, and its
    hop count stays below the TTL.  What [RecvMsg] returns arrived with a hop
    count [h] below the socket's TTL [n] of that moment and has it as header,
    one higher, which still fits its byte; what goes out on a pipe was submitted
    with a header of four bytes, or arrived on another pipe with such a hop
    count and has the count one higher.  ([arrived] grows only when a pipe
    brings a message, which is recorded with the pipe and the socket's TTL, and
    only [SetOption(OptionTTL)] changes that, to a value from 1 to 255.)
    So however sockets with TTLs up to [n] are connected, in circles too, a
    message passes at most [n] of them. *)
Theorem xstar_hops s (H : reachable step init ok s) :
  (∀ t m, threads s !! t = Some (RecvRet (Ok m)) →
     ∃ p m0 n h, (p, m0, n) ∈ arrived (vars s) ∧ (0 ≤ h < n)%Z ∧ (n < 256)%Z ∧
       mbody m0 = put_uint32 h ++ mbody m ∧ mhdr m = put_uint32 (h + 1)) ∧
  (∀ t p m, threads s !! t = Some (Sending p m) →
     m ∈ submitted (vars s) ∧ length (mhdr m) = 4 ∨
     ∃ p' m0 n h, p' ≠ p ∧ (p', m0, n) ∈ arrived (vars s) ∧ (0 ≤ h < n)%Z ∧ (n < 256)%Z ∧
       mbody m0 = put_uint32 h ++ mbody m ∧ mhdr m = put_uint32 (h + 1)) ∧
  (∀ l s', step l s = Some s' →
     (arrived (vars s') = arrived (vars s) ∨
      ∃ t p m k, l = LExt (EPipeRecv t m k) ∧ threads s !! t = Some (Receiver p) ∧
        arrived (vars s') = arrived (vars s) ++ [(p, m, ttl (vars s))]) ∧
     (ttl (vars s') = ttl (vars s) ∨ l = LExt (ESetOption OptionTTL (VInt (ttl (vars s')))))) ∧
  (0 < ttl (vars s) < 256)%Z ∧
  (∀ n ttls b b', Forall (λ z, 0 < z ≤ n)%Z ttls → (n < 256)%Z → take 4 b = put_uint32 0 →
     star_chain ttls b = Some b' → (Z.of_nat (length ttls) ≤ Z.max n 0)%Z) ∧
  (∀ x, owned x s ≤ kocc x (given s)).
Proof.
  destruct (reachable_xstar s H) as [Hwf Ho [_ Ht Hv]].
  assert (∀ p m, hopped (vars s) p m → _) as Hhop by apply hopped_hops.
  split; [|split; [|split; [intros l s1; apply xstar_step_ttl|split; [apply Hv|split; [|exact Ho]]]]].
  - intros t m Hth. destruct (Ht _ _ Hth) as (p & Hp). destruct (Hhop _ _ Hp) as (m0 & n & h & ?).
    by exists p, m0, n, h.
  - intros t p m Hth. destruct (Ht _ _ Hth) as [?|(p' & Hne & Hp)]; [by left|right].
    destruct (Hhop _ _ Hp) as (m0 & n & h & ?). by exists p', m0, n, h.
  - intros n ttls b b' Hall Hn Hb Hc. pose proof (star_chain_bound n ttls b b' 0 Hall Hn ltac:(lia) Hb Hc). lia.
Qed.

Definition ray (n : nat) : msg := mkMsg [] [Byte.x00; Byte.x00; Byte.x00; Byte.x02; Byte.x61] (Some 7%Z) n.
(** A message arrives on pipe 0, goes out on pipe 1 and to the user. *)
Definition xstar_run : state :=
  play step (λ _ _, true)
    [LExt (EAddPipe 0 7); LExt (EAddLock 4); LExt (EAddPipe 1 9); LExt (EAddLock 9);
     LExt (EPipeRecv 6 (ray 0) 1); LExt (EFwdLock 6 [0; 1]); LExt (ENext 6 2); LCase 6 0 None;
     LExt (ENext 6 3); LExt (EPutSel 6); LCase 6 0 None; LExt ERecv; LExt (ERecvSel 12);
     LCase 12 0 None; LCase 10 1 None] NewProtocol.

Lemma xstar_hops_witness :
  threads xstar_run !! 12 = Some (RecvRet (Ok (mkMsg (put_uint32 3) [Byte.x61] (Some 7%Z) 1))) ∧
  threads xstar_run !! 10 = Some (Sending 1 (mkMsg (put_uint32 3) [Byte.x61] (Some 7%Z) 2)) ∧
  contents xstar_run (KSend 0, 3) = [] ∧
  (∃ p m0 n h, (p, m0, n) ∈ arrived (vars xstar_run) ∧ (0 ≤ h < n)%Z ∧
     mbody m0 = put_uint32 h ++ [Byte.x61]).
Proof.
  assert (reachable step init ok xstar_run) as Hr by (by apply play_reachable; [intros ? []|]).
  assert (threads xstar_run !! 12 = Some (RecvRet (Ok (mkMsg (put_uint32 3) [Byte.x61] (Some 7%Z) 1)))) as Ht
    by by vm_compute.
  split_and!; [done|by vm_compute|by vm_compute|].
  destruct (xstar_hops xstar_run Hr) as (Hrecv & _). destruct (Hrecv _ _ Ht) as (p & m0 & n & h & ? & ? & _ & ? & _).
  by exists p, m0, n, h.
Defined.

(** A [RecvMsg] that waits while the queue is resized waits on the old queue for
    good: messages go to the new one. *)
Definition xstar_deaf : state :=
  play step (λ _ _, true)
    [LExt (EAddPipe 0 7); LExt (EAddLock 4); LExt ERecv; LExt (ERecvSel 7); LDefault 7; LExt (ERecvSel 7);
     LExt (ESetOption OptionReadQLen (VInt 5)); LExt (EPipeRecv 6 (ray 0) 1);
     LExt (EFwdLock 6 [0]); LExt (ENext 6 2); LExt (EPutSel 6); LCase 6 0 None] NewProtocol.
Example xstar_resize_deaf :
  threads xstar_deaf !! 7 = Some (RecvWait (KRecv, 1) (KSignal, 0) false) ∧
  recvq (vars xstar_deaf) = (KRecv, 8) ∧
  contents xstar_deaf (KRecv, 8) = [mkMsg (put_uint32 3) [Byte.x61] (Some 7%Z) 1].
Proof. by vm_compute. Qed.
