(* ===== verification/XSurveyor.v ===== *)
(** * XSurveyor: the raw SURVEYOR protocol

    [src/protocol/xsurveyor/xsurveyor.go], complete, as a program of [Chan].
    [SendMsg] holds the socket's mutex while it offers the message to every
    pipe, so the mutex is a variable ([locked]). *)
From stdpp Require Import gmap list strings fin_maps.
From Stdlib Require Import ZArith Lia.
From S2P Require Import Prelude Types Chan Backtrace.

Abbreviation pid := nat.

(** The channels: those that only get closed, [recvQ], and [sendQ] of a pipe. *)
Inductive kind := KSignal | KRecv | KSend (p : pid).
#[export] Instance kind_eq_dec : EqDecision kind.
Proof. solve_decision. Defined.
#[export] Instance kind_countable : Countable kind.
Proof.
  refine (inj_countable'
    (λ k, match k with KSignal => 0 | KRecv => 1 | KSend p => S (S p) end)
    (λ x, match x with 0 => KSignal | 1 => KRecv | S (S p) => KSend p end) _).
  by intros [].
Defined.
Abbreviation chid := (kind * nat)%type.

Record pipe := mkPipe { p_id : Z; p_closeQ : chid; p_sendQ : chid }.

Record socket := mkSocket {
  closed : bool;
  pipes : gmap Z pid;
  recvQLen : Z;
  sendQLen : Z;
  recvExpire : Z;
  recvQ : chid;
  closeQ : chid;
  sizeQ : chid;
  locked : option thid;      (* who holds the mutex, between steps *)
  pobjs : gmap pid pipe;     (* all pipe objects *)
  removed : gset pid;
  pclosed : gset pid;
  submitted : list msg;
  arrived : list (pid * msg)
}.
#[export] Instance eta_socket : Eta socket := λ s,
  mkSocket (closed s) (pipes s) (recvQLen s) (sendQLen s) (recvExpire s) (recvQ s) (closeQ s)
    (sizeQ s) (locked s) (pobjs s) (removed s) (pclosed s) (submitted s) (arrived s).

Definition defaultQLen : Z := 128.

(** Program points. *)
Inductive thread :=
  | SendNext (m : msg) (l : list chid)           (* SendMsg, the head of its loop *)
  | SendTry (m : msg) (q : chid) (l : list chid)
  | SendRet (e : error) (back : option msg)
  | RecvTop                                      (* RecvMsg, before s.Lock() *)
  | RecvTry (rq zq cq : chid) (tq : bool)
  | RecvWait (rq zq cq : chid) (tq : bool)
  | RecvRet (r : result msg)
  | Receiver (p : pid)                           (* in p.p.RecvMsg() *)
  | RecvLock (p : pid) (m : msg)                 (* receiver, before s.Lock() *)
  | RecvPut (p : pid) (m : msg) (rq zq cq : chid)
  | Sender (p : pid) (q cq : chid)
  | Sending (p : pid) (m : msg)
  | PipeClose (p : pid)
  | AddLock (p : pid)                            (* AddPipe, before s.Lock() *)
  | AddRet (e : error)
  | RemoveLock (p : pid)                         (* RemovePipe, before s.Lock() *)
  | CloseChan (c : chid)
  | Done.

Definition timer (tq : bool) : list (op kind msg) := if tq then [OTime] else [].

Definition sel (th : thread) : list (op kind msg) :=
  match th with
  | SendTry m q l => [OSend q m]
  | RecvTry rq zq cq tq => [ORecv rq]
  | RecvWait rq zq cq tq => [ORecv rq; ORecv cq; ORecv zq] ++ timer tq
  | RecvPut p m rq zq cq => [OSend rq m; ORecv cq; ORecv zq]
  | Sender p q cq => [ORecv cq; ORecv q]
  | _ => []
  end.
Definition dflt (th : thread) : bool :=
  match th with SendTry _ _ _ | RecvTry _ _ _ _ => true | _ => false end.

(** After a case.  [recvQ] and the [sendQ]s are never closed, so a receive from
    them brings a message. *)
Definition res (th : thread) (i : option nat) (v : option msg) : thread * list msg :=
  match th, i with
  | SendTry m q l, Some _ => (SendNext m l, [])
  | SendTry m q l, None => (SendNext m l, [m])
  | RecvTry rq zq cq tq, None => (RecvWait rq zq cq tq, [])
  | RecvTry rq zq cq tq, Some _ =>
      (match v with Some m => RecvRet (Ok m) | None => RecvTop end, [])
  | RecvWait rq zq cq tq, Some 0 =>
      (match v with Some m => RecvRet (Ok m) | None => RecvTop end, [])
  | RecvWait rq zq cq tq, Some 1 => (RecvRet (Err ErrClosed), [])
  | RecvWait rq zq cq tq, Some 2 => (RecvTop, [])
  | RecvWait rq zq cq tq, Some _ => (RecvRet (Err ErrRecvTimeout), [])
  | RecvPut p m rq zq cq, Some 0 => (Receiver p, [])
  | RecvPut p m rq zq cq, Some 1 => (PipeClose p, [m])
  | RecvPut p m rq zq cq, Some _ => (Receiver p, [m])
  | Sender p q cq, Some 0 => (PipeClose p, option_list v)
  | Sender p q cq, Some _ => (match v with Some m => Sending p m | None => PipeClose p end, [])
  | th, _ => (th, [])
  end.

#[export] Instance xsurveyor_program : Program kind msg thread :=
  { select := sel; has_default := dflt; resume := res }.

Abbreviation state := (st kind msg socket thread).

(** ** The critical sections *)

(** The queues of the pipes in the order [order]. *)
Definition targets (σ : socket) (order : list pid) : list chid :=
  omap (λ p, p_sendQ <$> pobjs σ !! p) order.
Definition SendMsg (m : msg) (order : list pid) (s : state) : state :=
  let s := give [m] s in
  if closed (vars s) then go (SendRet (Some ErrClosed) (Some m)) s
  else
    let l := targets (vars s) order in
    let s := set_vars (λ σ, σ <| locked := Some (fresh s) |>
                              <| submitted ::= (λ l, l ++ [m]) |>) s in
    go (SendNext m l) s.
(** ..., one pass of its loop; at the end it releases the mutex. *)
Definition SendMsg_next (t : thid) (m : msg) (l : list chid) (s : state) : state :=
  match l with
  | [] => set_thread t (SendRet None None) (free [m] (set_vars (λ σ, σ <| locked := None |>) s))
  | q :: l => set_thread t (SendTry m q l) (give [m] s)
  end.

(** [RecvMsg], from the top of its loop to the first [select]. *)
Definition RecvMsg_top (s : state) : thread :=
  let σ := vars s in
  RecvTry (recvQ σ) (sizeQ σ) (closeQ σ) (negb (recvExpire σ =? 0)%Z).

(** [OptionReadQLen]: a new queue; what is in the old one is gone. *)
Definition resize (z : Z) (s : state) : state :=
  let '(q, s) := make_chan KRecv (Z.to_nat z) s in
  let '(zq, s) := make_chan KSignal 0 s in
  go (CloseChan (sizeQ (vars s)))
    (set_vars (λ σ, σ <| recvQLen := z |> <| recvQ := q |> <| sizeQ := zq |>) s).

Definition SetOption (name : string) (v : value) (s : state) : error * state :=
  if String.eqb name OptionRecvDeadline then
    match v with
    | VDuration d => (None, set_vars (λ σ, σ <| recvExpire := d |>) s)
    | _ => (Some ErrBadValue, s)
    end
  else if String.eqb name OptionWriteQLen then
    match v with
    | VInt z => if (0 <=? z)%Z then (None, set_vars (λ σ, σ <| sendQLen := z |>) s)
                else (Some ErrBadValue, s)
    | _ => (Some ErrBadValue, s)
    end
  else if String.eqb name OptionReadQLen then
    match v with
    | VInt z => if (0 <=? z)%Z then (None, resize z s) else (Some ErrBadValue, s)
    | _ => (Some ErrBadValue, s)
    end
  else (Some ErrBadOption, s).

Definition GetOption (name : string) (σ : socket) : result value :=
  if String.eqb name OptionRaw then Ok (VBool true)
  else if String.eqb name OptionRecvDeadline then Ok (VDuration (recvExpire σ))
  else if String.eqb name OptionWriteQLen then Ok (VInt (sendQLen σ))
  else if String.eqb name OptionReadQLen then Ok (VInt (recvQLen σ))
  else Err ErrBadOption.

(** [AddPipe], before and after it gets the mutex. *)
Definition AddPipe (p : pid) (id : Z) (s : state) : state :=
  let '(cq, s) := make_chan KSignal 0 s in
  let '(sq, s) := make_chan (KSend p) (Z.to_nat (sendQLen (vars s))) s in
  go (AddLock p) (set_vars (λ σ, σ <| pobjs ::= <[p := mkPipe id cq sq]> |>) s).
Definition AddPipe_locked (t : thid) (p : pid) (po : pipe) (s : state) : state :=
  if closed (vars s) then set_thread t (AddRet (Some ErrClosed)) s
  else
    let s := set_vars (λ σ, σ <| pipes ::= <[p_id po := p]> |>) (set_thread t (AddRet None) s) in
    go (Receiver p) (go (Sender p (p_sendQ po) (p_closeQ po)) s).

(** [RemovePipe], before and after it gets the mutex. *)
Definition RemovePipe (p : pid) (po : pipe) (s : state) : state :=
  go (RemoveLock p)
    (close_chan (p_closeQ po) (set_vars (λ σ, σ <| removed ::= (λ x, {[p]} ∪ x) |>) s)).
Definition RemovePipe_locked (t : thid) (po : pipe) (s : state) : state :=
  set_thread t Done (set_vars (λ σ, σ <| pipes ::= delete (p_id po) |>) s).

Definition OpenContext : error := Some ErrProtoOp.
Definition Info : ProtocolInfo := mkInfo ProtoSurveyor ProtoRespondent "surveyor" "respondent".

Definition Close (s : state) : error * state :=
  if closed (vars s) then (Some ErrClosed, s)
  else (None, go (CloseChan (closeQ (vars s))) (set_vars (λ σ, σ <| closed := true |>) s)).

(** [sender], when [p.p.SendMsg(m)] has returned. *)
Definition sender_sent (t : thid) (p : pid) (po : pipe) (m : msg) (e : error) (s : state) : state :=
  match e with
  | Some _ => set_thread t (PipeClose p) (free [m] s)
  | None => set_thread t (Sender p (p_sendQ po) (p_closeQ po)) (pass [m] s)
  end.
(** [receiver]: the first four bytes become the header; what is shorter is
    dropped. *)
Definition split4 (m : msg) : option msg :=
  if decide (length (mbody m) < 4) then None
  else Some (m <| mhdr := take 4 (mbody m) |> <| mbody := drop 4 (mbody m) |>).
Definition receiver_turn (t : thid) (p : pid) (m : msg) (s : state) : state :=
  let s := set_vars (λ σ, σ <| arrived ::= (λ l, l ++ [(p, m)]) |>) (give [m] s) in
  match split4 m with
  | None => free [m] s
  | Some m => set_thread t (RecvLock p m) s
  end.
Definition receiver_lock (p : pid) (po : pipe) (m : msg) (s : state) : thread :=
  RecvPut p m (recvQ (vars s)) (sizeQ (vars s)) (p_closeQ po).
Definition pipe_close (t : thid) (p : pid) (s : state) : state :=
  set_thread t Done (set_vars (λ σ, σ <| pclosed ::= (λ x, {[p]} ∪ x) |>) s).

Definition NewProtocol : state :=
  mkSt (mkSocket false ∅ defaultQLen defaultQLen 0 (KRecv, 2) (KSignal, 0) (KSignal, 1) None ∅ ∅ ∅ [] [])
    {[ (KSignal, 0) := mkChan [] 0 false [] []; (KSignal, 1) := mkChan [] 0 false [] [];
       (KRecv, 2) := mkChan [] (Z.to_nat defaultQLen) false [] [] ]} ∅ 3 [] [] [] false.

(** ** The program *)
Inductive event :=
  | ESend (m : msg) (order : list pid)
  | ENext (t : thid)
  | ERecv
  | ERecvTop (t : thid)
  | EPipeRecv (t : thid) (m : msg)
  | EPipeRecvNil (t : thid)
  | ERecvLock (t : thid)
  | EPipeSent (t : thid) (e : error)
  | EPipeClose (t : thid)
  | ECloseChan (t : thid)
  | ESetOption (name : string) (v : value)
  | EClose
  | EAddPipe (p : pid) (id : Z)
  | EAddLock (t : thid)
  | ERemovePipe (p : pid)
  | ERemoveLock (t : thid).

Definition free_lock (s : state) : Prop := locked (vars s) = None.

(** New messages and pipe objects have identities of their own; the pipes are
    ranged over in any order; the core removes a pipe once. *)
Definition ext (e : event) (s : state) : option state :=
  match e with
  | ESend m order =>
      guard (free_lock s ∧ mref m ∉ mref <$> given s ∧ NoDup order ∧
             list_to_set order = (map_img (pipes (vars s)) : gset pid));;
      Some (SendMsg m order s)
  | ENext t =>
      match threads s !! t with
      | Some (SendNext m l) => Some (SendMsg_next t m l s)
      | _ => None
      end
  | ERecv => Some (go RecvTop s)
  | ERecvTop t =>
      match threads s !! t with
      | Some RecvTop => guard (free_lock s);; Some (set_thread t (RecvMsg_top s) s)
      | _ => None
      end
  | EPipeRecv t m =>
      match threads s !! t with
      | Some (Receiver p) =>
          guard (mref m ∉ mref <$> given s);; Some (receiver_turn t p m s)
      | _ => None
      end
  | EPipeRecvNil t =>
      match threads s !! t with
      | Some (Receiver p) => Some (set_thread t (PipeClose p) s)
      | _ => None
      end
  | ERecvLock t =>
      match threads s !! t with
      | Some (RecvLock p m) =>
          po ← pobjs (vars s) !! p;
          guard (free_lock s);; Some (set_thread t (receiver_lock p po m s) s)
      | _ => None
      end
  | EPipeSent t e =>
      match threads s !! t with
      | Some (Sending p m) => po ← pobjs (vars s) !! p; Some (sender_sent t p po m e s)
      | _ => None
      end
  | EPipeClose t =>
      match threads s !! t with
      | Some (PipeClose p) => Some (pipe_close t p s)
      | _ => None
      end
  | ECloseChan t =>
      match threads s !! t with
      | Some (CloseChan c) => Some (set_thread t Done (close_chan c s))
      | _ => None
      end
  | ESetOption name v => guard (free_lock s);; Some (snd (SetOption name v s))
  | EClose => guard (free_lock s);; Some (snd (Close s))
  | EAddPipe p id => guard (pobjs (vars s) !! p = None);; Some (AddPipe p id s)
  | EAddLock t =>
      match threads s !! t with
      | Some (AddLock p) =>
          po ← pobjs (vars s) !! p; guard (free_lock s);; Some (AddPipe_locked t p po s)
      | _ => None
      end
  | ERemovePipe p =>
      po ← pobjs (vars s) !! p; guard (p ∉ removed (vars s));; Some (RemovePipe p po s)
  | ERemoveLock t =>
      match threads s !! t with
      | Some (RemoveLock p) =>
          po ← pobjs (vars s) !! p; guard (free_lock s);; Some (RemovePipe_locked t po s)
      | _ => None
      end
  end.

Definition init (s : state) : Prop := s = NewProtocol.
Definition step : label event → state → option state := gstep ext.
Definition ok : state → label event → Prop := gok (λ _ _, True).

(** ** Ownership *)
Definition holding (th : thread) : list msg :=
  match th with
  | SendNext m _ | SendRet _ (Some m) | Sending _ m | RecvRet (Ok m) | RecvLock _ m
  | RecvPut _ m _ _ _ => [m]
  | SendTry m _ _ => [m; m]
  | _ => []
  end.

#[export] Instance xsurveyor_owns : Owns (K := kind) (A := msg) (T := thread).
Proof.
  refine {| holds := holding |}.
  - intros th i o v y Hsel Hv.
    destruct th; cbn in Hsel; try destruct tq; cbn in Hsel; select_cases Hsel; cbn in *; subst;
      try (destruct v as [m'|]); owns_lia.
  - intros th y Hd. destruct th; try done; owns_lia.
Defined.

(** ** What the channels carry *)

(** A message that came in on pipe [p]. *)
Definition came_on (σ : socket) (p : pid) (m : msg) : Prop :=
  ∃ m0, (p, m0) ∈ arrived σ ∧ split4 m0 = Some m.
Definition ctype (σ : socket) (c : chid) (m : msg) : Prop :=
  match c.1 with
  | KSignal => False
  | KRecv => ∃ p, came_on σ p m
  | KSend p => m ∈ submitted σ
  end.
Definition send_queue (q : chid) : Prop := ∃ p, q.1 = KSend p.
Definition owner (σ : socket) (t : thid) : Prop := locked σ = Some t.

Definition ttype (σ : socket) (t : thid) (th : thread) : Prop :=
  match th with
  | SendNext m l => owner σ t ∧ m ∈ submitted σ ∧ Forall send_queue l
  | SendTry m q l => owner σ t ∧ m ∈ submitted σ ∧ send_queue q ∧ Forall send_queue l
  | RecvTry rq zq cq _ | RecvWait rq zq cq _ => rq.1 = KRecv ∧ zq.1 = KSignal ∧ cq.1 = KSignal
  | RecvRet (Ok m) => ∃ p, came_on σ p m
  | RecvLock p m => came_on σ p m
  | RecvPut p m rq zq cq => came_on σ p m ∧ rq.1 = KRecv ∧ zq.1 = KSignal ∧ cq.1 = KSignal
  | Sender p q cq => q.1 = KSend p ∧ cq.1 = KSignal
  | Sending p m => m ∈ submitted σ
  | CloseChan c => c.1 = KSignal
  | _ => True
  end.

Record vtype (σ : socket) : Prop := {
  vt_recvQ : (recvQ σ).1 = KRecv;
  vt_closeQ : (closeQ σ).1 = KSignal;
  vt_sizeQ : (sizeQ σ).1 = KSignal;
  vt_pipes p po : pobjs σ !! p = Some po → (p_closeQ po).1 = KSignal ∧ (p_sendQ po).1 = KSend p
}.

Lemma xsurveyor_send_queue σ q m : m ∈ submitted σ → send_queue q → ctype σ q m.
Proof. intros Hm (p & Hq). unfold ctype. by rewrite Hq. Qed.

#[export] Instance xsurveyor_typed : Typed (K := kind) (A := msg) (S := socket) (T := thread).
Proof.
  refine {| vars_type := vtype; chan_type := ctype; thread_type := ttype |}.
  - intros σ t th i o v Hsel Hth Hv.
    destruct th; cbn in Hsel; try destruct tq; cbn in Hsel; select_cases Hsel; cbn in Hth;
      try (destruct v as [m'|]); cbn; try done; destruct_and? Hth;
      try (split; [|done]; eauto using xsurveyor_send_queue);
      unfold ctype in *; repeat match goal with
      | H : ?x.1 = _, Hv : context [match ?x.1 with _ => _ end] |- _ => rewrite H in Hv
      | H : ?x.1 = _ |- context [match ?x.1 with _ => _ end] => rewrite H
      end; try done; naive_solver.
  - intros σ t th Hd Hth. destruct th; try done; cbn in *; naive_solver.
Defined.

(** The variables grow. *)
Record vle (σ σ' : socket) : Prop := {
  vle_submitted m : m ∈ submitted σ → m ∈ submitted σ';
  vle_arrived x : x ∈ arrived σ → x ∈ arrived σ'
}.
Lemma xsurveyor_came_on_mono σ σ' p m : vle σ σ' → came_on σ p m → came_on σ' p m.
Proof. intros []. unfold came_on. naive_solver. Qed.

Definition critical (th : thread) : bool :=
  match th with SendNext _ _ | SendTry _ _ _ => true | _ => false end.
Lemma xsurveyor_critical_owner σ t th : critical th = true → ttype σ t th → owner σ t.
Proof. destruct th; try done; intros _ Hth; apply Hth. Qed.

Lemma xsurveyor_ttype_mono σ σ' t th :
  vle σ σ' → (critical th = true → owner σ' t) → ttype σ t th → ttype σ' t th.
Proof.
  intros Hle Ho. assert (∀ p m, came_on σ p m → came_on σ' p m) as H2
    by eauto using xsurveyor_came_on_mono. destruct Hle.
  destruct th as [| | | | | |[]| | | | | | | | | | |]; try done; simpl in *; naive_solver.
Qed.
Lemma xsurveyor_okstep_vars f s :
  vle (vars s) (f (vars s)) → (locked (f (vars s)) = locked (vars s) ∨ locked (vars s) = None) →
  (vtype (vars s) → vtype (f (vars s))) → okstep s (set_vars f s).
Proof.
  intros Hle Hl Hv. apply okstep_vars; [done| |].
  - intros [k n] m _. unfold chan_type. simpl. unfold ctype. simpl.
    destruct k; [done|intros [q Hq]; exists q; by eapply xsurveyor_came_on_mono|apply Hle].
  - intros t th _ _ Hth. eapply xsurveyor_ttype_mono; [done| |exact Hth]. intros Hcr.
    pose proof (xsurveyor_critical_owner _ _ _ Hcr Hth). unfold owner in *. naive_solver congruence.
Qed.
Lemma xsurveyor_vle_same σ σ' : submitted σ' = submitted σ → arrived σ' = arrived σ → vle σ σ'.
Proof. intros H1 H2. split; by rewrite ?H1, ?H2. Qed.

(** The holder of the mutex releases it. *)
Definition unlock (σ : socket) : socket := σ <| locked := None |>.
Lemma xsurveyor_okstep_unlock t th th' l s s1 :
  typed s → threads s !! t = Some th → critical th = true → critical th' = false →
  ttype (vars s) t th' → accounts l (holds th') (holds th) s s1 →
  okstep s (set_vars unlock (set_thread t th' s1)).
Proof.
  intros Hty Ht Hc Hc' Hth' Hac. etrans; [by eapply (okstep_goto t th th' l)|].
  pose proof (xsurveyor_critical_owner _ _ _ Hc (ty_thread _ Hty _ _ Ht)) as Ho.
  destruct Hac as [Hths _ Hv _ _ _].
  apply okstep_vars; [by intros []|done|]. simpl. rewrite Hths, Hv. intros k x _ Hk Hx.
  apply (xsurveyor_ttype_mono (vars s)); [by apply xsurveyor_vle_same| |exact Hx]. intros Hcr.
  pose proof (xsurveyor_critical_owner _ _ _ Hcr Hx) as Ho'. unfold owner in *.
  rewrite lookup_insert in Hk. case_decide; [|congruence]. injection Hk as <-. congruence.
Qed.

(** ** The critical sections keep everything *)
Lemma xsurveyor_targets (σ : socket) order : vtype σ → Forall send_queue (targets σ order).
Proof.
  intros Hv. apply Forall_forall. intros q. unfold targets. rewrite list_elem_of_omap.
  intros (p & _ & (po & Hpo & ->)%fmap_Some). exists p. by destruct (vt_pipes _ Hv _ _ Hpo).
Qed.

Lemma xsurveyor_okstep_SendMsg m order s : wf s → free_lock s → okstep s (SendMsg m order s).
Proof.
  intros Hwf Hf. unfold SendMsg. simpl. destruct (closed (vars s)).
  { apply (okstep_spawn _ [m] s); [done|accounting|done]. }
  set (f := λ σ : socket, σ <| locked := Some (fresh s) |> <| submitted ::= (λ l, l ++ [m]) |>).
  assert (okstep s (set_vars f s)) as Hok.
  { apply xsurveyor_okstep_vars; [|by right|by intros []]. split; simpl; [set_solver|done]. }
  etrans; [exact Hok|]. apply (okstep_spawn (SendNext m (targets (vars s) order)) [m]
    (set_vars f s) (set_vars f (give [m] s))); [by apply Hok|accounting|].
  intros Hty. split_and!; [done|simpl; set_solver|].
  apply (xsurveyor_targets (f (vars s)) order), (ty_vars _ Hty).
Qed.

Lemma xsurveyor_okstep_SendMsg_next t m l s :
  typed s → threads s !! t = Some (SendNext m l) → okstep s (SendMsg_next t m l s).
Proof.
  intros Hty Ht. destruct (ty_thread _ Hty _ _ Ht) as (Ho & ? & Hl). unfold SendMsg_next.
  destruct l as [|q l].
  - eapply (xsurveyor_okstep_unlock t _ (SendRet None None) [] s (free [m] s)); [done..|accounting].
  - apply Forall_cons in Hl as [? ?]. eapply (okstep_goto t _ _ [m]); [done|accounting|done].
Qed.

Lemma xsurveyor_okstep_receiver_turn t p m s :
  wf s → threads s !! t = Some (Receiver p) → okstep s (receiver_turn t p m s).
Proof.
  intros Hwf Ht. unfold receiver_turn. simpl.
  set (f := λ σ : socket, σ <| arrived ::= (λ l, l ++ [(p, m)]) |>).
  assert (okstep s (set_vars f s)) as Hok.
  { apply xsurveyor_okstep_vars; [|by left|by intros []]. split; simpl; [done|set_solver]. }
  etrans; [exact Hok|]. destruct (split4 m) as [m1|] eqn:Hr; [|apply (okstep_account [m]); accounting].
  assert (mref m1 = mref m) as Href.
  { revert Hr. unfold split4. case_decide; [done|]. by intros [= <-]. }
  eapply (okstep_goto t _ (RecvLock p m1) [m] (set_vars f s) (set_vars f (give [m] s))); [exact Ht| |].
  - split; try reflexivity.
    intros x. cbn. autorewrite with chan. unfold key, msg_keyed. cbn. rewrite Href. lia.
  - intros _. exists m. split; [simpl; set_solver|done].
Qed.

Lemma xsurveyor_okstep_resize z s : wf s → typed s → okstep s (resize z s).
Proof.
  intros Hwf Hty. destruct (ty_vars _ Hty) as [V1 V2 V3 V4]. unfold resize.
  destruct (make_chan KRecv (Z.to_nat z) s) as [q s1] eqn:E1.
  destruct (okstep_make_chan _ _ _ _ _ Hwf E1) as (Hok1 & Hwf1 & Hq & Hv1 & Ht1).
  destruct (make_chan KSignal 0 s1) as [zq s2] eqn:E2.
  destruct (okstep_make_chan _ _ _ _ _ Hwf1 E2) as (Hok2 & Hwf2 & Hzq & Hv2 & Ht2).
  etrans; [exact Hok1|]. etrans; [exact Hok2|].
  set (f := λ σ : socket, σ <| recvQLen := z |> <| recvQ := q |> <| sizeQ := zq |>).
  assert (okstep s2 (set_vars f s2)) as Hok3.
  { apply xsurveyor_okstep_vars; [by apply xsurveyor_vle_same|by left|]. intros []. by split; subst. }
  etrans; [exact Hok3|]. apply okstep_go; [by apply Hok3|done|]. intros _. simpl. by rewrite Hv2, Hv1.
Qed.

Lemma xsurveyor_okstep_AddPipe p id s :
  wf s → pobjs (vars s) !! p = None → okstep s (AddPipe p id s).
Proof.
  intros Hwf Hp. unfold AddPipe. destruct (make_chan KSignal 0 s) as [cq s1] eqn:E1.
  destruct (okstep_make_chan _ _ _ _ _ Hwf E1) as (Hok1 & Hwf1 & Hcq & Hv1 & _).
  destruct (make_chan (KSend p) _ s1) as [sq s2] eqn:E2.
  destruct (okstep_make_chan _ _ _ _ _ Hwf1 E2) as (Hok2 & Hwf2 & Hsq & Hv2 & _).
  etrans; [exact Hok1|]. etrans; [exact Hok2|].
  set (s3 := set_vars _ s2). assert (okstep s2 s3) as Hok3.
  { apply xsurveyor_okstep_vars; [by apply xsurveyor_vle_same|by left|].
    intros []. split; try done. intros q po. simpl. rewrite lookup_insert. case_decide; [|by eauto].
    intros [= <-]. by subst. }
  etrans; [exact Hok3|]. by apply okstep_go; [apply Hok3|..].
Qed.
Lemma xsurveyor_okstep_AddPipe_locked t p po s :
  wf s → typed s → threads s !! t = Some (AddLock p) → pobjs (vars s) !! p = Some po →
  okstep s (AddPipe_locked t p po s).
Proof.
  intros Hwf Hty Ht Hpo. unfold AddPipe_locked. destruct (closed (vars s)); [by eapply okstep_stop|].
  set (s1 := set_vars _ _). assert (okstep s s1) as Hok1.
  { etrans; [by eapply (okstep_stop t _ (AddRet None))|].
    apply xsurveyor_okstep_vars; [by apply xsurveyor_vle_same|by left|by intros []]. }
  destruct (vt_pipes _ (ty_vars _ Hty) _ _ Hpo) as [? ?].
  etrans; [exact Hok1|]. etrans; [apply (okstep_go (Sender p (p_sendQ po) (p_closeQ po)));
    [by apply Hok1|done|done]|].
  apply okstep_go; [apply wf_go; by apply Hok1|done|done].
Qed.

#[export] Instance xsurveyor_ok : ExtOk ext.
Proof.
  intros e s s' Hwf Hty. pose proof (ty_vars _ Hty) as Hvt. destruct e; cbn [ext];
    try match goal with
    | |- context [match threads s !! ?t with _ => _ end] =>
        destruct (threads s !! t) as [[]|] eqn:Ht; try done; pose proof (ty_thread _ Hty _ _ Ht) as Hth
    end.
  - intros [(Hf & _) [= <-]]%guard_bind_Some. by apply xsurveyor_okstep_SendMsg.
  - intros [= <-]. by apply xsurveyor_okstep_SendMsg_next.
  - intros [= <-]. by apply okstep_go.
  - intros [_ [= <-]]%guard_bind_Some. eapply okstep_stop; [done|done|]. by destruct Hvt.
  - intros [_ [= <-]]%guard_bind_Some. by apply xsurveyor_okstep_receiver_turn.
  - intros [= <-]. by eapply okstep_stop.
  - intros Hs. apply bind_Some in Hs as (po & Hpo & [_ [= <-]]%guard_bind_Some).
    eapply okstep_set_thread; [done|count|]. intros _. destruct Hvt. naive_solver.
  - intros Hs. apply bind_Some in Hs as (po & Hpo & [= <-]). unfold sender_sent.
    destruct e; (eapply (okstep_goto t _ _ []); [done|accounting|]); [done|].
    intros _. destruct Hvt. naive_solver.
  - intros [= <-]. etrans; [apply (xsurveyor_okstep_vars (λ σ, σ <| pclosed ::= (λ x, {[p]} ∪ x) |>));
      [by apply xsurveyor_vle_same|by left|by intros []]|by eapply okstep_stop].
  - intros [= <-]. etrans; [apply okstep_close_chan|].
    eapply okstep_stop; [by rewrite threads_close_chan|done|done].
  - intros [_ [= <-]]%guard_bind_Some. unfold SetOption.
    assert (∀ f : socket → socket, vle (vars s) (f (vars s)) → locked (f (vars s)) = locked (vars s) →
      (vtype (vars s) → vtype (f (vars s))) → okstep s (set_vars f s)) as Hvars.
    { intros f H1 H2 H3. apply xsurveyor_okstep_vars; [done|by left|done]. }
    destruct (String.eqb name _).
    { destruct v; try reflexivity. by apply Hvars; [apply xsurveyor_vle_same|..|intros []]. }
    destruct (String.eqb name _).
    { destruct v; try reflexivity. destruct (0 <=? z)%Z; [|reflexivity].
      by apply Hvars; [apply xsurveyor_vle_same|..|intros []]. }
    destruct (String.eqb name _); [|reflexivity]. destruct v; try reflexivity.
    destruct (0 <=? z)%Z; [|reflexivity]. by apply xsurveyor_okstep_resize.
  - intros [_ [= <-]]%guard_bind_Some. unfold Close. destruct (closed (vars s)); [reflexivity|].
    assert (okstep s (set_vars (λ σ, σ <| closed := true |>) s)) as Hok
      by (apply xsurveyor_okstep_vars; [by apply xsurveyor_vle_same|by left|by intros []]).
    etrans; [exact Hok|]. apply okstep_go; [by apply Hok|done|]. intros _. apply Hvt.
  - intros [Hp [= <-]]%guard_bind_Some. by apply xsurveyor_okstep_AddPipe.
  - intros Hs. apply bind_Some in Hs as (po & Hpo & [_ [= <-]]%guard_bind_Some).
    by apply xsurveyor_okstep_AddPipe_locked.
  - intros Hs. apply bind_Some in Hs as (po & Hpo & [_ [= <-]]%guard_bind_Some). unfold RemovePipe.
    set (s1 := set_vars _ s). assert (okstep s s1) as Hok
      by (apply xsurveyor_okstep_vars; [by apply xsurveyor_vle_same|by left|by intros []]).
    etrans; [exact Hok|]. etrans; [apply okstep_close_chan|].
    apply okstep_go; [apply wf_close_chan; by apply Hok|done|done].
  - intros Hs. apply bind_Some in Hs as (po & Hpo & [_ [= <-]]%guard_bind_Some).
    etrans; [apply (xsurveyor_okstep_vars (λ σ, σ <| pipes ::= delete (p_id po) |>));
      [by apply xsurveyor_vle_same|by left|by intros []]|by eapply okstep_stop].
Qed.

Lemma reachable_xsurveyor s : reachable step init ok s → good s.
Proof.
  apply reachable_good; [apply _|]. intros ? ->. start_good. split; simpl; try done; set_solver.
Qed.

(** A raw SURVEYOR relays: what [RecvMsg] returns is a message that arrived,
    cut after its fourth byte into header and body; what goes out on a pipe is a
    message that was submitted, unchanged; a pipe's queue takes its messages in
    order, and references to messages are respected: every one that is held,
    queued, freed or passed on was given or made by [Clone]. *)
Theorem xsurveyor_relays s (H : reachable step init ok s) :
  (∀ t m, threads s !! t = Some (RecvRet (Ok m)) →
     length (mhdr m) = 4 ∧ ∃ p m0, (p, m0) ∈ arrived (vars s) ∧ mbody m0 = mhdr m ++ mbody m) ∧
  (∀ t p m, threads s !! t = Some (Sending p m) → m ∈ submitted (vars s)) ∧
  (∀ c ch, chans s !! c = Some ch → ins ch = outs ch ++ buf ch ∧ length (buf ch) ≤ cap ch) ∧
  (∀ x, owned x s ≤ kocc x (given s)).
Proof.
  destruct (reachable_xsurveyor s H) as [Hwf Ho [_ Ht Hv]].
  split_and!; [|intros ? ? ? Hth; exact (Ht _ _ Hth)|apply Hwf|exact Ho].
  intros t m Hth. destruct (Ht _ _ Hth) as (p & m0 & Ha & Hs). revert Hs. unfold split4.
  case_decide as Hl; [done|]. intros [= <-]. simpl. rewrite length_take. split; [lia|].
  exists p, m0. by rewrite take_drop.
Qed.

Definition answer (n : nat) : msg :=
  mkMsg [] [Byte.x80; Byte.x00; Byte.x00; Byte.x05; Byte.x61] (Some 7%Z) n.
(** A survey goes out on pipe 0, and its answer is received. *)
Definition xsurveyor_run : state :=
  play step (λ _ _, true)
    [LExt (EAddPipe 0 7); LExt (EAddLock 5);
     LExt (ESend (mkMsg [Byte.x80; Byte.x00; Byte.x00; Byte.x05] [Byte.x71] None 0) [0]);
     LExt (ENext 8); LCase 8 0 None; LExt (ENext 8); LCase 6 1 None;
     LExt (EPipeRecv 7 (answer 1)); LExt (ERecvLock 7); LCase 7 0 None; LExt ERecv; LExt (ERecvTop 9);
     LCase 9 0 None] NewProtocol.

Lemma xsurveyor_relays_witness :
  threads xsurveyor_run !! 6 =
    Some (Sending 0 (mkMsg [Byte.x80; Byte.x00; Byte.x00; Byte.x05] [Byte.x71] None 0)) ∧
  ∃ p m0, (p, m0) ∈ arrived (vars xsurveyor_run) ∧
    mbody m0 = [Byte.x80; Byte.x00; Byte.x00; Byte.x05] ++ [Byte.x61].
Proof.
  assert (reachable step init ok xsurveyor_run) as Hr by (by apply play_reachable; [intros ? []|]).
  assert (threads xsurveyor_run !! 9 =
    Some (RecvRet (Ok (mkMsg [Byte.x80; Byte.x00; Byte.x00; Byte.x05] [Byte.x61] (Some 7%Z) 1)))) as Ht
    by by vm_compute.
  split; [by vm_compute|]. apply (xsurveyor_relays xsurveyor_run Hr) in Ht as [_ Ht]. exact Ht.
Defined.
