(* ===== verification/XRespondent.v ===== *)
(** * XRespondent: the raw RESPONDENT protocol

    [src/protocol/xrespondent/xrespondent.go], complete, as a program of
    [Chan]: the calls of the application, and two goroutines per pipe.
    [submitted] and [arrived] record what the application sent and what the
    pipes brought. *)
From stdpp Require Import gmap list strings fin_maps.
From Stdlib Require Import ZArith Lia.
From S2P Require Import Prelude Types Chan Backtrace.

(** The channels: those that only get closed, [recvQ], and the [sendQ] of the
    pipe with ID [id]. *)
Inductive kind := KSignal | KRecv | KSend (id : Z).
#[export] Instance kind_eq_dec : EqDecision kind.
Proof. solve_decision. Defined.
#[export] Instance kind_countable : Countable kind.
Proof.
  refine (inj_countable'
    (λ k, match k with KSignal => inl false | KRecv => inl true | KSend id => inr id end)
    (λ x, match x with inl false => KSignal | inl true => KRecv | inr id => KSend id end) _).
  by intros [].
Defined.
Abbreviation chid := (kind * nat)%type.

Abbreviation pid := nat.
Record pipe := mkPipe { p_id : Z; p_closeQ : chid; p_sendQ : chid }.
#[export] Instance eta_pipe : Eta pipe := λ p, mkPipe (p_id p) (p_closeQ p) (p_sendQ p).

Record socket := mkSocket {
  closed : bool;
  closeQ : chid;
  sizeQ : chid;
  recvQ : chid;
  pipes : gmap Z pid;
  recvExpire : Z;
  sendExpire : Z;
  sendQLen : Z;
  recvQLen : Z;
  bestEffort : bool;
  ttl : Z;
  pobjs : gmap pid pipe;
  removed : gset pid;
  pclosed : gset pid;
  submitted : list msg;
  arrived : list (Z * msg)
}.
#[export] Instance eta_socket : Eta socket := λ s,
  mkSocket (closed s) (closeQ s) (sizeQ s) (recvQ s) (pipes s) (recvExpire s) (sendExpire s)
    (sendQLen s) (recvQLen s) (bestEffort s) (ttl s) (pobjs s) (removed s) (pclosed s)
    (submitted s) (arrived s).

Definition defaultQLen : Z := 128.

(** Program points.  [tq]: a timer channel is part of the [select]. *)
Inductive thread :=
  | SendTry (q cq : chid) (m : msg) (hdr : bytes) (tq be : bool)
  | SendWait (q cq : chid) (m : msg) (hdr : bytes) (tq be : bool)
  | SendRet (e : error) (back : option msg)   (* SendMsg returned; the caller keeps [back] *)
  | RecvTop                                   (* RecvMsg, before s.Lock() *)
  | RecvAgain (cq : chid) (tq : bool)         (* ... before the s.Lock() in its loop *)
  | RecvTry (rq zq cq : chid) (tq : bool)
  | RecvWait (rq zq cq : chid) (tq : bool)
  | RecvRet (r : result msg)
  | Receiver (p : pid)                        (* in p.p.RecvMsg() *)
  | RecvLock (p : pid) (m : msg)              (* receiver, before its last s.Lock() *)
  | RecvPut (p : pid) (m : msg) (rq zq cq : chid)
  | Sender (p : pid) (q cq : chid)            (* at the select of sender *)
  | Sending (p : pid) (m : msg)               (* in p.p.SendMsg(m) *)
  | PipeClose (p : pid)                       (* about to call p.p.Close() *)
  | CloseChan (c : chid)                      (* about to close a channel *)
  | AddLock (p : pid)                         (* AddPipe, before s.Lock() *)
  | AddRet (e : error)
  | RemoveEnd (p : pid)                       (* RemovePipe, before s.Lock() *)
  | Done.

Definition timer (tq : bool) : list (op kind msg) := if tq then [OTime] else [].

Definition sel (th : thread) : list (op kind msg) :=
  match th with
  | SendTry q cq m hdr tq be => [OSend q m]
  | SendWait q cq m hdr tq be => [OSend q m; ORecv cq] ++ timer tq
  | RecvTry rq zq cq tq => [ORecv rq]
  | RecvWait rq zq cq tq => [ORecv cq; ORecv rq; ORecv zq] ++ timer tq
  | RecvPut p m rq zq cq => [OSend rq m; ORecv zq; ORecv cq]
  | Sender p q cq => [ORecv q; ORecv cq]
  | _ => []
  end.
Definition dflt (th : thread) : bool :=
  match th with SendTry _ _ _ _ _ _ | RecvTry _ _ _ _ => true | _ => false end.

(** After a case.  [recvQ] and [sendQ] are never closed, so a receive from
    them brings a message. *)
Definition res (th : thread) (i : option nat) (v : option msg) : thread * list msg :=
  match th, i with
  | SendTry q cq m hdr tq be, None => (SendWait q cq m hdr tq be, [])
  | SendTry q cq m hdr tq be, Some _ => (SendRet None None, [])
  | SendWait q cq m hdr tq be, Some 0 => (SendRet None None, [])
  | SendWait q cq m hdr tq be, Some 1 => (SendRet None None, [m])
  | SendWait q cq m hdr tq be, Some _ =>
      if be then (SendRet None None, [m])
      else (SendRet (Some ErrSendTimeout) (Some (m <| mhdr := hdr |>)), [])
  | RecvTry rq zq cq tq, None => (RecvWait rq zq cq tq, [])
  | RecvTry rq zq cq tq, Some _ =>
      (match v with Some m => RecvRet (Ok m) | None => RecvAgain cq tq end, [])
  | RecvWait rq zq cq tq, Some 0 => (RecvRet (Err ErrClosed), [])
  | RecvWait rq zq cq tq, Some 1 =>
      (match v with Some m => RecvRet (Ok m) | None => RecvAgain cq tq end, [])
  | RecvWait rq zq cq tq, Some 2 => (RecvAgain cq tq, [])
  | RecvWait rq zq cq tq, Some _ => (RecvRet (Err ErrRecvTimeout), [])
  | RecvPut p m rq zq cq, Some 0 => (Receiver p, [])
  | RecvPut p m rq zq cq, Some 1 => (Receiver p, [])     (* continue, without m.Free() *)
  | RecvPut p m rq zq cq, Some _ => (PipeClose p, [m])
  | Sender p q cq, Some 0 => (match v with Some m => Sending p m | None => PipeClose p end, [])
  | Sender p q cq, Some _ => (PipeClose p, [])
  | th, _ => (th, [])
  end.

#[export] Instance xrespondent_program : Program kind msg thread :=
  { select := sel; has_default := dflt; resume := res }.

Abbreviation state := (st kind msg socket thread).

(** ** The critical sections *)

(** [SendMsg], up to the first [select]. *)
Definition SendMsg (m : msg) (s : state) : state :=
  let s := set_vars (λ σ, σ <| submitted ::= (λ l, l ++ [m]) |>) (give [m] s) in
  let σ := vars s in
  if closed σ then go (SendRet (Some ErrClosed) (Some m)) s
  else if decide (length (mhdr m) < 4) then go (SendRet None None) (free [m] s)
  else
    let id := uint32_of (take 4 (mhdr m)) in
    let hdr := mhdr m in
    let m := m <| mhdr ::= drop 4 |> in
    match pipes σ !! id ≫= λ p, pobjs σ !! p with
    | None => go (SendRet None None) (free [m] s)
    | Some po =>
        let tq := bestEffort σ || negb (sendExpire σ =? 0)%Z in
        go (SendTry (p_sendQ po) (p_closeQ po) m hdr tq (bestEffort σ)) s
    end.

(** [RecvMsg], up to its loop, and in it, after a resize. *)
Definition RecvMsg_top (s : state) : thread :=
  let σ := vars s in
  RecvTry (recvQ σ) (sizeQ σ) (closeQ σ) (negb (recvExpire σ =? 0)%Z).
Definition RecvMsg_again (cq : chid) (tq : bool) (s : state) : thread :=
  RecvTry (recvQ (vars s)) (sizeQ (vars s)) cq tq.

(** [receiver], when [p.p.RecvMsg()] has returned [m]. *)
Definition receiver_turn (t : thid) (p : pid) (po : pipe) (m : msg) (s : state) : state :=
  let s := set_vars (λ σ, σ <| arrived ::= (λ l, l ++ [(p_id po, m)]) |>) (give [m] s) in
  let σ := vars s in
  match xrespondent_receive (ttl σ) (p_id po) m with
  | None => free [m] s
  | Some m => set_thread t (RecvLock p m) s
  end.
Definition receiver_lock (p : pid) (po : pipe) (m : msg) (s : state) : thread :=
  RecvPut p m (recvQ (vars s)) (sizeQ (vars s)) (p_closeQ po).

(** [sender], when [p.p.SendMsg(m)] has returned. *)
Definition sender_sent (t : thid) (p : pid) (po : pipe) (m : msg) (e : error) (s : state) : state :=
  match e with
  | Some _ => set_thread t (PipeClose p) s
  | None => set_thread t (Sender p (p_sendQ po) (p_closeQ po)) (pass [m] s)
  end.

Definition pipe_close (t : thid) (p : pid) (s : state) : state :=
  set_thread t Done (set_vars (λ σ, σ <| pclosed ::= (λ x, {[p]} ∪ x) |>) s).

Definition SetOption (name : string) (v : value) (s : state) : error * state :=
  if String.eqb name OptionTTL then
    match v with
    | VInt z => if ((0 <? z) && (z <? 256))%Z
                then (None, set_vars (λ σ, σ <| ttl := z |>) s) else (Some ErrBadValue, s)
    | _ => (Some ErrBadValue, s)
    end
  else if String.eqb name OptionRecvDeadline then
    match v with
    | VDuration d => (None, set_vars (λ σ, σ <| recvExpire := d |>) s)
    | _ => (Some ErrBadValue, s)
    end
  else if String.eqb name OptionSendDeadline then
    match v with
    | VDuration d => (None, set_vars (λ σ, σ <| sendExpire := d |>) s)
    | _ => (Some ErrBadValue, s)
    end
  else if String.eqb name OptionBestEffort then
    match v with
    | VBool b => (None, set_vars (λ σ, σ <| bestEffort := b |>) s)
    | _ => (Some ErrBadValue, s)
    end
  else if String.eqb name OptionWriteQLen then
    match v with
    | VInt z => if (0 <=? z)%Z then (None, set_vars (λ σ, σ <| sendQLen := z |>) s)
                else (Some ErrBadValue, s)
    | _ => (Some ErrBadValue, s)
    end
  else if String.eqb name OptionReadQLen then
    match v with
    | VInt z =>
        if (0 <=? z)%Z then
          let '(rq, s) := make_chan KRecv (Z.to_nat z) s in
          let '(zq, s) := make_chan KSignal 0 s in
          let s := close_chan (sizeQ (vars s)) s in
          (None, set_vars (λ σ, σ <| recvQLen := z |> <| recvQ := rq |> <| sizeQ := zq |>) s)
        else (Some ErrBadValue, s)
    | _ => (Some ErrBadValue, s)
    end
  else (Some ErrBadOption, s).

Definition GetOption (name : string) (σ : socket) : result value :=
  if String.eqb name OptionRaw then Ok (VBool true)
  else if String.eqb name OptionTTL then Ok (VInt (ttl σ))
  else if String.eqb name OptionRecvDeadline then Ok (VDuration (recvExpire σ))
  else if String.eqb name OptionSendDeadline then Ok (VDuration (sendExpire σ))
  else if String.eqb name OptionBestEffort then Ok (VBool (bestEffort σ))
  else if String.eqb name OptionWriteQLen then Ok (VInt (sendQLen σ))
  else if String.eqb name OptionReadQLen then Ok (VInt (recvQLen σ))
  else Err ErrBadOption.

Definition Close (s : state) : error * state :=
  if closed (vars s) then (Some ErrClosed, s)
  else
    let s := set_vars (λ σ, σ <| closed := true |>) s in
    (None, go (CloseChan (closeQ (vars s))) s).

(** [AddPipe], before and after it gets the mutex. *)
Definition AddPipe (p : pid) (id : Z) (s : state) : state :=
  let '(cq, s) := make_chan KSignal 0 s in
  let '(q, s) := make_chan (KSend id) (Z.to_nat (sendQLen (vars s))) s in
  go (AddLock p) (set_vars (λ σ, σ <| pobjs ::= <[p := mkPipe id cq q]> |>) s).
Definition AddPipe_locked (t : thid) (p : pid) (po : pipe) (s : state) : state :=
  if closed (vars s) then set_thread t (AddRet (Some ErrClosed)) s
  else
    let s := set_vars (λ σ, σ <| pipes ::= <[p_id po := p]> |>) (set_thread t (AddRet None) s) in
    go (Receiver p) (go (Sender p (p_sendQ po) (p_closeQ po)) s).

(** [RemovePipe], around the lock. *)
Definition RemovePipe (p : pid) (po : pipe) (s : state) : state :=
  go (RemoveEnd p) (close_chan (p_closeQ po) (set_vars (λ σ, σ <| removed ::= (λ x, {[p]} ∪ x) |>) s)).
Definition RemovePipe_locked (t : thid) (po : pipe) (s : state) : state :=
  set_thread t Done (set_vars (λ σ, σ <| pipes ::= delete (p_id po) |>) s).

Definition OpenContext : error := Some ErrProtoOp.
Definition Info : ProtocolInfo := mkInfo ProtoRespondent ProtoSurveyor "respondent" "surveyor".

Definition NewProtocol : state :=
  let cq := (KSignal, 0) in
  let zq := (KSignal, 1) in
  let rq := (KRecv, 2) in
  mkSt (mkSocket false cq zq rq ∅ 0 0 defaultQLen defaultQLen false 8 ∅ ∅ ∅ [] [])
    {[cq := mkChan [] 0 false [] []; zq := mkChan [] 0 false [] [];
      rq := mkChan [] (Z.to_nat defaultQLen) false [] []]} ∅ 3 [] [] [] false.

(** ** The program *)
Inductive event :=
  | ESend (m : msg)                    (* the application calls SendMsg *)
  | ERecv                              (* ... RecvMsg *)
  | ERecvTop (t : thid)                (* RecvMsg gets the lock *)
  | ERecvLock (t : thid)
  | EPipeRecv (t : thid) (m : msg)     (* p.p.RecvMsg() returns *)
  | EPipeRecvNil (t : thid)
  | EPipeSent (t : thid) (e : error)   (* p.p.SendMsg() returns *)
  | EPipeClose (t : thid)
  | ECloseChan (t : thid)
  | ESetOption (name : string) (v : value)
  | EClose
  | EAddPipe (p : pid) (id : Z)
  | EAddLock (t : thid)
  | ERemovePipe (p : pid)
  | ERemoveEnd (t : thid).

(** New messages have identities of their own; the core adds a pipe object
    once and removes it once. *)
Definition ext (e : event) (s : state) : option state :=
  match e with
  | ESend m => guard (mref m ∉ mref <$> given s);; Some (SendMsg m s)
  | ERecv => Some (go RecvTop s)
  | ERecvTop t =>
      match threads s !! t with
      | Some RecvTop => Some (set_thread t (RecvMsg_top s) s)
      | Some (RecvAgain cq tq) => Some (set_thread t (RecvMsg_again cq tq s) s)
      | _ => None
      end
  | EPipeRecv t m =>
      match threads s !! t with
      | Some (Receiver p) =>
          po ← pobjs (vars s) !! p;
          guard (mref m ∉ mref <$> given s ∧ mhdr m = [] ∧ mpipe m = Some (p_id po));;
          Some (receiver_turn t p po m s)
      | _ => None
      end
  | ERecvLock t =>
      match threads s !! t with
      | Some (RecvLock p m) => po ← pobjs (vars s) !! p; Some (set_thread t (receiver_lock p po m s) s)
      | _ => None
      end
  | EPipeRecvNil t =>
      match threads s !! t with
      | Some (Receiver p) => Some (set_thread t (PipeClose p) s)
      | _ => None
      end
  | EPipeSent t e =>
      match threads s !! t with
      | Some (Sending p m) => po ← pobjs (vars s) !! p; Some (sender_sent t p po m e s)
      | _ => None
      end
  | EPipeClose t =>
      match threads s !! t with
      | Some (PipeClose p) => Some (pipe_close t p s)
      | _ => None
      end
  | ECloseChan t =>
      match threads s !! t with
      | Some (CloseChan c) => Some (set_thread t Done (close_chan c s))
      | _ => None
      end
  | ESetOption name v => Some (snd (SetOption name v s))
  | EClose => Some (snd (Close s))
  | EAddPipe p id => guard (pobjs (vars s) !! p = None);; Some (AddPipe p id s)
  | EAddLock t =>
      match threads s !! t with
      | Some (AddLock p) => po ← pobjs (vars s) !! p; Some (AddPipe_locked t p po s)
      | _ => None
      end
  | ERemovePipe p =>
      po ← pobjs (vars s) !! p; guard (p ∉ removed (vars s));; Some (RemovePipe p po s)
  | ERemoveEnd t =>
      match threads s !! t with
      | Some (RemoveEnd p) => po ← pobjs (vars s) !! p; Some (RemovePipe_locked t po s)
      | _ => None
      end
  end.

Definition init (s : state) : Prop := s = NewProtocol.
Definition step : label event → state → option state := gstep ext.
Definition ok : state → label event → Prop := gok (λ _ _, True).

(** ** Ownership *)
Definition holding (th : thread) : list msg :=
  match th with
  | SendTry _ _ m _ _ _ | SendWait _ _ m _ _ _ | SendRet _ (Some m) | RecvRet (Ok m)
  | RecvLock _ m | RecvPut _ m _ _ _ | Sending _ m => [m]
  | _ => []
  end.

#[export] Instance xrespondent_owns : Owns (K := kind) (A := msg) (T := thread).
Proof.
  refine {| holds := holding |}.
  - intros th i o v x Hsel Hv.
    destruct th; try (destruct tq); cbn in Hsel; select_cases Hsel; cbn in *; subst;
      try (destruct v); try (destruct be); owns_lia.
  - intros th x Hd. destruct th; try done; owns_lia.
Defined.

(** ** What the channels carry *)

(** [m] is what is left of a message the application sent to pipe [id]. *)
Definition routed (σ : socket) (id : Z) (m : msg) : Prop :=
  ∃ m0, m0 ∈ submitted σ ∧ mhdr m0 = put_uint32 id ++ mhdr m ∧
    mbody m0 = mbody m ∧ mref m0 = mref m.
(** [m] is a message that arrived on some pipe, with its backtrace. *)
Definition brought (σ : socket) (m : msg) : Prop :=
  ∃ id m0 n, (id, m0) ∈ arrived σ ∧ xrespondent_receive n id m0 = Some m.

Definition ctype (σ : socket) (c : chid) (m : msg) : Prop :=
  match c with
  | (KSend id, _) => routed σ id m
  | (KRecv, _) => brought σ m
  | (KSignal, _) => False
  end.

Definition ttype (σ : socket) (th : thread) : Prop :=
  match th with
  | SendTry q _ m hdr _ _ | SendWait q _ m hdr _ _ =>
      ctype σ q m ∧ m <| mhdr := hdr |> ∈ submitted σ
  | SendRet _ (Some m) => m ∈ submitted σ
  | RecvTry rq _ _ _ | RecvWait rq _ _ _ => rq.1 = KRecv
  | RecvRet (Ok m) => brought σ m
  | RecvLock _ m => brought σ m
  | RecvPut _ m rq _ _ => ctype σ rq m
  | Sender p q _ => ∃ po, pobjs σ !! p = Some po ∧ q.1 = KSend (p_id po)
  | Sending p m => ∃ po, pobjs σ !! p = Some po ∧ routed σ (p_id po) m
  | _ => True
  end.

Record vtype (σ : socket) : Prop := {
  vt_recvQ : (recvQ σ).1 = KRecv;
  vt_pobj p po : pobjs σ !! p = Some po → (p_sendQ po).1 = KSend (p_id po);
  vt_pipes id p : pipes σ !! id = Some p → ∃ po, pobjs σ !! p = Some po ∧ p_id po = id
}.

#[export] Instance xrespondent_typed : Typed (K := kind) (A := msg) (S := socket) (T := thread).
Proof.
  refine {| vars_type := vtype; chan_type := ctype; thread_type := λ σ _ th, ttype σ th |}.
  - intros σ t th i o v Hsel Hth Hv.
    destruct th; try (destruct tq); cbn in Hsel; select_cases Hsel; cbn in Hth;
      try (destruct v as [m'|]); try done; cbn.
    all: try (destruct be; naive_solver).
    all: try (destruct rq as [k n]; cbn in Hth; subst k; done).
    all: destruct q as [k n], Hth as (po & Hpo & Hk); cbn in *; subst k; eauto.
  - intros σ t th Hd Hth. destruct th; done.
Defined.

(** The variables grow. *)
Record vle (σ σ' : socket) : Prop := {
  le_sub m : m ∈ submitted σ → m ∈ submitted σ';
  le_arr x : x ∈ arrived σ → x ∈ arrived σ';
  le_pobj p po : pobjs σ !! p = Some po → pobjs σ' !! p = Some po
}.

Lemma xrespondent_ctype_mono σ σ' c m : vle σ σ' → ctype σ c m → ctype σ' c m.
Proof.
  intros [Hs Ha Hp]. destruct c as [[] n]; simpl; [done|..].
  - intros (id & m0 & k & ? & ?). exists id, m0, k. auto.
  - intros (m0 & ? & ? & ? & ?). exists m0. auto.
Qed.
Lemma xrespondent_ttype_mono σ σ' th : vle σ σ' → ttype σ th → ttype σ' th.
Proof.
  intros Hle. pose proof Hle as [Hs Ha Hp].
  assert (∀ id m, routed σ id m → routed σ' id m) as Hr
    by (intros id m; apply (xrespondent_ctype_mono σ σ' (KSend id, 0) m Hle)).
  assert (∀ m, brought σ m → brought σ' m) as Hb
    by (intros m; apply (xrespondent_ctype_mono σ σ' (KRecv, 0) m Hle)).
  destruct th; simpl; try done; try (by case_match; auto).
  - intros [? ?]. split; [by eapply xrespondent_ctype_mono|auto].
  - intros [? ?]. split; [by eapply xrespondent_ctype_mono|auto].
  - apply Hb.
  - by apply xrespondent_ctype_mono.
  - intros (po & ? & ?). exists po. auto.
  - intros (po & ? & ?). exists po. auto.
Qed.

Lemma xrespondent_okstep_vle f (s : state) :
  vle (vars s) (f (vars s)) → (vtype (vars s) → vtype (f (vars s))) → okstep s (set_vars f s).
Proof.
  intros Hle Hv. apply okstep_vars; [done|..].
  - intros c a _. by apply xrespondent_ctype_mono.
  - intros t th _ _. by apply xrespondent_ttype_mono.
Qed.

(** Variables that the types do not mention. *)
Lemma xrespondent_okstep_plain f (s : state) :
  (∀ σ, submitted (f σ) = submitted σ ∧ arrived (f σ) = arrived σ ∧ pobjs (f σ) = pobjs σ ∧
     recvQ (f σ) = recvQ σ ∧ pipes (f σ) = pipes σ) → okstep s (set_vars f s).
Proof.
  intros Hf. destruct (Hf (vars s)) as (Es & Ea & Ep & Er & Eq). apply xrespondent_okstep_vle.
  - split; by rewrite ?Es, ?Ea, ?Ep.
  - intros [H1 H2 H3]. split; by rewrite ?Er, ?Ep, ?Eq.
Qed.

(** ** The critical sections keep everything *)
Lemma xrespondent_okstep_SendMsg m s : wf s → okstep s (SendMsg m s).
Proof.
  intros Hwf. unfold SendMsg.
  set (f := λ σ : socket, σ <| submitted ::= (λ l, l ++ [m]) |>).
  change (set_vars f (give [m] s)) with (give [m] (set_vars f s)).
  assert (okstep s (set_vars f s)) as Hok.
  { apply xrespondent_okstep_vle; [split; simpl; set_solver|]. intros [? ? ?]. by split. }
  assert (m ∈ submitted (vars (set_vars f s))) as Hm by (simpl; set_solver).
  assert (wf (set_vars f s)) as Hwf1 by by apply Hok.
  revert Hok Hwf1 Hm. generalize (set_vars f s) as s1. clear f. intros s1 Hok Hwf1 Hm.
  etrans; [exact Hok|]. clear Hok. change (vars (give [m] s1)) with (vars s1).
  destruct (closed (vars s1)).
  { apply (okstep_spawn _ [m]); [done|accounting|done]. }
  case_decide as Hl; [apply (okstep_spawn _ [m]); [done|accounting|done]|].
  destruct (pipes (vars s1) !! _ ≫= _) as [po|] eqn:Hpo;
    [|apply (okstep_spawn _ [m]); [done|accounting|done]].
  apply (okstep_spawn _ [m]); [done|accounting|]. intros Hty.
  apply bind_Some in Hpo as (p & Hp & Hpo). destruct (ty_vars _ Hty) as [_ Hq Hi].
  destruct (Hi _ _ Hp) as (po' & Hpo' & Hid). simplify_eq. pose proof (Hq _ _ Hpo) as Hk.
  destruct (p_sendQ po) as [k n]. simpl in *. subst k. split.
  - exists m. split_and!; [done| |done|done]. rewrite Hid, be_encode_decode.
    + symmetry. apply take_drop.
    + rewrite length_take. lia.
  - by destruct m.
Qed.

Lemma xrespondent_receive_ref ttl p m m' : xrespondent_receive ttl p m = Some m' → mref m' = mref m.
Proof.
  unfold xrespondent_receive. case_decide; [done|]. rewrite xrespondent_walk_spec by (simpl; lia).
  intros ([? ?] & _ & [= <-])%bind_Some. done.
Qed.
Lemma xrespondent_okstep_receiver_turn t p po m s :
  wf s → threads s !! t = Some (Receiver p) → okstep s (receiver_turn t p po m s).
Proof.
  intros Hwf Ht. unfold receiver_turn.
  set (f := λ σ : socket, σ <| arrived ::= (λ l, l ++ [(p_id po, m)]) |>).
  change (set_vars f (give [m] s)) with (give [m] (set_vars f s)).
  assert (okstep s (set_vars f s)) as Hok.
  { apply xrespondent_okstep_vle; [split; simpl; set_solver|]. intros [? ? ?]. by split. }
  assert ((p_id po, m) ∈ arrived (vars (set_vars f s))) as Hm by (simpl; set_solver).
  assert (threads (set_vars f s) !! t = Some (Receiver p)) as Ht1 by done.
  revert Hok Hm Ht1. generalize (set_vars f s) as s1. clear f. intros s1 Hok Hm Ht1.
  etrans; [exact Hok|]. clear Hok. change (vars (give [m] s1)) with (vars s1).
  destruct (xrespondent_receive _ _ m) as [m'|] eqn:Hr.
  - assert (mref m' = mref m) as Href.
    { by eapply xrespondent_receive_ref. }
    apply (okstep_goto t (Receiver p) _ [m]); [done| |].
    + split; [reflexivity..|done|]. intros x. owns_lia.
    + intros _. exists (p_id po), m. eauto.
  - apply (okstep_account [m]). accounting.
Qed.

(** [OptionReadQLen]. *)
Lemma xrespondent_okstep_resize z s :
  wf s →
  okstep s (let '(rq, s) := make_chan KRecv (Z.to_nat z) s in
    let '(zq, s) := make_chan KSignal 0 s in
    set_vars (λ σ, σ <| recvQLen := z |> <| recvQ := rq |> <| sizeQ := zq |>)
      (close_chan (sizeQ (vars s)) s)).
Proof.
  intros Hwf. destruct (make_chan KRecv _ s) as [rq s1] eqn:E1.
  destruct (okstep_make_chan _ _ _ _ _ Hwf E1) as (Hok1 & Hwf1 & -> & _ & _).
  destruct (make_chan KSignal _ s1) as [zq s2] eqn:E2.
  destruct (okstep_make_chan _ _ _ _ _ Hwf1 E2) as (Hok2 & Hwf2 & -> & _ & _).
  etrans; [exact Hok1|]. etrans; [exact Hok2|]. clear - Hwf2.
  set (f := λ σ : socket, σ <| recvQLen := z |> <| recvQ := _ |> <| sizeQ := _ |>).
  etrans; [apply okstep_close_chan|]. apply (xrespondent_okstep_vle f); [by split|]. intros [? ? ?]. by split.
Qed.

Lemma xrespondent_okstep_SetOption name v s : wf s → okstep s (snd (SetOption name v s)).
Proof.
  intros Hwf. unfold SetOption.
  do 5 (destruct (String.eqb name _); [destruct v; try case_match; try reflexivity;
    by apply xrespondent_okstep_plain|]).
  destruct (String.eqb name _); [|reflexivity]. destruct v; try reflexivity.
  destruct (0 <=? z)%Z; [|reflexivity]. exact (xrespondent_okstep_resize z s Hwf).
Qed.

Lemma xrespondent_okstep_Close s : wf s → okstep s (snd (Close s)).
Proof.
  intros Hwf. unfold Close. destruct (closed (vars s)); [reflexivity|].
  etrans; [by apply (xrespondent_okstep_plain (λ σ, σ <| closed := true |>))|].
  apply okstep_go; [by apply wf_vars|done|done].
Qed.

Lemma xrespondent_okstep_AddPipe p id s :
  wf s → pobjs (vars s) !! p = None → okstep s (AddPipe p id s).
Proof.
  intros Hwf Hp. unfold AddPipe. destruct (make_chan KSignal _ s) as [cq s1] eqn:E1.
  destruct (okstep_make_chan _ _ _ _ _ Hwf E1) as (Hok1 & Hwf1 & _ & Hv1 & _).
  destruct (make_chan (KSend id) _ s1) as [q s2] eqn:E2.
  destruct (okstep_make_chan _ _ _ _ _ Hwf1 E2) as (Hok2 & Hwf2 & -> & Hv2 & _).
  etrans; [exact Hok1|]. etrans; [exact Hok2|]. rewrite <-Hv1, <-Hv2 in Hp.
  clear - Hwf2 Hp. set (po := mkPipe id cq (KSend id, fresh s1)).
  set (s3 := set_vars (λ σ, σ <| pobjs ::= <[p := po]> |>) s2).
  assert (okstep s2 s3) as Hok3.
  { apply xrespondent_okstep_vle.
    - split; simpl; try done. intros p' po' Hpo'. rewrite lookup_insert_ne; [done|congruence].
    - intros [Hq Ho Hi]. split; simpl; [done|..].
      + intros p' po'. rewrite lookup_insert. case_decide; [|by eauto]. by intros [= <-].
      + intros i p' Hp'. destruct (Hi _ _ Hp') as (po' & Hpo' & ?).
        exists po'. rewrite lookup_insert_ne; [done|congruence]. }
  etrans; [exact Hok3|]. by apply okstep_go; [apply Hok3|..].
Qed.
Lemma xrespondent_okstep_AddPipe_locked t p po s :
  wf s → typed s → threads s !! t = Some (AddLock p) → pobjs (vars s) !! p = Some po →
  okstep s (AddPipe_locked t p po s).
Proof.
  intros Hwf Hty Ht Hpo. unfold AddPipe_locked. destruct (closed (vars s)); [by eapply okstep_stop|].
  set (s1 := set_vars _ _). assert (okstep s s1) as Hok1.
  { etrans; [by eapply (okstep_stop t _ (AddRet None))|].
    apply xrespondent_okstep_vle; [by split|]. intros [Hq Ho Hi]. split; simpl; [done|done|].
    intros i p'. rewrite lookup_insert. case_decide; [|by apply Hi]. intros [= <-]. by exists po. }
  destruct (ty_vars _ Hty) as [_ Hq _].
  etrans; [exact Hok1|]. etrans; [apply (okstep_go (Sender p (p_sendQ po) (p_closeQ po)));
    [by apply Hok1|done|]|].
  - intros _. exists po. split; [done|]. by apply (Hq p).
  - apply okstep_go; [apply wf_go; by apply Hok1|done|done].
Qed.

Lemma xrespondent_okstep_RemovePipe p po s : wf s → okstep s (RemovePipe p po s).
Proof.
  intros Hwf. unfold RemovePipe.
  etrans; [by apply (xrespondent_okstep_plain (λ σ, σ <| removed ::= (λ x, {[p]} ∪ x) |>))|].
  etrans; [apply (okstep_close_chan (p_closeQ po))|].
  apply okstep_go; [by apply wf_close_chan, wf_vars|done|done].
Qed.

Lemma xrespondent_okstep_delete_pipe id s : okstep s (set_vars (λ σ, σ <| pipes ::= delete id |>) s).
Proof.
  apply xrespondent_okstep_vle; [by split|]. intros [Hq Ho Hi]. split; simpl; [done|done|].
  intros i p. rewrite lookup_delete. case_decide; [done|]. apply Hi.
Qed.

Lemma xrespondent_okstep_sender_sent t p po m e s :
  threads s !! t = Some (Sending p m) → pobjs (vars s) !! p = Some po →
  okstep s (sender_sent t p po m e s).
Proof.
  intros Ht Hpo. unfold sender_sent. destruct e as [e|].
  - eapply okstep_set_thread; [done|count|done].
  - eapply (okstep_goto t _ _ []); [done|accounting|].
    intros Hty. exists po. split; [done|]. destruct (ty_vars _ Hty) as [_ Hq _]. by eapply Hq.
Qed.

#[export] Instance xrespondent_ok : ExtOk ext.
Proof.
  intros e s s' Hwf Hty0. destruct e; cbn [ext].
  - intros [_ [= <-]]%guard_bind_Some. by apply xrespondent_okstep_SendMsg.
  - intros [= <-]. by apply okstep_go.
  - destruct (threads s !! t) as [[]|] eqn:Ht; try done; intros [= <-];
      (eapply okstep_stop; [done|done|]); intros Hty; by destruct (ty_vars _ Hty).
  - destruct (threads s !! t) as [[]|] eqn:Ht; try done. intros Hs.
    apply bind_Some in Hs as (po & Hpo & [= <-]). pose proof (ty_thread _ Hty0 _ _ Ht) as Hth.
    eapply okstep_set_thread; [done|count|]. intros _. destruct (ty_vars _ Hty0) as [Hq _ _].
    unfold thread_type. simpl. destruct (recvQ (vars s)) as [k n]. simpl in *. by subst k.
  - destruct (threads s !! t) as [[]|] eqn:Ht; try done. intros Hs.
    apply bind_Some in Hs as (po & Hpo & [_ [= <-]]%guard_bind_Some). by apply xrespondent_okstep_receiver_turn.
  - destruct (threads s !! t) as [[]|] eqn:Ht; try done. intros [= <-].
    eapply okstep_set_thread; [done|count|done].
  - destruct (threads s !! t) as [[]|] eqn:Ht; try done. intros Hs.
    apply bind_Some in Hs as (po & Hpo & [= <-]). by apply xrespondent_okstep_sender_sent.
  - destruct (threads s !! t) as [[]|] eqn:Ht; try done. intros [= <-]. unfold pipe_close.
    etrans; [by apply (xrespondent_okstep_plain (λ σ, σ <| pclosed ::= (λ x, {[p]} ∪ x) |>))|].
    by eapply okstep_stop.
  - destruct (threads s !! t) as [[]|] eqn:Ht; try done. intros [= <-].
    etrans; [apply (okstep_close_chan c)|]. eapply okstep_stop; [by rewrite threads_close_chan|done|done].
  - intros [= <-]. by apply xrespondent_okstep_SetOption.
  - intros [= <-]. by apply xrespondent_okstep_Close.
  - intros [? [= <-]]%guard_bind_Some. by apply xrespondent_okstep_AddPipe.
  - destruct (threads s !! t) as [[]|] eqn:Ht; try done. intros Hs.
    apply bind_Some in Hs as (po & Hpo & [= <-]). by apply xrespondent_okstep_AddPipe_locked.
  - intros Hs. apply bind_Some in Hs as (po & Hpo & [_ [= <-]]%guard_bind_Some).
    by apply xrespondent_okstep_RemovePipe.
  - destruct (threads s !! t) as [[]|] eqn:Ht; try done. intros Hs.
    apply bind_Some in Hs as (po & Hpo & [= <-]). unfold RemovePipe_locked.
    etrans; [apply (xrespondent_okstep_delete_pipe (p_id po))|]. by eapply okstep_stop.
Qed.

Lemma xrespondent_init_good s : init s → good s.
Proof.
  intros ->. start_good.
  split; simpl; done.
Qed.

Lemma reachable_xrespondent s : reachable step init ok s → good s.
Proof. eapply reachable_good; [apply _|apply xrespondent_init_good]. Qed.

(** C34. Routing in a raw RESPONDENT socket, for every interleaving of the
    application, the pipes and their goroutines, with resizes, timeouts and
    closes at any time: a message handed to the transport of a pipe was sent
    by the application with that pipe's ID on top of its header, and is that
    message without the ID; a message that [RecvMsg] returns arrived on some
    pipe and has that pipe's ID on top of the backtrace it came with; and a
    message that [SendMsg] gives back with its error is unchanged. *)
Theorem xrespondent_routes s (H : reachable step init ok s) :
  (∀ t p m, threads s !! t = Some (Sending p m) →
     ∃ po, pobjs (vars s) !! p = Some po ∧ routed (vars s) (p_id po) m) ∧
  (∀ t m, threads s !! t = Some (RecvRet (Ok m)) →
     ∃ id m0 n, (id, m0) ∈ arrived (vars s) ∧ xrespondent_receive n id m0 = Some m) ∧
  (∀ t e m, threads s !! t = Some (SendRet e (Some m)) → m ∈ submitted (vars s)).
Proof.
  destruct (reachable_xrespondent s H) as [_ _ [_ Ht _]].
  split_and!; intros ? ?; [intros ?|..|intros ?]; intros Hth; exact (Ht _ _ Hth).
Qed.

Definition example_response : msg := mkMsg (put_uint32 7 ++ put_uint32 0x80000005) [Byte.x62] None 1.
Definition xrespondent_run : state :=
  play step (λ _ _, true)
    [LExt (EAddPipe 0 7); LExt (EAddLock 5);
     LExt (EPipeRecv 7 (mkMsg [] (put_uint32 0x80000005 ++ [Byte.x61]) (Some 7%Z) 0));
     LExt (ERecvLock 7); LCase 7 0 None; LExt ERecv; LExt (ERecvTop 8); LCase 8 0 None;
     LExt (ESend example_response); LCase 9 0 None; LCase 6 0 None] NewProtocol.

Lemma xrespondent_routes_witness :
  threads xrespondent_run !! 6 = Some (Sending 0 (mkMsg (put_uint32 0x80000005) [Byte.x62] None 1)) ∧
  threads xrespondent_run !! 8 =
    Some (RecvRet (Ok (mkMsg (put_uint32 7 ++ put_uint32 0x80000005) [Byte.x61] (Some 7%Z) 0))) ∧
  ∃ po, pobjs (vars xrespondent_run) !! 0 = Some po ∧
    routed (vars xrespondent_run) (p_id po) (mkMsg (put_uint32 0x80000005) [Byte.x62] None 1).
Proof.
  assert (reachable step init ok xrespondent_run) as Hr by (by apply play_reachable; [intros ? []|]).
  split; [by vm_compute|]. split; [by vm_compute|].
  apply (proj1 (xrespondent_routes xrespondent_run Hr) 6). by vm_compute.
Defined.
