(* ===== verification/Respondent.v ===== *)
(** * Respondent: the RESPONDENT protocol

    [src/protocol/respondent/respondent.go], complete, as a program of [Chan].
    Surveys wait on one queue, with the pipe they came from; a context
    remembers the backtrace and the pipe of the survey it took, and answers
    there.  [arrived] records what the pipes brought. *)
From stdpp Require Import gmap list strings fin_maps.
From Stdlib Require Import ZArith Lia.
From S2P Require Import Prelude Types Chan Backtrace.

Abbreviation pid := nat.
Abbreviation cid := nat.

(** The channels: those that only get closed, [recvQ], and the [sendQ] of a
    pipe object. *)
Inductive kind := KSignal | KRecv | KSend (p : pid).
#[export] Instance kind_eq_dec : EqDecision kind.
Proof. solve_decision. Defined.
#[export] Instance kind_countable : Countable kind.
Proof.
  refine (inj_countable'
    (λ k, match k with KSignal => inl false | KRecv => inl true | KSend id => inr id end)
    (λ x, match x with inl false => KSignal | inl true => KRecv | inr id => KSend id end) _).
  by intros [].
Defined.
Abbreviation chid := (kind * nat)%type.

(** [msg] of the source; a response on its way out has no [ep]. *)
Record entry := mkEntry { em : msg; ep : option pid }.
#[export] Instance entry_keyed : Keyed entry := λ e, mref (em e).

Record pipe := mkPipe { p_id : Z; p_sendQ : chid; p_closeQ : chid }.

Record context := mkContext {
  c_closed : bool;
  recvExpire : Z;
  recvPipe : option pid;
  closeQ : chid;
  sendExpire : Z;
  bestEffort : bool;
  backtrace : option bytes
}.
#[export] Instance eta_context : Eta context := λ c,
  mkContext (c_closed c) (recvExpire c) (recvPipe c) (closeQ c) (sendExpire c)
    (bestEffort c) (backtrace c).

Record socket := mkSocket {
  closed : bool;
  ttl : Z;
  sendQLen : Z;
  recvQLen : Z;
  sizeQ : chid;
  recvQ : chid;
  contexts : gset cid;
  defCtx : cid;
  s_closeQ : chid;
  ctxs : gmap cid context;
  pobjs : gmap pid pipe;
  removed : gset pid;
  pclosed : gset pid;
  arrived : list (pid * msg)
}.
#[export] Instance eta_socket : Eta socket := λ s,
  mkSocket (closed s) (ttl s) (sendQLen s) (recvQLen s) (sizeQ s) (recvQ s) (contexts s) (defCtx s)
    (s_closeQ s) (ctxs s) (pobjs s) (removed s) (pclosed s) (arrived s).

Definition defaultQLen : Z := 128.

(** Program points. *)
Inductive thread :=
  | RecvTop (c : cid)                           (* RecvMsg, before its first s.Lock() *)
  | RecvTry (c : cid) (rq zq cq : chid) (tq : bool)
  | RecvWait (c : cid) (rq zq cq : chid) (tq : bool)
  | RecvEnd (c : cid) (e : entry)               (* RecvMsg, before its second s.Lock() *)
  | RecvRet (r : result msg)
  | SendTry (q cq pcq : chid) (m : msg) (tq be : bool)
  | SendWait (q cq pcq : chid) (m : msg) (tq be : bool)
  | SendRet (e : error) (back : option msg)
  | Receiver (p : pid)
  | RecvLock (p : pid) (m : msg)                (* receiver, the top of its loop inner *)
  | RecvPut (p : pid) (m : msg) (rq cq zq : chid)
  | Sender (p : pid) (q cq : chid)
  | Sending (p : pid) (m : msg)
  | PipeClose (p : pid)
  | AddLock (p : pid)                           (* AddPipe, before s.Lock() *)
  | AddRet (e : error)
  | CloseChan (c : chid)
  | Done.

Definition timer (tq : bool) : list (op kind entry) := if tq then [OTime] else [].
Definition reply (m : msg) : entry := mkEntry m None.

Definition sel (th : thread) : list (op kind entry) :=
  match th with
  | RecvTry c rq zq cq tq => [ORecv rq]
  | RecvWait c rq zq cq tq => [ORecv rq; ORecv zq; ORecv cq] ++ timer tq
  | SendTry q cq pcq m tq be => [OSend q (reply m)]
  | SendWait q cq pcq m tq be => [ORecv cq; ORecv pcq; OSend q (reply m)] ++ timer tq
  | RecvPut p m rq cq zq => [ORecv zq; OSend rq (mkEntry m (Some p)); ORecv cq]
  | Sender p q cq => [ORecv q; ORecv cq]
  | _ => []
  end.
Definition dflt (th : thread) : bool :=
  match th with RecvTry _ _ _ _ _ | SendTry _ _ _ _ _ _ => true | _ => false end.

(** After a case.  [recvQ] and [sendQ] are never closed, so a receive from
    them brings an entry. *)
Definition res (th : thread) (i : option nat) (v : option entry) : thread * list entry :=
  match th, i with
  | RecvTry c rq zq cq tq, None => (RecvWait c rq zq cq tq, [])
  | RecvTry c rq zq cq tq, Some _ => (match v with Some e => RecvEnd c e | None => RecvTop c end, [])
  | RecvWait c rq zq cq tq, Some 0 => (match v with Some e => RecvEnd c e | None => RecvTop c end, [])
  | RecvWait c rq zq cq tq, Some 1 => (RecvTop c, [])
  | RecvWait c rq zq cq tq, Some 2 => (RecvRet (Err ErrClosed), [])
  | RecvWait c rq zq cq tq, Some _ => (RecvRet (Err ErrRecvTimeout), [])
  | SendTry q cq pcq m tq be, None => (SendWait q cq pcq m tq be, [])
  | SendTry q cq pcq m tq be, Some _ => (SendRet None None, [])
  | SendWait q cq pcq m tq be, Some 0 =>
      (SendRet (Some ErrClosed) (Some (m <| mhdr := [] |>)), [])
  | SendWait q cq pcq m tq be, Some 1 => (SendRet None None, [reply m])
  | SendWait q cq pcq m tq be, Some 2 => (SendRet None None, [])
  | SendWait q cq pcq m tq be, Some _ =>
      if be then (SendRet None None, [reply m])
      else (SendRet (Some ErrSendTimeout) (Some (m <| mhdr := [] |>)), [])
  | RecvPut p m rq cq zq, Some 0 => (RecvLock p m, [])
  | RecvPut p m rq cq zq, Some 1 => (Receiver p, [])
  | RecvPut p m rq cq zq, Some _ => (PipeClose p, [reply m])
  | Sender p q cq, Some 0 => (match v with Some e => Sending p (em e) | None => Done end, [])
  | Sender p q cq, Some _ => (Done, [])
  | th, _ => (th, [])
  end.

#[export] Instance respondent_program : Program kind entry thread :=
  { select := sel; has_default := dflt; resume := res }.

Abbreviation state := (st kind entry socket thread).

(** ** The critical sections *)
Definition upd_ctx (c : cid) (f : context → context) (s : state) : state :=
  set_vars (λ σ, σ <| ctxs ::= alter f c |>) s.

(** [context.RecvMsg], from the top of its loop to the first [select]. *)
Definition RecvMsg_top (t : thid) (c : cid) (x : context) (s : state) : state :=
  if c_closed x then set_thread t (RecvRet (Err ErrClosed)) s
  else
    let σ := vars s in
    let s := upd_ctx c (λ x, x <| backtrace := None |> <| recvPipe := None |>) s in
    set_thread t (RecvTry c (recvQ σ) (sizeQ σ) (closeQ x) (negb (recvExpire x =? 0)%Z)) s.

(** Its last section. *)
Definition RecvMsg_end (t : thid) (c : cid) (e : entry) (s : state) : state :=
  let s := upd_ctx c (λ x, x <| recvPipe := ep e |> <| backtrace := Some (mhdr (em e)) |>) s in
  set_thread t (RecvRet (Ok (em e <| mhdr := [] |>))) s.

(** [context.SendMsg], up to its first [select].  A context with a backtrace
    has a pipe; without one the last match would be a nil dereference. *)
Definition SendMsg (c : cid) (x : context) (m : msg) (s : state) : state :=
  let s := give [reply m] s in
  if closed (vars s) || c_closed x then go (SendRet (Some ErrClosed) (Some m)) s
  else match backtrace x with
  | None => go (SendRet (Some ErrProtoState) (Some m)) s
  | Some bt =>
      let tq := bestEffort x || negb (sendExpire x =? 0)%Z in
      let m := m <| mhdr := bt |> in
      let p := recvPipe x in
      let s := upd_ctx c (λ x, x <| recvPipe := None |> <| backtrace := None |>) s in
      match p ≫= λ p, pobjs (vars s) !! p with
      | Some po => go (SendTry (p_sendQ po) (closeQ x) (p_closeQ po) m tq (bestEffort x)) s
      | None => s <| crashed := true |>
      end
  end.

(** [context.close], called with the mutex held, and [context.Close]. *)
Definition ctx_close (c : cid) (s : state) : state :=
  match ctxs (vars s) !! c with
  | Some x =>
      if c_closed x then s
      else
        let s := set_vars (λ σ, σ <| contexts ::= (λ cs, cs ∖ {[c]}) |>) s in
        close_chan (closeQ x) (upd_ctx c (λ x, x <| c_closed := true |>) s)
  | None => s
  end.
Definition context_Close (c : cid) (x : context) (s : state) : error * state :=
  if c_closed x then (Some ErrClosed, s) else (None, ctx_close c s).

Definition context_GetOption (name : string) (x : context) : result value :=
  if String.eqb name OptionBestEffort then Ok (VBool (bestEffort x))
  else if String.eqb name OptionRecvDeadline then Ok (VDuration (recvExpire x))
  else if String.eqb name OptionSendDeadline then Ok (VDuration (sendExpire x))
  else Err ErrBadOption.

Definition context_SetOption (c : cid) (name : string) (v : value) (s : state) : error * state :=
  if String.eqb name OptionSendDeadline then
    match v with
    | VDuration d => (None, upd_ctx c (λ x, x <| sendExpire := d |>) s)
    | _ => (Some ErrBadValue, s)
    end
  else if String.eqb name OptionRecvDeadline then
    match v with
    | VDuration d => (None, upd_ctx c (λ x, x <| recvExpire := d |>) s)
    | _ => (Some ErrBadValue, s)
    end
  else if String.eqb name OptionBestEffort then
    match v with
    | VBool b => (None, upd_ctx c (λ x, x <| bestEffort := b |>) s)
    | _ => (Some ErrBadValue, s)
    end
  else (Some ErrBadOption, s).

(** [receiver], when [p.p.RecvMsg()] has returned [m]. *)
Definition receiver_turn (t : thid) (p : pid) (m : msg) (s : state) : state :=
  let s := set_vars (λ σ, σ <| arrived ::= (λ l, l ++ [(p, m)]) |>) (give [reply m] s) in
  match rep_receive (ttl (vars s)) m with
  | None => free [reply m] s
  | Some m => set_thread t (RecvLock p m) s
  end.
(** ... the top of the loop [inner], which sends the survey to the contexts. *)
Definition receiver_inner (p : pid) (m : msg) (σ : socket) : thread :=
  RecvPut p m (recvQ σ) (s_closeQ σ) (sizeQ σ).

(** [sender], when [p.p.SendMsg(m)] has returned. *)
Definition sender_sent (t : thid) (p : pid) (po : pipe) (m : msg) (e : error) (s : state) : state :=
  match e with
  | Some _ => set_thread t (PipeClose p) s
  | None => set_thread t (Sender p (p_sendQ po) (p_closeQ po)) (pass [reply m] s)
  end.

Definition pipe_close (t : thid) (p : pid) (s : state) : state :=
  set_thread t Done (set_vars (λ σ, σ <| pclosed ::= (λ x, {[p]} ∪ x) |>) s).

(** [socket.Close]: [order] is the order in which Go ranges over the
    contexts. *)
Definition Close (order : list cid) (s : state) : error * state :=
  if closed (vars s) then (Some ErrClosed, s)
  else
    let s := close_chan (s_closeQ (vars s)) (set_vars (λ σ, σ <| closed := true |>) s) in
    (None, foldl (λ s c, ctx_close c s) s order).

(** [AddPipe], before and after it gets the mutex. *)
Definition AddPipe (p : pid) (id : Z) (s : state) : state :=
  let '(q, s) := make_chan (KSend p) (Z.to_nat (sendQLen (vars s))) s in
  let '(cq, s) := make_chan KSignal 0 s in
  go (AddLock p) (set_vars (λ σ, σ <| pobjs ::= <[p := mkPipe id q cq]> |>) s).
Definition AddPipe_locked (t : thid) (p : pid) (po : pipe) (s : state) : state :=
  if closed (vars s) then set_thread t (AddRet (Some ErrClosed)) s
  else
    let s := set_thread t (AddRet None) s in
    go (Receiver p) (go (Sender p (p_sendQ po) (p_closeQ po)) s).

Definition RemovePipe (p : pid) (po : pipe) (s : state) : state :=
  close_chan (p_closeQ po) (set_vars (λ σ, σ <| removed ::= (λ x, {[p]} ∪ x) |>) s).

(** [OptionReadQLen]: a new queue; what is in the old one is gone. *)
Definition resize (z : Z) (s : state) : state :=
  let '(q, s) := make_chan KRecv (Z.to_nat z) s in
  let '(zq, s) := make_chan KSignal 0 s in
  go (CloseChan (sizeQ (vars s)))
    (set_vars (λ σ, σ <| sizeQ := zq |> <| recvQ := q |> <| recvQLen := z |>) s).

Definition SetOption (name : string) (v : value) (s : state) : error * state :=
  if String.eqb name OptionWriteQLen then
    match v with
    | VInt z => if (0 <=? z)%Z then (None, set_vars (λ σ, σ <| sendQLen := z |>) s)
                else (Some ErrBadValue, s)
    | _ => (Some ErrBadValue, s)
    end
  else if String.eqb name OptionReadQLen then
    match v with
    | VInt z => if (0 <=? z)%Z then (None, resize z s) else (Some ErrBadValue, s)
    | _ => (Some ErrBadValue, s)
    end
  else if String.eqb name OptionTTL then
    match v with
    | VInt z => if ((0 <? z) && (z <? 256))%Z
                then (None, set_vars (λ σ, σ <| ttl := z |>) s) else (Some ErrBadValue, s)
    | _ => (Some ErrBadValue, s)
    end
  else context_SetOption (defCtx (vars s)) name v s.

Definition GetOption (name : string) (σ : socket) : result value :=
  if String.eqb name OptionRaw then Ok (VBool false)
  else if String.eqb name OptionTTL then Ok (VInt (ttl σ))
  else if String.eqb name OptionWriteQLen then Ok (VInt (sendQLen σ))
  else if String.eqb name OptionReadQLen then Ok (VInt (recvQLen σ))
  else match ctxs σ !! defCtx σ with
       | Some x => context_GetOption name x
       | None => Err ErrBadOption
       end.

(** A new context has the options of the default one, [d]. *)
Definition new_context (cq : chid) (d : option context) : context :=
  mkContext false (default 0%Z (recvExpire <$> d)) None cq (default 0%Z (sendExpire <$> d))
    (default false (bestEffort <$> d)) None.

Definition OpenContext (c : cid) (s : state) : error * state :=
  if closed (vars s) then (Some ErrClosed, s)
  else
    let d := ctxs (vars s) !! defCtx (vars s) in
    let '(cq, s) := make_chan KSignal 0 s in
    (None, set_vars (λ σ, σ <| ctxs ::= <[c := new_context cq d]> |>
                            <| contexts ::= (λ cs, {[c]} ∪ cs) |>) s).

Definition Info : ProtocolInfo := mkInfo ProtoRespondent ProtoSurveyor "respondent" "surveyor".

Definition NewProtocol : state :=
  let rq := (KRecv, 0) in
  let cq := (KSignal, 1) in
  let zq := (KSignal, 2) in
  let dq := (KSignal, 3) in
  mkSt (mkSocket false 8 0 defaultQLen zq rq {[0]} 0 cq {[0 := new_context dq None]} ∅ ∅ ∅ [])
    {[rq := mkChan [] (Z.to_nat defaultQLen) false [] []; cq := mkChan [] 0 false [] [];
      zq := mkChan [] 0 false [] []; dq := mkChan [] 0 false [] []]} ∅ 4 [] [] [] false.

(** ** The program *)
Inductive event :=
  | ERecv (c : cid)
  | ERecvTop (t : thid)
  | ERecvEnd (t : thid)
  | ESend (c : cid) (m : msg)
  | EPipeRecv (t : thid) (m : msg)
  | EPipeRecvNil (t : thid)
  | ERecvLock (t : thid)
  | EPipeSent (t : thid) (e : error)
  | EPipeClose (t : thid)
  | ECtxSetOption (c : cid) (name : string) (v : value)
  | ECtxClose (c : cid)
  | ESetOption (name : string) (v : value)
  | EClose (order : list cid)
  | ECloseChan (t : thid)
  | EOpenContext (c : cid)
  | EAddPipe (p : pid) (id : Z)
  | EAddLock (t : thid)
  | ERemovePipe (p : pid).

Definition ext (e : event) (s : state) : option state :=
  match e with
  | ERecv c => guard (is_Some (ctxs (vars s) !! c));; Some (go (RecvTop c) s)
  | ERecvTop t =>
      match threads s !! t with
      | Some (RecvTop c) => x ← ctxs (vars s) !! c; Some (RecvMsg_top t c x s)
      | _ => None
      end
  | ERecvEnd t =>
      match threads s !! t with
      | Some (RecvEnd c e) => Some (RecvMsg_end t c e s)
      | _ => None
      end
  | ESend c m =>
      x ← ctxs (vars s) !! c; guard (mref m ∉ key <$> given s);; Some (SendMsg c x m s)
  | EPipeRecv t m =>
      match threads s !! t with
      | Some (Receiver p) =>
          po ← pobjs (vars s) !! p;
          guard (mref m ∉ key <$> given s ∧ mhdr m = [] ∧ mpipe m = Some (p_id po));;
          Some (receiver_turn t p m s)
      | _ => None
      end
  | EPipeRecvNil t =>
      match threads s !! t with
      | Some (Receiver p) => Some (set_thread t (PipeClose p) s)
      | _ => None
      end
  | ERecvLock t =>
      match threads s !! t with
      | Some (RecvLock p m) => Some (set_thread t (receiver_inner p m (vars s)) s)
      | _ => None
      end
  | EPipeSent t e =>
      match threads s !! t with
      | Some (Sending p m) => po ← pobjs (vars s) !! p; Some (sender_sent t p po m e s)
      | _ => None
      end
  | EPipeClose t =>
      match threads s !! t with
      | Some (PipeClose p) => Some (pipe_close t p s)
      | _ => None
      end
  | ECtxSetOption c name v => Some (snd (context_SetOption c name v s))
  | ECtxClose c => x ← ctxs (vars s) !! c; Some (snd (context_Close c x s))
  | ESetOption name v => Some (snd (SetOption name v s))
  | EClose order =>
      guard (NoDup order ∧ list_to_set order = contexts (vars s));; Some (snd (Close order s))
  | ECloseChan t =>
      match threads s !! t with
      | Some (CloseChan c) => Some (set_thread t Done (close_chan c s))
      | _ => None
      end
  | EOpenContext c => guard (ctxs (vars s) !! c = None);; Some (snd (OpenContext c s))
  | EAddPipe p id => guard (pobjs (vars s) !! p = None);; Some (AddPipe p id s)
  | EAddLock t =>
      match threads s !! t with
      | Some (AddLock p) => po ← pobjs (vars s) !! p; Some (AddPipe_locked t p po s)
      | _ => None
      end
  | ERemovePipe p =>
      po ← pobjs (vars s) !! p; guard (p ∉ removed (vars s));; Some (RemovePipe p po s)
  end.

Definition init (s : state) : Prop := s = NewProtocol.
Definition step : label event → state → option state := gstep ext.
Definition ok : state → label event → Prop := gok (λ _ _, True).

(** ** Ownership *)
Definition holding (th : thread) : list entry :=
  match th with
  | RecvEnd _ e => [e]
  | RecvRet (Ok m) | SendTry _ _ _ m _ _ | SendWait _ _ _ m _ _ | SendRet _ (Some m)
  | RecvLock _ m | RecvPut _ m _ _ _ | Sending _ m => [reply m]
  | _ => []
  end.

Ltac respondent_lia :=
  cbn; autorewrite with chan; unfold key, entry_keyed; cbn; repeat case_match; (lia || congruence).
Ltac respondent_count := let x := fresh "x" in intros x; respondent_lia.
Ltac respondent_accounting := split; [reflexivity..|cbn; by rewrite ?app_nil_r|respondent_count].

#[export] Instance respondent_owns : Owns (K := kind) (A := entry) (T := thread).
Proof.
  refine {| holds := holding |}.
  - intros th i o v x Hsel Hv.
    destruct th; try (destruct tq); cbn in Hsel; select_cases Hsel; cbn in *; subst;
      try (destruct v); try (destruct be); respondent_lia.
  - intros th x Hd. destruct th; try done; respondent_lia.
Defined.

(** ** What the channels carry *)

(** [m] is a request from pipe [p], its backtrace in the header. *)
Definition brought (σ : socket) (p : pid) (m : msg) : Prop :=
  ∃ m0 n, (p, m0) ∈ arrived σ ∧ rep_receive n m0 = Some m.
(** [bt] is the backtrace of some request from pipe [p]. *)
Definition asked (σ : socket) (p : pid) (bt : bytes) : Prop :=
  ∃ m, brought σ p m ∧ bt = mhdr m.
Definition known (σ : socket) (p : pid) : Prop := is_Some (pobjs σ !! p).

Definition ctype (σ : socket) (c : chid) (e : entry) : Prop :=
  match c.1 with
  | KSend p => asked σ p (mhdr (em e))
  | KRecv => ∃ p, ep e = Some p ∧ brought σ p (em e) ∧ known σ p
  | KSignal => False
  end.

Definition ttype (σ : socket) (th : thread) : Prop :=
  match th with
  | RecvTry _ rq _ _ _ | RecvWait _ rq _ _ _ => rq.1 = KRecv
  | RecvEnd _ e => ∃ p, ep e = Some p ∧ brought σ p (em e) ∧ known σ p
  | RecvRet (Ok m) => ∃ p m', brought σ p m' ∧ m = m' <| mhdr := [] |>
  | SendTry q _ _ m _ _ | SendWait q _ _ m _ _ => ctype σ q (reply m)
  | Receiver p | AddLock p => known σ p
  | RecvLock p m => brought σ p m ∧ known σ p
  | RecvPut p m rq _ _ => rq.1 = KRecv ∧ brought σ p m ∧ known σ p
  | Sender p q _ => q.1 = KSend p
  | Sending p m => asked σ p (mhdr m)
  | _ => True
  end.

Record vtype (σ : socket) : Prop := {
  vt_recvQ : (recvQ σ).1 = KRecv;
  vt_pobj p po : pobjs σ !! p = Some po → (p_sendQ po).1 = KSend p;
  vt_ctx c x bt : ctxs σ !! c = Some x → backtrace x = Some bt →
    ∃ p, recvPipe x = Some p ∧ known σ p ∧ asked σ p bt;
  vt_open c x : ctxs σ !! c = Some x → c_closed x = false → c ∈ contexts σ ∧ closed σ = false
}.

#[export] Instance respondent_typed : Typed (K := kind) (A := entry) (S := socket) (T := thread).
Proof.
  refine {| vars_type := vtype; chan_type := ctype; thread_type := λ σ _ th, ttype σ th |}.
  - intros σ t th i o v Hsel Hth Hv.
    destruct th; try (destruct tq); cbn in Hsel; select_cases Hsel; cbn in Hth;
      try (destruct v as [m'|]); try done; cbn.
    all: try (destruct be; naive_solver).
    all: try (unfold ctype in Hv; rewrite Hth in Hv; done).
    all: destruct Hth as (Hq & ? & ?); split_and!; try done.
    all: unfold ctype; rewrite Hq; by exists p.
  - intros σ t th Hd Hth. destruct th; done.
Defined.

(** The variables grow. *)
Record vle (σ σ' : socket) : Prop := {
  le_arr x : x ∈ arrived σ → x ∈ arrived σ';
  le_known p : known σ p → known σ' p
}.

Lemma respondent_brought_mono σ σ' p m : vle σ σ' → brought σ p m → brought σ' p m.
Proof. intros [Ha Hk] (m0 & n & ? & ?). exists m0, n. auto. Qed.
Lemma respondent_asked_mono σ σ' p bt : vle σ σ' → asked σ p bt → asked σ' p bt.
Proof. intros Hle (m & ? & ?). exists m. eauto using respondent_brought_mono. Qed.
Lemma respondent_ctype_mono σ σ' c e : vle σ σ' → ctype σ c e → ctype σ' c e.
Proof.
  intros Hle. unfold ctype. destruct (c.1); [done| |by apply respondent_asked_mono].
  intros (p & ? & ? & ?). exists p. split_and!; [done|by eapply respondent_brought_mono|by apply Hle].
Qed.
Lemma respondent_ttype_mono σ σ' th : vle σ σ' → ttype σ th → ttype σ' th.
Proof.
  intros Hle. pose proof (respondent_ctype_mono σ σ' (KRecv, 0)) as Hrecv.
  destruct th; simpl; try done; try (by apply respondent_ctype_mono); try (by apply Hle);
    try (by apply respondent_asked_mono).
  - by apply Hrecv.
  - destruct r; [|done]. intros (p & m' & ? & ?). exists p, m'. eauto using respondent_brought_mono.
  - intros [? ?]. split; [by eapply respondent_brought_mono|by apply Hle].
  - intros (? & ? & ?). split_and!; [done|by eapply respondent_brought_mono|by apply Hle].
Qed.

Lemma respondent_okstep_vle f (s : state) :
  vle (vars s) (f (vars s)) → (vtype (vars s) → vtype (f (vars s))) → okstep s (set_vars f s).
Proof.
  intros Hle Hv. apply okstep_vars; [done|..].
  - intros c a _. by apply respondent_ctype_mono.
  - intros t th _ _. by apply respondent_ttype_mono.
Qed.
Lemma respondent_vtype_mono σ σ' :
  vle σ σ' → (recvQ σ').1 = KRecv → pobjs σ' = pobjs σ → ctxs σ' = ctxs σ → contexts σ' = contexts σ →
  closed σ' = closed σ → vtype σ → vtype σ'.
Proof.
  intros Hle Er Ep Ec Es Ed [H1 H2 H3 H4]. split; rewrite ?Ep, ?Ec, ?Es, ?Ed; try done.
  intros c x bt Hc Hb. destruct (H3 c x bt Hc Hb) as (p & ? & ? & ?).
  exists p. split_and!; [done|by apply Hle|by eapply respondent_asked_mono].
Qed.
Lemma respondent_okstep_plain f (s : state) :
  (∀ σ, arrived (f σ) = arrived σ ∧ pobjs (f σ) = pobjs σ ∧
     recvQ (f σ) = recvQ σ ∧ ctxs (f σ) = ctxs σ ∧ contexts (f σ) = contexts σ ∧
     closed (f σ) = closed σ) → okstep s (set_vars f s).
Proof.
  intros Hf. destruct (Hf (vars s)) as (Ea & Ep & Er & Ec & Es & Ed).
  assert (vle (vars s) (f (vars s))) as Hle by (split; unfold known; by rewrite ?Ea, ?Ep).
  apply respondent_okstep_vle; [done|]. intros Hv.
  apply (respondent_vtype_mono (vars s)); try done. rewrite Er. apply Hv.
Qed.

(** A context keeps its backtrace and pipe, or loses the backtrace, or gets
    those of a survey. *)
Lemma respondent_okstep_upd_ctx c f (s : state) :
  (∀ x, c_closed (f x) = c_closed x) →
  (∀ x bt, ctxs (vars s) !! c = Some x → vtype (vars s) → backtrace (f x) = Some bt →
     (backtrace x = Some bt ∧ recvPipe (f x) = recvPipe x) ∨
     ∃ p, recvPipe (f x) = Some p ∧ known (vars s) p ∧ asked (vars s) p bt) →
  okstep s (upd_ctx c f s).
Proof.
  intros Hcl Hf. apply respondent_okstep_vle; [by split|]. intros Hv. pose proof Hv as [H1 H2 H3 H4].
  split; simpl; [done|done|..]; intros c' x.
  - intros bt. rewrite lookup_alter. case_decide; [|by eauto].
    subst. intros (x0 & Hx0 & ->)%fmap_Some Hb.
    destruct (Hf x0 bt Hx0 Hv Hb) as [[Hb0 ->]|?]; [by eapply H3|done].
  - rewrite lookup_alter. case_decide; [|by eauto].
    subst. intros (x0 & Hx0 & ->)%fmap_Some. rewrite Hcl. by eauto.
Qed.
Lemma respondent_okstep_upd_ctx_same c f (s : state) :
  (∀ x, backtrace (f x) = backtrace x ∧ recvPipe (f x) = recvPipe x ∧ c_closed (f x) = c_closed x) →
  okstep s (upd_ctx c f s).
Proof.
  intros Hf. apply respondent_okstep_upd_ctx; [apply Hf|].
  intros x bt _ _. destruct (Hf x) as (-> & -> & _). by left.
Qed.

(** ** The critical sections keep everything *)
Lemma respondent_okstep_RecvMsg_top t c x s :
  typed s → threads s !! t = Some (RecvTop c) → okstep s (RecvMsg_top t c x s).
Proof.
  intros Hty Ht. unfold RecvMsg_top. case_match; [by eapply okstep_stop|].
  etrans; [by apply (respondent_okstep_upd_ctx c (λ x, x <| backtrace := None |> <| recvPipe := None |>))|].
  eapply okstep_stop; [done|done|]. intros _. by destruct (ty_vars _ Hty).
Qed.

Lemma respondent_okstep_RecvMsg_end t c e s :
  typed s → threads s !! t = Some (RecvEnd c e) → okstep s (RecvMsg_end t c e s).
Proof.
  intros Hty Ht. destruct (ty_thread _ Hty _ _ Ht) as (p & Hp & Hb & Hk). unfold RecvMsg_end.
  set (f := λ x : context, x <| recvPipe := _ |> <| backtrace := _ |>).
  etrans; [apply (respondent_okstep_upd_ctx c f); [done|]|].
  - intros x bt _ _ Heq. right. exists p. simpl in Heq. injection Heq as <-.
    split_and!; [done|done|]. by exists (em e).
  - eapply okstep_set_thread; [done|respondent_count|]. intros _. by exists p, (em e).
Qed.

Lemma respondent_okstep_SendMsg c x m s :
  wf s → typed s → ctxs (vars s) !! c = Some x → okstep s (SendMsg c x m s).
Proof.
  intros Hwf Hty Hx. unfold SendMsg. change (vars (give [reply m] s)) with (vars s).
  case_match; [apply (okstep_spawn _ [reply m]); [done|respondent_accounting|done]|].
  destruct (backtrace x) as [bt|] eqn:Hb;
    [|apply (okstep_spawn _ [reply m]); [done|respondent_accounting|done]].
  destruct (ty_vars _ Hty) as [_ Hq Hc _]. destruct (Hc c x bt Hx Hb) as (p & Hp & [po Hpo] & Ha).
  set (f := λ x : context, x <| recvPipe := None |> <| backtrace := None |>).
  change (upd_ctx c f (give [reply m] s)) with (give [reply m] (upd_ctx c f s)).
  assert (okstep s (upd_ctx c f s)) as Hok by (by apply respondent_okstep_upd_ctx).
  change (pobjs (vars (give [reply m] (upd_ctx c f s)))) with (pobjs (vars s)).
  rewrite Hp. simpl. rewrite Hpo. etrans; [exact Hok|].
  apply (okstep_spawn _ [reply m]); [by apply Hok|respondent_accounting|]. intros _. simpl.
  unfold ctype. rewrite (Hq _ _ Hpo). simpl. by eapply (respondent_asked_mono (vars s)).
Qed.

(** [SendMsg] dereferences the pipe of the request safely. *)
Lemma respondent_SendMsg_crashed c x m s :
  typed s → ctxs (vars s) !! c = Some x → crashed (SendMsg c x m s) = crashed s.
Proof.
  intros Hty Hx. unfold SendMsg. change (vars (give [reply m] s)) with (vars s).
  case_match; [done|]. destruct (backtrace x) as [bt|] eqn:Hb; [|done].
  destruct (ty_vars _ Hty) as [_ Hq Hc _]. destruct (Hc c x bt Hx Hb) as (p & Hp & [po Hpo] & Ha).
  rewrite Hp. simpl. by rewrite Hpo.
Qed.

Lemma respondent_okstep_receiver_turn t p m s :
  typed s → threads s !! t = Some (Receiver p) → okstep s (receiver_turn t p m s).
Proof.
  intros Hty Ht. pose proof (ty_thread _ Hty _ _ Ht) as Hk. simpl in Hk. unfold receiver_turn.
  set (f := λ σ : socket, σ <| arrived ::= (λ l, l ++ [(p, m)]) |>).
  change (set_vars f (give [reply m] s)) with (give [reply m] (set_vars f s)).
  assert (vle (vars s) (f (vars s))) as Hle by (split; [simpl; set_solver|done]).
  assert (okstep s (set_vars f s)) as Hok.
  { apply respondent_okstep_vle; [done|]. intros Hv.
    apply (respondent_vtype_mono (vars s)); try done. apply Hv. }
  assert ((p, m) ∈ arrived (vars (set_vars f s))) as Hm by (simpl; set_solver).
  assert (threads (set_vars f s) !! t = Some (Receiver p)) as Ht1 by done.
  assert (known (vars (set_vars f s)) p) as Hk1 by done.
  revert Hok Hm Ht1 Hk1. generalize (set_vars f s) as s1. clear - p. intros s1 Hok Hm Ht1 Hk1.
  etrans; [exact Hok|]. clear Hok. change (vars (give [reply m] s1)) with (vars s1).
  destruct (rep_receive _ m) as [m'|] eqn:Hr; [|apply (okstep_account [reply m]); respondent_accounting].
  assert (mref m' = mref m) as Href.
  { unfold rep_receive in Hr. rewrite rep_walk_spec in Hr by (simpl; lia).
    apply bind_Some in Hr as ([? ?] & _ & [= <-]). done. }
  apply (okstep_goto t (Receiver p) _ [reply m]); [done| |].
  - split; [reflexivity..|done|]. respondent_count.
  - intros _. split; [|done]. by exists m, (ttl (vars s1)).
Qed.

(** A context that closes loses nothing but its right to stay open. *)
Lemma respondent_okstep_ctx_close c s : okstep s (ctx_close c s).
Proof.
  unfold ctx_close. destruct (ctxs (vars s) !! c) as [x|] eqn:Hx; [|reflexivity].
  destruct (c_closed x) eqn:Hcl; [reflexivity|].
  set (f := λ σ : socket, σ <| contexts ::= (λ cs, cs ∖ {[c]}) |> <| ctxs ::= alter (λ x, x <| c_closed := true |>) c |>).
  change (upd_ctx _ _ _) with (set_vars f s).
  etrans; [apply (respondent_okstep_vle f); [by split|]|apply okstep_close_chan].
  intros [H1 H2 H3 H4]. split; simpl; [done|done|..]; intros c' x'.
  - intros bt. rewrite lookup_alter. case_decide; [|by eauto].
    subst. intros (x0 & Hx0 & ->)%fmap_Some Hb. exact (H3 _ _ _ Hx0 Hb).
  - rewrite lookup_alter. case_decide as Hc.
    + subst. by intros (x0 & _ & ->)%fmap_Some.
    + intros Hx' Ho. destruct (H4 _ _ Hx' Ho). split; [set_solver|done].
Qed.
Lemma respondent_okstep_ctx_closes l s : okstep s (foldl (λ s c, ctx_close c s) s l).
Proof.
  revert s. induction l as [|c l IH]; intros s; simpl; [reflexivity|].
  etrans; [apply respondent_okstep_ctx_close|apply IH].
Qed.

Lemma ctx_close_ctxs c s c' x :
  ctxs (vars (ctx_close c s)) !! c' = Some x → c_closed x = false →
  c' ≠ c ∧ ctxs (vars s) !! c' = Some x.
Proof.
  unfold ctx_close. destruct (ctxs (vars s) !! c) as [x0|] eqn:Hx0.
  - destruct (c_closed x0) eqn:Hcl; [intros Hx Ho; split; [intros ->; congruence|done]|].
    rewrite vars_close_chan. cbn. rewrite lookup_alter. case_decide; [|done].
    intros (y & _ & ->)%fmap_Some. done.
  - intros Hx Ho. split; [congruence|done].
Qed.
Lemma ctx_closes_ctxs l s c x :
  ctxs (vars (foldl (λ s c, ctx_close c s) s l)) !! c = Some x → c_closed x = false →
  c ∉ l ∧ ctxs (vars s) !! c = Some x.
Proof.
  revert s. induction l as [|c0 l IH]; intros s; simpl; [by split; [set_solver|]|].
  intros Hx Ho. destruct (IH _ Hx Ho) as [? Hx1]. destruct (ctx_close_ctxs _ _ _ _ Hx1 Ho).
  split; [set_solver|done].
Qed.

(** Setting [closed] last leads to the same state. *)
Lemma close_chan_set_vars f c (s : state) : close_chan c (set_vars f s) = set_vars f (close_chan c s).
Proof. unfold close_chan. cbn. by repeat case_match. Qed.
Lemma ctx_close_closed c s :
  ctx_close c (set_vars (λ σ, σ <| closed := true |>) s) =
  set_vars (λ σ, σ <| closed := true |>) (ctx_close c s).
Proof.
  unfold ctx_close. change (ctxs (vars (set_vars _ s))) with (ctxs (vars s)).
  destruct (ctxs (vars s) !! c) as [x|]; [|done]. destruct (c_closed x); [done|].
  by rewrite <-close_chan_set_vars.
Qed.
Lemma ctx_closes_closed l s :
  foldl (λ s c, ctx_close c s) (set_vars (λ σ, σ <| closed := true |>) s) l =
  set_vars (λ σ, σ <| closed := true |>) (foldl (λ s c, ctx_close c s) s l).
Proof. revert s. induction l as [|c l IH]; intros s; simpl; [done|]. by rewrite ctx_close_closed, IH. Qed.

Lemma respondent_okstep_Close order s :
  typed s → list_to_set order = contexts (vars s) → okstep s (snd (Close order s)).
Proof.
  intros Hty Hord. unfold Close. destruct (closed (vars s)); [reflexivity|]. cbn [snd].
  change (s_closeQ (vars _)) with (s_closeQ (vars s)).
  rewrite close_chan_set_vars, ctx_closes_closed.
  etrans; [apply (okstep_close_chan (s_closeQ (vars s)))|].
  etrans; [apply (respondent_okstep_ctx_closes order)|].
  apply respondent_okstep_vle; [by split|]. intros [H1 H2 H3 H4]. split; simpl; [done..|].
  intros c x Hx Ho. destruct (ctx_closes_ctxs _ _ _ _ Hx Ho) as [Hn Hx0].
  rewrite vars_close_chan in Hx0. destruct (vt_open _ (ty_vars _ Hty) _ _ Hx0 Ho) as [Hin _].
  destruct Hn. set_solver.
Qed.

Lemma respondent_okstep_context_SetOption c name v s : okstep s (snd (context_SetOption c name v s)).
Proof.
  unfold context_SetOption.
  do 3 (destruct (String.eqb name _);
    [destruct v; try reflexivity; by apply respondent_okstep_upd_ctx_same|]).
  reflexivity.
Qed.

Lemma respondent_okstep_resize z s : wf s → okstep s (resize z s).
Proof.
  intros Hwf. unfold resize.
  destruct (make_chan KRecv _ s) as [q s1] eqn:E1.
  destruct (okstep_make_chan _ _ _ _ _ Hwf E1) as (Hok1 & Hwf1 & -> & _ & _).
  destruct (make_chan KSignal _ s1) as [zq s2] eqn:E2.
  destruct (okstep_make_chan _ _ _ _ _ Hwf1 E2) as (Hok2 & Hwf2 & -> & _ & _).
  etrans; [exact Hok1|]. etrans; [exact Hok2|].
  set (f := λ σ : socket, σ <| sizeQ := _ |> <| recvQ := _ |> <| recvQLen := _ |>).
  etrans; [apply (respondent_okstep_vle f); [by split|]|by apply okstep_go; [apply wf_vars|..]].
  by apply respondent_vtype_mono.
Qed.

Lemma respondent_okstep_SetOption name v s : wf s → okstep s (snd (SetOption name v s)).
Proof.
  intros Hwf. unfold SetOption.
  do 3 (destruct (String.eqb name _); [destruct v; try case_match; try reflexivity;
    try (by apply respondent_okstep_plain); by apply respondent_okstep_resize|]).
  apply respondent_okstep_context_SetOption.
Qed.

Lemma respondent_okstep_OpenContext c s : wf s → okstep s (snd (OpenContext c s)).
Proof.
  intros Hwf. unfold OpenContext. destruct (closed (vars s)) eqn:Hcl; [reflexivity|].
  destruct (make_chan KSignal _ s) as [cq s1] eqn:E1.
  destruct (okstep_make_chan _ _ _ _ _ Hwf E1) as (Hok1 & Hwf1 & _ & Hv1 & _).
  etrans; [exact Hok1|]. apply respondent_okstep_vle; [by split|]. intros [H1 H2 H3 H4].
  split; simpl; [done|done|..]; intros c' x.
  - intros bt. rewrite lookup_insert. case_decide; [by intros [= <-]|by eauto].
  - rewrite lookup_insert. case_decide as Hc.
    + intros [= <-] _. rewrite Hv1. split; [set_solver|done].
    + intros Hx Ho. destruct (H4 _ _ Hx Ho). split; [set_solver|done].
Qed.

Lemma respondent_okstep_AddPipe p id s :
  wf s → pobjs (vars s) !! p = None → okstep s (AddPipe p id s).
Proof.
  intros Hwf Hp. unfold AddPipe.
  destruct (make_chan (KSend p) _ s) as [q s1] eqn:E1.
  destruct (okstep_make_chan _ _ _ _ _ Hwf E1) as (Hok1 & Hwf1 & -> & _ & _).
  destruct (make_chan KSignal _ s1) as [cq s2] eqn:E2.
  destruct (okstep_make_chan _ _ _ _ _ Hwf1 E2) as (Hok2 & Hwf2 & -> & _ & _).
  etrans; [exact Hok1|]. etrans; [exact Hok2|]. set (po := mkPipe id _ _).
  set (s3 := set_vars (λ σ, σ <| pobjs ::= <[p := po]> |>) s2).
  assert (vle (vars s2) (vars s3)) as Hle.
  { split; [done|]. intros p'. unfold known. simpl. rewrite lookup_insert_is_Some'. by right. }
  assert (okstep s2 s3) as Hok3.
  { apply respondent_okstep_vle; [done|]. intros [H1 H2 H3 H4]. split; simpl; [done|..|done].
    - intros p' po'. rewrite lookup_insert. case_decide; [|by eauto]. intros [= <-]. by subst.
    - intros c x bt Hc Hb. destruct (H3 c x bt Hc Hb) as (p' & ? & ? & ?).
      exists p'. split_and!; [done|by apply Hle|by eapply (respondent_asked_mono (vars s2))]. }
  etrans; [exact Hok3|]. apply okstep_go; [by apply Hok3|done|]. intros _. simpl.
  unfold known. simpl. rewrite lookup_insert_eq. eauto.
Qed.
Lemma respondent_okstep_AddPipe_locked t p po s :
  wf s → typed s → threads s !! t = Some (AddLock p) → pobjs (vars s) !! p = Some po →
  okstep s (AddPipe_locked t p po s).
Proof.
  intros Hwf Hty Ht Hpo. unfold AddPipe_locked. case_match; [by eapply okstep_stop|].
  assert (okstep s (set_thread t (AddRet None) s)) as Hok by by eapply okstep_stop.
  etrans; [exact Hok|]. assert (wf (set_thread t (AddRet None) s)) as Hwf1 by by apply Hok.
  etrans; [apply (okstep_go (Sender p (p_sendQ po) (p_closeQ po))); [done|done|]|].
  - intros _. by apply (vt_pobj _ (ty_vars _ Hty)).
  - apply okstep_go; [by apply wf_go|done|]. intros _. simpl. unfold known. by rewrite Hpo.
Qed.

#[export] Instance respondent_ok : ExtOk ext.
Proof.
  intros e s s' Hwf Hty. destruct e; cbn [ext].
  - intros [_ [= <-]]%guard_bind_Some. by apply okstep_go.
  - destruct (threads s !! t) as [[]|] eqn:Ht; try done. intros Hs.
    apply bind_Some in Hs as (x & _ & [= <-]). by apply respondent_okstep_RecvMsg_top.
  - destruct (threads s !! t) as [[]|] eqn:Ht; try done. intros [= <-].
    by apply respondent_okstep_RecvMsg_end.
  - intros Hs. apply bind_Some in Hs as (x & Hx & [_ [= <-]]%guard_bind_Some).
    by apply respondent_okstep_SendMsg.
  - destruct (threads s !! t) as [[]|] eqn:Ht; try done. intros Hs.
    apply bind_Some in Hs as (po & Hpo & [_ [= <-]]%guard_bind_Some).
    by apply respondent_okstep_receiver_turn.
  - destruct (threads s !! t) as [[]|] eqn:Ht; try done. intros [= <-].
    eapply okstep_set_thread; [done|respondent_count|done].
  - destruct (threads s !! t) as [[]|] eqn:Ht; try done. intros [= <-].
    eapply okstep_set_thread; [done|respondent_count|]. intros _.
    destruct (ty_thread _ Hty _ _ Ht) as [Hb Hk].
    split; [apply (vt_recvQ _ (ty_vars _ Hty))|done].
  - destruct (threads s !! t) as [[]|] eqn:Ht; try done. intros Hs.
    apply bind_Some in Hs as (po & Hpo & [= <-]). unfold sender_sent. destruct e as [e|].
    + eapply okstep_set_thread; [done|respondent_count|done].
    + eapply (okstep_goto t _ _ []); [done|respondent_accounting|].
      intros _. by apply (vt_pobj _ (ty_vars _ Hty)).
  - destruct (threads s !! t) as [[]|] eqn:Ht; try done. intros [= <-]. unfold pipe_close.
    etrans; [by apply (respondent_okstep_plain (λ σ, σ <| pclosed ::= (λ x, {[p]} ∪ x) |>))|].
    by eapply okstep_stop.
  - intros [= <-]. apply respondent_okstep_context_SetOption.
  - intros Hs. apply bind_Some in Hs as (x & _ & [= <-]). unfold context_Close.
    case_match; [reflexivity|apply respondent_okstep_ctx_close].
  - intros [= <-]. by apply respondent_okstep_SetOption.
  - intros [[_ ?] [= <-]]%guard_bind_Some. by apply respondent_okstep_Close.
  - destruct (threads s !! t) as [[]|] eqn:Ht; try done. intros [= <-].
    etrans; [apply okstep_close_chan|].
    eapply okstep_stop; [by rewrite threads_close_chan|done|done].
  - intros [_ [= <-]]%guard_bind_Some. by apply respondent_okstep_OpenContext.
  - intros [? [= <-]]%guard_bind_Some. by apply respondent_okstep_AddPipe.
  - destruct (threads s !! t) as [[]|] eqn:Ht; try done. intros Hs.
    apply bind_Some in Hs as (po & Hpo & [= <-]). by apply respondent_okstep_AddPipe_locked.
  - intros Hs. apply bind_Some in Hs as (po & Hpo & [_ [= <-]]%guard_bind_Some). unfold RemovePipe.
    etrans; [by apply (respondent_okstep_plain (λ σ, σ <| removed ::= (λ x, {[p]} ∪ x) |>))|].
    apply okstep_close_chan.
Qed.

Lemma respondent_init_good s : init s → good s.
Proof.
  intros ->. start_good.
  split; simpl; [done|done|..]; intros c x; [intros bt|]; intros [<- <-]%lookup_singleton_Some; set_solver.
Qed.

Lemma reachable_respondent s : reachable step init ok s → good s.
Proof. eapply reachable_good; [apply _|apply respondent_init_good]. Qed.

(** C35. A RESPONDENT answers where it was asked, for every interleaving of
    contexts, pipes and goroutines, with resizes at any time: a message that
    goes to the transport of a pipe carries the backtrace of a survey that
    arrived on that pipe; what [RecvMsg] returns is the body of a survey that
    arrived; [SendMsg] never follows a nil pipe; and when the socket is closed
    so are all its contexts, those opened meanwhile included. *)
Theorem respondent_answers s (H : reachable step init ok s) :
  (∀ t p m, threads s !! t = Some (Sending p m) →
     ∃ m0 n m1, (p, m0) ∈ arrived (vars s) ∧ rep_receive n m0 = Some m1 ∧ mhdr m = mhdr m1) ∧
  (∀ t m, threads s !! t = Some (RecvRet (Ok m)) →
     ∃ p m0 n m1, (p, m0) ∈ arrived (vars s) ∧ rep_receive n m0 = Some m1 ∧
       m = m1 <| mhdr := [] |>) ∧
  (∀ c x m, ctxs (vars s) !! c = Some x → crashed (SendMsg c x m s) = crashed s) ∧
  (∀ c x, closed (vars s) = true → ctxs (vars s) !! c = Some x → c_closed x = true).
Proof.
  destruct (reachable_respondent s H) as [_ _ Hty]. split_and!.
  - intros t p m Hth. destruct (ty_thread _ Hty _ _ Hth) as (m1 & (m0 & n & ? & ?) & ?).
    by exists m0, n, m1.
  - intros t m Hth. destruct (ty_thread _ Hty _ _ Hth) as (p & m1 & (m0 & n & ? & ?) & ?).
    by exists p, m0, n, m1.
  - intros c x m Hc. by apply respondent_SendMsg_crashed.
  - intros c x Hcl Hc. destruct (c_closed x) eqn:Ho; [done|].
    destruct (vt_open _ (ty_vars _ Hty) _ _ Hc Ho). congruence.
Qed.

(** One survey and its response, then the socket closes. *)
Definition respondent_run : state :=
  play step (λ _ _, true)
    [LExt (EOpenContext 1); LExt (EAddPipe 0 7); LExt (EAddLock 7);
     LExt (EPipeRecv 9 (mkMsg [] (put_uint32 0x80000001 ++ [Byte.x61]) (Some 7%Z) 0));
     LExt (ERecvLock 9); LCase 9 1 None; LExt (ERecv 1); LExt (ERecvTop 10); LCase 10 0 None;
     LExt (ERecvEnd 10); LExt (ESend 1 (mkMsg [] [Byte.x62] None 1)); LCase 11 0 (Some (8, 0));
     LExt (EClose [0; 1])] NewProtocol.

Lemma respondent_answers_witness :
  threads respondent_run !! 8 = Some (Sending 0 (mkMsg (put_uint32 0x80000001) [Byte.x62] None 1)) ∧
  threads respondent_run !! 10 = Some (RecvRet (Ok (mkMsg [] [Byte.x61] (Some 7%Z) 0))) ∧
  closed (vars respondent_run) = true ∧
  ∃ m0 n m1, (0, m0) ∈ arrived (vars respondent_run) ∧ rep_receive n m0 = Some m1 ∧
    put_uint32 0x80000001 = mhdr m1.
Proof.
  assert (reachable step init ok respondent_run) as Hr by (by apply play_reachable; [intros ? []|]).
  split; [by vm_compute|]. split; [by vm_compute|]. split; [by vm_compute|].
  apply (proj1 (respondent_answers respondent_run Hr) 8 0 (mkMsg (put_uint32 0x80000001) [Byte.x62] None 1)).
  by vm_compute.
Defined.
