(* ===== verification/Protocol.v ===== *)
(** * Protocol: what a protocol promises to the core socket

    [mangos.ProtocolBase] of [src/protocol.go] as a type class: the calls the
    core makes, what the protocol's own goroutines do in between, and the law
    on which [socket.Close] of [src/internal/core/socket.go] relies: a
    protocol that has been closed stays closed and refuses pipes.  [Socket] is
    proved against this interface; [XPair] implements it here. *)
From stdpp Require Import gmap list strings fin_maps.
From Stdlib Require Import ZArith Lia.
From S2P Require Import Prelude Types Chan XPair.

(** [p_step] is everything that happens in the protocol between the calls. *)
Class ProtocolBase (P : Type) := {
  p_event : Type;
  p_step : p_event → P → option P;
  p_AddPipe : nat → Z → P → error * P;
  p_RemovePipe : nat → P → P;
  p_Close : P → error * P;
  p_SetOption : string → value → P → error * P;
  p_GetOption : string → P → result value;
  p_Info : ProtocolInfo;
  p_closed : P → bool
}.
Class ProtocolLaws (P : Type) `{ProtocolBase P} := {
  p_Close_closed p : p_closed (p_Close p).2 = true;
  p_step_closed e p p' : p_step e p = Some p' → p_closed p = true → p_closed p' = true;
  p_AddPipe_closed k i p : p_closed p = true →
    (p_AddPipe k i p).1 ≠ None ∧ p_closed (p_AddPipe k i p).2 = true;
  p_RemovePipe_closed k p : p_closed p = true → p_closed (p_RemovePipe k p) = true;
  p_SetOption_closed n v p : p_closed p = true → p_closed (p_SetOption n v p).2 = true
}.
#[global] Hint Mode ProtocolBase ! : typeclass_instances.
#[global] Hint Mode ProtocolLaws ! - : typeclass_instances.

(** ** PAIR implements it *)
Module PairProtocol.

(** The calls that come from the core are not events of the protocol. *)
Definition from_core (l : label XPair.event) : bool :=
  match l with
  | LExt (XPair.ESetOption _ _ | XPair.EClose | XPair.EAddPipe _ | XPair.ERemovePipe _) => true
  | _ => false
  end.

#[export] Instance pair_base : ProtocolBase XPair.state := {|
  p_event := label XPair.event;
  p_step l s := if from_core l then None else XPair.step l s;
  p_AddPipe k _ s := XPair.AddPipe k s;
  p_RemovePipe := XPair.RemovePipe;
  p_Close := XPair.Close;
  p_SetOption := XPair.SetOption;
  p_GetOption n s := XPair.GetOption n (vars s);
  p_Info := XPair.Info;
  p_closed s := XPair.closed (vars s)
|}.

Lemma resize_closed k f z s :
  (∀ q σ, XPair.closed (f q σ) = XPair.closed σ) →
  XPair.closed (vars (XPair.resize k f z s)) = XPair.closed (vars s).
Proof. intros Hf. unfold XPair.resize. cbn. apply Hf. Qed.
Lemma SetOption_closed n v s :
  XPair.closed (vars (XPair.SetOption n v s).2) = XPair.closed (vars s).
Proof. unfold XPair.SetOption. repeat case_match; try done; by apply resize_closed. Qed.

Lemma vars_gstep_ext e s s' :
  from_core (LExt e) = false → XPair.ext e s = Some s' →
  XPair.closed (vars s') = XPair.closed (vars s).
Proof.
  intros Hc. destruct e; try done; cbn [XPair.ext]; clear Hc.
  - intros [_ [= <-]]%guard_bind_Some. unfold XPair.SendMsg. by repeat case_match.
  - by intros [= <-].
  - repeat case_match; try done. by intros [= <-].
  - repeat case_match; try done. intros Hs.
    apply bind_Some in Hs as (po & _ & [_ [= <-]]%guard_bind_Some).
    unfold XPair.receiver_turn. by repeat case_match.
  - repeat case_match; try done. by intros [= <-].
  - repeat case_match; try done. intros Hs. by apply bind_Some in Hs as (po & _ & [= <-]).
  - repeat case_match; try done. intros [= <-]. unfold XPair.sender_sent. by case_match.
  - repeat case_match; try done. by intros [= <-].
  - repeat case_match; try done. intros [= <-]. cbn. by rewrite vars_close_chan.
Qed.

#[export] Instance pair_laws : ProtocolLaws XPair.state.
Proof.
  split; cbn.
  - intros s. unfold XPair.Close. by destruct (XPair.closed (vars s)) eqn:E.
  - intros l s s'. destruct (from_core l) eqn:Hc; [done|]. intros [_ Hs]%guard_bind_Some <-.
    destruct l as [t i r|t|e]; [..|by apply (vars_gstep_ext e)].
    + apply bind_Some in Hs as (th & _ & Hs). by rewrite (vars_do_case _ _ _ _ _ (do_case_done _ _ _ _ _ _ Hs)).
    + apply bind_Some in Hs as (th & _ & [_ Hs]%guard_bind_Some). apply (inj Some) in Hs. subst s'.
      unfold resume_thread. by case_match.
  - intros k _ s Hc. unfold XPair.AddPipe. by rewrite Hc.
  - intros k s Hc. unfold XPair.RemovePipe. repeat case_match; try done. by rewrite vars_close_chan.
  - intros n v s Hc. by rewrite SetOption_closed.
Qed.
End PairProtocol.
