(* ===== verification/Socket.v ===== *)
(** * Socket: the core socket with its dialers and listeners

    [src/internal/core/socket.go], [dialer.go] and [listener.go], on top of
    the pipes of [Core] and any protocol that implements [ProtocolBase].  A
    label is a call, or one stretch of a goroutine between two locks or
    blocking calls; [goros] holds the goroutines, [timers] the redial timers
    that are armed.  What a transport answers is an argument of the step, for
    the transports' code is elsewhere.  The field [quit] of a dialer records
    why it stopped for good. *)
From stdpp Require Import gmap list strings fin_maps.
From Stdlib Require Import ZArith Lia.
From S2P Require Import Prelude Types PipeIDs Core Protocol.

Abbreviation did := nat.
Abbreviation lid := nat.

(** Why a dialer makes no more attempts: it was closed, its transport says
    that it is, or its first attempt, which is not repeated, failed. *)
Inductive reason := WasClosed | TranClosed | FirstFailed.

(** [dialer]; nothing reads its field [closeq]. *)
Record tdialer := mkDialer {
  d_closed : bool;
  d_active : bool;
  asynch : bool;
  redialer : option nat;
  reconnTime : Z;
  reconnMinTime : Z;
  reconnMaxTime : Z;
  reconnBackoffOnClose : bool;
  quit : option reason
}.
#[export] Instance eta_tdialer : Eta tdialer := λ d,
  mkDialer (d_closed d) (d_active d) (asynch d) (redialer d) (reconnTime d) (reconnMinTime d)
    (reconnMaxTime d) (reconnBackoffOnClose d) (quit d).

Record tlistener := mkListener { l_closed : bool; l_active : bool }.
#[export] Instance eta_tlistener : Eta tlistener := λ l, mkListener (l_closed l) (l_active l).

(** A transport: what its constructors and option calls answer. *)
Record transport := mkTransport {
  t_NewDialer : string → error;
  t_NewListener : string → error;
  t_SetOption : string → value → error
}.

(** Goroutines and calls in progress. *)
Inductive goro :=
  | DialEnter (d : did) (again : bool)       (* dial, before d.Lock() *)
  | DialWait (d : did) (again : bool)        (* in d.d.Dial() *)
  | Redial (d : did) (backoff : bool) (e : error)   (* redial, before d.Lock() *)
  | PipeConnected (d : did)
  | PipeClosed (d : did)
  | ListenWait (l : lid)                     (* in l.l.Listen() *)
  | Serve (l : lid)                          (* the top of its loop *)
  | Accepting (l : lid)                      (* in l.l.Accept() *)
  | Adding (k : nat) (l : option lid)        (* in s.addPipe, for a dialer or listener *)
  | ClosePipe (k : nat)                      (* p.close() *)
  | Closing (ls : list lid) (ds : list did)  (* socket.Close, its two loops *)
  | ClosingPipes (e : error)                 (* ... before s.pipes.CloseAll() *)
  | Ret (e : error).

Section Socket.
Context {P : Type} `{!ProtocolBase P}.

Record sock := mkSock {
  proto : P;
  core : Core.core;
  closed : bool;
  s_reconnMinTime : Z;
  s_reconnMaxTime : Z;
  s_reconnBackoffOnClose : bool;
  maxRxSize : Z;
  dialAsynch : bool;
  listeners : list lid;
  dialers : list did;
  dlrs : gmap did tdialer;     (* all dialers handed out *)
  lsns : gmap lid tlistener;
  goros : gmap nat goro;
  nextg : nat;
  timers : gmap nat (did * Z); (* the armed redial timers, with the delay they are set to *)
  nextt : nat;
  swept : bool                 (* some Close has run CloseAll *)
}.
#[export] Instance eta_sock : Eta sock := λ s,
  mkSock (proto s) (core s) (closed s) (s_reconnMinTime s) (s_reconnMaxTime s)
    (s_reconnBackoffOnClose s) (maxRxSize s) (dialAsynch s) (listeners s) (dialers s) (dlrs s)
    (lsns s) (goros s) (nextg s) (timers s) (nextt s) (swept s).

Definition defaultMaxRxSize : Z := 1024 * 1024.
Definition defaultReconnMinTime : Z := 100000000.
Definition defaultReconnMaxTime : Z := 0.

Definition newSocket (p : P) (a : pipeIDAllocator) : sock :=
  mkSock p (core0 a) false defaultReconnMinTime defaultReconnMaxTime false defaultMaxRxSize false
    [] [] ∅ ∅ ∅ 0 ∅ 0 false.

Definition go (g : goro) (s : sock) : sock :=
  s <| goros ::= <[nextg s := g]> |> <| nextg ::= S |>.
Definition goto (t : nat) (g : goro) (s : sock) : sock := s <| goros ::= <[t := g]> |>.
Definition set_dialer (d : did) (x : tdialer) (s : sock) : sock := s <| dlrs ::= <[d := x]> |>.
Definition set_listener (l : lid) (x : tlistener) (s : sock) : sock :=
  s <| lsns ::= <[l := x]> |>.

(** ** Pipes *)

(** A step of [Core], with the goroutines [pipeConnected] and [pipeClosed]
    that it starts. *)
Definition note (n : did * bool) : goro := if n.2 then PipeConnected n.1 else PipeClosed n.1.
Definition core_do (cl : clabel) (s : sock) : option sock :=
  c ← cstep cl (core s);
  Some (foldl (λ s n, go (note n) s) (s <| core := c |>)
    (drop (length (notified (core s))) (notified c))).

(** [addPipe], the section under [p.lock], with the protocol's answer; a pipe
    that is refused gets closed by a goroutine of its own. *)
Definition attach (k : nat) (s : sock) : option sock :=
  p ← cpipes (core s) !! k;
  if Core.closing p then core_do (LAttach k None) s
  else
    let '(e, pr) := p_AddPipe k (id p) (proto s) in
    s ← core_do (LAttach k e) (s <| proto := pr |>);
    Some (match e with Some _ => go (ClosePipe k) s | None => s end).

(** [pipe.Close], the section under [p.lock]. *)
Definition close_locked (k : nat) (s : sock) : option sock :=
  p ← cpipes (core s) !! k;
  core_do (LCloseLocked k) (if added p then s <| proto ::= p_RemovePipe k |> else s).

(** A goroutine that calls [p.close()]; every call after the first does
    nothing. *)
Definition close_pipe (t k : nat) (s : sock) : option sock :=
  p ← cpipes (core s) !! k;
  let s := goto t (Ret None) s in
  if once p then Some s else core_do (LClose k) s.

(** [pipe.SendMsg] and [RecvMsg]: when the transport fails, the pipe gets
    closed.  [te] and [m] are what the transport brings. *)
Definition pipe_SendMsg (k : nat) (te : error) (s : sock) : error * sock :=
  match te with
  | Some e => (Some e, go (ClosePipe k) s)
  | None => (None, s)
  end.
Definition pipe_RecvMsg {M} (k : nat) (m : option M) (s : sock) : option M * sock :=
  match m with
  | Some m => (Some m, s)
  | None => (None, go (ClosePipe k) s)
  end.

(** ** Dialers *)

(** [dialer.Dial]. *)
Definition dialer_Dial (d : did) (x : tdialer) (s : sock) : sock :=
  if d_active x then go (Ret (Some ErrAddrInUse)) s
  else if d_closed x then go (Ret (Some ErrClosed)) s
  else
    let x := x <| d_active := true |> <| reconnTime := reconnMinTime x |> in
    let s := set_dialer d x s in
    if asynch x then go (Ret None) (go (DialEnter d true) s) else go (DialEnter d false) s.

(** [dialer.dial], before and after it calls the transport. *)
Definition dial_enter (t : nat) (d : did) (again : bool) (x : tdialer) (s : sock) : sock :=
  if d_closed x then
    set_dialer d (x <| quit := Some WasClosed |>) (goto t (Ret (Some ErrClosed)) s)
  else goto t (DialWait d (again || asynch x)) s.
Definition dial_failed (t : nat) (d : did) (again : bool) (x : tdialer) (e : err) (s : sock) : sock :=
  if negb again then
    set_dialer d (x <| quit := Some FirstFailed |>) (goto t (Ret (Some e)) s)
  else if decide (e = ErrClosed) then
    set_dialer d (x <| quit := Some TranClosed |>) (goto t (Ret (Some e)) s)
  else goto t (Redial d true (Some e)) s.
Definition dial_connected (t k : nat) (d : did) (rnd : list Byte.byte) (s : sock) : option sock :=
  s ← core_do (LAdd k (Some d) None rnd) s;
  Some (goto t (Adding k None) s).

(** [time.Duration(actfact * float64(d.reconnTime))]: the factor is drawn
    between 1.1 and 1.5.  Below 2^51 the product, its rounding and the
    truncation stay between the two bounds. *)
Definition jitter_ok (r z : Z) : Prop :=
  (0 ≤ r < 2 ^ 51 → r * 11 / 10 ≤ z ≤ r * 3 / 2)%Z.
#[global] Instance jitter_ok_dec r z : Decision (jitter_ok r z).
Proof. unfold jitter_ok. apply _. Defined.
Definition backed_off (backoff : bool) (z : Z) (x : tdialer) : tdialer :=
  if backoff && negb (reconnMaxTime x =? 0)%Z
  then x <| reconnTime := (if reconnMaxTime x <? z then reconnMaxTime x else z)%Z |>
  else x.
(** [dialer.redial]; the timer is set to the delay before the backoff. *)
Definition dialer_redial (t : nat) (d : did) (backoff : bool) (e : error) (z : Z) (x : tdialer)
    (s : sock) : sock :=
  let rtime := reconnTime x in
  let x := backed_off backoff z x <| redialer := Some (nextt s) |> in
  goto t (Ret e) (set_dialer d x (s <| timers ::= <[nextt s := (d, rtime)]> |> <| nextt ::= S |>)).
(** The function of the timer. *)
Definition timer_fires (tm : nat) (d : did) (s : sock) : sock :=
  go (DialEnter d true) (s <| timers ::= delete tm |>).

Definition pipeConnected (t : nat) (d : did) (x : tdialer) (s : sock) : sock :=
  set_dialer d (x <| reconnTime := reconnMinTime x |>) (goto t (Ret None) s).
Definition pipeClosed (t : nat) (d : did) (x : tdialer) (s : sock) : sock :=
  goto t (Redial d (reconnBackoffOnClose x) None) s.

(** [dialer.Close]; stopping a timer that has fired does nothing. *)
Definition dialer_Close (d : did) (x : tdialer) (s : sock) : error * sock :=
  if d_closed x then (Some ErrClosed, s)
  else
    let x := x <| d_closed := true |> in
    (None,
      match redialer x with
      | Some tm =>
          match timers s !! tm with
          | Some _ =>
              set_dialer d (x <| quit := Some WasClosed |>) (s <| timers ::= delete tm |>)
          | None => set_dialer d x s
          end
      | None => set_dialer d x s
      end).

Definition dialer_SetOption (tset : string → value → error) (n : string) (v : value) (x : tdialer)
    : error * tdialer :=
  if String.eqb n OptionReconnectTime then
    match v with
    | VDuration v => if (0 <=? v)%Z then (None, x <| reconnMinTime := v |>) else (Some ErrBadValue, x)
    | _ => (Some ErrBadValue, x)
    end
  else if String.eqb n OptionMaxReconnectTime then
    match v with
    | VDuration v => if (0 <=? v)%Z then (None, x <| reconnMaxTime := v |>) else (Some ErrBadValue, x)
    | _ => (Some ErrBadValue, x)
    end
  else if String.eqb n OptionReconnectBackoffOnClose then
    match v with
    | VBool v => (None, x <| reconnBackoffOnClose := v |>)
    | _ => (Some ErrBadValue, x)
    end
  else if String.eqb n OptionDialAsynch then
    match v with
    | VBool v => (None, x <| asynch := v |>)
    | _ => (Some ErrBadValue, x)
    end
  else (tset n v, x).

(** ** Listeners *)
Definition listener_Listen (l : lid) (x : tlistener) (s : sock) : sock :=
  if l_closed x then go (Ret (Some ErrClosed)) s
  else if l_active x then go (Ret (Some ErrAddrInUse)) s
  else go (ListenWait l) (set_listener l (x <| l_active := true |>) s).
Definition listener_listened (t : nat) (l : lid) (x : tlistener) (e : error) (s : sock) : sock :=
  match e with
  | Some _ => set_listener l (x <| l_active := false |>) (goto t (Ret e) s)
  | None => go (Serve l) (goto t (Ret None) s)
  end.
Definition serve_top (t : nat) (l : lid) (x : tlistener) (s : sock) : sock :=
  goto t (if l_closed x then Ret None else Accepting l) s.
Definition accept_failed (t : nat) (l : lid) (e : err) (s : sock) : sock :=
  goto t (if decide (e = ErrClosed) then Ret None else Serve l) s.
Definition accepted (t k : nat) (l : lid) (rnd : list Byte.byte) (s : sock) : option sock :=
  s ← core_do (LAdd k None (Some l) rnd) s;
  Some (goto t (Adding k (Some l)) s).
(** When [s.addPipe] returns. *)
Definition add_returned (t k : nat) (l : option lid) (s : sock) : option sock :=
  p ← cpipes (core s) !! k;
  guard (adding p = AddDone ∨ adding p = Rejected);;
  Some (goto t (match l with Some l => Serve l | None => Ret None end) s).
(** [te] is what the transport's listener answers. *)
Definition listener_Close (l : lid) (x : tlistener) (te : error) (s : sock) : error * sock :=
  if l_closed x then (Some ErrClosed, s)
  else (te, set_listener l (x <| l_closed := true |>) s).

(** ** The socket *)

(** [getTransport], with the table of the registered transports. *)
Definition getTransport (transports : gmap string transport) (addr : string) : option transport :=
  match String.index 0 "://" addr with
  | None => None
  | Some i => transports !! String.substring 0 i addr
  end.

(** The options of [NewDialer], in the order in which Go ranges over them. *)
Fixpoint set_options (tset : string → value → error) (options : list (string * value))
    (x : tdialer) : error * tdialer :=
  match options with
  | [] => (None, x)
  | (n, v) :: options =>
      match dialer_SetOption tset n v x with
      | (None, x) => set_options tset options x
      | (Some e, x) => (Some e, x)
      end
  end.
Definition NewDialer (transports : gmap string transport) (d : did) (addr : string)
    (options : list (string * value)) (s : sock) : error * sock :=
  match getTransport transports addr with
  | None => (Some ErrBadTran, s)
  | Some t =>
      match t_NewDialer t addr with
      | Some e => (Some e, s)
      | None =>
          let x := mkDialer false false (dialAsynch s) None 0 (s_reconnMinTime s)
            (s_reconnMaxTime s) (s_reconnBackoffOnClose s) None in
          match set_options (t_SetOption t) options x with
          | (Some e, _) => (Some e, s)
          | (None, x) =>
              let e :=
                if decide (OptionMaxRecvSize ∈ options.*1) then None
                else t_SetOption t OptionMaxRecvSize (VInt (maxRxSize s)) in
              if decide (e ≠ None ∧ e ≠ Some ErrBadOption) then (e, s)
              else if closed s then (Some ErrClosed, s)
              else (None, set_dialer d x (s <| dialers ::= (λ l, l ++ [d]) |>))
          end
      end
  end.

Fixpoint tran_options (tset : string → value → error) (options : list (string * value)) : error :=
  match options with
  | [] => None
  | (n, v) :: options =>
      match tset n v with None => tran_options tset options | Some e => Some e end
  end.
Definition NewListener (transports : gmap string transport) (l : lid) (addr : string)
    (options : list (string * value)) (s : sock) : error * sock :=
  match getTransport transports addr with
  | None => (Some ErrBadTran, s)
  | Some t =>
      match t_NewListener t addr with
      | Some e => (Some e, s)
      | None =>
          match tran_options (t_SetOption t) options with
          | Some e => (Some e, s)
          | None =>
              let e :=
                if decide (OptionMaxRecvSize ∈ options.*1) then None
                else t_SetOption t OptionMaxRecvSize (VInt (maxRxSize s)) in
              if decide (e ≠ None ∧ e ≠ Some ErrBadOption) then (e, s)
              else if closed s then (Some ErrClosed, s)
              else (None, set_listener l (mkListener false false)
                     (s <| listeners ::= (λ ls, ls ++ [l]) |>))
          end
      end
  end.

(** [socket.SetOption]: the protocol first; then the core's own options,
    which are passed on to the dialers ([tset] is what their transports
    answer) and to the transports of the listeners. *)
Definition own_SetOption (n : string) (v : value) (s : sock) : error * sock :=
  if String.eqb n OptionMaxRecvSize then
    match v with
    | VInt v => if (0 <=? v)%Z then (None, s <| maxRxSize := v |>) else (Some ErrBadValue, s)
    | _ => (Some ErrBadValue, s)
    end
  else if String.eqb n OptionReconnectTime then
    match v with
    | VDuration v => (None, s <| s_reconnMinTime := v |>)
    | _ => (Some ErrBadValue, s)
    end
  else if String.eqb n OptionMaxReconnectTime then
    match v with
    | VDuration v => (None, s <| s_reconnMaxTime := v |>)
    | _ => (Some ErrBadValue, s)
    end
  else if String.eqb n OptionReconnectBackoffOnClose then
    match v with
    | VBool v => (None, s <| s_reconnBackoffOnClose := v |>)
    | _ => (Some ErrBadValue, s)
    end
  else if String.eqb n OptionDialAsynch then
    match v with
    | VBool v => (None, s <| dialAsynch := v |>)
    | _ => (Some ErrBadValue, s)
    end
  else (Some ErrBadOption, s).
Definition pass_option (tset : string → value → error) (n : string) (v : value) (s : sock)
    (d : did) : sock :=
  match dlrs s !! d with
  | Some x => set_dialer d (dialer_SetOption tset n v x).2 s
  | None => s
  end.
Definition SetOption (tset : string → value → error) (n : string) (v : value) (s : sock)
    : error * sock :=
  match p_SetOption n v (proto s) with
  | (Some ErrBadOption, pr) =>
      match own_SetOption n v (s <| proto := pr |>) with
      | (None, s) => (None, foldl (pass_option tset n v) s (dialers s))
      | r => r
      end
  | (e, pr) => (e, s <| proto := pr |>)
  end.
Definition GetOption (n : string) (s : sock) : result value :=
  match p_GetOption n (proto s) with
  | Err ErrBadOption =>
      if String.eqb n OptionMaxRecvSize then Ok (VInt (maxRxSize s))
      else if String.eqb n OptionReconnectTime then Ok (VDuration (s_reconnMinTime s))
      else if String.eqb n OptionMaxReconnectTime then Ok (VDuration (s_reconnMaxTime s))
      else if String.eqb n OptionReconnectBackoffOnClose then Ok (VBool (s_reconnBackoffOnClose s))
      else if String.eqb n OptionDialAsynch then Ok (VBool (dialAsynch s))
      else Err ErrBadOption
  | r => r
  end.
(** [dialer.GetOption]: its own options, then the transport's ([tget]), then
    the socket's. *)
Definition dialer_GetOption (tget : string → result value) (n : string) (x : tdialer) (s : sock)
    : result value :=
  if String.eqb n OptionReconnectTime then Ok (VDuration (reconnMinTime x))
  else if String.eqb n OptionMaxReconnectTime then Ok (VDuration (reconnMaxTime x))
  else if String.eqb n OptionReconnectBackoffOnClose then Ok (VBool (reconnBackoffOnClose x))
  else if String.eqb n OptionDialAsynch then Ok (VBool (asynch x))
  else match tget n with
       | Err ErrBadOption => GetOption n s
       | r => r
       end.

(** [pipe.GetOption]: the pipe of the transport ([pget]), then the dialer or
    the listener. *)
Definition pipe_GetOption (pget tget : string → result value) (n : string) (p : Core.pipe) (s : sock)
    : result value :=
  match pget n with
  | Err ErrBadOption =>
      match Core.dialer p ≫= (dlrs s !!.), listener p with
      | Some x, _ => dialer_GetOption tget n x s
      | None, Some _ => tget n
      | None, None => Err ErrBadOption
      end
  | r => r
  end.

(** [socket.Close]: the critical section, the loops over the listeners and
    the dialers, the protocol, the pipes ([order]: as Go ranges over them). *)
Definition Close (s : sock) : sock :=
  go (Closing (listeners s) (dialers s))
    (s <| listeners := [] |> <| dialers := [] |> <| closed := true |>).
Definition Close_next (t : nat) (ls : list lid) (ds : list did) (te : error) (s : sock) : sock :=
  match ls, ds with
  | l :: ls, _ =>
      let s := goto t (Closing ls ds) s in
      match lsns s !! l with Some x => (listener_Close l x te s).2 | None => s end
  | [], d :: ds =>
      let s := goto t (Closing [] ds) s in
      match dlrs s !! d with Some x => (dialer_Close d x s).2 | None => s end
  | [], [] =>
      let '(e, pr) := p_Close (proto s) in goto t (ClosingPipes e) (s <| proto := pr |>)
  end.
Definition Close_pipes (t : nat) (e : error) (order : list nat) (s : sock) : sock :=
  foldl (λ s k, go (ClosePipe k) s) (goto t (Ret e) (s <| swept := true |>)) order.


(** ** The program *)
Inductive slabel :=
  | SProto (e : p_event (P := P))
  | SCore (l : clabel)              (* steps of [Core] that involve nothing else *)
  | SAttach (k : nat)
  | SCloseLocked (k : nat)
  | SPipeSend (k : nat) (te : error)
  | SPipeRecvFails (k : nat)
  | SPipeClose (k : nat)            (* the application or the protocol calls p.Close() *)
  | SClosePipe (t : nat)
  | SNewDialer (tr : gmap string transport) (d : did) (addr : string) (o : list (string * value))
  | SDial (d : did)
  | SDialEnter (t : nat)
  | SDialFailed (t : nat) (e : err)
  | SDialConnected (t k : nat) (rnd : list Byte.byte)
  | SRedial (t : nat) (z : Z)
  | STimer (tm : nat)
  | SPipeConnected (t : nat)
  | SPipeClosed (t : nat)
  | SDialerClose (d : did)
  | SDialerSetOption (tset : string → value → error) (d : did) (n : string) (v : value)
  | SNewListener (tr : gmap string transport) (l : lid) (addr : string) (o : list (string * value))
  | SListen (l : lid)
  | SListened (t : nat) (e : error)
  | SServe (t : nat)
  | SAcceptFailed (t : nat) (e : err)
  | SAccepted (t k : nat) (rnd : list Byte.byte)
  | SAdded (t : nat)
  | SListenerClose (l : lid) (te : error)
  | SSetOption (tset : string → value → error) (n : string) (v : value)
  | SClose
  | SCloseNext (t : nat) (te : error)
  | SCloseAll (t : nat) (order : list nat).

Definition plain (l : clabel) : bool :=
  match l with LAttached _ | LDetached _ | LFreeID _ | LSetHook _ => true | _ => false end.

(** Dialers and listeners have identities of their own; [CloseAll] starts a
    goroutine for each pipe of the list. *)
Definition sstep (l : slabel) (s : sock) : option sock :=
  match l with
  | SProto e => pr ← p_step e (proto s); Some (s <| proto := pr |>)
  | SCore l => guard (plain l = true);; core_do l s
  | SAttach k => attach k s
  | SCloseLocked k => close_locked k s
  | SPipeSend k te => guard (is_Some (cpipes (core s) !! k));; Some (pipe_SendMsg k te s).2
  | SPipeRecvFails k => guard (is_Some (cpipes (core s) !! k));; Some (pipe_RecvMsg (M := unit) k None s).2
  | SPipeClose k => guard (is_Some (cpipes (core s) !! k));; Some (go (ClosePipe k) s)
  | SClosePipe t =>
      match goros s !! t with Some (ClosePipe k) => close_pipe t k s | _ => None end
  | SNewDialer tr d addr o => guard (dlrs s !! d = None);; Some (NewDialer tr d addr o s).2
  | SDial d => x ← dlrs s !! d; Some (dialer_Dial d x s)
  | SDialEnter t =>
      match goros s !! t with
      | Some (DialEnter d again) => x ← dlrs s !! d; Some (dial_enter t d again x s)
      | _ => None
      end
  | SDialFailed t e =>
      match goros s !! t with
      | Some (DialWait d again) => x ← dlrs s !! d; Some (dial_failed t d again x e s)
      | _ => None
      end
  | SDialConnected t k rnd =>
      match goros s !! t with
      | Some (DialWait d again) => dial_connected t k d rnd s
      | _ => None
      end
  | SRedial t z =>
      match goros s !! t with
      | Some (Redial d backoff e) =>
          x ← dlrs s !! d; guard (jitter_ok (reconnTime x) z);;
          Some (dialer_redial t d backoff e z x s)
      | _ => None
      end
  | STimer tm => '(d, _) ← timers s !! tm; Some (timer_fires tm d s)
  | SPipeConnected t =>
      match goros s !! t with
      | Some (PipeConnected d) => x ← dlrs s !! d; Some (pipeConnected t d x s)
      | _ => None
      end
  | SPipeClosed t =>
      match goros s !! t with
      | Some (PipeClosed d) => x ← dlrs s !! d; Some (pipeClosed t d x s)
      | _ => None
      end
  | SDialerClose d => x ← dlrs s !! d; Some (dialer_Close d x s).2
  | SDialerSetOption tset d n v =>
      x ← dlrs s !! d; Some (set_dialer d (dialer_SetOption tset n v x).2 s)
  | SNewListener tr l addr o => guard (lsns s !! l = None);; Some (NewListener tr l addr o s).2
  | SListen l => x ← lsns s !! l; Some (listener_Listen l x s)
  | SListened t e =>
      match goros s !! t with
      | Some (ListenWait l) => x ← lsns s !! l; Some (listener_listened t l x e s)
      | _ => None
      end
  | SServe t =>
      match goros s !! t with
      | Some (Serve l) => x ← lsns s !! l; Some (serve_top t l x s)
      | _ => None
      end
  | SAcceptFailed t e =>
      match goros s !! t with Some (Accepting l) => Some (accept_failed t l e s) | _ => None end
  | SAccepted t k rnd =>
      match goros s !! t with Some (Accepting l) => accepted t k l rnd s | _ => None end
  | SAdded t =>
      match goros s !! t with Some (Adding k l) => add_returned t k l s | _ => None end
  | SListenerClose l te => x ← lsns s !! l; Some (listener_Close l x te s).2
  | SSetOption tset n v => Some (SetOption tset n v s).2
  | SClose => Some (Close s)
  | SCloseNext t te =>
      match goros s !! t with
      | Some (Closing ls ds) => Some (Close_next t ls ds te s)
      | _ => None
      end
  | SCloseAll t order =>
      match goros s !! t with
      | Some (ClosingPipes e) =>
          guard (NoDup order ∧ list_to_set order = (map_img (pipeList (core s)) : gset nat));;
          Some (Close_pipes t e order s)
      | _ => None
      end
  end.

Definition sinit (s : sock) : Prop :=
  ∃ p a, s = newSocket p a.
End Socket.
