(* ===== verification/SocketInv.v ===== *)
(** * SocketInv: dialers that never give up

    What [Socket] guarantees: a dialer that was started and not stopped makes
    exactly one attempt at a time; and the delays to which its redial timer is
    set grow to their maximum, or where they do not. *)
From stdpp Require Import gmap list strings fin_maps.
From Stdlib Require Import ZArith Lia Sorted.
From S2P Require Import Prelude Types Chan XPair PipeIDs Core Protocol Socket.
Import PairProtocol.

Section SocketInv.
Context {P : Type} `{!ProtocolBase P}.
Abbreviation sock := (@sock P).
Abbreviation slabel := (@slabel P _).

(** ** The attempts of a dialer *)

(** What keeps dialer [d] going: a call of [dial] or [redial], a timer, or a
    pipe that is not closed yet. *)
Definition attempting (d : did) (g : goro) : bool :=
  match g with
  | DialEnter d' _ | DialWait d' _ | Redial d' _ _ | PipeClosed d' => bool_decide (d' = d)
  | _ => false
  end.
Definition live_pipe (d : did) (p : Core.pipe) : bool :=
  bool_decide (Core.dialer p = Some d) && negb (Core.closing p).
Definition attempts (d : did) (s : sock) : nat :=
  cnt (attempting d) (goros s) + cnt (λ v, bool_decide (v.1 = d)) (timers s) +
  cnt (live_pipe d) (cpipes (core s)).
(** How many there should be. *)
Definition due (d : did) (s : sock) : nat :=
  match dlrs s !! d with
  | Some x => if d_active x && negb (bool_decide (is_Some (quit x))) then 1 else 0
  | None => 0
  end.

Record ready (s : sock) : Prop := {
  rd_goros t : nextg s ≤ t → goros s !! t = None;
  rd_timers t : nextt s ≤ t → timers s !! t = None;
  rd_redialer d x tm : dlrs s !! d = Some x → redialer x = Some tm →
    tm < nextt s ∧ ∀ v, timers s !! tm = Some v → v.1 = d;
  rd_idle d x : dlrs s !! d = Some x → d_active x = false → quit x = None
}.

(** A step that keeps the balance of attempts and dues. *)
Record keeps (s s' : sock) : Prop := {
  kp_ready : ready s → ready s';
  kp_bal : ready s → ∀ d, attempts d s' + due d s = attempts d s + due d s'
}.
#[local] Instance keeps_refl : Reflexive keeps.
Proof. by split. Qed.
#[local] Instance keeps_trans : Transitive keeps.
Proof.
  intros s1 s2 s3 [R1 B1] [R2 B2]. split; [auto|]. intros Hr d.
  specialize (B1 Hr d). specialize (B2 (R1 Hr) d). lia.
Qed.

Definition due1 (x : tdialer) : nat :=
  if d_active x && negb (bool_decide (is_Some (quit x))) then 1 else 0.
Lemma due_set_dialer d d0 x s :
  due d (set_dialer d0 x s) = if decide (d = d0) then due1 x else due d s.
Proof.
  unfold due. cbn. rewrite lookup_insert. case_decide; case_decide; congruence || done.
Qed.

Lemma keeps_same s s' :
  goros s' = goros s → nextg s' = nextg s → timers s' = timers s → nextt s' = nextt s →
  dlrs s' = dlrs s → core s' = core s → keeps s s'.
Proof.
  intros Eg En Et Em Ed Ec. split.
  - intros [H1 H2 H3 H4]. split; rewrite ?Eg, ?En, ?Et, ?Em, ?Ed; done.
  - intros _ d. unfold attempts, due. by rewrite Eg, Et, Ed, Ec.
Qed.

Lemma ready_go g s : ready s → ready (go g s).
Proof.
  intros [H1 H2 H3 H4]. split; cbn; [|done..].
  intros t Ht. rewrite lookup_insert_ne by lia. apply H1. lia.
Qed.
Lemma attempts_go d g s :
  ready s → attempts d (go g s) = attempts d s + Nat.b2n (attempting d g).
Proof.
  intros [H1 _ _ _]. unfold attempts. cbn. rewrite cnt_insert_new by (by apply H1). lia.
Qed.
Lemma keeps_go g s : (∀ d, attempting d g = false) → keeps s (go g s).
Proof.
  intros Hg. split; [apply ready_go|]. intros Hr d. rewrite attempts_go, Hg by done.
  change (due d (go g s)) with (due d s). simpl. lia.
Qed.

Lemma ready_goto t g0 g s : goros s !! t = Some g0 → ready s → ready (goto t g s).
Proof.
  intros Ht [H1 H2 H3]. split; cbn; [|done..].
  intros t' Ht'. rewrite lookup_insert_ne; [by apply H1|]. intros ->. by rewrite H1 in Ht.
Qed.
Lemma attempts_goto d t g0 g s :
  goros s !! t = Some g0 →
  attempts d (goto t g s) + Nat.b2n (attempting d g0) = attempts d s + Nat.b2n (attempting d g).
Proof.
  intros Ht. unfold attempts. cbn. pose proof (cnt_replace (attempting d) _ _ _ g Ht). lia.
Qed.
Lemma keeps_goto t g0 g s :
  goros s !! t = Some g0 → (∀ d, attempting d g = attempting d g0) → keeps s (goto t g s).
Proof.
  intros Ht Hg. split; [by eapply ready_goto|]. intros Hr d.
  pose proof (attempts_goto d t g0 g s Ht) as Ha. rewrite Hg in Ha.
  change (due d (goto t g s)) with (due d s). lia.
Qed.

Lemma ready_set_dialer d x0 x s :
  dlrs s !! d = Some x0 → redialer x = redialer x0 → (d_active x = false → quit x = None) →
  ready s → ready (set_dialer d x s).
Proof.
  intros Hd Hx Hq [H1 H2 H3 H4]. split; cbn; [done|done|..]; intros d' x'; [intros tm|];
    rewrite lookup_insert; case_decide as Hdd; try (by eauto); intros [= <-]; subst; [|done].
  rewrite Hx. by eauto.
Qed.
Lemma keeps_set_dialer d x0 x s :
  dlrs s !! d = Some x0 → redialer x = redialer x0 → d_active x = d_active x0 → quit x = quit x0 →
  keeps s (set_dialer d x s).
Proof.
  intros Hd Hx Ha Hq. split.
  - intros Hr. eapply ready_set_dialer; [done|done| |done]. rewrite Ha, Hq. by eapply rd_idle.
  - intros _ d'.
    rewrite due_set_dialer. change (attempts d' (set_dialer d x s)) with (attempts d' s).
    case_decide; [|done]. subst. unfold due, due1. by rewrite Hd, Ha, Hq.
Qed.

(** *** Steps of [Core] *)
Definition adds (d : did) (l : clabel) : bool :=
  match l with LAdd _ d' _ _ => bool_decide (d' = Some d) | _ => false end.
Definition closes (d : did) (n : did * bool) : bool := attempting d (note n).

Lemma live_same d c k p p' :
  cpipes c !! k = Some p → Core.dialer p' = Core.dialer p → Core.closing p' = Core.closing p →
  cnt (live_pipe d) (<[k := p']> (cpipes c)) = cnt (live_pipe d) (cpipes c).
Proof.
  intros Hk Hd Hc. pose proof (cnt_replace (live_pipe d) _ _ _ p' Hk) as Ht.
  unfold live_pipe in Ht at 2 4. rewrite Hd, Hc in Ht. lia.
Qed.

(** What a step of [Core] does to the pipes, and the goroutines it starts. *)
Record effect (l : clabel) (c c' : Core.core) : Prop := {
  ef_live : ∃ new, notified c' = notified c ++ new ∧
    ∀ d, cnt (live_pipe d) (cpipes c') + length (filter (λ n, closes d n = true) new) =
         cnt (live_pipe d) (cpipes c) + Nat.b2n (adds d l);
  ef_dialer k p' : cpipes c' !! k = Some p' →
    (∃ p, cpipes c !! k = Some p ∧ Core.dialer p' = Core.dialer p) ∨
    (cpipes c !! k = None ∧ ∃ l' rnd, l = LAdd k (Core.dialer p') l' rnd)
}.

Lemma notify_effect d0 b c :
  ∃ new, notified (notify d0 b c) = notified c ++ new ∧
    ∀ d, length (filter (λ n, closes d n = true) new) =
         if b then 0 else if decide (d0 = Some d) then 1 else 0.
Proof.
  destruct d0 as [d0|].
  - exists [(d0, b)]. split; [done|]. intros d. destruct b; [done|].
    unfold closes, note, attempting. case_decide as Hd.
    + injection Hd as ->. rewrite filter_cons_True by (by apply bool_decide_eq_true). done.
    + rewrite filter_cons_False; [done|]. cbn. rewrite bool_decide_false by congruence. done.
  - exists []. rewrite app_nil_r. split; [done|]. intros d. by destruct b.
Qed.
Lemma fire_fields ph e k c :
  cpipes (fire ph e k c) = cpipes c ∧ notified (fire ph e k c) = notified c.
Proof. by destruct ph. Qed.
Lemma notify_cpipes d b c : cpipes (notify d b c) = cpipes c.
Proof. by destruct d. Qed.

(** A step that replaces one pipe and notifies nobody. *)
Lemma effect_replace l c c' k p p' :
  cpipes c !! k = Some p → cpipes c' = <[k := p']> (cpipes c) → notified c' = notified c →
  Core.dialer p' = Core.dialer p → Core.closing p' = Core.closing p → (∀ d, adds d l = false) →
  effect l c c'.
Proof.
  intros Hk Ec En Hd Hcl Ha. split.
  - exists []. rewrite app_nil_r. split; [done|]. intros d.
    by rewrite Ec, (live_same d c k p p'), Ha by done.
  - intros k' q. rewrite Ec, lookup_insert. case_decide; [|by eauto].
    intros [= <-]. subst. left. eauto.
Qed.

Lemma effect_add k d l rnd c c' :
  cpipes c !! k = None → addPipe_start k d l rnd c = Some c' → effect (LAdd k d l rnd) c c'.
Proof.
  intros Hk Hs. unfold addPipe_start, newPipe in Hs.
  destruct (Get rnd (pipeIDs c)) as [[i a]|]; [|done]. cbn in Hs. injection Hs as Hs.
  set (p := Core.mkPipe i d l false false false false (pipehook c) false Attaching NotRemoved) in Hs.
  assert (cpipes c' = <[k := p]> (cpipes c) ∧ notified c' = notified c) as [Ec En]
    by (subst c'; unfold fire; by case_match).
  split.
  - exists []. rewrite app_nil_r. split; [done|]. intros d'.
    rewrite Ec, cnt_insert_new by done. unfold live_pipe. cbn. rewrite andb_true_r. lia.
  - intros k' q. rewrite Ec, lookup_insert. case_decide; [|by eauto].
    intros [= <-]. subst. right. split; [done|]. by exists l, rnd.
Qed.

Lemma effect_attach k p res c :
  cpipes c !! k = Some p → effect (LAttach k res) c (addPipe_attach k p res c).
Proof.
  intros Hk. unfold addPipe_attach.
  repeat case_match; by (eapply (effect_replace _ _ _ k p); [done|reflexivity|..]).
Qed.

Lemma effect_close k p c :
  cpipes c !! k = Some p → Core.closing p = false → effect (LCloseLocked k) c (Close_locked k p c).
Proof.
  intros Hk Hcl. unfold Close_locked. set (p1 := p <| Core.closing := true |>).
  assert (∃ p2 c1, cpipes c1 = <[k := p2]> (cpipes c) ∧ notified c1 = notified c ∧
    Core.dialer p2 = Core.dialer p ∧ Core.closing p2 = true ∧
    (if added p1 then remPipe k p1 c else upd_pipe k p1 c) = c1) as (p2 & c1 & Ec & En & Hd & Hc2 & ->).
  { destruct (added p1);
      [exists (p1 <| removing := RemHook |> <| rph := pipehook c |>), (remPipe k p1 c)
      |exists p1, (upd_pipe k p1 c)]; done. }
  change (Core.dialer p1) with (Core.dialer p).
  destruct (notify_effect (Core.dialer p) false c1) as (new & Hn & Hcnt). split.
  - exists new. rewrite Hn, En. split; [done|]. intros d. rewrite notify_cpipes, Ec, Hcnt.
    pose proof (cnt_replace (live_pipe d) _ _ _ p2 Hk) as Ht.
    unfold live_pipe in Ht at 2 4. rewrite Hd, Hc2, Hcl in Ht. cbn in Ht |- *.
    rewrite andb_true_r, andb_false_r in Ht. unfold Nat.b2n in Ht.
    rewrite bool_decide_decide in Ht. case_decide; lia.
  - intros k' q. rewrite notify_cpipes, Ec, lookup_insert. case_decide; [|by eauto].
    intros [= <-]. subst. left. by exists p.
Qed.

Lemma cstep_effect l c c' : cstep l c = Some c' → effect l c c'.
Proof.
  destruct l as [k d l rnd|k res|k|k|k|k|k|h]; cbn [cstep].
  1: { intros [Hk Hs]%guard_bind_Some. by apply effect_add. }
  7: { intros [= <-]. split; [|by eauto]. exists []. rewrite app_nil_r.
       split; [done|]. intros d. cbn. lia. }
  all: destruct (cpipes c !! k) as [p|] eqn:Hk; simpl; [|done].
  all: intros [Hg [= <-]]%guard_bind_Some.
  - by apply effect_attach.
  - unfold addPipe_finish. set (p1 := p <| adding := AddDone |>).
    destruct (fire_fields (ph p) PipeEventAttached k
      (notify (Core.dialer p) true (upd_pipe k p1 c))) as [Ec En].
    destruct (notify_effect (Core.dialer p) true (upd_pipe k p1 c)) as (new & Hn & Hcnt).
    rewrite notify_cpipes in Ec. split.
    + exists new. rewrite En, Hn. split; [done|]. intros d. rewrite Ec, Hcnt. cbn.
      by rewrite (live_same d c k p p1).
    + intros k' q. rewrite Ec. cbn. rewrite lookup_insert. case_decide; [|by eauto].
      intros [= <-]. subst. left. by exists p.
  - by eapply effect_replace.
  - destruct Hg. by apply effect_close.
  - unfold remPipe_hook. set (p1 := p <| removing := RemFree |>).
    destruct (fire_fields (rph p) PipeEventDetached k (upd_pipe k p1 c)) as [Ec En].
    by eapply (effect_replace _ _ _ k p p1).
  - unfold remPipe_free. destruct (Free _ _) as [a|].
    + by eapply (effect_replace _ _ _ k p (p <| removing := IDFreed |>)).
    + split; [|by eauto]. exists []. rewrite app_nil_r. split; [done|]. intros d. cbn. lia.
Qed.

Lemma go_notes new s :
  ready s →
  let s' := foldl (λ s n, go (note n) s) s new in
  ready s' ∧
  (∀ d, attempts d s' = attempts d s + length (filter (λ n, closes d n = true) new)) ∧
  dlrs s' = dlrs s.
Proof.
  revert s. induction new as [|n new IH]; intros s Hr; cbn [foldl].
  - split_and!; [done| |done]. intros d. cbn. lia.
  - destruct (IH (go (note n) s) (ready_go _ _ Hr)) as (Hr' & Ha & ->).
    split_and!; [done| |done]. intros d. rewrite Ha, attempts_go by done. rewrite filter_cons.
    unfold closes. case_decide as Hc; [rewrite Hc|apply not_true_is_false in Hc; rewrite Hc]; cbn; lia.
Qed.

(** A step of [Core] adds the attempts that [adds] says. *)
Lemma core_do_attempts cl s s' :
  core_do cl s = Some s' → ready s →
  ready s' ∧ (∀ d, attempts d s' = attempts d s + Nat.b2n (adds d cl)) ∧ dlrs s' = dlrs s.
Proof.
  intros Hs Hr. apply bind_Some in Hs as (c & Hc & [= <-]).
  destruct (ef_live _ _ _ (cstep_effect _ _ _ Hc)) as (new & Hn & Hcnt).
  rewrite Hn, drop_app_length.
  destruct (go_notes new (s <| core := c |>)) as (Hr' & Ha & Hd).
  { destruct Hr. by split. }
  split_and!; [done| |done]. intros d. rewrite Ha. specialize (Hcnt d).
  unfold attempts. cbn [core goros timers set_field]. lia.
Qed.
Lemma go_notes_goros new s t g :
  ready s → goros s !! t = Some g → goros (foldl (λ s n, go (note n) s) s new) !! t = Some g.
Proof.
  revert s. induction new as [|n new IH]; intros s Hr Ht; [done|]. cbn [foldl].
  apply IH; [by apply ready_go|]. cbn. rewrite lookup_insert_ne; [done|]. intros Ht'.
  rewrite (rd_goros _ Hr) in Ht; [done|lia].
Qed.
Lemma core_do_goros cl s s' t g :
  core_do cl s = Some s' → ready s → goros s !! t = Some g → goros s' !! t = Some g.
Proof.
  intros Hs Hr Ht. apply bind_Some in Hs as (c & _ & [= <-]).
  apply go_notes_goros; [|done]. destruct Hr. by split.
Qed.
Lemma keeps_core_do cl s s' : core_do cl s = Some s' → (∀ d, adds d cl = false) → keeps s s'.
Proof.
  intros Hs Ha. split; intros Hr; destruct (core_do_attempts _ _ _ Hs Hr) as (? & Hatt & Hd); [done|].
  intros d. rewrite Hatt, Ha. unfold due. rewrite Hd. simpl. lia.
Qed.

Lemma keeps_attach k s s' : attach k s = Some s' → keeps s s'.
Proof.
  intros Hs. apply bind_Some in Hs as (p & Hp & Hs). case_match; [by eapply keeps_core_do|].
  destruct (p_AddPipe k (id p) (proto s)) as [e pr]. apply bind_Some in Hs as (s1 & Hs & [= <-]).
  etrans; [apply (keeps_same _ (s <| proto := pr |>)); done|].
  etrans; [by eapply keeps_core_do|]. destruct e; [by apply keeps_go|reflexivity].
Qed.
Lemma keeps_close_locked k s s' : close_locked k s = Some s' → keeps s s'.
Proof.
  intros Hs. apply bind_Some in Hs as (p & Hp & Hs).
  etrans; [|by eapply keeps_core_do]. case_match; by apply keeps_same.
Qed.
Lemma keeps_close_pipe t k s s' :
  goros s !! t = Some (ClosePipe k) → close_pipe t k s = Some s' → keeps s s'.
Proof.
  intros Ht Hs. apply bind_Some in Hs as (p & Hp & Hs).
  etrans; [by apply (keeps_goto t (ClosePipe k) (Ret None))|].
  cbv zeta in Hs. destruct (once p); [|by eapply keeps_core_do].
  injection Hs as <-. reflexivity.
Qed.

Lemma keeps_added t k d l rnd g g' s s' s1 :
  goros s !! t = Some g → core_do (LAdd k d l rnd) s = Some s1 → s' = goto t g' s1 →
  (∀ d', attempting d' g = bool_decide (d = Some d')) → (∀ d', attempting d' g' = false) →
  ready s → ready s' ∧ ∀ d', attempts d' s' = attempts d' s ∧ due d' s' = due d' s.
Proof.
  intros Ht Hs -> Hg Hg' Hr. destruct (core_do_attempts _ _ _ Hs Hr) as (Hr1 & Ha & Hd).
  pose proof (core_do_goros _ _ _ _ _ Hs Hr Ht) as Ht1.
  split; [by eapply ready_goto|]. intros d'.
  pose proof (attempts_goto d' t g g' s1 Ht1) as Hx. rewrite Hg, Hg', Ha in Hx.
  unfold due. cbn [dlrs goto set_field]. rewrite Hd. split; [|done].
  unfold adds in Hx. cbn [Nat.b2n] in Hx. lia.
Qed.

(** ** One attempt at a time *)
Definition balanced (s : sock) : Prop := ready s ∧ ∀ d, attempts d s = due d s.

Lemma balanced_keeps s s' : keeps s s' → balanced s → balanced s'.
Proof.
  intros [Hk Hb] [Hr Ha]. split; [auto|]. intros d. specialize (Hb Hr d). specialize (Ha d). lia.
Qed.

(** A goroutine that attempts for [d] is the only one, and [d] is on duty. *)
Lemma attempting_due t g d s :
  balanced s → goros s !! t = Some g → attempting d g = true → due d s = 1.
Proof.
  intros [_ Ha] Ht Hg. specialize (Ha d). unfold attempts in Ha.
  pose proof (cnt_pos _ _ _ _ Ht Hg). unfold due in *. repeat case_match; lia.
Qed.
Lemma due_active d x s :
  dlrs s !! d = Some x → due d s = 1 → d_active x = true ∧ quit x = None.
Proof.
  intros Hd. unfold due. rewrite Hd. destruct (d_active x), (quit x); done.
Qed.

Lemma balanced_Dial d x s :
  balanced s → dlrs s !! d = Some x → balanced (dialer_Dial d x s).
Proof.
  intros Hb Hd. unfold dialer_Dial.
  do 2 (case_match; [by eapply balanced_keeps; [apply keeps_go|]|]).
  destruct Hb as [Hr Ha]. set (x' := x <| d_active := true |> <| reconnTime := reconnMinTime x |>).
  assert (quit x = None) as Hq by by eapply rd_idle.
  assert (ready (set_dialer d x' s)) as Hr' by by eapply ready_set_dialer.
  assert (∀ b, balanced (go (DialEnter d b) (set_dialer d x' s))) as Hgo.
  { intros b. split; [by apply ready_go|]. intros d'. rewrite attempts_go by done.
    change (due d' (go _ _)) with (due d' (set_dialer d x' s)). rewrite due_set_dialer.
    change (attempts d' (set_dialer d x' s)) with (attempts d' s). rewrite Ha. cbn [attempting].
    destruct (decide (d' = d)) as [->|Hne].
    - rewrite bool_decide_true by done. unfold due, due1. rewrite Hd. cbn. by rewrite Hq, H.
    - rewrite bool_decide_false by done. cbn. lia. }
  case_match; [by eapply balanced_keeps; [apply keeps_go|]|done].
Qed.

(** The last attempt of [d] ends for a reason. *)
Lemma balanced_quit t g e d x r s :
  balanced s → dlrs s !! d = Some x → goros s !! t = Some g →
  (∀ d', attempting d' g = bool_decide (d = d')) →
  balanced (set_dialer d (x <| quit := Some r |>) (goto t (Ret e) s)).
Proof.
  intros Hb Hd Ht Hg. assert (due d s = 1) as Hdue.
  { eapply attempting_due; [done..|]. rewrite Hg. by apply bool_decide_true. }
  destruct (due_active _ _ _ Hd Hdue) as [Hact Hq]. destruct Hb as [Hr Ha]. split.
  - eapply ready_set_dialer; [done..| |by eapply ready_goto]. cbn. congruence.
  - intros d'. rewrite due_set_dialer.
    change (attempts d' (set_dialer _ _ ?s)) with (attempts d' s).
    pose proof (attempts_goto d' t g (Ret e) s Ht) as Hx. rewrite Hg, Ha in Hx. cbn [attempting] in Hx.
    change (due d' (goto t (Ret e) s)) with (due d' s).
    destruct (decide (d' = d)) as [->|Hne].
    + rewrite bool_decide_true in Hx by done. unfold due1. cbn [d_active quit set_field].
      rewrite Hact, andb_false_r. cbn [Nat.b2n] in Hx. lia.
    + rewrite bool_decide_false in Hx by done. cbn in Hx. lia.
Qed.

Lemma balanced_dial_enter t d again x s :
  balanced s → dlrs s !! d = Some x → goros s !! t = Some (DialEnter d again) →
  balanced (dial_enter t d again x s).
Proof.
  intros Hb Hd Ht. unfold dial_enter. case_match; [by eapply balanced_quit|].
  eapply balanced_keeps; [by eapply keeps_goto|done].
Qed.
Lemma balanced_dial_failed t d again x e s :
  balanced s → dlrs s !! d = Some x → goros s !! t = Some (DialWait d again) →
  balanced (dial_failed t d again x e s).
Proof.
  intros Hb Hd Ht. unfold dial_failed. do 2 (case_match; [by eapply balanced_quit|]).
  eapply balanced_keeps; [by eapply keeps_goto|done].
Qed.

Lemma balanced_added t k d l rnd g g' s s1 :
  goros s !! t = Some g → core_do (LAdd k d l rnd) s = Some s1 →
  (∀ d', attempting d' g = bool_decide (d = Some d')) → (∀ d', attempting d' g' = false) →
  balanced s → balanced (goto t g' s1).
Proof.
  intros Ht Hs Hg Hg' [Hr Ha].
  destruct (keeps_added t k d l rnd g g' s _ s1 Ht Hs eq_refl Hg Hg' Hr) as [Hr' Hb].
  split; [done|]. intros d'. destruct (Hb d') as [-> ->]. apply Ha.
Qed.

Lemma balanced_redial t d backoff e z x s :
  balanced s → dlrs s !! d = Some x → goros s !! t = Some (Redial d backoff e) →
  balanced (dialer_redial t d backoff e z x s).
Proof.
  intros Hb Hd Ht. assert (due d s = 1) as Hdue.
  { eapply attempting_due; [done..|]. by apply bool_decide_true. }
  destruct (due_active _ _ _ Hd Hdue) as [Hact Hq]. destruct Hb as [[H1 H2 H3 H4] Ha].
  unfold dialer_redial. set (x' := backed_off backoff z x <| redialer := Some (nextt s) |>).
  assert (d_active x' = true ∧ quit x' = None ∧ redialer x' = Some (nextt s)) as (Ex & Eq & Er).
  { unfold x', backed_off. case_match; done. }
  split; [split|]; cbn.
  - intros t' Ht'. rewrite lookup_insert_ne; [by apply H1|]. intros ->. rewrite H1 in Ht; done.
  - intros tm Htm. rewrite lookup_insert_ne by lia. apply H2. lia.
  - intros d' y tm. rewrite lookup_insert. case_decide as Hdd.
    + intros [= <-]. rewrite Er. intros [= <-]. split; [lia|]. intros d''.
      rewrite lookup_insert_eq. by intros [= <-].
    + intros Hy Hyr. destruct (H3 _ _ _ Hy Hyr) as [Hlt Htm]. split; [lia|]. intros d''.
      rewrite lookup_insert_ne by lia. apply Htm.
  - intros d' y. rewrite lookup_insert. case_decide as Hdd; [|by eauto]. by intros [= <-].
  - intros d'. specialize (Ha d').
    change (due d' (goto t (Ret e) ?s0)) with (due d' s0). rewrite due_set_dialer.
    unfold attempts in *. cbn [goros timers core goto set_dialer set_field].
    pose proof (cnt_replace (attempting d') _ _ _ (Ret e) Ht) as Hx. cbn [attempting] in Hx.
    rewrite (cnt_insert_new _ (timers s)) by (by apply H2).
    destruct (decide (d' = d)) as [->|Hne].
    + rewrite bool_decide_true in * by done. unfold due1. rewrite Ex, Eq. cbn in *. lia.
    + rewrite bool_decide_false in * by done. cbn in Hx. cbn [Nat.b2n].
      change (due d' _) with (due d' s). lia.
Qed.

Lemma balanced_timer tm d z s :
  balanced s → timers s !! tm = Some (d, z) → balanced (timer_fires tm d s).
Proof.
  intros [[H1 H2 H3 H4] Ha] Htm. unfold timer_fires.
  assert (ready (s <| timers ::= delete tm |>)) as Hr.
  { split; cbn; [done|..|done].
    - intros tm' Ht'. rewrite lookup_delete_None. right. by apply H2.
    - intros d' x tm' Hx Hxr. destruct (H3 _ _ _ Hx Hxr) as [? Hd']. split; [done|].
      intros d'' [_ ?]%lookup_delete_Some. by apply Hd'. }
  split; [by apply ready_go|]. intros d'. rewrite attempts_go by done.
  change (due d' (go _ _)) with (due d' s). rewrite <-Ha. unfold attempts. cbn [timers goros core set_field].
  rewrite (cnt_delete _ (timers s) tm (d, z)) by done. cbn [attempting fst].
  destruct (bool_decide (d = d')); cbn; lia.
Qed.

Lemma balanced_dialer_Close d x s :
  balanced s → dlrs s !! d = Some x → balanced (dialer_Close d x s).2.
Proof.
  intros Hb Hd. unfold dialer_Close. destruct (d_closed x) eqn:Hc; [done|]. cbn [snd].
  change (redialer (x <| d_closed := true |>)) with (redialer x).
  assert (balanced (set_dialer d (x <| d_closed := true |>) s)) as Hsd.
  { eapply balanced_keeps; [by eapply keeps_set_dialer|done]. }
  destruct (redialer x) as [tm|] eqn:Hx; [|done]. destruct (timers s !! tm) as [[d' z]|] eqn:Htm; [|done].
  destruct Hb as [[H1 H2 H3 H4] Ha]. destruct (H3 _ _ _ Hd Hx) as [Hlt Hd'].
  pose proof (Hd' _ Htm) as E. cbn in E. subst d'. clear Hsd Hd'.
  assert (due d s = 1) as Hdue.
  { pose proof (cnt_pos (λ v, bool_decide (v.1 = d)) _ _ _ Htm (bool_decide_eq_true_2 _ eq_refl)).
    specialize (Ha d). unfold attempts in Ha. unfold due in *. repeat case_match; lia. }
  destruct (due_active _ _ _ Hd Hdue) as [Hact Hq]. set (x' := x <| d_closed := true |> <| quit := _ |>).
  split; [split|]; cbn.
  - done.
  - intros tm' Ht'. rewrite lookup_delete_None. right. by apply H2.
  - intros d' y tm'. rewrite lookup_insert. case_decide as Hdd.
    + intros [= <-]. cbn. rewrite Hx. intros [= <-]. split; [done|]. intros d''. by rewrite lookup_delete_eq.
    + intros Hy Hyr. destruct (H3 _ _ _ Hy Hyr) as [? Hd']. split; [done|].
      intros d'' [_ ?]%lookup_delete_Some. by apply Hd'.
  - intros d' y. rewrite lookup_insert. case_decide; [|by eauto]. intros [= <-]. cbn. congruence.
  - intros d'. specialize (Ha d'). rewrite due_set_dialer. unfold attempts in *.
    cbn [goros timers core set_dialer set_field].
    rewrite (cnt_delete _ (timers s) tm (d, z)) in Ha by done. cbn [fst] in Ha.
    destruct (decide (d' = d)) as [->|Hne].
    + rewrite bool_decide_true in Ha by done. unfold due1. cbn. rewrite andb_false_r. cbn in Ha. lia.
    + rewrite bool_decide_false in Ha by done. cbn in Ha. change (due d' _) with (due d' s). lia.
Qed.

(** Options change neither whether a dialer runs nor its timer. *)
Definition alike (x x' : tdialer) : Prop :=
  redialer x' = redialer x ∧ d_active x' = d_active x ∧ quit x' = quit x ∧ d_closed x' = d_closed x.
Lemma dialer_SetOption_alike tset n v x : alike x (dialer_SetOption tset n v x).2.
Proof. unfold dialer_SetOption. repeat case_match; done. Qed.
Lemma set_options_alike tset o x : alike x (set_options tset o x).2.
Proof.
  revert x. induction o as [|[n v] o IH]; intros x; [done|]. cbn [set_options].
  pose proof (dialer_SetOption_alike tset n v x) as Ha.
  destruct (dialer_SetOption tset n v x) as [[e|] x1]; [done|].
  destruct Ha as (H1 & H2 & H3 & H4), (IH x1) as (G1 & G2 & G3 & G4). cbn in *.
  split_and!; congruence.
Qed.

Lemma keeps_alike d x x' s : dlrs s !! d = Some x → alike x x' → keeps s (set_dialer d x' s).
Proof. intros Hd (Hr & Ha & Hq & _). by eapply keeps_set_dialer. Qed.

Lemma keeps_new_dialer d x s :
  dlrs s !! d = None → d_active x = false → redialer x = None → quit x = None →
  keeps s (set_dialer d x s).
Proof.
  intros Hd Ha Hr Hq. split.
  - intros [H1 H2 H3 H4]. split; cbn; [done|done|..]; intros d' y; [intros tm|];
      rewrite lookup_insert; case_decide; try (by eauto); intros [= <-]; congruence.
  - intros _ d'. change (attempts d' (set_dialer d x s)) with (attempts d' s). rewrite due_set_dialer.
    case_decide; [|done]. subst. unfold due, due1. by rewrite Hd, Ha.
Qed.
(** [NewDialer] adds an idle dialer, or nothing. *)
Lemma NewDialer_cases tr d addr o (s : sock) :
  (NewDialer tr d addr o s).2 = s ∨
  closed s = false ∧ ∃ x, d_active x = false ∧ redialer x = None ∧ quit x = None ∧
    (NewDialer tr d addr o s).2 = set_dialer d x (s <| dialers ::= (λ l, l ++ [d]) |>).
Proof.
  unfold NewDialer. case_match; [|by left]. case_match; [by left|].
  pose proof (set_options_alike (t_SetOption t) o (mkDialer false false (dialAsynch s) None 0
    (s_reconnMinTime s) (s_reconnMaxTime s) (s_reconnBackoffOnClose s) None)) as (Hr & Ha & Hq & _).
  destruct (set_options _ _ _) as [[e|] x]; [by left|].
  case_decide; [by left|]. destruct (closed s); [by left|]. right. split; [done|]. by exists x.
Qed.
Lemma NewListener_cases tr l addr o (s : sock) :
  (NewListener tr l addr o s).2 = s ∨
  closed s = false ∧ (NewListener tr l addr o s).2 =
    set_listener l (mkListener false false) (s <| listeners ::= (λ ls, ls ++ [l]) |>).
Proof. unfold NewListener. repeat (case_match; try (by left)); by right. Qed.

Lemma keeps_pass_option tset n v s d : keeps s (pass_option tset n v s d).
Proof.
  unfold pass_option. destruct (dlrs s !! d) eqn:Hd; [|reflexivity].
  eapply keeps_alike; [done|apply dialer_SetOption_alike].
Qed.
Lemma keeps_foldl {A} (f : sock → A → sock) l s :
  (∀ s a, keeps s (f s a)) → keeps s (foldl f s l).
Proof.
  intros Hf. revert s. induction l as [|a l IH]; intros s; [reflexivity|]. cbn. etrans; [apply Hf|apply IH].
Qed.
(** The fields that the options of the socket touch. *)
Lemma own_SetOption_frame n v (s : sock) :
  let s' := (own_SetOption n v s).2 in
  goros s' = goros s ∧ nextg s' = nextg s ∧ timers s' = timers s ∧ nextt s' = nextt s ∧
  dlrs s' = dlrs s ∧ core s' = core s ∧ lsns s' = lsns s ∧ dialers s' = dialers s ∧
  listeners s' = listeners s ∧ closed s' = closed s ∧ swept s' = swept s ∧ proto s' = proto s.
Proof. unfold own_SetOption. repeat case_match; done. Qed.
Lemma SetOption_cases tset n v (s : sock) :
  let s1 := s <| proto := (p_SetOption n v (proto s)).2 |> in
  (SetOption tset n v s).2 = s1 ∨ (SetOption tset n v s).2 = (own_SetOption n v s1).2 ∨
  (SetOption tset n v s).2 =
    foldl (pass_option tset n v) (own_SetOption n v s1).2 (dialers (own_SetOption n v s1).2).
Proof.
  unfold SetOption. destruct (p_SetOption n v (proto s)) as [e pr]. cbn [snd].
  destruct e as [[]|]; try (by left). right.
  destruct (own_SetOption n v (s <| proto := pr |>)) as [[e|] s1]; [by left|by right].
Qed.
Lemma keeps_SetOption tset n v (s : sock) : keeps s (SetOption tset n v s).2.
Proof.
  set (s1 := s <| proto := (p_SetOption n v (proto s)).2 |>).
  assert (keeps s s1) as H1 by by apply keeps_same.
  assert (keeps s (own_SetOption n v s1).2) as H2.
  { etrans; [exact H1|]. destruct (own_SetOption_frame n v s1) as (?&?&?&?&?&?&_). by apply keeps_same. }
  destruct (SetOption_cases tset n v s) as [->|[->| ->]]; [done|done|].
  etrans; [exact H2|]. apply keeps_foldl. apply keeps_pass_option.
Qed.

Lemma keeps_listener_step g s s' :
  goros s' = goros s → nextg s' = nextg s → timers s' = timers s → nextt s' = nextt s →
  dlrs s' = dlrs s → core s' = core s → (∀ d, attempting d g = false) → keeps s (go g s').
Proof. intros. etrans; [by apply (keeps_same s s')|by apply keeps_go]. Qed.

Lemma balanced_Close_next t ls ds te s :
  balanced s → goros s !! t = Some (Closing ls ds) → balanced (Close_next t ls ds te s).
Proof.
  intros Hb Ht. unfold Close_next. destruct ls as [|l ls]; [destruct ds as [|d ds]|].
  - destruct (p_Close (proto s)) as [e pr]. apply (balanced_keeps s); [|done].
    etrans; [by apply (keeps_same s (s <| proto := pr |>))|]. by eapply keeps_goto.
  - assert (balanced (goto t (Closing [] ds) s)) as Hb1
      by (apply (balanced_keeps s); [by eapply keeps_goto|done]).
    cbn zeta. destruct (dlrs (goto t (Closing [] ds) s) !! d) as [x|] eqn:Hd; [|done].
    by apply balanced_dialer_Close.
  - assert (keeps s (goto t (Closing ls ds) s)) as Hk by by eapply keeps_goto.
    cbn zeta. case_match; [|by eapply balanced_keeps].
    apply (balanced_keeps s); [etrans; [exact Hk|]|done].
    unfold listener_Close. case_match; [reflexivity|by apply keeps_same].
Qed.

Lemma plain_adds l d : plain l = true → adds d l = false.
Proof. by destruct l. Qed.

Lemma balanced_step l (s s' : sock) : balanced s → sstep l s = Some s' → balanced s'.
Proof.
  intros Hb. destruct l; cbn [sstep].
  - intros (pr & _ & [= <-])%bind_Some. apply (balanced_keeps s); [by apply keeps_same|done].
  - intros [Hp Hs]%guard_bind_Some. apply (balanced_keeps s); [|done].
    eapply keeps_core_do; [done|]. intros d. by apply plain_adds.
  - intros Hs. apply (balanced_keeps s); [by eapply keeps_attach|done].
  - intros Hs. apply (balanced_keeps s); [by eapply keeps_close_locked|done].
  - intros [_ [= <-]]%guard_bind_Some. destruct te; [|done].
    apply (balanced_keeps s); [by apply keeps_go|done].
  - intros [_ [= <-]]%guard_bind_Some. apply (balanced_keeps s); [by apply keeps_go|done].
  - intros [_ [= <-]]%guard_bind_Some. apply (balanced_keeps s); [by apply keeps_go|done].
  - destruct (goros s !! t) as [[]|] eqn:Ht; try done. intros Hs.
    apply (balanced_keeps s); [by eapply keeps_close_pipe|done].
  - intros [Hd [= <-]]%guard_bind_Some.
    destruct (NewDialer_cases tr d addr o s) as [->|(_ & x & ? & ? & ? & ->)]; [done|].
    apply (balanced_keeps s); [|done].
    etrans; [by apply (keeps_same s (s <| dialers ::= (λ l, l ++ [d]) |>))|by apply keeps_new_dialer].
  - intros (x & Hd & [= <-])%bind_Some. by apply balanced_Dial.
  - destruct (goros s !! t) as [[]|] eqn:Ht; try done. intros (x & Hd & [= <-])%bind_Some.
    by apply balanced_dial_enter.
  - destruct (goros s !! t) as [[]|] eqn:Ht; try done. intros (x & Hd & [= <-])%bind_Some.
    by eapply balanced_dial_failed.
  - destruct (goros s !! t) as [[]|] eqn:Ht; try done. intros Hs.
    apply bind_Some in Hs as (s1 & Hs & [= <-]). eapply balanced_added; [done|done|..|done]; [|done].
    intros d'. cbn. apply bool_decide_ext. naive_solver.
  - destruct (goros s !! t) as [[]|] eqn:Ht; try done.
    intros (x & Hd & [_ [= <-]]%guard_bind_Some)%bind_Some. by apply balanced_redial.
  - intros ([d z] & Htm & [= <-])%bind_Some. by eapply balanced_timer.
  - destruct (goros s !! t) as [[]|] eqn:Ht; try done. intros (x & Hd & [= <-])%bind_Some.
    apply (balanced_keeps s); [|done]. etrans; [by apply (keeps_goto t (PipeConnected d) (Ret None))|].
    by eapply keeps_set_dialer.
  - destruct (goros s !! t) as [[]|] eqn:Ht; try done. intros (x & Hd & [= <-])%bind_Some.
    apply (balanced_keeps s); [by eapply keeps_goto|done].
  - intros (x & Hd & [= <-])%bind_Some. by apply balanced_dialer_Close.
  - intros (x & Hd & [= <-])%bind_Some. apply (balanced_keeps s); [|done].
    eapply keeps_alike; [done|apply dialer_SetOption_alike].
  - intros [_ [= <-]]%guard_bind_Some. apply (balanced_keeps s); [|done].
    destruct (NewListener_cases tr l addr o s) as [->|[_ ->]]; [reflexivity|by apply keeps_same].
  - intros (x & Hd & [= <-])%bind_Some. apply (balanced_keeps s); [|done]. unfold listener_Listen.
    do 2 (case_match; [by apply keeps_go|]). by apply keeps_listener_step.
  - destruct (goros s !! t) as [[]|] eqn:Ht; try done. intros (x & Hd & [= <-])%bind_Some.
    apply (balanced_keeps s); [|done]. assert (∀ e, keeps s (goto t (Ret e) s)) as Hk
      by (intros; by eapply keeps_goto). unfold listener_listened. case_match.
    + etrans; [apply Hk|by apply keeps_same].
    + etrans; [apply Hk|by apply keeps_go].
  - destruct (goros s !! t) as [[]|] eqn:Ht; try done. intros (x & Hd & [= <-])%bind_Some.
    apply (balanced_keeps s); [|done]. unfold serve_top. eapply keeps_goto; [done|]. by case_match.
  - destruct (goros s !! t) as [[]|] eqn:Ht; try done. intros [= <-].
    apply (balanced_keeps s); [|done]. unfold accept_failed. eapply keeps_goto; [done|]. by case_match.
  - destruct (goros s !! t) as [[]|] eqn:Ht; try done. intros Hs.
    apply bind_Some in Hs as (s1 & Hs & [= <-]).
    eapply balanced_added; [done|done| |done|done]. intros d. by rewrite bool_decide_false.
  - destruct (goros s !! t) as [[]|] eqn:Ht; try done.
    intros (p & _ & [_ [= <-]]%guard_bind_Some)%bind_Some.
    apply (balanced_keeps s); [|done]. eapply keeps_goto; [done|]. by case_match.
  - intros (x & Hd & [= <-])%bind_Some. apply (balanced_keeps s); [|done]. unfold listener_Close.
    case_match; [reflexivity|by apply keeps_same].
  - intros [= <-]. apply (balanced_keeps s); [apply keeps_SetOption|done].
  - intros [= <-]. apply (balanced_keeps s); [by apply keeps_listener_step|done].
  - destruct (goros s !! t) as [[]|] eqn:Ht; try done. intros [= <-]. by apply balanced_Close_next.
  - destruct (goros s !! t) as [[]|] eqn:Ht; try done. intros [_ [= <-]]%guard_bind_Some.
    apply (balanced_keeps s); [|done]. unfold Close_pipes.
    etrans; [by apply (keeps_same s (s <| swept := true |>))|].
    etrans; [by apply (keeps_goto t (ClosingPipes e) (Ret e))|].
    apply keeps_foldl. intros s0 k. by apply keeps_go.
Qed.

(** ** Redialing *)
Lemma core_do_dlrs cl (s s' : sock) : core_do cl s = Some s' → ready s → dlrs s' = dlrs s.
Proof. intros Hs Hr. by destruct (core_do_attempts _ _ _ Hs Hr) as (_ & _ & ?). Qed.

(** The steps that make a dialer stop. *)
Definition gives_up (l : slabel) (d : did) (s : sock) : Prop :=
  ∃ t e again, l = SDialFailed t e ∧ goros s !! t = Some (DialWait d again) ∧
    (again = false ∨ e = ErrClosed).

Lemma set_dialer_quit d0 x0' d x x' (s s1 : sock) :
  dlrs s1 = dlrs s → dlrs s !! d = Some x → quit x = None →
  dlrs (set_dialer d0 x0' s1) !! d = Some x' → quit x' ≠ None →
  d0 = d ∧ x0' = x'.
Proof.
  intros E Hd Hq. cbn. rewrite E, lookup_insert. case_decide; [by intros [= <-]|].
  intros. congruence.
Qed.
Lemma dialer_Close_quit d0 x0 d x x' (s s1 : sock) :
  dlrs s1 = dlrs s → dlrs s !! d = Some x → quit x = None →
  dlrs (dialer_Close d0 x0 s1).2 !! d = Some x' → quit x' ≠ None → d_closed x' = true.
Proof.
  intros E Hd Hq. unfold dialer_Close. repeat case_match; cbn [snd]; intros Hx Hx'.
  1: congruence.
  all: eapply set_dialer_quit in Hx as [_ <-]; [done|..|exact Hx']; done.
Qed.
Definition same_quit (m m' : gmap did tdialer) : Prop :=
  ∀ d x', m' !! d = Some x' → ∃ x, m !! d = Some x ∧ quit x' = quit x.
Lemma same_quit_trans m1 m2 m3 : same_quit m1 m2 → same_quit m2 m3 → same_quit m1 m3.
Proof.
  intros A B d x3 H3. destruct (B _ _ H3) as (x2 & H2 & ->). destruct (A _ _ H2) as (x1 & H1 & ->). by exists x1.
Qed.
Lemma same_quit_eq m m' : m' = m → same_quit m m'.
Proof. intros -> d x Hx. by exists x. Qed.
Lemma same_quit_insert m d x x' : m !! d = Some x → quit x' = quit x → same_quit m (<[d := x']> m).
Proof.
  intros Hd Hq d' y. rewrite lookup_insert. case_decide; [|by exists y]. intros [= <-]. subst. by exists x.
Qed.
Lemma same_quit_pass tset n v l (s : sock) :
  same_quit (dlrs s) (dlrs (foldl (pass_option tset n v) s l)).
Proof.
  revert s. induction l as [|d l IH]; intros s; [by apply same_quit_eq|]. cbn [foldl].
  eapply same_quit_trans; [|apply IH]. unfold pass_option.
  destruct (dlrs s !! d) as [x|] eqn:Hd; [|by apply same_quit_eq].
  apply (same_quit_insert _ _ x); [done|apply dialer_SetOption_alike].
Qed.
Lemma same_quit_SetOption tset n v (s : sock) : same_quit (dlrs s) (dlrs (SetOption tset n v s).2).
Proof.
  set (s1 := s <| proto := (p_SetOption n v (proto s)).2 |>).
  assert (dlrs (own_SetOption n v s1).2 = dlrs s) as E
    by (destruct (own_SetOption_frame n v s1) as (_ & _ & _ & _ & E & _); exact E).
  destruct (SetOption_cases tset n v s) as [->|[->| ->]]; [by apply same_quit_eq..|].
  eapply same_quit_trans; [by apply same_quit_eq|apply same_quit_pass].
Qed.

Lemma attach_dlrs k (s s' : sock) : attach k s = Some s' → ready s → dlrs s' = dlrs s.
Proof.
  intros Hs Hr. apply bind_Some in Hs as (p & _ & Hs). case_match; [by eapply core_do_dlrs|].
  destruct (p_AddPipe k (id p) (proto s)) as [e pr]. apply bind_Some in Hs as (s1 & Hs & [= <-]).
  apply core_do_dlrs in Hs; [|destruct Hr; by split]. by destruct e.
Qed.

(** A dialer only stops when it is closed, or when [gives_up] says. *)
Lemma quits l (s s' : sock) d x x' :
  ready s → sstep l s = Some s' → dlrs s !! d = Some x → quit x = None →
  dlrs s' !! d = Some x' → quit x' ≠ None → d_closed x' = true ∨ gives_up l d s.
Proof.
  intros Hr Hs Hd Hq Hx Hx'.
  assert (same_quit (dlrs s) (dlrs s') → d_closed x' = true ∨ gives_up l d s) as Hsame.
  { intros H. destruct (H _ _ Hx) as (y & Hy & Hyq). congruence. }
  assert (dlrs s' = dlrs s → d_closed x' = true ∨ gives_up l d s) as Heq
    by (intros E; by apply Hsame, same_quit_eq).
  destruct l; cbn [sstep] in Hs.
  - apply bind_Some in Hs as (pr & _ & [= <-]). by apply Heq.
  - apply guard_bind_Some in Hs as [_ Hs]. by eapply Heq, core_do_dlrs.
  - by eapply Heq, attach_dlrs.
  - apply bind_Some in Hs as (p & _ & Hs). apply Heq. case_match; apply core_do_dlrs in Hs; try done.
    destruct Hr; by split.
  - apply guard_bind_Some in Hs as [_ [= <-]]. apply Heq. by destruct te.
  - apply guard_bind_Some in Hs as [_ [= <-]]. by apply Heq.
  - apply guard_bind_Some in Hs as [_ [= <-]]. by apply Heq.
  - destruct (goros s !! t) as [[]|] eqn:Ht; try done. apply bind_Some in Hs as (p & _ & Hs). cbv zeta in Hs.
    apply Heq. destruct (once p); [by injection Hs as <-|].
    apply core_do_dlrs in Hs; [done|by eapply ready_goto].
  - apply guard_bind_Some in Hs as [Hn [= <-]].
    destruct (NewDialer_cases tr d0 addr o s) as [E|(_ & y & _ & _ & Hyq & E)]; rewrite E in Hx; [congruence|].
    eapply set_dialer_quit in Hx as [_ <-]; [congruence|done..].
  - apply bind_Some in Hs as (y & Hy & [= <-]). apply Hsame. unfold dialer_Dial.
    repeat case_match; try (by apply same_quit_eq); by eapply same_quit_insert.
  - destruct (goros s !! t) as [[]|] eqn:Ht; try done. apply bind_Some in Hs as (y & Hy & [= <-]).
    revert Hx. unfold dial_enter. case_match; [|cbn; congruence].
    intros Hx. eapply set_dialer_quit in Hx as [_ <-]; [by left|done..].
  - destruct (goros s !! t) as [[]|] eqn:Ht; try done. apply bind_Some in Hs as (y & Hy & [= <-]).
    revert Hx. unfold dial_failed. case_match eqn:Ha; [|case_match eqn:He; [|cbn; congruence]];
      intros Hx; eapply set_dialer_quit in Hx as [-> _]; try done; right; exists t, e, again;
      (split_and!; [done..|]); [left; by destruct again|by right].
  - destruct (goros s !! t) as [[]|] eqn:Ht; try done. apply bind_Some in Hs as (s1 & Hs & [= <-]).
    apply Heq. cbn. by eapply core_do_dlrs.
  - destruct (goros s !! t) as [[]|] eqn:Ht; try done.
    apply bind_Some in Hs as (y & Hy & [_ [= <-]]%guard_bind_Some). apply Hsame.
    eapply same_quit_insert; [done|]. unfold backed_off. by case_match.
  - apply bind_Some in Hs as ([y z] & Hy & [= <-]). by apply Heq.
  - destruct (goros s !! t) as [[]|] eqn:Ht; try done. apply bind_Some in Hs as (y & Hy & [= <-]).
    apply Hsame. by eapply same_quit_insert.
  - destruct (goros s !! t) as [[]|] eqn:Ht; try done. apply bind_Some in Hs as (y & Hy & [= <-]). by apply Heq.
  - apply bind_Some in Hs as (y & Hy & [= <-]). left. by eapply (dialer_Close_quit _ _ _ _ _ s s).
  - apply bind_Some in Hs as (y & Hy & [= <-]). apply Hsame.
    eapply same_quit_insert; [done|apply dialer_SetOption_alike].
  - apply guard_bind_Some in Hs as [_ [= <-]]. apply Heq.
    by destruct (NewListener_cases tr l addr o s) as [->|[_ ->]].
  - apply bind_Some in Hs as (y & Hy & [= <-]). apply Heq. unfold listener_Listen. by repeat case_match.
  - destruct (goros s !! t) as [[]|] eqn:Ht; try done. apply bind_Some in Hs as (y & Hy & [= <-]).
    apply Heq. unfold listener_listened. by case_match.
  - destruct (goros s !! t) as [[]|] eqn:Ht; try done. apply bind_Some in Hs as (y & Hy & [= <-]). by apply Heq.
  - destruct (goros s !! t) as [[]|] eqn:Ht; try done. injection Hs as <-. by apply Heq.
  - destruct (goros s !! t) as [[]|] eqn:Ht; try done. apply bind_Some in Hs as (s1 & Hs & [= <-]).
    apply Heq. cbn. by eapply core_do_dlrs.
  - destruct (goros s !! t) as [[]|] eqn:Ht; try done.
    apply bind_Some in Hs as (p & _ & [_ [= <-]]%guard_bind_Some). by apply Heq.
  - apply bind_Some in Hs as (y & Hy & [= <-]). apply Heq. unfold listener_Close. by case_match.
  - injection Hs as <-. apply Hsame, same_quit_SetOption.
  - injection Hs as <-. by apply Heq.
  - destruct (goros s !! t) as [[]|] eqn:Ht; try done. injection Hs as <-. revert Hx. unfold Close_next.
    destruct ls as [|l ls]; [destruct ds as [|d0 ds]|]; cbn zeta.
    + destruct (p_Close (proto s)). cbn. congruence.
    + case_match; [|cbn; congruence]. intros Hx. left.
      by apply (dialer_Close_quit d0 t0 d x x' s (goto t (Closing [] ds) s)).
    + case_match; [|cbn; congruence]. unfold listener_Close. case_match; cbn; congruence.
  - destruct (goros s !! t) as [[]|] eqn:Ht; try done. apply guard_bind_Some in Hs as [_ [= <-]].
    apply Heq. unfold Close_pipes.
    enough (∀ o (s0 : sock), dlrs (foldl (λ s k, go (ClosePipe k) s) s0 o) = dlrs s0) as -> by done.
    clear. induction o as [|k o IH]; intros s0; [done|]. cbn. by rewrite IH.
Qed.

(** C36.  A dialer makes one attempt at a time and never gives up: as long as
    it is started and has not stopped for good there is exactly one call of
    [dial] or [redial] under way for it, or one armed timer, or one open
    pipe; otherwise there is none.  It stops only when it is closed, when its
    transport answers [ErrClosed], or when a first, synchronous [Dial] fails. *)
Theorem dialer_one_attempt (s : sock) (H : reachable sstep sinit (λ _ _, True) s) :
  (∀ d x, dlrs s !! d = Some x →
     attempts d s = if d_active x && negb (bool_decide (is_Some (quit x))) then 1 else 0) ∧
  (∀ d, dlrs s !! d = None → attempts d s = 0) ∧
  (∀ l s' d x x', sstep l s = Some s' → dlrs s !! d = Some x → quit x = None →
     dlrs s' !! d = Some x' → quit x' ≠ None → d_closed x' = true ∨ gives_up l d s).
Proof.
  assert (balanced s) as [Hr Ha].
  { revert s H. apply (reachable_invariant sstep sinit (λ _ _, True) balanced).
    - intros ? (p & a & ->). split; [by split|]. intros d. done.
    - intros l s s' Hb _ Hs. by eapply balanced_step. }
  split_and!.
  - intros d x Hd. rewrite Ha. unfold due. by rewrite Hd.
  - intros d Hd. rewrite Ha. unfold due. by rewrite Hd.
  - intros l s' d x x'. by apply quits.
Qed.

(** ** The delays of the redial timer *)

(** The delay of dialer [d] and its bounds; the steps that set them from
    outside [redial]. *)
Definition same_delay (x x' : tdialer) : Prop :=
  reconnTime x' = reconnTime x ∧ reconnMinTime x' = reconnMinTime x ∧
  reconnMaxTime x' = reconnMaxTime x.
Definition resets (d : did) (l : slabel) (s : sock) : Prop :=
  match l with
  | SDial d' | SDialerSetOption _ d' _ _ => d' = d
  | SPipeConnected t => goros s !! t = Some (PipeConnected d)
  | SSetOption _ _ _ => True
  | _ => False
  end.
Definition no_new_timers (s s' : sock) : Prop :=
  ∀ tm v, timers s' !! tm = Some v → timers s !! tm = Some v.
(** No timer is armed, and if [q] holds the delay of [d] is left alone. *)
Definition tame (q : Prop) (d : did) (s s' : sock) : Prop :=
  no_new_timers s s' ∧
  (q → ∀ x, dlrs s !! d = Some x → ∃ x', dlrs s' !! d = Some x' ∧ same_delay x x').

Lemma tame_same q d (s s' : sock) : timers s' = timers s → dlrs s' = dlrs s → tame q d s s'.
Proof. intros Et Ed. split; [intros tm v; by rewrite Et|]. intros _ x Hx. exists x. by rewrite Ed. Qed.
Lemma tame_set q d d0 x0 x1 (s s' : sock) :
  no_new_timers s s' → dlrs s !! d0 = Some x0 → dlrs s' = <[d0 := x1]> (dlrs s) →
  (q → d0 = d → same_delay x0 x1) → tame q d s s'.
Proof.
  intros Ht Hd Ed Hq. split; [done|]. intros HQ x Hx. rewrite Ed, lookup_insert. case_decide.
  - subst. exists x1. split; [done|]. rewrite Hd in Hx. injection Hx as <-. by apply Hq.
  - by exists x.
Qed.
Lemma timers_same (s s' : sock) : timers s' = timers s → no_new_timers s s'.
Proof. intros E tm v. by rewrite E. Qed.

Lemma core_do_timers cl (s s' : sock) : core_do cl s = Some s' → timers s' = timers s.
Proof.
  intros (c & _ & [= <-])%bind_Some.
  enough (∀ new (s0 : sock), timers (foldl (λ s n, go (note n) s) s0 new) = timers s0) as -> by done.
  clear. induction new as [|n new IH]; intros s0; [done|]. cbn. by rewrite IH.
Qed.
Lemma tame_core_do q d cl (s s' : sock) : ready s → core_do cl s = Some s' → tame q d s s'.
Proof. intros Hr Hs. apply tame_same; [by eapply core_do_timers|by eapply core_do_dlrs]. Qed.
Lemma tame_attach q d k (s s' : sock) : ready s → attach k s = Some s' → tame q d s s'.
Proof.
  intros Hr Hs. apply tame_same; [|by eapply attach_dlrs].
  apply bind_Some in Hs as (p & _ & Hs). case_match; [by eapply core_do_timers|].
  destruct (p_AddPipe k (id p) (proto s)) as [e pr]. apply bind_Some in Hs as (s1 & Hs & [= <-]).
  apply core_do_timers in Hs. by destruct e.
Qed.
Lemma tame_dialer_Close q d d0 x (s : sock) :
  dlrs s !! d0 = Some x → tame q d s (dialer_Close d0 x s).2.
Proof.
  intros Hd. unfold dialer_Close. repeat case_match; cbn [snd]; try (by apply tame_same).
  all: eapply (tame_set _ _ d0 x _ s); [|done|reflexivity|done]; intros tm v; cbn; try done.
  by intros [_ ?]%lookup_delete_Some.
Qed.
Lemma pass_timers tset n v l (s : sock) : timers (foldl (pass_option tset n v) s l) = timers s.
Proof.
  revert s. induction l as [|d l IH]; intros s; [done|]. cbn. rewrite IH. unfold pass_option.
  by case_match.
Qed.
Lemma SetOption_timers tset n v (s : sock) : timers (SetOption tset n v s).2 = timers s.
Proof.
  set (s1 := s <| proto := (p_SetOption n v (proto s)).2 |>).
  destruct (own_SetOption_frame n v s1) as (_ & _ & E & _).
  destruct (SetOption_cases tset n v s) as [->|[->| ->]]; rewrite ?pass_timers; done.
Qed.

(** Only [redial] arms timers; and it and the steps of [resets] are the only
    ones that change the delay of [d]. *)
Lemma tame_step l (s s' : sock) d :
  ready s → sstep l s = Some s' → (∀ t z, l ≠ SRedial t z) → tame (¬ resets d l s) d s s'.
Proof.
  intros Hr Hs Hl. destruct l; cbn [sstep] in Hs; try (by exfalso; eapply Hl); clear Hl;
    try (destruct (goros s !! t) as [[]|] eqn:Ht; try done).
  - apply bind_Some in Hs as (pr & _ & [= <-]). by apply tame_same.
  - apply guard_bind_Some in Hs as [_ Hs]. by eapply tame_core_do.
  - by eapply tame_attach.
  - apply bind_Some in Hs as (p & _ & Hs). apply tame_same.
    + apply core_do_timers in Hs. by case_match.
    + case_match; apply core_do_dlrs in Hs; try done. destruct Hr; by split.
  - apply guard_bind_Some in Hs as [_ [= <-]]. by destruct te; apply tame_same.
  - apply guard_bind_Some in Hs as [_ [= <-]]. by apply tame_same.
  - apply guard_bind_Some in Hs as [_ [= <-]]. by apply tame_same.
  - apply bind_Some in Hs as (p & _ & Hs). cbv zeta in Hs.
    destruct (once p); [injection Hs as <-; by apply tame_same|].
    apply tame_same; [by apply core_do_timers in Hs|].
    apply core_do_dlrs in Hs; [done|by eapply ready_goto].
  - apply guard_bind_Some in Hs as [Hn [= <-]].
    destruct (NewDialer_cases tr d0 addr o s) as [->|(_ & y & _ & _ & _ & ->)]; [by apply tame_same|].
    split; [by apply timers_same|]. intros _ x Hx. exists x. cbn.
    by rewrite lookup_insert_ne by congruence.
  - apply bind_Some in Hs as (y & Hy & [= <-]). unfold dialer_Dial.
    repeat case_match; try (by apply tame_same); 
      (eapply tame_set; [by apply timers_same|done|done|]); intros Hq ->; by destruct Hq.
  - apply bind_Some in Hs as (y & Hy & [= <-]). unfold dial_enter.
    case_match; [by eapply tame_set; [apply timers_same|..]|by apply tame_same].
  - apply bind_Some in Hs as (y & Hy & [= <-]). unfold dial_failed.
    do 2 (case_match; [by eapply tame_set; [apply timers_same|..]|]). by apply tame_same.
  - apply bind_Some in Hs as (s1 & Hs & [= <-]).
    apply tame_same; [by apply core_do_timers in Hs|by apply core_do_dlrs in Hs].
  - apply bind_Some in Hs as ([d1 z] & Hy & [= <-]). split; [|by intros _ x Hx; exists x].
    intros tm' v. cbn. by intros [_ ?]%lookup_delete_Some.
  - apply bind_Some in Hs as (y & Hy & [= <-]). eapply tame_set; [by apply timers_same|done|done|].
    intros Hq ->. by destruct Hq.
  - apply bind_Some in Hs as (y & Hy & [= <-]). by apply tame_same.
  - apply bind_Some in Hs as (y & Hy & [= <-]). by apply tame_dialer_Close.
  - apply bind_Some in Hs as (y & Hy & [= <-]). eapply tame_set; [by apply timers_same|done|done|].
    intros Hq ->. by destruct Hq.
  - apply guard_bind_Some in Hs as [_ [= <-]].
    destruct (NewListener_cases tr l addr o s) as [->|[_ ->]]; by apply tame_same.
  - apply bind_Some in Hs as (y & Hy & [= <-]). unfold listener_Listen.
    repeat case_match; by apply tame_same.
  - apply bind_Some in Hs as (y & Hy & [= <-]). unfold listener_listened.
    case_match; by apply tame_same.
  - apply bind_Some in Hs as (y & Hy & [= <-]). by apply tame_same.
  - injection Hs as <-. by apply tame_same.
  - apply bind_Some in Hs as (s1 & Hs & [= <-]).
    apply tame_same; [by apply core_do_timers in Hs|by apply core_do_dlrs in Hs].
  - apply bind_Some in Hs as (p & _ & [_ [= <-]]%guard_bind_Some). by apply tame_same.
  - apply bind_Some in Hs as (y & Hy & [= <-]). unfold listener_Close.
    case_match; by apply tame_same.
  - injection Hs as <-. split; [apply timers_same, SetOption_timers|]. intros Hq. by destruct Hq.
  - injection Hs as <-. by apply tame_same.
  - injection Hs as <-. unfold Close_next. destruct ls as [|l ls]; [destruct ds as [|d0 ds]|]; cbn zeta.
    + destruct (p_Close (proto s)). by apply tame_same.
    + case_match; [|by apply tame_same].
      by apply (tame_dialer_Close _ d d0 _ (goto t (Closing [] ds) s)).
    + case_match; [|by apply tame_same]. unfold listener_Close. case_match; by apply tame_same.
  - apply guard_bind_Some in Hs as [_ [= <-]]. unfold Close_pipes.
    enough (∀ o (s0 : sock), timers (foldl (λ s k, go (ClosePipe k) s) s0 o) = timers s0 ∧
      dlrs (foldl (λ s k, go (ClosePipe k) s) s0 o) = dlrs s0) as Hf
      by (destruct (Hf order (goto t (Ret e) (s <| swept := true |>))) as [E1 E2];
          apply tame_same; [by rewrite E1|by rewrite E2]).
    clear. induction o as [|k o IH]; intros s0; [done|]. cbn. by destruct (IH (go (ClosePipe k) s0)).
Qed.

(** ** The backoff *)

(** [zs] are the delays (with the [backoff] that [redial] is called with) of
    calls of [redial] by a dialer with the maximum [max] and the delay [r]. *)
Fixpoint delays (max : Z) (zs : list (bool * Z)) (r : Z) : Prop :=
  match zs with
  | [] => True
  | (b, z) :: zs => z = r ∧ ∃ y, jitter_ok r y ∧
      delays max zs (if b && negb (max =? 0)%Z then Z.min max y else r)
  end.
(** How many of them were with backoff. *)
Definition grown (zs : list (bool * Z)) : Z := Z.of_nat (length (filter (λ z, z.1 = true) zs)).

Lemma grown_cons b z zs : grown ((b, z) :: zs) = ((if b then 1 else 0) + grown zs)%Z.
Proof.
  unfold grown. destruct b; [rewrite filter_cons_True by done|by rewrite filter_cons_False].
  cbn [length]. lia.
Qed.
Lemma grown_nonneg zs : (0 ≤ grown zs)%Z.
Proof. unfold grown. lia. Qed.

Lemma delays_plain zs r : delays 0 zs r → Forall (λ z, z.2 = r) zs.
Proof.
  revert r. induction zs as [|[b z] zs IH]; intros r; [constructor|].
  intros (-> & y & _ & Hd). rewrite andb_false_r in Hd. constructor; [done|by apply IH].
Qed.
Lemma delays_zero max zs : (0 ≤ max)%Z → delays max zs 0 → Forall (λ z, z.2 = 0%Z) zs.
Proof.
  intros Hm. induction zs as [|[b z] zs IH]; [constructor|]. intros (-> & y & Hy & Hd).
  constructor; [done|]. apply IH. unfold jitter_ok in Hy. specialize (Hy ltac:(lia)).
  destruct b; cbn [andb] in Hd; [|done]. destruct (Z.eqb_spec max 0); [done|]. cbn [negb] in Hd.
  replace (Z.min max y) with 0%Z in Hd; [done|]. change (0 * 11 / 10)%Z with 0%Z in Hy.
  change (0 * 3 / 2)%Z with 0%Z in Hy. lia.
Qed.

(** One backoff of a delay from 10 ns on. *)
Lemma backoff_grows max r y :
  jitter_ok r y → (10 ≤ r ≤ max)%Z → (max < 2 ^ 51)%Z →
  (Z.min max (r + r / 10) ≤ Z.min max y)%Z ∧ (r ≤ Z.min max y ≤ max)%Z.
Proof.
  intros Hj Hr Hm. unfold jitter_ok in Hj. specialize (Hj ltac:(lia)). destruct Hj as [Hj _].
  assert (r * 11 / 10 = r + r / 10)%Z as E by (rewrite <-Z.div_add_l by lia; f_equal; lia).
  pose proof (Z.div_pos r 10 ltac:(lia) ltac:(lia)). lia.
Qed.
Lemma delays_grow max zs r i b z :
  delays max zs r → (10 ≤ r ≤ max)%Z → (max < 2 ^ 51)%Z → zs !! i = Some (b, z) →
  (Z.min max (r + grown (take i zs) * (r / 10)) ≤ z ≤ max)%Z ∧ (r ≤ z)%Z.
Proof.
  revert r i. induction zs as [|[b0 z0] zs IH]; intros r i; [done|].
  intros (-> & y & Hy & Hd) Hr Hm. destruct i as [|i].
  { intros [= <- <-]. rewrite take_0. change (grown []) with 0%Z. lia. }
  change (((b0, r) :: zs) !! S i) with (zs !! i). change (take (S i) ((b0, r) :: zs)) with ((b0, r) :: take i zs).
  rewrite grown_cons. intros Hi. pose proof (grown_nonneg (take i zs)) as Hg.
  destruct (Z.eqb_spec max 0) as [|_]; [lia|]. cbn [negb] in Hd. rewrite andb_true_r in Hd.
  destruct b0; [|by apply IH].
  destruct (backoff_grows max r y Hy Hr Hm) as [H1 H2].
  destruct (IH _ i Hd ltac:(lia) Hm Hi) as [IH1 IH2].
  pose proof (Z.div_le_mono r (Z.min max y) 10 ltac:(lia) ltac:(lia)).
  pose proof (Z.div_pos r 10 ltac:(lia) ltac:(lia)). nia.
Qed.
Lemma delays_sorted max zs r :
  delays max zs r → (10 ≤ r ≤ max)%Z → (max < 2 ^ 51)%Z → Sorted Z.le zs.*2.
Proof.
  intros Hd Hr Hm. revert r Hd Hr. induction zs as [|[b z] zs IH]; intros r; [constructor|].
  intros (-> & y & Hy & Hd) Hr. destruct (Z.eqb_spec max 0) as [|_]; [lia|].
  cbn [negb] in Hd. rewrite andb_true_r in Hd. destruct (backoff_grows max r y Hy Hr Hm) as [_ H2].
  cbn. constructor; [destruct b; eapply IH; (exact Hd || lia)|].
  destruct zs as [|[b' z'] zs]; constructor. destruct Hd as [-> _]. destruct b; cbn; lia.
Qed.
(** A delay at the maximum, or above it. *)
Lemma delays_max max zs : (0 < max < 2 ^ 51)%Z → delays max zs max → Forall (λ z, z.2 = max) zs.
Proof.
  intros Hm. induction zs as [|[b z] zs IH]; [constructor|]. intros (-> & y & Hy & Hd).
  constructor; [done|]. apply IH. unfold jitter_ok in Hy. specialize (Hy ltac:(lia)).
  destruct (Z.eqb_spec max 0) as [|_]; [lia|]. destruct b; cbn [andb negb] in Hd; [|done].
  replace (Z.min max y) with max in Hd; [done|].
  pose proof (Z.div_le_lower_bound (max * 11) 10 max ltac:(lia) ltac:(lia)). lia.
Qed.
Lemma delays_above max zs r i b z :
  (0 < max < r)%Z → (r < 2 ^ 51)%Z → delays max zs r → zs !! i = Some (b, z) →
  z = if (grown (take i zs) =? 0)%Z then r else max.
Proof.
  intros Hm Hr. revert i. induction zs as [|[b0 z0] zs IH]; intros i; [done|].
  intros (-> & y & Hy & Hd). destruct i as [|i]; [by intros [= <- <-]|].
  change (((b0, r) :: zs) !! S i) with (zs !! i). change (take (S i) ((b0, r) :: zs)) with ((b0, r) :: take i zs).
  rewrite grown_cons. intros Hi. pose proof (grown_nonneg (take i zs)) as Hg.
  destruct (Z.eqb_spec max 0) as [|_]; [lia|]. cbn [negb] in Hd. rewrite andb_true_r in Hd.
  destruct b0; [|by apply IH].
  unfold jitter_ok in Hy. specialize (Hy ltac:(lia)).
  pose proof (Z.div_le_lower_bound (r * 11) 10 r ltac:(lia) ltac:(lia)).
  rewrite Z.min_l in Hd by lia. apply delays_max in Hd; [|lia]. rewrite Forall_lookup in Hd.
  rewrite (proj2 (Z.eqb_neq _ _)) by lia. exact (Hd _ _ Hi).
Qed.

(** A run between two resets: the timers that are armed for [d], with the
    delays they are set to. *)
Definition armed (d : did) (l : slabel) (s s' : sock) : list (bool * Z) :=
  match l with
  | SRedial t _ =>
      match goros s !! t, timers s' !! nextt s with
      | Some (Redial _ b _), Some (d', z) => if decide (d' = d) then [(b, z)] else []
      | _, _ => []
      end
  | _ => []
  end.
Inductive redials (d : did) : list (bool * Z) → sock → sock → Prop :=
  | redials_none s : redials d [] s s
  | redials_step l zs (s s1 s' : sock) :
      sstep l s = Some s1 → ¬ resets d l s → redials d zs s1 s' →
      redials d (armed d l s s1 ++ zs) s s'.

Lemma redials_delays d zs (s s' : sock) x :
  redials d zs s s' → balanced s → dlrs s !! d = Some x → delays (reconnMaxTime x) zs (reconnTime x).
Proof.
  intros Hr. revert x. induction Hr as [s|l zs s s1 s' Hs Hq Hr IH]; intros x Hb Hx; [done|].
  assert (balanced s1) as Hb1 by by eapply balanced_step.
  assert ((∀ t z, l ≠ SRedial t z) → delays (reconnMaxTime x) (armed d l s s1 ++ zs) (reconnTime x)) as Htame.
  { intros Hl. destruct (tame_step l s s1 d (proj1 Hb) Hs Hl) as [_ Hd].
    destruct (Hd Hq x Hx) as (x1 & Hx1 & <- & _ & <-).
    destruct l; try (by apply IH). by exfalso; eapply Hl. }
  destruct l; try (by apply Htame). clear Htame. cbn [sstep] in Hs.
  destruct (goros s !! t) as [[]|] eqn:Ht; try done.
  apply bind_Some in Hs as (y & Hy & [Hz [= <-]]%guard_bind_Some).
  unfold armed. rewrite Ht. unfold dialer_redial. cbn. rewrite lookup_insert_eq.
  destruct (decide (d0 = d)) as [->|Hne].
  - assert (y = x) as -> by congruence. cbn. split; [done|]. exists z. split; [done|].
    specialize (IH _ Hb1 (lookup_insert_eq _ _ _)). unfold backed_off in IH.
    destruct (backoff && negb (reconnMaxTime x =? 0)%Z); cbn in IH; [|done].
    destruct (Z.ltb_spec (reconnMaxTime x) z); [by rewrite Z.min_l by lia|by rewrite Z.min_r by lia].
  - apply IH; [done|]. cbn. by rewrite lookup_insert_ne.
Qed.

(** Such a run, computed. *)
#[local] Instance goro_eq_dec : EqDecision goro.
Proof. solve_decision. Defined.
#[local] Instance resets_dec d l s : Decision (resets d l s).
Proof. destruct l; cbn; apply _. Defined.
Fixpoint replay (d : did) (ls : list slabel) (s : sock) : option (list (bool * Z) * sock) :=
  match ls with
  | [] => Some ([], s)
  | l :: ls =>
      guard (¬ resets d l s);; s1 ← sstep l s;
      '(zs, s') ← replay d ls s1; Some (armed d l s s1 ++ zs, s')
  end.
Lemma redials_replay d ls zs (s s' : sock) : replay d ls s = Some (zs, s') → redials d zs s s'.
Proof.
  revert s zs. induction ls as [|l ls IH]; intros s zs; cbn [replay].
  - intros [= <- <-]. constructor.
  - intros [Hq (s1 & Hs & ([zs' s2] & Hr & [= <- <-])%bind_Some)%bind_Some]%guard_bind_Some.
    eapply redials_step; eauto.
Qed.

Lemma reachable_balanced (s : sock) : reachable sstep sinit (λ _ _, True) s → balanced s.
Proof.
  apply (reachable_invariant sstep sinit (λ _ _, True) balanced).
  - intros ? (p & a & ->). split; [by split|]. intros d. done.
  - intros l s0 s' Hb _ Hs. by eapply balanced_step.
Qed.

(** C38.  The delays for which [redial] arms its timer, in a run of the socket
    in which the dialer's delay is not reset ([Dial], a pipe that connects) and
    no options change.  [r] is its delay at first ([Dial] and [pipeConnected]
    set it to [reconnMinTime]), [max] its maximum.
    - The first timer is set to [r]; if [max] is 0 all of them are, and if [r]
      is 0 (and [max] not negative) all are set to 0.
    - If 10 ns <= [r] <= [max] (and [max] is below 2^51 ns, 26 days), the
      delays never exceed [max] and never shrink, and a delay is at least [r]
      plus a tenth of [r] for every call with backoff before it, or [max].
    - If [max] is below [r], every delay before the first backoff is [r], above
      the maximum, and every one after it is [max].
    Only [redial] arms timers. *)
Theorem redial_backoff d zs (s s' : sock) x (H : reachable sstep sinit (λ _ _, True) s)
    (Hz : redials d zs s s') (Hx : dlrs s !! d = Some x) :
  let r := reconnTime x in
  let max := reconnMaxTime x in
  (∀ b z, zs !! 0 = Some (b, z) → z = r) ∧
  (max = 0%Z → Forall (λ z, z.2 = r) zs) ∧
  (r = 0%Z → (0 ≤ max)%Z → Forall (λ z, z.2 = 0%Z) zs) ∧
  ((10 ≤ r ≤ max)%Z → (max < 2 ^ 51)%Z →
     Sorted Z.le zs.*2 ∧
     ∀ i b z, zs !! i = Some (b, z) → (Z.min max (r + grown (take i zs) * (r / 10)) ≤ z ≤ max)%Z) ∧
  ((0 < max < r)%Z → (r < 2 ^ 51)%Z →
     ∀ i b z, zs !! i = Some (b, z) → z = if (grown (take i zs) =? 0)%Z then r else max) ∧
  (∀ l s1 tm v, sstep l s = Some s1 → timers s1 !! tm = Some v →
     timers s !! tm = Some v ∨ ∃ t z, l = SRedial t z ∧ tm = nextt s) ∧
  (∀ l s1 x1, sstep l s = Some s1 → dlrs s1 !! d = Some x1 →
     l = SDial d ∧ d_active x = false ∧ d_closed x = false ∨
       (∃ t, l = SPipeConnected t ∧ goros s !! t = Some (PipeConnected d)) →
     reconnTime x1 = reconnMinTime x1).
Proof.
  intros r max. apply reachable_balanced in H as Hb.
  assert (delays max zs r) as Hd by by eapply redials_delays.
  split_and!.
  - intros b z Hi. destruct zs as [|[b0 z0] zs]; [done|]. injection Hi as <- <-. apply Hd.
  - intros Hm. apply delays_plain. by rewrite <-Hm.
  - intros Hr Hm. apply (delays_zero max); [done|]. by rewrite <-Hr.
  - intros Hr Hm. split; [by eapply delays_sorted|]. intros i b z Hi. by eapply delays_grow.
  - intros Hm Hr i b z Hi. by eapply delays_above.
  - intros l s1 tm v Hs Ht. assert ((∀ t z, l ≠ SRedial t z) → timers s !! tm = Some v) as Hold.
    { intros Hl. by apply (tame_step l s s1 d (proj1 Hb) Hs Hl). }
    destruct l; try (by left; apply Hold). cbn [sstep] in Hs.
    destruct (goros s !! t) as [[]|]; try done.
    apply bind_Some in Hs as (y & _ & [_ [= <-]]%guard_bind_Some).
    cbn in Ht. apply lookup_insert_Some in Ht as [[<- _]|[_ ?]]; [right; by exists t, z|by left].
  - intros l s1 x1 Hs Hx1 [(-> & Ha & Hc)|(t & -> & Ht)]; cbn [sstep] in Hs.
    + rewrite Hx in Hs. cbn in Hs. injection Hs as <-. revert Hx1. unfold dialer_Dial.
      rewrite Ha, Hc. case_match; cbn; rewrite lookup_insert_eq; by intros [= <-].
    + rewrite Ht, Hx in Hs. cbn in Hs. injection Hs as <-. revert Hx1. cbn.
      rewrite lookup_insert_eq. by intros [= <-].
Qed.
End SocketInv.

(** ** A socket at work, with the PAIR protocol *)
Definition loopback : gmap string transport :=
  {["inproc" := mkTransport (λ _, None) (λ _, None) (λ _ _, Some ErrBadOption)]}.

(** A first connection attempt fails and is repeated when the timer fires;
    the pipe it brings is lost, and the dialer tries again. *)
Definition dialing : list (slabel (P := XPair.state)) :=
  [SNewDialer loopback 0 "inproc://a" [(OptionDialAsynch, VBool true)]; SDial 0; SDialEnter 0;
   SDialFailed 0 ErrConnRefused; SRedial 0 120000000; STimer 0; SDialEnter 2;
   SDialConnected 2 0 [Byte.x00; Byte.x00; Byte.x00; Byte.x05]; SAttach 0; SCore (LAttached 0);
   SPipeConnected 3; SPipeSend 0 (Some ErrClosed); SClosePipe 4; SCloseLocked 0; SPipeClosed 5;
   SRedial 5 110000000].
Definition dialing_socket : Socket.sock (P := XPair.state) :=
  play sstep okT dialing (newSocket XPair.NewProtocol alloc0).

Lemma dialer_one_attempt_witness :
  timers dialing_socket !! 1 = Some (0, 100000000%Z) ∧ size (dlrs dialing_socket) = 1 ∧
  attempts 0 dialing_socket = 1.
Proof.
  assert (reachable sstep sinit (λ _ _, True) dialing_socket) as Hr.
  { apply play_reachable; [done|]. by eexists _, _. }
  split; [by vm_compute|]. split; [by vm_compute|].
  destruct (dlrs dialing_socket !! 0) as [x|] eqn:Hx; [|by vm_compute in Hx].
  rewrite (proj1 (dialer_one_attempt dialing_socket Hr) 0 x Hx).
  revert Hx. vm_compute. by intros [= <-].
Defined.

(** A dialer whose attempts keep failing: delays of 0.1 s, 0.12 s, 0.17 s, and
    then the maximum of 0.25 s. *)
Definition failing_start : Socket.sock (P := XPair.state) :=
  play sstep okT
    [SNewDialer loopback 0 "inproc://a"
       [(OptionDialAsynch, VBool true); (OptionMaxReconnectTime, VDuration 250000000)]; SDial 0]
    (newSocket XPair.NewProtocol alloc0).
Definition failing : list (slabel (P := XPair.state)) :=
  [SDialEnter 0; SDialFailed 0 ErrConnRefused; SRedial 0 120000000; STimer 0;
   SDialEnter 2; SDialFailed 2 ErrConnRefused; SRedial 2 170000000; STimer 1;
   SDialEnter 3; SDialFailed 3 ErrConnRefused; SRedial 3 254000000; STimer 2;
   SDialEnter 4; SDialFailed 4 ErrConnRefused; SRedial 4 300000000].
Definition failing_delays : list (bool * Z) :=
  [(true, 100000000); (true, 120000000); (true, 170000000); (true, 250000000)]%Z.

Lemma redial_backoff_witness :
  fst <$> replay 0 failing failing_start = Some failing_delays ∧
  Sorted Z.le failing_delays.*2 ∧
  (Z.min 250000000 (100000000 + 3 * (100000000 / 10)) ≤ 250000000 ≤ 250000000)%Z.
Proof.
  assert (reachable sstep sinit (λ _ _, True) failing_start) as Hr.
  { apply play_reachable; [done|]. by eexists _, _. }
  assert (fst <$> replay 0 failing failing_start = Some failing_delays) as Hf by by vm_compute.
  split; [exact Hf|].
  destruct (replay 0 failing failing_start) as [[zs s']|] eqn:Hrun; [|done]. injection Hf as ->.
  apply redials_replay in Hrun.
  destruct (dlrs failing_start !! 0) as [x|] eqn:Hx; [|by vm_compute in Hx].
  assert (reconnTime x = 100000000%Z ∧ reconnMaxTime x = 250000000%Z) as [Er Em]
    by (revert Hx; vm_compute; by intros [= <-]).
  destruct (redial_backoff 0 failing_delays failing_start s' x Hr Hrun Hx)
    as (_ & _ & _ & Hgrow & _). rewrite Er, Em in Hgrow.
  destruct Hgrow as [Hsort Hall]; [lia|lia|]. split; [exact Hsort|].
  exact (Hall 3 true 250000000%Z eq_refl).
Defined.
