(* ===== verification/SocketClose.v ===== *)
(** * SocketClose: what closing a socket leaves behind

    [socket.Close] of [src/internal/core/socket.go] runs while dialers,
    listeners and pipes come and go.  Here is the invariant that makes sure
    that it misses none of them. *)
From stdpp Require Import gmap list strings fin_maps.
From Stdlib Require Import ZArith Lia.
From S2P Require Import Prelude Types Chan XPair PipeIDs Core Protocol Socket SocketInv.
Import PairProtocol.

Section SocketClose.
Context {P : Type} `{!ProtocolBase P}.
Abbreviation sock := (@sock P).
Abbreviation slabel := (@slabel P _).

(** ** What [Close] leaves behind *)

(** The goroutines that [Close] waits for, and those it leaves to close the
    pipes. *)
Definition closing_up (g : goro) : bool :=
  match g with Closing _ _ | ClosingPipes _ | ClosePipe _ => true | _ => false end.
Definition tended (k : nat) (s : sock) : Prop := ∃ t, goros s !! t = Some (ClosePipe k).

Record shut (s : sock) : Prop := {
  sh_ready : ready s;
  sh_cinv : cinv (core s);
  sh_lists : closed s = true → dialers s = [] ∧ listeners s = [];
  sh_dialer d x : dlrs s !! d = Some x → d_closed x = false →
    d ∈ dialers s ∨ ∃ t ls ds, goros s !! t = Some (Closing ls ds) ∧ d ∈ ds;
  sh_listener l y : lsns s !! l = Some y → l_closed y = false →
    l ∈ listeners s ∨ ∃ t ls ds, goros s !! t = Some (Closing ls ds) ∧ l ∈ ls;
  sh_going : closed s = true → swept s = true ∨
    ∃ t g, goros s !! t = Some g ∧ closing_up g = true ∧ ∀ k, g ≠ ClosePipe k;
  sh_proto : (swept s = true ∨ ∃ t e, goros s !! t = Some (ClosingPipes e)) →
    p_closed (proto s) = true;
  sh_rejected k p : cpipes (core s) !! k = Some p → adding p = Rejected →
    once p = true ∨ tended k s;
  sh_swept k p : swept s = true → cpipes (core s) !! k = Some p →
    once p = true ∨ adding p = Attaching ∨ tended k s
}.

(** Steps that do not matter to that. *)
Record calm (s s' : sock) : Prop := {
  cm_ready : ready s → ready s';
  cm_cinv : cinv (core s) → cinv (core s');
  cm_proto : p_closed (proto s) = true → p_closed (proto s') = true;
  cm_dialers : dialers s' = dialers s;
  cm_listeners : listeners s' = listeners s;
  cm_closed : closed s' = closed s;
  cm_swept : swept s' = swept s;
  cm_dlrs d x' : dlrs s' !! d = Some x' → d_closed x' = false →
    ∃ x, dlrs s !! d = Some x ∧ d_closed x = false;
  cm_lsns l y' : lsns s' !! l = Some y' → l_closed y' = false →
    ∃ y, lsns s !! l = Some y ∧ l_closed y = false;
  cm_pipes k p' : cpipes (core s') !! k = Some p' →
    once p' = true ∨ adding p' = Attaching ∨
    ∃ p, cpipes (core s) !! k = Some p ∧ once p = false ∧ adding p ≠ Attaching ∧
      (adding p' = Rejected → adding p = Rejected);
  cm_stay t g : ready s → goros s !! t = Some g → closing_up g = true → goros s' !! t = Some g;
  cm_new t e : goros s' !! t = Some (ClosingPipes e) → goros s !! t = Some (ClosingPipes e)
}.

Lemma calm_tended k s s' : calm s s' → ready s → tended k s → tended k s'.
Proof. intros Hc Hr [t Ht]. exists t. by eapply cm_stay. Qed.

Lemma pipe_self (c : Core.core) k p :
  cpipes c !! k = Some p →
  once p = true ∨ adding p = Attaching ∨
  ∃ p0, cpipes c !! k = Some p0 ∧ once p0 = false ∧ adding p0 ≠ Attaching ∧
    (adding p = Rejected → adding p0 = Rejected).
Proof.
  intros Hk. destruct (once p) eqn:Ho; [by left|right].
  destruct (decide (adding p = Attaching)); [by left|right]. by exists p.
Qed.

#[local] Instance calm_refl : Reflexive calm.
Proof. intros s. split; eauto using pipe_self. Qed.
#[local] Instance calm_trans : Transitive calm.
Proof.
  intros s1 s2 s3 A B. split.
  - intros H. by apply B, A.
  - intros H. by apply B, A.
  - intros H. by apply B, A.
  - by rewrite (cm_dialers _ _ B), (cm_dialers _ _ A).
  - by rewrite (cm_listeners _ _ B), (cm_listeners _ _ A).
  - by rewrite (cm_closed _ _ B), (cm_closed _ _ A).
  - by rewrite (cm_swept _ _ B), (cm_swept _ _ A).
  - intros d x Hx Ho. destruct (cm_dlrs _ _ B _ _ Hx Ho) as (x1 & Hx1 & Ho1). by eapply A.
  - intros d x Hx Ho. destruct (cm_lsns _ _ B _ _ Hx Ho) as (x1 & Hx1 & Ho1). by eapply A.
  - intros k p Hp. destruct (cm_pipes _ _ B _ _ Hp) as [?|[?|(p1 & Hp1 & Ho1 & Ha1 & Hr1)]]; [by left|by right; left|].
    destruct (cm_pipes _ _ A _ _ Hp1) as [?|[?|(p0 & Hp0 & Ho0 & Ha0 & Hr0)]]; [congruence|done|].
    right. right. exists p0. split_and!; auto.
  - intros t g Hr Ht Hg. eapply B; [by apply A|by eapply A|done].
  - intros t e Ht. by apply A, B.
Qed.

Lemma shut_calm s s' : calm s s' → shut s → shut s'.
Proof.
  intros C [R I L D Y G X J W]. split.
  - by apply C.
  - by apply C.
  - rewrite (cm_closed _ _ C), (cm_dialers _ _ C), (cm_listeners _ _ C). done.
  - intros d x Hx Ho. destruct (cm_dlrs _ _ C _ _ Hx Ho) as (x0 & Hx0 & Ho0).
    rewrite (cm_dialers _ _ C). destruct (D _ _ Hx0 Ho0) as [?|(t & ls & ds & Ht & ?)]; [by left|right].
    exists t, ls, ds. split; [by eapply cm_stay|done].
  - intros l x Hx Ho. destruct (cm_lsns _ _ C _ _ Hx Ho) as (x0 & Hx0 & Ho0).
    rewrite (cm_listeners _ _ C). destruct (Y _ _ Hx0 Ho0) as [?|(t & ls & ds & Ht & ?)]; [by left|right].
    exists t, ls, ds. split; [by eapply cm_stay|done].
  - rewrite (cm_closed _ _ C), (cm_swept _ _ C). intros Hc.
    destruct (G Hc) as [?|(t & g & Ht & Hg & ?)]; [by left|right]. exists t, g.
    split_and!; [by eapply cm_stay|done..].
  - rewrite (cm_swept _ _ C). intros Hs. apply C, X.
    destruct Hs as [?|(t & e & Ht)]; [by left|right]. exists t, e. by apply C.
  - intros k p Hp Hj. destruct (cm_pipes _ _ C _ _ Hp) as [?|[?|(p0 & Hp0 & Ho & Ha & Hrj)]]; [by left|congruence|].
    destruct (J _ _ Hp0 (Hrj Hj)) as [?|?]; [congruence|]. right. by eapply calm_tended.
  - rewrite (cm_swept _ _ C). intros k p Hs Hp.
    destruct (cm_pipes _ _ C _ _ Hp) as [?|[?|(p0 & Hp0 & Ho & Ha & Hrj)]]; [by left|by right; left|].
    destruct (W _ _ Hs Hp0) as [?|[?|?]]; [congruence|done|]. right. right. by eapply calm_tended.
Qed.

(** The steps of which everything is made. *)
Lemma socketclose_calm_same s s' :
  goros s' = goros s → nextg s' = nextg s → timers s' = timers s → nextt s' = nextt s →
  dlrs s' = dlrs s → lsns s' = lsns s → core s' = core s → dialers s' = dialers s →
  listeners s' = listeners s → closed s' = closed s → swept s' = swept s →
  (p_closed (proto s) = true → p_closed (proto s') = true) → calm s s'.
Proof.
  intros Eg En Et Em Ed El Ec Ea Eb Ex Ew Hp. split; rewrite ?Eg, ?Ed, ?El, ?Ec; eauto using pipe_self.
  by apply keeps_same.
Qed.
Lemma socketclose_calm_go g s : (∀ e, g ≠ ClosingPipes e) → calm s (go g s).
Proof.
  intros Hg. split; eauto using ready_go, pipe_self; cbn.
  - intros t g0 Hr Ht _. rewrite lookup_insert_ne; [done|]. intros Hn.
    rewrite (rd_goros _ Hr) in Ht; [done|lia].
  - intros t e. rewrite lookup_insert. case_decide; [|done]. intros [= Hge]. by destruct (Hg e).
Qed.
Lemma socketclose_calm_goto t g0 g s :
  goros s !! t = Some g0 → closing_up g0 = false → (∀ e, g ≠ ClosingPipes e) → calm s (goto t g s).
Proof.
  intros Ht Hg0 Hg. split; eauto using ready_goto, pipe_self; cbn.
  - intros t' g' Hr Ht' Hg'. rewrite lookup_insert_ne; [done|]. intros <-. congruence.
  - intros t' e. rewrite lookup_insert. case_decide; [|done]. intros [= Hge]. by destruct (Hg e).
Qed.
Lemma calm_dlrs s s' d x0 x :
  (ready s → ready s') → dlrs s !! d = Some x0 → dlrs s' = <[d := x]> (dlrs s) →
  (d_closed x0 = true → d_closed x = true) →
  goros s' = goros s → lsns s' = lsns s → core s' = core s → dialers s' = dialers s →
  listeners s' = listeners s → closed s' = closed s → swept s' = swept s → proto s' = proto s →
  calm s s'.
Proof.
  intros Hr Hd Ed Hx Eg El Ec Ea Eb Ecl Ew Ep.
  split; rewrite ?Eg, ?El, ?Ec, ?Ep; eauto using pipe_self.
  intros d' x'. rewrite Ed, lookup_insert. case_decide; [|by eauto]. intros [= <-] Ho. subst.
  exists x0. split; [done|]. destruct (d_closed x0); [|done]. by rewrite Hx in Ho.
Qed.
Lemma calm_set_listener l y0 y s :
  lsns s !! l = Some y0 → (l_closed y0 = true → l_closed y = true) → calm s (set_listener l y s).
Proof.
  intros Hl Hy. split; eauto using pipe_self; cbn.
  - intros Hr. by apply (keeps_same s).
  - intros l' y'. rewrite lookup_insert. case_decide; [|by eauto]. intros [= <-] Ho. subst.
    exists y0. split; [done|]. destruct (l_closed y0); [|done]. by rewrite Hy in Ho.
Qed.

Lemma calm_foldl {A} (f : sock → A → sock) l s :
  (∀ s a, calm s (f s a)) → calm s (foldl f s l).
Proof.
  intros Hf. revert s. induction l as [|a l IH]; intros s; [reflexivity|]. cbn. etrans; [apply Hf|apply IH].
Qed.

(** The pipes after a step of [Core] other than [LAttach]. *)
Lemma cstep_pipes cl c c' k0 p' :
  (∀ k e, cl ≠ LAttach k e) → cstep cl c = Some c' → cpipes c' !! k0 = Some p' →
  once p' = true ∨ adding p' = Attaching ∨
  ∃ p, cpipes c !! k0 = Some p ∧ once p = false ∧ adding p ≠ Attaching ∧
    (adding p' = Rejected → adding p = Rejected).
Proof.
  intros Hcl. assert (∀ k p q c1, cpipes c !! k = Some p → cpipes c1 = <[k := q]> (cpipes c) →
    (once p = true → once q = true) → (adding p = Attaching → adding q = Attaching) →
    (adding q = Rejected → adding p = Rejected) → cpipes c1 !! k0 = Some p' →
    once p' = true ∨ adding p' = Attaching ∨
    ∃ p, cpipes c !! k0 = Some p ∧ once p = false ∧ adding p ≠ Attaching ∧
      (adding p' = Rejected → adding p = Rejected)) as Hupd.
  { intros k p q c1 Hk -> Ho Ha Hr. rewrite lookup_insert. case_decide; [|by apply pipe_self].
    intros [= <-]. subst. destruct (once p) eqn:Hop; [left; auto|].
    destruct (decide (adding p = Attaching)); [right; left; auto|].
    right. right. exists p. by auto. }
  destruct cl as [k d l rnd|k res|k|k|k|k|k|h]; cbn [cstep]; [|by destruct (Hcl k res)|..].
  7: { intros [= <-] Hq. by apply (pipe_self c). }
  1: { intros [Hk Hs]%guard_bind_Some. unfold addPipe_start, newPipe in Hs.
    destruct (Get rnd (pipeIDs c)) as [[i a]|]; [|done]. cbn in Hs. injection Hs as <-.
    rewrite (proj1 (fire_fields _ _ _ _)). cbn. rewrite lookup_insert.
    case_decide; [|by apply pipe_self]. intros [= <-]. by right; left. }
  all: destruct (cpipes c !! k) as [p|] eqn:Hk; simpl; [|done].
  all: intros [Hg [= <-]]%guard_bind_Some.
  - apply (Hupd k p (p <| adding := AddDone |>)); try done; [|by rewrite Hg].
    unfold addPipe_finish. by rewrite (proj1 (fire_fields _ _ _ _)), notify_cpipes.
  - by apply (Hupd k p (p <| once := true |> <| tran_closed := true |>)).
  - destruct Hg as [Ho _]. unfold Close_locked. rewrite notify_cpipes. cbn [added set_field].
    destruct (added p) eqn:Had.
    + eapply (Hupd k p); [done|reflexivity|..]; done.
    + eapply (Hupd k p); [done|reflexivity|..]; done.
  - apply (Hupd k p (p <| removing := RemFree |>)); try done.
    unfold remPipe_hook. by rewrite (proj1 (fire_fields _ _ _ _)).
  - unfold remPipe_free. destruct (Free _ _); [|exact (pipe_self c _ _)].
    by apply (Hupd k p (p <| removing := IDFreed |>)).
Qed.

Lemma calm_core_do cl s s' :
  (∀ k e, cl ≠ LAttach k e) → core_do cl s = Some s' → calm s s'.
Proof.
  intros Hcl Hs. apply bind_Some in Hs as (c & Hc & [= <-]).
  etrans; [|apply calm_foldl; intros; apply socketclose_calm_go; by destruct a as [? []]].
  split; cbn; eauto.
  - intros []. by split.
  - intros Hi. by eapply cinv_step.
  - intros k p' Hp. by eapply cstep_pipes.
Qed.

Lemma calm_close_locked k s s' `{!ProtocolLaws P} : close_locked k s = Some s' → calm s s'.
Proof.
  intros Hs. apply bind_Some in Hs as (p & Hp & Hs).
  etrans; [|eapply calm_core_do; [|exact Hs]; done]. case_match; [|reflexivity].
  apply socketclose_calm_same; try done. cbn. apply p_RemovePipe_closed.
Qed.

Lemma calm_added t k d l rnd g g' s s1 :
  goros s !! t = Some g → core_do (LAdd k d l rnd) s = Some s1 → closing_up g = false →
  (∀ e, g' ≠ ClosingPipes e) → ready s → calm s (goto t g' s1).
Proof.
  intros Ht Hs Hg Hg' Hr. etrans; [eapply calm_core_do; [|exact Hs]; done|].
  eapply socketclose_calm_goto; [|exact Hg|done]. by eapply core_do_goros.
Qed.

(** [attach] replaces one pipe. *)
Lemma shut_replace k p p' pr c s :
  shut s → cinv c → cpipes (core s) !! k = Some p → cpipes c = <[k := p']> (cpipes (core s)) →
  (p_closed (proto s) = true → p_closed pr = true) →
  (adding p' = Rejected ∨ swept s = true → once p' = true ∨ tended k s) →
  shut (s <| proto := pr |> <| core := c |>).
Proof.
  intros [R I L D Y G X J W] Hi Hk Ec Hpr Hp'. split; cbn; try done.
  - destruct R. by split.
  - auto.
  - intros k' q. rewrite Ec, lookup_insert. case_decide; [|by apply J]. intros [= <-] ?. subst. auto.
  - intros k' q Hs. rewrite Ec, lookup_insert. case_decide; [|by apply W]. intros [= <-]. subst.
    destruct Hp'; auto.
Qed.

Lemma core_do_attach k e (s s' : sock) :
  core_do (LAttach k e) s = Some s' →
  ∃ p, cpipes (core s) !! k = Some p ∧ adding p = Attaching ∧
    s' = s <| core := addPipe_attach k p e (core s) |>.
Proof.
  intros Hs. apply bind_Some in Hs as (c & Hc & [= <-]). cbn [cstep] in Hc.
  apply bind_Some in Hc as (p & Hp & [Ha [= <-]]%guard_bind_Some). exists p. split_and!; [done..|].
  assert (notified (addPipe_attach k p e (core s)) = notified (core s)) as ->
    by (unfold addPipe_attach; by repeat case_match).
  by rewrite drop_all.
Qed.

(** A pipe that is refused gets a goroutine that closes it; after [Close]
    every pipe is refused. *)
Lemma shut_attach k s s' `{!ProtocolLaws P} : shut s → attach k s = Some s' → shut s'.
Proof.
  intros H Hs. apply bind_Some in Hs as (p & Hp & Hs).
  pose proof (ci_pipe _ (sh_cinv _ H) _ _ Hp) as (_ & Hon & _).
  assert (∀ e, adding p = Attaching → cinv (addPipe_attach k p e (core s))) as Hi.
  { intros e Ha. apply cinv_attach; [apply H|done|done]. }
  destruct (Core.closing p) eqn:Hc.
  - apply core_do_attach in Hs as (q & Hq & Ha & ->). simplify_eq.
    apply (shut_replace k p (p <| adding := Rejected |>) (proto s)); auto.
    unfold addPipe_attach. by rewrite Hc.
  - pose proof (p_AddPipe_closed k (id p) (proto s)) as Hpr.
    destruct (p_AddPipe k (id p) (proto s)) as [e pr] eqn:He. cbn in Hpr.
    apply bind_Some in Hs as (s1 & Hs & [= <-]).
    apply core_do_attach in Hs as (q & Hq & Ha & ->). cbn in Hq. simplify_eq.
    change (core (s <| proto := pr |>)) with (core s).
    destruct e as [e|].
    + change (shut (go (ClosePipe k) s <| proto := pr |> <| core := addPipe_attach k p (Some e) (core s) |>)).
      apply (shut_replace k p (p <| adding := Rejected |>)); auto.
      * by apply (shut_calm s); [apply socketclose_calm_go|].
      * unfold addPipe_attach. by rewrite Hc.
      * cbn. by apply Hpr.
      * intros _. right. exists (nextg s). cbn. apply lookup_insert_eq.
    + apply (shut_replace k p (p <| added := true |> <| adding := AddedHook |>) pr); auto.
      * unfold addPipe_attach. by rewrite Hc.
      * by apply Hpr.
      * intros [?|Hsw]; [done|]. destruct Hpr as [? _]; [|done]. apply H. by left.
Qed.

(** A goroutine that has called [p.close()]. *)
Lemma shut_close_pipe t k s s' :
  shut s → goros s !! t = Some (ClosePipe k) → close_pipe t k s = Some s' → shut s'.
Proof.
  intros H Ht Hs. apply bind_Some in Hs as (p & Hp & Hs). cbv zeta in Hs.
  assert (∀ c, cinv c → (∀ k' q, cpipes c !! k' = Some q → once q = true ∨
      k' ≠ k ∧ cpipes (core s) !! k' = Some q) → shut (goto t (Ret None) s <| core := c |>)) as Hgo.
  { destruct H as [R I L D Y G X J W]. intros c Hi Hc.
    assert (∀ k', k' ≠ k → tended k' s → tended k' (goto t (Ret None) s <| core := c |>)) as Htd.
    { intros k' Hk' [t' Ht']. exists t'. cbn. rewrite lookup_insert_ne by congruence. done. }
    assert (∀ t' g, closing_up g = true → (∀ k', g ≠ ClosePipe k') → goros s !! t' = Some g →
      <[t := Ret None]> (goros s) !! t' = Some g) as Hst.
    { intros t' g Hg Hgk Ht'. rewrite lookup_insert_ne; [done|]. intros <-. naive_solver. }
    split; cbn; try done.
    - destruct (ready_goto _ _ (Ret None) _ Ht R). by split.
    - intros d x Hx Ho. destruct (D d x Hx Ho) as [?|(t' & ls & ds & Ht' & ?)]; [by left|right].
      exists t', ls, ds. by auto.
    - intros d x Hx Ho. destruct (Y d x Hx Ho) as [?|(t' & ls & ds & Ht' & ?)]; [by left|right].
      exists t', ls, ds. by auto.
    - intros Hcl. destruct (G Hcl) as [?|(t' & g & ? & ? & ?)]; [by left|right]. exists t', g. by auto.
    - intros Hsw. apply X. destruct Hsw as [?|(t' & e & Ht')]; [by left|right]. exists t', e.
      revert Ht'. rewrite lookup_insert. by case_decide.
    - intros k' q Hq Ha. destruct (Hc _ _ Hq) as [?|[Hk' Hq']]; [by left|].
      destruct (J _ _ Hq' Ha); auto.
    - intros k' q Hsw Hq. destruct (Hc _ _ Hq) as [?|[Hk' Hq']]; [by left|].
      destruct (W _ _ Hsw Hq') as [?|[?|?]]; auto. }
  destruct (once p) eqn:Ho.
  - injection Hs as <-. apply (Hgo (core s)); [apply H|]. intros k' q Hq.
    destruct (decide (k' = k)) as [->|]; [left; congruence|by right].
  - apply bind_Some in Hs as (c & Hc & [= <-]).
    assert (cinv c) as Hi by (eapply cinv_step; [apply H|exact Hc]). cbn [cstep] in Hc.
    apply bind_Some in Hc as (q & Hq & [_ [= <-]]%guard_bind_Some). cbn in Hq. simplify_eq.
    change (notified (Close_start k p _)) with (notified (core s)).
    change (core (goto t (Ret None) s)) with (core s). rewrite drop_all. cbn [foldl].
    apply Hgo; [done|]. intros k' q. cbn. rewrite lookup_insert. case_decide; [|by eauto].
    intros [= <-]. by left.
Qed.

Section Shutdown.
Context `{!ProtocolLaws P}.

Lemma calm_dialer_Close d x s :
  balanced s → dlrs s !! d = Some x → calm s (dialer_Close d x s).2.
Proof.
  intros Hb Hd. assert (ready s → ready (dialer_Close d x s).2) as Hr.
  { intros _. by apply balanced_dialer_Close. }
  revert Hr. unfold dialer_Close. destruct (d_closed x); [reflexivity|]. cbn [snd].
  change (redialer (x <| d_closed := true |>)) with (redialer x).
  destruct (redialer x) as [tm|]; [destruct (timers s !! tm)|]; intros Hr; by eapply calm_dlrs.
Qed.
Lemma calm_listener_Close l x te s : lsns s !! l = Some x → calm s (listener_Close l x te s).2.
Proof.
  intros Hl. unfold listener_Close. case_match; [reflexivity|]. by eapply calm_set_listener.
Qed.

Lemma socketclose_calm_SetOption tset n v (s : sock) : calm s (SetOption tset n v s).2.
Proof.
  set (s1 := s <| proto := (p_SetOption n v (proto s)).2 |>).
  assert (calm s s1) as H1 by (apply socketclose_calm_same; try done; apply p_SetOption_closed).
  assert (calm s (own_SetOption n v s1).2) as H2.
  { etrans; [exact H1|].
    destruct (own_SetOption_frame n v s1) as (?&?&?&?&?&?&?&?&?&?&?&E). apply socketclose_calm_same; try done. by rewrite E. }
  destruct (SetOption_cases tset n v s) as [->|[->| ->]]; [done|done|].
  etrans; [exact H2|]. apply calm_foldl. intros s0 d. unfold pass_option.
  destruct (dlrs s0 !! d) as [x|] eqn:Hd; [|reflexivity].
  destruct (dialer_SetOption_alike tset n v x) as (Hr & Ha & Hq & Hc).
  eapply calm_dlrs; try done; [|by rewrite Hc].
  intros ?. by apply (keeps_alike d x); [|apply dialer_SetOption_alike|].
Qed.

Lemma shut_NewDialer tr d addr o (s : sock) :
  shut s → dlrs s !! d = None → shut (NewDialer tr d addr o s).2.
Proof.
  intros H Hd. destruct (NewDialer_cases tr d addr o s) as [->|(Hc & x & Ha & Hr & Hq & ->)]; [done|].
  assert (ready (set_dialer d x (s <| dialers ::= (λ l, l ++ [d]) |>))) as Hrd.
  { apply keeps_new_dialer; [done..|]. destruct (sh_ready _ H). by split. }
  destruct H as [R I L D Y G X J W]. split; [exact Hrd|..]; cbn; try done.
  - by rewrite Hc.
  - intros d' x'. rewrite lookup_insert. case_decide.
    + intros _ _. subst. left. set_solver.
    + intros Hx Ho. destruct (D _ _ Hx Ho) as [?|?]; [left; set_solver|by right].
Qed.
Lemma shut_NewListener tr l addr o (s : sock) :
  shut s → shut (NewListener tr l addr o s).2.
Proof.
  intros H. destruct (NewListener_cases tr l addr o s) as [->|(Hc & ->)]; [done|].
  destruct H as [R I L D Y G X J W]. split; cbn; try done.
  - destruct R. by split.
  - by rewrite Hc.
  - intros l' x'. rewrite lookup_insert. case_decide.
    + intros _ _. subst. left. set_solver.
    + intros Hx Ho. destruct (Y _ _ Hx Ho) as [?|?]; [left; set_solver|by right].
Qed.

Lemma shut_Close (s : sock) : shut s → shut (Close s).
Proof.
  intros [R I L D Y G X J W].
  assert (∀ t g, goros s !! t = Some g →
    <[nextg s := Closing (listeners s) (dialers s)]> (goros s) !! t = Some g) as Hst.
  { intros t g Ht. rewrite lookup_insert_ne; [done|]. intros Hn. rewrite (rd_goros _ R) in Ht; [done|lia]. }
  assert (∀ k, tended k s → tended k (Close s)) as Htd by (intros k [t Ht]; exists t; by apply Hst).
  split; cbn; try done.
  - refine (ready_go (Closing (listeners s) (dialers s))
      (s <| listeners := [] |> <| dialers := [] |> <| closed := true |>) _). destruct R. by split.
  - intros d x Hx Ho. right. destruct (D _ _ Hx Ho) as [?|(t & ls & ds & Ht & ?)].
    + exists (nextg s), (listeners s), (dialers s). by rewrite lookup_insert_eq.
    + exists t, ls, ds. by auto.
  - intros d x Hx Ho. right. destruct (Y _ _ Hx Ho) as [?|(t & ls & ds & Ht & ?)].
    + exists (nextg s), (listeners s), (dialers s). by rewrite lookup_insert_eq.
    + exists t, ls, ds. by auto.
  - intros _. right. exists (nextg s), (Closing (listeners s) (dialers s)). by rewrite lookup_insert_eq.
  - intros [?|(t & e & Ht)]; apply X; [by left|right]. exists t, e. revert Ht.
    rewrite lookup_insert. by case_decide.
  - intros k p Hp Ha. destruct (J _ _ Hp Ha); auto.
  - intros k p Hs Hp. destruct (W _ _ Hs Hp) as [?|[?|?]]; auto.
Qed.

(** The loops of [Close]. *)
Lemma shut_retask t ls ds ls' ds' (s : sock) :
  shut s → goros s !! t = Some (Closing ls ds) →
  (∀ d x, dlrs s !! d = Some x → d_closed x = false → d ∈ ds → d ∈ ds') →
  (∀ l y, lsns s !! l = Some y → l_closed y = false → l ∈ ls → l ∈ ls') →
  shut (goto t (Closing ls' ds') s).
Proof.
  intros [R I L D Y G X J W] Ht Hds Hls.
  assert (∀ t' g, goros s !! t' = Some g → g ≠ Closing ls ds →
    <[t := Closing ls' ds']> (goros s) !! t' = Some g) as Hst.
  { intros t' g Ht' Hg. rewrite lookup_insert_ne; [done|]. intros <-. congruence. }
  assert (∀ k, tended k s → tended k (goto t (Closing ls' ds') s)) as Htd.
  { intros k [t' Ht']. exists t'. by apply Hst. }
  split; [by eapply ready_goto|..]; cbn; try done.
  - intros d x Hx Ho. destruct (D _ _ Hx Ho) as [?|(t' & ls1 & ds1 & Ht' & Hin)]; [by left|right].
    destruct (decide (t' = t)) as [->|Hne].
    + simplify_eq. exists t, ls', ds'. rewrite lookup_insert_eq. eauto.
    + exists t', ls1, ds1. by rewrite lookup_insert_ne.
  - intros l x Hx Ho. destruct (Y _ _ Hx Ho) as [?|(t' & ls1 & ds1 & Ht' & Hin)]; [by left|right].
    destruct (decide (t' = t)) as [->|Hne].
    + simplify_eq. exists t, ls', ds'. rewrite lookup_insert_eq. eauto.
    + exists t', ls1, ds1. by rewrite lookup_insert_ne.
  - intros Hc. destruct (G Hc) as [?|(t' & g & Ht' & Hg)]; [by left|right].
    exists t, (Closing ls' ds'). by rewrite lookup_insert_eq.
  - intros [?|(t' & e & Ht')]; apply X; [by left|right]. exists t', e. revert Ht'.
    rewrite lookup_insert. by case_decide.
  - intros k p Hp Ha. destruct (J _ _ Hp Ha); auto.
  - intros k p Hs Hp. destruct (W _ _ Hs Hp) as [?|[?|?]]; auto.
Qed.

(** ... and its last step but one. *)
Lemma shut_close_proto t (s : sock) :
  shut s → goros s !! t = Some (Closing [] []) →
  shut (goto t (ClosingPipes (p_Close (proto s)).1) (s <| proto := (p_Close (proto s)).2 |>)).
Proof.
  intros H Ht. pose proof (ready_goto t _ (ClosingPipes (p_Close (proto s)).1) s Ht (sh_ready _ H)) as Hrd.
  destruct H as [R I L D Y G X J W]. set (g := ClosingPipes _) in *.
  assert (∀ t' g', goros s !! t' = Some g' → g' ≠ Closing [] [] →
    <[t := g]> (goros s) !! t' = Some g') as Hst.
  { intros t' g' Ht' Hg. rewrite lookup_insert_ne; [done|]. intros <-. congruence. }
  assert (∀ k, tended k s → tended k (goto t g (s <| proto := (p_Close (proto s)).2 |>))) as Htd.
  { intros k [t' Ht']. exists t'. by apply Hst. }
  split; cbn; try done.
  - destruct Hrd. by split.
  - intros d x Hx Ho. destruct (D _ _ Hx Ho) as [?|(t' & ls1 & ds1 & Ht' & Hin)]; [by left|right].
    exists t', ls1, ds1. split; [|done]. apply Hst; [done|]. intros [= -> ->]. by apply elem_of_nil in Hin.
  - intros l x Hx Ho. destruct (Y _ _ Hx Ho) as [?|(t' & ls1 & ds1 & Ht' & Hin)]; [by left|right].
    exists t', ls1, ds1. split; [|done]. apply Hst; [done|]. intros [= -> ->]. by apply elem_of_nil in Hin.
  - intros Hc. right. exists t, g. by rewrite lookup_insert_eq.
  - intros _. apply p_Close_closed.
  - intros k p Hp Ha. destruct (J _ _ Hp Ha); auto.
  - intros k p Hs Hp. destruct (W _ _ Hs Hp) as [?|[?|?]]; auto.
Qed.

Lemma shut_Close_next t ls ds te (s : sock) :
  shut s → balanced s → goros s !! t = Some (Closing ls ds) → shut (Close_next t ls ds te s).
Proof.
  intros H Hb Ht. unfold Close_next. destruct ls as [|l ls]; [destruct ds as [|d ds]|]; cbn zeta.
  - pose proof (shut_close_proto t s H Ht) as Hs. by destruct (p_Close (proto s)) as [e pr].
  - change (dlrs (goto t (Closing [] ds) s)) with (dlrs s).
    destruct (dlrs s !! d) as [x|] eqn:Hd.
    + replace (dialer_Close d x (goto t (Closing [] ds) s)).2
        with (goto t (Closing [] ds) (dialer_Close d x s).2).
      2: { unfold dialer_Close. cbn. by repeat case_match. }
      pose proof (shut_calm _ _ (calm_dialer_Close d x s Hb Hd) H) as H1.
      apply (shut_retask t [] (d :: ds)); [done| | |done].
      * unfold dialer_Close. cbn. by repeat case_match.
      * intros d' x' Hx' Ho [->|?]%elem_of_cons; [|done]. exfalso. revert Hx'.
        unfold dialer_Close. destruct (d_closed x) eqn:Hc; [cbn; congruence|].
        repeat case_match; cbn; rewrite lookup_insert_eq; intros [= <-]; done.
    + apply (shut_retask t [] (d :: ds)); [done..| |done].
      intros d' x' Hx' Ho [->|?]%elem_of_cons; [congruence|done].
  - change (lsns (goto t (Closing ls ds) s)) with (lsns s).
    destruct (lsns s !! l) as [x|] eqn:Hl.
    + replace (listener_Close l x te (goto t (Closing ls ds) s)).2
        with (goto t (Closing ls ds) (listener_Close l x te s).2).
      2: { unfold listener_Close. by case_match. }
      pose proof (shut_calm _ _ (calm_listener_Close l x te s Hl) H) as H1.
      apply (shut_retask t (l :: ls) ds); [done| |done|].
      * unfold listener_Close. by case_match.
      * intros l' x' Hx' Ho [->|?]%elem_of_cons; [|done]. exfalso. revert Hx'.
        unfold listener_Close. destruct (l_closed x) eqn:Hc; [cbn; congruence|].
        cbn. rewrite lookup_insert_eq. intros [= <-]. done.
    + apply (shut_retask t (l :: ls) ds); [done..|].
      intros l' x' Hx' Ho [->|?]%elem_of_cons; [congruence|done].
Qed.

(** [CloseAll]. *)
Definition go_close (s : sock) (k : nat) : sock := go (ClosePipe k) s.
Lemma go_close_tended order k (s : sock) :
  ready s → k ∈ order → tended k (foldl go_close s order).
Proof.
  revert s. induction order as [|k0 order IH]; intros s Hr Hk; [by apply elem_of_nil in Hk|].
  cbn. apply elem_of_cons in Hk as [->|Hk]; [|by apply IH; [apply ready_go|]].
  assert (calm (go_close s k0) (foldl go_close (go_close s k0) order)) as Hc
    by (apply calm_foldl; intros; by apply socketclose_calm_go).
  eapply (calm_tended _ _ _ Hc); [by apply ready_go|]. exists (nextg s). cbn. apply lookup_insert_eq.
Qed.
Lemma go_close_goto t g g0 order (s : sock) :
  ready s → goros s !! t = Some g0 →
  foldl go_close (goto t g s) order = goto t g (foldl go_close s order).
Proof.
  revert s. induction order as [|k order IH]; intros s Hr Ht; [done|]. cbn [foldl].
  assert (t ≠ nextg s) as Hne by (intros ->; by rewrite (rd_goros _ Hr) in Ht).
  rewrite <-IH; [|by apply ready_go|cbn; by rewrite lookup_insert_ne].
  f_equal. unfold go_close, go, goto. cbn. by rewrite insert_insert_ne.
Qed.
Lemma go_close_frame order (s : sock) :
  core (foldl go_close s order) = core s ∧
  foldl go_close (s <| swept := true |>) order = foldl go_close s order <| swept := true |>.
Proof.
  revert s. induction order as [|k order IH]; intros s; [done|]. cbn [foldl].
  destruct (IH (go_close s k)) as [-> <-]. done.
Qed.

(** Every pipe is closed, or on its way into the socket, or in the list of
    pipes that [CloseAll] goes through. *)
Lemma listed_or_closed k p s :
  shut s → cpipes (core s) !! k = Some p →
  once p = true ∨ adding p = Attaching ∨ tended k s ∨ pipeList (core s) !! id p = Some k.
Proof.
  intros H Hp. destruct (sh_cinv _ H) as [_ Hpo _ _ _ Hl]. destruct (Hpo _ _ Hp) as (_ & Hon & Hok).
  destruct (adding p) eqn:Ha; [by right; left|..|].
  3: { destruct (sh_rejected _ H _ _ Hp Ha); auto. }
  all: destruct Hok as [_ Hok]; destruct (Core.closing p); [by left; apply Hon|].
  all: right; right; right; apply Hl; exists p; split_and!; [done..|]; split; [by apply Hok|congruence].
Qed.

Lemma shut_Close_pipes t e order (s : sock) :
  shut s → goros s !! t = Some (ClosingPipes e) →
  list_to_set order = (map_img (pipeList (core s)) : gset nat) →
  shut (Close_pipes t e order s).
Proof.
  intros H Ht Hord. unfold Close_pipes. change (λ s k, go (ClosePipe k) s) with go_close.
  rewrite (go_close_goto _ _ (ClosingPipes e)); [|destruct (sh_ready _ H); by split|done].
  destruct (go_close_frame order s) as [Hcore ->].
  assert (p_closed (proto s) = true) as Hpc by (apply (sh_proto _ H); right; by exists t, e).
  assert (∀ k, k ∈ order → tended k (foldl go_close s order)) as Hk
    by (intros; apply go_close_tended; [apply H|done]).
  assert (calm s (foldl go_close s order)) as Hcalm
    by (apply calm_foldl; intros; by apply socketclose_calm_go).
  pose proof (cm_stay _ _ Hcalm t _ (sh_ready _ H) Ht eq_refl) as Ht1.
  pose proof (cm_proto _ _ Hcalm Hpc) as Hpc1.
  assert (∀ k p, cpipes (core s) !! k = Some p → once p = true ∨ adding p = Attaching ∨
    tended k (foldl go_close s order)) as Hall.
  { intros k p Hp. destruct (listed_or_closed k p s H Hp) as [?|[?|[?|Hl]]]; auto.
    - right. right. eapply calm_tended; [done|apply H|done].
    - right. right. apply Hk. apply (elem_of_list_to_set (C := gset nat)). rewrite Hord.
      apply elem_of_map_img. eauto. }
  pose proof (shut_calm _ _ Hcalm H) as H1. rewrite <-Hcore in Hall.
  revert Ht1 Hpc1 Hall H1. generalize (foldl go_close s order). clear. intros s Ht Hpc Hall H.
  pose proof (ready_goto t _ (Ret e) s Ht (sh_ready _ H)) as Hrd.
  destruct H as [R I L D Y G X J W].
  assert (∀ t' g', goros s !! t' = Some g' → g' ≠ ClosingPipes e →
    <[t := Ret e]> (goros s) !! t' = Some g') as Hst.
  { intros t' g' Ht' Hg. rewrite lookup_insert_ne; [done|]. intros <-. congruence. }
  assert (∀ k, tended k s → tended k (goto t (Ret e) (s <| swept := true |>))) as Htd.
  { intros k [t' Ht']. exists t'. by apply Hst. }
  split; cbn; try done.
  - destruct Hrd. by split.
  - intros d x Hx Ho. destruct (D _ _ Hx Ho) as [?|(t' & ls1 & ds1 & Ht' & Hin)]; [by left|right].
    exists t', ls1, ds1. by auto.
  - intros l x Hx Ho. destruct (Y _ _ Hx Ho) as [?|(t' & ls1 & ds1 & Ht' & Hin)]; [by left|right].
    exists t', ls1, ds1. by auto.
  - intros _. by left.
  - intros k p Hp Ha. destruct (J _ _ Hp Ha); auto.
  - intros k p _ Hp. destruct (Hall _ _ Hp) as [?|[?|?]]; auto.
Qed.

Lemma shut_step l (s s' : sock) : balanced s → shut s → sstep l s = Some s' → shut s'.
Proof.
  intros Hb H Hs. pose proof (proj1 (balanced_step _ _ _ Hb Hs)) as Hr'. revert Hs.
  destruct l; cbn [sstep].
  - intros (pr & Hpr & [= <-])%bind_Some. apply (shut_calm s); [|done]. apply socketclose_calm_same; try done.
    by eapply p_step_closed.
  - intros [Hp Hs]%guard_bind_Some. apply (shut_calm s); [|done]. eapply calm_core_do; [|exact Hs].
    by intros k e ->.
  - by apply shut_attach.
  - intros Hs. apply (shut_calm s); [|done]. by eapply calm_close_locked.
  - intros [_ [= <-]]%guard_bind_Some. destruct te; [|done]. by apply (shut_calm s); [apply socketclose_calm_go|].
  - intros [_ [= <-]]%guard_bind_Some. by apply (shut_calm s); [apply socketclose_calm_go|].
  - intros [_ [= <-]]%guard_bind_Some. by apply (shut_calm s); [apply socketclose_calm_go|].
  - destruct (goros s !! t) as [[]|] eqn:Ht; try done. by apply shut_close_pipe.
  - intros [Hd [= <-]]%guard_bind_Some. by apply shut_NewDialer.
  - intros (x & Hd & [= <-])%bind_Some. apply (shut_calm s); [|done]. revert Hr'. unfold dialer_Dial.
    do 2 (case_match; [intros _; by apply socketclose_calm_go|]). intros Hr'.
    etrans; [|case_match; [etrans; [by apply (socketclose_calm_go (DialEnter d true))|by apply socketclose_calm_go]|
      by apply (socketclose_calm_go (DialEnter d false))]].
    eapply calm_dlrs; try done. intros Hr.
    eapply ready_set_dialer; [done|done| |done]. cbn. intros _. by eapply rd_idle.
  - destruct (goros s !! t) as [[]|] eqn:Ht; try done. intros (x & Hd & [= <-])%bind_Some.
    apply (shut_calm s); [|done]. revert Hr'. unfold dial_enter. case_match; intros Hr'.
    + etrans; [by apply (socketclose_calm_goto t (DialEnter d again) (Ret (Some ErrClosed)))|]. by eapply calm_dlrs.
    + by eapply socketclose_calm_goto.
  - destruct (goros s !! t) as [[]|] eqn:Ht; try done. intros (x & Hd & [= <-])%bind_Some.
    apply (shut_calm s); [|done]. revert Hr'. unfold dial_failed.
    do 2 (case_match; [intros Hr'; etrans;
      [by apply (socketclose_calm_goto t (DialWait d again) (Ret (Some e)))|by eapply calm_dlrs]|]).
    intros _. by eapply socketclose_calm_goto.
  - destruct (goros s !! t) as [[]|] eqn:Ht; try done. intros Hs.
    apply bind_Some in Hs as (s1 & Hs & [= <-]). apply (shut_calm s); [|done].
    eapply calm_added; [done..|apply H].
  - destruct (goros s !! t) as [[]|] eqn:Ht; try done.
    intros (x & Hd & [_ [= <-]]%guard_bind_Some)%bind_Some. apply (shut_calm s); [|done].
    revert Hr'. unfold dialer_redial. intros Hr'.
    etrans; [by apply (socketclose_calm_goto t (Redial d backoff e) (Ret e))|].
    eapply (calm_dlrs _ _ d x); try done. cbn. unfold backed_off. by case_match.
  - intros ([d z] & Htm & [= <-])%bind_Some. apply (shut_calm s); [|done].
    etrans; [by apply (socketclose_calm_go (DialEnter d true))|].
    split; eauto using pipe_self.
  - destruct (goros s !! t) as [[]|] eqn:Ht; try done. intros (x & Hd & [= <-])%bind_Some.
    apply (shut_calm s); [|done].
    etrans; [by apply (socketclose_calm_goto t (PipeConnected d) (Ret None))|]. by eapply calm_dlrs.
  - destruct (goros s !! t) as [[]|] eqn:Ht; try done. intros (x & Hd & [= <-])%bind_Some.
    apply (shut_calm s); [|done]. by eapply socketclose_calm_goto.
  - intros (x & Hd & [= <-])%bind_Some. apply (shut_calm s); [by apply calm_dialer_Close|done].
  - intros (x & Hd & [= <-])%bind_Some. apply (shut_calm s); [|done].
    eapply calm_dlrs; try done. destruct (dialer_SetOption_alike tset n v x) as (_ & _ & _ & ->). done.
  - intros [_ [= <-]]%guard_bind_Some. by apply shut_NewListener.
  - intros (x & Hd & [= <-])%bind_Some. apply (shut_calm s); [|done]. unfold listener_Listen.
    do 2 (case_match; [by apply socketclose_calm_go|]). etrans; [|by apply socketclose_calm_go]. by eapply calm_set_listener.
  - destruct (goros s !! t) as [[]|] eqn:Ht; try done. intros (x & Hd & [= <-])%bind_Some.
    apply (shut_calm s); [|done].
    assert (∀ e, calm s (goto t (Ret e) s)) as Hk by (intros; by eapply socketclose_calm_goto).
    unfold listener_listened. case_match; (etrans; [apply Hk|]);
      [by eapply calm_set_listener|by apply socketclose_calm_go].
  - destruct (goros s !! t) as [[]|] eqn:Ht; try done. intros (x & Hd & [= <-])%bind_Some.
    apply (shut_calm s); [|done]. unfold serve_top. eapply socketclose_calm_goto; [done..|]. intros e. by case_match.
  - destruct (goros s !! t) as [[]|] eqn:Ht; try done. intros [= <-].
    apply (shut_calm s); [|done]. unfold accept_failed. eapply socketclose_calm_goto; [done..|]. intros e'. by case_match.
  - destruct (goros s !! t) as [[]|] eqn:Ht; try done. intros Hs.
    apply bind_Some in Hs as (s1 & Hs & [= <-]). apply (shut_calm s); [|done].
    eapply calm_added; [done..|apply H].
  - destruct (goros s !! t) as [[]|] eqn:Ht; try done.
    intros (p & _ & [_ [= <-]]%guard_bind_Some)%bind_Some.
    apply (shut_calm s); [|done]. eapply socketclose_calm_goto; [done..|]. intros e. by case_match.
  - intros (x & Hd & [= <-])%bind_Some. apply (shut_calm s); [by apply calm_listener_Close|done].
  - intros [= <-]. apply (shut_calm s); [apply socketclose_calm_SetOption|done].
  - intros [= <-]. by apply shut_Close.
  - destruct (goros s !! t) as [[]|] eqn:Ht; try done. intros [= <-]. by apply shut_Close_next.
  - destruct (goros s !! t) as [[]|] eqn:Ht; try done. intros [[_ ?] [= <-]]%guard_bind_Some.
    by apply shut_Close_pipes.
Qed.

Definition ok_all (_ : sock) (_ : slabel) : Prop := True.

Lemma reachable_shut (s : sock) : reachable sstep sinit ok_all s → balanced s ∧ shut s.
Proof.
  revert s. apply (reachable_invariant sstep sinit ok_all (λ s, balanced s ∧ shut s)).
  - intros ? (p & a & ->). assert (ready (newSocket p a)) as Hr by by split. split.
    + split; [done|]. intros d. done.
    + split; cbn; try done.
      * apply cinv_reachable. apply reachable_init. by exists a.
      * by intros [?|(? & ? & ?)].
  - intros l s0 s1 [Hb H] _ Hs. split; [by eapply balanced_step|by eapply shut_step].
Qed.

(** C37.  [Close] closes everything, whatever else happens at the same time
    (dialers and listeners being made, connections being accepted or dialed,
    pipes being attached): once a socket is closed and no goroutine that
    [Close] started is still at work, the protocol, every listener and every
    dialer ever handed out are closed, and every pipe has been closed, but for
    those still on their way into [addPipe], which the protocol will refuse. *)
Theorem socket_close_complete (s : sock) (H : reachable sstep sinit ok_all s)
  (Hc : closed s = true) (Hg : ∀ t g, goros s !! t = Some g → closing_up g = false) :
  p_closed (proto s) = true ∧
  (∀ l y, lsns s !! l = Some y → l_closed y = true) ∧
  (∀ d x, dlrs s !! d = Some x → d_closed x = true) ∧
  (∀ k p, cpipes (core s) !! k = Some p → once p = true ∨ adding p = Attaching) ∧
  (∀ k i, (p_AddPipe k i (proto s)).1 ≠ None).
Proof.
  destruct (reachable_shut s H) as [_ [R I L D Y G X J W]].
  assert (∀ k, ¬ tended k s) as Htd by (intros k [t Ht]; by specialize (Hg _ _ Ht)).
  assert (swept s = true) as Hsw.
  { destruct (G Hc) as [?|(t & g & Ht & Hgu & _)]; [done|]. by rewrite (Hg _ _ Ht) in Hgu. }
  assert (p_closed (proto s) = true) as Hpc by (apply X; by left).
  destruct (L Hc) as [Ld Ll]. split_and!.
  - done.
  - intros l y Hl. destruct (l_closed y) eqn:E; [done|].
    destruct (Y _ _ Hl E) as [Hin|(t & ls & ds & Ht & _)]; [rewrite Ll in Hin; set_solver|].
    by specialize (Hg _ _ Ht).
  - intros d x Hd. destruct (d_closed x) eqn:E; [done|].
    destruct (D _ _ Hd E) as [Hin|(t & ls & ds & Ht & _)]; [rewrite Ld in Hin; set_solver|].
    by specialize (Hg _ _ Ht).
  - intros k p Hp. destruct (W _ _ Hsw Hp) as [?|[?|?]]; [by left|by right|by destruct (Htd k)].
  - intros k i. by apply p_AddPipe_closed.
Qed.
End Shutdown.
End SocketClose.

(** A socket with a listener, a dialer and a pipe closes, while another pipe
    is on its way in. *)
Definition shutdown : list (slabel (P := XPair.state)) :=
  [SNewListener loopback 0 "inproc://b" []; SListen 0; SListened 0 None; SServe 1;
   SAccepted 1 0 [Byte.x00; Byte.x00; Byte.x00; Byte.x05]; SAttach 0; SCore (LAttached 0);
   SNewDialer loopback 0 "inproc://a" []; SDial 0; SDialEnter 2; SDialConnected 2 1 [];
   SClose; SCloseNext 3 None; SCloseNext 3 None; SCloseNext 3 None; SCloseAll 3 [0; 1];
   SClosePipe 4; SClosePipe 5; SAttach 1; SClosePipe 6].
Definition closed_socket : Socket.sock (P := XPair.state) :=
  play sstep okT shutdown (newSocket XPair.NewProtocol alloc0).

Lemma socket_close_complete_witness :
  closed closed_socket = true ∧ p_closed (proto closed_socket) = true ∧
  ∀ k p, cpipes (core closed_socket) !! k = Some p → once p = true ∨ adding p = Attaching.
Proof.
  assert (reachable sstep sinit ok_all closed_socket) as Hr.
  { apply play_reachable; [done|]. by eexists _, _. }
  assert (map_Forall (λ _ g, closing_up g = false) (goros closed_socket)) as Hg.
  { apply (bool_decide_eq_true_1 (map_Forall (λ _ g, closing_up g = false) (goros closed_socket))).
    by vm_compute. }
  assert (closed closed_socket = true) as Hc by by vm_compute.
  destruct (socket_close_complete closed_socket Hr Hc Hg) as (Hp & _ & _ & Hk & _).
  split_and!; [exact Hc|exact Hp|exact Hk].
Defined.
