(* ===== verification/Wrapper.v ===== *)
(** * Wrapper: a protocol that hides the headers of another

    What [src/protocol/star/star.go], [pair1/pair1.go] and [bus/bus.go] have in
    common: a socket that holds a raw protocol and has [SendMsg] and [RecvMsg]
    of its own, which change the header of the message before and after the
    raw call.  The type class [RawProtocol] is what a wrapper uses of a program
    of [Chan], [RawLaws] what it relies on; [wrapped_reachable] is what every
    wrapper then promises. *)
From stdpp Require Import gmap list strings fin_maps.
From Stdlib Require Import ZArith Lia.
From S2P Require Import Prelude Types Chan Backtrace.

(** What a failed [SendMsg] leaves to the caller ... *)
Definition given_back (e : error) (m : msg) : msg :=
  match e with Some _ => m <| mhdr := [] |> | None => m end.
(** ... and what the wrapper's [RecvMsg] returns. *)
Definition cooked_RecvMsg (r : result msg) : result msg :=
  match r with Ok m => Ok (m <| mhdr := [] |>) | Err e => Err e end.

(** A call of the wrapper: its [SendMsg] of [m], while the raw [SendMsg] runs and
    after it returned ([kept] is what the caller keeps of the message), and its
    [RecvMsg]. *)
Inductive call :=
  | InSend (m : msg)
  | SendDone (m : msg) (e : error) (kept : option msg)
  | InRecv
  | RecvDone (r : result msg).

Section Wrapper.
Context {K S T E C : Type} `{!EqDecision K, !Countable K, !Program K msg T}.
Abbreviation st := (st K msg S T).

(** The raw protocol: its program, the two events that start its [SendMsg] and
    [RecvMsg] ([C] is what else the event of [SendMsg] carries), and the program
    points at which these have returned. *)
Class RawProtocol := {
  r_ext : E → st → option st;
  r_init : st → Prop;
  r_send : msg → C → E;
  r_recv : E;
  r_calls : E → bool;
  r_sent : T → option (error * option msg);
  r_got : T → option (result msg)
}.
Context `{!RawProtocol}.

(** The raw socket, and the calls of the wrapper; a call runs in the goroutine
    of the raw call that it makes. *)
Record wrapped := mkWrapped { raw : st; calls : gmap thid call }.
#[export] Instance eta_wrapped : Eta wrapped := λ w, mkWrapped (raw w) (calls w).

(** [out]: what the wrapper's [SendMsg] does to the message before the raw call;
    [back]: what it does to it after one that returned [e]. *)
Context (out : msg → msg) (back : error → msg → msg).

Definition w_SendMsg (m : msg) (c : C) (w : wrapped) : option wrapped :=
  s ← gstep r_ext (LExt (r_send (out m) c)) (raw w);
  Some (mkWrapped s (<[fresh (raw w) := InSend m]> (calls w))).
Definition w_RecvMsg (w : wrapped) : option wrapped :=
  s ← gstep r_ext (LExt r_recv) (raw w);
  Some (mkWrapped s (<[fresh (raw w) := InRecv]> (calls w))).
(** The raw call has returned. *)
Definition w_return (t : thid) (w : wrapped) : option wrapped :=
  th ← threads (raw w) !! t;
  match calls w !! t with
  | Some (InSend m) =>
      '(e, kept) ← r_sent th;
      Some (w <| calls ::= <[t := SendDone m e (back e <$> kept)]> |>)
  | Some InRecv => r ← r_got th; Some (w <| calls ::= <[t := RecvDone (cooked_RecvMsg r)]> |>)
  | _ => None
  end.

Inductive wlabel :=
  | WStep (l : label E)            (* a step of the raw socket that is no call *)
  | WSend (m : msg) (c : C)
  | WRecv
  | WReturn (t : thid).

Definition wstep (l : wlabel) (w : wrapped) : option wrapped :=
  match l with
  | WStep l =>
      guard (match l with LExt e => r_calls e | _ => false end = false);;
      s ← gstep r_ext l (raw w); Some (w <| raw := s |>)
  | WSend m c => w_SendMsg m c w
  | WRecv => w_RecvMsg w
  | WReturn t => w_return t w
  end.
Definition winit (w : wrapped) : Prop := r_init (raw w) ∧ calls w = ∅.
Definition wany (w : wrapped) (l : wlabel) : Prop := True.

(** [m] was given to [SendMsg]. *)
Definition called (w : wrapped) (m : msg) : Prop :=
  ∃ t, calls w !! t = Some (InSend m) ∨ ∃ e kept, calls w !! t = Some (SendDone m e kept).

(** *** What a wrapper relies on *)

Definition r_reachable : st → Prop := reachable (gstep r_ext) r_init (gok (λ _ _, True)).

(** [r_sending m]: a program point of the raw [SendMsg(m)]; [r_submitted]: what
    the raw [SendMsg] took; [r_brought]: what the raw [RecvMsg] may return. *)
Class RawLaws := {
  r_sending : msg → T → Prop;
  r_submitted : S → list msg;
  r_brought : S → msg → Prop;
  rl_wf s : r_reachable s → wf s;
  rl_advance l s s' : r_reachable s → gstep r_ext l s = Some s' → advance s s';
  rl_empty s : r_init s → r_submitted (vars s) = [];
  rl_resume m th i v : r_sending m th → r_sending m (fst (resume th i v));
  rl_ext e s s' t th m : wf s → r_ext e s = Some s' → threads s !! t = Some th → r_sending m th →
    ∃ th', threads s' !! t = Some th' ∧ r_sending m th';
  rl_start m c s s' : r_ext (r_send m c) s = Some s' →
    fresh s < fresh s' ∧ ∃ th, threads s' !! fresh s = Some th ∧ r_sending m th;
  rl_recv s s' : r_ext r_recv s = Some s' → fresh s < fresh s';
  rl_calls e m c : r_calls e = false → e ≠ r_send m c;
  rl_sent m th e kept : r_sending m th → r_sent th = Some (e, kept) →
    kept = match e with Some _ => Some m | None => None end;
  rl_submitted e s s' : r_ext e s = Some s' →
    r_submitted (vars s') = r_submitted (vars s) ∨
    ∃ m c, e = r_send m c ∧ r_submitted (vars s') = r_submitted (vars s) ++ [m];
  rl_inj m m' c c' : r_send m c = r_send m' c' → m = m';
  rl_not_recv m c : r_send m c ≠ r_recv;
  rl_brought e s s' m : r_ext e s = Some s' → r_brought (vars s) m → r_brought (vars s') m;
  rl_got s t th m : r_reachable s → threads s !! t = Some th → r_got th = Some (Ok m) →
    r_brought (vars s) m
}.
Context `{!RawLaws}.

(** *** What it promises *)

(** Its runs are runs of the raw socket.  Every message the raw socket took is
    [out m] for an [m] the application sent.  When [SendMsg] fails the caller has
    its message back, as [back] leaves it, and otherwise not; what [RecvMsg]
    returns was brought to the raw socket, and has no header. *)
Record promises (w : wrapped) : Prop := {
  pr_raw : r_reachable (raw w);
  pr_submitted m : m ∈ r_submitted (vars (raw w)) → ∃ m0, called w m0 ∧ m = out m0;
  pr_send t m : calls w !! t = Some (InSend m) →
    ∃ th, threads (raw w) !! t = Some th ∧ r_sending (out m) th;
  pr_sent t m e kept : calls w !! t = Some (SendDone m e kept) →
    kept = match e with Some _ => Some (back e (out m)) | None => None end;
  pr_got t m : calls w !! t = Some (RecvDone (Ok m)) →
    ∃ m1, r_brought (vars (raw w)) m1 ∧ m = m1 <| mhdr := [] |>;
  pr_fresh t : is_Some (calls w !! t) → t < fresh (raw w)
}.

Lemma brought_step l s s' m :
  gstep r_ext l s = Some s' → r_brought (vars s) m → r_brought (vars s') m.
Proof. intros [->|(e & _ & Hs)]%gstep_vars; [done|by eapply rl_brought]. Qed.
Lemma sending_step l s s' t th m :
  r_reachable s → gstep r_ext l s = Some s' → threads s !! t = Some th → r_sending m th →
  ∃ th', threads s' !! t = Some th' ∧ r_sending m th'.
Proof.
  intros Hr Hs Ht Hm. eapply (gstep_follows r_ext (r_sending m)); [| |done..].
  - intros th0 i v. apply rl_resume.
  - intros e s1 He. eapply rl_ext; [by apply rl_wf|done..].
Qed.
Lemma raw_reachable_step l s s' : r_reachable s → gstep r_ext l s = Some s' → r_reachable s'.
Proof. intros Hr Hs. eapply reachable_step; [done| |done]. by destruct l. Qed.

(** A step of the raw socket, with a new call [k] or without one. *)
Lemma promises_raw l w s' k :
  promises w → gstep r_ext l (raw w) = Some s' →
  (∀ c, k = Some c → (c = InRecv ∨ ∃ m th, c = InSend m ∧
     threads s' !! fresh (raw w) = Some th ∧ r_sending (out m) th) ∧ fresh (raw w) < fresh s') →
  (r_submitted (vars s') = r_submitted (vars (raw w)) ∨
   ∃ m, k = Some (InSend m) ∧ r_submitted (vars s') = r_submitted (vars (raw w)) ++ [out m]) →
  promises (mkWrapped s' (match k with Some c => <[fresh (raw w) := c]> (calls w) | None => calls w end)).
Proof.
  intros [Hr Hsub Hse Hst Hgo Hfr] Hs Hk Hsb. set (cs := match k with Some _ => _ | None => _ end).
  assert (∀ t c, calls w !! t = Some c → cs !! t = Some c) as Hkeep.
  { intros t c Ht. unfold cs. destruct k; [|done]. rewrite lookup_insert_ne; [done|].
    intros <-. specialize (Hfr _ (mk_is_Some _ _ Ht)). lia. }
  assert (∀ t c, cs !! t = Some c → calls w !! t = Some c ∨ t = fresh (raw w) ∧ k = Some c) as Hold.
  { intros t c. unfold cs. destruct k as [c0|]; [|by left]. rewrite lookup_insert. case_decide; [|by left].
    intros [= ->]. by right. }
  assert (∀ m, called w m → called (mkWrapped s' cs) m) as Hcalled.
  { intros m (t & [Ht|(e & kept & Ht)]); exists t; eauto. }
  pose proof (adv_fresh _ _ (rl_advance _ _ _ Hr Hs)) as Hle.
  split; cbn [raw calls].
  - by eapply raw_reachable_step.
  - intros m. destruct Hsb as [->|(m1 & -> & ->)].
    + intros Hm. destruct (Hsub m Hm) as (m0 & ? & ->). eauto.
    + intros [Hm|Hm]%elem_of_app.
      * destruct (Hsub m Hm) as (m0 & ? & ->). eauto.
      * apply list_elem_of_singleton in Hm as ->. exists m1. split; [|done]. exists (fresh (raw w)). left.
        unfold cs. apply lookup_insert_eq.
  - intros t m [Ht|[-> Hkm]]%Hold.
    + destruct (Hse t m Ht) as (th & Hth & Hm). by eapply sending_step.
    + destruct (Hk _ Hkm) as [[|(m' & th & [= ->] & ? & ?)] _]; [done|by exists th].
  - intros t m e kept [Ht|[-> Hkm]]%Hold; [by eauto|].
    destruct (Hk _ Hkm) as [[|(m' & th & ? & _)] _]; done.
  - intros t m [Ht|[-> Hkm]]%Hold.
    + destruct (Hgo t m Ht) as (m1 & ? & ->). exists m1. split; [by eapply brought_step|done].
    + destruct (Hk _ Hkm) as [[|(m' & th & ? & _)] _]; done.
  - intros t [c [Ht|[-> Hkm]]%Hold]; [specialize (Hfr _ (mk_is_Some _ _ Ht)); lia|].
    by destruct (Hk _ Hkm).
Qed.

(** A raw call has returned. *)
Lemma promises_return t w w' : promises w → w_return t w = Some w' → promises w'.
Proof.
  intros [Hr Hsub Hse Hst Hgo Hfr] Hs.
  apply bind_Some in Hs as (th & Hth & Hs). destruct (calls w !! t) as [[m| | |]|] eqn:Hc; try done.
  - apply bind_Some in Hs as ([e kept] & He & [= <-]). destruct (Hse t m Hc) as (th' & Hth' & Hm).
    simplify_eq. pose proof (rl_sent _ _ _ _ Hm He) as ->.
    split; cbn [raw calls set_field]; [done|..].
    + intros m' Hm'. destruct (Hsub m' Hm') as (m0 & (t0 & Ht0) & ->). exists m0. split; [|done].
      exists t0. cbn. destruct (decide (t0 = t)) as [->|].
      * right. rewrite lookup_insert_eq. destruct Ht0 as [Ht0|(? & ? & Ht0)]; simplify_eq. eauto.
      * by rewrite lookup_insert_ne.
    + intros t0 m0. rewrite lookup_insert. case_decide; [done|]. apply Hse.
    + intros t0 m0 e0 kept0. rewrite lookup_insert. case_decide; [|by eauto].
      intros [= <- <- <-]. by destruct e.
    + intros t0 m0. rewrite lookup_insert. case_decide; [done|]. apply Hgo.
    + intros t0. rewrite lookup_insert_is_Some'. intros [<-|?]; apply Hfr; eauto.
  - apply bind_Some in Hs as (r & He & [= <-]).
    split; cbn [raw calls set_field]; [done|..].
    + intros m' Hm'. destruct (Hsub m' Hm') as (m0 & (t0 & Ht0) & ->). exists m0. split; [|done].
      exists t0. cbn. rewrite lookup_insert_ne; [done|]. intros <-. destruct Ht0 as [|(? & ? & ?)]; congruence.
    + intros t0 m0. rewrite lookup_insert. case_decide; [done|]. apply Hse.
    + intros t0 m0 e0 kept0. rewrite lookup_insert. case_decide; [done|]. apply Hst.
    + intros t0 m0. rewrite lookup_insert. case_decide; [|by apply Hgo].
      destruct r as [m1|]; [|done]. cbn. intros [= <-]. exists m1. split; [|done]. by eapply rl_got.
    + intros t0. rewrite lookup_insert_is_Some'. intros [<-|?]; apply Hfr; eauto.
Qed.

Lemma wrapped_reachable w : reachable wstep winit wany w → promises w.
Proof.
  revert w. apply (reachable_invariant wstep winit wany promises).
  - intros [s cs] [Hi Hc]. cbn in Hi, Hc. subst cs. split; cbn.
    + by apply reachable_init.
    + rewrite rl_empty by done. by intros m ?%elem_of_nil.
    + done.
    + done.
    + done.
    + intros t [? ?]. done.
  - intros l w w' Hp _ Hs. destruct l as [l|m c| |t]; cbn [wstep] in Hs; [| | |by eapply promises_return].
    + apply guard_bind_Some in Hs as [Hl Hs]. apply bind_Some in Hs as (s & Hs & [= <-]).
      apply (promises_raw l w s None); [done..|].
      apply gstep_vars in Hs as [->|(e & -> & He)]; [by left|].
      destruct (rl_submitted _ _ _ He) as [?|(m & c & -> & _)]; [by left|].
      by destruct (rl_calls _ m c Hl).
    + apply bind_Some in Hs as (s & Hs & [= <-]).
      pose proof (gstep_ext _ _ _ _ Hs) as He. destruct (rl_start _ _ _ _ He) as (Hlt & th & Ht & Hm).
      apply (promises_raw (LExt (r_send (out m) c)) w s (Some (InSend m))); [done..| |].
      * intros ? [= <-]. split; [right; by exists m, th|done].
      * destruct (rl_submitted _ _ _ He) as [?|(m' & c' & Heq & ->)]; [by left|right].
        exists m. apply rl_inj in Heq as <-. done.
    + apply bind_Some in Hs as (s & Hs & [= <-]). pose proof (gstep_ext _ _ _ _ Hs) as He.
      apply (promises_raw (LExt r_recv) w s (Some InRecv)); [done..| |].
      * intros ? [= <-]. split; [by left|by apply rl_recv].
      * destruct (rl_submitted _ _ _ He) as [?|(m' & c' & Heq & _)]; [by left|].
        by destruct (rl_not_recv m' c').
Qed.
End Wrapper.
Arguments RawProtocol K S T E C {_ _}.
Arguments wrapped K S T {_ _}.
Arguments WStep {E C}. Arguments WSend {E C}. Arguments WRecv {E C}. Arguments WReturn {E C}.
