(* ===== verification/Cooked.v ===== *)
(** * Cooked: the sockets without headers

    [src/protocol/bus/bus.go], [pair/pair.go], [pair1/pair1.go], [pub/pub.go],
    [pull/pull.go], [push/push.go] and [star/star.go] wrap the raw protocols:
    all of them answer for [OptionRaw] themselves, and BUS, PAIR1 and STAR
    hide the header.  What a wrapper does not define is the raw protocol's. *)
From stdpp Require Import gmap list strings fin_maps.
From Stdlib Require Import ZArith Lia.
From S2P Require Import Prelude Types Chan Backtrace XPair1 XStar XBus Protocol Wrapper.

(** ** Options *)

(** [GetOption] of all seven wrappers. *)
Definition cooked_GetOption {S} (raw : string → S → result value) (name : string) (σ : S)
    : result value :=
  if String.eqb name OptionRaw then Ok (VBool false) else raw name σ.

(** PAIR, PUB, PULL and PUSH wrap nothing else, and are protocols. *)
Definition cook {P} (B : ProtocolBase P) : ProtocolBase P := {|
  p_event := @p_event P B; p_step := @p_step P B; p_AddPipe := p_AddPipe; p_RemovePipe := p_RemovePipe;
  p_Close := p_Close; p_SetOption := p_SetOption; p_GetOption := cooked_GetOption p_GetOption;
  p_Info := @p_Info P B; p_closed := p_closed |}.
Lemma cook_laws {P} (B : ProtocolBase P) : ProtocolLaws P → @ProtocolLaws P (cook B).
Proof. intros []. by split. Qed.

(** ** Headers *)

(** [make([]byte, 4)] *)
Definition no_hops : bytes := replicate 4 Byte.x00.

(** What the raw [SendMsg] is given ... *)
Definition bus_out (m : msg) : msg := if decide (0 < length (mhdr m)) then m <| mhdr := [] |> else m.
Definition pair1_out (m : msg) : msg := m <| mhdr := no_hops |>.
Definition star_out (m : msg) : msg := m <| mhdr := no_hops |>.
(** ... and what the caller of PAIR1 and STAR keeps of it is [given_back]; BUS
    leaves it as it is. *)
Definition kept (e : error) (m : msg) : msg := m.

(** ** The wrapped protocols *)
#[export] Instance star_raw : RawProtocol XStar.kind XStar.socket XStar.thread XStar.event (list XStar.pid) := {|
  r_ext := XStar.ext;
  r_init := XStar.init;
  r_send m order := XStar.ESend m order;
  r_recv := XStar.ERecv;
  r_calls e := match e with XStar.ESend _ _ | XStar.ERecv => true | _ => false end;
  r_sent th := match th with XStar.SendRet e m => Some (e, m) | _ => None end;
  r_got th := match th with XStar.RecvRet r => Some r | _ => None end |}.
#[export] Instance pair1_raw : RawProtocol XPair1.kind XPair1.socket XPair1.thread XPair1.event unit := {|
  r_ext := XPair1.ext;
  r_init := XPair1.init;
  r_send m _ := XPair1.ESend m;
  r_recv := XPair1.ERecv;
  r_calls e := match e with XPair1.ESend _ | XPair1.ERecv => true | _ => false end;
  r_sent th := match th with XPair1.SendRet e m => Some (e, m) | _ => None end;
  r_got th := match th with XPair1.RecvRet r => Some r | _ => None end |}.
#[export] Instance bus_raw : RawProtocol XBus.kind XBus.socket XBus.thread XBus.event (list XBus.pid) := {|
  r_ext := XBus.ext;
  r_init := XBus.init;
  r_send m order := XBus.ESend m order;
  r_recv := XBus.ERecv;
  r_calls e := match e with XBus.ESend _ _ | XBus.ERecv => true | _ => false end;
  r_sent th := match th with XBus.SendRet e m => Some (e, m) | _ => None end;
  r_got th := match th with XBus.RecvRet r => Some r | _ => None end |}.

Abbreviation star_socket := (wrapped XStar.kind XStar.socket XStar.thread).
Abbreviation pair1_socket := (wrapped XPair1.kind XPair1.socket XPair1.thread).
Abbreviation bus_socket := (wrapped XBus.kind XBus.socket XBus.thread).
Definition star_step : wlabel → star_socket → option star_socket := wstep star_out given_back.
Definition pair1_step : wlabel → pair1_socket → option pair1_socket := wstep pair1_out given_back.
Definition bus_step : wlabel → bus_socket → option bus_socket := wstep bus_out kept.
(** [NewProtocol] *)
Definition new_star : star_socket := mkWrapped XStar.NewProtocol ∅.
Definition new_pair1 : pair1_socket := mkWrapped XPair1.NewProtocol ∅.
Definition new_bus : bus_socket := mkWrapped XBus.NewProtocol ∅.

(** ** Bodies travel unchanged *)

(** Socket [i] on the way of a STAR message lets it pass. *)
Fixpoint passes (h : Z) (ttls : list Z) : bool :=
  match ttls with [] => true | n :: ttls => (h <? n)%Z && passes (h + 1) ttls end.

Lemma star_receive_put ttl p h b :
  (0 < ttl < 256)%Z → (0 ≤ h < 256)%Z →
  star_receive ttl (unwire p (put_uint32 h ++ b)) =
  if (h <? ttl)%Z then Some (mkMsg (put_uint32 (h + 1)) b (Some p) 0) else None.
Proof.
  intros Ht Hh. rewrite (put_small h) by lia. unfold star_receive, unwire. cbn [app mbody].
  rewrite Z_of_byte_of_Z, Z.mod_small by lia. destruct (Z.ltb_spec h ttl).
  - rewrite decide_True by done. rewrite put_small by lia. done.
  - rewrite decide_False; [done|]. intros (_ & _ & _ & ?). lia.
Qed.

Lemma star_chain_put ttls h b :
  Forall (λ z, 0 < z < 256)%Z ttls → (0 ≤ h < 256)%Z →
  star_chain ttls (put_uint32 h ++ b) =
  if passes h ttls then Some (put_uint32 (h + Z.of_nat (length ttls)) ++ b) else None.
Proof.
  intros Hall. revert h. induction Hall as [|n ttls Hn _ IH]; intros h Hh; cbn [star_chain passes length].
  - by rewrite Z.add_0_r.
  - rewrite star_receive_put by done. destruct (Z.ltb_spec h n); cbn; [|done].
    unfold wire. cbn [mhdr mbody]. rewrite IH by lia. case_match; [|done]. do 3 f_equal. lia.
Qed.
Lemma passes_bound ttls h :
  Forall (λ z, 0 < z < 256)%Z ttls → (0 ≤ h < 256)%Z → passes h ttls = true →
  (h + Z.of_nat (length ttls) < 256)%Z.
Proof.
  intros Hall. revert h. induction Hall as [|n ttls Hn _ IH]; intros h Hh; cbn; [lia|].
  intros [Hlt Hp]%andb_prop. specialize (IH (h + 1)%Z ltac:(lia) Hp). lia.
Qed.
Lemma passes_app ttls n h : passes h (ttls ++ [n]) = passes h ttls && (h + Z.of_nat (length ttls) <? n)%Z.
Proof.
  revert h. induction ttls as [|k ttls IH]; intros h; cbn [app passes length].
  - by rewrite andb_true_r, Z.add_0_r.
  - rewrite IH, andb_assoc. do 2 f_equal. lia.
Qed.

Lemma bus_out_eq m : bus_out m = m <| mhdr := [] |>.
Proof. destruct m as [h b q n]. unfold bus_out. cbn. case_decide; [done|]. destruct h; [done|cbn in *; lia]. Qed.

Lemma bus_targets σ order m :
  (∀ q po, XBus.pobjs σ !! q = Some po → XBus.p_id po ≠ 0%Z) →
  XBus.targets σ (XBus.origin (m <| mhdr := [] |>)) order =
  omap (λ q, XBus.p_sendQ <$> XBus.pobjs σ !! q) order.
Proof.
  intros Hid. unfold XBus.targets.
  apply list_omap_ext. induction order as [|q order IH]; constructor; [|exact IH].
  destruct (XBus.pobjs σ !! q) as [po|] eqn:Hq; [|done].
  change (XBus.origin (m <| mhdr := [] |>)) with 0%Z. cbn.
  rewrite decide_False by (by apply (Hid q)). done.
Qed.

(** C39. Between wrapped sockets bodies travel unchanged, as they do with
    PAIR, and headers are never seen.  A PAIR1 peer receives the body that was
    sent, and a BUS peer; the message leaves a BUS socket on every pipe,
    whatever header it was given.  A STAR socket with TTL [n], after any number
    of other sockets, receives the body if and only if the [i]-th socket on
    the way (from 0) has a TTL above [i].  On failure the caller gets the body
    back.  And no option but [OptionRaw] is answered differently. *)
Theorem cooked_bodies (m : msg) (p : Z) :
  (∀ n, (0 ≤ n)%Z → cooked_RecvMsg <$> (Ok <$> pair1_receive n (unwire p (wire (pair1_out m)))) =
     Some (Ok (unwire p (mbody m)))) ∧
  (∀ ttls n, Forall (λ z, 0 < z < 256)%Z (ttls ++ [n]) →
     (b ← star_chain ttls (wire (star_out m));
      m' ← star_receive n (unwire p b); Some (cooked_RecvMsg (Ok m'))) =
     if passes 0 (ttls ++ [n]) then Some (Ok (unwire p (mbody m))) else None) ∧
  (∀ po, cooked_RecvMsg (Ok (XBus.stamp po (unwire p (wire (XBus.strip (bus_out m)))))) =
     Ok (unwire p (mbody m))) ∧
  (∀ σ order, (∀ q po, XBus.pobjs σ !! q = Some po → XBus.p_id po ≠ 0%Z) →
     XBus.targets σ (XBus.origin (bus_out m)) order =
     omap (λ q, XBus.p_sendQ <$> XBus.pobjs σ !! q) order) ∧
  (∀ e, mbody (given_back e (pair1_out m)) = mbody m ∧
        (e ≠ None → mhdr (given_back e (star_out m)) = [])) ∧
  (∀ S (raw : string → S → result value) name σ,
     cooked_GetOption raw name σ = if String.eqb name OptionRaw then Ok (VBool false) else raw name σ).
Proof.
  split_and!.
  - intros n Hn. unfold pair1_receive, wire, pair1_out. cbn [mhdr mbody set_field unwire].
    change no_hops with (put_uint32 0). rewrite decide_False by apply len4.
    rewrite take4, drop4, uint32_put by lia. rewrite (proj2 (Z.ltb_ge n 0)) by lia. done.
  - intros ttls n [Hall Hn]%Forall_app. apply Forall_cons in Hn as [Hn _].
    unfold wire, star_out. cbn [mhdr mbody set_field]. change no_hops with (put_uint32 0).
    rewrite star_chain_put by (done || lia). rewrite passes_app.
    destruct (passes 0 ttls) eqn:Hp; cbn [andb]; [|done]. cbn [mbind option_bind].
    pose proof (passes_bound ttls 0 Hall ltac:(lia) Hp).
    rewrite star_receive_put by (done || lia). by destruct (_ <? n)%Z.
  - intros po. by rewrite bus_out_eq.
  - intros σ order Hid. rewrite bus_out_eq. by apply bus_targets.
  - intros e. split; [by destruct e|]. by destruct e.
  - done.
Qed.

(** ** The raw protocols keep what the wrappers rely on *)

(** What was submitted only grows by what [SendMsg] is given. *)
Lemma star_submitted e s s' :
  XStar.ext e s = Some s' →
  XStar.submitted (vars s') = XStar.submitted (vars s) ∨
  ∃ m order, e = XStar.ESend m order ∧ XStar.submitted (vars s') = XStar.submitted (vars s) ++ [m].
Proof.
  intros Hs. destruct e; cbn [XStar.ext] in Hs; unfold_ext Hs; rewrite <-Hs; clear Hs.
  all: unfold XStar.SendMsg, XStar.SendMsg_next, XStar.receiver_turn, XStar.receiver_lock,
    XStar.receiver_next, XStar.receiver_put, XStar.sender_sent, XStar.pipe_close, XStar.SetOption,
    XStar.Close, XStar.AddPipe, XStar.AddPipe_locked, XStar.RemovePipe, XStar.RemovePipe_locked; frame_vars.
  right. by exists m, order.
Qed.
Lemma pair1_submitted e s s' :
  XPair1.ext e s = Some s' →
  XPair1.submitted (vars s') = XPair1.submitted (vars s) ∨
  ∃ m, e = XPair1.ESend m ∧ XPair1.submitted (vars s') = XPair1.submitted (vars s) ++ [m].
Proof.
  intros Hs. destruct e; cbn [XPair1.ext] in Hs; unfold_ext Hs; rewrite <-Hs; clear Hs.
  all: unfold XPair1.SendMsg, XPair1.receiver_turn, XPair1.sender_sent, XPair1.pipe_close,
    XPair1.SetOption, XPair1.resize, XPair1.Close, XPair1.AddPipe, XPair1.RemovePipe; frame_vars.
  all: right; by exists m.
Qed.
Lemma bus_submitted e s s' :
  XBus.ext e s = Some s' →
  XBus.submitted (vars s') = XBus.submitted (vars s) ∨
  ∃ m order, e = XBus.ESend m order ∧ XBus.submitted (vars s') = XBus.submitted (vars s) ++ [m].
Proof.
  intros Hs. destruct e; cbn [XBus.ext] in Hs; unfold_ext Hs; rewrite <-Hs; clear Hs.
  all: unfold XBus.SendMsg, XBus.SendMsg_next, XBus.receiver_turn, XBus.sender_sent, XBus.pipe_Close,
    XBus.SetOption, XBus.resize, XBus.Close, XBus.AddPipe, XBus.RemovePipe; frame_vars.
  right. by exists m, order.
Qed.

Lemma bus_arrived e s s' x :
  XBus.ext e s = Some s' → x ∈ XBus.arrived (vars s) → x ∈ XBus.arrived (vars s').
Proof.
  intros Hs Hx. enough (XBus.arrived (vars s') = XBus.arrived (vars s) ∨
    ∃ y, XBus.arrived (vars s') = XBus.arrived (vars s) ++ [y]) as [->|[y ->]] by set_solver.
  clear Hx. destruct e; cbn [XBus.ext] in Hs; unfold_ext Hs; rewrite <-Hs; clear Hs.
  all: unfold XBus.SendMsg, XBus.SendMsg_next, XBus.receiver_turn, XBus.sender_sent, XBus.pipe_Close,
    XBus.SetOption, XBus.resize, XBus.Close, XBus.AddPipe, XBus.RemovePipe; frame_vars.
  right. by eexists.
Qed.

(** The program points of the raw [SendMsg(m)]. *)
Definition star_sending (m : msg) (th : XStar.thread) : Prop :=
  match th with
  | XStar.SendNext m' _ | XStar.SendTry m' _ _ => m' = m
  | XStar.SendRet e m' => m' = match e with Some _ => Some m | None => None end
  | _ => False
  end.
Definition pair1_sending (m : msg) (th : XPair1.thread) : Prop :=
  match th with
  | XPair1.SendTry _ _ _ m' _ _ | XPair1.SendWait _ _ _ m' _ _ => m' = m
  | XPair1.SendRet e m' => m' = match e with Some _ => Some m | None => None end
  | _ => False
  end.
Definition bus_sending (m : msg) (th : XBus.thread) : Prop :=
  match th with
  | XBus.SendNext m' _ | XBus.SendTry m' _ _ => m' = XBus.strip m
  | XBus.SendRet e m' => m' = match e with Some _ => Some m | None => None end
  | _ => False
  end.

(** The thread of a call in a state made by a critical section that is not one
    of its own, or is. *)
Ltac follow Ht Hm :=
  cbn; repeat case_match; cbn; rewrite ?threads_close_chan, ?fresh_close_chan; cbn; rewrite ?lookup_insert;
  repeat match goal with
  | |- context [if decide (?a = ?b) then _ else _] =>
      destruct (decide (a = b)); [subst; first [lia | by simplify_eq/= | simplify_eq/=; eexists; split; [reflexivity|done]]|]
  end; eauto.
Ltac at_thread Hs :=
  match type of Hs with
  | match threads ?s !! ?t with _ => _ end = _ =>
      let Ht := fresh "Hat" in destruct (threads s !! t) as [[]|] eqn:Ht; try discriminate Hs
  | threads ?s !! ?t ≫= _ = _ =>
      let Ht := fresh "Hat" in destruct (threads s !! t) as [[]|] eqn:Ht; try discriminate Hs
  | _ => idtac
  end.

Lemma star_follows e s s' t th m :
  wf s → XStar.ext e s = Some s' → threads s !! t = Some th → star_sending m th →
  ∃ th', threads s' !! t = Some th' ∧ star_sending m th'.
Proof.
  intros Hwf Hs Ht Hm. pose proof (wf_fresh_t _ Hwf t (mk_is_Some _ _ Ht)) as Hlt.
  destruct e; cbn [XStar.ext] in Hs; at_thread Hs; unfold_ext Hs; rewrite <-Hs; clear Hs.
  all: unfold XStar.SendMsg, XStar.SendMsg_next, XStar.receiver_turn, XStar.receiver_lock,
    XStar.receiver_next, XStar.receiver_put, XStar.sender_sent, XStar.pipe_close, XStar.SetOption,
    XStar.Close, XStar.AddPipe, XStar.AddPipe_locked, XStar.RemovePipe, XStar.RemovePipe_locked;
    follow Ht Hm.
Qed.
Lemma pair1_follows e s s' t th m :
  wf s → XPair1.ext e s = Some s' → threads s !! t = Some th → pair1_sending m th →
  ∃ th', threads s' !! t = Some th' ∧ pair1_sending m th'.
Proof.
  intros Hwf Hs Ht Hm. pose proof (wf_fresh_t _ Hwf t (mk_is_Some _ _ Ht)) as Hlt.
  destruct e; cbn [XPair1.ext] in Hs; at_thread Hs; unfold_ext Hs; rewrite <-Hs; clear Hs.
  all: unfold XPair1.SendMsg, XPair1.receiver_turn, XPair1.sender_sent, XPair1.pipe_close,
    XPair1.SetOption, XPair1.resize, XPair1.Close, XPair1.AddPipe, XPair1.RemovePipe; follow Ht Hm.
Qed.
Lemma bus_follows e s s' t th m :
  wf s → XBus.ext e s = Some s' → threads s !! t = Some th → bus_sending m th →
  ∃ th', threads s' !! t = Some th' ∧ bus_sending m th'.
Proof.
  intros Hwf Hs Ht Hm. pose proof (wf_fresh_t _ Hwf t (mk_is_Some _ _ Ht)) as Hlt.
  destruct e; cbn [XBus.ext] in Hs; at_thread Hs; unfold_ext Hs; rewrite <-Hs; clear Hs.
  all: unfold XBus.SendMsg, XBus.SendMsg_next, XBus.receiver_turn, XBus.sender_sent, XBus.pipe_Close,
    XBus.SetOption, XBus.resize, XBus.Close, XBus.AddPipe, XBus.RemovePipe; follow Ht Hm.
Qed.

(** What the raw [RecvMsg] returns was brought by a pipe: the body, after the
    four bytes of a hop count that the TTL of that moment admits. *)
Definition star_brought (σ : XStar.socket) (m : msg) : Prop :=
  ∃ p m0 n h, (p, m0, n) ∈ XStar.arrived σ ∧ (0 ≤ h < n)%Z ∧ mbody m0 = put_uint32 h ++ mbody m.
Definition pair1_brought (σ : XPair1.socket) (m : msg) : Prop :=
  ∃ m0 n h, (m0, n) ∈ XPair1.arrived σ ∧ (0 ≤ h < 255)%Z ∧ (h ≤ n)%Z ∧
    mbody m0 = put_uint32 h ++ mbody m.
Definition bus_brought (σ : XBus.socket) (m : msg) : Prop :=
  ∃ p m0, (p, m0) ∈ XBus.arrived σ ∧ mbody m0 = mbody m.

#[export] Instance star_laws : RawLaws (H := star_raw).
Proof.
  refine {| r_sending := star_sending; r_submitted := XStar.submitted; r_brought := star_brought |}.
  - intros s Hr. apply (XStar.reachable_xstar s Hr).
  - intros l s s' Hr Hs. destruct (XStar.reachable_xstar s Hr). by eapply (gstep_ok XStar.ext).
  - by intros s ->.
  - intros m th i v. by destruct th, i as [[|[|]]|]; cbn; try done; destruct v.
  - apply star_follows.
  - intros m order s s' Hs. apply guard_bind_Some in Hs as [_ [= <-]]. unfold XStar.SendMsg.
    repeat case_match; cbn; rewrite ?lookup_insert_eq; (split; [lia|]); by eexists.
  - intros s s' Hs. apply guard_bind_Some in Hs as [_ [= <-]]. cbn. lia.
  - by intros e m order Hc ->.
  - intros m th e m' Hm. by destruct th; try done; intros [= -> ->].
  - apply star_submitted.
  - by intros m m' c c' [= ->].
  - done.
  - intros e s s' m Hs (p & m0 & n & h & Ha & ?). exists p, m0, n, h. split; [|done].
    destruct (XStar.xstar_ext_ttl _ _ _ Hs) as [[->|(? & ? & ? & ? & _ & _ & ->)] _]; [done|].
    apply elem_of_app. by left.
  - intros s t th m Hr Ht Hg. destruct th; try done. injection Hg as ->.
    destruct (XStar.reachable_xstar s Hr) as [_ _ [_ Hty _]]. destruct (Hty _ _ Ht) as [p Hp].
    destruct (XStar.hopped_hops _ _ _ Hp) as (m0 & n & h & ? & ? & _ & ? & _). by exists p, m0, n, h.
Defined.
#[export] Instance pair1_laws : RawLaws (H := pair1_raw).
Proof.
  refine {| r_sending := pair1_sending; r_submitted := XPair1.submitted; r_brought := pair1_brought |}.
  - intros s Hr. apply (XPair1.reachable_xpair1 s Hr).
  - intros l s s' Hr Hs. destruct (XPair1.reachable_xpair1 s Hr) as [[] _].
    by eapply (gstep_ok XPair1.ext).
  - by intros s ->.
  - intros m th i v Hm. destruct th; try done; destruct i as [[|[|[|]]]|]; cbn in *; subst;
      try (destruct be); done.
  - apply pair1_follows.
  - intros m order s s' Hs. apply guard_bind_Some in Hs as [_ [= <-]]. unfold XPair1.SendMsg.
    repeat case_match; cbn; rewrite ?lookup_insert_eq; (split; [lia|]); by eexists.
  - intros s s' [= <-]. cbn. lia.
  - by intros e m order Hc ->.
  - intros m th e m' Hm. by destruct th; try done; intros [= -> ->].
  - intros e s s' Hs. destruct (pair1_submitted _ _ _ Hs) as [?|(m & ? & ?)]; [by left|].
    right. by exists m, tt.
  - by intros m m' c c' [= ->].
  - done.
  - intros e s s' m Hs (m0 & n & h & Ha & ?). exists m0, n, h. split; [|done].
    destruct (XPair1.xpair1_ext_ttl _ _ _ Hs) as [[->|(? & ? & _ & ->)] _]; [done|].
    apply elem_of_app. by left.
  - intros s t th m Hr Ht Hg. destruct th; try done. injection Hg as ->.
    destruct (XPair1.reachable_xpair1 s Hr) as [[_ _ [_ Hty _]] _].
    destruct (Hty _ _ Ht) as (m0 & n & Ha & Hm0 & Hp).
    destruct (XPair1.pair1_receive_Some _ _ _ Hm0 Hp) as (h & ? & ? & ? & _). by exists m0, n, h.
Defined.
#[export] Instance bus_laws : RawLaws (H := bus_raw).
Proof.
  refine {| r_sending := bus_sending; r_submitted := XBus.submitted; r_brought := bus_brought |}.
  - intros s Hr. apply (XBus.reachable_xbus s Hr).
  - intros l s s' Hr Hs. destruct (XBus.reachable_xbus s Hr). by eapply (gstep_ok XBus.ext).
  - by intros s ->.
  - intros m th i v. by destruct th, i as [[|[|]]|]; cbn; try done; destruct v.
  - apply bus_follows.
  - intros m order s s' Hs. apply guard_bind_Some in Hs as [_ [= <-]]. unfold XBus.SendMsg.
    repeat case_match; cbn; rewrite ?lookup_insert_eq; (split; [lia|]); by eexists.
  - intros s s' [= <-]. cbn. lia.
  - by intros e m order Hc ->.
  - intros m th e m' Hm. by destruct th; try done; intros [= -> ->].
  - apply bus_submitted.
  - by intros m m' c c' [= ->].
  - done.
  - intros e s s' m Hs (p & m0 & Ha & ?). exists p, m0. split; [by eapply bus_arrived|done].
  - intros s t th m Hr Ht Hg. destruct th; try done. injection Hg as ->.
    destruct (XBus.reachable_xbus s Hr) as [_ _ [_ Hty _]].
    destruct (Hty _ _ Ht) as (p & m0 & po & Ha & _ & ->). by exists p, m0.
Defined.

Lemma star_promises w : reachable star_step winit wany w → promises star_out given_back w.
Proof. apply (wrapped_reachable star_out given_back). Qed.
Lemma pair1_promises w : reachable pair1_step winit wany w → promises pair1_out given_back w.
Proof. apply (wrapped_reachable pair1_out given_back). Qed.
Lemma bus_promises w : reachable bus_step winit wany w → promises bus_out kept w.
Proof. apply (wrapped_reachable bus_out kept). Qed.

(** C40. The wrapped protocols implement the raw ones with messages that have no
    headers.  Every run of a wrapped STAR, PAIR1 or BUS socket is a run of the
    raw one, so that what is proved of [XStar], [XPair1] and [XBus] holds of it.
    Every message that the raw socket took is one that the application gave to
    [SendMsg], with a hop count of zero (STAR, PAIR1) or no header (BUS); a
    message that is accepted is offered to every pipe of a BUS or STAR socket,
    and never dropped for its header.  When [SendMsg] fails the caller has its
    message back, with its body and no header, and otherwise the message is no
    longer the caller's.  What [RecvMsg] returns has no header and is the body
    of a message that a pipe brought, after a hop count that the TTL admitted
    (STAR, PAIR1). *)
Theorem cooked_refines :
  (∀ w, reachable star_step winit wany w →
     reachable XStar.step XStar.init XStar.ok (raw w) ∧
     (∀ m, m ∈ XStar.submitted (vars (raw w)) →
        ∃ m0, called w m0 ∧ m = m0 <| mhdr := no_hops |>) ∧
     (∀ t m e kept, calls w !! t = Some (SendDone m e kept) →
        kept = match e with Some _ => Some (m <| mhdr := [] |>) | None => None end) ∧
     (∀ t m, calls w !! t = Some (RecvDone (Ok m)) → mhdr m = [] ∧ star_brought (vars (raw w)) m) ∧
     (∀ m order s, XStar.closed (vars (raw w)) = false →
        XStar.ext (XStar.ESend (star_out m) order) (raw w) = Some s →
        threads s !! fresh (raw w) =
        Some (XStar.SendNext (star_out m) (XStar.targets (vars (raw w)) None order)))) ∧
  (∀ w, reachable pair1_step winit wany w →
     reachable XPair1.step XPair1.init XPair1.ok (raw w) ∧
     (∀ t p m, threads (raw w) !! t = Some (XPair1.Sending p m) →
        ∃ m0, called w m0 ∧ m = m0 <| mhdr := no_hops |>) ∧
     (∀ t m e kept, calls w !! t = Some (SendDone m e kept) →
        kept = match e with Some _ => Some (m <| mhdr := [] |>) | None => None end) ∧
     (∀ t m, calls w !! t = Some (RecvDone (Ok m)) → mhdr m = [] ∧ pair1_brought (vars (raw w)) m) ∧
     (∀ m s, XPair1.closed (vars (raw w)) = false →
        XPair1.ext (XPair1.ESend (pair1_out m)) (raw w) = Some s →
        ∃ q zq cq tq be, threads s !! fresh (raw w) =
          Some (XPair1.SendTry q zq cq (pair1_out m) tq be))) ∧
  (∀ w, reachable bus_step winit wany w →
     reachable XBus.step XBus.init XBus.ok (raw w) ∧
     (∀ t p m, threads (raw w) !! t = Some (XBus.Sending p m) →
        ∃ m0, called w m0 ∧ m = m0 <| mhdr := [] |>) ∧
     (∀ t m e kept, calls w !! t = Some (SendDone m e kept) →
        kept = match e with Some _ => Some (m <| mhdr := [] |>) | None => None end) ∧
     (∀ t m, calls w !! t = Some (RecvDone (Ok m)) → mhdr m = [] ∧ bus_brought (vars (raw w)) m) ∧
     (∀ m order s, XBus.closed (vars (raw w)) = false →
        XBus.ext (XBus.ESend (bus_out m) order) (raw w) = Some s →
        threads s !! fresh (raw w) =
        Some (XBus.SendNext (m <| mhdr := [] |>)
          (omap (λ q, XBus.p_sendQ <$> XBus.pobjs (vars (raw w)) !! q) order)))).
Proof.
  split_and!; intros w Hw.
  - apply star_promises in Hw as [Hr Hsub _ Hsent Hgot _]. split_and!; [done|exact Hsub| | |].
    + intros t m e m' Ht. rewrite (Hsent _ _ _ _ Ht). by destruct e.
    + intros t m Ht. by destruct (Hgot _ _ Ht) as (m1 & ? & ->).
    + intros m order s Hc [_ [= <-]]%guard_bind_Some. unfold XStar.SendMsg.
      change (vars (give _ (raw w))) with (vars (raw w)). rewrite Hc.
      rewrite decide_True by done. cbn. apply lookup_insert_eq.
  - apply pair1_promises in Hw as [Hr Hsub _ Hsent Hgot _].
    destruct (XPair1.reachable_xpair1 _ Hr) as [[_ _ [_ Hty _]] _]. split_and!; [done|..].
    + intros t p m Ht. destruct (Hty _ _ Ht) as [Hm _]. by apply Hsub.
    + intros t m e m' Ht. rewrite (Hsent _ _ _ _ Ht). by destruct e.
    + intros t m Ht. by destruct (Hgot _ _ Ht) as (m1 & ? & ->).
    + intros m s Hc [_ [= <-]]%guard_bind_Some. unfold XPair1.SendMsg. cbn. rewrite Hc. cbn.
      eexists _, _, _, _, _. apply lookup_insert_eq.
  - apply bus_promises in Hw as [Hr Hsub _ Hsent Hgot _].
    destruct (XBus.reachable_xbus _ Hr) as [_ _ [_ Hty Hv]]. split_and!; [done|..].
    + intros t p m Ht. destruct (Hty _ _ Ht) as (m0 & po & Hm & -> & _).
      destruct (Hsub _ Hm) as (m1 & ? & ->). exists m1. split; [done|]. by rewrite bus_out_eq.
    + intros t m e m' Ht. rewrite (Hsent _ _ _ _ Ht). destruct e; [|done]. by rewrite bus_out_eq.
    + intros t m Ht. by destruct (Hgot _ _ Ht) as (m1 & ? & ->).
    + intros m order s Hc [_ [= <-]]%guard_bind_Some. unfold XBus.SendMsg.
      change (vars (give _ (raw w))) with (vars (raw w)). rewrite Hc.
      cbn. rewrite lookup_insert_eq. do 2 f_equal; rewrite bus_out_eq; [done|]. apply bus_targets.
      intros q po Hq. destruct (XBus.vt_pipes _ Hv _ _ Hq) as (_ & _ & ?). lia.
Qed.

(** A BUS socket with two pipes, one of which gets a message to send, while
    another message arrives and is received; a STAR socket that is closed
    before a message is sent; a PAIR1 socket that waits with a message. *)
Definition bus_run : bus_socket :=
  play bus_step (λ _ _, true)
    [WStep (LExt (XBus.EAddPipe 0 7)); WStep (LExt (XBus.EAddPipe 1 9));
     WSend (mkMsg (put_uint32 7) [Byte.x61] None 0) [0; 1];
     WStep (LExt (XBus.ENext 11)); WStep (LCase 11 0 None); WStep (LExt (XBus.ENext 11));
     WStep (LCase 11 0 None); WStep (LExt (XBus.ENext 11)); WReturn 11; WStep (LCase 5 1 None);
     WStep (LExt (XBus.EPipeRecv 10 (mkMsg [] [Byte.x62] (Some 9%Z) 1)));
     WStep (LExt (XBus.ERecvLock 10)); WStep (LCase 10 0 None);
     WRecv; WStep (LExt (XBus.ERecvTop 12)); WStep (LCase 12 0 None); WReturn 12] new_bus.
Definition star_run : star_socket :=
  play star_step (λ _ _, true)
    [WStep (LExt (XStar.EAddPipe 0 7)); WStep (LExt (XStar.EAddLock 4));
     WSend (mkMsg [Byte.x00] [Byte.x61] None 0) [0]; WStep (LExt (XStar.ENext 7 0));
     WStep (LCase 7 0 None); WStep (LExt (XStar.ENext 7 0)); WReturn 7;
     WStep (LExt XStar.EClose); WSend (mkMsg [Byte.x00] [Byte.x62] None 1) [0]; WReturn 9] new_star.
Definition pair1_run : pair1_socket :=
  play pair1_step (λ _ _, true)
    [WSend (mkMsg [] [Byte.x61] None 0) tt; WStep (LCase 4 0 None); WReturn 4] new_pair1.

Lemma cooked_bodies_witness :
  let m := mkMsg (put_uint32 7) [Byte.x61] None 0 in
  cooked_RecvMsg <$> (Ok <$> pair1_receive 1 (unwire 5 (wire (pair1_out m)))) =
    Some (Ok (unwire 5 [Byte.x61])) ∧
  (b ← star_chain [1; 2]%Z (wire (star_out m));
   m' ← star_receive 3 (unwire 5 b); Some (cooked_RecvMsg (Ok m'))) = Some (Ok (unwire 5 [Byte.x61])) ∧
  (b ← star_chain [1; 1]%Z (wire (star_out m));
   m' ← star_receive 3 (unwire 5 b); Some (cooked_RecvMsg (Ok m'))) = None ∧
  XBus.targets (vars (raw bus_run)) (XBus.origin (bus_out m)) [0; 1] = [(KSend 0, 4); (KSend 1, 8)].
Proof.
  intros m. destruct (cooked_bodies m 5) as (Hp & Hs & _ & Hb & _). split_and!.
  - rewrite (Hp 1%Z) by lia. done.
  - rewrite (Hs [1; 2]%Z 3%Z); [done|]. repeat constructor.
  - rewrite (Hs [1; 1]%Z 3%Z); [done|]. repeat constructor.
  - rewrite (Hb (vars (raw bus_run)) [0; 1]); [by vm_compute|].
    assert (reachable bus_step winit wany bus_run) as Hr by by apply play_reachable.
    apply bus_promises in Hr as [Hr _ _ _ _ _].
    destruct (XBus.reachable_xbus _ Hr) as [_ _ [_ _ Hv]].
    intros q po Hq. destruct (XBus.vt_pipes _ Hv _ _ Hq) as (_ & _ & ?). lia.
Defined.

Lemma cooked_refines_witness :
  calls star_run !! 7 = Some (SendDone (mkMsg [Byte.x00] [Byte.x61] None 0) None None) ∧
  (∃ kept, calls star_run !! 9 = Some (SendDone (mkMsg [Byte.x00] [Byte.x62] None 1) (Some ErrClosed) kept) ∧
     kept = Some (mkMsg [] [Byte.x62] None 1)) ∧
  calls pair1_run !! 4 = Some (SendDone (mkMsg [] [Byte.x61] None 0) None None) ∧
  reachable XPair1.step XPair1.init XPair1.ok (raw pair1_run) ∧
  (∃ m, calls bus_run !! 12 = Some (RecvDone (Ok m)) ∧ mhdr m = [] ∧ bus_brought (vars (raw bus_run)) m) ∧
  (∃ m0, called bus_run m0 ∧ m0 <| mhdr := [] |> = mkMsg [] [Byte.x61] None 0).
Proof.
  destruct cooked_refines as (Hs & Hp & Hb).
  assert (reachable star_step winit wany star_run) as H1 by by apply play_reachable.
  assert (reachable pair1_step winit wany pair1_run) as H2 by by apply play_reachable.
  assert (reachable bus_step winit wany bus_run) as H3 by by apply play_reachable.
  split; [by vm_compute|]. split_and!.
  - eexists. split; [by vm_compute|].
    eapply (proj1 (proj2 (proj2 (Hs _ H1))) 9 (mkMsg [Byte.x00] [Byte.x62] None 1) (Some ErrClosed)).
    by vm_compute.
  - by vm_compute.
  - apply (Hp _ H2).
  - exists (mkMsg [] [Byte.x62] (Some 9%Z) 1).
    assert (calls bus_run !! 12 = Some (RecvDone (Ok (mkMsg [] [Byte.x62] (Some 9%Z) 1)))) as Hc by by vm_compute.
    split; [exact Hc|]. by eapply (proj1 (proj2 (proj2 (proj2 (Hb _ H3))))).
  - destruct (proj1 (proj2 (Hb _ H3)) 5 0 (mkMsg [] [Byte.x61] None 0)) as (m0 & ? & E); [by vm_compute|].
    by exists m0.
Defined.
