(* ===== verification/Transports.v ===== *)
(** * Transports: what transports share

    [src/transport/transport.go]: the table of the registered transports, and
    the helpers for addresses. *)
From stdpp Require Import gmap list strings fin_maps.
From Stdlib Require Import ZArith Lia.
From S2P Require Import Prelude Types.

(** Strings, for [strings.HasPrefix], [TrimPrefix] and [ContainsAny]. *)
Definition HasPrefix (s p : string) : bool := String.prefix p s.
Definition skip (n : nat) (s : string) : string := String.substring n (String.length s - n) s.
Definition TrimPrefix (s p : string) : string := if HasPrefix s p then skip (String.length p) s else s.
Fixpoint has_char (c : Ascii.ascii) (s : string) : bool :=
  match s with EmptyString => false | String d s => Ascii.eqb c d || has_char c s end.
Fixpoint ContainsAny (s chars : string) : bool :=
  match s with EmptyString => false | String c s => has_char c chars || ContainsAny s chars end.

(** [StripScheme]; callers do not use the address when there is an error. *)
Definition StripScheme (scheme addr : string) : result string :=
  let p := (scheme +:+ "://")%string in
  if HasPrefix addr p then Ok (skip (String.length p) addr) else Err ErrBadTran.

(** The argument that [ResolveTCPAddr] hands to the [net] package. *)
Definition ResolveTCPAddr_arg (addr : string) : string := TrimPrefix addr "*".

Section Registry.
Context {T : Type}.
Definition RegisterTransport (scheme : string) (t : T) (transports : gmap string T) : gmap string T :=
  <[scheme := t]> transports.
Definition GetTransport (scheme : string) (transports : gmap string T) : option T := transports !! scheme.

Lemma GetTransport_Register scheme scheme' t m :
  GetTransport scheme (RegisterTransport scheme' t m) =
  if decide (scheme' = scheme) then Some t else GetTransport scheme m.
Proof. apply lookup_insert. Qed.
End Registry.

Lemma prefix_append p s : String.prefix p (p +:+ s) = true.
Proof.
  induction p as [|c p IH]; [by destruct s|].
  change (String.prefix (String c p) (String c (p +:+ s)) = true). simpl.
  by destruct (Ascii.ascii_dec c c).
Qed.
Lemma prefix_split p s : String.prefix p s = true → s = p +:+ skip (String.length p) s.
Proof.
  revert s. induction p as [|c p IH]; intros s Hs.
  - unfold skip. cbn [String.length]. rewrite Nat.sub_0_r. clear Hs. symmetry.
    change (String.substring 0 (String.length s) s = s). induction s as [|d s IH]; [done|]. simpl. by rewrite IH.
  - destruct s as [|d s]; [done|]. simpl in Hs. destruct (Ascii.ascii_dec c d) as [<-|]; [|done].
    change (String c s = String c (p +:+ skip (String.length p) s)). by rewrite <-(IH s Hs).
Qed.
Lemma skip_append p s : skip (String.length p) (p +:+ s) = s.
Proof.
  pose proof (prefix_split p (p +:+ s) (prefix_append p s)) as H.
  revert H. generalize (skip (String.length p) (p +:+ s)). intros t.
  induction p as [|c p IH]; [done|].
  change (String c (p +:+ s) = String c (p +:+ t) → t = s). by intros [= ?%IH].
Qed.

(** [StripScheme] takes the scheme off, and nothing else has it. *)
Lemma StripScheme_spec scheme addr :
  match StripScheme scheme addr with
  | Ok rest => addr = (scheme +:+ "://") +:+ rest
  | Err e => e = ErrBadTran ∧ ∀ rest, addr ≠ (scheme +:+ "://") +:+ rest
  end.
Proof.
  unfold StripScheme, HasPrefix. destruct (String.prefix _ _) eqn:Hp; [by apply prefix_split|].
  split; [done|]. intros rest ->. by rewrite prefix_append in Hp.
Qed.
Lemma StripScheme_app scheme rest : StripScheme scheme ((scheme +:+ "://") +:+ rest) = Ok rest.
Proof. unfold StripScheme, HasPrefix. by rewrite prefix_append, skip_append. Qed.
