(* ===== verification/Inproc.v ===== *)
(** * Inproc: the transport within a process

    [src/transport/inproc/inproc.go], complete, as a program of [Chan]: the
    table of listeners, the calls of dialers, listeners and pipes.  [Dial] and
    [Accept] meet through the table; [asleep] has the calls of [Dial] that
    wait on its condition variable.  An unbuffered channel each way joins the
    two pipes.  [sent] records the messages given to [Send] on a pipe, as they
    travel. *)
From stdpp Require Import gmap list strings fin_maps.
From Stdlib Require Import ZArith Lia.
From S2P Require Import Prelude Types Chan Backtrace Transports.

Abbreviation pid := nat.
Abbreviation lid := nat.
Abbreviation did := nat.

(** The channels: the messages a pipe sends, and two that only get closed. *)
Inductive kind := KMsg (p : pid) | KClose (p : pid) | KReady (p : pid).
#[export] Instance kind_eq_dec : EqDecision kind.
Proof. solve_decision. Defined.
#[export] Instance kind_countable : Countable kind.
Proof.
  refine (inj_countable'
    (λ k, match k with KMsg p => inl p | KClose p => inr (inl p) | KReady p => inr (inr p) end)
    (λ x, match x with inl p => KMsg p | inr (inl p) => KClose p | inr (inr p) => KReady p end) _).
  by intros [].
Defined.
Abbreviation chid := (kind * nat)%type.

Record inproc := mkInproc {
  rq : option chid;
  wq : option chid;
  closeq : chid;
  readyq : chid;
  selfProto : Z;
  peerProto : Z;
  addr : string;
  peer : option pid;
  once : bool;
  sent : list msg
}.
#[export] Instance eta_inproc : Eta inproc := λ p,
  mkInproc (rq p) (wq p) (closeq p) (readyq p) (selfProto p) (peerProto p) (addr p) (peer p) (once p)
    (sent p).

Record listener := mkListener {
  l_addr : string;
  l_selfProto : Z;
  l_peerProto : Z;
  active : bool;
  l_closed : bool;
  accepters : list pid
}.
#[export] Instance eta_listener : Eta listener := λ l,
  mkListener (l_addr l) (l_selfProto l) (l_peerProto l) (active l) (l_closed l) (accepters l).

Record dialer := mkDialer { d_addr : string; d_selfProto : Z; d_peerProto : Z }.

(** The package variable [listeners], and the objects. *)
Record shared := mkShared {
  byAddr : gmap string lid;
  asleep : gset thid;
  lobjs : gmap lid listener;
  dobjs : gmap did dialer;
  pobjs : gmap pid inproc
}.
#[export] Instance eta_shared : Eta shared := λ σ,
  mkShared (byAddr σ) (asleep σ) (lobjs σ) (dobjs σ) (pobjs σ).

(** Program points; [q] in those of [Recv] is the peer, [m] in those of [Send]
    the copy that travels and [w] the channel. *)
Inductive thread :=
  | Dialing (c : pid) (dx : dialer)       (* Dial, at the top of its loop or in cv.Wait() *)
  | Connect (c q : pid)                   (* Dial, after the loop *)
  | ReadyServer (c q : pid)               (* Dial, before close(server.readyq) *)
  | ReadyClient (c : pid)                 (* Dial, before close(client.readyq) *)
  | DialRet (r : result pid)
  | AcceptWait (q : pid) (rd cl : chid)   (* Accept, its select *)
  | AcceptRet (r : result pid)
  | CloseServers (qs : list pid)          (* listener.Close, its loop *)
  | SendSel (p : pid) (m : msg) (w cl pcl : chid)
  | SendRet (p : pid) (m : msg) (w : chid) (e : error)
  | RecvSel (p q : pid) (r cl pcl : chid)
  | RecvRet (p q : pid) (r : result msg)
  | Done.

Definition sel (th : thread) : list (op kind msg) :=
  match th with
  | AcceptWait q rd cl => [ORecv rd; ORecv cl]
  | SendSel p m w cl pcl => [OSend w m; ORecv cl; ORecv pcl]
  | RecvSel p q r cl pcl => [ORecv r; ORecv cl; ORecv pcl]
  | _ => []
  end.

(** After a case; the channels of messages are never closed, so a receive from
    one brings a message. *)
Definition res (th : thread) (i : option nat) (v : option msg) : thread * list msg :=
  match th, i with
  | AcceptWait q _ _, Some 0 => (AcceptRet (Ok q), [])
  | AcceptWait q _ _, Some _ => (AcceptRet (Err ErrClosed), [])
  | SendSel p m w _ _, Some 0 => (SendRet p m w None, [])
  | SendSel p m w _ _, Some _ => (SendRet p m w (Some ErrClosed), [m])
  | RecvSel p q _ _ _, Some 0 =>
      (match v with Some m => RecvRet p q (Ok m) | None => RecvRet p q (Err ErrClosed) end, [])
  | RecvSel p q _ _ _, Some _ => (RecvRet p q (Err ErrClosed), [])
  | th, _ => (th, [])
  end.

#[export] Instance inproc_program : Program kind msg thread :=
  { select := sel; has_default := λ _, false; resume := res }.

Abbreviation state := (st kind msg shared thread).

(** ** Constructors *)

Definition Scheme : string := "inproc".

Definition NewDialer (d : did) (a : string) (i : ProtocolInfo) (s : state) : error * state :=
  match StripScheme Scheme a with
  | Err e => (Some e, s)
  | Ok _ => (None, set_vars (λ σ, σ <| dobjs ::= <[d := mkDialer a (Self i) (Peer i)]> |>) s)
  end.
Definition NewListener (l : lid) (a : string) (i : ProtocolInfo) (s : state) : error * state :=
  match StripScheme Scheme a with
  | Err e => (Some e, s)
  | Ok _ =>
      (None, set_vars (λ σ, σ <| lobjs ::= <[l := mkListener a (Self i) (Peer i) false false []]> |>) s)
  end.

(** A new [inproc] with its two channels: the start of [Dial] and [Accept]. *)
Definition new_inproc (p : pid) (self peer : Z) (a : string) (s : state) : state :=
  let '(rd, s) := make_chan (KReady p) 0 s in
  let '(cl, s) := make_chan (KClose p) 0 s in
  set_vars (λ σ, σ <| pobjs ::= <[p := mkInproc None None cl rd self peer a None false []]> |>) s.

(** ** Dial *)
Definition Broadcast (s : state) : state := set_vars (λ σ, σ <| asleep := ∅ |>) s.

Definition Dial (p : pid) (dx : dialer) (s : state) : state :=
  go (Dialing p dx) (new_inproc p (d_selfProto dx) (d_peerProto dx) (d_addr dx) s).

(** One pass of the loop. *)
Definition Dial_turn (t : thid) (c : pid) (dx : dialer) (s : state) : option state :=
  match byAddr (vars s) !! d_addr dx with
  | None => Some (set_thread t (DialRet (Err ErrConnRefused)) s)
  | Some l =>
      lx ← lobjs (vars s) !! l; cx ← pobjs (vars s) !! c;
      if decide (selfProto cx ≠ l_peerProto lx ∨ peerProto cx ≠ l_selfProto lx)
      then Some (set_thread t (DialRet (Err ErrBadProto)) s)
      else match last (accepters lx) with
      | Some q =>
          let lx' := lx <| accepters := take (length (accepters lx) - 1) (accepters lx) |> in
          Some (set_thread t (Connect c q) (set_vars (λ σ, σ <| lobjs ::= <[l := lx']> |>) s))
      | None => Some (set_vars (λ σ, σ <| asleep ::= (λ x, {[t]} ∪ x) |>) s)
      end
  end.

(** After the loop: the two channels, and the peers. *)
Definition Dial_connect (t : thid) (c q : pid) (s : state) : state :=
  let '(w, s) := make_chan (KMsg q) 0 s in
  let '(r, s) := make_chan (KMsg c) 0 s in
  set_thread t (ReadyServer c q)
    (set_vars (λ σ, σ
       <| pobjs ::= alter (λ x, x <| wq := Some w |> <| rq := Some r |> <| peer := Some c |>) q |>
       <| pobjs ::= alter (λ x, x <| rq := Some w |> <| wq := Some r |> <| peer := Some q |>) c |>) s).
Definition ready_server (t : thid) (c : pid) (qx : inproc) (s : state) : state :=
  close_chan (readyq qx) (set_thread t (ReadyClient c) s).
Definition ready_client (t : thid) (c : pid) (cx : inproc) (s : state) : state :=
  close_chan (readyq cx) (set_thread t (DialRet (Ok c)) s).

(** ** Listeners *)
Definition Listen (l : lid) (lx : listener) (s : state) : error * state :=
  if l_closed lx then (Some ErrClosed, s)
  else match byAddr (vars s) !! l_addr lx with
  | Some _ => (Some ErrAddrInUse, s)
  | None =>
      (None, Broadcast (set_vars (λ σ, σ <| lobjs ::= <[l := lx <| active := true |>]> |>
         <| byAddr ::= <[l_addr lx := l]> |>) s))
  end.

Definition Accept (l : lid) (lx : listener) (q : pid) (s : state) : state :=
  let s := new_inproc q (l_selfProto lx) (l_peerProto lx) (l_addr lx) s in
  if negb (active lx) || l_closed lx then go (AcceptRet (Err ErrClosed)) s
  else
    let s := Broadcast (set_vars (λ σ, σ
      <| lobjs ::= <[l := lx <| accepters ::= (λ x, x ++ [q]) |>]> |>) s) in
    match pobjs (vars s) !! q with
    | Some x => go (AcceptWait q (readyq x) (closeq x)) s
    | None => s
    end.

Definition listener_Close (l : lid) (lx : listener) (s : state) : state :=
  let lx' := lx <| accepters := [] |> <| l_closed := true |> in
  go (CloseServers (accepters lx))
    (Broadcast (set_vars (λ σ, σ
       <| byAddr ::= (λ m, if decide (m !! l_addr lx = Some l) then delete (l_addr lx) m else m) |>
       <| lobjs ::= <[l := lx']> |>) s)).
Definition Close_next (t : thid) (qs : list pid) (s : state) : option state :=
  match qs with
  | [] => Some (set_thread t Done s)
  | q :: qs => x ← pobjs (vars s) !! q; Some (close_chan (closeq x) (set_thread t (CloseServers qs) s))
  end.

Definition listener_SetOption (name : string) (v : value) : error := Some ErrBadOption.
Definition dialer_SetOption (name : string) (v : value) : error := Some ErrBadOption.
Definition listener_GetOption (name : string) : result value := Err ErrBadOption.
Definition dialer_GetOption (name : string) : result value := Err ErrBadOption.

(** ** Pipes *)

(** [Send], up to its [select]; [n] is the message that [NewMessage] returns.
    Without a peer the code would follow a nil pointer. *)
Definition Send (p : pid) (m : msg) (n : nat) (s : state) : state :=
  match pobjs (vars s) !! p with
  | Some x =>
      match wq x, peer x with
      | Some w, Some q =>
          match pobjs (vars s) !! q with
          | Some y =>
              let nmsg := mkMsg [] (wire m) None n in
              go (SendSel p nmsg w (closeq x) (closeq y))
                (set_vars (λ σ, σ <| pobjs ::= <[p := x <| sent ::= (λ l, l ++ [nmsg]) |>]> |>)
                   (give [nmsg] s))
          | None => s <| crashed := true |>
          end
      | _, _ => s <| crashed := true |>
      end
  | None => s <| crashed := true |>
  end.
Definition Recv (p : pid) (s : state) : state :=
  match pobjs (vars s) !! p with
  | Some x =>
      match rq x, peer x with
      | Some r, Some q =>
          match pobjs (vars s) !! q with
          | Some y => go (RecvSel p q r (closeq x) (closeq y)) s
          | None => s <| crashed := true |>
          end
      | _, _ => s <| crashed := true |>
      end
  | None => s <| crashed := true |>
  end.
Definition Close (p : pid) (s : state) : state :=
  match pobjs (vars s) !! p with
  | Some x =>
      if once x then s
      else close_chan (closeq x) (set_vars (λ σ, σ <| pobjs ::= <[p := x <| once := true |>]> |>) s)
  | None => s <| crashed := true |>
  end.
Definition GetOption (name : string) (x : inproc) : result value :=
  if String.eqb name OptionRemoteAddr then Ok (VString (addr x))
  else if String.eqb name OptionLocalAddr then Ok (VString (addr x))
  else Err ErrBadProperty.

(** ** The program *)
Inductive event :=
  | ENewDialer (d : did) (a : string) (i : ProtocolInfo)
  | ENewListener (l : lid) (a : string) (i : ProtocolInfo)
  | EDial (d : did) (p : pid)
  | EDialTurn (t : thid)
  | EConnect (t : thid)
  | EReadyServer (t : thid)
  | EReadyClient (t : thid)
  | EListen (l : lid)
  | EAccept (l : lid) (q : pid)
  | EListenerClose (l : lid)
  | ECloseNext (t : thid)
  | ESend (t : thid) (m : msg) (n : nat)
  | ERecv (t : thid)
  | EClose (t : thid).

(** The pipe that a finished [Dial] or [Accept] returned. *)
Definition returned (th : thread) : option pid :=
  match th with DialRet (Ok p) | AcceptRet (Ok p) => Some p | _ => None end.

(** New objects and messages have identities of their own; the pipe calls are
    made on pipes that [Dial] and [Accept] returned. *)
Definition ext (e : event) (s : state) : option state :=
  match e with
  | ENewDialer d a i => guard (dobjs (vars s) !! d = None);; Some (snd (NewDialer d a i s))
  | ENewListener l a i => guard (lobjs (vars s) !! l = None);; Some (snd (NewListener l a i s))
  | EDial d p =>
      dx ← dobjs (vars s) !! d; guard (pobjs (vars s) !! p = None);; Some (Dial p dx s)
  | EDialTurn t =>
      match threads s !! t with
      | Some (Dialing c dx) => guard (t ∉ asleep (vars s));; Dial_turn t c dx s
      | _ => None
      end
  | EConnect t =>
      match threads s !! t with Some (Connect c q) => Some (Dial_connect t c q s) | _ => None end
  | EReadyServer t =>
      match threads s !! t with
      | Some (ReadyServer c q) => x ← pobjs (vars s) !! q; Some (ready_server t c x s)
      | _ => None
      end
  | EReadyClient t =>
      match threads s !! t with
      | Some (ReadyClient c) => x ← pobjs (vars s) !! c; Some (ready_client t c x s)
      | _ => None
      end
  | EListen l => lx ← lobjs (vars s) !! l; Some (snd (Listen l lx s))
  | EAccept l q =>
      lx ← lobjs (vars s) !! l; guard (pobjs (vars s) !! q = None);; Some (Accept l lx q s)
  | EListenerClose l => lx ← lobjs (vars s) !! l; Some (listener_Close l lx s)
  | ECloseNext t =>
      match threads s !! t with Some (CloseServers qs) => Close_next t qs s | _ => None end
  | ESend t m n =>
      th ← threads s !! t; p ← returned th; guard (n ∉ mref <$> given s);; Some (Send p m n s)
  | ERecv t => th ← threads s !! t; p ← returned th; Some (Recv p s)
  | EClose t => th ← threads s !! t; p ← returned th; Some (Close p s)
  end.

Definition start : state := mkSt (mkShared ∅ ∅ ∅ ∅ ∅) ∅ ∅ 0 [] [] [] false.
Definition init (s : state) : Prop := s = start.
Definition step : label event → state → option state := gstep ext.
Definition ok : state → label event → Prop := gok (λ _ _, True).

(** ** Ownership *)
Definition holding (th : thread) : list msg :=
  match th with
  | SendSel _ m _ _ _ | RecvRet _ _ (Ok m) => [m]
  | _ => []
  end.

#[export] Instance inproc_owns : Owns (K := kind) (A := msg) (T := thread).
Proof.
  refine {| holds := holding |}.
  - intros th i o v y Hsel Hv.
    destruct th; cbn in Hsel; select_cases Hsel; cbn in *; subst; try (destruct v as [m'|]); owns_lia.
  - intros th y Hd. done.
Defined.

(** ** What the channels carry *)
Definition sent_by (σ : shared) (p : pid) (m : msg) : Prop := ∃ x, pobjs σ !! p = Some x ∧ m ∈ sent x.
Definition ctype (σ : shared) (c : chid) (m : msg) : Prop := ∃ p, c.1 = KMsg p ∧ sent_by σ p m.

Definition ttype (σ : shared) (t : thid) (th : thread) : Prop :=
  match th with
  | SendSel p m w _ _ => w.1 = KMsg p ∧ sent_by σ p m
  | RecvSel p q r _ _ => r.1 = KMsg q
  | RecvRet p q (Ok m) => sent_by σ q m
  | _ => True
  end.

Record ptype (p : pid) (x : inproc) : Prop := {
  pt_closeq : (closeq x).1 = KClose p;
  pt_readyq : (readyq x).1 = KReady p;
  pt_wq w : wq x = Some w → w.1 = KMsg p;
  pt_rq r q : rq x = Some r → peer x = Some q → r.1 = KMsg q
}.
Definition vtype (σ : shared) : Prop := map_Forall ptype (pobjs σ).

#[export] Instance inproc_typed : Typed (K := kind) (A := msg) (S := shared) (T := thread).
Proof.
  refine {| vars_type := vtype; chan_type := ctype; thread_type := ttype |}.
  - intros σ t th i o v Hsel Hth Hv. unfold ctype in *.
    destruct th; cbn in Hsel; select_cases Hsel; cbn in Hth;
      try (destruct v as [m'|]); cbn; try naive_solver.
    destruct Hv as (q' & Hc & Hm). rewrite Hth in Hc. by simplify_eq.
  - intros σ t th Hd. done.
Defined.

(** The variables change: pipes stay, with what they sent. *)
Definition vle (σ σ' : shared) : Prop :=
  ∀ p x, pobjs σ !! p = Some x → ∃ x', pobjs σ' !! p = Some x' ∧ sent x `prefix_of` sent x'.
Lemma inproc_vle_same σ σ' : pobjs σ' = pobjs σ → vle σ σ'.
Proof. intros E p x. rewrite E. eauto. Qed.
Lemma sent_by_mono σ σ' p m : vle σ σ' → sent_by σ p m → sent_by σ' p m.
Proof.
  intros Hle (x & Hx & Hm). destruct (Hle _ _ Hx) as (x' & ? & [l Hl]). exists x'.
  split; [done|]. rewrite Hl. set_solver.
Qed.
Lemma inproc_okstep_vars f s :
  vle (vars s) (f (vars s)) → (vtype (vars s) → vtype (f (vars s))) → okstep s (set_vars f s).
Proof.
  intros Hle Hv. assert (∀ p m, sent_by (vars s) p m → sent_by (f (vars s)) p m) as H1 by by eauto using sent_by_mono.
  apply okstep_vars; [done|unfold chan_type; simpl; unfold ctype; naive_solver|].
  intros t th _ _ Hth. destruct th as [| | | | | | | | | | |p q []|]; try done; simpl in *; naive_solver.
Qed.
(** Changes that leave the pipes alone, and of one pipe. *)
Lemma inproc_okstep_frame f s : (pobjs (f (vars s)) = pobjs (vars s)) → okstep s (set_vars f s).
Proof.
  intros E. apply inproc_okstep_vars; [by apply inproc_vle_same|]. unfold vtype. by rewrite E.
Qed.
Lemma inproc_okstep_put p x s :
  (∀ x0, pobjs (vars s) !! p = Some x0 → sent x0 `prefix_of` sent x) → (typed s → ptype p x) →
  okstep s (set_vars (λ σ, σ <| pobjs ::= <[p := x]> |>) s).
Proof.
  intros Hs Hp. split.
  - by apply advance_same.
  - done.
  - intros Hty. specialize (Hp Hty). revert Hty. apply inproc_okstep_vars.
    + intros q y Hq. simpl. rewrite lookup_insert. case_decide; [|by eauto]. subst. eauto.
    + intros Hv. by apply map_Forall_insert_2.
Qed.

(** ** The critical sections keep everything *)
Lemma okstep_new_inproc p self peer a s :
  wf s → pobjs (vars s) !! p = None →
  okstep s (new_inproc p self peer a s) ∧ wf (new_inproc p self peer a s).
Proof.
  intros Hwf Hp. unfold new_inproc. destruct (make_chan (KReady p) 0 s) as [rd s1] eqn:E1.
  destruct (okstep_make_chan _ _ _ _ _ Hwf E1) as (Hok1 & Hwf1 & Hrd & Hv1 & Ht1).
  destruct (make_chan (KClose p) 0 s1) as [cl s2] eqn:E2.
  destruct (okstep_make_chan _ _ _ _ _ Hwf1 E2) as (Hok2 & Hwf2 & Hcl & Hv2 & Ht2).
  split; [|by apply wf_vars]. etrans; [exact Hok1|]. etrans; [exact Hok2|].
  apply inproc_okstep_put; [rewrite Hv2, Hv1; congruence|]. intros _. by split; subst.
Qed.

Lemma okstep_Dial_turn t c dx s s' :
  threads s !! t = Some (Dialing c dx) → Dial_turn t c dx s = Some s' → okstep s s'.
Proof.
  intros Ht. unfold Dial_turn. destruct (byAddr _ !! _) as [l|]; [|intros [= <-]; by eapply okstep_stop].
  intros Hs. apply bind_Some in Hs as (lx & _ & Hs). apply bind_Some in Hs as (cx & _ & Hs).
  case_decide; [simplify_eq; by eapply okstep_stop|].
  destruct (last (accepters lx)) as [q|]; simplify_eq.
  - etrans; [|eapply okstep_stop; [exact Ht|done..]]. by apply inproc_okstep_frame.
  - by apply inproc_okstep_frame.
Qed.

Lemma okstep_Dial_connect t c q s :
  wf s → threads s !! t = Some (Connect c q) → okstep s (Dial_connect t c q s).
Proof.
  intros Hwf Ht. unfold Dial_connect. destruct (make_chan (KMsg q) 0 s) as [w s1] eqn:E1.
  destruct (okstep_make_chan _ _ _ _ _ Hwf E1) as (Hok1 & Hwf1 & Hw & Hv1 & Ht1).
  destruct (make_chan (KMsg c) 0 s1) as [r s2] eqn:E2.
  destruct (okstep_make_chan _ _ _ _ _ Hwf1 E2) as (Hok2 & Hwf2 & Hr & Hv2 & Ht2).
  etrans; [exact Hok1|]. etrans; [exact Hok2|].
  etrans; [|eapply okstep_stop; [simpl; rewrite Ht2, Ht1; exact Ht|done..]].
  apply inproc_okstep_vars.
  - intros p x Hp. simpl. rewrite !lookup_alter.
    repeat case_decide; subst; rewrite Hp; simpl; eauto.
  - intros Hv p y. simpl. rewrite !lookup_alter.
    repeat case_decide; subst; (destruct (pobjs (vars s2) !! _) as [x|] eqn:Hx; simpl; [|done]);
      intros Hy; apply (inj Some) in Hy; subst y; destruct (Hv _ _ Hx) as [P1 P2 P3 P4]; split; simpl;
      try done; try (intros ? Ha; by simplify_eq); try (intros ?? Ha Hb; by simplify_eq).
Qed.

Lemma inproc_okstep_Listen l lx s : okstep s (snd (Listen l lx s)).
Proof.
  unfold Listen. destruct (l_closed lx); [done|]. destruct (_ !! _); [done|].
  etrans; [|by apply inproc_okstep_frame]. by apply inproc_okstep_frame.
Qed.
Lemma okstep_Accept l lx q s :
  wf s → pobjs (vars s) !! q = None → okstep s (Accept l lx q s).
Proof.
  intros Hwf Hq. unfold Accept.
  destruct (okstep_new_inproc q (l_selfProto lx) (l_peerProto lx) (l_addr lx) s Hwf Hq) as [Hok Hwf1].
  destruct (_ || _).
  { etrans; [exact Hok|]. by apply okstep_go. }
  etrans; [exact Hok|]. set (s1 := new_inproc _ _ _ _ _) in *.
  set (f := λ σ : shared, σ <| lobjs ::= <[l:=lx <| accepters ::= λ x, x ++ [q] |> ]> |>).
  assert (okstep s1 (Broadcast (set_vars f s1))) as Hb
    by (etrans; [|by apply inproc_okstep_frame]; by apply inproc_okstep_frame).
  case_match; [|exact Hb]. etrans; [exact Hb|]. apply okstep_go; [by apply Hb|done..].
Qed.
Lemma inproc_okstep_listener_Close l lx s : wf s → okstep s (listener_Close l lx s).
Proof.
  intros Hwf. unfold listener_Close, Broadcast. set (f := λ σ : shared, _ <| lobjs ::= _ |>).
  assert (okstep s (set_vars (λ σ, σ <| asleep := ∅ |>) (set_vars f s))) as Hb
    by (etrans; [|by apply inproc_okstep_frame]; by apply inproc_okstep_frame).
  etrans; [exact Hb|]. apply okstep_go; [by apply Hb|done..].
Qed.

Lemma inproc_okstep_Send p m n s : wf s → okstep s (Send p m n s).
Proof.
  intros Hwf. unfold Send. destruct (pobjs _ !! p) as [x|] eqn:Hp; [|apply okstep_crash].
  destruct (wq x) as [w|] eqn:Hw; [|apply okstep_crash].
  destruct (peer x) as [q|]; [|apply okstep_crash]. destruct (pobjs _ !! q) as [y|]; [|apply okstep_crash].
  set (nm := mkMsg [] (wire m) None n). set (x' := x <| sent ::= _ |>).
  change (set_vars ?f (give [nm] s)) with (give [nm] (set_vars f s)).
  assert (okstep s (set_vars (λ σ, σ <| pobjs ::= <[p := x']> |>) s)) as Hok.
  { apply inproc_okstep_put.
    - intros x0 Hx0. rewrite Hp in Hx0. simplify_eq/=. by apply prefix_app_r.
    - intros Hty. by destruct (ty_vars _ Hty _ _ Hp). }
  etrans; [exact Hok|]. eapply (okstep_spawn _ [nm]); [by apply Hok|accounting|].
  intros Hty. split.
  - apply (pt_wq p x'); [|done]. apply (ty_vars _ Hty p). apply lookup_insert_eq.
  - exists x'. split; [apply lookup_insert_eq|]. simpl. set_solver.
Qed.
Lemma okstep_Recv p s : wf s → okstep s (Recv p s).
Proof.
  intros Hwf. unfold Recv. destruct (pobjs _ !! p) as [x|] eqn:Hp; [|apply okstep_crash].
  destruct (rq x) as [r|] eqn:Hr; [|apply okstep_crash].
  destruct (peer x) as [q|] eqn:Hq; [|apply okstep_crash].
  destruct (pobjs _ !! q) as [y|]; [|apply okstep_crash].
  apply okstep_go; [done..|]. intros Hty. by eapply pt_rq; [apply (ty_vars _ Hty _ _ Hp)|..].
Qed.
Lemma okstep_Close p s : okstep s (Close p s).
Proof.
  unfold Close. destruct (pobjs _ !! p) as [x|] eqn:Hp; [|apply okstep_crash].
  destruct (once x); [done|]. etrans; [|apply okstep_close_chan]. apply inproc_okstep_put.
  - intros x0 Hx0. rewrite Hp in Hx0. by simplify_eq.
  - intros Hty. by destruct (ty_vars _ Hty _ _ Hp).
Qed.

#[export] Instance inproc_ok : ExtOk ext.
Proof.
  intros e s s' Hwf Hty. destruct e; cbn [ext];
    try match goal with
    | |- context [match threads s !! ?t with _ => _ end] =>
        destruct (threads s !! t) as [[]|] eqn:Ht; try done; pose proof (ty_thread _ Hty _ _ Ht) as Hth
    end.
  - intros [_ [= <-]]%guard_bind_Some. unfold NewDialer. case_match; [|done]. by apply inproc_okstep_frame.
  - intros [_ [= <-]]%guard_bind_Some. unfold NewListener. case_match; [|done]. by apply inproc_okstep_frame.
  - intros Hs. apply bind_Some in Hs as (dx & _ & [Hp [= <-]]%guard_bind_Some).
    destruct (okstep_new_inproc p (d_selfProto dx) (d_peerProto dx) (d_addr dx) s Hwf Hp) as [Hok Hwf1].
    etrans; [exact Hok|]. by apply okstep_go.
  - intros [_ Hs]%guard_bind_Some. by eapply okstep_Dial_turn.
  - intros [= <-]. by apply okstep_Dial_connect.
  - intros Hs. apply bind_Some in Hs as (x & _ & [= <-]).
    etrans; [|apply okstep_close_chan]. by eapply okstep_stop.
  - intros Hs. apply bind_Some in Hs as (x & _ & [= <-]).
    etrans; [|apply okstep_close_chan]. by eapply okstep_stop.
  - intros Hs. apply bind_Some in Hs as (lx & _ & [= <-]). apply inproc_okstep_Listen.
  - intros Hs. apply bind_Some in Hs as (lx & _ & [Hq [= <-]]%guard_bind_Some). by apply okstep_Accept.
  - intros Hs. apply bind_Some in Hs as (lx & _ & [= <-]). by apply inproc_okstep_listener_Close.
  - unfold Close_next. destruct qs as [|q qs]; [intros [= <-]; by eapply okstep_stop|].
    intros Hs. apply bind_Some in Hs as (x & _ & [= <-]).
    etrans; [|apply okstep_close_chan]. by eapply okstep_stop.
  - intros Hs. apply bind_Some in Hs as (th & _ & Hs). apply bind_Some in Hs as (p & _ & [_ [= <-]]%guard_bind_Some).
    by apply inproc_okstep_Send.
  - intros Hs. apply bind_Some in Hs as (th & _ & Hs). apply bind_Some in Hs as (p & _ & [= <-]).
    by apply okstep_Recv.
  - intros Hs. apply bind_Some in Hs as (th & _ & Hs). apply bind_Some in Hs as (p & _ & [= <-]).
    apply okstep_Close.
Qed.

(** ** References come in once *)
Lemma inproc_ext_given e s s' :
  ext e s = Some s' →
  given s' = given s ∨ ∃ m, given s' = given s ++ [m] ∧ mref m ∉ mref <$> given s.
Proof.
  destruct e; cbn [ext];
    try match goal with
    | |- context [match threads s !! ?t with _ => _ end] => destruct (threads s !! t) as [[]|]; try done
    end.
  - intros [_ [= <-]]%guard_bind_Some. left. unfold NewDialer. by case_match.
  - intros [_ [= <-]]%guard_bind_Some. left. unfold NewListener. by case_match.
  - intros Hs. apply bind_Some in Hs as (dx & _ & [_ [= <-]]%guard_bind_Some). by left.
  - intros [_ Hs]%guard_bind_Some. left. revert Hs. unfold Dial_turn. case_match; [|by intros [= <-]].
    intros Hs. apply bind_Some in Hs as (lx & _ & Hs). apply bind_Some in Hs as (cx & _ & Hs).
    case_decide; [by simplify_eq|]. case_match; by simplify_eq.
  - intros [= <-]. by left.
  - intros Hs. apply bind_Some in Hs as (x & _ & [= <-]). left. etrans; [apply given_close_chan|done].
  - intros Hs. apply bind_Some in Hs as (x & _ & [= <-]). left. etrans; [apply given_close_chan|done].
  - intros Hs. apply bind_Some in Hs as (lx & _ & [= <-]). left. unfold Listen. repeat case_match; done.
  - intros Hs. apply bind_Some in Hs as (lx & _ & [_ [= <-]]%guard_bind_Some). left.
    unfold Accept. repeat case_match; done.
  - intros Hs. apply bind_Some in Hs as (lx & _ & [= <-]). by left.
  - unfold Close_next. destruct qs as [|q qs]; [intros [= <-]; by left|].
    intros Hs. apply bind_Some in Hs as (x & _ & [= <-]). left. etrans; [apply given_close_chan|done].
  - intros Hs. apply bind_Some in Hs as (th & _ & Hs). apply bind_Some in Hs as (p & _ & [Hn [= <-]]%guard_bind_Some).
    unfold Send. repeat case_match; try (by left). right. by exists (mkMsg [] (wire m) None n).
  - intros Hs. apply bind_Some in Hs as (th & _ & Hs). apply bind_Some in Hs as (p & _ & [= <-]).
    left. unfold Recv. repeat case_match; done.
  - intros Hs. apply bind_Some in Hs as (th & _ & Hs). apply bind_Some in Hs as (p & _ & [= <-]).
    left. unfold Close. repeat case_match; rewrite ?given_close_chan; done.
Qed.
Lemma inproc_ext_refs_unique e s s' : ext e s = Some s' → refs_unique s → refs_unique s'.
Proof.
  intros [E|(m & E & Hm)]%inproc_ext_given.
  - unfold refs_unique. by rewrite E.
  - by apply (refs_unique_give m).
Qed.
Lemma inproc_init_good s : init s → good s ∧ refs_unique s.
Proof. intros ->. split; [|by apply NoDup_nil_2]. unfold start. start_good. apply map_Forall_empty. Qed.
Lemma reachable_inproc P s : reachable step init (gok P) s → good s ∧ refs_unique s.
Proof. apply reachable_good_unique; [apply _|apply inproc_init_good|apply inproc_ext_refs_unique]. Qed.
