(* ===== verification/InprocInv.v ===== *)
(** * InprocInv: what the transport within a process guarantees

    [src/transport/inproc/inproc.go]: a pipe that is not returned yet has one
    holder ([waiting]); links are symmetric, and channels are closed once
    ([link]); messages are delivered in order; and nobody waits in vain. *)
From stdpp Require Import gmap list strings fin_maps.
From Stdlib Require Import ZArith Lia.
From S2P Require Import Prelude Types Chan Backtrace Transports Inproc.

(** ** Who holds a pipe before it is returned *)

(** A pipe that nobody may use yet: in [accepters], in the hands of a [Dial],
    or on the list of a [Close]. *)
Definition handles (th : thread) : list pid :=
  match th with
  | Dialing c _ | ReadyClient c => [c]
  | Connect c q | ReadyServer c q => [c; q]
  | CloseServers qs => qs
  | _ => []
  end.
Definition waiting (p : pid) (s : state) : nat :=
  map_sum (λ lx, occ p (accepters lx)) (lobjs (vars s)) + map_sum (λ th, occ p (handles th)) (threads s).

Lemma waiting_set_thread p t th th' s :
  threads s !! t = Some th →
  waiting p (set_thread t th' s) + occ p (handles th) = waiting p s + occ p (handles th').
Proof.
  intros Ht. unfold waiting. simpl.
  pose proof (map_sum_insert (λ th, occ p (handles th)) (threads s) t th th' Ht). simpl in *. lia.
Qed.
Lemma waiting_go p th s : wf s → waiting p (go th s) = waiting p s + occ p (handles th).
Proof.
  intros Hwf. unfold waiting. simpl. rewrite map_sum_insert_new; [lia|].
  apply eq_None_not_Some. intros Hs%(wf_fresh_t s Hwf). lia.
Qed.
Lemma waiting_lobjs p l lx lx' s :
  lobjs (vars s) !! l = Some lx →
  waiting p (set_vars (λ σ, σ <| lobjs ::= <[l := lx']> |>) s) + occ p (accepters lx) =
  waiting p s + occ p (accepters lx').
Proof.
  intros Hl. unfold waiting. simpl.
  pose proof (map_sum_insert (λ lx, occ p (accepters lx)) (lobjs (vars s)) l lx lx' Hl). simpl in *. lia.
Qed.
Lemma waiting_same p s s' :
  lobjs (vars s') = lobjs (vars s) → threads s' = threads s → waiting p s' = waiting p s.
Proof. unfold waiting. by intros -> ->. Qed.
Lemma waiting_holds p t th s : threads s !! t = Some th → occ p (handles th) ≤ waiting p s.
Proof.
  intros Ht. unfold waiting. pose proof (map_sum_ge (λ th, occ p (handles th)) _ _ _ Ht). simpl in *. lia.
Qed.
Lemma waiting_accepts p l lx s : lobjs (vars s) !! l = Some lx → occ p (accepters lx) ≤ waiting p s.
Proof.
  intros Hl. unfold waiting. pose proof (map_sum_ge (λ lx, occ p (accepters lx)) _ _ _ Hl). simpl in *. lia.
Qed.
(** Two holders are one too many. *)
Lemma waiting_two p t1 th1 t2 th2 s :
  threads s !! t1 = Some th1 → threads s !! t2 = Some th2 → p ∈ handles th1 → p ∈ handles th2 →
  waiting p s ≤ 1 → t1 = t2.
Proof.
  intros H1 H2 Hp1%occ_elem_of Hp2%occ_elem_of Hw. destruct (decide (t1 = t2)) as [|Hne]; [done|exfalso].
  unfold waiting in Hw. rewrite (map_sum_delete _ _ _ _ H1) in Hw.
  pose proof (map_sum_ge (λ th, occ p (handles th)) (delete t1 (threads s)) t2 th2) as Hd.
  rewrite lookup_delete_ne in Hd by done. specialize (Hd H2). simpl in *. lia.
Qed.
Lemma waiting_both p t th l lx s :
  threads s !! t = Some th → lobjs (vars s) !! l = Some lx → p ∈ handles th → p ∈ accepters lx →
  waiting p s ≤ 1 → False.
Proof.
  intros H1 H2 Hp1%occ_elem_of Hp2%occ_elem_of. unfold waiting.
  pose proof (map_sum_ge (λ th, occ p (handles th)) _ _ _ H1).
  pose proof (map_sum_ge (λ lx, occ p (accepters lx)) _ _ _ H2). simpl in *. lia.
Qed.

(** ** The invariant of the table and the links *)

(** The two ends of a link. *)
Definition joined (p q : pid) (x y : inproc) : Prop :=
  p ≠ q ∧ peer x = Some q ∧ peer y = Some p ∧ is_Some (rq x) ∧ is_Some (wq x) ∧
  rq x = wq y ∧ wq x = rq y ∧ addr x = addr y ∧
  selfProto x = peerProto y ∧ peerProto x = selfProto y.

(** The ends of a link stay as they are made. *)
Definition ends (x : inproc) : inproc := x <| once := false |> <| sent := [] |>.
Lemma joined_ends p q x y x' y' :
  ends x' = ends x → ends y' = ends y → joined p q x y → joined p q x' y'.
Proof. destruct x, y, x', y'. unfold ends, joined. cbn. intros [= -> -> -> -> -> -> -> ->] [= -> -> -> -> -> -> -> ->]. done. Qed.

(** Nobody has used this pipe. *)
Definition unused (s : state) (x : inproc) : Prop :=
  shut s (readyq x) = false ∧ shut s (closeq x) = false ∧ once x = false.

Record pipe_ok (s : state) (p : pid) (x : inproc) : Prop := {
  pk_chans : is_Some (chans s !! closeq x) ∧ is_Some (chans s !! readyq x);
  pk_held : 0 < waiting p s → unused s x;
  pk_closed : is_Some (peer x) → waiting p s = 0 → shut s (closeq x) = once x;
  pk_ready : shut s (readyq x) = true → is_Some (peer x);
  pk_peer q : peer x = Some q → ∃ y, pobjs (vars s) !! q = Some y ∧ joined p q x y;
  pk_alone : peer x = None → once x = false ∧ sent x = []
}.

Definition has_pipe (s : state) (p : pid) (P : inproc → Prop) : Prop :=
  ∃ x, pobjs (vars s) !! p = Some x ∧ P x.
Definition thread_ok (s : state) (th : thread) : Prop :=
  match th with
  | Dialing c dx => has_pipe s c (λ x, peer x = None ∧ selfProto x = d_selfProto dx ∧
      peerProto x = d_peerProto dx ∧ addr x = d_addr dx)
  | Connect c q => c ≠ q ∧ has_pipe s c (λ x, peer x = None ∧ has_pipe s q (λ y, peer y = None ∧
      addr x = addr y ∧ selfProto x = peerProto y ∧ peerProto x = selfProto y))
  | ReadyServer c q => c ≠ q ∧ has_pipe s c (λ x, is_Some (peer x)) ∧ has_pipe s q (λ y, is_Some (peer y))
  | ReadyClient c => has_pipe s c (λ x, is_Some (peer x))
  | DialRet (Ok p) | AcceptRet (Ok p) => waiting p s = 0 ∧ has_pipe s p (λ x, is_Some (peer x))
  | AcceptWait q rd cl => has_pipe s q (λ x, rd = readyq x ∧ cl = closeq x)
  | CloseServers qs => ∀ q, q ∈ qs → has_pipe s q (λ x, peer x = None)
  | SendSel p m w cl pcl => waiting p s = 0 ∧ has_pipe s p (λ x, wq x = Some w ∧ cl = closeq x ∧
      ∃ q, peer x = Some q ∧ has_pipe s q (λ y, pcl = closeq y))
  | RecvSel p q r cl pcl => waiting p s = 0 ∧ has_pipe s p (λ x, rq x = Some r ∧ cl = closeq x ∧
      peer x = Some q ∧ has_pipe s q (λ y, pcl = closeq y))
  | SendRet p m w _ => has_pipe s p (λ x, wq x = Some w ∧ is_Some (peer x))
  | RecvRet p q _ => has_pipe s p (λ x, peer x = Some q)
  | _ => True
  end.

(** The table: who listens, and who waits. *)
Record table (σ : shared) (ths : gmap thid thread) : Prop := {
  tb_reg a l : byAddr σ !! a = Some l →
    ∃ lx, lobjs σ !! l = Some lx ∧ l_addr lx = a ∧ active lx = true ∧ l_closed lx = false;
  tb_open l lx : lobjs σ !! l = Some lx → active lx = true → l_closed lx = false →
    byAddr σ !! l_addr lx = Some l;
  tb_idle l lx : lobjs σ !! l = Some lx → accepters lx ≠ [] → active lx = true ∧ l_closed lx = false;
  tb_accepters l lx q : lobjs σ !! l = Some lx → q ∈ accepters lx →
    ∃ x, pobjs σ !! q = Some x ∧ peer x = None ∧ selfProto x = l_selfProto lx ∧
      peerProto x = l_peerProto lx ∧ addr x = l_addr lx;
  tb_asleep t : t ∈ asleep σ → ∃ c dx l lx,
    ths !! t = Some (Dialing c dx) ∧ byAddr σ !! d_addr dx = Some l ∧ lobjs σ !! l = Some lx ∧
    accepters lx = [] ∧ d_selfProto dx = l_peerProto lx ∧ d_peerProto dx = l_selfProto lx
}.

Record link (s : state) : Prop := {
  lk_run : crashed s = false;
  lk_once p : waiting p s ≤ 1;
  lk_known p : 0 < waiting p s → is_Some (pobjs (vars s) !! p);
  lk_pipe p x : pobjs (vars s) !! p = Some x → pipe_ok s p x;
  lk_thread t th : threads s !! t = Some th → thread_ok s th;
  lk_msgs c p : shut s c = true → c.1 ≠ KMsg p;
  lk_table : table (vars s) (threads s)
}.

(** What the conditions of a thread depend on: a pipe may only get its peer
    while no other thread holds it. *)
Lemma thread_ok_mono s s' th :
  (∀ p x, pobjs (vars s) !! p = Some x →
    ∃ x', pobjs (vars s') !! p = Some x' ∧ closeq x' = closeq x ∧ readyq x' = readyq x ∧
      (ends x' = ends x ∨ peer x = None ∧ p ∉ handles th) ∧
      (is_Some (peer x) → waiting p s = 0 → waiting p s' = 0)) →
  thread_ok s th → thread_ok s' th.
Proof.
  intros Hle.
  assert (∀ p (P Q : inproc → Prop),
    (∀ x x', closeq x' = closeq x → readyq x' = readyq x → P x → Q x') →
    has_pipe s p P → has_pipe s' p Q) as Hqueues.
  { intros p P Q HPQ (x & Hx & HP). destruct (Hle _ _ Hx) as (x' & ? & ? & ? & _). exists x'. eauto. }
  assert (∀ p (P Q : inproc → Prop), (∀ x x', ends x' = ends x → P x → Q x') →
    (p ∈ handles th ∨ ∀ x, P x → is_Some (peer x)) → has_pipe s p P → has_pipe s' p Q) as Hhas.
  { intros p P Q HPQ Hp (x & Hx & HP). destruct (Hle _ _ Hx) as (x' & ? & _ & _ & [?|[Hn Hh]] & _).
    - exists x'. eauto.
    - destruct Hp as [?|Hp]; [done|]. destruct (Hp _ HP). congruence. }
  assert (∀ p P, has_pipe s p P → (∀ x, P x → is_Some (peer x)) → waiting p s = 0 → waiting p s' = 0) as Hw.
  { intros p P (x & Hx & HP) Hp. destruct (Hle _ _ Hx) as (? & _ & _ & _ & _ & Hw). eauto. }
  assert (∀ x x', ends x' = ends x → peer x' = peer x ∧ selfProto x' = selfProto x ∧
    peerProto x' = peerProto x ∧ addr x' = addr x ∧ rq x' = rq x ∧ wq x' = wq x ∧
    closeq x' = closeq x) as He.
  { intros [] []. unfold ends. cbn. by intros [= -> -> -> -> -> -> -> ->]. }
  destruct th as [c dx|c q|c q|c|[p|]|q rd cl|[p|]|qs|p m w cl pcl|p m w e|p q r cl pcl|p q r|]; cbn; try done.
  - apply Hhas; [|left; set_solver]. intros x x' E%He. destruct E as (-> & -> & -> & -> & _). done.
  - intros [Hne H]. split; [done|]. revert H. apply Hhas; [|left; set_solver]. intros x x' E%He.
    destruct E as (-> & -> & -> & -> & _). intros [? H]. split; [done|]. revert H.
    apply Hhas; [|left; set_solver]. intros y y' E%He. destruct E as (-> & -> & -> & -> & _). done.
  - intros (Hne & H1 & H2). split; [done|]. split; [revert H1|revert H2]; apply Hhas; try (right; done);
      intros x x' E%He; by destruct E as (-> & _).
  - apply Hhas; [|by right]. intros x x' E%He. by destruct E as (-> & _).
  - intros [H1 H2]. split; [by eapply Hw|]. revert H2. apply Hhas; [|by right].
    intros x x' E%He. by destruct E as (-> & _).
  - apply Hqueues. by intros x x' -> ->.
  - intros [H1 H2]. split; [by eapply Hw|]. revert H2. apply Hhas; [|by right].
    intros x x' E%He. by destruct E as (-> & _).
  - intros H q Hq. specialize (H q Hq). revert H. apply Hhas; [|by left].
    intros x x' E%He. by destruct E as (-> & _).
  - intros [H1 H2]. split; [eapply Hw; [done| |done]; cbn; naive_solver|]. revert H2.
    apply Hhas; [|right; naive_solver].
    intros x x' E%He. destruct E as (-> & _ & _ & _ & _ & -> & ->). intros (? & ? & q & ? & H).
    split_and!; [done..|]. exists q. split; [done|]. revert H. apply Hqueues. by intros y y' ->.
  - apply Hhas; [|right; naive_solver]. intros x x' E%He. by destruct E as (-> & _ & _ & _ & _ & -> & _).
  - intros [H1 H2]. split; [eapply Hw; [done| |done]; cbn; naive_solver|]. revert H2.
    apply Hhas; [|right; naive_solver].
    intros x x' E%He. destruct E as (-> & _ & _ & _ & -> & _ & ->). intros (? & ? & ? & H).
    split_and!; [done..|]. revert H. apply Hqueues. by intros y y' ->.
  - apply Hhas; [|right; naive_solver]. intros x x' E%He. by destruct E as (-> & _).
Qed.
(** When no pipe gets a peer. *)
Lemma thread_ok_ends s s' th :
  (∀ p x, pobjs (vars s) !! p = Some x →
    ∃ x', pobjs (vars s') !! p = Some x' ∧ ends x' = ends x ∧
      (is_Some (peer x) → waiting p s = 0 → waiting p s' = 0)) →
  thread_ok s th → thread_ok s' th.
Proof.
  intros Hle. apply thread_ok_mono. intros p x Hx. destruct (Hle _ _ Hx) as (x' & ? & E & ?).
  exists x'. assert (closeq x' = closeq x ∧ readyq x' = readyq x) as [??]; [|by split_and!; auto].
  destruct x, x'. revert E. unfold ends. cbn. by intros [= -> -> -> -> -> -> -> ->].
Qed.

(** Steps that leave pipes and channels alone. *)
Lemma link_move s s' :
  link s → chans s' = chans s → crashed s' = crashed s → pobjs (vars s') = pobjs (vars s) →
  table (vars s') (threads s') →
  (∀ p, waiting p s' ≤ waiting p s ∨
        (waiting p s' = 1 ∧ has_pipe s p (λ x, peer x = None ∧ unused s x))) →
  (∀ t th, threads s' !! t = Some th → threads s !! t = Some th ∨ thread_ok s' th) → link s'.
Proof.
  intros [Hr Ho Hk Hp Ht Hm Htb] Hc Hcr Hv Htb' Hw Hths.
  assert (∀ c, shut s' c = shut s c) as Hsh by (intros c; unfold shut; by rewrite Hc).
  assert (∀ x, unused s x → unused s' x) as Hun by (intros x; unfold unused; by rewrite !Hsh).
  split.
  - by rewrite Hcr.
  - intros p. destruct (Hw p) as [H|[H _]]; [|lia]. specialize (Ho p). lia.
  - intros p H. rewrite Hv. destruct (Hw p) as [H'|(_ & x & Hx & _)]; [|by eauto]. apply Hk. lia.
  - intros p x. rewrite Hv. intros Hx. destruct (Hp _ _ Hx) as [P1 P2 P3 P4 P5 P6].
    split; rewrite ?Hc, ?Hsh, ?Hv; try done.
    + intros H. apply Hun. destruct (Hw p) as [H'|(_ & x' & Hx' & _ & Hu)]; [apply P2; lia|by simplify_eq].
    + intros Hpeer H. destruct (decide (waiting p s = 0)) as [|Hn]; [auto|].
      destruct (P2 ltac:(lia)) as (_ & -> & ->). done.
  - intros t th Hth. destruct (Hths _ _ Hth) as [H|H]; [|done]. eapply thread_ok_ends; [|by eapply Ht].
    intros p x Hx. rewrite Hv. exists x. split_and!; [done..|]. intros [q Hq] H0.
    destruct (Hw p) as [H'|(_ & x' & Hx' & Hn & _)]; [lia|]. exfalso. congruence.
  - intros c p. rewrite Hsh. apply Hm.
  - done.
Qed.

Lemma waiting_close_chan p c s : waiting p (close_chan c s) = waiting p s.
Proof. apply waiting_same; [by rewrite vars_close_chan|apply threads_close_chan]. Qed.

Lemma link_close_chan c s :
  link s → is_Some (chans s !! c) → shut s c = false → (∀ p, c.1 ≠ KMsg p) →
  (∀ p x, pobjs (vars s) !! p = Some x → closeq x = c → peer x = None ∧ waiting p s = 0) →
  (∀ p x, pobjs (vars s) !! p = Some x → readyq x = c → is_Some (peer x) ∧ waiting p s = 0) →
  link (close_chan c s).
Proof.
  intros [Hr Ho Hk Hp Ht Hm Htb] Hc Hsc Hkind Hcl Hrd.
  split; rewrite ?vars_close_chan, ?threads_close_chan.
  - by rewrite crashed_close_chan.
  - intros p. rewrite waiting_close_chan. apply Ho.
  - intros p. rewrite waiting_close_chan. apply Hk.
  - intros p x Hx. destruct (Hp _ _ Hx) as [[P0 P1] P2 P3 P4 P5 P6].
    split; rewrite ?vars_close_chan, ?waiting_close_chan; try done.
    + split; by apply chans_close_chan.
    + intros H. destruct (P2 H) as (U1 & U2 & U3). unfold unused. rewrite !shut_close_chan_at by done.
      repeat case_decide; try done; [specialize (Hrd _ _ Hx)|specialize (Hrd _ _ Hx)|specialize (Hcl _ _ Hx)];
        naive_solver lia.
    + intros H1 H2. rewrite shut_close_chan_at by done. case_decide; [|by apply P3].
      destruct (Hcl _ _ Hx ltac:(done)) as [Hn _]. rewrite Hn in H1. by destruct H1.
    + rewrite shut_close_chan_at by done. case_decide; [|done]. intros _. by apply (Hrd _ _ Hx).
  - intros t th Hth. eapply thread_ok_ends; [|by eapply Ht]. intros p x Hx. exists x.
    rewrite vars_close_chan, waiting_close_chan. done.
  - intros c' p. rewrite shut_close_chan_at by done. case_decide; [subst; intros _; apply Hkind|apply Hm].
  - done.
Qed.

(** A new pipe that nobody holds. *)
Lemma waiting_set_vars p f s : lobjs (f (vars s)) = lobjs (vars s) → waiting p (set_vars f s) = waiting p s.
Proof. intros H. by apply waiting_same. Qed.
Lemma link_new_inproc p self pr a s :
  wf s → link s → pobjs (vars s) !! p = None →
  let s' := new_inproc p self pr a s in
  link s' ∧ threads s' = threads s ∧ lobjs (vars s') = lobjs (vars s) ∧ byAddr (vars s') = byAddr (vars s) ∧
  asleep (vars s') = asleep (vars s) ∧ waiting p s' = 0 ∧
  has_pipe s' p (λ x, peer x = None ∧ unused s' x ∧ selfProto x = self ∧ peerProto x = pr ∧ addr x = a).
Proof.
  intros Hwf [Hr Ho Hk Hp Ht Hm Htb] Hnew s'.
  assert (waiting p s' = 0) as Hw0.
  { destruct (decide (waiting p s = 0)); [done|]. destruct (Hk p ltac:(lia)). congruence. }
  set (rd := (KReady p, fresh s)). set (cl := (KClose p, S (fresh s))).
  set (x := mkInproc None None cl rd self pr a None false []).
  assert (chans s !! cl = None) as Hcl0
    by (apply eq_None_not_Some; intros H%(wf_fresh_c s Hwf); cbn in H; lia).
  assert (∀ c, shut s' c = shut s c) as Hsh.
  { intros c. unfold s', new_inproc. cbn. unfold shut. cbn. rewrite !lookup_insert.
    repeat case_decide; subst; [|by rewrite make_chan_new|done].
    change (KClose p, S (fresh s)) with cl. by rewrite Hcl0. }
  assert (∀ c, is_Some (chans s !! c) → is_Some (chans s' !! c)) as Hcs.
  { intros c Hc. unfold s', new_inproc. cbn. rewrite !lookup_insert. by repeat case_decide. }
  assert (chans s' !! cl = Some (mkChan [] 0 false [] [])) as Hccl
    by (unfold s', new_inproc; cbn; by rewrite lookup_insert_eq).
  assert (chans s' !! rd = Some (mkChan [] 0 false [] [])) as Hcrd.
  { unfold s', new_inproc; cbn. rewrite lookup_insert_ne by done. by rewrite lookup_insert_eq. }
  assert (∀ q y, pobjs (vars s') !! q = Some y → (q = p ∧ y = x) ∨ pobjs (vars s) !! q = Some y) as Hold.
  { intros q y. unfold s', new_inproc. cbn. rewrite lookup_insert. case_decide; [|by right].
    intros [= <-]. by left. }
  assert (∀ q y, pobjs (vars s) !! q = Some y → pobjs (vars s') !! q = Some y) as Hkeep.
  { intros q y Hq. unfold s', new_inproc. cbn. rewrite lookup_insert_ne; [done|]. intros ->. congruence. }
  assert (pobjs (vars s') !! p = Some x) as Hpx by (unfold s', new_inproc; cbn; by rewrite lookup_insert_eq).
  assert (unused s' x) as Hux by (unfold unused, shut;
    change (readyq x) with rd; change (closeq x) with cl; by rewrite Hccl, Hcrd).
  split_and!; try done; [|by exists x].
  split.
  - done.
  - apply Ho.
  - intros q [y Hy]%Hk. exists y. by apply Hkeep.
  - intros q y [[-> ->]|Hy]%Hold.
    + split; try done.
      * intros _ _. destruct Hux as (_ & -> & _). done.
      * destruct Hux as (-> & _). done.
    + destruct (Hp _ _ Hy) as [[P0 P1] P2 P3 P4 P5 P6]. split; rewrite ?Hsh; try done.
      * split; by apply Hcs.
      * intros H. destruct (P2 H) as (? & ? & ?). unfold unused. by rewrite !Hsh.
      * intros r Hr'. destruct (P5 _ Hr') as (z & Hz & ?). exists z. eauto.
  - intros t th Hth. eapply thread_ok_ends; [|by eapply Ht]. intros q y Hy. exists y. auto.
  - intros c q. rewrite Hsh. apply Hm.
  - destruct Htb as [T1 T2 T3 T4 T5]. split; try done.
    intros l lx q Hl Hq. destruct (T4 _ _ _ Hl Hq) as (y & Hy & ?). exists y. auto.
Qed.

(** A pipe changes what it sent, or gets closed. *)
Lemma ends_same x x' :
  ends x' = ends x →
  peer x' = peer x ∧ closeq x' = closeq x ∧ readyq x' = readyq x ∧ selfProto x' = selfProto x ∧
  peerProto x' = peerProto x ∧ addr x' = addr x.
Proof. destruct x, x'. unfold ends. cbn. by intros [= -> -> -> -> -> -> -> ->]. Qed.

Lemma table_put σ ths p x x' :
  pobjs σ !! p = Some x → ends x' = ends x → table σ ths →
  table (σ <| pobjs ::= <[p := x']> |>) ths.
Proof.
  intros Hp E [T1 T2 T3 T4 T5]. destruct (ends_same _ _ E) as (E1 & _ & _ & E2 & E3 & E4). split; try done.
  intros l lx q Hl Hq. destruct (T4 _ _ _ Hl Hq) as (y & Hy & Hr). simpl. rewrite lookup_insert.
  case_decide; [|by exists y]. subst. rewrite Hy in Hp. apply (inj Some) in Hp. subst y.
  exists x'. rewrite E1, E2, E3, E4. done.
Qed.
Lemma link_put p x x' s :
  link s → pobjs (vars s) !! p = Some x → ends x' = ends x → is_Some (peer x) →
  once x' = once x → link (set_vars (λ σ, σ <| pobjs ::= <[p := x']> |>) s).
Proof.
  intros [Hr Ho Hk Hp Ht Hm Htb] Hx E Hpeer Eo.
  destruct (ends_same _ _ E) as (E1 & E2 & E3 & _).
  assert (∀ q y, pobjs (vars s) !! q = Some y →
    ∃ y', <[p := x']> (pobjs (vars s)) !! q = Some y' ∧ ends y' = ends y) as Hold.
  { intros q y Hy. rewrite lookup_insert. case_decide; [|by exists y]. subst.
    rewrite Hx in Hy. apply (inj Some) in Hy. subst y. by exists x'. }
  split.
  - done.
  - apply Ho.
  - intros q [y Hy]%Hk. destruct (Hold _ _ Hy) as (y' & ? & _). by exists y'.
  - intros q y Hy. simpl in Hy. rewrite lookup_insert in Hy. destruct (decide (p = q)) as [<-|Hne].
    + apply (inj Some) in Hy. subst y. destruct (Hp _ _ Hx) as [P1 P2 P3 P4 P5 P6].
      split; rewrite ?E1, ?E2, ?E3, ?Eo; try done.
      * unfold unused in *. by rewrite E2, E3, Eo.
      * intros r Hr'. destruct (P5 _ Hr') as (z & Hz & Hj). destruct (Hold _ _ Hz) as (z' & ? & ?).
        exists z'. split; [done|]. by eapply joined_ends.
      * intros Hn. rewrite Hn in Hpeer. by destruct Hpeer.
    + destruct (Hp _ _ Hy) as [P1 P2 P3 P4 P5 P6]. split; try done.
      intros r Hr'. destruct (P5 _ Hr') as (z & Hz & Hj). destruct (Hold _ _ Hz) as (z' & ? & ?).
      exists z'. split; [done|]. by eapply joined_ends.
  - intros t th Hth. eapply thread_ok_ends; [|by eapply Ht]. intros q y Hy.
    destruct (Hold _ _ Hy) as (y' & ? & ?). exists y'. done.
  - done.
  - by eapply table_put.
Qed.

(** [Close] on a pipe that was returned: the channel is open until [once] is set. *)
Lemma link_Close p s :
  typed s → link s → waiting p s = 0 → has_pipe s p (λ x, is_Some (peer x)) → link (Close p s).
Proof.
  intros Hty Hl Hw (x & Hx & Hpeer). unfold Close. rewrite Hx. destruct (once x) eqn:Honce; [done|].
  destruct Hl as [Hr Ho Hk Hp Ht Hm Htb]. destruct (Hp _ _ Hx) as [[P0 P1] P2 P3 P4 P5 P6].
  pose proof (P3 Hpeer Hw) as Hshut. rewrite Honce in Hshut.
  set (x' := x <| once := true |>). set (s1 := set_vars (λ σ, σ <| pobjs ::= <[p := x']> |>) s).
  assert (ends x' = ends x) as E by done.
  assert (∀ q y, pobjs (vars s) !! q = Some y → closeq y = closeq x → q = p) as Hclose.
  { intros q y Hy Ec. destruct (ty_vars _ Hty _ _ Hx) as [K1 _ _ _], (ty_vars _ Hty _ _ Hy) as [K2 _ _ _].
    rewrite Ec, K1 in K2. congruence. }
  assert (∀ q y, pobjs (vars s) !! q = Some y → readyq y ≠ closeq x) as Hready.
  { intros q y Hy Ec. destruct (ty_vars _ Hty _ _ Hx) as [K1 _ _ _], (ty_vars _ Hty _ _ Hy) as [_ K2 _ _].
    rewrite Ec, K1 in K2. congruence. }
  assert (∀ c, shut (close_chan (closeq x) s1) c = if decide (c = closeq x) then true else shut s c) as Hsh
    by (intros c; by rewrite (shut_close_chan_at _ _ s1)).
  assert (∀ q y, pobjs (vars s) !! q = Some y →
    ∃ y', <[p := x']> (pobjs (vars s)) !! q = Some y' ∧ ends y' = ends y) as Hold.
  { intros q y Hy. rewrite lookup_insert. case_decide; [|by exists y]. subst.
    rewrite Hx in Hy. apply (inj Some) in Hy. subst y. by exists x'. }
  assert (∀ q, waiting q (close_chan (closeq x) s1) = waiting q s) as Hwt
    by (intros q; by rewrite (waiting_close_chan q _ s1)).
  split.
  - by rewrite (crashed_close_chan _ s1).
  - intros q. rewrite Hwt. apply Ho.
  - intros q. rewrite Hwt, vars_close_chan. intros [y Hy]%Hk. destruct (Hold _ _ Hy) as (y' & ? & _). by exists y'.
  - intros q y. rewrite vars_close_chan. simpl. rewrite lookup_insert. intros Hy.
    destruct (decide (p = q)) as [<-|Hne].
    + apply (inj Some) in Hy. subst y. split; rewrite ?Hwt, ?vars_close_chan; try done.
      * split; by apply chans_close_chan.
      * lia.
      * intros _ _. rewrite Hsh. by rewrite decide_True.
      * intros r Hr'. destruct (P5 _ Hr') as (z & Hz & Hj). destruct (Hold _ _ Hz) as (z' & ? & ?).
        exists z'. split; [done|]. by eapply joined_ends.
      * intros Hn. destruct Hpeer as [? Hq]. cbn in Hn. congruence.
    + destruct (Hp _ _ Hy) as [[Q0 Q1] Q2 Q3 Q4 Q5 Q6]. split; rewrite ?Hwt, ?vars_close_chan; try done.
      * split; by apply chans_close_chan.
      * unfold unused. rewrite !Hsh. intros H. destruct (Q2 H) as (? & ? & ?).
        rewrite !decide_False; [done|intros Ec; by eapply Hne, eq_sym, Hclose|by eapply Hready].
      * rewrite Hsh. rewrite decide_False; [done|]. intros Ec. by eapply Hne, eq_sym, Hclose.
      * rewrite Hsh. rewrite decide_False; [done|by eapply Hready].
      * intros r Hr'. destruct (Q5 _ Hr') as (z & Hz & Hj). destruct (Hold _ _ Hz) as (z' & ? & ?).
        exists z'. split; [done|]. by eapply joined_ends.
  - intros t th. rewrite threads_close_chan. intros Hth. eapply thread_ok_ends; [|by eapply Ht].
    intros q y Hy. destruct (Hold _ _ Hy) as (y' & ? & ?). exists y'. rewrite vars_close_chan, Hwt. done.
  - intros c q. rewrite Hsh. case_decide; [|apply Hm]. subst. intros _.
    rewrite (pt_closeq _ _ (ty_vars _ Hty _ _ Hx)). done.
  - rewrite vars_close_chan, threads_close_chan. by eapply table_put.
Qed.

(** [Dial] joins its pipe to the one it took. *)
Lemma link_Dial_connect t c q s :
  wf s → link s → threads s !! t = Some (Connect c q) → link (Dial_connect t c q s).
Proof.
  intros Hwf [Hr Ho Hk Hp Ht Hm Htb] Hth.
  destruct (Ht _ _ Hth) as (Hne & x & Hx & Hxn & y & Hy & Hyn & Ea & Es & Ep).
  set (w := (KMsg q, fresh s) : chid). set (r := (KMsg c, S (fresh s)) : chid).
  set (y' := y <| wq := Some w |> <| rq := Some r |> <| peer := Some c |>).
  set (x' := x <| rq := Some w |> <| wq := Some r |> <| peer := Some q |>).
  set (s' := Dial_connect t c q s).
  assert (pobjs (vars s') = <[c := x']> (<[q := y']> (pobjs (vars s)))) as Hpobjs.
  { unfold s', Dial_connect. cbn. apply map_eq. intros p. rewrite !lookup_alter, !lookup_insert.
    repeat case_decide; subst; rewrite ?Hx, ?Hy; done. }
  assert (∀ p, waiting p s' = waiting p s) as Hwt.
  { intros p. pose proof (waiting_set_thread p t _ (ReadyServer c q) s Hth) as H. cbn [handles] in H.
    unfold s', Dial_connect, waiting in *. cbn in *. lia. }
  assert (chans s !! (KMsg c, S (fresh s)) = None) as Hr0
    by (apply eq_None_not_Some; intros H%(wf_fresh_c s Hwf); cbn in H; lia).
  assert (chans s !! (KMsg q, fresh s) = None) as Hw0
    by (apply eq_None_not_Some; intros H%(wf_fresh_c s Hwf); cbn in H; lia).
  assert (∀ k, shut s' k = shut s k) as Hsh.
  { intros k. unfold shut, s', Dial_connect. cbn. rewrite !lookup_insert.
    repeat case_decide; subst; [by rewrite Hr0|by rewrite Hw0|done]. }
  assert (∀ k, is_Some (chans s !! k) → is_Some (chans s' !! k)) as Hcs.
  { intros k Hc. unfold s', Dial_connect. cbn. rewrite !lookup_insert. by repeat case_decide. }
  assert (0 < waiting c s ∧ 0 < waiting q s) as [Hwc Hwq].
  { pose proof (waiting_holds c _ _ _ Hth) as H1. pose proof (waiting_holds q _ _ _ Hth) as H2.
    cbn [handles] in *. rewrite !occ_cons in *. repeat case_decide; try done; lia. }
  assert (∀ p z, pobjs (vars s) !! p = Some z → p ≠ c → p ≠ q → pobjs (vars s') !! p = Some z) as Hkeep.
  { intros p z Hz H1 H2. rewrite Hpobjs, !lookup_insert_ne by done. done. }
  assert (pobjs (vars s') !! c = Some x') as Hc' by (rewrite Hpobjs; apply lookup_insert_eq).
  assert (pobjs (vars s') !! q = Some y') as Hq'
    by (rewrite Hpobjs, lookup_insert_ne by done; apply lookup_insert_eq).
  assert (joined c q x' y' ∧ joined q c y' x') as [J1 J2] by (unfold joined; cbn; by split_and!).
  split.
  - done.
  - intros p. rewrite Hwt. apply Ho.
  - intros p. rewrite Hwt. intros [z Hz]%Hk. rewrite Hpobjs, !lookup_insert. repeat case_decide; eauto.
  - intros p z Hz. rewrite Hpobjs, !lookup_insert in Hz.
    destruct (decide (c = p)) as [<-|]; [|destruct (decide (q = p)) as [<-|]];
      try (apply (inj Some) in Hz; subst z).
    + destruct (Hp _ _ Hx) as [[P0 P1] P2 P3 P4 P5 P6].
      split; rewrite ?Hsh, ?Hwt; try done; [split; by apply Hcs| | |].
      * intros H. unfold unused. rewrite !Hsh. by apply P2.
      * lia.
      * intros p Ha. apply (inj Some) in Ha. subst p. by exists y'.
    + destruct (Hp _ _ Hy) as [[P0 P1] P2 P3 P4 P5 P6].
      split; rewrite ?Hsh, ?Hwt; try done; [split; by apply Hcs| | |].
      * intros H. unfold unused. rewrite !Hsh. by apply P2.
      * lia.
      * intros p Ha. apply (inj Some) in Ha. subst p. by exists x'.
    + destruct (Hp _ _ Hz) as [[P0 P1] P2 P3 P4 P5 P6].
      split; rewrite ?Hsh, ?Hwt; try done; [split; by apply Hcs| |].
      * intros H. unfold unused. rewrite !Hsh. by apply P2.
      * intros a Ha. destruct (P5 _ Ha) as (u & Hu & Hj). exists u. split; [|done].
        assert (is_Some (peer u)) as [b Hb] by (unfold joined in Hj; naive_solver).
        apply Hkeep; [done|intros ->|intros ->]; congruence.
  - intros t' th'. unfold s', Dial_connect at 1. cbn. rewrite lookup_insert.
    destruct (decide (t = t')) as [<-|Hnt]; intros H.
    { apply (inj Some) in H. subst th'. cbn. split; [done|]. split; [exists x'|exists y']; (split; [done|]);
        cbn; eauto. }
    pose proof (Ht _ _ H) as Hok. revert Hok. apply thread_ok_mono. intros p z Hz.
    assert (p = c ∨ p = q → p ∉ handles th') as Hnh.
    { intros Hpcq Hin. apply Hnt, (waiting_two p t _ t' th' s Hth H); [|done|apply Ho].
      cbn. set_solver. }
    destruct (decide (p = c)) as [->|Hpc]; [|destruct (decide (p = q)) as [->|Hpq]].
    + assert (z = x) as -> by congruence. exists x'. rewrite Hwt. split_and!; auto.
    + assert (z = y) as -> by congruence. exists y'. rewrite Hwt. split_and!; auto.
    + exists z. rewrite Hwt. split_and!; auto.
  - intros k p. rewrite Hsh. apply Hm.
  - destruct Htb as [T1 T2 T3 T4 T5]. split; try done.
    + intros l lx p Hl Hin. destruct (T4 _ _ _ Hl Hin) as (z & Hz & ? & ?).
      exists z. split; [|done]. apply Hkeep; [done|..]; intros ->;
        (eapply waiting_both; [exact Hth|exact Hl| |exact Hin|apply Ho]); cbn; set_solver.
    + intros t' Hin. destruct (T5 _ Hin) as (c1 & dx & l & lx & Ht' & H). exists c1, dx, l, lx.
      split; [|done]. unfold s', Dial_connect. cbn. rewrite lookup_insert_ne; [done|]. intros ->. congruence.
Qed.

(** ** Every step keeps it *)
Lemma resume_thread_ok s th i o v :
  typed s → link s → thread_ok s th → sel th !! i = Some o →
  match o, v with
  | ORecv c, Some _ => ∃ p, c.1 = KMsg p
  | ORecv c, None => shut s c = true
  | _, _ => True
  end → thread_ok s (fst (res th (Some i) v)).
Proof.
  intros Hty Hl Hth Hsel Hv. destruct th; cbn in Hsel; select_cases Hsel; cbn; try done.
  - destruct Hth as (x & Hx & -> & ->). destruct v as [a|].
    { destruct Hv as [p Hp]. rewrite (pt_readyq _ _ (ty_vars _ Hty _ _ Hx)) in Hp. done. }
    destruct (lk_pipe _ Hl _ _ Hx) as [_ P2 _ P4 _ _]. split; [|exists x; auto].
    destruct (decide (waiting q s = 0)); [done|]. destruct (P2 ltac:(lia)) as (H & _). congruence.
  - destruct Hth as (_ & x & Hx & Hw & _ & q & Hq & _). exists x. rewrite Hq. eauto.
  - destruct Hth as (_ & x & Hx & Hw & _ & q & Hq & _). exists x. rewrite Hq. eauto.
  - destruct Hth as (_ & x & Hx & Hw & _ & q & Hq & _). exists x. rewrite Hq. eauto.
  - destruct Hth as (_ & x & Hx & _ & _ & Hq & _). destruct v; by exists x.
  - destruct Hth as (_ & x & Hx & _ & _ & Hq & _). by exists x.
  - destruct Hth as (_ & x & Hx & _ & _ & Hq & _). by exists x.
Qed.
Lemma resume_handles th i o v : sel th !! i = Some o → handles th = [] ∧ handles (fst (res th (Some i) v)) = [].
Proof. intros Hsel. destruct th; cbn in Hsel; select_cases Hsel; by destruct v. Qed.
Lemma waiting_resume p t th i o v s :
  threads s !! t = Some th → sel th !! i = Some o →
  waiting p (resume_thread t th (Some i) v s) = waiting p s.
Proof.
  intros Ht Hsel. destruct (resume_handles th i o v Hsel) as [H1 H2]. unfold resume_thread.
  change (resume th (Some i) v) with (res th (Some i) v). destruct (res th (Some i) v) as [th' fr].
  pose proof (waiting_set_thread p t th th' s Ht) as Hw. cbn in H2. rewrite H1, H2 in Hw.
  change (waiting p (free fr (set_thread t th' s))) with (waiting p (set_thread t th' s)). lia.
Qed.

(** What the goroutines are after a case, and that no send is on a closed channel. *)
Lemma case_threads t th i s s' :
  wf s → typed s → link s → threads s !! t = Some th → case_done t th i s s' →
  crashed s' = false ∧
  ∀ k th', threads s' !! k = Some th' → threads s !! k = Some th' ∨ thread_ok s th'.
Proof.
  intros Hwf Hty Hl Ht Hd. pose proof (lk_run _ Hl) as Hr.
  assert (∀ k th o v j (s1 : state), threads s !! k = Some th → sel th !! j = Some o →
    match o, v with ORecv c, Some _ => ∃ p, c.1 = KMsg p | ORecv c, None => shut s c = true | _, _ => True end →
    (∀ k' th', threads s1 !! k' = Some th' → threads s !! k' = Some th' ∨ thread_ok s th') →
    ∀ k' th', threads (resume_thread k th (Some j) v s1) !! k' = Some th' →
      threads s !! k' = Some th' ∨ thread_ok s th') as Hres.
  { intros k x o v j s1 Hk Hsel Hv Hs1 k' th'. destruct (decide (k' = k)) as [->|].
    - rewrite threads_resume_eq. intros [= <-]. right. eapply resume_thread_ok; eauto. by eapply lk_thread.
    - rewrite threads_resume by done. apply Hs1. }
  assert (∀ c a, sel th !! i = Some (OSend c a) → ∃ p, c.1 = KMsg p) as Hsend.
  { intros c a Hsel. pose proof (ty_thread _ Hty _ _ Ht) as Hth.
    destruct th; cbn in Hsel; select_cases Hsel; simplify_eq. destruct Hth. eauto. }
  destruct Hd as [c ch a b Hsel Hch Hb|c ch Hsel Hch Hb Hcl|Hsel|c ch a Hsel Hch Hcl|c ch a Hsel Hch Hlen|c ch a t' x j Hsel Hch Hcap Hne Ht' Hsel'].
  - split; [unfold resume_thread; by destruct (resume _ _ _)|]. eapply Hres; [done..| |by left].
    cbn. destruct (ty_chan _ Hty c ch a Hch) as (p & ? & _); [|by exists p].
    rewrite (proj1 (wf_chan _ Hwf _ _ Hch)), Hb. set_solver.
  - split; [unfold resume_thread; by destruct (resume _ _ _)|]. eapply Hres; [done..| |by left].
    cbn. unfold shut. by rewrite Hch.
  - destruct th; cbn in Hsel; select_cases Hsel; done.
  - destruct (Hsend _ _ Hsel) as [p Hp]. destruct (lk_msgs _ Hl c p); [|done]. unfold shut. by rewrite Hch.
  - split; [unfold resume_thread; by destruct (resume _ _ _)|]. eapply Hres; [done..|by left].
  - split; [unfold resume_thread; by repeat destruct (resume _ _ _)|]. eapply Hres; [done..|].
    eapply Hres; [done..| |by left]. by apply (Hsend c a).
Qed.

Lemma link_case t th i r s s' :
  good s → link s → threads s !! t = Some th → do_case t th i r s = Some s' → link s'.
Proof.
  intros [Hwf _ Hty] Hl Ht Hdo.
  pose proof (advance_do_case _ _ _ _ _ _ Ht Hdo) as [_ Hadv _].
  pose proof (do_case_done _ _ _ _ _ _ Hdo) as Hd.
  assert (∀ c, shut s' c = shut s c) as Hsh' by (intros c; by eapply do_case_shut).
  pose proof (vars_do_case _ _ _ _ _ Hd) as Hv.
  assert (∀ p, waiting p s' = waiting p s) as Hwt.
  { intros p. destruct Hd as [c ch a b Hsel|c ch Hsel|Hsel|c ch a Hsel|c ch a Hsel|c ch a t' x j Hsel Hch Hcap Hne Ht' Hsel'];
      try (etrans; [eapply waiting_resume; [exact Ht|exact Hsel]|by apply waiting_same]).
    etrans; [eapply waiting_resume; [by rewrite threads_resume|exact Hsel]|].
    etrans; [eapply waiting_resume; [exact Ht'|exact Hsel']|]. by apply waiting_same. }
  destruct (case_threads _ _ _ _ _ Hwf Hty Hl Ht Hd) as [Hrun Hths].
  destruct Hl as [Hr Ho Hk Hp Hts Hm Htb]. split; rewrite ?Hv.
  - done.
  - intros p. rewrite Hwt. apply Ho.
  - intros p. rewrite Hwt. apply Hk.
  - intros p x Hx. destruct (Hp _ _ Hx) as [[[? P0] [? P1]] P2 P3 P4 P5 P6].
    split; rewrite ?Hwt, ?Hsh', ?Hv; try done.
    + destruct (Hadv _ _ P0) as (? & ? & _), (Hadv _ _ P1) as (? & ? & _). eauto.
    + unfold unused. by rewrite !Hsh'.
  - intros k th' Hth'. eapply thread_ok_ends; [|destruct (Hths _ _ Hth') as [H|H]; [by eapply Hts|exact H]].
    intros p x Hx. exists x. by rewrite Hv, Hwt.
  - intros c p. rewrite Hsh'. apply Hm.
  - destruct Htb as [T1 T2 T3 T4 T5]. split; try done. intros k Hin.
    destruct (T5 _ Hin) as (c & dx & l & lx & Hk' & H). exists c, dx, l, lx. split; [|done].
    exact (do_case_idle _ _ _ _ _ _ _ Ht Hd Hk' eq_refl).
Qed.

(** A goroutine that goes on or starts, and [asleep] with it. *)
Lemma table_threads σ ths ths' :
  (∀ t c dx, t ∈ asleep σ → ths !! t = Some (Dialing c dx) → ths' !! t = Some (Dialing c dx)) →
  table σ ths → table σ ths'.
Proof.
  intros H [T1 T2 T3 T4 T5]. split; try done. intros t Hin.
  destruct (T5 _ Hin) as (c & dx & l & lx & Ht & Hr). exists c, dx, l, lx. auto.
Qed.
(** Of a pipe that is held, but by nobody else, and has no peer. *)
Lemma held_unused s p :
  link s → 0 < waiting p s → has_pipe s p (λ x, peer x = None) →
  has_pipe s p (λ x, peer x = None ∧ unused s x).
Proof. intros Hl Hw (x & Hx & Hn). exists x. split_and!; auto. by eapply pk_held; [apply lk_pipe|]. Qed.

Lemma link_set_thread t th th' s :
  link s → threads s !! t = Some th → t ∉ asleep (vars s) →
  (∀ p, occ p (handles th') ≤ occ p (handles th)) →
  thread_ok (set_thread t th' s) th' → link (set_thread t th' s).
Proof.
  intros Hl Ht Hna Hocc Hok. eapply link_move; [exact Hl|done..| | |].
  - eapply table_threads; [|apply (lk_table _ Hl)]. intros t' c dx Hin Hth. simpl.
    rewrite lookup_insert_ne; [done|]. by intros ->.
  - intros p. left. pose proof (waiting_set_thread p t th th' s Ht). specialize (Hocc p). lia.
  - intros k x. simpl. rewrite lookup_insert. case_decide; [|by left]. intros [= <-]. by right.
Qed.
Lemma link_go th s :
  wf s → link s → handles th = [] → thread_ok (go th s) th → link (go th s).
Proof.
  intros Hwf Hl Hh Hok. assert (threads s !! fresh s = None) as Hnew
    by (apply eq_None_not_Some; intros H%(wf_fresh_t s Hwf); lia).
  eapply link_move; [exact Hl|done..| | |].
  - eapply table_threads; [|apply (lk_table _ Hl)]. intros t' c dx Hin Hth. simpl.
    rewrite lookup_insert_ne; [done|]. intros <-. congruence.
  - intros p. left. rewrite waiting_go, Hh, occ_nil by done. lia.
  - intros k x. simpl. rewrite lookup_insert. case_decide; [|by left]. intros [= <-]. by right.
Qed.
(** Only sleepers are [Dialing]. *)
Lemma awake t th s : link s → threads s !! t = Some th → (∀ c dx, th ≠ Dialing c dx) → t ∉ asleep (vars s).
Proof.
  intros Hl Ht Hne Hin. destruct (tb_asleep _ _ (lk_table _ Hl) _ Hin) as (c & dx & ? & ? & ? & _).
  simplify_eq. by eapply Hne.
Qed.

Lemma link_NewListener l a i s :
  link s → lobjs (vars s) !! l = None → link (snd (NewListener l a i s)).
Proof.
  intros Hl Hnew. unfold NewListener. destruct (StripScheme _ _); [|done]. cbn [snd].
  eapply link_move; [exact Hl|done..| | |by left].
  - destruct (lk_table _ Hl) as [T1 T2 T3 T4 T5]. split; simpl.
    + intros b k (lx & Hk & ?)%T1. exists lx. rewrite lookup_insert_ne by congruence. done.
    + intros k lx. rewrite lookup_insert. case_decide; [by intros [= <-]|apply T2].
    + intros k lx. rewrite lookup_insert. case_decide; [by intros [= <-]|apply T3].
    + intros k lx q. rewrite lookup_insert. case_decide; [intros [= <-]; simpl; set_solver|apply T4].
    + intros t (c & dx & k & lx & ? & ? & ? & ?)%T5. exists c, dx, k, lx.
      rewrite lookup_insert_ne by congruence. done.
  - intros p. left. unfold waiting. simpl. rewrite map_sum_insert_new by done. simpl. lia.
Qed.
Lemma link_Dial p dx s :
  wf s → link s → pobjs (vars s) !! p = None → link (Dial p dx s).
Proof.
  intros Hwf Hl Hp. unfold Dial.
  destruct (link_new_inproc p (d_selfProto dx) (d_peerProto dx) (d_addr dx) s Hwf Hl Hp)
    as (Hl1 & Ht1 & _ & _ & _ & Hw1 & x & Hx & Hn & Hu & Es & Ep & Ea).
  destruct (okstep_new_inproc p (d_selfProto dx) (d_peerProto dx) (d_addr dx) s Hwf Hp) as [_ Hwf1].
  set (s1 := new_inproc _ _ _ _ _) in *. clearbody s1.
  assert (threads s1 !! fresh s1 = None) as Hnew
    by (apply eq_None_not_Some; intros H%(wf_fresh_t s1 Hwf1); lia).
  eapply link_move; [exact Hl1|done..| | |].
  - eapply table_threads; [|apply (lk_table _ Hl1)]. intros t' c dx' Hin Hth. simpl.
    rewrite lookup_insert_ne; [done|]. intros <-. congruence.
  - intros q. rewrite waiting_go by done. cbn [handles]. rewrite occ_cons, occ_nil.
    case_decide; [|left; lia]. subst. right. split; [lia|]. by exists x.
  - intros k th. simpl. rewrite lookup_insert. case_decide; [|by left]. intros [= <-]. right. by exists x.
Qed.

Lemma last_take {A} (l : list A) x : last l = Some x → take (length l - 1) l ++ [x] = l.
Proof.
  intros [l' ->]%last_Some. rewrite length_app. simpl.
  replace (length l' + 1 - 1) with (length l') by lia. by rewrite take_app_length.
Qed.
(** The table after one listener changed, with nobody asleep. *)
Lemma table_listener σ ths l lx lx' :
  lobjs σ !! l = Some lx → l_addr lx' = l_addr lx → active lx' = active lx → l_closed lx' = l_closed lx →
  l_selfProto lx' = l_selfProto lx → l_peerProto lx' = l_peerProto lx →
  (accepters lx' ≠ [] → active lx = true ∧ l_closed lx = false) →
  (∀ q, q ∈ accepters lx' → q ∈ accepters lx ∨ ∃ x, pobjs σ !! q = Some x ∧ peer x = None ∧
     selfProto x = l_selfProto lx ∧ peerProto x = l_peerProto lx ∧ addr x = l_addr lx) →
  (accepters lx ≠ [] ∨ asleep σ = ∅) →
  table σ ths → table (σ <| lobjs ::= <[l := lx']> |>) ths.
Proof.
  intros Hl Ea Eac Ecl Es Ep Hidle Hacc Hsl [T1 T2 T3 T4 T5]. split; simpl.
  - intros a k (y & Hk & ? & ? & ?)%T1. destruct (decide (l = k)) as [<-|].
    + exists lx'. rewrite lookup_insert_eq, Ea, Eac, Ecl. by simplify_eq.
    + exists y. by rewrite lookup_insert_ne.
  - intros k y. rewrite lookup_insert. case_decide; [|apply T2]. intros [= <-]. subst.
    rewrite Ea, Eac, Ecl. by apply T2.
  - intros k y. rewrite lookup_insert. case_decide; [|apply T3]. intros [= <-]. subst.
    rewrite Eac, Ecl. done.
  - intros k y q. rewrite lookup_insert. case_decide; [|apply T4]. intros [= <-] Hq. subst.
    rewrite Ea, Es, Ep. destruct (Hacc q Hq); eauto.
  - intros t Hin. destruct Hsl as [Hne|He]; [|rewrite He in Hin; set_solver].
    destruct (T5 _ Hin) as (c & dx & k & y & ? & ? & Hk & Hy & ?). exists c, dx, k, y.
    rewrite lookup_insert_ne; [done|]. intros <-. simplify_eq. 
Qed.

Lemma link_Dial_turn t c dx s s' :
  link s → threads s !! t = Some (Dialing c dx) → t ∉ asleep (vars s) →
  Dial_turn t c dx s = Some s' → link s'.
Proof.
  intros Hl Ht Hna. unfold Dial_turn. pose proof (lk_thread _ Hl _ _ Ht) as Hok.
  assert (∀ e, link (set_thread t (DialRet (Err e)) s)) as Herr.
  { intros e. eapply link_set_thread; [done..| |done]. intros p. cbn [handles]. rewrite occ_nil. lia. }
  destruct (byAddr _ !! _) as [l|] eqn:Hby; [|by intros [= <-]].
  intros Hs. apply bind_Some in Hs as (lx & Hlx & Hs). apply bind_Some in Hs as (cx & Hcx & Hs).
  destruct Hok as (cx' & Hcx' & Hcn & Ecs & Ecp & Eca). assert (cx' = cx) as -> by congruence. clear Hcx'.
  case_decide as Hproto; [by simplify_eq|].
  assert (selfProto cx = l_peerProto lx ∧ peerProto cx = l_selfProto lx) as [Es Ep].
  { split; apply dec_stable; tauto. }
  destruct (last (accepters lx)) as [q|] eqn:Hlast; apply (inj Some) in Hs; subst s'.
  - pose proof (last_take _ _ Hlast) as Htake.
    set (lx' := lx <| accepters := take (length (accepters lx) - 1) (accepters lx) |>).
    assert (q ∈ accepters lx) as Hq by (rewrite <-Htake; set_solver).
    assert (accepters lx = accepters lx' ++ [q]) as Eacc by (by rewrite <-Htake).
    destruct (tb_accepters _ _ (lk_table _ Hl) _ _ _ Hlx Hq) as (y & Hy & Hyn & Eys & Eyp & Eya).
    assert (c ≠ q) as Hcq.
    { intros <-. eapply (waiting_both c); [exact Ht|exact Hlx| |exact Hq|apply (lk_once _ Hl)]. cbn. set_solver. }
    assert (∀ p, waiting p (set_thread t (Connect c q) (set_vars (λ σ, σ <| lobjs ::= <[l := lx']> |>) s)) =
      waiting p s) as Hwt.
    { intros p. pose proof (waiting_lobjs p l lx lx' s Hlx) as H1.
      pose proof (waiting_set_thread p t _ (Connect c q) (set_vars (λ σ, σ <| lobjs ::= <[l := lx']> |>) s) Ht) as H2.
      cbn [handles] in H2. rewrite Eacc, occ_app in H1. rewrite !occ_cons, occ_nil in *. lia. }
    eapply link_move; [exact Hl|done..| | |].
    + eapply table_threads; [|eapply table_listener; [exact Hlx|done..| | | |apply (lk_table _ Hl)]].
      * intros t' c' dx' Hin Hth. simpl. rewrite lookup_insert_ne; [done|]. by intros <-.
      * intros _. apply (tb_idle _ _ (lk_table _ Hl) _ _ Hlx). by rewrite Eacc; destruct (accepters lx').
      * intros p Hp. left. rewrite Eacc. set_solver.
      * left. rewrite Eacc. by destruct (accepters lx').
    + intros p. left. by rewrite Hwt.
    + intros k th. simpl. rewrite lookup_insert. case_decide; [|by left]. intros [= <-]. right.
      split; [done|]. exists cx. split; [done|]. split; [done|]. exists y. split; [done|]. split_and!; try done; try congruence.
      rewrite Eca, Eya. symmetry. destruct (tb_reg _ _ (lk_table _ Hl) _ _ Hby) as (z & Hz & ? & _). by simplify_eq.
  - eapply link_move; [exact Hl|done..| |by left|by left].
    destruct (lk_table _ Hl) as [T1 T2 T3 T4 T5]. split; try done.
    intros k. simpl. rewrite elem_of_union, elem_of_singleton. intros [->|Hin]; [|by apply T5].
    exists c, dx, l, lx. split_and!; try done; try congruence. by apply last_None.
Qed.

Lemma link_ready_server t c q qx s :
  typed s → link s → threads s !! t = Some (ReadyServer c q) → pobjs (vars s) !! q = Some qx →
  link (ready_server t c qx s).
Proof.
  intros Hty Hl Ht Hq. unfold ready_server. destruct (lk_thread _ Hl _ _ Ht) as (Hne & Hc & y & Hy & Hpeer).
  assert (y = qx) as -> by congruence. pose proof (lk_pipe _ Hl _ _ Hq) as Hok.
  pose proof (waiting_holds q _ _ _ Ht) as Hw. pose proof (lk_once _ Hl q) as Ho.
  pose proof (waiting_set_thread q t _ (ReadyClient c) s Ht) as Hws.
  cbn [handles] in *. rewrite !occ_cons, occ_nil in *. rewrite (decide_True (P := q = q)) in * by done.
  rewrite (decide_False (P := c = q)) in * by done.
  destruct (pk_held _ _ _ Hok ltac:(lia)) as (U1 & U2 & U3).
  pose proof (pt_readyq _ _ (ty_vars _ Hty _ _ Hq)) as Hk.
  apply link_close_chan.
  - eapply link_set_thread; [done..|by eapply awake| |done]. intros p. cbn [handles]. rewrite !occ_cons. lia.
  - apply (pk_chans _ _ _ Hok).
  - done.
  - intros p. by rewrite Hk.
  - intros p x Hx E. pose proof (pt_closeq _ _ (ty_vars _ Hty _ _ Hx)) as Hk'. rewrite E, Hk in Hk'. done.
  - intros p x Hx E. pose proof (pt_readyq _ _ (ty_vars _ Hty _ _ Hx)) as Hk'. rewrite E, Hk in Hk'.
    assert (p = q) as -> by congruence. change (pobjs (vars s) !! q = Some x) in Hx.
    assert (x = qx) as -> by congruence. split; [done|lia].
Qed.
Lemma link_ready_client t c cx s :
  typed s → link s → threads s !! t = Some (ReadyClient c) → pobjs (vars s) !! c = Some cx →
  link (ready_client t c cx s).
Proof.
  intros Hty Hl Ht Hc. unfold ready_client. destruct (lk_thread _ Hl _ _ Ht) as (y & Hy & Hpeer).
  assert (y = cx) as -> by congruence. pose proof (lk_pipe _ Hl _ _ Hc) as Hok.
  pose proof (waiting_holds c _ _ _ Ht) as Hw. pose proof (lk_once _ Hl c) as Ho.
  pose proof (waiting_set_thread c t _ (DialRet (Ok c)) s Ht) as Hws.
  cbn [handles] in *. rewrite !occ_cons, occ_nil in *. rewrite (decide_True (P := c = c)) in * by done.
  destruct (pk_held _ _ _ Hok ltac:(lia)) as (U1 & U2 & U3).
  pose proof (pt_readyq _ _ (ty_vars _ Hty _ _ Hc)) as Hk.
  apply link_close_chan.
  - eapply link_set_thread; [done..|by eapply awake| |]; [intros p; cbn [handles]; rewrite occ_nil; lia|].
    split; [lia|]. by exists cx.
  - apply (pk_chans _ _ _ Hok).
  - done.
  - intros p. by rewrite Hk.
  - intros p x Hx E. pose proof (pt_closeq _ _ (ty_vars _ Hty _ _ Hx)) as Hk'. rewrite E, Hk in Hk'. done.
  - intros p x Hx E. pose proof (pt_readyq _ _ (ty_vars _ Hty _ _ Hx)) as Hk'. rewrite E, Hk in Hk'.
    assert (p = c) as -> by congruence. change (pobjs (vars s) !! c = Some x) in Hx.
    assert (x = cx) as -> by congruence. split; [done|lia].
Qed.
Lemma link_Close_next t qs s s' :
  typed s → link s → threads s !! t = Some (CloseServers qs) → Close_next t qs s = Some s' → link s'.
Proof.
  intros Hty Hl Ht. unfold Close_next. destruct qs as [|q qs].
  { intros [= <-]. eapply link_set_thread; [done..|by eapply awake|done|done]. }
  intros Hs. apply bind_Some in Hs as (x & Hx & Hs). apply (inj Some) in Hs. subst s'.
  pose proof (lk_thread _ Hl _ _ Ht) as Hqs. destruct (Hqs q ltac:(by left)) as (y & Hy & Hn).
  assert (y = x) as -> by congruence. pose proof (lk_pipe _ Hl _ _ Hx) as Hok.
  pose proof (waiting_holds q _ _ _ Ht) as Hw. pose proof (lk_once _ Hl q) as Ho.
  pose proof (waiting_set_thread q t _ (CloseServers qs) s Ht) as Hws.
  cbn [handles] in *. rewrite !occ_cons in *. rewrite (decide_True (P := q = q)) in * by done.
  destruct (pk_held _ _ _ Hok ltac:(lia)) as (U1 & U2 & U3).
  pose proof (pt_closeq _ _ (ty_vars _ Hty _ _ Hx)) as Hk.
  apply link_close_chan.
  - eapply link_set_thread; [done..|by eapply awake| |].
    + intros p. cbn [handles]. rewrite occ_cons. lia.
    + intros p Hp. apply Hqs. by right.
  - apply (pk_chans _ _ _ Hok).
  - done.
  - intros p. by rewrite Hk.
  - intros p z Hz E. pose proof (pt_closeq _ _ (ty_vars _ Hty _ _ Hz)) as Hk'. rewrite E, Hk in Hk'.
    assert (p = q) as -> by congruence. change (pobjs (vars s) !! q = Some z) in Hz.
    assert (z = x) as -> by congruence. split; [done|lia].
  - intros p z Hz E. pose proof (pt_readyq _ _ (ty_vars _ Hty _ _ Hz)) as Hk'. rewrite E, Hk in Hk'. done.
Qed.

Lemma table_wake σ ths : table σ ths → table (σ <| asleep := ∅ |>) ths.
Proof. intros [T1 T2 T3 T4 T5]. split; try done. Qed.
Lemma link_Listen l lx s :
  link s → lobjs (vars s) !! l = Some lx → link (snd (Listen l lx s)).
Proof.
  intros Hl Hlx. unfold Listen. destruct (l_closed lx) eqn:Hcl; [done|].
  destruct (byAddr _ !! _) eqn:Hby; [done|]. cbn [snd].
  set (lx' := lx <| active := true |>). destruct (lk_table _ Hl) as [T1 T2 T3 T4 T5].
  assert (accepters lx = []) as Hacc.
  { destruct (accepters lx) eqn:E; [done|]. destruct (T3 _ _ Hlx) as [Ha Hc]; [by rewrite E|].
    specialize (T2 _ _ Hlx Ha Hc). congruence. }
  eapply link_move; [exact Hl|done..| | |by left].
  - split; simpl.
    + intros a k. rewrite lookup_insert. case_decide as E.
      * intros [= <-]. exists lx'. rewrite lookup_insert_eq. by split_and!.
      * intros (y & Hy & Ey & ? & ?)%T1. exists y. rewrite lookup_insert_ne; [done|]. intros <-.
        congruence.
    + intros k y. rewrite lookup_insert. case_decide; [intros [= <-] _ _; subst; apply lookup_insert_eq|].
      intros Hk Ha Hc. specialize (T2 _ _ Hk Ha Hc). rewrite lookup_insert_ne; [done|]. intros E.
      rewrite E in Hby. congruence.
    + intros k y. rewrite lookup_insert. case_decide; [|apply T3]. intros [= <-]. cbn. by rewrite Hacc.
    + intros k y q. rewrite lookup_insert. case_decide; [|apply T4]. intros [= <-]. cbn. rewrite Hacc. set_solver.
    + set_solver.
  - intros p. left. pose proof (waiting_lobjs p l lx lx' s Hlx) as H.
    change (accepters lx') with (accepters lx) in H.
    etrans; [by apply Nat.eq_le_incl, (waiting_same p (set_vars (λ σ, σ <| lobjs ::= <[l := lx']> |>) s))|lia].
Qed.
Lemma link_listener_Close l lx s :
  wf s → link s → lobjs (vars s) !! l = Some lx → link (listener_Close l lx s).
Proof.
  intros Hwf Hl Hlx. unfold listener_Close.
  set (lx' := lx <| accepters := [] |> <| l_closed := true |>).
  assert (threads s !! fresh s = None) as Hnew
    by (apply eq_None_not_Some; intros H%(wf_fresh_t s Hwf); lia).
  destruct (lk_table _ Hl) as [T1 T2 T3 T4 T5].
  eapply link_move; [exact Hl|done..| | |].
  - split; simpl.
    + intros a k. destruct (decide (byAddr (vars s) !! l_addr lx = Some l)) as [Hd|Hd]; simpl.
      * rewrite lookup_delete. case_decide; [done|]. intros (y & Hy & Ey & ? & ?)%T1. exists y.
        rewrite lookup_insert_ne; [done|]. intros <-. by simplify_eq.
      * intros Ha. destruct (T1 _ _ Ha) as (y & Hy & Ey & ? & ?). exists y. rewrite lookup_insert_ne; [done|].
        intros <-. simplify_eq.
    + intros k y. rewrite lookup_insert. case_decide as E; [intros [= <-]; done|]. intros Hk Ha Hc.
      specialize (T2 _ _ Hk Ha Hc). case_decide; [|done]. rewrite lookup_delete_ne; [done|]. congruence.
    + intros k y. rewrite lookup_insert. case_decide; [|apply T3]. by intros [= <-].
    + intros k y q. rewrite lookup_insert. case_decide; [|apply T4]. intros [= <-]. cbn. set_solver.
    + set_solver.
  - intros p. left. pose proof (waiting_lobjs p l lx lx' s Hlx) as H.
    change (accepters lx') with (@nil pid) in H. rewrite occ_nil in H.
    rewrite waiting_go by (by apply wf_vars, wf_vars). cbn [handles].
    etrans; [apply Nat.add_le_mono_r, Nat.eq_le_incl,
      (waiting_same p (set_vars (λ σ, σ <| lobjs ::= <[l := lx']> |>) s)); done|lia].
  - intros k th. simpl. rewrite lookup_insert. case_decide; [|by left]. intros [= <-]. right.
    intros q Hq. destruct (T4 _ _ _ Hlx Hq) as (x & ? & ? & _). by exists x.
Qed.
Lemma link_Accept l lx q s :
  wf s → link s → lobjs (vars s) !! l = Some lx → pobjs (vars s) !! q = None → link (Accept l lx q s).
Proof.
  intros Hwf Hl Hlx Hq. unfold Accept.
  destruct (link_new_inproc q (l_selfProto lx) (l_peerProto lx) (l_addr lx) s Hwf Hl Hq)
    as (Hl1 & Ht1 & Hlo & _ & _ & Hw1 & x & Hx & Hn & Hu & Es & Ep & Ea).
  destruct (okstep_new_inproc q (l_selfProto lx) (l_peerProto lx) (l_addr lx) s Hwf Hq) as [_ Hwf1].
  set (s1 := new_inproc _ _ _ _ _) in *. clearbody s1. rewrite <-Hlo in Hlx.
  destruct (negb (active lx) || l_closed lx) eqn:Hcl; [by apply link_go|].
  apply orb_false_elim in Hcl as [Hac Hcl]. apply negb_false_iff in Hac.
  set (lx' := lx <| accepters ::= λ y, y ++ [q] |>).
  change (pobjs (vars (Broadcast _)) !! q) with (pobjs (vars s1) !! q). rewrite Hx.
  assert (threads s1 !! fresh s1 = None) as Hnew
    by (apply eq_None_not_Some; intros H%(wf_fresh_t s1 Hwf1); lia).
  assert (table (vars s1 <| asleep := ∅ |> <| lobjs ::= <[l := lx']> |>) (threads s1)) as Htb.
  { apply (table_listener _ _ l lx); try done; [|by right|apply table_wake, (lk_table _ Hl1)].
    intros p. cbn. rewrite elem_of_app, list_elem_of_singleton. intros [?| ->]; [by left|].
    right. by exists x. }
  eapply link_move; [exact Hl1|done..| | |].
  - eapply table_threads; [|exact Htb]. 
    intros t c dx Hin Hth. simpl. rewrite lookup_insert_ne; [done|]. intros <-. congruence.
  - intros p. rewrite waiting_go by (by apply wf_vars, wf_vars).
    pose proof (waiting_lobjs p l lx lx' s1 Hlx) as H. cbn [handles].
    change (accepters lx') with (accepters lx ++ [q]) in H. rewrite occ_app, occ_cons, !occ_nil in H.
    rewrite (waiting_same p (set_vars (λ σ, σ <| lobjs ::= <[l := lx']> |>) s1)) by done.
    rewrite occ_nil. case_decide; [subst|left; lia]. right. split; [lia|]. by exists x.
  - intros k th. simpl. rewrite lookup_insert. case_decide; [|by left]. intros [= <-]. right. by exists x.
Qed.

(** A pipe that was returned has two ends. *)
Lemma returned_joined t th p s :
  link s → threads s !! t = Some th → returned th = Some p →
  waiting p s = 0 ∧ ∃ x q y, pobjs (vars s) !! p = Some x ∧ pobjs (vars s) !! q = Some y ∧ joined p q x y.
Proof.
  intros Hl Ht Hr. assert (waiting p s = 0 ∧ has_pipe s p (λ x, is_Some (peer x))) as [H0 (x & Hx & q & Hq)].
  { pose proof (lk_thread _ Hl _ _ Ht) as Hok. by destruct th as [| | | |[]| |[]| | | | | |]; simplify_eq/=. }
  split; [done|]. destruct (pk_peer _ _ _ (lk_pipe _ Hl _ _ Hx) _ Hq) as (y & Hy & Hj). by exists x, q, y.
Qed.
Lemma link_give l s : link s → link (give l s).
Proof. intros Hl. eapply link_move; [exact Hl|done..|apply (lk_table _ Hl)|by left|by left]. Qed.
Lemma link_Send t th p m n s :
  wf s → link s → threads s !! t = Some th → returned th = Some p → link (Send p m n s).
Proof.
  intros Hwf Hl Ht Hr. destruct (returned_joined _ _ _ _ Hl Ht Hr) as (Hw & x & q & y & Hx & Hy & Hj).
  pose proof Hj as (Hne & Hpx & Hpy & _ & [w Hwq] & _). unfold Send. rewrite Hx, Hwq, Hpx, Hy.
  set (nm := mkMsg _ _ _ _). set (x' := x <| sent ::= _ |>).
  assert (link (set_vars (λ σ, σ <| pobjs ::= <[p := x']> |>) (give [nm] s))) as Hl1
    by (eapply link_put; [by apply link_give|exact Hx|done..]).
  apply link_go; [by apply wf_vars, wf_give|exact Hl1|done|].
  split.
  - rewrite waiting_go by (by apply wf_vars, wf_give). cbn [handles]. rewrite occ_nil.
    rewrite (waiting_same p s) by done. lia.
  - exists x'. split; [apply lookup_insert_eq|]. split_and!; [done..|]. exists q. split; [done|].
    exists y. split; [|done]. simpl. by rewrite lookup_insert_ne.
Qed.
Lemma link_Recv t th p s :
  wf s → link s → threads s !! t = Some th → returned th = Some p → link (Recv p s).
Proof.
  intros Hwf Hl Ht Hr. destruct (returned_joined _ _ _ _ Hl Ht Hr) as (Hw & x & q & y & Hx & Hy & Hj).
  pose proof Hj as (Hne & Hpx & Hpy & [r Hrq] & _). unfold Recv. rewrite Hx, Hrq, Hpx, Hy.
  apply link_go; [done..|]. split.
  - rewrite waiting_go by done. cbn [handles]. rewrite occ_nil. lia.
  - exists x. split; [done|]. split_and!; [done..|]. by exists y.
Qed.

Lemma link_ext e s s' : good s → link s → ext e s = Some s' → link s'.
Proof.
  intros [Hwf _ Hty] Hl. destruct e; cbn [ext];
    try match goal with
    | |- context [match threads s !! ?t with _ => _ end] =>
        destruct (threads s !! t) as [[]|] eqn:Ht; try done
    end.
  - intros [_ [= <-]]%guard_bind_Some. unfold NewDialer. destruct (StripScheme _ _); [|done].
    eapply link_move; [exact Hl|done..|by destruct (lk_table _ Hl)|by left|by left].
  - intros [Hn [= <-]]%guard_bind_Some. by apply link_NewListener.
  - intros Hs. apply bind_Some in Hs as (dx & _ & [Hp [= <-]]%guard_bind_Some). by apply link_Dial.
  - intros [Hna Hs]%guard_bind_Some. by eapply link_Dial_turn.
  - intros [= <-]. by apply link_Dial_connect.
  - intros Hs. apply bind_Some in Hs as (x & Hx & [= <-]). by eapply link_ready_server.
  - intros Hs. apply bind_Some in Hs as (x & Hx & [= <-]). by eapply link_ready_client.
  - intros Hs. apply bind_Some in Hs as (lx & Hlx & [= <-]). by apply link_Listen.
  - intros Hs. apply bind_Some in Hs as (lx & Hlx & [Hq [= <-]]%guard_bind_Some). by apply link_Accept.
  - intros Hs. apply bind_Some in Hs as (lx & Hlx & [= <-]). by apply link_listener_Close.
  - by apply link_Close_next.
  - intros Hs. apply bind_Some in Hs as (th & Ht & Hs). apply bind_Some in Hs as (p & Hr & [_ [= <-]]%guard_bind_Some).
    by eapply link_Send.
  - intros Hs. apply bind_Some in Hs as (th & Ht & Hs). apply bind_Some in Hs as (p & Hr & [= <-]).
    by eapply link_Recv.
  - intros Hs. apply bind_Some in Hs as (th & Ht & Hs). apply bind_Some in Hs as (p & Hr & [= <-]).
    destruct (returned_joined _ _ _ _ Hl Ht Hr) as (Hw & x & q & y & Hx & _ & _ & Hq & _).
    apply link_Close; [done..|]. by exists x.
Qed.

Lemma link_start : link start.
Proof.
  split; cbn; try done.
  - intros p. unfold waiting. cbn. rewrite !map_sum_empty. lia.
  - intros p. unfold waiting. cbn. rewrite !map_sum_empty. lia.
Qed.
Lemma link_step l s s' : good s → link s → step l s = Some s' → link s'.
Proof.
  intros Hg Hl [_ Hs]%guard_bind_Some. destruct l as [t i r|t|e].
  - apply bind_Some in Hs as (th & Ht & Hs). by eapply link_case.
  - apply bind_Some in Hs as (th & Ht & [[Hd _] _]%guard_bind_Some). done.
  - by eapply link_ext.
Qed.
Lemma reachable_link s : reachable step init ok s → good s ∧ link s.
Proof.
  intros Hr. assert (good s ∧ link s); [|done]. induction Hr as [s ->|l s s' Hr IH _ Hs].
  - split; [by apply inproc_init_good|apply link_start].
  - destruct IH as [Hg Hl]. split; [|by eapply link_step].
    destruct Hg as [Hwf Hown Hty]. destruct (gstep_ok _ _ _ _ Hwf Hty Hs) as [Ha Ho Ht].
    split; [by apply Ha|auto|auto].
Qed.

(** ** Delivery *)

(** All channels are unbuffered. *)
Definition sync (s : state) : Prop := map_Forall (λ _ ch, cap ch = 0) (chans s).
Definition taken_on (s : state) (c : chid) : list msg := default [] (outs <$> chans s !! c).
Lemma sync_taken s c : wf s → sync s → taken_on s c = sent_on s c.
Proof.
  intros Hwf Hs. unfold taken_on, sent_on. destruct (chans s !! c) as [ch|] eqn:Hc; [|done]. simpl.
  destruct (wf_chan _ Hwf _ _ Hc) as [-> Hb]. rewrite (Hs _ _ Hc) in Hb.
  destruct (buf ch); [by rewrite app_nil_r|simpl in Hb; lia].
Qed.
Lemma sync_set_chan c ch s : cap ch = 0 → sync s → sync (s <| chans ::= <[c := ch]> |>).
Proof. intros Hc Hs. by apply map_Forall_insert_2. Qed.
Lemma sync_close_chan c s : sync s → sync (close_chan c s).
Proof.
  intros Hs. unfold close_chan. destruct (chans s !! c) as [ch|] eqn:Hc; [|done].
  destruct (cclosed ch); [done|]. apply sync_set_chan; [exact (Hs c ch Hc)|done].
Qed.
Lemma sync_resume t th i v s : sync s → sync (resume_thread t th i v s).
Proof. unfold sync. by rewrite chans_resume. Qed.
Lemma sync_case t th i s s' : case_done t th i s s' → sync s → sync s'.
Proof.
  intros Hd Hs. destruct Hd; repeat apply sync_resume; try done; 
    (apply sync_set_chan; [|done]); match goal with H : chans s !! ?c = Some ?ch |- _ => exact (Hs c ch H) end.
Qed.
Lemma sync_new_inproc p self pr a s : sync s → sync (new_inproc p self pr a s).
Proof. intros Hs. unfold sync. cbn. do 2 (apply map_Forall_insert_2; [done|]). done. Qed.
Lemma sync_ext e s s' : sync s → ext e s = Some s' → sync s'.
Proof.
  intros Hsy. destruct e; cbn [ext];
    try match goal with
    | |- context [match threads s !! ?t with _ => _ end] => destruct (threads s !! t) as [[]|]; try done
    end.
  - intros [_ [= <-]]%guard_bind_Some. unfold NewDialer. by case_match.
  - intros [_ [= <-]]%guard_bind_Some. unfold NewListener. by case_match.
  - intros Hs. apply bind_Some in Hs as (dx & _ & [_ [= <-]]%guard_bind_Some).
    change (sync (new_inproc p (d_selfProto dx) (d_peerProto dx) (d_addr dx) s)). by apply sync_new_inproc.
  - intros [_ Hs]%guard_bind_Some. revert Hs. unfold Dial_turn. case_match; [|by intros [= <-]].
    intros Hs. apply bind_Some in Hs as (lx & _ & Hs). apply bind_Some in Hs as (cx & _ & Hs).
    case_decide; [by simplify_eq|]. case_match; by simplify_eq.
  - intros [= <-]. unfold sync. cbn. do 2 (apply map_Forall_insert_2; [done|]). done.
  - intros Hs. apply bind_Some in Hs as (x & _ & [= <-]). by apply sync_close_chan.
  - intros Hs. apply bind_Some in Hs as (x & _ & [= <-]). by apply sync_close_chan.
  - intros Hs. apply bind_Some in Hs as (lx & _ & [= <-]). unfold Listen. repeat case_match; done.
  - intros Hs. apply bind_Some in Hs as (lx & _ & [_ [= <-]]%guard_bind_Some).
    pose proof (sync_new_inproc q (l_selfProto lx) (l_peerProto lx) (l_addr lx) s Hsy).
    unfold Accept. repeat case_match; done.
  - intros Hs. apply bind_Some in Hs as (lx & _ & [= <-]). done.
  - unfold Close_next. destruct qs as [|q qs]; [by intros [= <-]|].
    intros Hs. apply bind_Some in Hs as (x & _ & [= <-]). by apply sync_close_chan.
  - intros Hs. apply bind_Some in Hs as (th & _ & Hs). apply bind_Some in Hs as (p & _ & [Hn [= <-]]%guard_bind_Some).
    unfold Send. repeat case_match; done.
  - intros Hs. apply bind_Some in Hs as (th & _ & Hs). apply bind_Some in Hs as (p & _ & [= <-]).
    unfold Recv. repeat case_match; done.
  - intros Hs. apply bind_Some in Hs as (th & _ & Hs). apply bind_Some in Hs as (p & _ & [= <-]).
    unfold Close. repeat case_match; try done. by apply sync_close_chan.
Qed.

(** What [Send] reports: the message got through, or was freed. *)
Definition reported (s : state) (th : thread) : Prop :=
  match th with
  | SendRet p m w None => m ∈ sent_on s w
  | SendRet p m w (Some _) => m ∈ freed s
  | _ => True
  end.
Definition reports (s : state) : Prop := map_Forall (λ _, reported s) (threads s).

Lemma reported_mono s s' th :
  chans_le s s' → freed s `prefix_of` freed s' → reported s th → reported s' th.
Proof.
  intros Hc [l Hf]. destruct th as [| | | | | | | | |p m w [e|]| | |]; cbn; try done.
  - rewrite Hf. set_solver.
  - unfold sent_on. destruct (chans s !! w) as [ch|] eqn:Hw; [|simpl; set_solver].
    destruct (Hc _ _ Hw) as (ch' & -> & _ & [k Hk] & _). simpl. rewrite Hk. set_solver.
Qed.

Lemma freed_resume t th i v (s : state) :
  freed (resume_thread t th i v s) = freed s ++ snd (res th i v).
Proof.
  unfold resume_thread. change (resume th i v) with (res th i v). by destruct (res th i v).
Qed.
Lemma freed_case t th i (s s' : state) : case_done t th i s s' → freed s `prefix_of` freed s'.
Proof.
  intros []; rewrite ?freed_resume; cbn; rewrite ?freed_resume, <-?app_assoc; try (by apply prefix_app_r).
Qed.
Lemma case_frees t th i (s s' : state) k th' :
  threads s !! t = Some th → case_done t th i s s' → threads s' !! k = Some th' →
  threads s !! k = Some th' ∨
  ∃ th0 j o v, threads s !! k = Some th0 ∧ sel th0 !! j = Some o ∧ th' = fst (res th0 (Some j) v) ∧
    ∀ m, m ∈ snd (res th0 (Some j) v) → m ∈ freed s'.
Proof.
  intros Ht Hd Hk.
  assert (∀ s1 v, is_Some (sel th !! i) → k = t → s' = resume_thread t th (Some i) v s1 →
    ∃ th0 j o v, threads s !! k = Some th0 ∧ sel th0 !! j = Some o ∧ th' = fst (res th0 (Some j) v) ∧
      ∀ m, m ∈ snd (res th0 (Some j) v) → m ∈ freed s') as Hres.
  { intros s1 v [o Ho] -> ->. rewrite threads_resume_eq in Hk. exists th, i, o, v.
    split_and!; [done|done|by simplify_eq|]. intros m. rewrite freed_resume. set_solver. }
  destruct (decide (k = t)) as [Hkt|Hne].
  - right. destruct Hd as [c ch a b Hsel|c ch Hsel|Hsel|c ch a Hsel|c ch a Hsel|c ch a t' x j Hsel];
      (eapply Hres; [by eexists; exact Hsel|done|done]).
  - destruct Hd as [c ch a b Hsel|c ch Hsel|Hsel|c ch a Hsel|c ch a Hsel|c ch a t' x j Hsel Hch Hcap Hne' Ht' Hsel'];
      rewrite threads_resume in Hk by done; try (by left).
    destruct (decide (k = t')) as [->|]; [|rewrite threads_resume in Hk by done; by left].
    rewrite threads_resume_eq in Hk. right. exists x, j, (ORecv c), (Some a).
    split_and!; [done|done|by simplify_eq|]. intros m. rewrite !freed_resume.
    set_solver.
Qed.

Lemma reports_case t th i r s s' :
  good s → link s → threads s !! t = Some th → do_case t th i r s = Some s' → reports s → reports s'.
Proof.
  intros [Hwf _ Hty] Hl Ht Hdo Hrep k th' Hk.
  pose proof (advance_do_case _ _ _ _ _ _ Ht Hdo) as [_ Hadv _].
  pose proof (do_case_done _ _ _ _ _ _ Hdo) as Hd.
  assert (reported s th' → reported s' th') as Hmono by (apply reported_mono; [done|by eapply freed_case]).
  destruct (case_frees _ _ _ _ _ _ _ Ht Hd Hk) as [H|(th0 & j & o & v & Hk0 & Hsel & -> & Hfree)];
    [by apply Hmono, (Hrep k)|].
  destruct th0; cbn in Hsel; select_cases Hsel; try done; try (by destruct v); cbn in *;
    try (apply Hfree; by left).
  (* the send went through *)
  destruct (decide (k = t)) as [->|Hne].
  - assert (th = SendSel p m w cl pcl) as -> by congruence.
    destruct (do_case_threads _ _ _ _ _ _ _ Ht Hd Hk) as [H|(th1 & j & o & u & H1 & _ & Hown & _ & E)];
      [congruence|]. assert (th1 = SendSel p m w cl pcl) as -> by congruence.
    rewrite <-(Hown eq_refl) in Hd. assert (j = 0) as ->.
    { destruct j as [|j]; [done|]. by destruct u. }
    rewrite (do_case_send_open _ _ _ w m _ _ Hd eq_refl); [set_solver|].
    destruct (shut s w) eqn:Hs; [|done]. exfalso. eapply (lk_msgs _ Hl); [exact Hs|].
    by destruct (ty_thread _ Hty _ _ Ht).
  - destruct (do_case_threads _ _ _ _ _ _ _ Ht Hd Hk) as [H|(th1 & j & o & u & H1 & Hs1 & _ & Hoth & E)];
      [congruence|]. assert (th1 = SendSel p m w cl pcl) as -> by congruence.
    destruct (Hoth Hne) as [c ->]. destruct j as [|j]; [done|]. by destruct u.
Qed.

(** The sections do not report. *)
Lemma ext_threads e s s' k th :
  ext e s = Some s' → threads s' !! k = Some th →
  threads s !! k = Some th ∨ (∀ p m w e, th ≠ SendRet p m w e).
Proof.
  assert (∀ t (x : thread) (m : gmap thid thread), (∀ p m w e, x ≠ SendRet p m w e) →
    <[t := x]> m !! k = Some th → m !! k = Some th ∨ (∀ p m w e, th ≠ SendRet p m w e)) as Hins.
  { intros t x m Hx. rewrite lookup_insert. case_decide; [|by left]. intros [= <-]. by right. }
  destruct e; cbn [ext];
    try match goal with
    | |- context [match threads s !! ?t with _ => _ end] => destruct (threads s !! t) as [[]|]; try done
    end.
  - intros [_ [= <-]]%guard_bind_Some. unfold NewDialer. case_match; by left.
  - intros [_ [= <-]]%guard_bind_Some. unfold NewListener. case_match; by left.
  - intros Hs. apply bind_Some in Hs as (dx & _ & [_ [= <-]]%guard_bind_Some). by apply Hins.
  - intros [_ Hs]%guard_bind_Some. revert Hs. unfold Dial_turn. case_match; [|intros [= <-]; by apply Hins].
    intros Hs. apply bind_Some in Hs as (lx & _ & Hs). apply bind_Some in Hs as (cx & _ & Hs).
    case_decide; [simplify_eq; by apply Hins|]. case_match; simplify_eq; [by apply Hins|by left].
  - intros [= <-]. by apply Hins.
  - intros Hs. apply bind_Some in Hs as (x & _ & [= <-]). unfold ready_server. rewrite threads_close_chan. by apply Hins.
  - intros Hs. apply bind_Some in Hs as (x & _ & [= <-]). unfold ready_client. rewrite threads_close_chan. by apply Hins.
  - intros Hs. apply bind_Some in Hs as (lx & _ & [= <-]). unfold Listen. repeat case_match; by left.
  - intros Hs. apply bind_Some in Hs as (lx & _ & [_ [= <-]]%guard_bind_Some).
    unfold Accept. repeat case_match; try (by apply Hins). by left.
  - intros Hs. apply bind_Some in Hs as (lx & _ & [= <-]). by apply Hins.
  - unfold Close_next. destruct qs as [|q qs]; [intros [= <-]; by apply Hins|].
    intros Hs. apply bind_Some in Hs as (x & _ & [= <-]). rewrite threads_close_chan. by apply Hins.
  - intros Hs. apply bind_Some in Hs as (x & _ & Hs). apply bind_Some in Hs as (p & _ & [Hn [= <-]]%guard_bind_Some).
    unfold Send. repeat case_match; try (by left). by apply Hins.
  - intros Hs. apply bind_Some in Hs as (x & _ & Hs). apply bind_Some in Hs as (p & _ & [= <-]).
    unfold Recv. repeat case_match; try (by left). by apply Hins.
  - intros Hs. apply bind_Some in Hs as (x & _ & Hs). apply bind_Some in Hs as (p & _ & [= <-]).
    unfold Close. repeat case_match; try (by left). rewrite threads_close_chan. by left.
Qed.

(** Nor do they free anything. *)
Lemma ext_freed e s s' : ext e s = Some s' → freed s' = freed s.
Proof.
  destruct e; cbn [ext];
    try match goal with
    | |- context [match threads s !! ?t with _ => _ end] => destruct (threads s !! t) as [[]|]; try done
    end.
  - intros [_ [= <-]]%guard_bind_Some. unfold NewDialer. by case_match.
  - intros [_ [= <-]]%guard_bind_Some. unfold NewListener. by case_match.
  - intros Hs. by apply bind_Some in Hs as (dx & _ & [_ [= <-]]%guard_bind_Some).
  - intros [_ Hs]%guard_bind_Some. revert Hs. unfold Dial_turn. case_match; [|by intros [= <-]].
    intros Hs. apply bind_Some in Hs as (lx & _ & Hs). apply bind_Some in Hs as (cx & _ & Hs).
    case_decide; [by simplify_eq|]. case_match; by simplify_eq.
  - by intros [= <-].
  - intros Hs. apply bind_Some in Hs as (x & _ & [= <-]). by etrans; [apply freed_close_chan|].
  - intros Hs. apply bind_Some in Hs as (x & _ & [= <-]). by etrans; [apply freed_close_chan|].
  - intros Hs. apply bind_Some in Hs as (lx & _ & [= <-]). unfold Listen. by repeat case_match.
  - intros Hs. apply bind_Some in Hs as (lx & _ & [_ [= <-]]%guard_bind_Some).
    unfold Accept. by repeat case_match.
  - intros Hs. by apply bind_Some in Hs as (lx & _ & [= <-]).
  - unfold Close_next. destruct qs as [|q qs]; [by intros [= <-]|].
    intros Hs. apply bind_Some in Hs as (x & _ & [= <-]). by etrans; [apply freed_close_chan|].
  - intros Hs. apply bind_Some in Hs as (x & _ & Hs). apply bind_Some in Hs as (p & _ & [Hn [= <-]]%guard_bind_Some).
    unfold Send. by repeat case_match.
  - intros Hs. apply bind_Some in Hs as (x & _ & Hs). apply bind_Some in Hs as (p & _ & [= <-]).
    unfold Recv. by repeat case_match.
  - intros Hs. apply bind_Some in Hs as (x & _ & Hs). apply bind_Some in Hs as (p & _ & [= <-]).
    unfold Close. repeat case_match; try done. by rewrite freed_close_chan.
Qed.

Lemma reachable_delivery s :
  reachable step init ok s → good s ∧ link s ∧ refs_unique s ∧ sync s ∧ reports s.
Proof.
  intros Hr. destruct (reachable_link _ Hr) as [Hg Hl]. split_and!; [done..| | |].
  - by destruct (reachable_inproc _ _ Hr).
  - clear Hg Hl. revert s Hr. apply reachable_invariant; [by intros s ->; apply map_Forall_empty|].
    intros l s s' Hs _ [_ Hst]%guard_bind_Some. destruct l as [t i r|t|e].
    + apply bind_Some in Hst as (th & _ & Hd). by eapply sync_case; [eapply do_case_done|].
    + by apply bind_Some in Hst as (th & _ & [[Hd _] _]%guard_bind_Some).
    + by eapply sync_ext.
  - clear Hg Hl. induction Hr as [s ->|l s s' Hr IH _ Hst]; [by apply map_Forall_empty|].
    destruct (reachable_link _ Hr) as [Hg Hl]. pose proof (gstep_ok _ l s s') as Hok.
    destruct (Hok ltac:(apply Hg) ltac:(apply Hg) Hst) as [Ha _ _]. clear Hok.
    apply guard_bind_Some in Hst as [_ Hst]. destruct l as [t i r|t|e].
    + apply bind_Some in Hst as (th & Ht & Hd). by eapply reports_case.
    + by apply bind_Some in Hst as (th & _ & [[Hd _] _]%guard_bind_Some).
    + intros k th Hk. destruct (ext_threads _ _ _ _ _ Hst Hk) as [H|H].
      * eapply reported_mono; [by apply Ha| |by apply (IH k)]. rewrite (ext_freed _ _ _ Hst). done.
      * destruct th as [| | | | | | | | |p m w e'| | |]; try done. by destruct (H p m w e').
Qed.

(** The transport within a process, under every interleaving.  Nothing
    panics: no channel is closed twice, no pipe without a peer is used.  Pipes
    come in pairs whose protocols are each other's peers and whose channels are
    crossed, and those that [Dial] and [Accept] return have a peer.  What one
    side has taken is what the other has sent, in the same order; [Recv] returns
    copies of what was given to [Send] on the other side, none twice; and [Send]
    fails only when nobody gets the message. *)
Theorem inproc_delivers s (H : reachable step init ok s) :
  crashed s = false ∧
  (∀ p x q, pobjs (vars s) !! p = Some x → peer x = Some q →
     ∃ y, pobjs (vars s) !! q = Some y ∧ joined p q x y) ∧
  (∀ t th p, threads s !! t = Some th → returned th = Some p → has_pipe s p (λ x, is_Some (peer x))) ∧
  (∀ p x w, pobjs (vars s) !! p = Some x → wq x = Some w →
     taken_on s w = sent_on s w ∧ ∀ m, m ∈ sent_on s w → m ∈ sent x) ∧
  (∀ t p m w e, threads s !! t = Some (SendRet p m w e) →
     has_pipe s p (λ x, wq x = Some w) ∧
     match e with
     | None => m ∈ taken_on s w
     | Some _ => ∀ t' p' q' m', threads s !! t' = Some (RecvRet p' q' (Ok m')) → mref m' ≠ mref m
     end) ∧
  (∀ t p q m, threads s !! t = Some (RecvRet p q (Ok m)) →
     has_pipe s p (λ x, peer x = Some q) ∧ has_pipe s q (λ y, m ∈ sent y) ∧
     ∀ t' p' q' m', threads s !! t' = Some (RecvRet p' q' (Ok m')) → mref m' = mref m → t' = t).
Proof.
  destruct (reachable_delivery s H) as ([Hwf Hown Hty] & Hl & Hu & Hsy & Hrep). split_and!.
  - apply (lk_run _ Hl).
  - intros p x q Hx. by apply (lk_pipe _ Hl).
  - intros t th p Ht Hr. destruct (returned_joined _ _ _ _ Hl Ht Hr) as (_ & x & q & y & Hx & _ & _ & Hq & _).
    exists x. by rewrite Hq.
  - intros p x w Hx Hw. split; [by apply sync_taken|]. intros m Hm. unfold sent_on in Hm.
    destruct (chans s !! w) as [ch|] eqn:Hc; [|simpl in Hm; set_solver].
    destruct (ty_chan _ Hty _ _ _ Hc Hm) as (p' & Hk & y & Hy & ?).
    rewrite (pt_wq _ _ (ty_vars _ Hty _ _ Hx) _ Hw) in Hk. assert (p' = p) as -> by congruence.
    by simplify_eq.
  - intros t p m w e Ht. destruct (lk_thread _ Hl _ _ Ht) as (x & Hx & Hw & _). split; [by exists x|].
    pose proof (Hrep _ _ Ht) as Hr. destruct e as [e|]; cbn in Hr; [|by rewrite sync_taken].
    intros t' p' q' m' Ht' E. pose proof (unique_owner s (mref m) Hown Hu) as Ho. unfold owned in Ho.
    pose proof (map_sum_ge (λ th, kocc (mref m) (holds th)) _ _ _ Ht') as Hh. cbn in Hh.
    rewrite kocc_cons, kocc_nil in Hh. change (key m') with (mref m') in Hh. rewrite E, Nat.eqb_refl in Hh.
    assert (0 < kocc (mref m) (freed s)); [|cbn in *; lia].
    apply occ_elem_of. apply list_elem_of_fmap. by exists m.
  - intros t p q m Ht. split_and!; [apply (lk_thread _ Hl _ _ Ht)|apply (ty_thread _ Hty _ _ Ht)|].
    intros t' p' q' m' Ht' E. destruct (decide (t' = t)) as [|Hne]; [done|exfalso].
    pose proof (unique_owner s (mref m) Hown Hu) as Ho. unfold owned in Ho.
    rewrite (map_sum_delete _ _ _ _ Ht) in Ho.
    pose proof (map_sum_ge (λ th, kocc (mref m) (holds th)) (delete t (threads s)) t' _
      (eq_trans (lookup_delete_ne _ _ _ (not_eq_sym Hne)) Ht')) as Hh.
    cbn in Hh, Ho. rewrite kocc_cons, kocc_nil in Hh, Ho.
    change (key m') with (mref m') in Hh. change (key m) with (mref m) in Ho.
    rewrite E, Nat.eqb_refl in Hh. rewrite Nat.eqb_refl in Ho. lia.
Qed.

(** ** Progress *)

(** A closed channel is ready. *)
Lemma recv_shut t th i c (s : state) :
  sel th !! i = Some (ORecv c) → shut s c = true → is_Some (do_case t th i None s).
Proof.
  intros Hsel Hs. unfold do_case. change (select th !! i) with (sel th !! i). rewrite Hsel. simpl.
  unfold shut in Hs. destruct (chans s !! c) as [ch|]; simpl in *; [|done]. destruct (buf ch); [|eauto].
  rewrite Hs. eauto.
Qed.
Lemma closed_shut s p x : link s → pobjs (vars s) !! p = Some x → is_Some (peer x) → once x = true → shut s (closeq x) = true.
Proof.
  intros Hl Hx Hp Ho. destruct (lk_pipe _ Hl _ _ Hx) as [_ P2 P3 _ _ _].
  destruct (decide (waiting p s = 0)) as [Hw|Hw]; [by rewrite P3|].
  destruct (P2 ltac:(lia)) as (_ & _ & ?). congruence.
Qed.

(** Nobody waits in vain.  A [Dial] that sleeps has nothing to take: at its
    address there is an open listener with the right protocols where nobody
    accepts; a call of [Accept] or [Close] there, and any [Listen], wakes it;
    and a [Dial] that is awake can go on.  Once [Close] was called on either
    end of a link, every [Send] and [Recv] on both ends can return. *)
Theorem inproc_wakes s (H : reachable step init ok s) :
  (∀ t, t ∈ asleep (vars s) → ∃ c dx l lx,
     threads s !! t = Some (Dialing c dx) ∧ byAddr (vars s) !! d_addr dx = Some l ∧
     lobjs (vars s) !! l = Some lx ∧ active lx = true ∧ l_closed lx = false ∧ accepters lx = [] ∧
     d_selfProto dx = l_peerProto lx ∧ d_peerProto dx = l_selfProto lx) ∧
  (∀ l lx q, asleep (vars (listener_Close l lx s)) = ∅ ∧
     (fst (Listen l lx s) = None → asleep (vars (snd (Listen l lx s))) = ∅) ∧
     (active lx = true → l_closed lx = false → asleep (vars (Accept l lx q s)) = ∅)) ∧
  (∀ t c dx, threads s !! t = Some (Dialing c dx) → t ∉ asleep (vars s) → is_Some (step (LExt (EDialTurn t)) s)) ∧
  (∀ t th p q x y, threads s !! t = Some th →
     (∃ m w cl pcl, th = SendSel p m w cl pcl) ∨ (∃ r cl pcl, th = RecvSel p q r cl pcl) →
     pobjs (vars s) !! p = Some x → pobjs (vars s) !! q = Some y → joined p q x y →
     once x = true ∨ once y = true → ∃ i, is_Some (step (LCase t i None) s)).
Proof.
  destruct (reachable_link s H) as [[Hwf _ Hty] Hl]. pose proof (lk_table _ Hl) as Htb. split_and!.
  - intros t Hin. destruct (tb_asleep _ _ Htb _ Hin) as (c & dx & l & lx & Ht & Hby & Hlx & Hacc & ? & ?).
    destruct (tb_reg _ _ Htb _ _ Hby) as (lx' & Hlx' & _ & ? & ?). simplify_eq.
    exists c, dx, l, lx. by split_and!.
  - intros l lx q. split_and!; [done| |].
    + unfold Listen. destruct (l_closed lx); [done|]. by destruct (_ !! _).
    + intros Ha Hc. unfold Accept. rewrite Ha, Hc. simpl. by rewrite lookup_insert_eq.
  - intros t c dx Ht Hna. unfold step, gstep. rewrite (lk_run _ Hl). cbn. rewrite Ht.
    case_guard; [|done]. cbn. unfold Dial_turn. destruct (byAddr _ !! _) as [l|] eqn:Hby; [|eauto].
    destruct (tb_reg _ _ Htb _ _ Hby) as (lx & -> & _). cbn.
    destruct (lk_thread _ Hl _ _ Ht) as (x & -> & _). cbn.
    case_decide; [eauto|]. destruct (last _); eauto.
  - intros t th p q x y Ht Hth Hx Hy (_ & Hq & Hpy & _) Ho.
    assert (shut s (closeq x) = true ∨ shut s (closeq y) = true) as Hs.
    { destruct Ho as [Ho|Ho]; [left|right]; (eapply closed_shut; [done|done| |done]); by rewrite ?Hq, ?Hpy. }
    assert (∃ i c, sel th !! i = Some (ORecv c) ∧ shut s c = true) as (i & c & Hsel & Hsh).
    { pose proof (lk_thread _ Hl _ _ Ht) as Hok.
      destruct Hth as [(m & w & cl & pcl & ->)|(r & cl & pcl & ->)].
      - destruct Hok as (_ & x' & Hx' & _ & -> & q' & Hq' & z & Hz & ->). simplify_eq.
        destruct Hs; [exists 1|exists 2]; eexists; (split; [done|done]).
      - destruct Hok as (_ & x' & Hx' & _ & -> & Hq' & z & Hz & ->). simplify_eq.
        destruct Hs; [exists 1|exists 2]; eexists; (split; [done|done]). }
    exists i. unfold step, gstep. rewrite (lk_run _ Hl). cbn. rewrite Ht. cbn. by eapply recv_shut.
Qed.

(** A dialer arrives first and waits; a listener accepts, the two are joined, a
    message travels, and the dialer's end is closed. *)
Definition pair_info : ProtocolInfo := mkInfo ProtoPair ProtoPair "pair" "pair".
Definition meeting : list (label event) :=
  [LExt (ENewListener 0 "inproc://a" pair_info); LExt (ENewDialer 0 "inproc://a" pair_info);
   LExt (EListen 0); LExt (EDial 0 0); LExt (EDialTurn 2); LExt (EAccept 0 1); LExt (EDialTurn 2);
   LExt (EConnect 2); LExt (EReadyServer 2); LCase 5 0 None; LExt (EReadyClient 2)].
Definition talking : list (label event) :=
  meeting ++ [LExt (ERecv 5); LExt (ESend 2 (mkMsg [Byte.x01] [Byte.x61] (Some 7%Z) 0) 3);
   LCase 9 0 (Some (8, 0))].
Definition waiting_run : state := play step (λ _ _, true) (take 5 meeting) start.
Definition talking_run : state := play step (λ _ _, true) talking start.

Lemma inproc_delivers_witness :
  let m := mkMsg [] [Byte.x01; Byte.x61] None 3 in
  threads talking_run !! 8 = Some (RecvRet 1 0 (Ok m)) ∧
  has_pipe talking_run 1 (λ x, peer x = Some 0) ∧ has_pipe talking_run 0 (λ y, m ∈ sent y) ∧
  m ∈ taken_on talking_run (KMsg 0, 7).
Proof.
  assert (reachable step init ok talking_run) as Hr by (by apply play_reachable; [intros ? []|]).
  intros m. assert (threads talking_run !! 8 = Some (RecvRet 1 0 (Ok m))) as H8 by (by vm_compute).
  assert (threads talking_run !! 9 = Some (SendRet 0 m (KMsg 0, 7) None)) as H9 by (by vm_compute).
  destruct (inproc_delivers talking_run Hr) as (_ & _ & _ & _ & Hsend & Hrecv).
  destruct (Hrecv _ _ _ _ H8) as (? & ? & _). destruct (Hsend _ _ _ _ _ H9) as (_ & ?).
  by split_and!.
Defined.

(** ... and when the other end is closed, the next [Recv] can return. *)
Definition closed_run : state :=
  play step (λ _ _, true) (talking ++ [LExt (ERecv 5); LExt (EClose 2)]) start.
Lemma inproc_wakes_witness :
  asleep (vars waiting_run) = {[2]} ∧
  (∃ c dx l lx, threads waiting_run !! 2 = Some (Dialing c dx) ∧
     byAddr (vars waiting_run) !! d_addr dx = Some l ∧ lobjs (vars waiting_run) !! l = Some lx ∧
     accepters lx = []) ∧
  ∃ i, is_Some (step (LCase 10 i None) closed_run).
Proof.
  assert (reachable step init ok waiting_run) as Hw by (by apply play_reachable; [intros ? []|]).
  assert (reachable step init ok closed_run) as Hc by (by apply play_reachable; [intros ? []|]).
  assert (asleep (vars waiting_run) = {[2]}) as Ha by (by vm_compute).
  split_and!; [done| |].
  - destruct (proj1 (inproc_wakes waiting_run Hw) 2) as (c & dx & l & lx & ? & ? & ? & _ & _ & ? & _);
      [rewrite Ha; set_solver|]. by exists c, dx, l, lx.
  - destruct (pobjs (vars closed_run) !! 0) as [y|] eqn:Hy; [|by vm_compute in Hy].
    destruct (pobjs (vars closed_run) !! 1) as [x|] eqn:Hx; [|by vm_compute in Hx].
    destruct (threads closed_run !! 10) as [th|] eqn:Ht; [|by vm_compute in Ht].
    eapply (proj2 (proj2 (proj2 (inproc_wakes closed_run Hc))) 10 th 1 0 x y Ht).
    + right. revert Ht. vm_compute. intros [= <-]. eauto.
    + done.
    + done.
    + revert Hx Hy. vm_compute. intros [= <-] [= <-]. by split_and!; try eexists.
    + right. revert Hy. vm_compute. by intros [= <-].
Defined.
